(* ===== verification/_CoqProject ===== *)
-Q . S2P
Prelude.v
Text.v
Net.v
Log.v
Chord.v
Sha1.v
Lookup.v
Routing.v
LookupMain.v
OrdMap.v
Serve.v
Store.v
Names.v
Options.v
Stabilize.v
StabilizeInv.v
Ring.v
SimHops.v
Chunk.v
Replication.v
NodeServe.v
NodeServeSpec.v
Group.v
Manifest.v
ManifestTree.v
Repair.v
RepairSpec.v
RepairNodes.v
NodeMain.v
NodeMainSpec.v
Http.v
HttpSpec.v
Accept.v
Metrics.v
MetricsSpec.v
NodeMetrics.v
SimBalance.v
Pool.v
Transfer.v
TransferSpec.v
Client.v
ChunkMain.v
ClientMetrics.v
Collect.v
CollectSpec.v
UploadRace.v
GcMain.v
GcMainSpec.v
ClientSpec.v
Raft.v
RaftSpec.v
RaftCluster.v
RaftRefine.v
RaftInputs.v
RaftSafety.v
RaftWire.v
RaftLog.v
RaftOutputs.v
Replica.v
TrackerServe.v
TrackerMetrics.v
ExposedSpec.v
Tracker.v
NodeStart.v
TrackerMain.v
