(* ===== verification/Prelude.v ===== *)
(** * chord-dht-filesystem: a verification library

    The program stores files as chunks named by the SHA-1 of their bytes. Node
    processes form a Chord ring and keep the chunks, three copies each; a small
    group of tracker replicas, kept in agreement by Raft, maps file names to
    manifest keys; clients cut files, route to the owner of every chunk and read
    it back; a collector drops what no name leads to. This library models those
    parts as functions on explicit states and proves what makes them correct.

    ** Parts, files and the code they model

    All sources are under src/src.
    - [Prelude], [Text], [OrdMap]: byte strings with the C++ string operations
      the sources use, the strict readers of numbers, 64-bit wrap-around, record
      update, and [std::map] keyed by strings.
    - [Net] (net.h, net.cpp): frames over a stream that is cut into arbitrary
      segments. [Delivery] is what happened to an exchange. [Log] (log.h, log.cpp):
      structured lines and request ids. [Options]: reading a command line.
    - The ring. [Sha1] (sha1.h): a digest as text; [Chord] (chord.h, chord.cpp):
      identifiers, arcs, one routing step; [Lookup] (lookup.h, lookup.cpp): the
      originator's loop and the wire words; [Routing]: its theorems on a correct
      ring; [Stabilize] (stabilize.h, stabilize.cpp): a member's tables and their
      upkeep; [StabilizeInv], [Ring]: its invariant and theorems.
    - The chunks. [Store] (store.h, store.cpp): one process's files and index;
      [Chunk] (chunk.h, chunk.cpp): requests, the coordinator of a replicated
      write, the client's put and get; [Replication]: its theorems; [Repair]
      (repair.h, repair.cpp), [RepairSpec], [RepairNodes]: re-replication, what it
      promises, and those promises between processes answering with [Chunk].
    - The node (node.cpp). [Serve]: a connection as streams of bytes, shared with
      the tracker; [NodeServe], [NodeServeSpec]: the requests of a connection;
      [NodeMain], [NodeMainSpec]: options, members, background threads, and a ring
      of processes started from one file; [NodeStart]: the program up to its accept
      loop; [Accept]: the accept loops of every program.
    - Files. [Manifest] and [ManifestTree] (transfer.h, transfer.cpp): the trees
      that name a file's chunks; [Pool], [Transfer], [TransferSpec]: the worker
      pool, whole uploads and downloads, their theorems. [Client], [ClientSpec]
      (client.cpp): the commands of the client.
    - The tracker. [Names] (names.h, names.cpp): the replicated name map; [Group]
      (group.h, group.cpp): a client of the group; [Raft] (raft.h, raft.cpp),
      [RaftWire] (raft_wire.h, raft_wire.cpp), [RaftLog] (raft_log.h,
      raft_log.cpp): the consensus core, its messages and its file; [Replica]
      (replica.h, replica.cpp): core and names behind one lock. [RaftSpec] is an
      abstract protocol and proves it safe; [RaftCluster], [RaftRefine],
      [RaftInputs], [RaftSafety] show that every input of the code's core is steps
      of that protocol; [RaftOutputs] and [Tracker] lift it to groups of replicas
      that exchange lines of text with each other and with clients. [TrackerServe]
      and [TrackerMain] (tracker.cpp): its connections, its start and recovery.
    - Collection. [Collect] (collect.h, collect.cpp), [CollectSpec]; [UploadRace]: a
      collection that meets an upload under way; [GcMain], [GcMainSpec]
      (gc_main.cpp): the collector on the real network.
    - Metrics. [Http], [HttpSpec] (http.h, http.cpp): the scrape; [Metrics],
      [MetricsSpec] (metrics.h, metrics.cpp): instruments on binary64 numbers, the
      registry and its text; [NodeMetrics], [TrackerMetrics], [ClientMetrics]: what
      each program registers and counts; [ExposedSpec]: what a scrape shows of it.
    - Tools. [LookupMain] (lookup_main.cpp), [ChunkMain] (chunk_main.cpp), [SimHops]
      (sim_hops.cpp), [SimBalance] (sim_balance.cpp).

    The parts meet where the code makes them meet. A [Transport] or a
    [FrameTransport] is an exchange with another process over a state of the
    world; [Lookup], [Chunk], [Transfer], [Repair], [Collect] and the programs take
    one as an argument, and the theorems instantiate it with processes that answer through
    [handle_request] or [handle_chunk_request], with arbitrary answers, or with
    calls that are lost before or after they act. [Tracker] and [RaftCluster] have
    a network that loses, repeats and reorders.

    ** Modelling conventions

    - A string is the list of its bytes. A 64-bit identifier is a [Z] below 2^64
      with its wrap-around written out. Counters that cannot reach their width in
      the life of a process are numbers.
    - Code the program does not contain is a class: [RawSha1] (OpenSSL, of which
      only the length of a digest is known; as text it is [Sha1]), [Inet] (inet_pton and
      inet_ntop), and the answers of the operating system ([Os], [PutEnv], ...),
      which are arguments: any call may fail at any time.
    - A section under a lock is one function. Between two sections the other
      threads of the process act; where a theorem depends on them they are a
      parameter ([run_after], [ar_other]), a list of operations ([store_run],
      [drifts]) or a schedule ([Pool], [Chunk]). A removal of the store is two such
      steps; a write is one, though it takes its lock twice.
    - A crash keeps a prefix of what was written ([put_write], [batch_prefix]).
    - Fuel: loops that the code bounds by a counter use that counter; the others
      take a measure of their input as fuel, and a lemma shows that it is enough
      ([page_items], [hand_off_loop], [replay_fuel]), or the theorem asks for it
      and gives the bound ([resolve_manifest], [ask_group_returns]). A pool's
      schedule is long enough when [turns_enough] ([pool_returns]).

    ** Groups of theorems

    - Agreement: [election_safety], [log_matching], [leader_completeness],
      [state_machine_safety], [one_vote_per_term], [durable_before_output] over
      every execution of a group; [replicas_agree] and [acknowledged_write] for the
      tracker as its clients see it; [namespace_refines] for the map itself.
    - Durability: [save_is_durable], [crash_leaves_prefix], [tracker_restarts] for
      the log; [store_serves_its_index], [crash_in_put], [stored_for_a_grace_period]
      for the chunks; [acknowledged_means_replicated],
      [recorded_arc_is_replicated], [scrub_heals] for their copies.
    - Routing: [identifier_is_digest_prefix], [lookup_finds_owner],
      [wired_ring_routes], [started_ring_routes], [member_keeps_invariant],
      [never_claims_the_ring]; [simulation_replays_ring] and
      [predicted_as_coordinated] for the experiments.
    - Files: [upload_then_download], [tree_reads_back], [download_delivers],
      [put_then_get], [registers_only_whole_files], [ls_prints_every_name].
    - Collection: [collector_spares_listed_files], [drops_only_garbage],
      [upload_under_way_survives].
    - Serving: [start_is_sound] starts what [serving_keeps_the_process] keeps;
      [requests_answered_in_order], [tracker_answers_in_order],
      [no_connection_lost]; [scrape_is_answered], [families_are_exposed],
      [registry_stays_typed] and [buckets_count_observations] for the metrics;
      [log_lines_cannot_be_forged].
    - Text: the formats that are read again have their round trips (addresses,
      neighbour lists, manifests, Raft messages and records, log lines, labels,
      HTTP responses); of manifests and Raft messages the parser accepts exactly
      the texts the formatter writes.

    ** Not modelled

    The SHA-1 of OpenSSL and the address conversions of the C library; creating
    threads, beyond whether it fails, and signal handlers; usage texts, progress
    notes and the log lines of a join; the values of clocks, which are arguments
    where a result depends on them; the rendering of times and of the simulation's
    figures with a fixed number of decimals. The harnesses under tests and scripts
    are no part of the program. *)
From stdpp Require Export base tactics list strings gmap numbers relations.
From Stdlib Require Export ZArith NArith Lia.

(** ** Scopes and notations *)
#[export] Set Default Goal Selector "!".
Open Scope string_scope.
Open Scope nat_scope.
Open Scope list_scope.

(** [std::string] is a sequence of bytes. A string literal stands for its
    bytes through the coercion [lit]. *)
Abbreviation bytes := (list Ascii.ascii).
Definition lit (s : string) : bytes := String.list_ascii_of_string s.
Coercion lit : string >-> list.

(** ** Hint databases of the library *)
Create HintDb chordfs discriminated.
Create HintDb words discriminated.

(** ** Tactics *)

(** Split every [if] and [match] on a boolean comparison that occurs in the
    goal or in a hypothesis, keeping the equation. *)
Ltac split_ifs :=
  repeat match goal with
    | |- context [if ?b then _ else _] =>
        lazymatch b with context [if _ then _ else _] => fail | _ => destruct b eqn:? end
    | H : context [if ?b then _ else _] |- _ =>
        lazymatch b with context [if _ then _ else _] => fail | _ => destruct b eqn:? end
    end.

(** Turn boolean comparisons in the hypotheses into propositions [lia] reads. *)
Ltac bool_to_prop :=
  repeat match goal with
    | H : _ && _ = true |- _ => apply andb_true_iff in H; destruct H
    | H : _ || _ = false |- _ => apply orb_false_iff in H; destruct H
    | H : negb _ = true |- _ => apply negb_true_iff in H
    | H : negb _ = false |- _ => apply negb_false_iff in H
    | H : _ || _ = true |- _ => apply orb_true_iff in H
    | H : _ && _ = false |- _ => apply andb_false_iff in H
    | H : (_ <? _)%Z = true |- _ => apply Z.ltb_lt in H
    | H : (_ <? _)%Z = false |- _ => apply Z.ltb_ge in H
    | H : (_ <=? _)%Z = true |- _ => apply Z.leb_le in H
    | H : (_ <=? _)%Z = false |- _ => apply Z.leb_gt in H
    | H : (_ =? _)%Z = true |- _ => apply Z.eqb_eq in H
    | H : (_ =? _)%Z = false |- _ => apply Z.eqb_neq in H
    | H : (_ <? _)%N = true |- _ => apply N.ltb_lt in H
    | H : (_ <? _)%N = false |- _ => apply N.ltb_ge in H
    | H : (_ <=? _)%N = true |- _ => apply N.leb_le in H
    | H : (_ <=? _)%N = false |- _ => apply N.leb_gt in H
    | H : (_ =? _)%N = true |- _ => apply N.eqb_eq in H
    | H : (_ =? _)%N = false |- _ => apply N.eqb_neq in H
    | H : (_ <? _)%nat = true |- _ => apply Nat.ltb_lt in H
    | H : (_ <? _)%nat = false |- _ => apply Nat.ltb_ge in H
    | H : (_ <=? _)%nat = true |- _ => apply Nat.leb_le in H
    | H : (_ <=? _)%nat = false |- _ => apply Nat.leb_gt in H
    | H : (_ =? _)%nat = true |- _ => apply Nat.eqb_eq in H
    | H : (_ =? _)%nat = false |- _ => apply Nat.eqb_neq in H
    | H : bool_decide _ = true |- _ => apply bool_decide_eq_true in H
    | H : bool_decide _ = false |- _ => apply bool_decide_eq_false in H
    end.

(** Arithmetic on the outcome of boolean tests. *)
Ltac blia := bool_to_prop; lia.

(** ** Machine words *)

(** [std::uint64_t] values are integers in [0, 2^64); arithmetic wraps. *)
Definition W64 : Z := (2 ^ 64)%Z.
Definition wrap64 (z : Z) : Z := (z mod W64)%Z.
Definition is_u64 (z : Z) : Prop := (0 <= z < W64)%Z.

(** The same for the counters modelled in [N] (terms, call numbers). *)
Definition W64N : N := (2 ^ 64)%N.
Definition wrap64N (n : N) : N := (n mod W64N)%N.

(** Make 2^64 a literal, so that [lia] computes with it. *)
Ltac w64 := unfold is_u64, wrap64, wrap64N, W64, W64N in *;
  change (2 ^ 64)%Z with 18446744073709551616%Z in *;
  change (2 ^ 64)%N with 18446744073709551616%N in *.

#[export] Instance is_u64_dec z : Decision (is_u64 z).
Proof. unfold is_u64. apply _. Defined.

Lemma wrap64_is_u64 z : is_u64 (wrap64 z).
Proof. unfold is_u64, wrap64. apply Z.mod_pos_bound. reflexivity. Qed.

Lemma wrap64_id z : is_u64 z → wrap64 z = z.
Proof. apply Z.mod_small. Qed.

(** Subtraction of two words: the clockwise distance from [b] to [a]. *)
Lemma wrap64_sub_cases a b :
  is_u64 a → is_u64 b →
  wrap64 (a - b) = if decide (b <= a)%Z then (a - b)%Z else (a - b + W64)%Z.
Proof.
  intros Ha Hb. unfold wrap64, is_u64 in *. case_decide.
  - apply Z.mod_small. lia.
  - rewrite <- (Z.mod_small (a - b + W64) W64) by lia.
    rewrite <- (Z_mod_plus_full (a - b) 1 W64). f_equal; lia.
Qed.

Lemma wrap64_add_cases a b :
  is_u64 a → is_u64 b →
  wrap64 (a + b) = if decide (a + b < W64)%Z then (a + b)%Z else (a + b - W64)%Z.
Proof.
  intros Ha Hb. unfold wrap64, is_u64 in *. case_decide.
  - apply Z.mod_small. lia.
  - rewrite <- (Z.mod_small (a + b - W64) W64) by lia.
    rewrite <- (Z_mod_plus_full (a + b) (-1) W64). f_equal; lia.
Qed.

#[export] Hint Resolve wrap64_is_u64 : words.

(** ** Lists *)

(** [std::all_of]-style loops: every element passes the test. *)
Lemma forallb_Forall {A} (p : A → bool) l : forallb p l = true ↔ Forall (λ x, p x = true) l.
Proof. rewrite List.forallb_forall, List.Forall_forall. done. Qed.

Lemma take_eq_mono {A} n m (l k : list A) : n ≤ m → take m l = take m k → take n l = take n k.
Proof.
  intros Hle E. apply (f_equal (take n)) in E. rewrite !take_take in E. by rewrite !Nat.min_l in E by lia.
Qed.

Lemma lookup_take_eq {A} n i (l k : list A) : take n l = take n k → i < n → l !! i = k !! i.
Proof.
  intros E Hi. rewrite <- (lookup_take_lt l n i Hi), <- (lookup_take_lt k n i Hi). by rewrite E.
Qed.

Lemma take_ext {A} n (l k : list A) : (∀ i, i < n → l !! i = k !! i) → take n l = take n k.
Proof.
  intros H. apply list_eq. intros i. destruct (decide (i < n)).
  - rewrite !lookup_take_lt by done. auto.
  - rewrite !lookup_take_ge by lia. done.
Qed.

Lemma take_S_snoc {A} n (l : list A) x : l !! n = Some x → take (S n) l = take n l ++ [x].
Proof. apply take_S_r. Qed.

(** A loop keeps what each of its steps keeps. *)
Lemma foldl_keeps {A B} (I : A → Prop) (f : A → B → A) l a :
  (∀ a x, x ∈ l → I a → I (f a x)) → I a → I (foldl f a l).
Proof.
  revert a. induction l as [|x l IH]; intros a Hf Ha; [done|]. cbn [foldl]. apply IH.
  - intros b y Hy. apply Hf, elem_of_cons. by right.
  - apply Hf; [apply elem_of_cons; by left|done].
Qed.

(** ** Record update

    [r <| f := v |>] is [r] with field [f] replaced, for a record type with an
    [Eta] instance (its constructor applied to its own projections). The setter
    of a field is computed from that expansion. *)
Class Eta (R : Type) := eta_of : R → R.
Class Update {R T : Type} (f : R → T) := update : (T → T) → R → R.
Arguments update {R T} f {_} g r : simpl never.

Ltac derive_update R T f :=
  let e := eval cbv beta delta [eta_of] in (@eta_of R _) in
  let e := match e with
           | ?i => let e' := eval hnf in i in e'
           end in
  match eval pattern f in e with
  | ?g _ => exact (λ h : T → T, g (λ r, h (f r)))
  end.
#[export] Hint Extern 1 (@Update ?R ?T ?f) => derive_update R T f : typeclass_instances.

Notation "r <| f := v |>" := (update f (λ _, v) r)
  (at level 1, left associativity, f at level 1, v at level 200, format "r  <| f  :=  v |>") : stdpp_scope.

(** Read a field of an updated record: the new value, or the field of the rest. *)
Ltac is_field p x :=
  let T := type of (p x) in let R := type of x in
  lazymatch T with Prop => fail | R => fail | _ => idtac end.
Ltac upd :=
  repeat match goal with
    | |- context [?p (update ?f ?g ?r)] =>
        is_field p (update f g r);
        first [ constr_eq p f; change (p (update f g r)) with (g (f r)); cbv beta
              | change (p (update f g r)) with (p r) ]
    | H : context [?p (update ?f ?g ?r)] |- _ =>
        is_field p (update f g r);
        first [ constr_eq p f; change (p (update f g r)) with (g (f r)) in H; cbv beta in H
              | change (p (update f g r)) with (p r) in H ]
    end.
