(* ===== verification/Text.v ===== *)
(** * Text: the byte-string operations every component shares

    The pieces of the C++ standard library the sources use on [std::string]
    (search, prefix comparison, decimal and hexadecimal rendering) and the
    strict readers of numbers and words that are written once in the sources
    and used by every protocol: [split_single_spaces] (lookup.cpp), [trim]
    (chord.cpp), [hex_nibble] (chord.cpp). The round-trip lemmas at the end
    are what the wire formats of the other files rest on. *)
From S2P Require Import Prelude.

(** ** Characters *)

Definition code (c : Ascii.ascii) : N := Ascii.N_of_ascii c.
Definition chr (n : N) : Ascii.ascii := Ascii.ascii_of_N n.

Definition SPACE : Ascii.ascii := chr 32.
Definition NL : Ascii.ascii := chr 10.
Definition CR : Ascii.ascii := chr 13.
Definition NUL : Ascii.ascii := chr 0.
Definition COLON : Ascii.ascii := chr 58.
Definition HASH : Ascii.ascii := chr 35.
Definition DOT : Ascii.ascii := chr 46.
Definition COMMA : Ascii.ascii := chr 44.

Definition is_digit (c : Ascii.ascii) : bool := (48 <=? code c)%N && (code c <=? 57)%N.
Definition is_lower_hex (c : Ascii.ascii) : bool :=
  is_digit c || ((97 <=? code c)%N && (code c <=? 102)%N).
Definition is_visible (c : Ascii.ascii) : bool := (33 <=? code c)%N && (code c <=? 126)%N.
Definition is_space (c : Ascii.ascii) : bool :=
  (code c =? 32)%N || ((9 <=? code c)%N && (code c <=? 13)%N).

(** ** Searching and cutting *)

(** [s.find(c)]. *)
Fixpoint find_char (c : Ascii.ascii) (s : bytes) : option nat :=
  match s with
  | [] => None
  | x :: s' => if decide (x = c) then Some 0 else S <$> find_char c s'
  end.

(** [s.rfind(c)]. *)
Definition rfind_char (c : Ascii.ascii) (s : bytes) : option nat :=
  (λ i, length s - S i) <$> find_char c (reverse s).

(** [s.compare(0, p.size(), p) == 0]. *)
Definition starts_with (p s : bytes) : bool := bool_decide (take (length p) s = p).

(** [s.substr(pos, n)] for [pos] inside the string. *)
Definition substr (pos n : nat) (s : bytes) : bytes := take n (drop pos s).

(** [s.c_str()] as a C function reads it: up to the first NUL. *)
Definition c_str (s : bytes) : bytes :=
  match find_char NUL s with
  | Some i => take i s
  | None => s
  end.

(** lookup.cpp, [split_single_spaces]: one word per space, empty words kept. *)
Fixpoint split_on (c : Ascii.ascii) (s : bytes) : list bytes :=
  match s with
  | [] => [[]]
  | x :: s' =>
      if decide (x = c) then [] :: split_on c s'
      else match split_on c s' with
           | w :: ws => (x :: w) :: ws
           | [] => [[x]]
           end
  end.
Definition split_single_spaces (s : bytes) : list bytes := split_on SPACE s.

(** Words joined by single spaces, the way every message is rendered. *)
Fixpoint join (sep : Ascii.ascii) (ws : list bytes) : bytes :=
  match ws with
  | [] => []
  | [w] => w
  | w :: ws' => w ++ sep :: join sep ws'
  end.

(** chord.cpp, [trim]. *)
Fixpoint drop_spaces (s : bytes) : bytes :=
  match s with
  | [] => []
  | x :: s' => if is_space x then drop_spaces s' else s
  end.
Definition trim (s : bytes) : bytes := reverse (drop_spaces (reverse (drop_spaces s))).

(** ** Decimal numbers *)

Definition digit_char (d : N) : Ascii.ascii := chr (48 + d).
Definition digit_val (c : Ascii.ascii) : option N :=
  if is_digit c then Some (code c - 48)%N else None.

(** [std::to_string] of an unsigned number: twenty digits hold any 64-bit value. *)
Fixpoint dec_go (fuel : nat) (n : N) : bytes :=
  match fuel with
  | 0 => []
  | S f => (if (n <? 10)%N then [] else dec_go f (n / 10)%N) ++ [digit_char (n mod 10)%N]
  end.
Definition dec (n : N) : bytes := dec_go 20 n.
#[global] Arguments dec : simpl never.

(** [std::to_string] of an [int]. *)
Definition to_string (z : Z) : bytes :=
  if (z <? 0)%Z then lit "-" ++ dec (Z.to_N (- z)) else dec (Z.to_N z).

(** The accumulation loop of every decimal parser: [v = v * 10 + (c - '0')],
    failing on the first character that is not a digit. *)
Definition digit_step (acc : option N) (c : Ascii.ascii) : option N :=
  v ← acc; d ← digit_val c; Some (v * 10 + d)%N.
Definition digits_val (s : bytes) : option N := foldl digit_step (Some 0%N) s.

(** Digits only, no leading zero (a lone "0" is zero), at most [maxlen] of
    them: the shape every strict number on the wire has. *)
Definition parse_canonical (maxlen : nat) (s : bytes) : option N :=
  if bool_decide (s = []) || (maxlen <? length s) then None
  else if (1 <? length s) && bool_decide (head s = Some (digit_char 0)) then None
  else digits_val s.

(** ** Hexadecimal numbers *)

(** chord.cpp, [hex_nibble]. *)
Definition hex_nibble (c : Ascii.ascii) : option Z :=
  let n := code c in
  if (48 <=? n)%N && (n <=? 57)%N then Some (Z.of_N n - 48)%Z
  else if (97 <=? n)%N && (n <=? 102)%N then Some (Z.of_N n - 97 + 10)%Z
  else if (65 <=? n)%N && (n <=? 70)%N then Some (Z.of_N n - 65 + 10)%Z
  else None.

Definition hex_char (d : Z) : Ascii.ascii :=
  if (d <? 10)%Z then chr (48 + Z.to_N d) else chr (87 + Z.to_N d).

(** [value = (value << 4) | nibble] on a 64-bit word. *)
Definition hex_step (acc : option Z) (c : Ascii.ascii) : option Z :=
  v ← acc; d ← hex_nibble c; Some (Z.lor (wrap64 (Z.shiftl v 4)) d).

(** [%0<k>llx]: [k] lowercase hexadecimal digits of [n], zero padded. *)
Fixpoint hex_go (k : nat) (n : Z) : bytes :=
  match k with
  | 0 => []
  | S k' => hex_go k' (n / 16)%Z ++ [hex_char (n mod 16)%Z]
  end.

(** ** Characters: facts *)

Lemma code_chr n : (n < 256)%N → code (chr n) = n.
Proof. apply Ascii.N_ascii_embedding. Qed.

Lemma chr_code c : chr (code c) = c.
Proof. apply Ascii.ascii_N_embedding. Qed.

Lemma code_bounded c : (code c < 256)%N.
Proof. apply Ascii.N_ascii_bounded. Qed.

Lemma code_inj c d : code c = code d → c = d.
Proof. intros E. by rewrite <- (chr_code c), <- (chr_code d), E. Qed.

Lemma digit_val_char d : (d < 10)%N → digit_val (digit_char d) = Some d.
Proof.
  intros Hd. unfold digit_val, is_digit, digit_char. rewrite code_chr by lia.
  replace ((48 <=? 48 + d)%N) with true by (symmetry; apply N.leb_le; lia).
  replace ((48 + d <=? 57)%N) with true by (symmetry; apply N.leb_le; lia).
  simpl. f_equal. lia.
Qed.

Lemma digit_val_Some c d : digit_val c = Some d → c = digit_char d ∧ (d < 10)%N.
Proof.
  unfold digit_val, is_digit, digit_char. intros H. split_ifs; simplify_eq. bool_to_prop.
  split; [|lia]. apply code_inj. rewrite code_chr by lia. lia.
Qed.

Lemma digit_char_is_digit d : (d < 10)%N → is_digit (digit_char d) = true.
Proof.
  intros Hd. generalize (digit_val_char d Hd). unfold digit_val. by case_match.
Qed.

Lemma digit_char_inj d e : (d < 10)%N → (e < 10)%N → digit_char d = digit_char e → d = e.
Proof.
  intros Hd He E. assert (Some d = Some e) as [= ->]; [|done].
  by rewrite <- (digit_val_char d Hd), <- (digit_val_char e He), E.
Qed.

Lemma is_digit_not_space c : is_digit c = true → c ≠ SPACE.
Proof. intros H ->. done. Qed.

Lemma is_digit_not_nl c : is_digit c = true → c ≠ NL.
Proof. intros H ->. done. Qed.

(** ** Splitting and joining *)

Section split.
Context (c : Ascii.ascii).

Lemma split_on_not_nil s : split_on c s ≠ [].
Proof. destruct s as [|x s]; simpl; [done|]. by repeat case_match. Qed.

Lemma split_on_single w : c ∉ w → split_on c w = [w].
Proof.
  induction w as [|x w IH]; intros Hc; [done|]. apply not_elem_of_cons in Hc as [Hx Hw].
  simpl. rewrite decide_False by done. by rewrite IH.
Qed.

Lemma split_on_app w s : c ∉ w → split_on c (w ++ c :: s) = w :: split_on c s.
Proof.
  induction w as [|x w IH]; intros Hc; simpl.
  - by rewrite decide_True.
  - apply not_elem_of_cons in Hc as [Hx Hw]. rewrite decide_False by done. by rewrite IH.
Qed.

(** A message whose words hold no separator is split back into its words. *)
Lemma split_on_join ws : ws ≠ [] → Forall (λ w, c ∉ w) ws → split_on c (join c ws) = ws.
Proof.
  intros Hne Hws. induction Hws as [|w ws Hw Hws IH]; [done|]. destruct ws as [|w' ws].
  - by apply split_on_single.
  - change (join c (w :: w' :: ws)) with (w ++ c :: join c (w' :: ws)).
    rewrite split_on_app by done. by rewrite IH.
Qed.

(** Nothing is lost by splitting: joining the words gives the line back. *)
Lemma join_split_on s : join c (split_on c s) = s.
Proof.
  induction s as [|x s IH]; [done|]. simpl. pose proof (split_on_not_nil s) as Hne.
  destruct (split_on c s) as [|w ws] eqn:E; [done|]. case_decide as Hx.
  - subst x. simpl. by rewrite <- IH.
  - destruct ws as [|w' ws]; simpl in *; by rewrite IH.
Qed.

Lemma split_on_words s : Forall (λ w, c ∉ w) (split_on c s).
Proof.
  induction s as [|x s IH]; simpl; [repeat constructor; apply not_elem_of_nil|].
  case_decide; [constructor; [apply not_elem_of_nil|done]|].
  destruct (split_on c s) as [|w ws].
  - repeat constructor. by apply not_elem_of_cons; split; [|apply not_elem_of_nil].
  - inversion IH; subst. constructor; [|done]. by apply not_elem_of_cons.
Qed.

(** The two shapes of the loop in lookup.cpp: no separator left, or the word
    before the first separator and then the rest. *)
Lemma find_char_None s : find_char c s = None ↔ c ∉ s.
Proof.
  induction s as [|x s IH]; simpl; [split; [intros _; apply not_elem_of_nil|done]|].
  rewrite not_elem_of_cons, <- IH. case_decide as Hx.
  - subst. split; [done|]. by intros [].
  - destruct (find_char c s); simpl; split; [done|by intros []|done|done].
Qed.

Lemma find_char_Some s i :
  find_char c s = Some i → s = take i s ++ c :: drop (S i) s ∧ c ∉ take i s.
Proof.
  revert i. induction s as [|x s IH]; intros i; simpl; [done|]. case_decide as Hx.
  - intros [= <-]. subst x. split; [done|apply not_elem_of_nil].
  - destruct (find_char c s) as [j|]; simpl; [|done]. intros [= <-].
    destruct (IH j eq_refl) as [E Hn]. split; [simpl; by rewrite <- E|].
    simpl. apply not_elem_of_cons. done.
Qed.

Lemma split_on_loop s :
  split_on c s = match find_char c s with
                 | None => [s]
                 | Some i => take i s :: split_on c (drop (S i) s)
                 end.
Proof.
  destruct (find_char c s) as [i|] eqn:E.
  - apply find_char_Some in E as [E Hn]. rewrite E at 1. by apply split_on_app.
  - apply find_char_None in E. by apply split_on_single.
Qed.
End split.

Lemma join_words v ws : join SPACE (v :: ws) = v ++ concat ((λ w, SPACE :: w) <$> ws).
Proof.
  revert v. induction ws as [|w ws IH]; intros v; [by rewrite app_nil_r|].
  change (join SPACE (v :: w :: ws)) with (v ++ SPACE :: join SPACE (w :: ws)). rewrite IH. done.
Qed.

Lemma split_verb_words v ws : SPACE ∉ v → Forall (λ w, SPACE ∉ w) ws →
  split_single_spaces (v ++ concat ((λ w, SPACE :: w) <$> ws)) = v :: ws.
Proof. intros Hv Hws. rewrite <- join_words. apply split_on_join; [done|by constructor]. Qed.

Lemma join_no c sep ws : c ≠ sep → Forall (λ w, c ∉ w) ws → c ∉ join sep ws.
Proof.
  intros Hc. induction 1 as [|w ws Hw Hws IH]; [apply not_elem_of_nil|]. destruct ws as [|w' ws]; [done|].
  cbn [join]. rewrite elem_of_app, elem_of_cons. tauto.
Qed.

Lemma find_char_app c v u : c ∉ v → find_char c (v ++ c :: u) = Some (length v).
Proof.
  intros Hv. induction v as [|x v IH]; simpl; [by rewrite decide_True|].
  apply not_elem_of_cons in Hv as [Hx Hv]. rewrite decide_False by done. by rewrite IH.
Qed.

Lemma starts_with_app p s : starts_with p (p ++ s) = true.
Proof. unfold starts_with. apply bool_decide_eq_true. by rewrite take_app_length. Qed.

Lemma starts_with_Some p s : starts_with p s = true → s = p ++ drop (length p) s.
Proof.
  unfold starts_with. rewrite bool_decide_eq_true. intros E.
  rewrite <- (take_drop (length p) s) at 1. by rewrite E.
Qed.

(** ** Decimal numbers: facts *)

Lemma digits_val_snoc s c : digits_val (s ++ [c]) = digit_step (digits_val s) c.
Proof. unfold digits_val. by rewrite foldl_app. Qed.

Lemma dec_go_digits fuel n : Forall (λ c, is_digit c = true) (dec_go fuel n).
Proof.
  revert n. induction fuel as [|f IH]; intros n; simpl; [done|].
  apply Forall_app. split; [case_match; [done|apply IH]|].
  repeat constructor. apply digit_char_is_digit, N.mod_lt. done.
Qed.

Lemma dec_digits n : Forall (λ c, is_digit c = true) (dec n).
Proof. apply dec_go_digits. Qed.

Lemma dec_no_space n : SPACE ∉ dec n.
Proof.
  intros Hin. pose proof (dec_digits n) as H. rewrite Forall_forall in H.
  by apply (is_digit_not_space _ (H _ Hin)).
Qed.

Lemma dec_no_nl n : NL ∉ dec n.
Proof.
  intros Hin. pose proof (dec_digits n) as H. rewrite Forall_forall in H.
  by apply (is_digit_not_nl _ (H _ Hin)).
Qed.

Lemma dec_go_not_nil f n : dec_go (S f) n ≠ [].
Proof. simpl. intros E. by apply app_nil in E as [_ ?]. Qed.

Lemma dec_not_nil n : dec n ≠ [].
Proof. apply dec_go_not_nil. Qed.

Lemma div10_pow k n : (n < 10 ^ N.succ k → n / 10 < 10 ^ k)%N.
Proof. intros H. apply N.Div0.div_lt_upper_bound. by rewrite <- N.pow_succ_r'. Qed.

Lemma dec_go_val fuel n : (n < 10 ^ N.of_nat fuel)%N → digits_val (dec_go fuel n) = Some n.
Proof.
  revert n. induction fuel as [|f IH]; intros n Hn.
  - simpl in Hn. unfold digits_val; simpl. f_equal. lia.
  - cbn [dec_go]. rewrite digits_val_snoc. rewrite Nat2N.inj_succ in Hn.
    assert (Hm : (n mod 10 < 10)%N) by (apply N.mod_lt; done).
    assert (E : digits_val (if (n <? 10)%N then [] else dec_go f (n / 10)) = Some (n / 10)%N).
    { destruct (N.ltb_spec n 10); [|by apply IH, div10_pow].
      unfold digits_val; simpl. by rewrite N.div_small. }
    rewrite E. unfold digit_step. simpl. rewrite digit_val_char by done. simpl.
    f_equal. rewrite N.mul_comm. symmetry. apply N.div_mod'.
Qed.

Lemma dec_val n : (n < 10 ^ 20)%N → digits_val (dec n) = Some n.
Proof. apply (dec_go_val 20). Qed.

Lemma dec_go_length fuel k n :
  (n < 10 ^ N.of_nat (S k))%N → length (dec_go fuel n) ≤ S k.
Proof.
  revert k n. induction fuel as [|f IH]; intros k n Hn; cbn [dec_go]; [simpl; lia|].
  rewrite length_app. simpl. destruct (N.ltb_spec n 10); [simpl; lia|].
  destruct k as [|k]; [simpl in Hn; lia|]. rewrite Nat2N.inj_succ in Hn.
  apply div10_pow in Hn. specialize (IH k _ Hn). lia.
Qed.

Lemma dec_go_head fuel n :
  (0 < n)%N → (n < 10 ^ N.of_nat fuel)%N → head (dec_go fuel n) ≠ Some (digit_char 0).
Proof.
  revert n. induction fuel as [|f IH]; intros n H0 Hn; cbn [dec_go]; [simpl in Hn; lia|].
  rewrite Nat2N.inj_succ in Hn. destruct (N.ltb_spec n 10).
  - simpl. intros [= E]. apply digit_char_inj in E; [|apply N.mod_lt; done|lia].
    rewrite N.mod_small in E by lia. lia.
  - apply div10_pow in Hn. assert (H1 : (0 < n / 10)%N) by (apply N.div_str_pos; lia).
    specialize (IH _ H1 Hn). destruct (dec_go f (n / 10)) as [|x l] eqn:E; [|done].
    pose proof (dec_go_val f (n / 10) Hn) as Hv. rewrite E in Hv. unfold digits_val in Hv.
    simpl in Hv. injection Hv as Hv. lia.
Qed.

(** Every number a process writes is read back by the strict parser. *)
Lemma parse_canonical_dec k n :
  k ≤ 20 → (n < 10 ^ N.of_nat k)%N → k ≠ 0 → parse_canonical k (dec n) = Some n.
Proof.
  intros Hk Hn H0. assert (Hn' : (n < 10 ^ 20)%N).
  { eapply N.lt_le_trans; [exact Hn|]. apply N.pow_le_mono_r; lia. }
  unfold parse_canonical. rewrite bool_decide_false by apply dec_not_nil.
  destruct k as [|k]; [done|]. pose proof (dec_go_length 20 k n Hn) as Hl. fold (dec n) in Hl.
  simpl orb. destruct (Nat.ltb_spec (S k) (length (dec n))); [lia|].
  destruct (decide (n = 0%N)) as [->|Hz]; [reflexivity|].
  rewrite bool_decide_false; [rewrite andb_false_r; by apply dec_val|].
  apply dec_go_head; [lia|done].
Qed.

Lemma digits_val_bound s n : digits_val s = Some n → (n < 10 ^ N.of_nat (length s))%N.
Proof.
  revert n. induction s as [|c s IH] using rev_ind; intros n.
  - unfold digits_val; simpl. intros [= <-]. done.
  - rewrite digits_val_snoc, length_app. unfold digit_step. intros H.
    destruct (digits_val s) as [v|]; [|done]. simpl in H.
    destruct (digit_val c) as [d|] eqn:Hd; simplify_eq/=.
    apply digit_val_Some in Hd as [_ Hd]. specialize (IH v eq_refl).
    rewrite Nat.add_1_r, Nat2N.inj_succ, N.pow_succ_r'. lia.
Qed.

Lemma parse_canonical_bound k s n : parse_canonical k s = Some n → (n < 10 ^ N.of_nat k)%N.
Proof.
  unfold parse_canonical. intros H. split_ifs; simplify_eq. bool_to_prop.
  apply digits_val_bound in H. eapply N.lt_le_trans; [exact H|]. apply N.pow_le_mono_r; lia.
Qed.

(** ... and the strict parser accepts one spelling of each number only. *)
Lemma digits_val_canonical fuel s n :
  digits_val s = Some n → s ≠ [] → length s ≤ fuel →
  (1 < length s → head s ≠ Some (digit_char 0)) → s = dec_go fuel n.
Proof.
  revert fuel n. induction s as [|c s IH] using rev_ind; intros fuel n H Hne Hl Hz; [done|].
  rewrite length_app in Hl, Hz. simpl in Hl, Hz. destruct fuel as [|f]; [lia|].
  rewrite digits_val_snoc in H. unfold digit_step in H.
  destruct (digits_val s) as [v|] eqn:Hv; [|done]. simpl in H.
  destruct (digit_val c) as [d|] eqn:Hd; simplify_eq/=.
  apply digit_val_Some in Hd as [-> Hd].
  assert (Hmod : ((v * 10 + d) mod 10 = d)%N).
  { rewrite N.add_comm, N.Div0.mod_add. by apply N.mod_small. }
  assert (Hdiv : ((v * 10 + d) / 10 = v)%N).
  { rewrite N.add_comm, N.div_add by done. rewrite N.div_small by done. lia. }
  rewrite Hmod, Hdiv. f_equal. destruct s as [|x s'].
  { unfold digits_val in Hv; simpl in Hv. injection Hv as <-.
    destruct (N.ltb_spec (0 * 10 + d) 10); [done|lia]. }
  assert (Hh : head (x :: s') ≠ Some (digit_char 0)).
  { intros E. apply Hz; [simpl; lia|]. done. }
  destruct (N.ltb_spec (v * 10 + d) 10) as [Hlt|Hge].
  - exfalso. assert (v = 0%N) as -> by lia.
    assert (x :: s' = dec_go f 0) as E by (apply IH; [done|done|lia|done]).
    destruct f as [|f]; [done|]. simpl in E. by rewrite E in Hh.
  - apply IH; [done|done|lia|done].
Qed.

Lemma parse_canonical_inv k s n : k ≤ 20 → parse_canonical k s = Some n → s = dec n.
Proof.
  unfold parse_canonical. intros Hk H. split_ifs; simplify_eq. bool_to_prop.
  eapply digits_val_canonical; [done|done|lia|]. intros Hl Hh.
  match goal with H : _ ∨ _ |- _ => destruct H end; blia || by bool_to_prop.
Qed.

(** ** Hexadecimal numbers: facts *)

Lemma hex_nibble_char d : (0 <= d < 16)%Z → hex_nibble (hex_char d) = Some d.
Proof.
  intros Hd. assert (d ∈ seqZ 0 16) as Hin by (apply elem_of_seqZ; lia).
  clear Hd. revert d Hin. apply Forall_forall. vm_compute. by repeat constructor.
Qed.

Lemma hex_nibble_bound c d : hex_nibble c = Some d → (0 <= d < 16)%Z.
Proof. unfold hex_nibble. intros H. split_ifs; simplify_eq; blia. Qed.

Lemma hex_char_lower d : (0 <= d < 16)%Z → is_lower_hex (hex_char d) = true.
Proof.
  intros Hd. assert (d ∈ seqZ 0 16) as Hin by (apply elem_of_seqZ; lia).
  clear Hd. revert d Hin. apply Forall_forall. vm_compute. by repeat constructor.
Qed.

Lemma length_hex_go k n : length (hex_go k n) = k.
Proof. revert n. induction k as [|k IH]; intros n; simpl; [done|]. rewrite length_app, IH. simpl. lia. Qed.

Lemma hex_go_lower k n : Forall (λ c, is_lower_hex c = true) (hex_go k n).
Proof.
  revert n. induction k as [|k IH]; intros n; simpl; [done|].
  apply Forall_app. split; [apply IH|]. repeat constructor. apply hex_char_lower, Z.mod_pos_bound. lia.
Qed.

(** [(v << 4) | d] is [v * 16 + d] as long as no bit is shifted out. *)
Lemma shift_nibble v d :
  (0 <= v < 2 ^ 60)%Z → (0 <= d < 16)%Z → Z.lor (wrap64 (Z.shiftl v 4)) d = (v * 16 + d)%Z.
Proof.
  intros Hv Hd. rewrite Z.shiftl_mul_pow2 by lia. change (2 ^ 4)%Z with 16%Z.
  rewrite wrap64_id by (w64; lia). apply Z.bits_inj'. intros i Hi.
  rewrite Z.lor_spec. destruct (decide (i < 4)%Z).
  - replace (Z.testbit (v * 16) i) with false.
    2:{ change 16%Z with (2 ^ 4)%Z. rewrite <- Z.shiftl_mul_pow2 by lia. by rewrite Z.shiftl_spec_low. }
    rewrite <- (Z.mod_pow2_bits_low (v * 16 + d) 4) by lia. change (2 ^ 4)%Z with 16%Z.
    rewrite Z.add_comm, Z_mod_plus_full, Z.mod_small by lia. done.
  - replace (Z.testbit d i) with false.
    2:{ symmetry. rewrite <- (Z.mod_small d (2 ^ 4)) by lia. apply Z.mod_pow2_bits_high. lia. }
    rewrite orb_false_r. replace i with ((i - 4) + 4)%Z by lia.
    rewrite <- !Z.div_pow2_bits by lia. change (2 ^ 4)%Z with 16%Z.
    rewrite Z.div_mul by lia. rewrite Z.div_add_l by lia. rewrite (Z.div_small d 16) by lia.
    by rewrite Z.add_0_r.
Qed.

Lemma hex_go_val k n :
  k ≤ 16 → (0 <= n < 16 ^ Z.of_nat k)%Z → foldl hex_step (Some 0%Z) (hex_go k n) = Some n.
Proof.
  revert n. induction k as [|k IH]; intros n Hk Hn.
  - simpl in *. f_equal. lia.
  - cbn [hex_go]. rewrite foldl_app. rewrite Nat2Z.inj_succ, Z.pow_succ_r in Hn by lia.
    assert (Hq : (0 <= n / 16 < 16 ^ Z.of_nat k)%Z).
    { split; [apply Z.div_pos; lia|]. apply Z.div_lt_upper_bound; lia. }
    assert (Hb : (16 ^ Z.of_nat k <= 2 ^ 60)%Z).
    { change 16%Z with (2 ^ 4)%Z. rewrite <- Z.pow_mul_r by lia. apply Z.pow_le_mono_r; lia. }
    rewrite IH by (done || lia). cbn [foldl]. unfold hex_step. cbn [mbind option_bind].
    pose proof (Z.mod_pos_bound n 16 ltac:(lia)) as Hm.
    rewrite hex_nibble_char by done. simpl. f_equal. rewrite shift_nibble by lia.
    rewrite Z.mul_comm. symmetry. apply Z.div_mod. lia.
Qed.

Lemma is_lower_hex_not_space c : is_lower_hex c = true → c ≠ SPACE.
Proof. intros H ->. done. Qed.

#[export] Hint Resolve dec_no_space dec_no_nl dec_not_nil split_on_not_nil : chordfs.
