(* ===== verification/Net.v ===== *)
(** * Net: framing (net.h, net.cpp)

    What happened to an exchange ([Delivery]), the request-id prefix, which
    header lines carry a body, and the readers and writers of lines and bodies.
    A socket's incoming side is the list of what successive [recv] calls meet:
    data in arbitrary segments, an interrupted call, the peer's close, an error.
    A deadline that passes is the error [EAGAIN], as [wait_readable] reports it;
    the clock itself is not modelled. *)
From S2P Require Import Prelude Text.

Definition MAX_LINE : nat := 1024.
Definition MAX_BODY : N := (512 * 1024)%N.

Inductive Delivery := Ok | Refused | Timeout | Closed | Failed.
#[export] Instance Delivery_eq_dec : EqDecision Delivery.
Proof. solve_decision. Defined.

Definition delivery_name (d : Delivery) : bytes :=
  match d with
  | Ok => lit "ok"
  | Refused => lit "refused"
  | Timeout => lit "timeout"
  | Closed => lit "closed"
  | Failed => lit "failed"
  end.

(** ** Error numbers the sources tell apart *)
Inductive Errno := E0 | EAGAIN | ECONNRESET | EPIPE | EMSGSIZE | ECONNREFUSED | EINPROGRESS | ETIMEDOUT | EINVAL | EOTHER.
#[export] Instance Errno_eq_dec : EqDecision Errno.
Proof. solve_decision. Defined.

Definition classify_io_error (err : Errno) : Delivery :=
  if bool_decide (err = EAGAIN) then Timeout
  else if bool_decide (err = E0) || bool_decide (err = ECONNRESET) || bool_decide (err = EPIPE)
  then Closed
  else Failed.

(** ** The request-id prefix *)

Inductive RidPrefix := RidNone (rest : bytes) | RidPresent (id rest : bytes) | RidMalformed.

Definition split_request_id (line : bytes) : RidPrefix :=
  if negb (starts_with "RID " line) then RidNone line
  else if (length line <? 4 + 16 + 1 + 1) || negb (bool_decide (line !! (4 + 16) = Some SPACE))
  then RidMalformed
  else if negb (forallb is_lower_hex (substr 4 16 line)) then RidMalformed
  else RidPresent (substr 4 16 line) (drop (4 + 16 + 1) line).

(** ** Bodies *)

Inductive Body := BodyNone | BodyPresent (length : N) | BodyMalformed | BodyTooLarge.

Definition body_length (whole : bytes) : Body :=
  let line := match split_request_id whole with RidPresent _ rest => rest | _ => whole end in
  let first_space := find_char SPACE line in
  let verb := match first_space with Some i => take i line | None => line end in
  if negb (bool_decide (verb = "PUT") || bool_decide (verb = "STORE")
           || bool_decide (verb = "CHUNK") || bool_decide (verb = "APPEND"))
  then BodyNone
  else match first_space, rfind_char SPACE line with
       | None, _ | _, None => BodyMalformed
       | Some _, Some i =>
           let word := drop (S i) line in
           if bool_decide (word = []) || (7 <? length word) then BodyMalformed
           else if (1 <? length word) && bool_decide (head word = Some (digit_char 0))
           then BodyMalformed
           else match digits_val word with
                | None => BodyMalformed
                | Some value => if (MAX_BODY <? value)%N then BodyTooLarge else BodyPresent value
                end
       end.

(** ** Sending *)

Definition is_eol (c : Ascii.ascii) : bool := bool_decide (c = NL) || bool_decide (c = CR).

Fixpoint drop_eol (s : bytes) : bytes :=
  match s with
  | [] => []
  | c :: s' => if is_eol c then drop_eol s' else s
  end.

(** What [send_line] puts on the wire: the terminators the caller supplied
    dropped, the ones inside replaced, exactly one appended. *)
Definition sanitize (line : bytes) : bytes :=
  (λ c, if is_eol c then SPACE else c) <$> reverse (drop_eol (reverse line)).
Definition line_bytes (line : bytes) : bytes := sanitize line ++ [NL].

(** One [send] call: [n + 1] bytes accepted, an interruption, or a failure. *)
Inductive SendEvent := SendSome (n : nat) | SendIntr | SendFail (e : Errno).

(** The loop over short writes: [inl] the failure, [inr] the calls left over;
    [None] while the last call has not returned. *)
Fixpoint send_all (data : bytes) (calls : list SendEvent) : option (bytes * (Errno + list SendEvent)) :=
  if bool_decide (data = []) then Some ([], inr calls) else
  match calls with
  | [] => None
  | SendIntr :: cs => send_all data cs
  | SendFail e :: _ => Some ([], inl e)
  | SendSome n :: cs =>
      '(sent, r) ← send_all (drop (S n) data) cs; Some (take (S n) data ++ sent, r)
  end.
Definition send_line (line : bytes) (calls : list SendEvent) : option (bytes * (Errno + list SendEvent)) :=
  send_all (line_bytes line) calls.

(** ** Receiving *)

Inductive RecvEvent := RecvData (bs : bytes) | RecvIntr | RecvClosed | RecvError (e : Errno).

Inductive RecvResult := Received (out : bytes) (rest : list RecvEvent) | RecvFailed (e : Errno) | RecvBlocked.

Definition strip_cr (out : bytes) : bytes :=
  if bool_decide (last out = Some CR) then take (length out - 1) out else out.

Fixpoint recv_line_go (st : list RecvEvent) (out : bytes) : RecvResult :=
  match st with
  | [] => RecvBlocked
  | RecvIntr :: st' => recv_line_go st' out
  | RecvClosed :: _ => RecvFailed E0
  | RecvError e :: _ => RecvFailed e
  | RecvData bs :: st' =>
      (fix chunk (bs out : bytes) : RecvResult :=
         match bs with
         | [] => recv_line_go st' out
         | c :: bs' =>
             if decide (c = NL) then Received (strip_cr out) (RecvData bs' :: st')
             else if length out =? MAX_LINE then RecvFailed EMSGSIZE
             else chunk bs' (out ++ [c])
         end) bs out
  end.
Definition recv_line (st : list RecvEvent) : RecvResult := recv_line_go st [].

(** [n] more bytes wanted; a [recv] gives at most what is still missing. *)
Fixpoint recv_exact_go (n : nat) (st : list RecvEvent) (out : bytes) : RecvResult :=
  match n with
  | 0 => Received out st
  | _ =>
      match st with
      | [] => RecvBlocked
      | RecvIntr :: st' => recv_exact_go n st' out
      | RecvClosed :: _ => RecvFailed E0
      | RecvError e :: _ => RecvFailed e
      | RecvData bs :: st' =>
          if length bs <=? n then recv_exact_go (n - length bs) st' (out ++ bs)
          else Received (out ++ take n bs) (RecvData (drop n bs) :: st')
      end
  end.
Definition recv_exact (n : nat) (st : list RecvEvent) : RecvResult := recv_exact_go n st [].

(** Read [n] bytes and drop them, through a small buffer: the calls left over, or
    the failure. *)
Definition recv_discard (n : nat) (st : list RecvEvent) : RecvResult :=
  match recv_exact n st with
  | Received _ rest => Received [] rest
  | failed => failed
  end.

(** Read one message: a header line and, if the line declares one, its body. *)
Definition recv_frame (st : list RecvEvent) : option (bytes * bytes * list RecvEvent) :=
  match recv_line st with
  | Received line st' =>
      match body_length line with
      | BodyNone => Some (line, [], st')
      | BodyPresent n =>
          match recv_exact (N.to_nat n) st' with
          | Received body st'' => Some (line, body, st'')
          | _ => None
          end
      | _ => None
      end
  | _ => None
  end.

(** ** One exchange on a fresh connection *)

(** What the calls of [connect_to] and [listen_on] end with: an error, or nothing. *)
Record ConnectCalls := mkConnectCalls {
  cc_parses : bool; cc_socket : option Errno; cc_rcvtimeo : option Errno; cc_sndtimeo : option Errno; cc_connect : option Errno }.

Definition connect_to (timeout_ms : Z) (c : ConnectCalls) : option Errno :=
  if negb (cc_parses c) then Some EINVAL
  else match cc_socket c with
  | Some e => Some e
  | None =>
      let timed := if (0 <? timeout_ms)%Z then match cc_rcvtimeo c with Some e => Some e | None => cc_sndtimeo c end else None in
      match timed with Some e => Some e | None => cc_connect c end
  end.

Record ListenCalls := mkListenCalls {
  lc_parses : bool; lc_socket : option Errno; lc_bind : option Errno; lc_listen : option Errno }.

Definition listen_on (c : ListenCalls) : option Errno :=
  if negb (lc_parses c) then Some EINVAL
  else match lc_socket c with
  | Some e => Some e
  | None => match lc_bind c with Some e => Some e | None => lc_listen c end
  end.

(** How a failed connect is classified: a refusal is proof of death, a timeout is not. *)
Definition connect_failure (e : Errno) : Delivery :=
  if bool_decide (e = ECONNREFUSED) then Refused
  else if bool_decide (e = EINPROGRESS) || bool_decide (e = EAGAIN) || bool_decide (e = ETIMEDOUT) then Timeout
  else Failed.

Inductive Connection := NotConnected (e : Errno) | Connected (sends : list SendEvent) (recvs : list RecvEvent).

(** [None]: a call on the socket has not returned. The two texts are the reply
    line and the reply body, empty unless the delivery is [Ok]. *)
Definition exchange_frame (line body : bytes) (conn : Connection) : option (Delivery * bytes * bytes) :=
  let b := body_length line in
  if match b with
     | BodyPresent declared => negb (declared =? N.of_nat (length body))%N
     | BodyMalformed | BodyTooLarge => true
     | BodyNone => negb (bool_decide (body = []))
     end
  then Some (Failed, [], [])
  else match conn with
  | NotConnected e => Some (connect_failure e, [], [])
  | Connected sends recvs =>
      '(_, r) ← send_line line sends;
      match r with
      | inl e => Some (classify_io_error e, [], [])
      | inr sends' =>
          '(_, r') ← send_all body sends';
          match r' with
          | inl e => Some (classify_io_error e, [], [])
          | inr _ =>
              match recv_line recvs with
              | RecvBlocked => None
              | RecvFailed e => Some (classify_io_error e, [], [])
              | Received reply recvs' =>
                  match body_length reply with
                  | BodyMalformed | BodyTooLarge => Some (Failed, [], [])
                  | BodyNone => Some (Ok, reply, [])
                  | BodyPresent n =>
                      match recv_exact (N.to_nat n) recvs' with
                      | RecvBlocked => None
                      | RecvFailed e => Some (classify_io_error e, [], [])
                      | Received reply_body _ => Some (Ok, reply, reply_body)
                      end
                  end
              end
          end
      end
  end.

Definition exchange_line (request : bytes) (conn : Connection) : option (Delivery * bytes) :=
  match conn with
  | NotConnected e => Some (connect_failure e, [])
  | Connected sends recvs =>
      '(_, r) ← send_line request sends;
      match r with
      | inl e => Some (classify_io_error e, [])
      | inr _ =>
          match recv_line recvs with
          | RecvBlocked => None
          | RecvFailed e => Some (classify_io_error e, [])
          | Received reply _ => Some (Ok, reply)
          end
      end
  end.

(** ** Streams that deliver everything *)

Definition event_bytes (e : RecvEvent) : bytes := match e with RecvData bs => bs | _ => [] end.
Definition stream_bytes (st : list RecvEvent) : bytes := concat (event_bytes <$> st).
Definition clean (st : list RecvEvent) : Prop :=
  Forall (λ e, match e with RecvData _ | RecvIntr => True | _ => False end) st.

Lemma recv_line_clean st out l more :
  clean st → stream_bytes st = l ++ NL :: more → NL ∉ l → length out + length l ≤ MAX_LINE →
  ∃ st', recv_line_go st out = Received (strip_cr (out ++ l)) st' ∧ clean st' ∧ stream_bytes st' = more.
Proof.
  intros Hc. revert out l. induction Hc as [|e st He Hc IH]; intros out l E Hl Hlen.
  { by destruct l. }
  destruct e as [bs| | |]; try done; [|by apply IH].
  revert out l E Hl Hlen. induction bs as [|c bs IHb]; intros out l E Hl Hlen; [by apply IH|].
  destruct l as [|x l].
  - injection E as -> E. cbn [recv_line_go]. rewrite decide_True by done. eexists. split; [by rewrite app_nil_r|].
    split; [by constructor|done].
  - injection E as -> E. apply not_elem_of_cons in Hl as [Hx Hl].
    cbn [recv_line_go length] in *. rewrite decide_False by done. destruct (Nat.eqb_spec (length out) MAX_LINE); [lia|].
    destruct (IHb (out ++ [x]) l) as (st' & H1 & H2 & H3); [done..|rewrite length_app; simpl; lia|].
    exists st'. split; [|done]. rewrite <- app_assoc in H1. exact H1.
Qed.

Lemma recv_exact_clean n st out l more :
  clean st → stream_bytes st = l ++ more → length l = n →
  ∃ st', recv_exact_go n st out = Received (out ++ l) st' ∧ clean st' ∧ stream_bytes st' = more.
Proof.
  intros Hc. revert n out l. induction Hc as [|e st He Hc IH]; intros n out l E Hn.
  { symmetry in E. apply app_nil in E as [-> ->]. simpl in Hn. subst n. exists []. simpl.
    rewrite app_nil_r. split; [done|]. by split; [constructor|]. }
  destruct n as [|n].
  { apply length_zero_iff_nil in Hn. subst l. exists (e :: st). simpl. rewrite app_nil_r.
    split; [done|]. split; [by constructor|done]. }
  destruct e as [bs| | |]; try done; [|by apply IH].
  change (stream_bytes (RecvData bs :: st)) with (bs ++ stream_bytes st) in E.
  cbn [recv_exact_go]. destruct (Nat.leb_spec (length bs) (S n)) as [Hle|Hgt].
  - assert (El : l = bs ++ drop (length bs) l).
    { rewrite <- (take_drop (length bs) l) at 1. f_equal.
      apply (f_equal (take (length bs))) in E. rewrite take_app_length, take_app_le in E by lia. done. }
    rewrite El in E. rewrite <- app_assoc in E. apply app_inv_head in E.
    destruct (IH (S n - length bs) (out ++ bs) (drop (length bs) l) E) as (st' & H1 & H2 & H3).
    { rewrite length_drop. lia. }
    exists st'. rewrite H1. split; [|done]. by rewrite El at 2; rewrite app_assoc.
  - exists (RecvData (drop (S n) bs) :: st). rewrite <- (take_drop (S n) bs) in E. rewrite <- app_assoc in E. apply app_inj_1 in E as [<- E].
    + split; [done|]. split; [by constructor|done].
    + rewrite length_take. lia.
Qed.

Lemma sanitize_no_eol line c : c ∈ sanitize line → is_eol c = false.
Proof.
  unfold sanitize. intros H. apply list_elem_of_fmap in H as (x & -> & _).
  destruct (is_eol x) eqn:E; done.
Qed.

Lemma sanitize_no_nl line : NL ∉ sanitize line.
Proof. intros H. apply sanitize_no_eol in H. done. Qed.

Lemma strip_cr_sanitize line : strip_cr (sanitize line) = sanitize line.
Proof.
  unfold strip_cr. case_bool_decide as H; [|done]. apply last_Some_elem_of in H.
  apply sanitize_no_eol in H. done.
Qed.

(** A line with no terminator in it is sent as it is. *)
Lemma sanitize_id line : Forall (λ c, is_eol c = false) line → sanitize line = line.
Proof.
  intros H. unfold sanitize. assert (E : drop_eol (reverse line) = reverse line).
  { apply Forall_reverse in H. destruct H as [|c s Hc Hs]; [done|]. simpl. by rewrite Hc. }
  rewrite E, reverse_involutive. clear E. induction H as [|c s Hc Hs IH]; [done|].
  simpl. rewrite Hc. f_equal. exact IH.
Qed.

Lemma send_all_complete data calls sent calls' :
  send_all data calls = Some (sent, inr calls') → sent = data.
Proof.
  revert data sent. induction calls as [|c cs IH]; intros data sent; simpl;
    case_bool_decide as Hd; try (intros [= <- <-]; done); try done.
  destruct c as [n| |e]; [|by apply IH|done].
  destruct (send_all (drop (S n) data) cs) as [[s r]|] eqn:E; simpl; [|done].
  intros [= <- ->]. apply IH in E as ->. apply take_drop.
Qed.

(** ** The last word *)

Lemma rfind_char_app c s w : c ∉ w → rfind_char c (s ++ c :: w) = Some (length s).
Proof.
  intros Hw. unfold rfind_char. rewrite reverse_app, reverse_cons, <- app_assoc.
  simpl. rewrite find_char_app by by rewrite elem_of_reverse. simpl. f_equal.
  rewrite length_app, length_reverse. simpl. lia.
Qed.

Definition carries_body (verb : bytes) : bool :=
  bool_decide (verb = "PUT") || bool_decide (verb = "STORE")
  || bool_decide (verb = "CHUNK") || bool_decide (verb = "APPEND").

Lemma carries_body_no_space verb : carries_body verb = true → SPACE ∉ verb.
Proof.
  unfold carries_body. rewrite !orb_true_iff, !bool_decide_eq_true.
  intros [[[->| ->]| ->]| ->]; apply (bool_decide_unpack _); vm_compute; exact I.
Qed.

Lemma carries_body_no_rid verb rest :
  carries_body verb = true → split_request_id (verb ++ rest) = RidNone (verb ++ rest).
Proof.
  unfold carries_body. rewrite !orb_true_iff, !bool_decide_eq_true.
  intros [[[->| ->]| ->]| ->]; reflexivity.
Qed.

(** A header that ends in a length, as every sender of a body writes it. *)
Definition body_header (verb middle : bytes) (n : N) : bytes :=
  verb ++ SPACE :: middle ++ SPACE :: dec n.

Lemma body_length_header verb middle n :
  carries_body verb = true → (n <= MAX_BODY)%N →
  body_length (body_header verb middle n) = BodyPresent n.
Proof.
  intros Hv Hn. unfold body_length, body_header. rewrite carries_body_no_rid by done.
  pose proof (carries_body_no_space _ Hv) as Hs. rewrite find_char_app by done.
  rewrite take_app_length. unfold carries_body in Hv. rewrite Hv. simpl negb. cbv iota.
  replace (verb ++ SPACE :: middle ++ SPACE :: dec n)
    with ((verb ++ SPACE :: middle) ++ SPACE :: dec n) by by rewrite <- app_assoc.
  rewrite rfind_char_app by apply dec_no_space.
  replace (drop (S (length (verb ++ SPACE :: middle))) ((verb ++ SPACE :: middle) ++ SPACE :: dec n)) with (dec n).
  2:{ by rewrite drop_app_ge, Nat.sub_succ_l, Nat.sub_diag by lia. }
  assert (Hp : parse_canonical 7 (dec n) = Some n).
  { apply parse_canonical_dec; [lia| |done]. unfold MAX_BODY in Hn. simpl. lia. }
  clear Hv. revert Hp. unfold parse_canonical. destruct (_ || _); [done|]. destruct (_ && _); [done|]. intros ->.
  destruct (N.ltb_spec MAX_BODY n); [lia|done].
Qed.

(** The receiver takes off the prefix a sender puts on. *)
Lemma split_rid id line : Forall (λ c, is_lower_hex c = true) id → length id = 16 → line ≠ [] →
  split_request_id (lit "RID " ++ id ++ SPACE :: line) = RidPresent id line.
Proof.
  intros Hid Hlen Hl.
  assert (Hsz : (length (lit "RID " ++ id ++ SPACE :: line) <? 4 + 16 + 1 + 1) = false).
  { apply Nat.ltb_ge. rewrite !length_app. simpl. rewrite Hlen. destruct line; [done|simpl; lia]. }
  assert (Hsp : (lit "RID " ++ id ++ SPACE :: line) !! (4 + 16) = Some SPACE).
  { rewrite lookup_app_r by (simpl; lia). rewrite lookup_app_r by (simpl; lia). by rewrite Hlen. }
  assert (Ht : substr 4 16 (lit "RID " ++ id ++ SPACE :: line) = id).
  { change (take 16 (id ++ SPACE :: line) = id). by rewrite <- Hlen, take_app_length. }
  assert (Hd : drop (4 + 16 + 1) (lit "RID " ++ id ++ SPACE :: line) = line).
  { change (drop 17 (id ++ SPACE :: line) = line). rewrite drop_app_ge by lia. by rewrite Hlen. }
  assert (Hf : forallb is_lower_hex id = true) by by apply forallb_Forall.
  unfold split_request_id. by rewrite starts_with_app, Hsz, Hsp, Ht, Hd, Hf.
Qed.

(** The sender, who adds a request id, and the receiver, who takes it off
    first, agree on which lines carry a body. *)
Lemma body_length_rid id verb middle n :
  Forall (λ c, is_lower_hex c = true) id → length id = 16 →
  carries_body verb = true → (n <= MAX_BODY)%N →
  body_length (lit "RID " ++ id ++ SPACE :: body_header verb middle n) = BodyPresent n.
Proof.
  intros Hid Hlen Hv Hn. set (line := body_header verb middle n).
  assert (E : split_request_id (lit "RID " ++ id ++ SPACE :: line) = RidPresent id line).
  { apply split_rid; [done..|]. intros E0. apply app_nil in E0 as [_ ?]. discriminate. }
  pose proof (body_length_header verb middle n Hv Hn) as Hb. unfold body_length in *. rewrite E.
  unfold body_header in Hb. rewrite carries_body_no_rid in Hb by done. exact Hb.
Qed.

(** ** Properties *)

(** Framing round trip: whatever the segmentation of the stream, reading one
    line from a connection that carries what [send_line] wrote gives back exactly
    that line and leaves the bytes that follow it. No message becomes two, and
    none is joined with the next. *)
Theorem framing_roundtrip line calls sent calls' st more :
  send_line line calls = Some (sent, inr calls') →
  clean st → stream_bytes st = sent ++ more → length (sanitize line) ≤ MAX_LINE →
  ∃ st', recv_line st = Received (sanitize line) st' ∧ clean st' ∧ stream_bytes st' = more.
Proof.
  intros Hs Hc E Hl. apply send_all_complete in Hs as ->. unfold line_bytes in E.
  rewrite <- app_assoc in E. destruct (recv_line_clean st [] (sanitize line) more) as (st' & H1 & H2);
    [done|done|apply sanitize_no_nl|done|]. exists st'. split; [|done].
  unfold recv_line. rewrite H1. simpl. by rewrite strip_cr_sanitize.
Qed.

Lemma framing_roundtrip_witness :
  ∃ st', recv_line [RecvData "P"; RecvIntr; RecvData ("ING" ++ [NL] ++ "NEXT")] = Received "PING" st'
         ∧ clean st' ∧ stream_bytes st' = "NEXT".
Proof.
  apply (framing_roundtrip "PING" [SendSome 1; SendIntr; SendSome 2] ("PING" ++ [NL]) []).
  - reflexivity.
  - by repeat constructor.
  - reflexivity.
  - apply Nat.leb_le. reflexivity.
Defined.

(** A whole frame survives the wire: a header that declares its body's length
    and the body after it are read back exactly, whatever bytes the body holds
    (newlines included), and the stream stays in step for the next frame. *)
Theorem frame_roundtrip verb middle body st more :
  let header := body_header verb middle (N.of_nat (length body)) in
  carries_body verb = true → (N.of_nat (length body) <= MAX_BODY)%N →
  Forall (λ c, is_eol c = false) middle → length header ≤ MAX_LINE →
  clean st → stream_bytes st = line_bytes header ++ body ++ more →
  ∃ st', recv_frame st = Some (header, body, st') ∧ clean st' ∧ stream_bytes st' = more.
Proof.
  intros header Hv Hn Hm Hl Hc E.
  assert (Hid : sanitize header = header).
  { apply sanitize_id. apply Forall_app. split.
    - revert Hv. unfold carries_body. rewrite !orb_true_iff, !bool_decide_eq_true.
      intros [[[->| ->]| ->]| ->]; repeat constructor.
    - constructor; [done|]. apply Forall_app. split; [done|]. constructor; [done|].
      eapply Forall_impl; [apply dec_digits|]. intros c Hc'. unfold is_eol.
      apply orb_false_iff. rewrite !bool_decide_eq_false. split; intros ->; done. }
  unfold line_bytes in E. rewrite <- app_assoc, Hid in E.
  destruct (recv_line_clean st [] header (body ++ more)) as (st1 & H1 & H2 & H3); [done|done| |done|].
  { rewrite <- Hid. apply sanitize_no_nl. }
  destruct (recv_exact_clean (length body) st1 [] body more H2 H3 eq_refl) as (st2 & H4 & H5 & H6).
  exists st2. split; [|done]. unfold recv_frame, recv_line. rewrite H1. simpl app.
  rewrite <- Hid, strip_cr_sanitize, Hid. unfold header at 1. rewrite body_length_header by done.
  unfold recv_exact. rewrite Nat2N.id, H4. done.
Qed.

Lemma frame_roundtrip_witness :
  ∃ st', recv_frame [RecvData ("CHUNK x 3" ++ [NL] ++ "a"); RecvIntr; RecvData ([NL] ++ "bMISSING")]
         = Some (lit "CHUNK x 3", "a" ++ [NL] ++ "b", st') ∧ clean st' ∧ stream_bytes st' = "MISSING".
Proof.
  apply (frame_roundtrip "CHUNK" "x" ("a" ++ [NL] ++ "b")).
  - reflexivity.
  - apply N.leb_le. reflexivity.
  - by repeat constructor.
  - apply Nat.leb_le. reflexivity.
  - by repeat constructor.
  - reflexivity.
Defined.
