(* ===== verification/Log.v ===== *)
(** * Log: structured lines and request ids (log.h, log.cpp)

    The text of a log line, the one write that carries it, and the request id
    every call of a thread carries. The time of a line is an argument. [read_line]
    is the reference reader of a line: the fields and nothing else. *)
From S2P Require Import Prelude Text Net.

Definition QUOTE : Ascii.ascii := chr 34.
Definition EQUALS : Ascii.ascii := chr 61.
Definition BACKSLASH : Ascii.ascii := chr 92.
Definition TAB : Ascii.ascii := chr 9.

Inductive Level := Debug | Info | Warn | Error.
#[export] Instance Level_eq_dec : EqDecision Level.
Proof. solve_decision. Defined.

Definition level_name (l : Level) : bytes :=
  match l with Debug => lit "debug" | Info => lit "info" | Warn => lit "warn" | Error => lit "error" end.
Definition level_rank (l : Level) : nat := match l with Debug => 0 | Info => 1 | Warn => 2 | Error => 3 end.

Definition parse_level (s : bytes) : option Level :=
  snd <$> list_find (λ l, s = level_name l) [Debug; Info; Warn; Error].

(** What [log_setup] and [set_process_request_id] set before any thread starts. *)
Record Logger := mkLogger { lg_process : bytes; lg_threshold : Level; lg_fd : Z; lg_request_id : bytes }.

Definition log_enabled (g : Logger) (l : Level) : bool :=
  (0 <=? lg_fd g)%Z && (level_rank (lg_threshold g) <=? level_rank l).

(** ** Values *)

(** The unsigned characters up to a space, the delete character, and the three that quote. *)
Definition unsafe_char (c : Ascii.ascii) : bool :=
  (code c <=? 32)%N || bool_decide (c = EQUALS) || bool_decide (c = QUOTE) || bool_decide (c = BACKSLASH) || (code c =? 127)%N.
Definition needs_quotes (v : bytes) : bool := bool_decide (v = []) || existsb unsafe_char v.

Definition escape_char (c : Ascii.ascii) : bytes :=
  if bool_decide (c = QUOTE) then [BACKSLASH; QUOTE]
  else if bool_decide (c = BACKSLASH) then [BACKSLASH; BACKSLASH]
  else if bool_decide (c = NL) then BACKSLASH :: lit "n"
  else if bool_decide (c = CR) then BACKSLASH :: lit "r"
  else if bool_decide (c = TAB) then BACKSLASH :: lit "t"
  else if (code c <? 32)%N || (code c =? 127)%N then BACKSLASH :: lit "x" ++ hex_go 2 (Z.of_N (code c))
  else [c].

Definition logfmt_value (v : bytes) : bytes :=
  if negb (needs_quotes v) then v else [QUOTE] ++ concat (escape_char <$> v) ++ [QUOTE].

(** ** Lines *)

Definition LogField : Type := bytes * bytes.
Definition field_text (f : LogField) : bytes := f.1 ++ [EQUALS] ++ logfmt_value f.2.

Definition format_log_line (timestamp : bytes) (level : Level) (process request_id event : bytes) (fields : list LogField) : bytes :=
  lit "ts=" ++ timestamp ++ lit " level=" ++ level_name level ++ lit " proc=" ++ logfmt_value process ++
  (if bool_decide (request_id = []) then [] else lit " req=" ++ logfmt_value request_id) ++
  lit " event=" ++ logfmt_value event ++ concat ((λ f, [SPACE] ++ field_text f) <$> fields).

Definition MAX_LOG_LINE : nat := 4096.

(** A line too long for one write is cut, and says so. *)
Definition log_line_bytes (line : bytes) : bytes :=
  (if MAX_LOG_LINE - 1 <? length line then take (MAX_LOG_LINE - 4) line ++ lit "..." else line) ++ [NL].

(** ** Request ids *)

Definition valid_request_id (id : bytes) : bool := (length id =? 16) && forallb is_lower_hex id.

(** From two 32-bit random words. *)
Definition new_request_id (a b : Z) : bytes := hex_go 16 (Z.lxor (wrap64 (Z.shiftl a 32)) b).

(** [thread_id]: the id of the request the thread is handling. *)
Definition current_request_id (g : Logger) (thread_id : bytes) : bytes :=
  if bool_decide (thread_id = []) then lg_request_id g else thread_id.

(** A scope's constructor gives what it saved and the thread's new id; its
    destructor puts back what was saved. *)
Definition open_scope (id thread_id : bytes) : bytes * bytes := (thread_id, id).
Definition close_scope (saved : bytes) : bytes := saved.

Definition with_request_id (g : Logger) (thread_id line : bytes) : bytes :=
  let id := current_request_id g thread_id in
  if bool_decide (id = []) then line else lit "RID " ++ id ++ SPACE :: line.

(** What reaches the descriptor; [None] while a write has not returned. *)
Definition log_event (g : Logger) (thread_id now : bytes) (level : Level) (event : bytes) (fields : list LogField)
    (writes : list SendEvent) : option bytes :=
  if negb (log_enabled g level) then Some []
  else fst <$> send_all (log_line_bytes (format_log_line now level (lg_process g) (current_request_id g thread_id) event fields)) writes.

(** ** Reading a line back *)

(** After the opening quote: the value, and what follows the closing one. *)
Definition hex_value (h l : Ascii.ascii) : option Ascii.ascii :=
  a ← hex_nibble h; b ← hex_nibble l; Some (chr (Z.to_N (a * 16 + b))).

Fixpoint unquote (s : bytes) : option (bytes * bytes) :=
  match s with
  | [] => None
  | c :: s =>
      if bool_decide (c = QUOTE) then Some ([], s)
      else if negb (bool_decide (c = BACKSLASH)) then '(v, rest) ← unquote s; Some (c :: v, rest)
      else match s with
      | [] => None
      | e :: s =>
          if bool_decide (e = chr 120) then
            match s with
            | h :: l :: s => x ← hex_value h l; '(v, rest) ← unquote s; Some (x :: v, rest)
            | _ => None
            end
          else
            x ← (if bool_decide (e = QUOTE) || bool_decide (e = BACKSLASH) then Some e
                 else if bool_decide (e = chr 110) then Some NL
                 else if bool_decide (e = chr 114) then Some CR
                 else if bool_decide (e = chr 116) then Some TAB else None);
            '(v, rest) ← unquote s; Some (x :: v, rest)
      end
  end.

(** Up to the first [c], and what follows it. *)
Fixpoint cut_at (c : Ascii.ascii) (s : bytes) : bytes * option bytes :=
  match s with
  | [] => ([], None)
  | x :: s => if bool_decide (x = c) then ([], Some s) else let '(a, rest) := cut_at c s in (x :: a, rest)
  end.

(** A value: the value, and what follows the space after it, if there is one. *)
Definition read_value (s : bytes) : option (bytes * option bytes) :=
  match s with
  | [] => None
  | c :: s' =>
      if bool_decide (c = QUOTE) then
        '(v, rest) ← unquote s';
        match rest with
        | [] => Some (v, None)
        | x :: rest => if bool_decide (x = SPACE) then Some (v, Some rest) else None
        end
      else let '(v, rest) := cut_at SPACE s in if existsb unsafe_char v then None else Some (v, rest)
  end.

Fixpoint read_fields (fuel : nat) (s : bytes) : option (list LogField) :=
  match fuel with
  | 0 => None
  | S fuel =>
      let '(name, after) := cut_at EQUALS s in
      after ← after;
      '(value, rest) ← read_value after;
      match rest with
      | None => Some [(name, value)]
      | Some rest => more ← read_fields fuel rest; Some ((name, value) :: more)
      end
  end.
Definition read_line (s : bytes) : option (list LogField) := read_fields (length s) s.

(** ** Facts *)

Lemma existsb_false_Forall {A} (p : A → bool) l : existsb p l = false ↔ Forall (λ x, p x = false) l.
Proof.
  induction l as [|x l IH]; cbn; [by split; [constructor|]|]. rewrite orb_false_iff, Forall_cons, IH. done.
Qed.

Lemma unquote_escape c rest : unquote (escape_char c ++ rest) = ('(v, r) ← unquote rest; Some (c :: v, r)).
Proof. destruct c as [[] [] [] [] [] [] [] []]; reflexivity. Qed.

Lemma unquote_escaped v rest : unquote (concat (escape_char <$> v) ++ QUOTE :: rest) = Some (v, rest).
Proof.
  induction v as [|c v IH]; [done|]. rewrite fmap_cons. cbn [concat]. by rewrite <- app_assoc, unquote_escape, IH.
Qed.

Lemma cut_at_app c s rest : c ∉ s → cut_at c (s ++ c :: rest) = (s, Some rest).
Proof.
  induction s as [|x s IH]; intros Hc; cbn.
  - by rewrite bool_decide_true.
  - apply not_elem_of_cons in Hc as [Hx Hc]. rewrite bool_decide_false by congruence. by rewrite IH.
Qed.

Lemma cut_at_end c s : c ∉ s → cut_at c s = (s, None).
Proof.
  induction s as [|x s IH]; intros Hc; cbn; [done|]. apply not_elem_of_cons in Hc as [Hx Hc].
  rewrite bool_decide_false by congruence. by rewrite IH.
Qed.

(** What follows a field in a line. *)
Definition following (rest : option bytes) : bytes := match rest with None => [] | Some r => SPACE :: r end.

Lemma existsb_false {A} (p : A → bool) l x : existsb p l = false → x ∈ l → p x = false.
Proof.
  intros H Hx. destruct (p x) eqn:E; [|done]. assert (existsb p l = true) as Ht; [|congruence].
  apply existsb_exists. exists x. split; [by apply list_elem_of_In|done].
Qed.

Lemma read_logfmt_value v rest : read_value (logfmt_value v ++ following rest) = Some (v, rest).
Proof.
  unfold logfmt_value. destruct (needs_quotes v) eqn:Eq; cbn [negb].
  - rewrite <- !app_assoc. cbn [app read_value]. rewrite bool_decide_true by done.
    cbn [app]. rewrite unquote_escaped. cbn. destruct rest as [r|]; cbn; [|done].
    by rewrite bool_decide_true.
  - apply orb_false_iff in Eq as [Hne Hs]. apply bool_decide_eq_false in Hne.
    destruct v as [|c v]; [done|]. cbn [app read_value].
    assert (Hc : c ≠ QUOTE). { intros ->. by apply (existsb_false _ _ QUOTE) in Hs; [|by left]. }
    rewrite bool_decide_false by done.
    assert (Hsp : SPACE ∉ c :: v). { intros Hin. by apply (existsb_false _ _ SPACE) in Hs. }
    change (c :: v ++ following rest) with ((c :: v) ++ following rest).
    destruct rest as [r|]; cbn [following].
    + rewrite cut_at_app by done. by rewrite Hs.
    + rewrite app_nil_r, cut_at_end by done. by rewrite Hs.
Qed.

Lemma read_fields_join fuel fs : fs ≠ [] → length (join SPACE (field_text <$> fs)) ≤ fuel →
  Forall (λ f, EQUALS ∉ f.1) fs → read_fields fuel (join SPACE (field_text <$> fs)) = Some fs.
Proof.
  intros Hne Hlen Hnames. revert fuel Hlen. induction Hnames as [|[name v] fs Hn Hnames IH]; [done|]. clear Hne. cbn [fst] in Hn.
  intros fuel Hlen. assert (E : ∃ rest, join SPACE (field_text <$> (name, v) :: fs) = field_text (name, v) ++ following rest ∧
    (rest = None ↔ fs = []) ∧ ∀ r, rest = Some r → r = join SPACE (field_text <$> fs)).
  { destruct fs as [|f fs].
    - exists None. cbn. rewrite app_nil_r. by split_and!.
    - exists (Some (join SPACE (field_text <$> f :: fs))). cbn. split; [done|]. split; [done|]. by intros r [= <-]. }
  destruct E as (rest & E & Hnone & Hsome). rewrite E in *. unfold field_text in *. cbn [fst snd] in *.
  rewrite <- !app_assoc in *. cbn [app] in *. rewrite length_app in Hlen. cbn [length] in Hlen.
  destruct fuel as [|fuel]; [lia|]. cbn [read_fields]. rewrite cut_at_app by done. cbn [mbind option_bind].
  rewrite read_logfmt_value. cbn [mbind option_bind]. destruct rest as [r|].
  - rewrite (Hsome r eq_refl) in *. assert (fs ≠ []) by (intros ->; by destruct Hnone as [_ Hnone]; specialize (Hnone eq_refl)).
    rewrite IH; [done|done|]. cbn [following] in Hlen. rewrite length_app in Hlen. cbn [length] in Hlen. lia.
  - by rewrite (proj1 Hnone eq_refl).
Qed.

(** The fields of a line, in order. *)
Definition log_fields (timestamp : bytes) (level : Level) (process request_id event : bytes) (fields : list LogField) : list LogField :=
  [(lit "ts", timestamp); (lit "level", level_name level); (lit "proc", process)] ++
  (if bool_decide (request_id = []) then [] else [(lit "req", request_id)]) ++ [(lit "event", event)] ++ fields.

Lemma join_cons f fs : join SPACE (field_text <$> f :: fs) = field_text f ++ concat ((λ f, [SPACE] ++ field_text f) <$> fs).
Proof.
  revert f. induction fs as [|g fs IH]; intros f; [by cbn; rewrite app_nil_r|].
  change (join SPACE (field_text <$> f :: g :: fs)) with (field_text f ++ SPACE :: join SPACE (field_text <$> g :: fs)). by rewrite IH.
Qed.

Lemma format_log_line_fields ts level process rid event fields : needs_quotes ts = false →
  format_log_line ts level process rid event fields = join SPACE (field_text <$> log_fields ts level process rid event fields).
Proof.
  intros Hts. unfold log_fields. cbn [app]. rewrite join_cons. unfold format_log_line.
  assert (Ets : logfmt_value ts = ts) by (unfold logfmt_value; by rewrite Hts).
  assert (El : logfmt_value (level_name level) = level_name level) by by destruct level.
  rewrite !fmap_cons, fmap_app, fmap_cons. cbn [concat]. rewrite concat_app. cbn [concat].
  unfold field_text at 1 2 3 5. cbn [fst snd]. rewrite El, Ets.
  case_bool_decide; cbn [fmap list_fmap concat]; unfold field_text; cbn [fst snd]; rewrite ?app_nil_r, <- ?app_assoc; reflexivity.
Qed.

Lemma escape_char_visible c : Forall (λ x, (32 <= code x)%N ∧ code x ≠ 127%N) (escape_char c).
Proof. destruct c as [[] [] [] [] [] [] [] []]; apply (bool_decide_unpack _); vm_compute; exact Logic.I. Qed.

Lemma logfmt_value_visible v : Forall (λ x, (32 <= code x)%N) (logfmt_value v).
Proof.
  unfold logfmt_value. destruct (needs_quotes v) eqn:Eq; cbn [negb].
  - apply Forall_app. split; [by repeat constructor|]. apply Forall_app. split; [|by repeat constructor].
    apply Forall_concat, Forall_fmap, Forall_true. intros c. cbn. eapply Forall_impl; [apply escape_char_visible|]. by intros x [? _].
  - apply orb_false_iff in Eq as [_ Hs]. apply Forall_forall. intros c Hc. apply (existsb_false _ _ c) in Hs; [|done].
    unfold unsafe_char in Hs. blia.
Qed.
Lemma join_visible fs : Forall (λ f, Forall (λ x, (32 <= code x)%N) f.1) fs → Forall (λ x, (32 <= code x)%N) (join SPACE (field_text <$> fs)).
Proof.
  intros H. assert (Hf : ∀ f, Forall (λ x, (32 <= code x)%N) f.1 → Forall (λ x, (32 <= code x)%N) (field_text f)).
  { intros f Hf. apply Forall_app. split; [done|]. constructor; [done|]. apply logfmt_value_visible. }
  destruct H as [|f fs H Hs]; [constructor|]. rewrite join_cons. apply Forall_app. split; [by apply Hf|].
  apply Forall_concat, Forall_fmap. eapply Forall_impl; [exact Hs|]. intros g Hg. constructor; [done|by apply Hf].
Qed.

Lemma visible_no_nl s : Forall (λ x, (32 <= code x)%N) s → NL ∉ s.
Proof. rewrite Forall_forall. intros H Hin. apply H in Hin. by vm_compute in Hin. Qed.

Lemma send_all_prefix data calls sent r : send_all data calls = Some (sent, r) → sent `prefix_of` data.
Proof.
  revert data sent. induction calls as [|c cs IH]; intros data sent; simpl;
    case_bool_decide as Hd; try (intros [= <- <-]; apply prefix_nil); try done.
  destruct c as [n| |e]; [|by apply IH|intros [= <- <-]; apply prefix_nil].
  destruct (send_all (drop (S n) data) cs) as [[s r']|] eqn:E; simpl; [|done].
  intros [= <- <-]. apply IH in E. rewrite <- (take_drop (S n) data) at 2. by apply prefix_app.
Qed.

Lemma log_line_bytes_length line : length (log_line_bytes line) ≤ MAX_LOG_LINE.
Proof.
  unfold log_line_bytes. rewrite length_app. destruct (Nat.ltb_spec (MAX_LOG_LINE - 1) (length line)) as [H|H].
  - rewrite length_app, length_take. change (length (lit "...")) with 3. change (length [NL]) with 1.
    assert (4 ≤ MAX_LOG_LINE) by (apply Nat.leb_le; vm_compute; reflexivity). lia.
  - change (length [NL]) with 1. assert (4 ≤ MAX_LOG_LINE) by (apply Nat.leb_le; vm_compute; reflexivity). lia.
Qed.

(** The bodies of a fresh id. *)
Lemma new_request_id_valid a b : valid_request_id (new_request_id a b) = true.
Proof.
  unfold valid_request_id, new_request_id. rewrite length_hex_go. cbn [Nat.eqb andb]. apply forallb_Forall, hex_go_lower.
Qed.

(** What a field's name may be: the sources' names are words. *)
Definition plain_name (name : bytes) : Prop := (EQUALS ∉ name) ∧ Forall (λ x, (32 <= code x)%N) name.

Lemma log_fields_plain ts level process rid event fields : Forall (λ f, plain_name f.1) fields →
  Forall (λ f, plain_name f.1) (log_fields ts level process rid event fields).
Proof.
  intros H. unfold log_fields. repeat (constructor; [apply (bool_decide_unpack _); vm_compute; exact Logic.I|]).
  apply Forall_app. split.
  - case_bool_decide; [constructor|]. constructor; [|constructor]. apply (bool_decide_unpack _); vm_compute; exact Logic.I.
  - constructor; [apply (bool_decide_unpack _); vm_compute; exact Logic.I|done].
Qed.

(** ** Theorems *)

(** C32. No value can end a log line early or forge a field. Whatever bytes the process's
    name, the request id, the event and the values are, a line holds no control
    character, and reading it back gives exactly the fields it was made from; what a
    call puts on the descriptor is a part of one line of at most [MAX_LOG_LINE]
    bytes that has one newline, at its end. *)
Theorem log_lines_cannot_be_forged g thread_id now level event fields :
  needs_quotes now = false → Forall (λ f, plain_name f.1) fields →
  let id := current_request_id g thread_id in
  let line := format_log_line now level (lg_process g) id event fields in
  read_line line = Some (log_fields now level (lg_process g) id event fields) ∧ Forall (λ x, (32 <= code x)%N) line ∧
  ∀ writes out, log_event g thread_id now level event fields writes = Some out →
    out `prefix_of` log_line_bytes line ∧ length (log_line_bytes line) ≤ MAX_LOG_LINE ∧
    ∃ text, log_line_bytes line = text ++ [NL] ∧ NL ∉ text.
Proof.
  intros Hts Hf id line. assert (E : line = join SPACE (field_text <$> log_fields now level (lg_process g) id event fields))
    by by apply format_log_line_fields.
  pose proof (log_fields_plain now level (lg_process g) id event fields Hf) as Hp.
  assert (Hvis : Forall (λ x, (32 <= code x)%N) line).
  { rewrite E. apply join_visible. eapply Forall_impl; [exact Hp|]. by intros f [_ ?]. }
  split; [|split; [exact Hvis|]].
  - unfold read_line. rewrite E. apply read_fields_join; [done|lia|]. eapply Forall_impl; [exact Hp|]. by intros f [? _].
  - intros writes out. unfold log_event. fold id line. intros Hout. split; [|split; [apply log_line_bytes_length|]].
    + destruct (negb _); [injection Hout as <-; apply prefix_nil|].
      destruct (send_all _ _) as [[sent r]|] eqn:Es; cbn in Hout; [|done]. injection Hout as <-. by eapply send_all_prefix.
    + eexists. split; [reflexivity|]. apply visible_no_nl. destruct (_ <? _); [|done]. apply Forall_app. split.
      * by apply Forall_take.
      * apply (bool_decide_unpack _); vm_compute; exact Logic.I.
Qed.

(** A request made on someone's behalf carries their id: the receiver takes off
    exactly what the sender put on, and both agree on the body that follows. *)
Theorem request_id_travels g thread_id line :
  current_request_id g thread_id ≠ [] → valid_request_id (current_request_id g thread_id) = true → line ≠ [] →
  split_request_id (with_request_id g thread_id line) = RidPresent (current_request_id g thread_id) line.
Proof.
  intros Hne Hid Hl. unfold with_request_id. cbv zeta. rewrite bool_decide_false by done.
  unfold valid_request_id in Hid. apply andb_true_iff in Hid as [H1%Nat.eqb_eq H2%forallb_Forall]. by apply split_rid.
Qed.

(** ** Witnesses *)

Definition demo_logger : Logger := mkLogger (lit "client") Info 2 [].

Lemma log_lines_cannot_be_forged_witness :
  let fields := [(lit "msg", lit "a" ++ [NL; QUOTE] ++ lit " level=error")] in
  let line := format_log_line (lit "2026-01-01T00:00:00.000Z") Warn (lit "client") (lit "0123456789abcdef") (lit "client.note") fields in
  read_line line = Some (log_fields (lit "2026-01-01T00:00:00.000Z") Warn (lit "client") (lit "0123456789abcdef") (lit "client.note") fields) ∧
  Forall (λ x, (32 <= code x)%N) line ∧
  ∀ writes out, log_event demo_logger (lit "0123456789abcdef") (lit "2026-01-01T00:00:00.000Z") Warn (lit "client.note") fields writes = Some out →
    out `prefix_of` log_line_bytes line ∧ length (log_line_bytes line) ≤ MAX_LOG_LINE ∧
    ∃ text, log_line_bytes line = text ++ [NL] ∧ NL ∉ text.
Proof.
  apply (log_lines_cannot_be_forged demo_logger (lit "0123456789abcdef") (lit "2026-01-01T00:00:00.000Z") Warn (lit "client.note")).
  - reflexivity.
  - constructor; [|constructor]. apply (bool_decide_unpack _). vm_compute. exact Logic.I.
Defined.

Lemma request_id_travels_witness :
  split_request_id (with_request_id demo_logger (new_request_id 1 2) (lit "PING")) = RidPresent (new_request_id 1 2) (lit "PING").
Proof. apply (request_id_travels demo_logger (new_request_id 1 2) (lit "PING")); [done|apply new_request_id_valid|done]. Defined.
