(* ===== verification/Chord.v ===== *)
(** * Chord: identifiers, arcs and one routing step (chord.h, chord.cpp)

    The identifier circle, the membership list a fixed ring is built from, and
    the decision one node makes for one lookup. SHA-1 and the two [inet_*]
    calls are code outside the repository: they are the classes [Sha1] and
    [Inet], with what the sources rely on as laws in [Sha1Ok] and [InetOk]. *)
From stdpp Require Import sorting.
From S2P Require Import Prelude Text.

(** ** What the sources call and do not define *)

(** OpenSSL's SHA-1 rendered by [to_hex] (sha1.h). *)
Class Sha1 := sha1 : bytes → bytes.
Class Sha1Ok (H : Sha1) : Prop := {
  sha1_length : ∀ s, length (sha1 s) = 40;
  sha1_lower_hex : ∀ s, Forall (λ c, is_lower_hex c = true) (sha1 s);
}.

(** [inet_pton] followed by [inet_ntop]: the canonical dotted quad of a host,
    or nothing if it is not one. [inet_pton] reads a C string. *)
Class Inet := inet_canonical : bytes → option bytes.
Class InetOk (I : Inet) : Prop := {
  inet_idempotent : ∀ s c, inet_canonical s = Some c → inet_canonical c = Some c;
  inet_quad : ∀ s c, inet_canonical s = Some c →
    Forall (λ x, is_digit x = true ∨ x = DOT) c ∧ c ≠ [];
}.

(** ** Identifiers *)

Abbreviation Id := Z (only parsing).
Definition ID_BITS : nat := 64.

Fixpoint id_from_key_go (i : nat) (value : Id) (s : bytes) : option Id :=
  match s with
  | [] => Some value
  | c :: s' =>
      nibble ← hex_nibble c;
      id_from_key_go (S i)
        (if i <? 16 then Z.lor (wrap64 (Z.shiftl value 4)) nibble else value) s'
  end.
Definition id_from_key (hex_key : bytes) : option Id :=
  if negb (length hex_key =? 40) then None else id_from_key_go 0 0 hex_key.

Definition id_to_hex (id : Id) : bytes := hex_go 16 id.

Definition id_from_hex (hex16 : bytes) : option Id :=
  if negb (length hex16 =? 16) then None else foldl hex_step (Some 0%Z) hex16.

(** [None] is the failed assertion. *)
Definition id_of_address `{Sha1} (ip : bytes) (port : Z) : option Id :=
  id_from_key (sha1 (ip ++ lit ":" ++ to_string port)).

Definition id_of_member `{Sha1} (ip : bytes) (port : Z) (i : Z) : option Id :=
  if (i <? 0)%Z then None
  else if (i =? 0)%Z then id_of_address ip port
  else id_from_key (sha1 (ip ++ lit ":" ++ to_string port ++ lit "#" ++ to_string i)).

(** ** Arcs *)

Definition in_range_oc (k a b : Id) : bool :=
  if (a <? b)%Z then (a <? k)%Z && (k <=? b)%Z else (a <? k)%Z || (k <=? b)%Z.

Definition in_range_oo (k a b : Id) : bool :=
  if (a <? b)%Z then (a <? k)%Z && (k <? b)%Z else (a <? k)%Z || (k <? b)%Z.

Definition finger_start (n : Id) (i : nat) : Id := wrap64 (n + Z.shiftl 1 (Z.of_nat i)).

(** ** Members *)

Record Peer := mkPeer { peer_id : Id; peer_ip : bytes; peer_port : Z }.

#[export] Instance Peer_eq_dec : EqDecision Peer.
Proof. solve_decision. Defined.
#[export] Instance Peer_inhabited : Inhabited Peer := populate (mkPeer 0 [] 0).

(** A port in 1..65535, digits only. *)
Definition parse_port (s : bytes) : option Z :=
  if bool_decide (s = []) || (5 <? length s) then None
  else v ← digits_val s;
       if (v <? 1)%N || (65535 <? v)%N then None else Some (Z.of_N v).

(** One trimmed "ip:port" entry, with its identifier computed. *)
Definition parse_member `{Sha1, Inet} (entry : bytes) : option Peer :=
  if bool_decide (NUL ∈ entry) then None else
  match find_char COLON entry with
  | None => None
  | Some colon =>
      if bool_decide (COLON ∈ drop (S colon) entry) then None else
      port ← parse_port (drop (S colon) entry);
      ip ← inet_canonical (c_str (take colon entry));
      id ← id_of_address ip port;
      Some (mkPeer id ip port)
  end.

Definition by_id (a b : Peer) : Prop := (peer_id a <= peer_id b)%Z.
#[export] Instance by_id_dec : RelDecision by_id.
Proof. intros a b. unfold by_id. apply _. Defined.

Definition address (p : Peer) : bytes := peer_ip p ++ lit ":" ++ to_string (peer_port p).

(** The adjacent scan: the first pair that shares an identifier. *)
Fixpoint adjacent_clash (l : list Peer) : option (Peer * Peer) :=
  match l with
  | a :: ((b :: _) as l') => if (peer_id a =? peer_id b)%Z then Some (a, b) else adjacent_clash l'
  | _ => None
  end.

(** [inl] is the error text. *)
Definition validate_ring (members : list Peer) : bytes + list Peer :=
  if bool_decide (members = []) then inl (lit "membership list is empty") else
  let sorted := merge_sort by_id members in
  match adjacent_clash sorted with
  | Some (a, b) =>
      let sa := address a in
      let sb := address b in
      inl (if bool_decide (sa = sb) then lit "duplicate member " ++ sa
           else lit "identifier collision between " ++ sa ++ lit " and " ++ sb)
  | None => inr sorted
  end.

(** [std::getline] on a string stream: the pieces between newlines, without
    the empty piece after a final newline. *)
Definition getlines (c : Ascii.ascii) (text : bytes) : list bytes :=
  let ws := split_on c text in
  if bool_decide (last ws = Some []) then List.removelast ws else ws.

Fixpoint parse_member_lines `{Sha1, Inet} (line_no : N) (lines : list bytes) (members : list Peer)
  : bytes + list Peer :=
  match lines with
  | [] => inr members
  | raw :: lines' =>
      let line_no := (line_no + 1)%N in
      let line := trim raw in
      if bool_decide (line = []) || bool_decide (head line = Some HASH)
      then parse_member_lines line_no lines' members
      else match parse_member line with
           | None => inl (lit "line " ++ dec line_no ++ lit ": not an IPv4 ip:port")
           | Some p => parse_member_lines line_no lines' (members ++ [p])
           end
  end.

Definition parse_members `{Sha1, Inet} (text : bytes) : bytes + list Peer :=
  match parse_member_lines 0 (getlines NL text) [] with
  | inl err => inl err
  | inr members => validate_ring members
  end.

(** ** Ownership on a sorted ring *)

(** [std::lower_bound]: how many members have an identifier below [k]. *)
Fixpoint lower_bound (k : Id) (sorted : list Peer) : nat :=
  match sorted with
  | [] => 0
  | p :: l => if (peer_id p <? k)%Z then S (lower_bound k l) else 0
  end.

(** [None] is the failed assertion that the ring is not empty. *)
Definition successor_of (k : Id) (sorted : list Peer) : option Peer :=
  match sorted !! lower_bound k sorted with
  | Some p => Some p
  | None => head sorted
  end.

Definition predecessor_of (id : Id) (sorted : list Peer) : option Peer :=
  match lower_bound id sorted with
  | 0 => last sorted
  | S i => sorted !! i
  end.

Definition build_fingers (my_id : Id) (sorted : list Peer) : option (list Peer) :=
  mapM (λ i, successor_of (finger_start my_id i) sorted) (seq 0 ID_BITS).

(** ** One routing step *)

(** The scan from [finger[63]] down to [finger[0]]. *)
Definition closest_preceding_finger (self : Peer) (fingers : list Peer) (k : Id) : Peer :=
  default self (List.find (λ f, in_range_oo (peer_id f) (peer_id self) k) (reverse fingers)).

Record RouteStep := mkRouteStep { owner : bool; step_peer : Peer }.

Definition route_step (self successor : Peer) (fingers : list Peer) (k : Id) : RouteStep :=
  if in_range_oc k (peer_id self) (peer_id successor) then mkRouteStep true successor
  else
    let next := closest_preceding_finger self fingers k in
    if bool_decide (peer_ip next = peer_ip self) && (peer_port next =? peer_port self)%Z
       && (peer_id next =? peer_id self)%Z
    then mkRouteStep false successor
    else mkRouteStep false next.

(** ** The circle *)

(** Clockwise distance from [a] to [b], and the length of the arc [(a, b]],
    which is the whole circle when [a = b]. *)
Definition dist (a b : Id) : Z := wrap64 (b - a).
Definition gap (a b : Id) : Z := if decide (a = b) then W64 else dist a b.

Lemma dist_cases a b :
  is_u64 a → is_u64 b → (a <= b ∧ dist a b = b - a ∨ b < a ∧ dist a b = b - a + W64)%Z.
Proof. intros Ha Hb. unfold dist. rewrite wrap64_sub_cases by done. case_decide; lia. Qed.

Lemma gap_cases a b :
  is_u64 a → is_u64 b → (a < b ∧ gap a b = b - a ∨ b <= a ∧ gap a b = b - a + W64)%Z.
Proof.
  intros Ha Hb. unfold gap. case_decide; [subst; right; lia|].
  destruct (dist_cases a b Ha Hb) as [[? ->]|[? ->]]; lia.
Qed.

(** Replace the distances and gaps of known words by their two cases. *)
Ltac circle_lia :=
  repeat match goal with
    | Ha : is_u64 ?a, Hb : is_u64 ?b |- _ =>
        match goal with
        | |- context [gap a b] => idtac
        | _ : context [gap a b] |- _ => idtac
        end;
        pose proof (gap_cases a b Ha Hb); generalize dependent (gap a b); intros
    | Ha : is_u64 ?a, Hb : is_u64 ?b |- _ =>
        match goal with
        | |- context [dist a b] => idtac
        | _ : context [dist a b] |- _ => idtac
        end;
        pose proof (dist_cases a b Ha Hb); generalize dependent (dist a b); intros
    | Ha : is_u64 ?a |- _ =>
        match goal with
        | |- context [gap a a] => idtac
        | _ : context [gap a a] |- _ => idtac
        end;
        pose proof (gap_cases a a Ha Ha); generalize dependent (gap a a); intros
    end;
  unfold is_u64, W64 in *; change (2 ^ 64)%Z with 18446744073709551616%Z in *; lia.

Section circle.
Context (a b c : Id) (Ha : is_u64 a) (Hb : is_u64 b) (Hc : is_u64 c).

Lemma gap_range : (1 <= gap a b <= W64)%Z.
Proof. circle_lia. Qed.

Lemma dist_zero : dist a b = 0%Z → a = b.
Proof. intros. circle_lia. Qed.

(** Walking on from a point inside the arc. *)
Lemma gap_inside : (gap a b < gap a c)%Z → gap a c = (gap a b + gap b c)%Z.
Proof. intros. circle_lia. Qed.

Lemma gap_outside : (gap a c <= gap a b)%Z → (gap a b + gap b c)%Z = (gap a c + W64)%Z.
Proof. intros. circle_lia. Qed.

(** What the two arc tests of chord.cpp decide. *)
Lemma in_range_oc_gap : in_range_oc c a b = true ↔ (gap a c <= gap a b)%Z.
Proof.
  pose proof (gap_cases a c Ha Hc). pose proof (gap_cases a b Ha Hb).
  unfold in_range_oc, is_u64, W64 in *. change (2 ^ 64)%Z with 18446744073709551616%Z in *.
  destruct (Z.ltb_spec a b), (Z.ltb_spec a c), (Z.leb_spec c b); simpl; split; intros; (done || lia).
Qed.

Lemma in_range_oo_gap : in_range_oo c a b = true ↔ (gap a c < gap a b)%Z.
Proof.
  pose proof (gap_cases a c Ha Hc). pose proof (gap_cases a b Ha Hb).
  unfold in_range_oo, is_u64, W64 in *. change (2 ^ 64)%Z with 18446744073709551616%Z in *.
  destruct (Z.ltb_spec a b), (Z.ltb_spec a c), (Z.ltb_spec c b); simpl; split; intros; (done || lia).
Qed.
End circle.

Lemma dist_self a : dist a a = 0%Z.
Proof. unfold dist. by rewrite Z.sub_diag. Qed.

Lemma finger_start_u64 n i : is_u64 (finger_start n i).
Proof. apply wrap64_is_u64. Qed.

(** Finger [i] starts [2^i] clockwise of the node. *)
Lemma finger_start_gap n i : is_u64 n → i < ID_BITS → gap n (finger_start n i) = (2 ^ Z.of_nat i)%Z.
Proof.
  intros Hn Hi. pose proof (finger_start_u64 n i) as Hf.
  assert (Hp : (1 <= 2 ^ Z.of_nat i <= 2 ^ 63)%Z).
  { split; [change 1%Z with (2 ^ 0)%Z|]; apply Z.pow_le_mono_r; unfold ID_BITS in *; lia. }
  pose proof (gap_cases n (finger_start n i) Hn Hf) as Hg. unfold finger_start in *.
  rewrite Z.shiftl_1_l in *. rewrite wrap64_add_cases in * by (done || (w64; lia)).
  case_decide; w64; lia.
Qed.

(** ** Rings *)

(** What [validate_ring] leaves in [members]: sorted, no two identifiers equal. *)
Definition ring_ok (ring : list Peer) : Prop :=
  ring ≠ [] ∧ StronglySorted (λ a b, (peer_id a < peer_id b)%Z) ring
  ∧ Forall (λ p, is_u64 (peer_id p)) ring.

Lemma ring_u64 ring p : ring_ok ring → p ∈ ring → is_u64 (peer_id p).
Proof. intros (_ & _ & H) Hp. rewrite Forall_forall in H. auto. Qed.

Lemma ring_inj ring p q : ring_ok ring → p ∈ ring → q ∈ ring → peer_id p = peer_id q → p = q.
Proof.
  intros (_ & H & _) Hp Hq E. induction H as [|x l Hl IH Hx]; [by apply elem_of_nil in Hp|].
  rewrite Forall_forall in Hx. apply elem_of_cons in Hp as [->|Hp], Hq as [->|Hq]; auto.
  - specialize (Hx q Hq). lia.
  - specialize (Hx p Hp). lia.
Qed.

Lemma lower_bound_spec k ring :
  StronglySorted (λ a b, (peer_id a < peer_id b)%Z) ring →
  Forall (λ p, (peer_id p < k)%Z) (take (lower_bound k ring) ring)
  ∧ Forall (λ p, (k <= peer_id p)%Z) (drop (lower_bound k ring) ring).
Proof.
  induction 1 as [|x l Hl [IH1 IH2] Hx]; simpl; [done|].
  destruct (Z.ltb_spec (peer_id x) k); simpl; [by split; [constructor|]|].
  split; [done|]. constructor; [done|]. eapply Forall_impl; [exact Hx|]. simpl. lia.
Qed.

Lemma lower_bound_le k ring : lower_bound k ring ≤ length ring.
Proof. induction ring as [|x l IH]; simpl; [done|]. case_match; simpl; lia. Qed.

Lemma sorted_lookup_lt ring i j p q :
  StronglySorted (λ a b, (peer_id a < peer_id b)%Z) ring →
  ring !! i = Some p → ring !! j = Some q → i < j → (peer_id p < peer_id q)%Z.
Proof.
  intros H. revert i j. induction H as [|x l Hl IH Hx]; intros i j Hi Hj Hlt; [done|].
  destruct j as [|j]; [lia|]. destruct i as [|i]; simpl in *; [|eapply IH; eauto; lia].
  simplify_eq. rewrite Forall_forall in Hx. apply Hx. by eapply list_elem_of_lookup_2.
Qed.

(** [p] is the first member met going clockwise from [k], [k] included. *)
Definition owns (ring : list Peer) (k : Id) (p : Peer) : Prop :=
  p ∈ ring ∧ ∀ q, q ∈ ring → (dist k (peer_id p) <= dist k (peer_id q))%Z.
(** [p] is the last member met before [k] going clockwise, [k] excluded. *)
Definition precedes (ring : list Peer) (k : Id) (p : Peer) : Prop :=
  p ∈ ring ∧ ∀ q, q ∈ ring → (gap (peer_id p) k <= gap (peer_id q) k)%Z.

Lemma owns_unique ring k p q : ring_ok ring → is_u64 k → owns ring k p → owns ring k q → p = q.
Proof.
  intros Hr Hk [Hp Hp'] [Hq Hq']. pose proof (ring_u64 _ _ Hr Hp). pose proof (ring_u64 _ _ Hr Hq).
  apply (ring_inj ring); [done..|]. specialize (Hp' q Hq). specialize (Hq' p Hp). circle_lia.
Qed.

Lemma precedes_unique ring k p q :
  ring_ok ring → is_u64 k → precedes ring k p → precedes ring k q → p = q.
Proof.
  intros Hr Hk [Hp Hp'] [Hq Hq']. pose proof (ring_u64 _ _ Hr Hp). pose proof (ring_u64 _ _ Hr Hq).
  apply (ring_inj ring); [done..|]. specialize (Hp' q Hq). specialize (Hq' p Hp). circle_lia.
Qed.

Lemma head_elem {A} (l : list A) x : head l = Some x → x ∈ l.
Proof. destruct l; simpl; [done|]. intros [= ->]. by constructor. Qed.

(** [successor_of] is the clockwise owner. *)
Lemma successor_of_owns ring k :
  ring_ok ring → is_u64 k → ∃ p, successor_of k ring = Some p ∧ owns ring k p.
Proof.
  intros Hr Hk. pose proof Hr as (Hne & Hs & Hu). unfold successor_of.
  destruct (lower_bound_spec k ring Hs) as [Hlo Hhi]. set (n := lower_bound k ring) in *.
  rewrite Forall_forall in Hlo, Hhi, Hu.
  assert (Hcase : ∀ q, q ∈ ring → q ∈ take n ring ∨ q ∈ drop n ring).
  { intros q. rewrite <- (take_drop n ring) at 1. apply elem_of_app. }
  destruct (ring !! n) as [p|] eqn:E.
  - exists p. split; [done|]. assert (Hp : p ∈ ring) by by eapply list_elem_of_lookup_2.
    split; [done|]. intros q Hq. pose proof (Hu p Hp). pose proof (Hu q Hq).
    assert (k <= peer_id p)%Z.
    { apply Hhi. apply list_elem_of_lookup_2 with 0. by rewrite lookup_drop, Nat.add_0_r. }
    destruct (Hcase q Hq) as [Hq'|Hq'].
    + specialize (Hlo q Hq'). circle_lia.
    + apply list_elem_of_lookup in Hq' as [j Hj]. rewrite lookup_drop in Hj.
      assert (peer_id p <= peer_id q)%Z; [|circle_lia].
      destruct (decide (j = 0)) as [->|]; [rewrite Nat.add_0_r in Hj; simplify_eq; lia|].
      assert (peer_id p < peer_id q)%Z; [|lia]. eapply sorted_lookup_lt; [done..|lia].
  - apply lookup_ge_None_1 in E. destruct ring as [|p l]; [done|]. exists p. split; [done|].
    split; [by constructor|]. intros q Hq. pose proof (Hu p ltac:(by constructor)). pose proof (Hu q Hq).
    rewrite take_ge in Hlo by done. pose proof (Hlo q Hq). pose proof (Hlo p ltac:(by constructor)).
    assert (peer_id p <= peer_id q)%Z; [|circle_lia].
    apply elem_of_cons in Hq as [->|Hq]; [lia|]. apply StronglySorted_inv in Hs as [_ Hs].
    rewrite Forall_forall in Hs. specialize (Hs q Hq). lia.
Qed.

(** [predecessor_of] is the member just before, going clockwise. *)
Lemma predecessor_of_precedes ring k :
  ring_ok ring → is_u64 k → ∃ p, predecessor_of k ring = Some p ∧ precedes ring k p.
Proof.
  intros Hr Hk. pose proof Hr as (Hne & Hs & Hu). unfold predecessor_of.
  destruct (lower_bound_spec k ring Hs) as [Hlo Hhi]. pose proof (lower_bound_le k ring) as Hle.
  rewrite Forall_forall in Hlo, Hhi, Hu. destruct (lower_bound k ring) as [|n].
  - rewrite drop_0 in Hhi. destruct (last ring) as [p|] eqn:E; [|by apply last_None in E].
    exists p. split; [done|]. assert (Hp : p ∈ ring) by by apply last_Some_elem_of.
    split; [done|]. intros q Hq. pose proof (Hu p Hp). pose proof (Hu q Hq).
    pose proof (Hhi p Hp). pose proof (Hhi q Hq).
    assert (peer_id q <= peer_id p)%Z; [|circle_lia].
    rewrite last_lookup in E. apply list_elem_of_lookup in Hq as [j Hj].
    pose proof (lookup_lt_Some _ _ _ Hj). destruct (decide (j = Nat.pred (length ring))) as [->|].
    + simplify_eq. lia.
    + assert (peer_id q < peer_id p)%Z; [|lia]. eapply sorted_lookup_lt; [done..|lia].
  - destruct (lookup_lt_is_Some_2 ring n) as [p E]; [lia|]. exists p. split; [done|].
    assert (Hp : p ∈ ring) by by eapply list_elem_of_lookup_2. split; [done|].
    intros q Hq. pose proof (Hu p Hp). pose proof (Hu q Hq).
    assert (peer_id p < k)%Z.
    { apply Hlo. apply list_elem_of_lookup_2 with n. by rewrite lookup_take_lt by lia. }
    apply list_elem_of_lookup in Hq as [j Hj]. destruct (decide (j <= n)) as [|Hj'].
    + assert (peer_id q <= peer_id p)%Z; [|circle_lia].
      destruct (decide (j = n)) as [->|]; [simplify_eq; lia|].
      assert (peer_id q < peer_id p)%Z; [|lia]. eapply sorted_lookup_lt; [done..|lia].
    + assert (k <= peer_id q)%Z; [|circle_lia]. apply Hhi.
      apply list_elem_of_lookup_2 with (j - S n). rewrite lookup_drop. by replace (S n + (j - S n)) with j by lia.
Qed.

(** ** Rings come from [validate_ring] *)

#[export] Instance by_id_trans : Transitive by_id.
Proof. intros x y z. unfold by_id. lia. Qed.
#[export] Instance by_id_total : Total by_id.
Proof. intros x y. unfold by_id. lia. Qed.

Lemma adjacent_clash_None l :
  StronglySorted by_id l → adjacent_clash l = None →
  StronglySorted (λ a b, (peer_id a < peer_id b)%Z) l.
Proof.
  induction 1 as [|x l Hl IH Hx]; intros Hc; [constructor|]. destruct l as [|y l].
  { by repeat constructor. }
  simpl in Hc. destruct (Z.eqb_spec (peer_id x) (peer_id y)) as [|Hne]; [done|].
  specialize (IH Hc). constructor; [done|]. apply Forall_cons in Hx as [Hxy Hx]. unfold by_id in *.
  constructor; [lia|]. apply StronglySorted_inv in IH as [_ IH]. eapply Forall_impl; [exact IH|].
  simpl. lia.
Qed.

Lemma adjacent_clash_Some l a b :
  adjacent_clash l = Some (a, b) →
  peer_id a = peer_id b ∧ ∃ i, l !! i = Some a ∧ l !! S i = Some b.
Proof.
  revert a b. induction l as [|x l IH]; intros a b; [done|]. destruct l as [|y l]; [done|].
  simpl. destruct (Z.eqb_spec (peer_id x) (peer_id y)).
  - intros [= <- <-]. split; [done|]. by exists 0.
  - intros H. apply IH in H as [E (i & Hi & Hj)]. split; [done|]. by exists (S i).
Qed.

Lemma validate_ring_inr ms r :
  Forall (λ p, is_u64 (peer_id p)) ms → validate_ring ms = inr r → ring_ok r ∧ r ≡ₚ ms.
Proof.
  intros Hu H. unfold validate_ring in H. case_bool_decide as Hne; [done|].
  destruct (adjacent_clash _) as [[a b]|] eqn:Hc; [done|]. injection H as <-.
  pose proof (merge_sort_Permutation by_id ms) as Hp. split; [|done]. split_and!.
  - intros E. rewrite E in Hp. by apply Permutation_nil_l in Hp.
  - apply adjacent_clash_None; [apply StronglySorted_merge_sort; apply _|done].
  - by rewrite Hp.
Qed.

Lemma validate_ring_inl ms err :
  validate_ring ms = inl err → ms = [] ∨ ¬ NoDup (peer_id <$> ms).
Proof.
  unfold validate_ring. case_bool_decide as Hne; [by left|]. right.
  destruct (adjacent_clash _) as [[a b]|] eqn:Hc; [|done].
  apply adjacent_clash_Some in Hc as [E (i & Hi & Hj)]. intros Hnd.
  rewrite <- (merge_sort_Permutation by_id ms) in Hnd.
  assert (i = S i); [|lia]. apply (NoDup_lookup _ _ _ (peer_id a) Hnd).
  - rewrite list_lookup_fmap, Hi. done.
  - rewrite list_lookup_fmap, Hj. simpl. by rewrite E.
Qed.

Lemma ring_ids_nodup r : ring_ok r → NoDup (peer_id <$> r).
Proof.
  intros (_ & Hs & _). induction Hs as [|x l Hl IH Hx]; simpl; [constructor|].
  constructor; [|done]. intros Hin. apply list_elem_of_fmap in Hin as (y & E & Hy).
  rewrite Forall_forall in Hx. specialize (Hx y Hy). lia.
Qed.

(** ** Identifiers as text *)

Lemma hex_step_u64 v c v' : is_u64 v → hex_step (Some v) c = Some v' → is_u64 v'.
Proof.
  unfold hex_step. simpl. intros Hv H. destruct (hex_nibble c) as [d|] eqn:E; simplify_eq/=.
  apply hex_nibble_bound in E. pose proof (wrap64_is_u64 (Z.shiftl v 4)) as Hw.
  set (x := wrap64 (Z.shiftl v 4)) in *. split.
  - apply Z.lor_nonneg. unfold is_u64 in *. lia.
  - destruct (decide (Z.lor x d = 0)%Z) as [->|Hne]; [done|]. unfold is_u64 in Hw.
    assert (0 <= Z.lor x d)%Z by (apply Z.lor_nonneg; lia).
    apply Z.log2_lt_pow2; [lia|]. rewrite Z.log2_lor by lia.
    assert (Hb : ∀ y, (0 <= y < W64)%Z → (Z.log2 y < 64)%Z).
    { intros y Hy. destruct (decide (y = 0)%Z) as [->|]; [done|]. apply Z.log2_lt_pow2; [lia|]. apply Hy. }
    apply Z.max_lub_lt; apply Hb; [done|]. w64. lia.
Qed.

Lemma hex_fold_u64 s v id : is_u64 v → foldl hex_step (Some v) s = Some id → is_u64 id.
Proof.
  revert v. induction s as [|c s IH]; intros v Hv; [by intros [= <-]|]. cbn [foldl].
  destruct (hex_step (Some v) c) as [v'|] eqn:E; [intros H; by eapply IH, H; eapply hex_step_u64|].
  clear. induction s as [|x s IHs]; [done|apply IHs].
Qed.

Lemma id_from_key_go_u64 i v s id : is_u64 v → id_from_key_go i v s = Some id → is_u64 id.
Proof.
  revert i v. induction s as [|c s IH]; intros i v Hv; simpl; [by intros [= <-]|].
  destruct (hex_nibble c) as [d|] eqn:E; simpl; [|done]. apply IH. case_match; [|done].
  apply (hex_step_u64 v c); [done|]. unfold hex_step. simpl. by rewrite E.
Qed.

Lemma id_from_key_u64 key id : id_from_key key = Some id → is_u64 id.
Proof. unfold id_from_key. case_match; [done|]. apply id_from_key_go_u64. done. Qed.

Lemma id_from_hex_u64 s id : id_from_hex s = Some id → is_u64 id.
Proof. unfold id_from_hex. case_match; [done|]. apply hex_fold_u64. done. Qed.

Lemma id_from_hex_to_hex id : is_u64 id → id_from_hex (id_to_hex id) = Some id.
Proof.
  intros Hid. unfold id_from_hex, id_to_hex. rewrite length_hex_go. simpl negb.
  apply hex_go_val; [lia|]. exact Hid.
Qed.

Lemma id_to_hex_no_space id : SPACE ∉ id_to_hex id.
Proof.
  intros Hin. pose proof (hex_go_lower 16 id) as H. rewrite Forall_forall in H.
  by apply (is_lower_hex_not_space _ (H _ Hin)).
Qed.

Lemma is_lower_hex_nibble c : is_lower_hex c = true → is_Some (hex_nibble c).
Proof.
  unfold is_lower_hex, is_digit, hex_nibble. intros H. split_ifs; eauto.
  apply orb_true_iff in H as [|]; congruence.
Qed.

Lemma id_from_key_go_total i v s :
  Forall (λ c, is_lower_hex c = true) s → is_Some (id_from_key_go i v s).
Proof.
  intros H. revert i v. induction H as [|c s Hc Hs IH]; intros i v; simpl; [by eexists|].
  destruct (is_lower_hex_nibble c Hc) as [d ->]. apply IH.
Qed.

(** A key that routes is read by its first sixteen digits alone. *)
Lemma id_from_key_go_tail i v s : 16 ≤ i → Forall (λ c, is_lower_hex c = true) s → id_from_key_go i v s = Some v.
Proof.
  intros Hi H. revert i v Hi. induction H as [|c s Hc Hs IH]; intros i v Hi; simpl; [done|].
  destruct (is_lower_hex_nibble c Hc) as [d ->]. simpl.
  destruct (Nat.ltb_spec i 16); [lia|]. apply IH. lia.
Qed.

Lemma id_from_key_go_app i v s1 s2 :
  i + length s1 = 16 → Forall (λ c, is_lower_hex c = true) s2 →
  id_from_key_go i v (s1 ++ s2) = foldl hex_step (Some v) s1.
Proof.
  intros Hi Hs2. revert i v Hi. induction s1 as [|c s1 IH]; intros i v Hi; simpl in *.
  - by apply id_from_key_go_tail; [lia|].
  - destruct (Nat.ltb_spec i 16); [|lia]. destruct (hex_nibble c) as [d|]; simpl.
    + apply IH. lia.
    + clear. induction s1 as [|x s IHs]; [done|apply IHs].
Qed.

Section address_ids.
Context `{HOk : !Sha1Ok H}.

Lemma id_from_key_sha1 s : ∃ id, id_from_key (sha1 s) = Some id ∧ is_u64 id.
Proof.
  destruct (id_from_key_go_total 0 0 (sha1 s) (sha1_lower_hex s)) as [id E].
  exists id. unfold id_from_key. rewrite sha1_length. simpl negb. split; [done|].
  by eapply id_from_key_go_u64.
Qed.
End address_ids.

Lemma parse_member_u64 `{Sha1, Inet} e p : parse_member e = Some p → is_u64 (peer_id p).
Proof.
  unfold parse_member. case_bool_decide; [done|]. destruct (find_char _ _); [|done].
  case_bool_decide; [done|]. destruct (parse_port _); [|done]. simpl.
  destruct (inet_canonical _); [|done]. simpl. destruct (id_of_address _ _) eqn:E; [|done].
  simpl. intros [= <-]. by eapply id_from_key_u64.
Qed.

Lemma parse_member_lines_u64 `{Sha1, Inet} n ls acc ms :
  Forall (λ p, is_u64 (peer_id p)) acc → parse_member_lines n ls acc = inr ms →
  Forall (λ p, is_u64 (peer_id p)) ms.
Proof.
  revert n acc. induction ls as [|l ls IH]; intros n acc Ha Hp; simpl in Hp; [by injection Hp as <-|].
  case_match; [by eapply IH|]. destruct (parse_member _) as [p|] eqn:E; [|done].
  eapply IH, Hp. apply Forall_app. split; [done|]. by repeat constructor; eapply parse_member_u64.
Qed.

(** A digest to evaluate on: any forty lowercase hexadecimal characters will do. *)
Definition demo_sha1 : Sha1 := λ s, hex_go 40 (foldl (λ a c, (a * 31 + Z.of_N (code c)) mod 2 ^ 61)%Z 7%Z s).
Lemma demo_sha1_ok : Sha1Ok demo_sha1.
Proof. split; [intros s; apply length_hex_go|intros s; apply hex_go_lower]. Qed.
