(* ===== verification/Sha1.v ===== *)
(** * Sha1: digests as text (sha1.h)

    OpenSSL's [SHA1] is code outside the repository: the class [RawSha1], twenty
    bytes for any input. What sha1.h adds is modelled: [to_hex] and the two entry
    points. They give the class [Chord.Sha1] the other files are written against,
    with its laws, and the identifier of a text is shown to be the first eight
    bytes of its digest, read as one big-endian number. *)
From S2P Require Import Prelude Text Chord.

Class RawSha1 := raw_sha1 : bytes → bytes.
Class RawSha1Ok (R : RawSha1) : Prop := raw_sha1_length : ∀ s, length (raw_sha1 s) = 20.

Definition SHA_DIGEST_LENGTH : nat := 20.

(** [oss << std::setw(2) << static_cast<int>(hash[i])] for [i < len]. *)
Definition hex_byte (c : Ascii.ascii) : bytes := hex_go 2 (Z.of_N (code c)).
Definition to_hex (hash : bytes) (len : nat) : bytes := concat (hex_byte <$> take len hash).

Definition sha1_text `{RawSha1} (input : bytes) : bytes := to_hex (raw_sha1 input) SHA_DIGEST_LENGTH.

(** Of a buffer, the first [len] bytes. *)
Definition sha1_bytes `{RawSha1} (data : bytes) (len : nat) : bytes := to_hex (raw_sha1 (take len data)) SHA_DIGEST_LENGTH.

#[export] Instance sha1_of_raw `{RawSha1} : Sha1 := sha1_text.

(** ** Rendering *)

(** A byte string read as one big-endian number. *)
Definition big_endian (s : bytes) : Z := foldl (λ v c, v * 256 + Z.of_N (code c))%Z 0%Z s.

Lemma code_bound c : (0 <= Z.of_N (code c) < 256)%Z.
Proof. pose proof (Ascii.N_ascii_bounded c). unfold code. lia. Qed.

Lemma big_endian_snoc s c : big_endian (s ++ [c]) = (big_endian s * 256 + Z.of_N (code c))%Z.
Proof. unfold big_endian. by rewrite foldl_app. Qed.

Lemma big_endian_bound s : (0 <= big_endian s < 256 ^ Z.of_nat (length s))%Z.
Proof.
  induction s as [|c s IH] using rev_ind; [cbn; lia|].
  rewrite big_endian_snoc, length_app, Nat.add_1_r, Nat2Z.inj_succ, Z.pow_succ_r by lia.
  pose proof (code_bound c). lia.
Qed.

Lemma hex_go_byte k v b : (0 <= b < 256)%Z → hex_go (S (S k)) (v * 256 + b) = hex_go k v ++ hex_go 2 b.
Proof.
  intros Hb. cbn [hex_go]. rewrite <- !app_assoc. cbn [app].
  replace ((v * 256 + b) / 16)%Z with (v * 16 + b / 16)%Z.
  2:{ replace (v * 256 + b)%Z with ((v * 16) * 16 + b)%Z by lia. by rewrite Z.div_add_l by lia. }
  assert (0 <= b / 16 < 16)%Z as Hq by (split; [apply Z.div_pos|apply Z.div_lt_upper_bound]; lia).
  replace ((v * 16 + b / 16) / 16)%Z with v by (rewrite Z.div_add_l, (Z.div_small (b / 16)) by lia; lia).
  replace ((v * 16 + b / 16) mod 16)%Z with (b / 16 mod 16)%Z by (by rewrite Z.add_comm, Z_mod_plus_full).
  replace ((v * 256 + b) mod 16)%Z with (b mod 16)%Z; [done|].
  replace (v * 256 + b)%Z with (b + (v * 16) * 16)%Z by lia. by rewrite Z_mod_plus_full.
Qed.

(** The text of a digest is the digest's number in base sixteen. *)
Lemma hex_bytes_number s : concat (hex_byte <$> s) = hex_go (2 * length s) (big_endian s).
Proof.
  induction s as [|c s IH] using rev_ind; [done|].
  rewrite fmap_app, concat_app, IH, big_endian_snoc, length_app, Nat.add_1_r.
  replace (2 * S (length s)) with (S (S (2 * length s))) by lia.
  rewrite hex_go_byte by apply code_bound. cbn [fmap list_fmap concat]. by rewrite app_nil_r.
Qed.

Lemma length_to_hex s n : length (to_hex s n) = 2 * (n `min` length s).
Proof. unfold to_hex. by rewrite hex_bytes_number, length_hex_go, length_take. Qed.

Lemma to_hex_lower s n : Forall (λ c, is_lower_hex c = true) (to_hex s n).
Proof. unfold to_hex. rewrite hex_bytes_number. apply hex_go_lower. Qed.

Lemma hex_byte_inj c d : hex_byte c = hex_byte d → c = d.
Proof.
  intros E. pose proof (code_bound c) as Hc. pose proof (code_bound d) as Hd.
  assert (Some (Z.of_N (code c)) = Some (Z.of_N (code d))) as [= E'].
  { rewrite <- (hex_go_val 2 _ ltac:(lia) Hc), <- (hex_go_val 2 _ ltac:(lia) Hd). unfold hex_byte in E. by rewrite E. }
  unfold code in E'. rewrite <- (Ascii.ascii_N_embedding c), <- (Ascii.ascii_N_embedding d). f_equal. lia.
Qed.

Lemma hex_bytes_inj s t : concat (hex_byte <$> s) = concat (hex_byte <$> t) → s = t.
Proof.
  revert t. induction s as [|c s IH]; intros [|d t] E; try done.
  cbn [fmap list_fmap concat] in E. apply app_inj_1 in E as [Ec Es]; [|by unfold hex_byte; rewrite !length_hex_go].
  f_equal; [by apply hex_byte_inj|by apply IH].
Qed.

(** ** What the rest of the program relies on *)

Section digest.
Context `{ROk : !RawSha1Ok R}.

#[export] Instance sha1_of_raw_ok : Sha1Ok sha1_of_raw.
Proof.
  split; intros s; unfold sha1, sha1_of_raw, sha1_text; [|apply to_hex_lower].
  by rewrite length_to_hex, raw_sha1_length.
Qed.

Lemma sha1_bytes_whole data : sha1_bytes data (length data) = sha1 data.
Proof. unfold sha1_bytes. by rewrite take_ge. Qed.

(** Rendering loses nothing: two contents get one key exactly if OpenSSL gives
    them one digest. *)
Theorem keys_collide_with_digests a b : sha1 a = sha1 b ↔ raw_sha1 a = raw_sha1 b.
Proof.
  unfold sha1, sha1_of_raw, sha1_text, to_hex. rewrite !take_ge by (rewrite raw_sha1_length; done).
  split; [apply hex_bytes_inj|by intros ->].
Qed.

(** C33. An identifier on the circle is the first eight bytes of the digest as one
    big-endian number: the key's other twenty-four digits do not move it. *)
Theorem identifier_is_digest_prefix s : id_from_key (sha1 s) = Some (big_endian (take 8 (raw_sha1 s))).
Proof.
  unfold id_from_key. rewrite sha1_length. cbn [Nat.eqb negb].
  unfold sha1, sha1_of_raw, sha1_text, to_hex. rewrite take_ge by (rewrite raw_sha1_length; done).
  rewrite <- (take_drop 8 (raw_sha1 s)) at 1. rewrite fmap_app, concat_app, !hex_bytes_number.
  assert (length (take 8 (raw_sha1 s)) = 8) as E8 by (by rewrite length_take, raw_sha1_length).
  rewrite id_from_key_go_app by (apply hex_go_lower || by rewrite length_hex_go, E8).
  apply hex_go_val; [lia|]. rewrite E8. pose proof (big_endian_bound (take 8 (raw_sha1 s))) as B. by rewrite E8 in B.
Qed.
End digest.

(** A digest function to evaluate on: the text, padded to twenty bytes. *)
Definition padded_raw : RawSha1 := λ s, take 20 (s ++ replicate 20 (chr 255)).
Lemma padded_raw_ok : RawSha1Ok padded_raw.
Proof. intros s. unfold raw_sha1, padded_raw. rewrite length_take, length_app, length_replicate. lia. Qed.

Lemma identifier_is_digest_prefix_witness :
  id_from_key (@sha1 (@sha1_of_raw padded_raw) (lit "chord")) = Some (big_endian (take 8 (@raw_sha1 padded_raw (lit "chord")))).
Proof. apply (@identifier_is_digest_prefix padded_raw padded_raw_ok). Defined.

(** The digest of the empty text, as OpenSSL computes it. *)
Example sha1_of_nothing :
  to_hex (chr <$> [218; 57; 163; 238; 94; 107; 75; 13; 50; 85; 191; 239; 149; 96; 24; 144; 175; 216; 7; 9]%N) 20
  = lit "da39a3ee5e6b4b0d3255bfef95601890afd80709".
Proof. vm_compute. reflexivity. Qed.
