(* ===== verification/Lookup.v ===== *)
(** * Lookup: the originator's loop and the routing wire words (lookup.h, lookup.cpp)

    The iterative lookup asks one node after another, checks every reply before
    believing it, and stops at an owner, an error or the request cap. The
    transport is a state-passing function: what a call does to the rest of the
    system is the change of its state. *)
From stdpp Require Import sorting.
From S2P Require Import Prelude Text Net Chord.

(** A transport: send a request to a member, get what happened and its reply. *)
Definition Transport (St : Type) : Type := Peer → bytes → St → (Delivery * bytes) * St.

Inductive LookupError :=
  | LNone | LRefused | LTimeout | LClosed | LUnreachable | LErrReply | LMalformed
  | LNoProgress | LTooManyRequests.
#[export] Instance LookupError_eq_dec : EqDecision LookupError.
Proof. solve_decision. Defined.

Definition lookup_error_name (e : LookupError) : bytes :=
  match e with
  | LNone => lit "none" | LRefused => lit "refused" | LTimeout => lit "timeout"
  | LClosed => lit "closed" | LUnreachable => lit "unreachable" | LErrReply => lit "err-reply"
  | LMalformed => lit "malformed" | LNoProgress => lit "no-progress"
  | LTooManyRequests => lit "too-many-requests"
  end.

Definition MAX_REQUESTS : nat := 65.

Record LookupResult := mkLookupResult {
  error : LookupError;
  message : bytes;
  found : Peer;                 (* the source's [owner]: valid only when there is no error *)
  path : list Peer;             (* every node asked, in order *)
  attempts : nat;
}.
Definition result_ok (r : LookupResult) : bool := bool_decide (error r = LNone).
Definition requests (r : LookupResult) : nat := length (path r).
Definition hops (r : LookupResult) : nat := length (path r) - 1.

(** ** Texts in error messages *)

Definition describe (p : Peer) : bytes := address p ++ lit " (id " ++ id_to_hex (peer_id p) ++ lit ")".

Definition QUOTE : Ascii.ascii := chr 34.
Definition printable (c : Ascii.ascii) : Ascii.ascii :=
  if (32 <=? code c)%N && (code c <? 127)%N then c else chr 63.
Definition shown (reply : bytes) : bytes :=
  [QUOTE] ++ (printable <$> take 80 reply) ++ (if 80 <? length reply then lit "..." else []) ++ [QUOTE].

Definition error_of (d : Delivery) : LookupError :=
  match d with
  | Refused => LRefused | Timeout => LTimeout | Closed => LClosed | _ => LUnreachable
  end.

Definition transport_message (d : Delivery) (node : Peer) : bytes :=
  match d with
  | Refused => lit "connection to " ++ describe node ++ lit " refused: nothing is listening"
  | Timeout => describe node ++ lit " did not answer in time"
  | Closed => describe node ++ lit " closed the connection before replying"
  | _ => lit "could not exchange a message with " ++ describe node
  end.

(** ** Peers as wire words *)

Definition peer_words (p : Peer) : bytes :=
  id_to_hex (peer_id p) ++ lit " " ++ peer_ip p ++ lit " " ++ to_string (peer_port p).

Definition parse_reply_port (s : bytes) : option Z :=
  if bool_decide (s = []) || (5 <? length s) || bool_decide (head s = Some (digit_char 0)) then None
  else v ← digits_val s; if (65535 <? v)%N then None else Some (Z.of_N v).

Definition parse_reply_ip `{Inet} (s : bytes) : option bytes :=
  c ← inet_canonical (c_str s); if bool_decide (s = c) then Some c else None.

(** [inl] says why. *)
Definition parse_peer_words `{Inet} (id ip port : bytes) : bytes + Peer :=
  match id_from_hex id with
  | None => inl (lit "identifier is not 16 hexadecimal characters")
  | Some i =>
      match parse_reply_ip ip with
      | None => inl (lit "address is not a canonical IPv4 dotted quad")
      | Some a =>
          match parse_reply_port port with
          | None => inl (lit "port is not a number in 1..65535")
          | Some p => inr (mkPeer i a p)
          end
      end
  end.

Definition parse_reply `{Inet} (line : bytes) : bytes + (bool * Peer) :=
  match split_single_spaces line with
  | [w0; w1; w2; w3] =>
      if negb (bool_decide (w0 = "OWNER")) && negb (bool_decide (w0 = "NEXT"))
      then inl (lit "first word is neither OWNER nor NEXT")
      else match parse_peer_words w1 w2 w3 with
           | inl why => inl why
           | inr parsed => inr (bool_decide (w0 = "OWNER"), parsed)
           end
  | words => inl (lit "expected 4 words separated by single spaces, got " ++ dec (N.of_nat (length words)))
  end.

(** ** Addressing a member *)

Definition addressed (to : Peer) (request : bytes) : bytes :=
  lit "TO " ++ id_to_hex (peer_id to) ++ lit " " ++ request.

Inductive Target := TNone (rest : bytes) | TMember (id : Id) (rest : bytes) | TMalformed.

Definition split_target (line : bytes) : Target :=
  if negb (starts_with "TO " line) then TNone line
  else if (length line <? 21) || negb (bool_decide (line !! 19 = Some SPACE)) then TMalformed
  else match id_from_hex (substr 3 16 line) with
       | None => TMalformed
       | Some id => TMember id (drop 20 line)
       end.

(** ** The loop *)

Definition fail (pth : list Peer) (e : LookupError) (m : bytes) : LookupResult :=
  mkLookupResult e m (mkPeer 0 [] 0) pth 1.

Section loop.
Context `{Inet} {St : Type} (transport : Transport St).

(** [n] requests left before the cap. *)
Fixpoint lookup_loop (n : nat) (k : Id) (current : Peer) (pth : list Peer) (σ : St) : LookupResult * St :=
  match n with
  | 0 =>
      (fail pth LTooManyRequests
         (lit "no owner after " ++ dec (N.of_nat MAX_REQUESTS)
          ++ lit " requests; the last NEXT came from " ++ from_option describe [] (last pth)), σ)
  | S n' =>
      let pth := pth ++ [current] in
      let '((d, reply), σ) := transport current (lit "FIND_SUCCESSOR " ++ id_to_hex k) σ in
      if negb (bool_decide (d = Ok)) then (fail pth (error_of d) (transport_message d current), σ)
      else if bool_decide (reply = "ERR") || starts_with "ERR " reply
      then (fail pth LErrReply (describe current ++ lit " answered " ++ shown reply), σ)
      else match parse_reply reply with
      | inl why =>
          (fail pth LMalformed (describe current ++ lit " sent a malformed reply (" ++ why ++ lit "): "
                                ++ shown reply), σ)
      | inr (is_owner, named) =>
          if is_owner then
            if negb (in_range_oc k (peer_id current) (peer_id named))
            then (fail pth LNoProgress
                    (describe current ++ lit " named " ++ describe named
                     ++ lit " as owner, but the key is not in (" ++ id_to_hex (peer_id current) ++ lit ", "
                     ++ id_to_hex (peer_id named) ++ lit "]"), σ)
            else (mkLookupResult LNone [] named pth 1, σ)
          else if negb (in_range_oo (peer_id named) (peer_id current) k)
          then (fail pth LNoProgress
                  (describe current ++ lit " sent the lookup to " ++ describe named
                   ++ lit ", which is not strictly inside (" ++ id_to_hex (peer_id current) ++ lit ", "
                   ++ id_to_hex k ++ lit ")"), σ)
          else lookup_loop n' k named pth σ
      end
  end.

Definition lookup (start : Peer) (k : Id) (σ : St) : LookupResult * St :=
  lookup_loop MAX_REQUESTS k start [] σ.

Definition worth_reporting (e : LookupError) : bool :=
  bool_decide (e = LRefused) || bool_decide (e = LTimeout) || bool_decide (e = LClosed).

(** [retries] more attempts, each after reporting the node that failed to the
    node that named it. *)
Fixpoint recovery_loop (retries : nat) (start : Peer) (k : Id) (r : LookupResult) (σ : St)
  : LookupResult * St :=
  match retries with
  | 0 => (r, σ)
  | S n =>
      if result_ok r then (r, σ)
      else if negb (worth_reporting (error r)) || (length (path r) <? 2) then (r, σ)
      else match path r !! (length (path r) - 1), path r !! (length (path r) - 2) with
      | Some dead, Some namer =>
          let '(_, σ) := transport namer
            (lit "SUSPECT " ++ peer_ip dead ++ lit " " ++ to_string (peer_port dead)) σ in
          let '(r', σ) := lookup start k σ in
          recovery_loop n start k
            (mkLookupResult (error r') (message r') (found r') (path r') (attempts r + 1)) σ
      | _, _ => (r, σ)
      end
  end.

Definition lookup_with_recovery (start : Peer) (k : Id) (retries : nat) (σ : St) : LookupResult * St :=
  let '(r, σ) := lookup start k σ in recovery_loop retries start k r σ.
End loop.

(** ** Peers that travel *)

(** The peers a process can name: 64-bit identifier, canonical address, a port. *)
Definition peer_ok `{Inet} (p : Peer) : Prop :=
  is_u64 (peer_id p) ∧ inet_canonical (peer_ip p) = Some (peer_ip p) ∧ (1 <= peer_port p <= 65535)%Z.

Section wire.
Context {IN : Inet} {IOk : InetOk IN}.

Lemma quad_no (x : Ascii.ascii) ip :
  inet_canonical ip = Some ip → is_digit x = false → x ≠ DOT → x ∉ ip.
Proof.
  intros H Hd Hx Hin. apply inet_quad in H as [H _]. rewrite Forall_forall in H.
  destruct (H x Hin); congruence.
Qed.

Lemma c_str_quad ip : inet_canonical ip = Some ip → c_str ip = ip.
Proof.
  intros H. unfold c_str. destruct (find_char NUL ip) eqn:E; [|done]. exfalso.
  apply find_char_Some in E as [E _]. apply (quad_no NUL ip H); [done|done|].
  rewrite E. apply elem_of_app. right. constructor.
Qed.

Lemma to_string_nonneg z : (0 <= z)%Z → to_string z = dec (Z.to_N z).
Proof. intros Hz. unfold to_string. destruct (Z.ltb_spec z 0); [lia|done]. Qed.

Lemma parse_reply_port_to_string p :
  (1 <= p <= 65535)%Z → parse_reply_port (to_string p) = Some p.
Proof.
  intros Hp. rewrite to_string_nonneg by lia. set (n := Z.to_N p).
  assert (Hn : (1 <= n <= 65535)%N) by (unfold n; lia).
  assert (Hc : parse_canonical 5 (dec n) = Some n) by (apply parse_canonical_dec; [lia|simpl; lia|done]).
  unfold parse_reply_port. revert Hc. unfold parse_canonical. destruct (_ || _); [done|].
  assert (Hh : head (dec n) ≠ Some (digit_char 0)) by (apply dec_go_head; [lia|simpl; lia]).
  rewrite bool_decide_false by done. rewrite andb_false_r. simpl. intros ->. simpl.
  destruct (N.ltb_spec 65535 n); [lia|]. f_equal. unfold n. lia.
Qed.

Lemma parse_peer_words_ok p :
  peer_ok p →
  parse_peer_words (id_to_hex (peer_id p)) (peer_ip p) (to_string (peer_port p)) = inr p.
Proof.
  intros (Hid & Hip & Hport). unfold parse_peer_words, parse_reply_ip.
  rewrite id_from_hex_to_hex by done. rewrite c_str_quad by done. rewrite Hip. simpl.
  rewrite bool_decide_true by done. rewrite parse_reply_port_to_string by done. by destruct p.
Qed.

Lemma peer_words_join p :
  peer_words p = join SPACE [id_to_hex (peer_id p); peer_ip p; to_string (peer_port p)].
Proof. reflexivity. Qed.

Lemma peer_words_no_space p :
  peer_ok p → Forall (λ w, SPACE ∉ w) [id_to_hex (peer_id p); peer_ip p; to_string (peer_port p)].
Proof.
  intros (Hid & Hip & Hport). repeat constructor.
  - apply id_to_hex_no_space.
  - by apply quad_no.
  - rewrite to_string_nonneg by lia. apply dec_no_space.
Qed.

Lemma parse_reply_words (b : bool) p :
  peer_ok p → parse_reply ((if b then lit "OWNER " else lit "NEXT ") ++ peer_words p) = inr (b, p).
Proof.
  intros Hp. set (w := if b then lit "OWNER" else lit "NEXT").
  assert (E : (if b then lit "OWNER " else lit "NEXT ") ++ peer_words p
              = join SPACE (w :: [id_to_hex (peer_id p); peer_ip p; to_string (peer_port p)])).
  { rewrite peer_words_join. by destruct b. }
  unfold parse_reply, split_single_spaces. rewrite E, split_on_join; [|done|].
  - rewrite parse_peer_words_ok by done. by destruct b.
  - constructor; [|by apply peer_words_no_space].
    destruct b; apply (bool_decide_unpack _); vm_compute; exact I.
Qed.

(** The converse: only a well-formed peer is ever accepted. *)
Lemma parse_peer_words_inr id ip port p : parse_peer_words id ip port = inr p → peer_ok p.
Proof.
  unfold parse_peer_words. destruct (id_from_hex id) as [i|] eqn:Hi; [|done].
  unfold parse_reply_ip. destruct (inet_canonical _) as [c|] eqn:Hc; simpl; [|done].
  case_bool_decide as E; [|done]. destruct (parse_reply_port port) as [q|] eqn:Hq; [|done].
  intros [= <-]. split; [|split]; simpl.
  - by eapply id_from_hex_u64.
  - by eapply inet_idempotent.
  - unfold parse_reply_port in Hq. destruct (_ || _) eqn:Hb; [done|]. bool_to_prop.
    destruct (digits_val port) as [v|] eqn:Hv; simpl in Hq; [|done].
    split_ifs; simplify_eq. bool_to_prop. split; [|lia].
    destruct (decide (v = 0%N)) as [->|]; [|lia]. exfalso.
    apply (digits_val_canonical 20) in Hv; [|done|lia|done]. subst port.
    match goal with Hn : head _ ≠ Some _ |- _ => by apply Hn end.
Qed.

Lemma parse_reply_inr line b p : parse_reply line = inr (b, p) → peer_ok p.
Proof.
  unfold parse_reply. repeat (case_match; try done). intros [= <- <-].
  by eapply parse_peer_words_inr.
Qed.

Lemma split_target_addressed to request :
  is_u64 (peer_id to) → request ≠ [] → split_target (addressed to request) = TMember (peer_id to) request.
Proof.
  intros Hid Hr. unfold split_target, addressed. rewrite starts_with_app. cbv [negb].
  set (h := id_to_hex (peer_id to)). assert (Hh : length h = 16) by apply length_hex_go.
  assert (Hl : (length (lit "TO " ++ h ++ lit " " ++ request) <? 21) = false).
  { apply Nat.ltb_ge. rewrite !length_app, Hh. destruct request; [done|simpl; lia]. }
  assert (Hs : (lit "TO " ++ h ++ lit " " ++ request) !! 19 = Some SPACE).
  { rewrite lookup_app_r by (simpl; lia). rewrite lookup_app_r by (simpl; lia). by rewrite Hh. }
  assert (Ht : substr 3 16 (lit "TO " ++ h ++ lit " " ++ request) = h).
  { change (take 16 (h ++ lit " " ++ request) = h). by rewrite <- Hh, take_app_length. }
  assert (Hd : drop 20 (lit "TO " ++ h ++ lit " " ++ request) = request).
  { change (drop 17 (h ++ lit " " ++ request) = request). rewrite drop_app_ge by lia. by rewrite Hh. }
  rewrite Hl, Hs, Ht, Hd. unfold h. rewrite id_from_hex_to_hex by done. done.
Qed.
End wire.

(** ** What a lookup guarantees whatever the nodes answer *)

(** Each node asked is strictly nearer to [k], going clockwise, than the one before. *)
Definition closing_in (k : Id) (pth : list Peer) : Prop :=
  StronglySorted (λ a b, (gap (peer_id b) k < gap (peer_id a) k)%Z) pth.

Section lies.
Context {IN : Inet} {IOk : InetOk IN} {St : Type} (transport : Transport St).

Lemma lookup_loop_sound n k current pth σ :
  is_u64 k → is_u64 (peer_id current) → Forall (λ p, is_u64 (peer_id p)) pth →
  closing_in k pth → Forall (λ p, (gap (peer_id current) k < gap (peer_id p) k)%Z) pth →
  let r := (lookup_loop transport n k current pth σ).1 in
  closing_in k (path r) ∧ length (path r) ≤ length pth + n ∧ (∃ more, path r = pth ++ more) ∧
  (error r = LNone → ∃ c, last (path r) = Some c
     ∧ in_range_oc k (peer_id c) (peer_id (found r)) = true ∧ peer_ok (found r)).
Proof.
  intros Hk. revert current pth σ. induction n as [|n IH]; intros current pth σ Hc Hp Hs Hlt; simpl.
  { split_and!; [done|lia|exists []; by rewrite app_nil_r|done]. }
  assert (Hs' : closing_in k (pth ++ [current])).
  { apply StronglySorted_app_2; [|done|by repeat constructor].
    intros x y Hx Hy. apply list_elem_of_singleton in Hy as ->.
    rewrite Forall_forall in Hlt. by apply Hlt. }
  assert (Hfail : ∀ e m s, e ≠ LNone → let r := ((fail (pth ++ [current]) e m, s) : _ * St).1 in
    closing_in k (path r) ∧ length (path r) ≤ length pth + S n ∧ (∃ more, path r = pth ++ more) ∧
    (error r = LNone → ∃ c, last (path r) = Some c
       ∧ in_range_oc k (peer_id c) (peer_id (found r)) = true ∧ peer_ok (found r))).
  { intros e m s He. simpl. rewrite length_app. simpl. split_and!; [done|lia|by eexists|done]. }
  destruct (transport _ _ _) as [[d reply] σ']. case_bool_decide as Hd; simpl negb; cbv iota.
  2:{ apply Hfail. by destruct d. }
  destruct (_ || _); [by apply Hfail|].
  destruct (parse_reply reply) as [why|[is_owner named]] eqn:Hr; [by apply Hfail|].
  apply parse_reply_inr in Hr. destruct is_owner.
  - destruct (in_range_oc _ _ _) eqn:Ho; simpl negb; cbv iota; [|by apply Hfail].
    simpl. rewrite length_app. simpl. split_and!; [done|lia|by eexists|].
    intros _. exists current. by rewrite last_snoc.
  - destruct (in_range_oo _ _ _) eqn:Ho; simpl negb; cbv iota; [|by apply Hfail].
    destruct Hr as (Hu & Hr). apply in_range_oo_gap in Ho; [|done..].
    assert (Hg : (gap (peer_id named) k < gap (peer_id current) k)%Z).
    { pose proof (gap_inside _ _ _ Hc Hu Hk Ho). pose proof (gap_range _ _ Hc Hu). lia. }
    destruct (IH named (pth ++ [current]) σ') as (H1 & H2 & [more H3] & H4); [done| |done| |].
    + apply Forall_app. split; [done|]. by apply Forall_singleton.
    + apply Forall_app. split; [|by apply Forall_singleton].
      eapply Forall_impl; [exact Hlt|]. simpl. lia.
    + rewrite length_app in H2. simpl in H2.
      split_and!; [done|lia| |done]. exists ([current] ++ more). by rewrite H3, app_assoc.
Qed.
End lies.

Lemma closing_in_nodup k pth : closing_in k pth → NoDup (peer_id <$> pth).
Proof.
  induction 1 as [|x l Hl IH Hx]; simpl; [constructor|]. constructor; [|done].
  intros Hin. apply list_elem_of_fmap in Hin as (y & E & Hy). rewrite Forall_forall in Hx.
  specialize (Hx y Hy). rewrite E in Hx. lia.
Qed.

Lemma lookup_path_head {St} {IN : Inet} (tr : Transport St) start k σ :
  head (path (lookup tr start k σ).1) = Some start.
Proof.
  unfold lookup, MAX_REQUESTS. generalize 64. intros n. cbn [lookup_loop].
  destruct (tr _ _ _) as [[d reply] σ']. case_match; [done|]. case_match; [done|].
  destruct (parse_reply reply) as [why|[[] named]]; [done|by case_match|]. case_match; [done|].
  assert (Hpre : ∀ n c pth s, head pth = Some start → head (path (lookup_loop tr n k c pth s).1) = Some start).
  { clear. intros n. induction n as [|n IH]; intros c pth s Hp; simpl; [done|].
    assert (Hp' : head (pth ++ [c]) = Some start) by by destruct pth.
    destruct (tr _ _ _) as [[d reply] σ']. case_match; [done|]. case_match; [done|].
    destruct (parse_reply reply) as [why|[[] named]]; [done|by case_match|]. case_match; [done|]. by apply IH. }
  by apply Hpre.
Qed.
