(* ===== verification/Routing.v ===== *)
(** * Routing: lookups on a correct ring

    On a ring whose members hold the routing state [build_fingers] computes,
    every NEXT more than halves the clockwise distance to the member that will
    answer OWNER, so a lookup from any member reaches the true owner within
    [MAX_REQUESTS] requests. *)
From stdpp Require Import sorting.
From S2P Require Import Prelude Text Net Chord Lookup.

(** ** The answers of a correct ring *)

(** stabilize.cpp, [handle_request]: the reply line of FIND_SUCCESSOR. *)
Definition render_step (step : RouteStep) : bytes :=
  (if owner step then lit "OWNER " else lit "NEXT ") ++ peer_words (step_peer step).

(** What member [m] of the fixed ring answers for [k]. *)
Definition ring_answer (ring : list Peer) (m : Peer) (k : Id) : option bytes :=
  s ← successor_of (finger_start (peer_id m) 0) ring;
  fs ← build_fingers (peer_id m) ring;
  Some (render_step (route_step m s fs k)).

(** A transport over which every member answers so, whatever else it does. *)
Definition answers_for {St} (ring : list Peer) (tr : Transport St) : Prop :=
  ∀ m k σ, m ∈ ring → is_u64 k →
    ∃ reply σ', ring_answer ring m k = Some reply
      ∧ tr m (lit "FIND_SUCCESSOR " ++ id_to_hex k) σ = ((Ok, reply), σ').

(** Such a ring, executable: a request to a non-member is refused. *)
Definition ring_transport (ring : list Peer) : Transport unit :=
  λ to request σ,
    if bool_decide (to ∈ ring) && starts_with "FIND_SUCCESSOR " request then
      match id_from_hex (drop 15 request) with
      | Some k => ((Ok, default [] (ring_answer ring to k)), σ)
      | None => ((Ok, lit "ERR identifier must be 16 hexadecimal characters"), σ)
      end
    else ((Refused, []), σ).

(** ** Distances on a ring *)

Section ring.
Context (ring : list Peer) (Hring : ring_ok ring).

Lemma first_finger_gap n s :
  n ∈ ring → successor_of (finger_start (peer_id n) 0) ring = Some s →
  s ∈ ring ∧ ∀ q, q ∈ ring → (gap (peer_id n) (peer_id s) <= gap (peer_id n) (peer_id q))%Z.
Proof.
  intros Hn E. pose proof (ring_u64 _ _ Hring Hn) as Un.
  pose proof (finger_start_u64 (peer_id n) 0) as Uf.
  pose proof (finger_start_gap (peer_id n) 0 Un ltac:(unfold ID_BITS; lia)) as Hg.
  destruct (successor_of_owns ring _ Hring Uf) as (p & E' & Hp & Hmin). simplify_eq.
  split; [done|]. intros q Hq. specialize (Hmin q Hq).
  pose proof (ring_u64 _ _ Hring Hp) as Up. pose proof (ring_u64 _ _ Hring Hq) as Uq.
  set (f := finger_start (peer_id n) 0) in *. simpl in Hg. circle_lia.
Qed.

(** The member just before [k] owns nothing of the arc up to [k]; its successor does. *)
Lemma owner_step n s k :
  n ∈ ring → is_u64 k → successor_of (finger_start (peer_id n) 0) ring = Some s →
  in_range_oc k (peer_id n) (peer_id s) = true → successor_of k ring = Some s.
Proof.
  intros Hn Hk E Hin. destruct (first_finger_gap n s Hn E) as [Hs Hmin].
  destruct (successor_of_owns ring k Hring Hk) as (p & E' & Hp). rewrite E'. f_equal.
  apply (owns_unique ring k); [done..|]. split; [done|]. intros q Hq. specialize (Hmin q Hq).
  pose proof (ring_u64 _ _ Hring Hn). pose proof (ring_u64 _ _ Hring Hs).
  pose proof (ring_u64 _ _ Hring Hq). apply in_range_oc_gap in Hin; [|done..]. circle_lia.
Qed.

Lemma finger_far n k f i :
  n ∈ ring → i < ID_BITS → successor_of (finger_start (peer_id n) i) ring = Some f →
  is_u64 k → (gap (peer_id n) (peer_id f) < gap (peer_id n) k)%Z →
  f ∈ ring ∧ (2 ^ Z.of_nat i <= gap (peer_id n) (peer_id f))%Z.
Proof.
  intros Hn Hi E Hk Hlt. pose proof (ring_u64 _ _ Hring Hn) as Un.
  pose proof (finger_start_u64 (peer_id n) i) as Uf.
  pose proof (finger_start_gap (peer_id n) i Un Hi) as Hg.
  destruct (successor_of_owns ring _ Hring Uf) as (p & E' & Hp & Hmin). simplify_eq.
  split; [done|]. specialize (Hmin n Hn). pose proof (ring_u64 _ _ Hring Hp) as Up.
  rewrite <- Hg. pose proof (gap_range _ _ Un Hk) as Hr.
  set (x := finger_start (peer_id n) i) in *. clear Hg. circle_lia.
Qed.

Lemma finger_near n p f i :
  n ∈ ring → p ∈ ring → i < ID_BITS → successor_of (finger_start (peer_id n) i) ring = Some f →
  (2 ^ Z.of_nat i <= gap (peer_id n) (peer_id p))%Z → peer_id p ≠ peer_id n →
  (gap (peer_id n) (peer_id f) <= gap (peer_id n) (peer_id p))%Z.
Proof.
  intros Hn Hp Hi E Hle Hne. pose proof (ring_u64 _ _ Hring Hn) as Un.
  pose proof (finger_start_u64 (peer_id n) i) as Uf.
  pose proof (finger_start_gap (peer_id n) i Un Hi) as Hg.
  destruct (successor_of_owns ring _ Hring Uf) as (f' & E' & Hf & Hmin). simplify_eq.
  specialize (Hmin p Hp). pose proof (ring_u64 _ _ Hring Hp) as Up.
  pose proof (ring_u64 _ _ Hring Hf) as Uf'. rewrite <- Hg in Hle.
  set (x := finger_start (peer_id n) i) in *. clear Hg. circle_lia.
Qed.

(** Where a node that does not own [k] stands: the member before [k] lies
    strictly between it and [k]. *)
Lemma target_inside n s p k :
  n ∈ ring → is_u64 k → successor_of (finger_start (peer_id n) 0) ring = Some s →
  in_range_oc k (peer_id n) (peer_id s) = false → precedes ring k p →
  (gap (peer_id n) (peer_id p) < gap (peer_id n) k)%Z ∧ peer_id p ≠ peer_id n.
Proof.
  intros Hn Hk E Hin [Hp Hmin]. destruct (first_finger_gap n s Hn E) as [Hs _].
  specialize (Hmin s Hs). pose proof (ring_u64 _ _ Hring Hn). pose proof (ring_u64 _ _ Hring Hs).
  pose proof (ring_u64 _ _ Hring Hp).
  assert (Hgt : (gap (peer_id n) (peer_id s) < gap (peer_id n) k)%Z).
  { apply Z.nle_gt. intros Hle. apply in_range_oc_gap in Hle; [|done..]. congruence. }
  clear E. split; [circle_lia|]. intros Epn. rewrite Epn in *. circle_lia.
Qed.

Lemma before_target n f p k :
  n ∈ ring → f ∈ ring → is_u64 k → precedes ring k p →
  (gap (peer_id n) (peer_id p) < gap (peer_id n) k)%Z →
  (gap (peer_id n) (peer_id f) < gap (peer_id n) k)%Z →
  (gap (peer_id n) (peer_id f) <= gap (peer_id n) (peer_id p))%Z.
Proof.
  intros Hn Hf Hk [Hp Hmin] H1 H2. specialize (Hmin f Hf). pose proof (ring_u64 _ _ Hring Hn).
  pose proof (ring_u64 _ _ Hring Hf). pose proof (ring_u64 _ _ Hring Hp). circle_lia.
Qed.

Lemma build_fingers_Some n : ∃ fs, build_fingers n ring = Some fs.
Proof.
  unfold build_fingers. generalize (seq 0 ID_BITS). intros l. induction l as [|i l [fs IH]]; [by exists []|].
  destruct (successor_of_owns ring (finger_start n i) Hring (finger_start_u64 n i)) as (f & E & _).
  exists (f :: fs). simpl. rewrite E. simpl. by rewrite IH.
Qed.

Lemma build_fingers_lookup n fs i f :
  build_fingers n ring = Some fs → fs !! i = Some f →
  i < ID_BITS ∧ successor_of (finger_start n i) ring = Some f.
Proof.
  intros E Hi. apply mapM_Some in E. destruct (Forall2_lookup_r _ _ _ _ _ E Hi) as (j & Hj & H).
  apply lookup_seq in Hj as [-> Hj]. done.
Qed.

Lemma length_build_fingers n fs : build_fingers n ring = Some fs → length fs = ID_BITS.
Proof. intros E. apply length_mapM in E. by rewrite length_seq in E. Qed.
End ring.

(** ** The scan from the last finger down *)

Lemma find_reverse_last {A} (p : A → bool) l i x :
  l !! i = Some x → p x = true → ∃ j y, i ≤ j ∧ l !! j = Some y ∧ p y = true ∧ List.find p (reverse l) = Some y.
Proof.
  revert i x. induction l as [|a l IH] using rev_ind; intros i x Hi Hp; [done|].
  rewrite reverse_app. simpl. destruct (p a) eqn:Ha.
  - exists (length l), a. apply lookup_lt_Some in Hi. rewrite length_app in Hi. simpl in Hi.
    split; [lia|]. by rewrite list_lookup_middle.
  - destruct (decide (i < length l)) as [Hlt|Hge].
    + rewrite lookup_app_l in Hi by done. destruct (IH i x Hi Hp) as (j & y & H1 & H2 & H3 & H4).
      exists j, y. split_and!; [done| |done|done]. apply lookup_lt_Some in H2 as H5. by rewrite lookup_app_l.
    + rewrite lookup_app_r in Hi by lia. apply list_lookup_singleton_Some in Hi as [_ <-]. congruence.
Qed.

(** A positive distance below 2^64 lies between two powers of two. *)
Lemma between_powers d m :
  (1 <= d < 2 ^ Z.of_nat m)%Z → ∃ i, i < m ∧ (2 ^ Z.of_nat i <= d < 2 ^ Z.of_nat (S i))%Z.
Proof.
  induction m as [|m IH]; intros Hd; [simpl in Hd; lia|].
  destruct (decide (2 ^ Z.of_nat m <= d)%Z); [exists m; split; [lia|split; [done|apply Hd]]|].
  destruct IH as (i & Hi & H); [lia|]. exists i. split; [lia|done].
Qed.

Section halving.
Context (ring : list Peer) (Hring : ring_ok ring).

(** One NEXT of a correct node: it stays before [k], and the distance left to
    the member before [k] falls below any power of two it was below twice of. *)
Lemma next_halves n s fs p k m :
  n ∈ ring → is_u64 k → successor_of (finger_start (peer_id n) 0) ring = Some s →
  build_fingers (peer_id n) ring = Some fs → precedes ring k p →
  in_range_oc k (peer_id n) (peer_id s) = false → (dist (peer_id n) (peer_id p) < 2 ^ Z.of_nat (S m))%Z →
  ∃ f, route_step n s fs k = mkRouteStep false f ∧ f ∈ ring
    ∧ in_range_oo (peer_id f) (peer_id n) k = true ∧ (dist (peer_id f) (peer_id p) < 2 ^ Z.of_nat m)%Z.
Proof.
  intros Hn Hk Hs Hfs Hpre Hno Hd. destruct (target_inside ring Hring n s p k Hn Hk Hs Hno Hpre) as [Hin Hne].
  pose proof Hpre as [Hp _]. pose proof (ring_u64 _ _ Hring Hn) as Un. pose proof (ring_u64 _ _ Hring Hp) as Up.
  assert (Hdg : dist (peer_id n) (peer_id p) = gap (peer_id n) (peer_id p)).
  { unfold gap. rewrite decide_False; [done|congruence]. }
  assert (Hb : (1 <= dist (peer_id n) (peer_id p) < 2 ^ Z.of_nat 64)%Z).
  { pose proof (gap_range _ _ Un Up). pose proof (wrap64_is_u64 (peer_id p - peer_id n)) as Hw.
    unfold dist, is_u64, W64 in *. split; [lia|]. apply Hw. }
  destruct (between_powers _ _ Hb) as (i & Hi & Hlo & Hhi).
  destruct (lookup_lt_is_Some_2 fs i) as [fi Hfi].
  { rewrite (length_build_fingers ring _ _ Hfs). unfold ID_BITS. lia. }
  destruct (build_fingers_lookup ring _ _ _ _ Hfs Hfi) as [_ Efi].
  pose proof (finger_near ring Hring n p fi i Hn Hp Hi Efi ltac:(lia) Hne) as Hnear.
  destruct (finger_far ring Hring n k fi i Hn Hi Efi Hk ltac:(lia)) as [Hfi_in _].
  assert (Hsel : in_range_oo (peer_id fi) (peer_id n) k = true).
  { apply in_range_oo_gap; [done|done|by eapply ring_u64|lia]. }
  destruct (find_reverse_last (λ f, in_range_oo (peer_id f) (peer_id n) k) fs i fi Hfi Hsel)
    as (j & f & Hij & Hfj & Hpf & Hfind).
  destruct (build_fingers_lookup ring _ _ _ _ Hfs Hfj) as [Hj Ef].
  assert (Hf : f ∈ ring).
  { destruct (successor_of_owns ring _ Hring (finger_start_u64 (peer_id n) j)) as (f' & E' & Hf' & _).
    by simplify_eq. }
  pose proof (ring_u64 _ _ Hring Hf) as Uf. pose proof Hpf as Hpf'. apply in_range_oo_gap in Hpf'; [|done..].
  destruct (finger_far ring Hring n k f j Hn Hj Ef Hk Hpf') as [_ Hfar].
  pose proof (before_target ring Hring n f p k Hn Hf Hk Hpre Hin Hpf') as Hbt.
  exists f. split_and!; [|done|done|].
  - unfold route_step, closest_preceding_finger. rewrite Hno, Hfind. simpl.
    destruct (Z.eqb_spec (peer_id f) (peer_id n)) as [E|]; [|by rewrite andb_false_r].
    rewrite E in Hpf'. circle_lia.
  - assert (Hpow : (2 ^ Z.of_nat i <= 2 ^ Z.of_nat j)%Z) by (apply Z.pow_le_mono_r; lia).
    assert (Hlt : (dist (peer_id f) (peer_id p) < 2 ^ Z.of_nat i)%Z).
    { rewrite Nat2Z.inj_succ, Z.pow_succ_r in Hhi by lia. rewrite Hdg in *.
      generalize dependent (2 ^ Z.of_nat i)%Z. generalize dependent (2 ^ Z.of_nat j)%Z. intros.
      clear Hdg Hd Hb. circle_lia. }
    assert (Him : i ≤ m).
    { apply Nat.lt_succ_r. apply Nat.nle_gt. intros Hle.
      assert (2 ^ Z.of_nat (S m) <= 2 ^ Z.of_nat i)%Z by (apply Z.pow_le_mono_r; lia). lia. }
    eapply Z.lt_le_trans; [exact Hlt|]. apply Z.pow_le_mono_r; lia.
Qed.
End halving.

(** ** The whole lookup *)

Section correct_ring.
Context {IN : Inet} {IOk : InetOk IN} {St : Type}.
Context (ring : list Peer) (Hring : ring_ok ring) (Hpeers : Forall peer_ok ring).
Context (tr : Transport St) (Htr : answers_for ring tr).

(** An answer in flight: neither ERR nor anything but the step it renders. *)
Lemma render_step_parses step :
  peer_ok (step_peer step) →
  (bool_decide (render_step step = "ERR") || starts_with "ERR " (render_step step)) = false
  ∧ parse_reply (render_step step) = inr (owner step, step_peer step).
Proof.
  intros Hp. unfold render_step. rewrite parse_reply_words by done. split; [|done].
  apply orb_false_iff. unfold starts_with.
  by destruct (owner step); split; apply bool_decide_eq_false; destruct (peer_words _).
Qed.

(** With the distance to the member before [k] below [2^m], [m + 1] requests
    are enough. *)
Lemma lookup_loop_finds m n k p pth σ :
  n ∈ ring → is_u64 k → precedes ring k p → (dist (peer_id n) (peer_id p) < 2 ^ Z.of_nat m)%Z →
  ∃ o path' σ', lookup_loop tr (S m) k n pth σ = (mkLookupResult LNone [] o path' 1, σ')
    ∧ successor_of k ring = Some o ∧ length path' ≤ length pth + S m.
Proof.
  revert n pth σ. induction m as [|m IH]; intros n pth σ Hn Hk Hp Hd;
    pose proof (ring_u64 _ _ Hring Hn) as Un;
    destruct (successor_of_owns ring _ Hring (finger_start_u64 (peer_id n) 0)) as (s & Hs & Hs_in & _);
    destruct (build_fingers_Some ring Hring (peer_id n)) as [fs Hfs];
    destruct (Htr n k σ Hn Hk) as (reply & σ' & Hans & Hcall);
    unfold ring_answer in Hans; rewrite Hs in Hans; simpl in Hans; rewrite Hfs in Hans;
    simpl in Hans; injection Hans as <-;
    cbn [lookup_loop]; rewrite Hcall; simpl negb; cbv iota;
    rewrite Forall_forall in Hpeers;
    destruct (in_range_oc k (peer_id n) (peer_id s)) eqn:Hown.
  1, 3: assert (Hstep : route_step n s fs k = mkRouteStep true s) by (unfold route_step; by rewrite Hown);
    rewrite Hstep; destruct (render_step_parses (mkRouteStep true s)) as [He Hpr]; [by apply Hpeers|];
    rewrite He, Hpr; simpl; rewrite Hown; simpl;
    eexists _, _, _; (split; [reflexivity|]);
    (split; [exact (owner_step ring Hring n s k Hn Hk Hs Hown)|rewrite length_app; simpl; lia]).
  - destruct (target_inside ring Hring n s p k Hn Hk Hs Hown Hp) as [_ Hne]. exfalso. apply Hne.
    pose proof (ring_u64 _ _ Hring (proj1 Hp)) as Up. symmetry. apply dist_zero; [done|done|].
    pose proof (wrap64_is_u64 (peer_id p - peer_id n)) as Hw. unfold dist, is_u64 in *. simpl in Hd. lia.
  - destruct (next_halves ring Hring n s fs p k m Hn Hk Hs Hfs Hp Hown Hd) as (f & Hstep & Hf & Hoo & Hd').
    rewrite Hstep. destruct (render_step_parses (mkRouteStep false f)) as [He Hpr]; [by apply Hpeers|].
    rewrite He, Hpr. cbv [owner step_peer]. rewrite Hoo. simpl negb. cbv iota.
    destruct (IH f (pth ++ [n]) σ' Hf Hk Hp Hd') as (o & path' & σ'' & H1 & H2 & H3).
    exists o, path', σ''. split; [exact H1|]. split; [done|]. rewrite length_app in H3. simpl in H3. lia.
Qed.
End correct_ring.

Lemma ring_transport_answers {IN : Inet} ring :
  ring_ok ring → answers_for ring (ring_transport ring).
Proof.
  intros Hr m k σ Hm Hk. destruct (successor_of_owns ring _ Hr (finger_start_u64 (peer_id m) 0)) as (s & Hs & _).
  destruct (build_fingers_Some ring Hr (peer_id m)) as [fs Hfs].
  eexists _, σ. split.
  - unfold ring_answer. rewrite Hs. simpl. rewrite Hfs. reflexivity.
  - unfold ring_transport. rewrite bool_decide_true by done. rewrite starts_with_app. simpl andb. cbv iota.
    change 15 with (length (lit "FIND_SUCCESSOR ")). rewrite drop_app_length, id_from_hex_to_hex by done.
    unfold ring_answer. rewrite Hs. simpl. rewrite Hfs. reflexivity.
Qed.

(** ** A concrete dotted-quad reader, for the witnesses *)

(** POSIX [inet_pton]/[inet_ntop] on dotted quads: four decimal octets without
    leading zeros. *)
Definition quad_octet (w : bytes) : bool :=
  match parse_canonical 3 w with Some v => (v <? 256)%N | None => false end.
#[export] Instance quad_inet : Inet :=
  λ s, let ws := split_on DOT s in
       if (length ws =? 4) && forallb quad_octet ws then Some s else None.

Lemma quad_octet_digits w : quad_octet w = true → Forall (λ x, is_digit x = true) w ∧ w ≠ [].
Proof.
  unfold quad_octet. destruct (parse_canonical 3 w) as [v|] eqn:E; [|done]. intros _.
  apply parse_canonical_inv in E; [|lia]. subst w. split; [apply dec_digits|apply dec_not_nil].
Qed.

#[export] Instance quad_inet_ok : InetOk quad_inet.
Proof.
  assert (E : ∀ s c, inet_canonical s = Some c → s = c).
  { intros s c. unfold inet_canonical, quad_inet. case_match; [|done]. by intros [= ->]. }
  split.
  - intros s c H. pose proof (E _ _ H). by subst.
  - intros s c H. pose proof (E _ _ H) as <-. unfold inet_canonical, quad_inet in H.
    destruct ((_ =? _) && forallb _ _) eqn:Hb; [|done]. clear H. apply andb_true_iff in Hb as [Hl Hf].
    apply forallb_Forall in Hf. rewrite <- (join_split_on DOT s).
    assert (Hj : ∀ ws, ws ≠ [] → Forall (λ x, quad_octet x = true) ws →
      Forall (λ x, is_digit x = true ∨ x = DOT) (join DOT ws) ∧ join DOT ws ≠ []).
    { clear. intros ws Hne Hf. induction Hf as [|w ws Hw Hf IH]; [done|].
      apply quad_octet_digits in Hw as [Hd Hn].
      assert (Hd' : Forall (λ x, is_digit x = true ∨ x = DOT) w).
      { eapply Forall_impl; [exact Hd|]. by left. }
      destruct ws as [|w' ws]; [done|]. destruct IH as [IH1 IH2]; [done|].
      change (join DOT (w :: w' :: ws)) with (w ++ DOT :: join DOT (w' :: ws)). split.
      - apply Forall_app. split; [done|]. constructor; [by right|done].
      - by destruct w. }
    apply Hj; [apply split_on_not_nil|done].
Qed.

(** ** Properties *)

(** Three members on the circle: the last arc wraps past zero. *)
Definition demo_ring : list Peer :=
  [mkPeer 10 "10.0.0.1" 9001; mkPeer 5000000000 "10.0.0.2" 9002; mkPeer 18446744073709551000 "10.0.0.3" 9003].
Lemma demo_ring_ok : ring_ok demo_ring ∧ Forall peer_ok demo_ring.
Proof.
  split; [split; [done|split]|]; repeat constructor; try done; vm_compute; done.
Qed.

(** C22. Routing is correct and bounded: on a ring whose members hold the routing
    state of chord.cpp, a lookup of any identifier from any member ends without
    error, names the member that owns the identifier, and sends at most
    [MAX_REQUESTS] = 65 requests. *)
Theorem lookup_finds_owner {IN : Inet} {IOk : InetOk IN} {St} ring (tr : Transport St) start k σ :
  ring_ok ring → Forall peer_ok ring → answers_for ring tr → start ∈ ring → is_u64 k →
  ∃ r σ', lookup tr start k σ = (r, σ') ∧ error r = LNone ∧ successor_of k ring = Some (found r)
    ∧ requests r ≤ MAX_REQUESTS.
Proof.
  intros Hr Hp Ht Hs Hk. destruct (predecessor_of_precedes ring k Hr Hk) as (p & _ & Hpre).
  destruct (lookup_loop_finds ring Hr Hp tr Ht 64 start k p [] σ Hs Hk Hpre) as (o & pth & σ' & E & Ho & Hl).
  - pose proof (wrap64_is_u64 (peer_id p - peer_id start)) as Hw. apply Hw.
  - exists (mkLookupResult LNone [] o pth 1), σ'. done.
Qed.

Lemma lookup_finds_owner_witness :
  ∃ r σ', lookup (ring_transport demo_ring) (mkPeer 10 "10.0.0.1" 9001) 18446744073709551615 tt = (r, σ')
    ∧ error r = LNone ∧ successor_of 18446744073709551615 demo_ring = Some (found r) ∧ requests r ≤ MAX_REQUESTS.
Proof.
  apply (lookup_finds_owner demo_ring).
  - apply demo_ring_ok.
  - apply demo_ring_ok.
  - apply ring_transport_answers, demo_ring_ok.
  - apply (bool_decide_unpack _). vm_compute. exact I.
  - by apply (bool_decide_unpack _).
Defined.

(** Ownership partitions the circle: of the members of a valid ring, the one
    that [successor_of] names for [k] is exactly the one whose arc
    (predecessor, self] contains [k]. *)
Theorem ownership_partition ring k p pr :
  ring_ok ring → is_u64 k → p ∈ ring → predecessor_of (peer_id p) ring = Some pr →
  in_range_oc k (peer_id pr) (peer_id p) = true ↔ successor_of k ring = Some p.
Proof.
  intros Hr Hk Hp Hpr. pose proof (ring_u64 _ _ Hr Hp) as Up.
  destruct (predecessor_of_precedes ring (peer_id p) Hr Up) as (pr' & E & Hpr_in & Hmin). simplify_eq.
  pose proof (ring_u64 _ _ Hr Hpr_in) as Upr. rewrite in_range_oc_gap by done.
  destruct (successor_of_owns ring k Hr Hk) as (o & Ho & Hoin & Hown). rewrite Ho. split.
  - intros Hle. f_equal. apply (owns_unique ring k); [done..| |]; [done|]. split; [done|].
    intros q Hq. specialize (Hmin q Hq). pose proof (ring_u64 _ _ Hr Hq) as Uq. circle_lia.
  - intros [= ->]. specialize (Hown pr Hpr_in). specialize (Hmin p Hp). circle_lia.
Qed.

Lemma ownership_partition_witness :
  in_range_oc 7 18446744073709551000 10 = true ↔ successor_of 7 demo_ring = Some (mkPeer 10 "10.0.0.1" 9001).
Proof.
  apply (ownership_partition demo_ring 7 (mkPeer 10 "10.0.0.1" 9001) (mkPeer 18446744073709551000 "10.0.0.3" 9003)).
  - apply demo_ring_ok.
  - by apply (bool_decide_unpack _).
  - apply (bool_decide_unpack _). vm_compute. exact I.
  - reflexivity.
Defined.

(** A node that answers nothing but the same far jump, for the witness below. *)
Definition liar : Transport nat :=
  λ to request calls, ((Ok, lit "NEXT 00000000000000ff 10.0.0.9 9009"), S calls).

(** No answer can lead a lookup astray: whatever the nodes reply (lies
    included), the nodes asked get strictly nearer to [k] clockwise, so none is
    asked twice; at most [MAX_REQUESTS] are asked; and an owner is believed only
    if [k] lies in the arc from the node that named it. *)
Theorem lookup_cannot_cycle {IN : Inet} {IOk : InetOk IN} {St} (tr : Transport St) start k σ :
  is_u64 k → is_u64 (peer_id start) →
  let r := (lookup tr start k σ).1 in
  closing_in k (path r) ∧ NoDup (peer_id <$> path r) ∧ requests r ≤ MAX_REQUESTS
  ∧ (result_ok r = true → ∃ c, last (path r) = Some c
       ∧ in_range_oc k (peer_id c) (peer_id (found r)) = true ∧ peer_ok (found r)).
Proof.
  intros Hk Hs r.
  destruct (lookup_loop_sound tr MAX_REQUESTS k start [] σ Hk Hs) as (H1 & H2 & _ & H4); [done|constructor|done|].
  split_and!; [done|by eapply closing_in_nodup|exact H2|].
  intros Hok. apply H4. unfold result_ok in Hok. by apply bool_decide_eq_true in Hok.
Qed.

Lemma lookup_cannot_cycle_witness :
  error (lookup liar (mkPeer 10 "10.0.0.1" 9001) 4096 0).1 = LNoProgress
  ∧ NoDup (peer_id <$> path (lookup liar (mkPeer 10 "10.0.0.1" 9001) 4096 0).1).
Proof.
  split; [vm_compute; reflexivity|].
  apply (lookup_cannot_cycle liar (mkPeer 10 "10.0.0.1" 9001) 4096 0); by apply (bool_decide_unpack _).
Defined.

(** Peers and routing replies survive the wire: what a node renders for a
    routing step is parsed back to that step, and only well-formed peers are
    ever accepted from a reply. *)
Theorem routing_reply_roundtrip {IN : Inet} {IOk : InetOk IN} step line b p :
  peer_ok (step_peer step) →
  parse_reply (render_step step) = inr (owner step, step_peer step)
  ∧ (parse_reply line = inr (b, p) → peer_ok p).
Proof. intros Hp. split; [by apply render_step_parses|apply parse_reply_inr]. Qed.

Lemma routing_reply_roundtrip_witness :
  parse_reply (render_step (mkRouteStep true (mkPeer 255 "10.0.0.1" 9001)))
  = inr (true, mkPeer 255 "10.0.0.1" 9001).
Proof.
  apply (routing_reply_roundtrip (mkRouteStep true (mkPeer 255 "10.0.0.1" 9001)) [] false (mkPeer 0 [] 0)).
  split; [by apply (bool_decide_unpack _)|]. split; [reflexivity|]. simpl. lia.
Defined.

(** Addressing: a request addressed to a member is taken apart into exactly
    that member's identifier and the request, and never into anything else. *)
Theorem addressed_roundtrip to request :
  is_u64 (peer_id to) → request ≠ [] → split_target (addressed to request) = TMember (peer_id to) request.
Proof. apply split_target_addressed. Qed.

Lemma addressed_roundtrip_witness :
  split_target (addressed (mkPeer 255 "10.0.0.1" 9001) "PING") = TMember 255 "PING".
Proof. apply (addressed_roundtrip (mkPeer 255 "10.0.0.1" 9001) "PING"); [by apply (bool_decide_unpack _)|done]. Defined.

Section retries.
Context {IN : Inet} {St : Type} (tr : Transport St).

Lemma recovery_loop_attempts n start k r σ :
  attempts r ≤ attempts (recovery_loop tr n start k r σ).1 ≤ attempts r + n.
Proof.
  revert r σ. induction n as [|n IH]; intros r σ; simpl; [lia|].
  case_match; [simpl; lia|]. case_match; [simpl; lia|].
  destruct (path r !! _) as [dead|]; [|simpl; lia]. destruct (path r !! _) as [namer|]; [|simpl; lia].
  destruct (tr namer _ σ) as [? σ1]. destruct (lookup tr start k σ1) as [r' σ2].
  specialize (IH (mkLookupResult (error r') (message r') (found r') (path r') (attempts r + 1)) σ2).
  simpl in IH. lia.
Qed.

Lemma lookup_loop_attempts n k c pth σ : attempts (lookup_loop tr n k c pth σ).1 = 1.
Proof.
  revert c pth σ. induction n as [|n IH]; intros c pth σ; simpl; [done|].
  destruct (tr c _ σ) as [[d reply] σ']. case_match; [done|]. case_match; [done|].
  destruct (parse_reply reply) as [why|[[] named]]; [done|by case_match|]. case_match; [done|]. apply IH.
Qed.
End retries.

(** Recovery is bounded: [lookup_with_recovery] runs the lookup at least once
    and at most [retries] more times, and with no retries it is [lookup]. *)
Theorem recovery_bounded {IN : Inet} {St} (tr : Transport St) start k retries σ :
  1 ≤ attempts (lookup_with_recovery tr start k retries σ).1 ≤ 1 + retries
  ∧ lookup_with_recovery tr start k 0 σ = lookup tr start k σ.
Proof.
  unfold lookup_with_recovery. pose proof (lookup_loop_attempts tr MAX_REQUESTS k start [] σ) as Ha.
  fold (lookup tr start k σ) in Ha. destruct (lookup tr start k σ) as [r σ'].
  simpl in Ha. split; [|done]. pose proof (recovery_loop_attempts tr retries start k r σ'). lia.
Qed.
