(* ===== verification/LookupMain.v ===== *)
(** * LookupMain: the lookup program (lookup_main.cpp)

    Identifiers from standard input, one a line, each looked up through a ring and
    answered by exactly one line. The transport is a parameter. On a correct ring
    every identifier's line names its owner. *)
From S2P Require Import Prelude Text Net Chord Lookup Routing.

Definition render_path (path : list Peer) : bytes :=
  if bool_decide (path = []) then lit "-" else join COMMA (address <$> path).

(** Spaces, tabs and carriage returns at both ends. *)
Definition is_blank (c : Ascii.ascii) : bool := bool_decide (c = SPACE) || bool_decide (c = chr 9) || bool_decide (c = CR).
Fixpoint drop_blanks (s : bytes) : bytes :=
  match s with [] => [] | c :: s' => if is_blank c then drop_blanks s' else s end.
Definition trim (s : bytes) : bytes := reverse (drop_blanks (reverse (drop_blanks s))).

(** The tool's number of retries: one or two digits; [None] when it is not given. *)
Definition parse_retries (n : bytes) : option nat :=
  if bool_decide (n = []) || (2 <? length n) then None else N.to_nat <$> digits_val n.

Definition int_text (n : nat) : bytes := dec (N.of_nat n).

Definition answer_line (retries : option nat) (k : Id) (r : LookupResult) : bytes :=
  let path := render_path (path r) in
  let tried := match retries with None => [] | Some _ => lit " attempts " ++ int_text (attempts r) end in
  if result_ok r
  then id_to_hex k ++ lit " OWNER " ++ id_to_hex (peer_id (found r)) ++ lit " " ++ address (found r) ++ lit " requests " ++
    int_text (requests r) ++ lit " hops " ++ int_text (hops r) ++ lit " path " ++ path ++ tried
  else id_to_hex k ++ lit " ERROR " ++ lookup_error_name (error r) ++ lit " requests " ++ int_text (requests r) ++ lit " hops " ++
    int_text (hops r) ++ lit " path " ++ path ++ tried ++ lit " : " ++ c_str (message r).

Definition bad_input (line_no : nat) : bytes :=
  lit "? ERROR bad-input requests 0 hops 0 path - : line " ++ int_text line_no ++ lit " is not a 16-hexadecimal-character identifier".

Section tool.
Context {SH : Sha1} {IN : Inet} {W : Type} (socket_transport : Transport W).

Definition ask (retries : option nat) (start : Peer) (k : Id) (w : W) : LookupResult * W :=
  match retries with
  | None => lookup socket_transport start k w
  | Some n => lookup_with_recovery socket_transport start k n w
  end.

(** The lines printed, whether any lookup failed, and the world. *)
Fixpoint answer_lines (retries : option nat) (start : Peer) (line_no : nat) (input : list bytes) (w : W) : list bytes * bool * W :=
  match input with
  | [] => ([], false, w)
  | line :: input =>
      let line_no := line_no + 1 in
      let key_text := trim line in
      if bool_decide (key_text = []) then answer_lines retries start line_no input w
      else match id_from_hex key_text with
      | None =>
          let '(out, _, w) := answer_lines retries start line_no input w in (bad_input line_no :: out, true, w)
      | Some k =>
          let '(r, w) := ask retries start k w in
          let '(out, failed, w) := answer_lines retries start line_no input w in
          (answer_line retries k r :: out, negb (result_ok r) || failed, w)
      end
  end.

(** The arguments: the retries and the start node's two words. *)
Definition lookup_args (args : list bytes) : option (option nat * bytes * bytes) :=
  match args with
  | [ip; port] => Some (None, ip, port)
  | [opt; n; ip; port] => if bool_decide (opt = lit "--retries") then r ← parse_retries n; Some (Some r, ip, port) else None
  | _ => None
  end.

(** The exit status and what is printed. *)
Definition lookup_main (args : list bytes) (input : bytes) (w : W) : Z * list bytes * W :=
  match lookup_args args with
  | None => (2%Z, [], w)
  | Some (retries, ip, port) =>
      match parse_members (ip ++ lit ":" ++ port) with
      | inr (start :: _) =>
          let '(out, failed, w) := answer_lines retries start 0 (getlines NL input) w in
          ((if (failed : bool) then 1 else 0)%Z, out, w)
      | _ => (2%Z, [], w)
      end
  end.
End tool.

(** ** What is answered *)

(** The lines of the input that hold anything. *)
Definition questions (input : list bytes) : list bytes := filter (λ t, t ≠ []) (trim <$> input).

Definition answers_question (ring : list Peer) (text line : bytes) : Prop :=
  match id_from_hex text with
  | Some k => ∃ o, successor_of k ring = Some o ∧
      starts_with (id_to_hex k ++ lit " OWNER " ++ id_to_hex (peer_id o) ++ lit " " ++ address o ++ lit " requests ") line = true
  | None => starts_with (lit "? ERROR bad-input requests 0 hops 0 path - : line ") line = true
  end.

Section correct.
Context {SH : Sha1} {SHok : Sha1Ok SH} {IN : Inet} {IOk : InetOk IN} {W : Type} (tr : Transport W) (ring : list Peer).
Context (Hring : ring_ok ring) (Hpeers : Forall peer_ok ring) (Htr : answers_for ring tr).

Lemma ask_finds retries start k w : start ∈ ring → is_u64 k →
  ∃ r w', ask tr retries start k w = (r, w') ∧ error r = LNone ∧ successor_of k ring = Some (found r).
Proof.
  intros Hs Hk. destruct (predecessor_of_precedes ring k Hring Hk) as (p & _ & Hpre).
  destruct (lookup_loop_finds ring Hring Hpeers tr Htr 64 start k p [] w Hs Hk Hpre) as (o & pth & w' & E & Ho & Hl).
  { apply (wrap64_is_u64 (peer_id p - peer_id start)). }
  exists (mkLookupResult LNone [] o pth 1), w'. split; [|done]. destruct retries as [n|]; [|exact E].
  cbn [ask]. unfold lookup_with_recovery. change (lookup tr start k w) with (lookup_loop tr MAX_REQUESTS k start [] w).
  change MAX_REQUESTS with 65. rewrite E. destruct n; done.
Qed.

Lemma answers_owner retries k r : error r = LNone → successor_of k ring = Some (found r) →
  starts_with (id_to_hex k ++ lit " OWNER " ++ id_to_hex (peer_id (found r)) ++ lit " " ++ address (found r) ++ lit " requests ") (answer_line retries k r) = true.
Proof.
  intros He Hs. unfold answer_line, result_ok. rewrite bool_decide_true by done. cbv zeta.
  assert (E : ∀ rest, starts_with (id_to_hex k ++ lit " OWNER " ++ id_to_hex (peer_id (found r)) ++ lit " " ++ address (found r) ++ lit " requests ")
    (id_to_hex k ++ lit " OWNER " ++ id_to_hex (peer_id (found r)) ++ lit " " ++ address (found r) ++ lit " requests " ++ rest) = true); [|apply E].
  intros rest. rewrite !app_assoc. apply starts_with_app.
Qed.

Lemma questions_cons line input :
  questions (line :: input) = (if bool_decide (trim line = []) then [] else [trim line]) ++ questions input.
Proof. unfold questions. cbn [fmap list_fmap]. rewrite filter_cons. repeat case_bool_decide; case_decide; done || tauto. Qed.

Lemma answer_lines_correct retries start n input w : start ∈ ring →
  let '(out, failed, _) := answer_lines tr retries start n input w in
  Forall2 (answers_question ring) (questions input) out ∧
  (failed = false ↔ Forall (λ t, is_Some (id_from_hex t)) (questions input)).
Proof.
  intros Hs. revert n w. induction input as [|line input IH]; intros n w; [by split; [constructor|]|].
  cbn [answer_lines]. rewrite questions_cons. case_bool_decide as Eb; [apply IH|].
  destruct (id_from_hex (trim line)) as [k|] eqn:Ek.
  - destruct (ask_finds retries start k w Hs) as (r & w' & E & He & Ho); [by eapply id_from_hex_u64|]. rewrite E.
    specialize (IH (n + 1) w'). destruct (answer_lines tr retries start (n + 1) input w') as [[out failed] w2].
    destruct IH as [H1 H2]. split.
    + constructor; [|done]. unfold answers_question. rewrite Ek. exists (found r). split; [done|]. by apply answers_owner.
    + unfold result_ok. rewrite bool_decide_true by done. cbn [negb orb]. rewrite H2. cbn [app]. rewrite Forall_cons, Ek.
      split; [intros H; split; [by eexists|done]|by intros [_ H]].
  - specialize (IH (n + 1) w). destruct (answer_lines tr retries start (n + 1) input w) as [[out failed] w2].
    destruct IH as [H1 H2]. split.
    + constructor; [|done]. unfold answers_question. rewrite Ek. apply starts_with_app.
    + cbn [app]. rewrite Forall_cons, Ek. split; [done|]. by intros [[? ?] _].
Qed.

(** What the tool prints over a correct ring: one line for each line of the input that
    is not blank, in order; an identifier's line names the member that owns it, with or
    without retries; and the tool exits with 0 exactly when every one was an identifier. *)
Theorem lookup_tool_answers args input w retries ip port start rest :
  lookup_args args = Some (retries, ip, port) → parse_members (ip ++ lit ":" ++ port) = inr (start :: rest) → start ∈ ring →
  let '(status, out, _) := lookup_main tr args input w in
  Forall2 (answers_question ring) (questions (getlines NL input)) out ∧
  (status = 0%Z ↔ Forall (λ t, is_Some (id_from_hex t)) (questions (getlines NL input))) ∧ (status = 0 ∨ status = 1)%Z.
Proof.
  intros Ha Hp Hs. unfold lookup_main. rewrite Ha, Hp.
  pose proof (answer_lines_correct retries start 0 (getlines NL input) w Hs) as H.
  destruct (answer_lines tr retries start 0 (getlines NL input) w) as [[out failed] w']. destruct H as [H1 H2].
  split; [done|]. rewrite <- H2. destruct failed; split; [done|by right|done|by left].
Qed.
End correct.

Example blank_and_bad_lines : let '(out, failed, _) := answer_lines (IN := quad_inet) (ring_transport demo_ring) (Some 1) (mkPeer 10 "10.0.0.1" 9001) 0
    [lit " 00000000000000ff" ++ [CR]; []; lit "zz"] tt in
  out = [lit "00000000000000ff OWNER 000000012a05f200 10.0.0.2:9002 requests 1 hops 0 path 10.0.0.1:9001 attempts 1"; bad_input 3] ∧ failed = true.
Proof. vm_compute. by split. Qed.
