(* ===== verification/OrdMap.v ===== *)
(** * OrdMap: [std::map] and [std::set] keyed by strings

    A map is the list of its items in increasing order of keys, compared byte by
    byte as [std::string] compares. [om_after] is the range from [upper_bound]
    on; [fill] is the loop of every paged listing, taking items while they fit. *)
From S2P Require Import Prelude Text.
From stdpp Require Import sorting.

(** ** The order of strings *)

Fixpoint blt (a b : bytes) : bool :=
  match a, b with
  | [], [] => false
  | [], _ :: _ => true
  | _ :: _, [] => false
  | x :: a, y :: b => (code x <? code y)%N || ((code x =? code y)%N && blt a b)
  end.

Lemma blt_irrefl a : blt a a = false.
Proof. induction a as [|x a IH]; [done|]. cbn. rewrite N.ltb_irrefl, IH. by rewrite andb_false_r. Qed.

Lemma blt_trans a b c : blt a b = true → blt b c = true → blt a c = true.
Proof.
  revert b c. induction a as [|x a IH]; intros [|y b] [|z c]; cbn; try done. intros H1 H2.
  apply orb_true_iff in H1, H2. apply orb_true_iff.
  destruct H1 as [H1|H1], H2 as [H2|H2]; bool_to_prop; try (left; apply N.ltb_lt; lia).
  right. apply andb_true_iff. split; [apply N.eqb_eq; lia|by eapply IH].
Qed.

Lemma blt_total a b : blt a b = false → blt b a = false → a = b.
Proof.
  revert b. induction a as [|x a IH]; intros [|y b]; cbn; try done. intros H1 H2.
  apply orb_false_iff in H1 as [H1 H1'], H2 as [H2 H2']. apply N.ltb_ge in H1, H2.
  assert (E : code x = code y) by lia. rewrite (proj2 (N.eqb_eq _ _) E) in H1'.
  rewrite (proj2 (N.eqb_eq _ _) (eq_sym E)) in H2'. cbn in *. f_equal; [by apply code_inj|by apply IH].
Qed.

Lemma blt_asym a b : blt a b = true → blt b a = false.
Proof. intros E. destruct (blt b a) eqn:E'; [|done]. by rewrite <- (blt_irrefl a), (blt_trans a b a). Qed.

Lemma filter_none {A} (P : A → Prop) `{∀ x, Decision (P x)} (l : list A) : (∀ x, x ∈ l → ¬ P x) → filter P l = [].
Proof.
  induction l as [|x l IH]; intros Hn; [done|]. rewrite filter_cons, decide_False by (apply Hn, elem_of_cons; by left).
  apply IH. intros y Hy. apply Hn, elem_of_cons. by right.
Qed.
Lemma filter_every {A} (P : A → Prop) `{∀ x, Decision (P x)} (l : list A) : (∀ x, x ∈ l → P x) → filter P l = l.
Proof.
  induction l as [|x l IH]; intros Hn; [done|]. rewrite filter_cons, decide_True by (apply Hn, elem_of_cons; by left).
  f_equal. apply IH. intros y Hy. apply Hn, elem_of_cons. by right.
Qed.

(** ** Maps *)

Section map.
Context {V : Type}.
Implicit Types m : list (bytes * V).

Fixpoint om_find (k : bytes) m : option V :=
  match m with
  | [] => None
  | (k', v) :: m => if decide (k' = k) then Some v else om_find k m
  end.

(** [m[k] = v]. *)
Fixpoint om_set (k : bytes) (v : V) m : list (bytes * V) :=
  match m with
  | [] => [(k, v)]
  | (k', v') :: m =>
      if decide (k' = k) then (k, v) :: m
      else if blt k k' then (k, v) :: (k', v') :: m
      else (k', v') :: om_set k v m
  end.

Definition om_erase (k : bytes) m : list (bytes * V) := filter (λ x, x.1 ≠ k) m.

(** Everything after [k], in order. *)
Definition om_after (k : bytes) m : list (bytes * V) := filter (λ x, blt k x.1 = true) m.

Definition om_ok m : Prop := StronglySorted (λ a b, blt a.1 b.1 = true) m.

Lemma om_find_elem k v m : om_ok m → om_find k m = Some v ↔ (k, v) ∈ m.
Proof.
  induction m as [|[k' v'] m IH]; intros Hok; cbn; [split; [done|by intros ?%elem_of_nil]|].
  apply StronglySorted_inv in Hok as [Hok Hlt]. rewrite elem_of_cons. case_decide as E.
  - subst k'. split; [intros [= ->]; by left|]. intros [[= ->]|Hin]; [done|].
    rewrite Forall_forall in Hlt. apply Hlt in Hin. cbn in Hin. by rewrite blt_irrefl in Hin.
  - rewrite IH by done. split; [by right|]. intros [[= -> ->]|Hin]; done.
Qed.

Lemma om_find_set k v m k' : om_find k' (om_set k v m) = if decide (k' = k) then Some v else om_find k' m.
Proof.
  induction m as [|[k0 v0] m IH]; cbn; [by repeat case_decide|].
  destruct (decide (k0 = k)) as [E0|E0]; [|destruct (blt k k0) eqn:Eb].
  - cbn. repeat case_decide; congruence.
  - cbn. repeat case_decide; congruence.
  - cbn. rewrite IH. repeat case_decide; congruence.
Qed.

Lemma om_set_keys k v m x : x ∈ om_set k v m → x = (k, v) ∨ x ∈ m.
Proof.
  induction m as [|[k0 v0] m IH]; cbn; [by intros ->%list_elem_of_singleton; left|].
  case_decide; [|destruct (blt k k0)]; rewrite ?elem_of_cons; try tauto.
Qed.

Lemma om_set_ok k v m : om_ok m → om_ok (om_set k v m).
Proof.
  induction m as [|[k0 v0] m IH]; intros Hok; cbn; [by repeat constructor|].
  pose proof Hok as Hok'. apply StronglySorted_inv in Hok' as [Hok' Hlt].
  case_decide as E; [subst; by constructor|]. destruct (blt k k0) eqn:Eb.
  - constructor; [done|]. apply Forall_cons. split; [done|]. eapply Forall_impl; [exact Hlt|].
    intros [k1 v1] Hk1. cbn in *. by eapply blt_trans.
  - constructor; [by apply IH|]. apply Forall_forall. intros x Hx. apply om_set_keys in Hx as [->|Hx].
    + cbn. destruct (blt k0 k) eqn:Eb'; [done|]. by pose proof (blt_total _ _ Eb Eb').
    + rewrite Forall_forall in Hlt. by apply Hlt.
Qed.

Lemma om_filter_ok (P : bytes * V → Prop) `{∀ x, Decision (P x)} m : om_ok m → om_ok (filter P m).
Proof.
  induction m as [|x m IH]; intros Hok; [done|]. apply StronglySorted_inv in Hok as [Hok Hlt].
  rewrite filter_cons. case_decide; [|by apply IH]. constructor; [by apply IH|].
  apply Forall_forall. intros y Hy. apply list_elem_of_filter in Hy as [_ Hy].
  rewrite Forall_forall in Hlt. by apply Hlt.
Qed.

Lemma om_erase_ok k m : om_ok m → om_ok (om_erase k m).
Proof. apply om_filter_ok. Qed.

Lemma om_find_erase k m k' : om_find k' (om_erase k m) = if decide (k' = k) then None else om_find k' m.
Proof.
  unfold om_erase. induction m as [|[k0 v0] m IH]; [by case_decide|]. rewrite filter_cons. cbn [fst om_find].
  destruct (decide (k0 ≠ k)) as [E0|E0]; cbn [om_find]; rewrite IH.
  - repeat case_decide; congruence.
  - apply dec_stable in E0. repeat case_decide; congruence.
Qed.

Lemma om_find_filter (P : bytes * V → Prop) `{∀ x, Decision (P x)} k v m :
  om_find k m = Some v → P (k, v) → om_find k (filter P m) = Some v.
Proof.
  intros Hf HP. induction m as [|[k0 v0] m IH]; [done|]. cbn in Hf. rewrite filter_cons.
  case_decide as E; [simplify_eq; rewrite decide_True by done; cbn; by rewrite decide_True|].
  case_decide; cbn [om_find]; [rewrite decide_False by done|]; by apply IH.
Qed.

Lemma om_after_ok k m : om_ok m → om_ok (om_after k m).
Proof. apply om_filter_ok. Qed.

(** The range after the last item of a prefix is the rest. *)
Lemma om_after_last a x b : om_ok (a ++ x :: b) → om_after x.1 (a ++ x :: b) = b.
Proof.
  intros Hok. unfold om_after. rewrite filter_app, filter_cons. rewrite blt_irrefl, decide_False by done.
  assert (Ha : filter (λ y, blt x.1 y.1 = true) a = []).
  { apply filter_none. intros y Hy E. assert (Hlt : blt y.1 x.1 = true).
    { clear E. induction a as [|z a IH]; [by apply elem_of_nil in Hy|].
      cbn in Hok. apply StronglySorted_inv in Hok as [Hok Hlt]. apply elem_of_cons in Hy as [->|Hy]; [|by apply IH].
      rewrite Forall_forall in Hlt. apply Hlt. apply elem_of_app. right. apply elem_of_cons. by left. }
    by rewrite (blt_asym _ _ Hlt) in E. }
  rewrite Ha. cbn. apply filter_every. intros y Hy.
  assert (Hok' : om_ok (x :: b)).
  { clear Ha. induction a as [|z a IH]; [done|]. cbn in Hok. apply StronglySorted_inv in Hok as [Hok _]. by apply IH. }
  apply StronglySorted_inv in Hok' as [_ Hlt]. rewrite Forall_forall in Hlt. by apply Hlt.
Qed.

Lemma om_ok_cons x m : om_ok (x :: m) → om_ok m.
Proof. by intros [? _]%StronglySorted_inv. Qed.

Lemma om_ok_nodup m : om_ok m → NoDup m.*1.
Proof.
  induction m as [|[k v] m IH]; intros Hok; [by constructor|].
  apply StronglySorted_inv in Hok as [Hok Hlt]. cbn. constructor; [|by apply IH].
  intros ([k' v'] & -> & Hin)%list_elem_of_fmap. rewrite Forall_forall in Hlt. apply Hlt in Hin.
  cbn in Hin. by rewrite blt_irrefl in Hin.
Qed.

Lemma om_find_None k m : om_find k m = None ↔ k ∉ m.*1.
Proof.
  induction m as [|[k0 v0] m IH]; cbn; [split; [intros _; apply not_elem_of_nil|done]|].
  rewrite elem_of_cons. case_decide; [naive_solver|]. rewrite IH. naive_solver.
Qed.

Lemma om_find_fst k m : is_Some (om_find k m) ↔ k ∈ m.*1.
Proof.
  destruct (om_find k m) eqn:E.
  - split; [intros _|by eexists]. destruct (decide (k ∈ m.*1)) as [|n]; [done|].
    apply om_find_None in n. congruence.
  - apply om_find_None in E. split; [by intros [? ?]|done].
Qed.

(** A total over the keys. *)
Definition om_sum (f : bytes → N) m : N := foldr (λ x n, (f x.1 + n)%N) 0%N m.

Lemma om_sum_ext f g m : (∀ k, k ∈ m.*1 → f k = g k) → om_sum f m = om_sum g m.
Proof.
  induction m as [|[k v] m IH]; intros E; [done|]. cbn [om_sum foldr fst].
  rewrite (E k) by (cbn; apply elem_of_cons; by left). f_equal. apply IH. intros k' Hk'.
  apply E. cbn. apply elem_of_cons. by right.
Qed.

Lemma om_sum_set f k v m : k ∉ m.*1 → om_sum f (om_set k v m) = (f k + om_sum f m)%N.
Proof.
  induction m as [|[k0 v0] m IH]; intros Hn; [done|]. cbn [fmap list_fmap fst] in Hn.
  rewrite elem_of_cons in Hn. cbn [om_set]. rewrite decide_False by naive_solver.
  destruct (blt k k0); [done|]. cbn. fold (om_sum f (om_set k v m)). rewrite IH by naive_solver.
  fold (om_sum f m). lia.
Qed.

Lemma om_erase_absent k m : k ∉ m.*1 → om_erase k m = m.
Proof.
  intros Hn. apply filter_every. intros x Hx E. apply Hn. rewrite <- E. apply list_elem_of_fmap. by exists x.
Qed.

Lemma om_sum_erase f k m : om_ok m → k ∈ m.*1 → (f k + om_sum f (om_erase k m))%N = om_sum f m.
Proof.
  induction m as [|[k0 v0] m IH]; intros Hok Hin; [by apply elem_of_nil in Hin|].
  pose proof (om_ok_nodup _ Hok) as Hnd. cbn in Hnd, Hin. apply NoDup_cons in Hnd as [Hk0 _].
  apply om_ok_cons in Hok. unfold om_erase. rewrite filter_cons. cbn [fst].
  destruct (decide (k0 ≠ k)) as [Hne|He].
  - apply elem_of_cons in Hin as [->|Hin]; [done|]. cbn. fold (om_erase k m) (om_sum f (om_erase k m)) (om_sum f m).
    pose proof (IH Hok Hin). lia.
  - apply dec_stable in He as ->. fold (om_erase k m). by rewrite om_erase_absent.
Qed.

Lemma om_set_fst k v m k' : k' ∈ (om_set k v m).*1 ↔ k' = k ∨ k' ∈ m.*1.
Proof.
  rewrite <- !om_find_fst, om_find_set. case_decide; [split; [by left|by eexists]|]. naive_solver.
Qed.

Lemma om_erase_fst k m k' : k' ∈ (om_erase k m).*1 ↔ k' ≠ k ∧ k' ∈ m.*1.
Proof.
  rewrite <- !om_find_fst, om_find_erase. case_decide; [|naive_solver]. split; [by intros [? ?]|naive_solver].
Qed.
End map.

(** ** Pages *)

(** [for (; it != end; ++it) { if (full) break; take *it; }] with the room left. *)
Fixpoint fill {A} (cost : A → nat) (room : nat) (l : list A) : list A :=
  match l with
  | [] => []
  | x :: l => if room <? cost x then [] else x :: fill cost (room - cost x) l
  end.

Section paging.
Context {A : Type} (cost : A → nat).

Lemma fill_prefix room l : fill cost room l `prefix_of` l.
Proof.
  revert room. induction l as [|x l IH]; intros room; cbn [fill]; [done|].
  destruct (room <? cost x); [apply prefix_nil|]. by apply prefix_cons.
Qed.

Lemma fill_cost room l : sum_list_with cost (fill cost room l) ≤ room.
Proof.
  revert room. induction l as [|x l IH]; intros room; cbn [fill]; [cbn; lia|].
  destruct (Nat.ltb_spec room (cost x)); cbn; [lia|]. pose proof (IH (room - cost x)). lia.
Qed.

(** Everything costs at most what an empty page has room for: no page is empty
    while something is left. *)
Lemma fill_progress room l : l ≠ [] → (∀ x, x ∈ l → cost x ≤ room) → fill cost room l ≠ [].
Proof.
  intros Hl Hc. destruct l as [|x l]; [done|]. cbn [fill].
  destruct (Nat.ltb_spec room (cost x)) as [Hlt|]; [|done]. assert (cost x ≤ room); [|lia].
  apply Hc, elem_of_cons. by left.
Qed.
End paging.
