(* ===== verification/Serve.v ===== *)
(** * Serve: one connection of a server (node.cpp, tracker.cpp)

    What the two servers share: the connection as the calls its socket will
    answer, the counters by label, and taking one request off the stream - the line
    within its deadline and the request id in front of it. [frames] are requests
    as a careful peer writes them: whatever the segmentation, they come off the
    stream one by one and nothing is lost between them ([take_request_frame],
    [take_body_frame]). *)
From S2P Require Import Prelude Text OrdMap Net Log.

(** ** The connection *)

Record Conn := mkConn { cn_in : list RecvEvent; cn_calls : list SendEvent; cn_sent : bytes }.
#[export] Instance Conn_eta : Eta Conn := λ c, mkConn (cn_in c) (cn_calls c) (cn_sent c).

(** Whether all of it was accepted. [None]: a call has not returned. *)
Definition put_bytes (data : bytes) (c : Conn) : option (bool * Conn) :=
  '(sent, r) ← send_all data (cn_calls c);
  let c := c <| cn_sent := cn_sent c ++ sent |> in
  match r with
  | inl _ => Some (false, c <| cn_calls := [] |>)
  | inr calls => Some (true, c <| cn_calls := calls |>)
  end.
Definition put_line (line : bytes) (c : Conn) : option (bool * Conn) := put_bytes (line_bytes line) c.

Definition take_line (c : Conn) : option ((Errno + bytes) * Conn) :=
  match recv_line (cn_in c) with
  | RecvBlocked => None
  | RecvFailed e => Some (inl e, c <| cn_in := [] |>)
  | Received line rest => Some (inr line, c <| cn_in := rest |>)
  end.
Definition take_body (n : N) (c : Conn) : option ((Errno + bytes) * Conn) :=
  match recv_exact (N.to_nat n) (cn_in c) with
  | RecvBlocked => None
  | RecvFailed e => Some (inl e, c <| cn_in := [] |>)
  | Received body rest => Some (inr body, c <| cn_in := rest |>)
  end.
Definition drop_body (n : N) (c : Conn) : option (bool * Conn) :=
  match recv_discard (N.to_nat n) (cn_in c) with
  | RecvBlocked => None
  | RecvFailed _ => Some (false, c <| cn_in := [] |>)
  | Received _ rest => Some (true, c <| cn_in := rest |>)
  end.

(** ** Counters by label *)

Definition Family : Type := list (bytes * N).
Definition count (which : bytes) (n : N) (f : Family) : Family :=
  match om_find which f with Some v => om_set which (wrap64N (v + n)) f | None => f end.

(** Which error a read that failed counts as, if any: a close between requests is the normal end. *)
Definition line_error (e : Errno) : bytes :=
  if bool_decide (e = EAGAIN) then lit "deadline" else if bool_decide (e = EMSGSIZE) then lit "line_too_long" else [].
Definition body_error (e : Errno) : bytes := if bool_decide (e = EAGAIN) then lit "deadline" else lit "closed_mid_body".

(** ** One request *)

Inductive Request := Gone (e : Errno) | BadRequestId | Request_of (rid line : bytes).

Definition take_request (c : Conn) : option (Request * Conn) :=
  '(r, c) ← take_line c;
  match r with
  | inl e => Some (Gone e, c)
  | inr raw =>
      match split_request_id raw with
      | RidMalformed => Some (BadRequestId, c)
      | RidNone line => Some (Request_of [] line, c)
      | RidPresent rid line => Some (Request_of rid line, c)
      end
  end.

(** A lower-case verb. *)
Definition lower (c : Ascii.ascii) : Ascii.ascii :=
  if (65 <=? code c)%N && (code c <=? 90)%N then chr (code c - 65 + 97) else c.
Definition first_of (line : bytes) : bytes := take (default (length line) (find_char SPACE line)) line.

(** ** Requests as a careful peer writes them *)

(** A request id or none, a line, and the body the line announces. *)
Record WireFrame := mkWireFrame { wf_rid : bytes; wf_line : bytes; wf_body : bytes }.

Definition frame_text (f : WireFrame) : bytes :=
  if bool_decide (wf_rid f = []) then wf_line f else lit "RID " ++ wf_rid f ++ SPACE :: wf_line f.
Definition frame_bytes (f : WireFrame) : bytes := line_bytes (frame_text f) ++ wf_body f.

Record frame_ok (f : WireFrame) : Prop := {
  fo_rid : wf_rid f = [] ∨ valid_request_id (wf_rid f) = true;
  fo_plain : starts_with (lit "RID ") (wf_line f) = false;
  fo_line : Forall (λ c, is_eol c = false) (wf_line f);
  fo_some : wf_line f ≠ [];
  fo_length : length (frame_text f) ≤ MAX_LINE;
  fo_body : body_length (wf_line f) = BodyPresent (N.of_nat (length (wf_body f))) ∨ body_length (wf_line f) = BodyNone ∧ wf_body f = [];
}.

Lemma frame_text_eol f : frame_ok f → Forall (λ c, is_eol c = false) (frame_text f).
Proof.
  intros [Hrid _ Hline _ _ _]. unfold frame_text. case_bool_decide as Hn; [done|]. destruct Hrid as [|Hrid]; [done|].
  unfold valid_request_id in Hrid. apply andb_true_iff in Hrid as [_ Hhex%forallb_Forall].
  apply Forall_app. split; [apply (bool_decide_unpack _); vm_compute; exact Logic.I|]. apply Forall_app. split; [|by constructor].
  eapply Forall_impl; [exact Hhex|]. intros c Hc. unfold is_eol. apply orb_false_iff. rewrite !bool_decide_eq_false.
  split; intros ->; by vm_compute in Hc.
Qed.

Lemma split_frame f : frame_ok f → split_request_id (frame_text f) =
  if bool_decide (wf_rid f = []) then RidNone (wf_line f) else RidPresent (wf_rid f) (wf_line f).
Proof.
  intros [Hrid Hplain _ Hsome _ _]. unfold frame_text. case_bool_decide as Hn.
  - unfold split_request_id. by rewrite Hplain.
  - destruct Hrid as [|Hrid]; [done|]. unfold valid_request_id in Hrid.
    apply andb_true_iff in Hrid as [Hl%Nat.eqb_eq Hhex%forallb_Forall]. by apply split_rid.
Qed.

(** What follows in the stream does not matter to a read that is over before it. *)
Lemma recv_line_more st out l rest tl : recv_line_go st out = Received l rest → recv_line_go (st ++ tl) out = Received l (rest ++ tl).
Proof.
  revert out. induction st as [|[bs| | |] st IH]; intros out H; try discriminate H; [|by apply IH].
  cbn [app recv_line_go] in *. revert out H. induction bs as [|c bs IHb]; intros out; [apply IH|]. cbn. case_decide; [by intros [= <- <-]|].
  destruct (length out =? MAX_LINE); [done|]. apply IHb.
Qed.

Lemma recv_exact_more n st out l rest tl : recv_exact_go n st out = Received l rest → recv_exact_go n (st ++ tl) out = Received l (rest ++ tl).
Proof.
  revert n out. induction st as [|e st IH]; intros n out.
  - destruct n; [intros [= <- <-]; by destruct tl|done].
  - destruct n as [|n]; [by intros [= <- <-]|]. destruct e as [bs| | |]; try done; [|apply IH]. cbn [app recv_exact_go].
    destruct (length bs <=? S n); [apply IH|by intros [= <- <-]].
Qed.

(** A stream that delivers [text] and then [more], before the events [tl]. *)
Definition delivers (c : Conn) (text : bytes) (tl : list RecvEvent) : Prop :=
  ∃ st, cn_in c = st ++ tl ∧ clean st ∧ stream_bytes st = text.

(** The request comes off the stream; what is left starts at its body. *)
Lemma take_request_frame f c more tl : frame_ok f → delivers c (frame_bytes f ++ more) tl →
  ∃ rest, take_request c = Some (Request_of (wf_rid f) (wf_line f), c <| cn_in := rest |>) ∧
    delivers (c <| cn_in := rest |>) (wf_body f ++ more) tl.
Proof.
  intros Hf (st & Ein & Hc & E). unfold frame_bytes, line_bytes in E.
  rewrite sanitize_id, <- !app_assoc in E by by apply frame_text_eol. cbn [app] in E.
  assert (Hnl : NL ∉ frame_text f).
  { intros Hin. pose proof (frame_text_eol f Hf) as HF. rewrite Forall_forall in HF. by apply HF in Hin. }
  destruct (recv_line_clean st [] (frame_text f) (wf_body f ++ more)) as (st' & H1 & H2 & H3); [done|done|done|apply Hf|].
  exists (st' ++ tl). split; [|by exists st'; upd]. unfold take_request, take_line, recv_line. rewrite Ein.
  rewrite (recv_line_more _ _ _ _ tl H1). cbn [app mbind option_bind].
  assert (Ecr : strip_cr (frame_text f) = frame_text f).
  { rewrite <- (sanitize_id (frame_text f)) by by apply frame_text_eol. apply strip_cr_sanitize. }
  rewrite Ecr, split_frame by done. case_bool_decide as Hn; [by rewrite Hn|done].
Qed.

Lemma take_body_clean body c more tl : delivers c (body ++ more) tl →
  ∃ rest, take_body (N.of_nat (length body)) c = Some (inr body, c <| cn_in := rest |>) ∧ delivers (c <| cn_in := rest |>) more tl.
Proof.
  intros (st & Ein & Hc & E). destruct (recv_exact_clean (length body) st [] body more Hc E eq_refl) as (st' & H1 & H2 & H3).
  exists (st' ++ tl). split; [|by exists st'; upd]. unfold take_body, recv_exact. rewrite Nat2N.id, Ein.
  by rewrite (recv_exact_more _ _ _ _ _ tl H1).
Qed.

Lemma drop_body_clean body c more tl : delivers c (body ++ more) tl →
  ∃ rest, drop_body (N.of_nat (length body)) c = Some (true, c <| cn_in := rest |>) ∧ delivers (c <| cn_in := rest |>) more tl.
Proof.
  intros (st & Ein & Hc & E). destruct (recv_exact_clean (length body) st [] body more Hc E eq_refl) as (st' & H1 & H2 & H3).
  exists (st' ++ tl). split; [|by exists st'; upd]. unfold drop_body, recv_discard, recv_exact. rewrite Nat2N.id, Ein.
  by rewrite (recv_exact_more _ _ _ _ _ tl H1).
Qed.

(** After the last request the peer closes. *)
Lemma take_request_closed c : delivers c [] [RecvClosed] → ∃ rest, take_request c = Some (Gone E0, c <| cn_in := rest |>).
Proof.
  intros (st & Ein & Hc & E). exists []. unfold take_request, take_line, recv_line. rewrite Ein. clear Ein.
  assert (Hgo : recv_line_go (st ++ [RecvClosed]) [] = RecvFailed E0); [|by rewrite Hgo].
  induction Hc as [|[bs| | |] st He Hc IH]; try done; [|by apply IH].
  change (stream_bytes (RecvData bs :: st)) with (bs ++ stream_bytes st) in E. apply app_nil in E as [-> E]. by apply IH.
Qed.

(** ** A peer that keeps reading *)

(** Every call accepts some bytes, and there are enough of them. *)
Definition accepts (n : nat) (calls : list SendEvent) : Prop :=
  Forall (λ e, match e with SendSome _ => True | _ => False end) calls ∧ n ≤ length calls.

Lemma send_all_accepts data calls : accepts (length data) calls →
  ∃ calls', send_all data calls = Some (data, inr calls') ∧ ∀ m, accepts (length data + m) calls → accepts m calls'.
Proof.
  intros [Hf Hlen]. revert data Hlen. induction Hf as [|e calls He Hf IH]; intros data Hlen.
  - assert (data = []) as -> by (apply length_zero_iff_nil; cbn in Hlen; lia). exists []. split; [done|]. by intros m Hm.
  - destruct e as [k| |]; try done. cbn [send_all]. case_bool_decide as Hd; [subst data; eexists; split; [reflexivity|]; by intros m|].
    destruct data as [|x data]; [done|]. destruct (IH (drop k data)) as (calls' & E & Hmore); [rewrite length_drop; cbn in Hlen; lia|].
    change (drop (S k) (x :: data)) with (drop k data). rewrite E. cbn [mbind option_bind]. exists calls'. split.
    + do 2 f_equal. cbn [take app]. by rewrite take_drop.
    + intros m [Hf' Hm]. apply Hmore. split; [by inversion Hf'|]. rewrite length_drop. cbn [length] in Hm. lia.
Qed.

Lemma put_bytes_accepts data c : accepts (length data) (cn_calls c) →
  ∃ calls, put_bytes data c = Some (true, mkConn (cn_in c) calls (cn_sent c ++ data)) ∧
    ∀ m, accepts (length data + m) (cn_calls c) → accepts m calls.
Proof.
  intros H. destruct (send_all_accepts data (cn_calls c) H) as (calls & E & Hm). exists calls. split; [|done].
  unfold put_bytes. by rewrite E.
Qed.

Lemma accepts_less n m calls : n ≤ m → accepts m calls → accepts n calls.
Proof. intros Hle [H1 H2]. split; [done|lia]. Qed.
