(* ===== verification/Store.v ===== *)
(** * Store: the chunk store of one node (store.h, store.cpp)

    The index in memory and the files on disk. A disk maps paths to contents;
    what the operating system answers to a call is an argument ([PutEnv],
    [StoreOpenEnv], the booleans of a removal and a drop). A drop is one step, as
    its lock is held throughout; so is a write, which takes the lock twice, to look
    and to list, and between the two only puts its own bytes under their name. A
    removal is two, [remove_index] and [remove_unlink], because the file goes after
    the lock has been let go of, and other operations may come between them. The
    theorems: the index is served
    unless a write comes between those two steps, a write survives a grace period,
    a crash inside a write loses nothing, and the ways the code departs from its
    comments. *)
From S2P Require Import Prelude Text Chord OrdMap.

Definition MAX_CHUNK : N := (512 * 1024)%N.
Definition SLASH : Ascii.ascii := chr 47.

Definition valid_key (key : bytes) : bool :=
  (length key =? 40) && forallb is_lower_hex key.

Section store.
Context {SH : Sha1}.

Definition chunk_key (b : bytes) : bytes := sha1 b.

(** ** State *)

Abbreviation Disk := (list (bytes * bytes)) (only parsing).

Record ChunkStore := mkChunkStore {
  st_dir : bytes;
  st_keys : list (bytes * unit);
  st_touched : list (bytes * Z);      (* when each chunk was last written *)
  st_opened : Z;
  st_next_tmp : N;
  st_bytes : N;
}.
#[export] Instance ChunkStore_eta : Eta ChunkStore := λ r,
  mkChunkStore (st_dir r) (st_keys r) (st_touched r) (st_opened r) (st_next_tmp r) (st_bytes r).

Inductive PutResult := Stored | AlreadyHeld | PutBadKey | TooLarge | HashMismatch | PutIoError.
#[export] Instance PutResult_eq_dec : EqDecision PutResult.
Proof. solve_decision. Defined.
Inductive GetResult := Found (out : bytes) | GetMissing | GetBadKey | GetIoError.
Inductive DropResult := Dropped (bytes : N) | TooYoung | NotHeld | DropBadKey.

Definition put_result_name (r : PutResult) : bytes :=
  match r with
  | Stored => lit "stored"
  | AlreadyHeld => lit "already held"
  | PutBadKey => lit "key must be 40 lowercase hexadecimal characters"
  | TooLarge => lit "chunk larger than " ++ dec MAX_CHUNK ++ lit " bytes"
  | HashMismatch => lit "bytes do not hash to the key"
  | PutIoError => lit "disk error"
  end.

(** ** Paths *)

Definition fan_dir (dir key : bytes) : bytes := dir ++ SLASH :: take 2 key.
Definition store_path (s : ChunkStore) (key : bytes) : bytes := fan_dir (st_dir s) key ++ SLASH :: key.
Definition tmp_path (s : ChunkStore) (key : bytes) : bytes :=
  st_dir s ++ lit "/tmp/" ++ key ++ lit "." ++ dec (st_next_tmp s).

(** The names in one directory. *)
Definition list_dir (path : bytes) (d : Disk) : list bytes :=
  omap (λ '(p, _),
    if starts_with (path ++ [SLASH]) p then
      let name := drop (length path + 1) p in
      if bool_decide (SLASH ∈ name) then None else Some name
    else None) d.

Definition HEX : bytes := lit "0123456789abcdef".
Definition fans : list bytes := a ← HEX; b ← HEX; [[a; b]].

(** ** Operations *)

Definition held_key (s : ChunkStore) (key : bytes) : bool :=
  match om_find key (st_keys s) with Some _ => true | None => false end.

(** What the system answers while the store is opened. *)
Record StoreOpenEnv := mkStoreOpenEnv {
  so_mkdir : bytes → bool; so_reads : bytes → bool; so_unlinks : bytes → bool; so_stats : bytes → bool }.

Definition read_dir (env : StoreOpenEnv) (path : bytes) (d : Disk) : list bytes :=
  if so_reads env path then list_dir path d else [].

Definition clear_tmp (dir : bytes) (env : StoreOpenEnv) (d : Disk) : N * Disk :=
  foldl (λ '(removed, d) name,
    let path := dir ++ lit "/tmp/" ++ name in
    if so_unlinks env path then ((removed + 1)%N, om_erase path d) else (removed, d))
    (0%N, d) (read_dir env (dir ++ lit "/tmp") d).

Definition file_size (d : Disk) (path : bytes) : N :=
  match om_find path d with Some c => N.of_nat (length c) | None => 0%N end.

(** The size [stat] gives, nothing if the call fails: [ok], or there is no file. *)
Definition stat_size (ok : bool) (d : Disk) (path : bytes) : N := if ok then file_size d path else 0%N.

Record Index := mkIndex { ix_keys : list (bytes * unit); ix_loaded : N; ix_foreign : N; ix_bytes : N }.

Definition index_name (dir : bytes) (env : StoreOpenEnv) (d : Disk) (ix : Index) '(sub, name) : Index :=
  if valid_key name && bool_decide (take 2 name = sub)
  then
    let path := dir ++ SLASH :: sub ++ SLASH :: name in
    mkIndex (om_set name () (ix_keys ix)) (ix_loaded ix + 1) (ix_foreign ix)
      (ix_bytes ix + stat_size (so_stats env path) d path)
  else mkIndex (ix_keys ix) (ix_loaded ix) (ix_foreign ix + 1) (ix_bytes ix).

Definition dir_names (dir : bytes) (env : StoreOpenEnv) (d : Disk) : list (bytes * bytes) :=
  sub ← fans; name ← read_dir env (dir ++ SLASH :: sub) d; [(sub, name)].

(** Every temporary file goes; the index is every correctly named file in its
    own fan-out directory. The flag: whether every directory could be made. *)
Definition store_open (s : ChunkStore) (d : Disk) (dir : bytes) (env : StoreOpenEnv) (now : Z)
    : bool * ChunkStore * Disk * bytes :=
  let s := s <| st_dir := dir |> <| st_opened := now |> in
  if negb (forallb (so_mkdir env) (dir :: (dir ++ lit "/tmp") :: ((λ sub, dir ++ SLASH :: sub) <$> fans)))
  then (false, s, d, [])
  else
    let '(removed, d) := clear_tmp dir env d in
    let ix := foldl (index_name dir env d) (mkIndex [] 0 0 0) (dir_names dir env d) in
    (true, s <| st_keys := ix_keys ix |> <| st_bytes := ix_bytes ix |>, d,
     dec (ix_loaded ix) ++ lit " chunks, " ++ dec removed ++
     lit " unfinished writes removed, " ++ dec (ix_foreign ix) ++ lit " other files ignored").

(** What the system calls of one write return. [pe_written] is how much of the
    body reached the file. *)
Record PutEnv := mkPutEnv {
  pe_open : bool; pe_written : nat; pe_sync : bool; pe_close : bool; pe_rename : bool;
  pe_unlink : bool; pe_dirsync : bool }.

Definition store_touch (s : ChunkStore) (key : bytes) (now : Z) : ChunkStore :=
  s <| st_touched := om_set key now (st_touched s) |>.

(** After the rename and the directory's flush: the index. *)
Definition put_commit (s : ChunkStore) (key body : bytes) (now : Z) : ChunkStore :=
  let s := if held_key s key then s
           else s <| st_keys := om_set key () (st_keys s) |>
                  <| st_bytes := (st_bytes s + N.of_nat (length body))%N |> in
  store_touch s key now.

(** The write itself: temporary file, flush, rename, flush of the directory. *)
Definition put_write (s : ChunkStore) (d : Disk) (key body : bytes) (env : PutEnv) : bool * ChunkStore * Disk :=
  let tmp := tmp_path s key in
  let s := s <| st_next_tmp := (st_next_tmp s + 1)%N |> in
  if negb (pe_open env) || match om_find tmp d with Some _ => true | None => false end then (false, s, d)
  else
    let d := om_set tmp (take (pe_written env) body) d in
    let gone d := if pe_unlink env then om_erase tmp d else d in
    if negb (length body <=? pe_written env) || negb (pe_sync env) || negb (pe_close env) then (false, s, gone d)
    else if negb (pe_rename env) then (false, s, gone d)
    else
      let d := om_set (store_path s key) body (om_erase tmp d) in
      (pe_dirsync env, s, d).

Definition store_put (s : ChunkStore) (d : Disk) (key body : bytes) (env : PutEnv) (now : Z)
    : PutResult * ChunkStore * Disk :=
  if negb (valid_key key) then (PutBadKey, s, d)
  else if (MAX_CHUNK <? N.of_nat (length body))%N then (TooLarge, s, d)
  else if negb (bool_decide (chunk_key body = key)) then (HashMismatch, s, d)
  else if held_key s key then (AlreadyHeld, store_touch s key now, d)
  else
    let '(ok, s, d) := put_write s d key body env in
    if negb ok then (PutIoError, s, d) else (Stored, put_commit s key body now, d).

(** [readable]: open and fstat succeed on a file that exists, and its bytes can be read. *)
Definition store_get (s : ChunkStore) (d : Disk) (key : bytes) (readable : bool) : GetResult :=
  if negb (valid_key key) then GetBadKey
  else match om_find (store_path s key) d with
       | None => GetMissing
       | Some c =>
           if negb readable then GetIoError
           else if (MAX_CHUNK <? N.of_nat (length c))%N then GetIoError else Found c
       end.

Definition store_has (s : ChunkStore) (key : bytes) : bool := held_key s key.
Definition store_keys (s : ChunkStore) : list bytes := (st_keys s).*1.
Definition store_keys_in_arc (s : ChunkStore) (from to : Id) : list bytes :=
  filter (λ key, match id_from_key key with Some id => in_range_oc id from to | None => false end = true)
    (store_keys s).
Definition store_keys_after (s : ChunkStore) (after : bytes) (limit : nat) : list bytes :=
  take limit (if bool_decide (after = []) then st_keys s else om_after after (st_keys s)).*1.

Definition forget_key (s : ChunkStore) (key : bytes) (size : N) : ChunkStore :=
  s <| st_keys := om_erase key (st_keys s) |>
    <| st_bytes := (st_bytes s - N.min size (st_bytes s))%N |>.

(** [store_remove], in the two steps it takes: the key leaves the index under the
    lock, and then, the lock let go of, the file goes. Both are for valid keys; the
    code refuses any other before it starts. *)
Definition remove_index (s : ChunkStore) (d : Disk) (key : bytes) (stats : bool) : ChunkStore :=
  let size := stat_size stats d (store_path s key) in
  if held_key s key then forget_key s key size else s.

Definition remove_unlink (s : ChunkStore) (d : Disk) (key : bytes) (unlinks : bool) : bool * Disk :=
  match om_find (store_path s key) d with
  | None => (true, d)
  | Some _ => if unlinks then (true, om_erase (store_path s key) d) else (false, d)
  end.

Definition store_drop (s : ChunkStore) (d : Disk) (key : bytes) (grace now : Z) (stats unlinks : bool)
    : DropResult * ChunkStore * Disk :=
  if negb (valid_key key) then (DropBadKey, s, d)
  else if negb (held_key s key) then (NotHeld, s, d)
  else
    let written := default (st_opened s) (om_find key (st_touched s)) in
    if (now - written <? grace)%Z then (TooYoung, s, d)
    else
      let size := stat_size stats d (store_path s key) in
      (Dropped size,
       (forget_key s key size) <| st_touched := om_erase key (st_touched s) |>,
       if unlinks then om_erase (store_path s key) d else d).

Definition store_forget_old (s : ChunkStore) (grace now : Z) : ChunkStore :=
  s <| st_touched := filter (λ x, ¬ (grace <= now - x.2)%Z) (st_touched s) |>.

(** ** Paths do not collide *)

Lemma valid_key_length key : valid_key key = true → length key = 40.
Proof. intros [E _]%andb_true_iff. by apply Nat.eqb_eq. Qed.

Lemma valid_key_hex key c : valid_key key = true → c ∈ key → is_lower_hex c = true.
Proof. intros [_ E]%andb_true_iff Hc. apply forallb_Forall in E. rewrite Forall_forall in E. by apply E. Qed.

Lemma valid_key_split key : valid_key key = true → ∃ a b r, key = a :: b :: r.
Proof. intros E%valid_key_length. destruct key as [|a [|b r]]; try done. by exists a, b, r. Qed.

Lemma slash_not_hex : is_lower_hex SLASH = false.
Proof. reflexivity. Qed.

Lemma valid_key_no_slash key : valid_key key = true → SLASH ∉ key.
Proof. intros E H%(valid_key_hex _ _ E). by rewrite slash_not_hex in H. Qed.

Lemma valid_key_no_space key : valid_key key = true → SPACE ∉ key.
Proof. intros H Hin. by pose proof (valid_key_hex _ _ H Hin). Qed.

Lemma store_path_inj s key key' : valid_key key = true → valid_key key' = true →
  store_path s key = store_path s key' → key = key'.
Proof.
  intros E%valid_key_split E'%valid_key_split. unfold store_path, fan_dir.
  destruct E as (a & b & r & ->), E' as (a' & b' & r' & ->). cbn. rewrite <- !app_assoc. cbn.
  intros E%app_inv_head. by simplify_eq.
Qed.

Lemma tmp_not_final dir rest key : valid_key key = true →
  dir ++ lit "/tmp/" ++ rest ≠ fan_dir dir key ++ SLASH :: key.
Proof.
  intros Hv. pose proof (valid_key_split _ Hv) as (a & b & r & ->). unfold fan_dir. cbn.
  rewrite <- app_assoc. cbn. intros E%app_inv_head. injection E as <- _ _.
  pose proof (valid_key_hex _ (chr 116) Hv ltac:(apply elem_of_cons; by left)) as Ht. done.
Qed.

(** ** The invariant

    A file under a final name hashes to that name and is no larger than a chunk;
    [whole]: the index names files that exist, unless a removal has unlinked a file
    written since; [exact]: the total is what the index holds, unless besides a
    size could not be read. *)

Definition indexed_bytes (s : ChunkStore) (d : Disk) : N := om_sum (λ key, file_size d (store_path s key)) (st_keys s).

Record store_inv (whole exact : bool) (s : ChunkStore) (d : Disk) : Prop := mkStoreInv {
  so_keys : om_ok (st_keys s);
  so_disk : om_ok d;
  so_valid : ∀ key, key ∈ store_keys s → valid_key key = true;
  si_file : whole = true → ∀ key, key ∈ store_keys s → is_Some (om_find (store_path s key) d);
  so_hash : ∀ key c, valid_key key = true → om_find (store_path s key) d = Some c →
    chunk_key c = key ∧ (N.of_nat (length c) <= MAX_CHUNK)%N;
  so_total : exact = true → st_bytes s = indexed_bytes s d;
}.
Arguments so_keys {whole exact} s d. Arguments so_disk {whole exact} s d. Arguments so_valid {whole exact} s d.
Arguments si_file {whole exact} s d. Arguments so_hash {whole exact} s d. Arguments so_total {whole exact} s d.
Abbreviation store_ok := (store_inv true false).

Lemma so_file {e} s d : store_inv true e s d → ∀ key, key ∈ store_keys s → is_Some (om_find (store_path s key) d).
Proof. intros H. by apply (si_file _ _ H). Qed.

Lemma store_inv_weaken (w e w' e' : bool) s d : (w' = true → w = true) → (e' = true → e = true) →
  store_inv w e s d → store_inv w' e' s d.
Proof. intros Hw He [Hk Hd Hv Hf Hh Ht]. split; naive_solver. Qed.

Lemma held_key_true s key : held_key s key = true ↔ key ∈ store_keys s.
Proof. unfold held_key, store_keys. rewrite <- om_find_fst. destruct (om_find key (st_keys s)); naive_solver. Qed.

(** A change that the index and the final names do not see. *)
Lemma store_inv_same w e s d s' d' :
  store_inv w e s d → om_ok d' → st_dir s' = st_dir s → st_keys s' = st_keys s → st_bytes s' = st_bytes s →
  (∀ key, valid_key key = true → om_find (store_path s key) d' = om_find (store_path s key) d) →
  store_inv w e s' d'.
Proof.
  intros [Hk Hd Hv Hf Hh Ht] Hd' Ed Ek Eb Hsame.
  assert (Hp : ∀ key, store_path s' key = store_path s key) by (intros; unfold store_path; by rewrite Ed).
  split; unfold store_keys, indexed_bytes; rewrite ?Ek; try done.
  - intros Ew key Hkey. rewrite Hp, Hsame; [by apply Hf|by apply Hv].
  - intros key c Hkey. rewrite Hp, Hsame by done. by apply Hh.
  - intros Ee. rewrite Eb, Ht by done. apply om_sum_ext. intros key Hkey. unfold file_size. rewrite Hp, Hsame; [done|by apply Hv].
Qed.

Lemma store_touch_ok w e s d key now : store_inv w e s d → store_inv w e (store_touch s key now) d.
Proof. intros H. eapply store_inv_same; [exact H|apply H|..]; done. Qed.

Lemma store_forget_old_ok w e s d grace now : store_inv w e s d → store_inv w e (store_forget_old s grace now) d.
Proof. intros H. eapply store_inv_same; [exact H|apply H|..]; done. Qed.

(** A write that failed before its rename leaves every final name as it was. *)
Lemma tmp_only s (d d' : Disk) key n :
  (∀ p, p ≠ st_dir s ++ lit "/tmp/" ++ key ++ lit "." ++ n → om_find p d' = om_find p d) →
  ∀ key', valid_key key' = true → om_find (store_path s key') d' = om_find (store_path s key') d.
Proof. intros H key' Hv. apply H. intros E. symmetry in E. by apply tmp_not_final in E. Qed.

(** What [put_write] leaves: the final names unchanged, or the whole body under
    its key; success only in the second case. *)
Lemma put_write_disk s d key body env ok s' d' :
  put_write s d key body env = (ok, s', d') → om_ok d → valid_key key = true →
  om_ok d' ∧ s' = s <| st_next_tmp := (st_next_tmp s + 1)%N |> ∧
  ((ok = false ∧ ∀ key', valid_key key' = true → om_find (store_path s key') d' = om_find (store_path s key') d) ∨
   (∀ key', valid_key key' = true →
      om_find (store_path s key') d' = if decide (key' = key) then Some body else om_find (store_path s key') d)).
Proof.
  unfold put_write. intros E Hd Hv.
  destruct (negb (pe_open env) || _) eqn:Eo; [by simplify_eq; repeat split; auto|].
  set (tmp := tmp_path s key) in *.
  assert (Hgone : om_ok (if pe_unlink env then om_erase tmp (om_set tmp (take (pe_written env) body) d)
                         else om_set tmp (take (pe_written env) body) d)).
  { destruct (pe_unlink env); [apply om_erase_ok|]; by apply om_set_ok. }
  assert (Hsame : ∀ key', valid_key key' = true →
    om_find (store_path s key') (if pe_unlink env then om_erase tmp (om_set tmp (take (pe_written env) body) d)
                         else om_set tmp (take (pe_written env) body) d) = om_find (store_path s key') d).
  { apply (tmp_only s _ _ key (dec (st_next_tmp s))). intros p Hp. fold (tmp_path s key) in Hp. fold tmp in Hp.
    destruct (pe_unlink env); rewrite ?om_find_erase, ?om_find_set, ?decide_False by done; done. }
  destruct (_ || negb (pe_close env)); [simplify_eq; repeat split; [done|by left]|].
  destruct (negb (pe_rename env)); [simplify_eq; repeat split; [done|by left]|].
  simplify_eq. split; [by apply om_set_ok, om_erase_ok, om_set_ok|]. split; [done|]. right. intros key' Hv'.
  rewrite om_find_set. unfold store_path, fan_dir. upd. fold (fan_dir (st_dir s) key') (store_path s key').
  fold (fan_dir (st_dir s) key) (store_path s key). destruct (decide (key' = key)) as [->|Hne]; [by rewrite decide_True|].
  rewrite decide_False by (intros E; by apply store_path_inj in E). rewrite om_find_erase, om_find_set.
  rewrite !decide_False; [done|..]; intros E; symmetry in E; by apply tmp_not_final in E.
Qed.

(** A file that appears, whole, under its key, indexed at once or not at all. *)
Lemma put_ok w e s d d' key body (s' : ChunkStore) :
  store_inv w e s d → om_ok d' → valid_key key = true → chunk_key body = key →
  (N.of_nat (length body) <= MAX_CHUNK)%N → key ∉ store_keys s → st_dir s' = st_dir s →
  (∀ key', valid_key key' = true →
     om_find (store_path s key') d' = if decide (key' = key) then Some body else om_find (store_path s key') d) →
  (st_keys s' = st_keys s ∧ st_bytes s' = st_bytes s ∨
   st_keys s' = om_set key () (st_keys s) ∧ st_bytes s' = (st_bytes s + N.of_nat (length body))%N) →
  store_inv w e s' d'.
Proof.
  intros [Hk Hd Hv Hf Hh Ht] Hd' Hkey Hhash Hlen Hnew Ed Hdisk Hcase.
  assert (Hp : ∀ key, store_path s' key = store_path s key) by (intros; unfold store_path; by rewrite Ed).
  assert (Hsub : ∀ k, k ∈ store_keys s' → k = key ∨ k ∈ store_keys s).
  { intros k. unfold store_keys. destruct Hcase as [[-> _]|[-> _]]; [by right|]. by rewrite om_set_fst. }
  assert (Hsum : om_sum (λ k, file_size d' (store_path s' k)) (st_keys s) = indexed_bytes s d).
  { apply om_sum_ext. intros k Hin. unfold file_size. rewrite Hp, Hdisk by (by apply Hv).
    rewrite decide_False; [done|]. intros ->. by apply Hnew. }
  split; try done.
  - destruct Hcase as [[-> _]|[-> _]]; [done|by apply om_set_ok].
  - intros k [->|Hin]%Hsub; [done|by apply Hv].
  - intros Ew k Hin. rewrite Hp. apply Hsub in Hin.
    rewrite Hdisk by (destruct Hin as [->|Hin]; [done|by apply Hv]). case_decide; [by eexists|].
    destruct Hin as [->|Hin]; [done|by apply Hf].
  - intros k c Hvk. rewrite Hp, Hdisk by done. case_decide as Ek; [intros [= <-]; by subst k|by apply Hh].
  - intros Ee. unfold indexed_bytes. destruct Hcase as [[-> ->]|[-> ->]]; [rewrite Hsum; by apply Ht|].
    rewrite om_sum_set by done. rewrite Hsum, Ht by done. unfold file_size. rewrite Hp, Hdisk, decide_True by done. lia.
Qed.

Lemma put_commit_fields s key body now : key ∉ store_keys s →
  st_dir (put_commit s key body now) = st_dir s ∧
  st_keys (put_commit s key body now) = om_set key () (st_keys s) ∧
  st_bytes (put_commit s key body now) = (st_bytes s + N.of_nat (length body))%N.
Proof.
  intros Hn. unfold put_commit. destruct (held_key s key) eqn:E; [by apply held_key_true in E|]. done.
Qed.

Lemma store_put_ok w e s d key body env now r s' d' :
  store_inv w e s d → store_put s d key body env now = (r, s', d') → store_inv w e s' d'.
Proof.
  intros Hok. unfold store_put.
  destruct (valid_key key) eqn:Hv; cbn [negb]; [|by intros [= _ <- <-]].
  destruct (_ <? _)%N eqn:Hlen; [by intros [= _ <- <-]|]. case_bool_decide as Hhash; cbn [negb]; [|by intros [= _ <- <-]].
  destruct (held_key s key) eqn:Hh; [intros [= _ <- <-]; by apply store_touch_ok|].
  assert (Hnew : key ∉ store_keys s) by (intros X%held_key_true; congruence).
  destruct (put_write s d key body env) as [[ok s1] d1] eqn:Ew.
  apply put_write_disk in Ew as (Hd1 & -> & Hw); [|apply Hok|done]. apply N.ltb_ge in Hlen.
  destruct ok; cbn [negb]; intros [= _ <- <-].
  - destruct Hw as [[? _]|Hw]; [done|].
    set (s1 := s <| st_next_tmp := (st_next_tmp s + 1)%N |>).
    destruct (put_commit_fields s1 key body now Hnew) as (E1 & E2 & E3).
    eapply (put_ok w e s d d1 key body); try done. by right.
  - destruct Hw as [[_ Hw]|Hw]; [by eapply store_inv_same|].
    eapply (put_ok w e s d d1 key body); try done. by left.
Qed.

(** The key leaves the index; its file goes, or stays behind unindexed. *)
Lemma forget_key_ok w e s d d' key (s' : ChunkStore) :
  store_inv w e s d → om_ok d' → key ∈ store_keys s → st_dir s' = st_dir s →
  st_keys s' = om_erase key (st_keys s) →
  (e = true → st_bytes s' = (st_bytes s - N.min (file_size d (store_path s key)) (st_bytes s))%N) →
  (∀ key', valid_key key' = true → om_find (store_path s key') d' = om_find (store_path s key') d ∨
     key' = key ∧ om_find (store_path s key') d' = None) →
  store_inv w e s' d'.
Proof.
  intros [Hk Hd Hv Hf Hh Ht] Hd' Hin Ed Ek Eb Hdisk.
  assert (Hp : ∀ key, store_path s' key = store_path s key) by (intros; unfold store_path; by rewrite Ed).
  assert (Hsub : ∀ k, k ∈ store_keys s' → k ∈ store_keys s ∧ om_find (store_path s k) d' = om_find (store_path s k) d).
  { intros k. unfold store_keys. rewrite Ek, om_erase_fst. intros [Hne Hink]. split; [done|].
    destruct (Hdisk k) as [|[-> _]]; [by apply Hv|done|done]. }
  split; try done.
  - rewrite Ek. by apply om_erase_ok.
  - intros k [Hink _]%Hsub. by apply Hv.
  - intros Ew k [Hink E]%Hsub. rewrite Hp, E. by apply Hf.
  - intros k c Hvk. rewrite Hp. destruct (Hdisk k Hvk) as [->|[_ ->]]; [by apply Hh|done].
  - intros Ee. rewrite Eb, Ht by done. unfold indexed_bytes.
    rewrite <- (om_sum_erase _ key (st_keys s)) by done. rewrite Ek.
    rewrite (om_sum_ext (λ k, file_size d' (store_path s' k)) (λ k, file_size d (store_path s k))); [lia|].
    intros k Hink. unfold file_size. rewrite Hp. rewrite (proj2 (Hsub k ltac:(unfold store_keys; by rewrite Ek))). done.
Qed.

Lemma erase_final s (d : Disk) key key' :
  valid_key key = true → valid_key key' = true →
  om_find (store_path s key') (om_erase (store_path s key) d) = om_find (store_path s key') d ∨
  key' = key ∧ om_find (store_path s key') (om_erase (store_path s key) d) = None.
Proof.
  intros Hv Hv'. rewrite om_find_erase. case_decide as E; [|by left]. right. split; [|done]. by apply store_path_inj in E.
Qed.

Lemma store_drop_ok w e s d key grace now stats unlinks r s' d' : (e = true → stats = true) →
  store_inv w e s d → store_drop s d key grace now stats unlinks = (r, s', d') → store_inv w e s' d'.
Proof.
  intros He Hok. unfold store_drop.
  destruct (valid_key key) eqn:Hv; cbn [negb]; [|by intros [= _ <- <-]].
  destruct (held_key s key) eqn:Hh; cbn [negb]; [|by intros [= _ <- <-]]. apply held_key_true in Hh.
  destruct (_ <? _)%Z; [by intros [= _ <- <-]|]. intros [= _ <- <-].
  eapply forget_key_ok; eauto.
  - destruct unlinks; [apply om_erase_ok|]; apply Hok.
  - intros Ee. unfold stat_size. by rewrite He.
  - intros key' Hv'. destruct unlinks; [by apply erase_final|by left].
Qed.

(** The first half of a removal. *)
Lemma remove_index_keys s d key stats :
  st_dir (remove_index s d key stats) = st_dir s ∧ st_keys (remove_index s d key stats) = om_erase key (st_keys s) ∨
  held_key s key = false ∧ remove_index s d key stats = s.
Proof. unfold remove_index. destruct (held_key s key); [by left|by right]. Qed.

Lemma remove_index_dir s d key stats : st_dir (remove_index s d key stats) = st_dir s.
Proof. unfold remove_index. by destruct (held_key s key). Qed.

Lemma remove_index_ok w e s d key stats : (e = true → stats = true) →
  store_inv w e s d → store_inv w e (remove_index s d key stats) d.
Proof.
  intros He Hok. unfold remove_index. destruct (held_key s key) eqn:Hh; [|done]. apply held_key_true in Hh.
  eapply forget_key_ok; eauto; [apply Hok|intros Ee; unfold stat_size; by rewrite He].
Qed.

Lemma remove_index_unlists w e s d key stats : store_inv w e s d → held_key (remove_index s d key stats) key = false.
Proof.
  intros Hok. apply not_true_is_false. intros Hin. destruct (remove_index_keys s d key stats) as [[_ Ek]|[Hh E]]; [|congruence].
  apply held_key_true in Hin. unfold store_keys in Hin. rewrite Ek in Hin. by apply om_erase_fst in Hin as [? _].
Qed.

(** The second half, of a key that is not listed, or in a store that no longer
    counts on its files. *)
Lemma remove_unlink_ok w e s d key unlinks : valid_key key = true →
  (w = true ∨ e = true → held_key s key = false) → store_inv w e s d → store_inv w e s (remove_unlink s d key unlinks).2.
Proof.
  intros Hv Hcalm Hok. unfold remove_unlink. destruct (om_find (store_path s key) d); [|done]. destruct unlinks; [|done].
  destruct Hok as [Hk Hd Hvv Hf Hh Ht]. cbn [snd].
  assert (Hs : w = true ∨ e = true → ∀ k, k ∈ store_keys s → om_find (store_path s k) (om_erase (store_path s key) d) = om_find (store_path s k) d).
  { intros Hwe%Hcalm k Hin. destruct (erase_final s d key k Hv (Hvv k Hin)) as [|[-> _]]; [done|].
    apply held_key_true in Hin. congruence. }
  split; try done.
  - by apply om_erase_ok.
  - intros Ew k Hin. rewrite Hs by auto. by apply Hf.
  - intros k c Hvk. destruct (erase_final s d key k Hv Hvk) as [->|[_ ->]]; [by apply Hh|done].
  - intros Ee. rewrite Ht by done. apply om_sum_ext. intros k Hin. unfold file_size. rewrite Hs; auto.
Qed.

(** ** Opening *)

Lemma elem_of_list_dir path (d : Disk) name :
  name ∈ list_dir path d ↔ path ++ SLASH :: name ∈ d.*1 ∧ SLASH ∉ name.
Proof.
  unfold list_dir. rewrite list_elem_of_omap. split.
  - intros ([p c] & Hin & E). destruct (starts_with (path ++ [SLASH]) p) eqn:Es; [|done].
    case_bool_decide; simplify_eq. apply starts_with_Some in Es. rewrite length_app in Es. change (length [SLASH]) with 1 in Es.
    split; [|done]. rewrite (cons_middle SLASH), app_assoc, <- Es. apply list_elem_of_fmap. by exists (p, c).
  - intros [([p c] & Ep & Hin)%list_elem_of_fmap Hn]. cbn in Ep. subst p. exists (path ++ SLASH :: name, c).
    split; [done|]. cbv beta iota.
    replace (path ++ SLASH :: name) with ((path ++ [SLASH]) ++ name) by (by rewrite <- app_assoc).
    rewrite starts_with_app. cbv zeta.
    rewrite drop_app_length' by (rewrite length_app; cbn; lia). by rewrite bool_decide_false.
Qed.

Lemma list_dir_nodup path (d : Disk) : NoDup d.*1 → NoDup (list_dir path d).
Proof.
  induction d as [|[p c] d IH]; intros Hnd; [by constructor|]. cbn in Hnd. apply NoDup_cons in Hnd as [Hp Hnd].
  unfold list_dir. cbn [omap list_omap]. fold (list_dir path d).
  destruct (starts_with (path ++ [SLASH]) p) eqn:Es; [|by apply IH]. case_bool_decide as Hs; [by apply IH|].
  apply NoDup_cons. split; [|by apply IH]. rewrite elem_of_list_dir. intros [Hin _]. apply Hp.
  apply starts_with_Some in Es. rewrite length_app in Es. change (length [SLASH]) with 1 in Es.
  by rewrite (cons_middle SLASH), app_assoc, <- Es in Hin.
Qed.

Lemma elem_of_dir_names dir env (d : Disk) sub name :
  (sub, name) ∈ dir_names dir env d ↔
  so_reads env (dir ++ SLASH :: sub) = true ∧ sub ∈ fans ∧ dir ++ SLASH :: sub ++ SLASH :: name ∈ d.*1 ∧ SLASH ∉ name.
Proof.
  unfold dir_names, read_dir. rewrite list_elem_of_bind. split.
  - intros (sub' & (name' & Hin%list_elem_of_singleton & Hname)%list_elem_of_bind & Hsub). simplify_eq.
    destruct (so_reads env _); [|by apply elem_of_nil in Hname].
    apply elem_of_list_dir in Hname. by rewrite <- app_assoc in Hname.
  - intros (Hr & Hsub & Hin & Hs). exists sub. split; [|done]. apply list_elem_of_bind. exists name.
    split; [by apply list_elem_of_singleton|]. rewrite Hr. apply elem_of_list_dir. by rewrite <- app_assoc.
Qed.

Lemma fans_nodup : NoDup fans.
Proof. apply (bool_decide_unpack _). vm_compute. done. Qed.

Lemma dir_names_nodup dir env (d : Disk) : NoDup d.*1 → NoDup (dir_names dir env d).
Proof.
  intros Hnd. unfold dir_names. apply NoDup_bind; [| |apply fans_nodup].
  - intros s1 s2 [s n] _ _ (? & ->%list_elem_of_singleton & _)%list_elem_of_bind
      (? & ?%list_elem_of_singleton & _)%list_elem_of_bind. by simplify_eq.
  - intros sub _. apply NoDup_bind; [| |].
    + intros n1 n2 y _ _ ->%list_elem_of_singleton ?%list_elem_of_singleton. by simplify_eq.
    + intros n _. apply NoDup_singleton.
    + unfold read_dir. destruct (so_reads env _); [by apply list_dir_nodup|by constructor].
Qed.

Lemma fan_of_key key : valid_key key = true → take 2 key ∈ fans.
Proof.
  intros Hv. destruct (valid_key_split _ Hv) as (a & b & r & ->). change (take 2 (a :: b :: r)) with [a; b].
  assert (Hhex : ∀ c, is_lower_hex c = true → c ∈ HEX).
  { intros c. apply (bool_decide_unpack _). destruct c as [[] [] [] [] [] [] [] []]; vm_compute; done. }
  unfold fans. apply list_elem_of_bind. exists a. split; [|apply Hhex, (valid_key_hex _ _ Hv), elem_of_cons; by left].
  apply list_elem_of_bind. exists b. split; [by apply list_elem_of_singleton|].
  apply Hhex, (valid_key_hex _ _ Hv). rewrite !elem_of_cons. tauto.
Qed.

(** The index the loop builds from a list of distinct names. *)
Lemma index_names_spec dir env (d : Disk) names :
  NoDup names →
  let ix := foldl (index_name dir env d) (mkIndex [] 0 0 0) names in
  om_ok (ix_keys ix) ∧
  (∀ key, key ∈ (ix_keys ix).*1 ↔ valid_key key = true ∧ (take 2 key, key) ∈ names) ∧
  ((∀ p, so_stats env p = true) → ix_bytes ix = om_sum (λ key, file_size d (fan_dir dir key ++ SLASH :: key)) (ix_keys ix)).
Proof.
  induction names as [|[sub name] names IH] using rev_ind; intros Hnd.
  { cbn. split_and!; [by constructor| |done]. intros key. rewrite !elem_of_nil. tauto. }
  apply NoDup_app in Hnd as (Hnd & Hnew & _). specialize (IH Hnd) as (Hok & Hk & Hb). rewrite foldl_snoc.
  set (ix := foldl _ _ names) in *. clearbody ix. unfold index_name. cbv zeta.
  destruct (valid_key name && bool_decide (take 2 name = sub)) eqn:E; cbn [ix_keys ix_bytes].
  - apply andb_true_iff in E as [Hv Hs%bool_decide_eq_true]. subst sub. split_and!; [by apply om_set_ok| |].
    + intros key. rewrite om_set_fst, Hk, elem_of_app, list_elem_of_singleton. naive_solver.
    + intros Hst. unfold stat_size. rewrite Hst, om_sum_set, <- Hb;
        [cbv beta; unfold fan_dir; rewrite <- app_assoc, <- app_comm_cons; lia|done|].
      rewrite Hk. intros [_ Hin]. apply (Hnew _ Hin). by apply list_elem_of_singleton.
  - split_and!; [done| |done]. intros key. rewrite Hk, elem_of_app, list_elem_of_singleton.
    split; [naive_solver|]. intros [Hv [Hin|E']]; [done|]. simplify_eq. by rewrite Hv, bool_decide_true in E.
Qed.

Lemma clear_tmp_disk dir env d removed d' :
  clear_tmp dir env d = (removed, d') → om_ok d →
  om_ok d' ∧ ∀ key, valid_key key = true → om_find (fan_dir dir key ++ SLASH :: key) d' = om_find (fan_dir dir key ++ SLASH :: key) d.
Proof.
  unfold clear_tmp. generalize (read_dir env (dir ++ lit "/tmp") d). intros names.
  revert removed d'. induction names as [|name names IH] using rev_ind; intros removed d'; [by intros [= <- <-]|].
  rewrite foldl_snoc. destruct (foldl _ _ names) as [n d1]. intros E Hok.
  destruct (IH n d1 eq_refl Hok) as [Hok1 H1]. destruct (so_unlinks env _); simplify_eq; [|done].
  split; [by apply om_erase_ok|]. intros key Hv. rewrite om_find_erase, decide_False; [by apply H1|].
  intros E. symmetry in E. by apply tmp_not_final in E.
Qed.

(** The disk a store may be opened on: what sits under a final name is a chunk. *)
Definition chunks_ok (dir : bytes) (d : Disk) : Prop :=
  om_ok d ∧ ∀ key c, valid_key key = true → om_find (fan_dir dir key ++ SLASH :: key) d = Some c →
    chunk_key c = key ∧ (N.of_nat (length c) <= MAX_CHUNK)%N.

Lemma store_ok_chunks w e s d : store_inv w e s d → chunks_ok (st_dir s) d.
Proof. intros [Hk Hd Hv Hf Hh Ht]. split; [done|]. exact Hh. Qed.

(** What an opened store lists: files that are there, and all of them where every
    directory could be read. *)
Lemma store_open_index s d dir env now s' d' report :
  store_open s d dir env now = (true, s', d', report) → om_ok d →
  om_ok d' ∧ st_dir s' = dir ∧ om_ok (st_keys s') ∧
  ((∀ p, so_stats env p = true) → st_bytes s' = indexed_bytes s' d') ∧
  (∀ key, key ∈ store_keys s' ↔
     so_reads env (fan_dir dir key) = true ∧ valid_key key = true ∧ is_Some (om_find (fan_dir dir key ++ SLASH :: key) d)) ∧
  (∀ key, valid_key key = true →
     om_find (fan_dir dir key ++ SLASH :: key) d' = om_find (fan_dir dir key ++ SLASH :: key) d).
Proof.
  intros E Hd. unfold store_open in E. destruct (negb _); [done|].
  destruct (clear_tmp dir env d) as [removed d1] eqn:Ec. apply clear_tmp_disk in Ec as [Hd1 Hsame]; [|done].
  pose proof (dir_names_nodup dir env d1 (om_ok_nodup _ Hd1)) as Hnd.
  destruct (index_names_spec dir env d1 _ Hnd) as (Hok & Hk & Hb).
  set (ix := foldl _ _ _) in *. clearbody ix. simplify_eq. split_and!; try done.
  intros key. unfold store_keys. upd. rewrite Hk, elem_of_dir_names.
  split.
  - intros (Hv & Hr & _ & Hin & _). split; [done|]. split; [done|]. rewrite <- Hsame by done. apply om_find_fst. unfold fan_dir.
    by rewrite <- app_assoc.
  - intros (Hr & Hv & Hf). split; [done|]. rewrite <- Hsame in Hf by done. apply om_find_fst in Hf. unfold fan_dir in Hf.
    rewrite <- app_assoc in Hf. split_and!; [done|by apply fan_of_key|done|by apply valid_key_no_slash].
Qed.

Lemma store_open_inv e s d dir env now s' d' report :
  store_open s d dir env now = (true, s', d', report) → chunks_ok dir d → (e = true → ∀ p, so_stats env p = true) →
  store_inv true e s' d'.
Proof.
  intros E [Hd Hc] He. destruct (store_open_index _ _ _ _ _ _ _ _ E Hd) as (Hd' & Edir & Hok & Hb & Hk & Hsame).
  assert (Hp : ∀ key, store_path s' key = fan_dir dir key ++ SLASH :: key) by (intros; unfold store_path; by rewrite Edir).
  split; try done.
  - by intros key (_ & Hv & _)%Hk.
  - intros _ key (_ & Hv & Hf)%Hk. by rewrite Hp, Hsame.
  - intros key c Hv. rewrite Hp, Hsame by done. by apply Hc.
  - intros Ee. by apply Hb, He.
Qed.

Lemma store_open_ok s d dir env now s' d' report :
  store_open s d dir env now = (true, s', d', report) → chunks_ok dir d → store_ok s' d'.
Proof. intros E Hc. by eapply store_open_inv. Qed.

(** ** Runs of operations

    In the order in which the lock and the disk see them: a removal's two steps
    with any operations in between. *)

Inductive StoreOp :=
  | OpPut (key body : bytes) (env : PutEnv)
  | OpUnlist (key : bytes) (stats : bool)
  | OpUnlink (key : bytes) (unlinks : bool)
  | OpDrop (key : bytes) (grace : Z) (stats unlinks : bool)
  | OpForget (grace : Z).

Definition store_op (sd : ChunkStore * Disk) (now : Z) (o : StoreOp) : ChunkStore * Disk :=
  let '(s, d) := sd in
  match o with
  | OpPut key body env => let '(_, s, d) := store_put s d key body env now in (s, d)
  | OpUnlist key stats => if valid_key key then (remove_index s d key stats, d) else (s, d)
  | OpUnlink key unlinks => if valid_key key then (s, (remove_unlink s d key unlinks).2) else (s, d)
  | OpDrop key grace stats unlinks => let '(_, s, d) := store_drop s d key grace now stats unlinks in (s, d)
  | OpForget grace => (store_forget_old s grace now, d)
  end.

Definition store_run (sd : ChunkStore * Disk) (ops : list (Z * StoreOp)) : ChunkStore * Disk :=
  foldl (λ sd '(now, o), store_op sd now o) sd ops.

(** No removal unlinks the file of a key that a write has listed since. *)
Definition calm_op (s : ChunkStore) (o : StoreOp) : Prop :=
  match o with OpUnlink key _ => held_key s key = false | _ => True end.
Fixpoint calm (sd : ChunkStore * Disk) (ops : list (Z * StoreOp)) : Prop :=
  match ops with [] => True | (now, o) :: ops => calm_op sd.1 o ∧ calm (store_op sd now o) ops end.

(** Every size asked for was told. *)
Definition op_stats (o : StoreOp) : bool :=
  match o with OpUnlist _ stats | OpDrop _ _ stats _ => stats | _ => true end.

Lemma store_op_inv w e s d now o : (w = true ∨ e = true → calm_op s o) → (e = true → op_stats o = true) →
  store_inv w e s d → store_inv w e (store_op (s, d) now o).1 (store_op (s, d) now o).2.
Proof.
  intros Hcalm He Hok. destruct o as [key body env|key st|key u|key grace st u|grace]; cbn [store_op op_stats calm_op] in *.
  - destruct (store_put _ _ _ _ _ _) as [[r s'] d'] eqn:E. by eapply store_put_ok.
  - destruct (valid_key key); [|done]. by apply remove_index_ok.
  - destruct (valid_key key) eqn:Hv; [|done]. by apply remove_unlink_ok.
  - destruct (store_drop _ _ _ _ _ _ _) as [[r s'] d'] eqn:E. by eapply store_drop_ok.
  - by apply store_forget_old_ok.
Qed.

Lemma store_run_inv w e sd ops : (w = true ∨ e = true → calm sd ops) → (e = true → Forall (λ x, op_stats x.2 = true) ops) →
  store_inv w e sd.1 sd.2 → store_inv w e (store_run sd ops).1 (store_run sd ops).2.
Proof.
  revert sd. induction ops as [|[now o] ops IH]; intros [s d] Hcalm He Hok; [done|]. cbn [store_run foldl].
  apply IH; [by intros [_ H]%Hcalm|by intros [_ H]%He%Forall_cons|].
  apply store_op_inv; [by intros [H _]%Hcalm|by intros [H _]%He%Forall_cons|done].
Qed.

(** What a reader gets for a key in the index. *)
Lemma held_get {e} s d key : store_inv true e s d → key ∈ store_keys s →
  ∃ c, om_find (store_path s key) d = Some c ∧ store_get s d key true = Found c ∧ chunk_key c = key.
Proof.
  intros Hok Hin. pose proof (so_valid _ _ Hok _ Hin) as Hv. destruct (so_file _ _ Hok _ Hin) as [c Hc].
  destruct (so_hash _ _ Hok _ _ Hv Hc) as [Hh Hl]. exists c. split_and!; try done.
  unfold store_get. rewrite Hv, Hc. cbn [negb]. by destruct (N.ltb_spec MAX_CHUNK (N.of_nat (length c))); [lia|].
Qed.

(** A chunk held, written at [t] or later as far as [store_drop] can tell. *)
Definition fresh_chunk (s : ChunkStore) (d : Disk) (key : bytes) (t : Z) (c : bytes) : Prop :=
  key ∈ store_keys s ∧ om_find (store_path s key) d = Some c ∧
  ∃ w, om_find key (st_touched s) = Some w ∧ (t <= w)%Z.

Lemma store_put_fresh s d key body env now r s' d' :
  store_ok s d → store_put s d key body env now = (r, s', d') → r = Stored ∨ r = AlreadyHeld →
  ∃ c, fresh_chunk s' d' key now c ∧ chunk_key c = key ∧ (r = Stored → c = body).
Proof.
  intros Hok. unfold store_put. destruct (valid_key key) eqn:Hv; cbn [negb]; [|by intros [= <- _ _] [?|?]].
  destruct (_ <? _)%N; [by intros [= <- _ _] [?|?]|]. case_bool_decide as Hh; cbn [negb]; [|by intros [= <- _ _] [?|?]].
  destruct (held_key s key) eqn:Hheld.
  - apply held_key_true in Hheld. destruct (held_get _ _ _ Hok Hheld) as (c & Hc & _ & Hk).
    intros [= <- <- <-] _. exists c. split; [|by split]. split; [exact Hheld|]. split; [exact Hc|].
    exists now. unfold store_touch. upd. rewrite om_find_set, decide_True by done. split; [done|lia].
  - destruct (put_write s d key body env) as [[ok s1] d1] eqn:Ew.
    apply put_write_disk in Ew as (Hd1 & -> & Hw); [|apply Hok|done].
    destruct ok; cbn [negb]; [|by intros [= <- _ _] [?|?]]. intros [= <- <- <-] _. exists body.
    assert (Hnew : key ∉ store_keys s) by (intros X%held_key_true; congruence).
    destruct Hw as [[? _]|Hw]; [done|]. set (s1 := s <| st_next_tmp := (st_next_tmp s + 1)%N |>).
    destruct (put_commit_fields s1 key body now Hnew) as (E1 & E2 & E3).
    split; [|done]. split_and!.
    + unfold store_keys. rewrite E2. apply om_set_fst. by left.
    + unfold store_path. rewrite E1. change (st_dir s1) with (st_dir s). fold (store_path s key). rewrite Hw by done. by rewrite decide_True.
    + exists now. split; [|lia]. unfold put_commit. destruct (held_key s1 key); unfold store_touch; upd;
        by rewrite om_find_set, decide_True.
Qed.

(** ** What an operation leaves of a chunk it is not meant to destroy *)

Definition present (s : ChunkStore) (d : Disk) (key c : bytes) : Prop :=
  key ∈ store_keys s ∧ om_find (store_path s key) d = Some c.

(** Not a removal, nor a drop, of this key. *)
Definition leaves_key (key : bytes) (o : StoreOp) : Prop :=
  match o with OpUnlist k _ | OpUnlink k _ | OpDrop k _ _ _ => k ≠ key | OpPut _ _ _ | OpForget _ => True end.

Section leaving.
Context (w e : bool) (s : ChunkStore) (d : Disk) (key c : bytes) (now : Z) (o : StoreOp).
Context (Hok : store_inv w e s d) (Hleaves : leaves_key key o).

Lemma op_present : present s d key c → present (store_op (s, d) now o).1 (store_op (s, d) now o).2 key c.
Proof using Hok Hleaves.
  intros [Hin Hc]. pose proof (so_valid _ _ Hok _ Hin) as Hv.
  destruct o as [key' body env|key' st|key' u|key' grace st u|grace]; cbn [store_op leaves_key] in *.
  - unfold store_put. destruct (valid_key key') eqn:Hv'; [|done]. destruct (_ <? _)%N; [done|]. case_bool_decide; [|done]. cbn [negb].
    destruct (held_key s key') eqn:Hheld; [done|].
    assert (Hne : key ≠ key') by (intros <-; apply (proj2 (held_key_true s key)) in Hin; congruence).
    destruct (put_write s d key' body env) as [[ok s1] d1] eqn:Ew.
    apply put_write_disk in Ew as (Hd1 & -> & Hwr); [|apply Hok|done].
    assert (Hc1 : om_find (store_path s key) d1 = Some c).
    { destruct Hwr as [[_ Hwr]|Hwr]; rewrite Hwr by done; [done|]. by rewrite decide_False. }
    destruct ok; cbn [negb fst snd]; [|done]. unfold put_commit. split; [|destruct (held_key _ key'); exact Hc1].
    destruct (held_key _ key'); [exact Hin|]. unfold store_touch, store_keys. upd. apply om_set_fst. by right.
  - destruct (valid_key key'); [|done]. cbn [fst snd]. unfold present, store_path. rewrite remove_index_dir. split; [|exact Hc].
    unfold store_keys. destruct (remove_index_keys s d key' st) as [[_ ->]|[_ ->]]; [|exact Hin]. by apply om_erase_fst.
  - destruct (valid_key key') eqn:Hv'; [|done]. cbn [fst snd]. split; [exact Hin|]. unfold remove_unlink.
    destruct (om_find (store_path s key') d); [|exact Hc]. destruct u; [|exact Hc]. cbn [snd].
    rewrite om_find_erase, decide_False; [done|]. intros E. by apply (store_path_inj s) in E.
  - unfold store_drop. destruct (valid_key key') eqn:Hv'; [|done]. destruct (held_key s key'); [|done]. cbn [negb].
    destruct (_ <? grace)%Z; [done|]. split; cbn [fst snd].
    + unfold store_keys, forget_key. upd. by apply om_erase_fst.
    + destruct u; [|exact Hc]. rewrite om_find_erase, decide_False; [exact Hc|]. intros E. by apply (store_path_inj s) in E.
  - done.
Qed.

(** When it was last written, as far as a drop can tell. *)
Lemma op_touched wr : om_find key (st_touched s) = Some wr →
  let s' := (store_op (s, d) now o).1 in
  om_find key (st_touched s') = Some wr ∨ om_find key (st_touched s') = Some now ∨
  (∃ g, o = OpForget g ∧ (g <= now - wr)%Z).
Proof using Hok Hleaves.
  intros Hw. cbv zeta. destruct o as [key' body env|key' st|key' u|key' grace st u|grace]; cbn [store_op leaves_key] in *.
  - assert (Ht : ∀ s1 k, om_find key (st_touched s1) = Some wr →
      om_find key (st_touched (store_touch s1 k now)) = Some wr ∨ om_find key (st_touched (store_touch s1 k now)) = Some now).
    { intros s1 k H1. unfold store_touch. upd. rewrite om_find_set. case_decide; [by right|by left]. }
    unfold store_put. destruct (valid_key key') eqn:Hv'; [|by left]. destruct (_ <? _)%N; [by left|]. case_bool_decide; [|by left]. cbn [negb].
    destruct (held_key s key'); [destruct (Ht s key' Hw); tauto|].
    destruct (put_write s d key' body env) as [[ok s1] d1] eqn:Ew.
    apply put_write_disk in Ew as (Hd1 & -> & Hwr); [|apply Hok|done]. destruct ok; cbn [negb fst]; [|by left].
    unfold put_commit. match goal with |- context [store_touch ?x _ _] => destruct (Ht x key') as [?|?]; [|tauto..] end.
    by destruct (held_key _ key').
  - left. destruct (valid_key key'); [|done]. cbn [fst]. unfold remove_index. by destruct (held_key s key').
  - left. by destruct (valid_key key').
  - left. unfold store_drop. destruct (valid_key key'); [|done]. destruct (held_key s key'); [|done]. cbn [negb].
    destruct (_ <? grace)%Z; [done|]. cbn [fst]. upd. by rewrite om_find_erase, decide_False.
  - cbn [fst]. destruct (decide (grace <= now - wr)%Z) as [Hg|Hg]; [eauto|]. left. unfold store_forget_old. upd.
    apply om_find_filter; [done|]. exact Hg.
Qed.
End leaving.

(** Operations that spare a key: neither step of a removal by the scrub, and one
    grace period throughout. *)
Definition spares (key : bytes) (grace : Z) (o : StoreOp) : Prop :=
  match o with
  | OpPut _ _ _ => True
  | OpUnlist key' _ | OpUnlink key' _ => key' ≠ key
  | OpDrop _ g _ _ | OpForget g => g = grace
  end.

(** A write within the grace period protects the chunk from every one of them. *)
Lemma fresh_op w e s d key t c grace now o : store_inv w e s d → fresh_chunk s d key t c →
  (t <= now < t + grace)%Z → spares key grace o →
  fresh_chunk (store_op (s, d) now o).1 (store_op (s, d) now o).2 key t c.
Proof.
  intros Hok Hf Hnow Ho. destruct Hf as (Hin & Hc & wr & Hw & Htw).
  assert (Hl : leaves_key key o ∨ ∃ st u, o = OpDrop key grace st u).
  { destruct o as [| | |k g st u|]; cbn in *; [by left..| |by left]. subst g. destruct (decide (k = key)) as [->|]; eauto. }
  destruct Hl as [Hl|(st & u & ->)].
  - destruct (op_present w e s d key c now o Hok Hl (conj Hin Hc)) as [H1 H2]. split; [done|]. split; [done|].
    destruct (op_touched w e s d key now o Hok Hl wr Hw) as [H3|[H3|(g & -> & Hg)]]; [by exists wr|exists now; split; [done|lia]|].
    cbn in Ho. subst g. lia.
  - assert (E : store_op (s, d) now (OpDrop key grace st u) = (s, d)).
    { cbn [store_op]. unfold store_drop. rewrite (so_valid _ _ Hok _ Hin), (proj2 (held_key_true s key) Hin), Hw. cbn [negb default].
      by rewrite (proj2 (Z.ltb_lt _ _)) by (cbn; lia). }
    rewrite E. split; [exact Hin|]. split; [exact Hc|]. by exists wr.
Qed.

Lemma fresh_run ops s d key t c grace :
  store_inv false false s d → fresh_chunk s d key t c →
  Forall (λ '(now, o), (t <= now < t + grace)%Z ∧ spares key grace o) ops →
  fresh_chunk (store_run (s, d) ops).1 (store_run (s, d) ops).2 key t c.
Proof.
  revert s d. induction ops as [|[now o] ops IH]; intros s d Hok Hf Hops; [done|].
  apply Forall_cons in Hops as [[Hnow Ho] Hops].
  assert (Hf' : fresh_chunk (store_op (s, d) now o).1 (store_op (s, d) now o).2 key t c).
  { by apply (fresh_op false false s d key t c grace). }
  pose proof (store_op_inv false false s d now o ltac:(naive_solver) ltac:(done) Hok) as Hok'. unfold store_run. cbn [foldl].
  destruct (store_op (s, d) now o) as [s1 d1]. by apply IH.
Qed.

(** ** The promises of the store *)

(** C25. A store opened on a disk whose chunk files hold their chunks, and then used by
    any sequence of writes, removals, collections and forgettings, whatever the
    system calls answer - directories that cannot be read, files that cannot be
    written, measured, renamed or unlinked - can read every key it lists: the bytes
    hash to the key and are at most one chunk long. A write is one step here, and a
    removal two; the one order of them that breaks the claim is excluded: a removal's
    unlink of a file that a write has put in place since the removal took the key off
    the index. If no size asked for was refused,
    the byte total is exactly the size of the listed files: it neither drifts nor
    wraps. *)
Theorem store_serves_its_index s d dir env now s1 d1 report ops :
  store_open s d dir env now = (true, s1, d1, report) → chunks_ok dir d → calm (s1, d1) ops →
  let '(s', d') := store_run (s1, d1) ops in
  (∀ key, store_has s' key = true →
     ∃ c, store_get s' d' key true = Found c ∧ chunk_key c = key ∧ (N.of_nat (length c) <= MAX_CHUNK)%N) ∧
  ((∀ p, so_stats env p = true) → Forall (λ x, op_stats x.2 = true) ops →
   st_bytes s' = om_sum (λ key, file_size d' (store_path s' key)) (st_keys s')).
Proof.
  intros E Hc Hcalm.
  assert (Hrun : ∀ e, (e = true → ∀ p, so_stats env p = true) → (e = true → Forall (λ x, op_stats x.2 = true) ops) →
    store_inv true e (store_run (s1, d1) ops).1 (store_run (s1, d1) ops).2).
  { intros e H1 H2. apply store_run_inv; [done..|]. by eapply store_open_inv. }
  destruct (store_run (s1, d1) ops) as [s' d']. cbn [fst snd] in Hrun. specialize (Hrun false) as Hok. split.
  - intros key Hin%held_key_true. destruct (held_get _ _ _ (Hok ltac:(done) ltac:(done)) Hin) as (c & Hf & Hg & Hk).
    exists c. split_and!; try done. eapply so_hash; [by apply Hok| |exact Hf]. eapply so_valid; [by apply Hok|done].
  - intros H1 H2. by apply (so_total _ _ (Hrun true (λ _, H1) (λ _, H2))).
Qed.

Lemma put_then_run s d key body env t r s1 d1 ops grace :
  store_ok s d → store_put s d key body env t = (r, s1, d1) → r = Stored ∨ r = AlreadyHeld →
  Forall (λ '(now, o), (t <= now < t + grace)%Z ∧ spares key grace o) ops →
  let '(s', d') := store_run (s1, d1) ops in
  store_has s' key = true ∧
  ∃ c, store_get s' d' key true = Found c ∧ chunk_key c = key ∧ (r = Stored → c = body).
Proof.
  intros Hok E Hr Hops. pose proof (store_put_ok _ _ _ _ _ _ _ _ _ _ _ Hok E) as Hok1.
  destruct (store_put_fresh _ _ _ _ _ _ _ _ _ Hok E Hr) as (c & Hf & Hk & Hbody).
  assert (Hok0 : store_inv false false s1 d1) by (by apply (store_inv_weaken true false)).
  pose proof (fresh_run ops _ _ _ _ _ grace Hok0 Hf Hops) as (Hin & Hc & _).
  pose proof (store_run_inv false false (s1, d1) ops ltac:(naive_solver) ltac:(done) Hok0) as Hrun.
  destruct (store_run (s1, d1) ops) as [s' d']. cbn [fst snd] in *.
  split; [by apply held_key_true|]. exists c. pose proof (so_valid _ _ Hrun _ Hin) as Hv.
  destruct (so_hash _ _ Hrun _ _ Hv Hc) as [_ Hl]. split; [|done].
  unfold store_get. rewrite Hv, Hc. cbn [negb]. by destruct (N.ltb_spec MAX_CHUNK (N.of_nat (length c))); [lia|].
Qed.

(** C26. A write answered [Stored] or [AlreadyHeld] at time [t] holds for a whole grace
    period: after any operations of other threads up to [t + grace], in any order -
    writes, collections and forgettings with that grace period, the two steps of the
    scrub's removals of other chunks - the chunk is still listed and reads back with
    the key's digest, and as exactly the bytes written if this call stored them. *)
Theorem stored_for_a_grace_period s d key body env t r s1 d1 ops grace :
  store_ok s d → store_put s d key body env t = (r, s1, d1) → r = Stored ∨ r = AlreadyHeld →
  Forall (λ '(now, o), (t <= now < t + grace)%Z ∧ spares key grace o) ops →
  let '(s', d') := store_run (s1, d1) ops in
  store_has s' key = true ∧
  ∃ c, store_get s' d' key true = Found c ∧ chunk_key c = key ∧ (r = Stored → c = body).
Proof. apply put_then_run. Qed.

(** C27. A process that dies anywhere inside a write - before the temporary file, with any
    part of the body in it, before or after the rename - loses nothing: opened again,
    the store lists every chunk it listed before, each reads back unchanged, and the
    chunk being written is listed only if it is whole. *)
Theorem crash_in_put s d key body env ok s1 d1 s0 env' now s2 d2 report :
  store_ok s d → valid_key key = true → chunk_key body = key → (N.of_nat (length body) <= MAX_CHUNK)%N →
  held_key s key = false →
  put_write s d key body env = (ok, s1, d1) →
  store_open s0 d1 (st_dir s) env' now = (true, s2, d2, report) → (∀ p, so_reads env' p = true) →
  store_ok s2 d2 ∧
  (∀ key', store_has s key' = true →
     store_has s2 key' = true ∧ store_get s2 d2 key' true = store_get s d key' true) ∧
  (store_has s2 key = true → om_find (store_path s key) d = None → store_get s2 d2 key true = Found body).
Proof.
  intros Hok Hv Hh Hlen Hnh Ew Eo Hr. apply put_write_disk in Ew as (Hd1 & _ & Hw); [|apply Hok|done].
  destruct (store_open_index _ _ _ _ _ _ _ _ Eo Hd1) as (Hd2 & Edir & _ & _ & Hk2 & Hsame).
  assert (Hp : ∀ k, store_path s2 k = store_path s k) by (intros; unfold store_path; by rewrite Edir).
  assert (Hdisk : ∀ k, valid_key k = true → k ≠ key → om_find (store_path s k) d2 = om_find (store_path s k) d).
  { intros k Hvk Hne. unfold store_path. rewrite Hsame by done. fold (store_path s k).
    destruct Hw as [[_ Hw]|Hw]; rewrite Hw by done; [done|]. by rewrite decide_False. }
  split; [|split].
  - eapply store_open_ok; [exact Eo|]. split; [done|]. intros k c Hvk. fold (store_path s k).
    destruct Hw as [[_ Hw]|Hw]; rewrite Hw by done; [by apply Hok|]. case_decide as Ek; [intros [= <-]; by subst k|by apply Hok].
  - intros k Hink%held_key_true. pose proof (so_valid _ _ Hok _ Hink) as Hvk.
    assert (Hne : k ≠ key) by (intros ->; apply (proj2 (held_key_true s key)) in Hink; congruence). split.
    + apply held_key_true, Hk2. split; [done|]. split; [done|]. rewrite <- Hsame by done. fold (store_path s k).
      rewrite Hdisk by done. by apply (so_file _ _ Hok).
    + unfold store_get. by rewrite Hp, Hdisk.
  - intros Hin%held_key_true Hnone. apply Hk2 in Hin as (_ & _ & Hf). unfold store_get. rewrite Hv, Hp. unfold store_path in *.
    rewrite Hsame by done. destruct Hw as [[_ Hw]|Hw]; rewrite Hw in * by done; [rewrite Hnone in Hf; by destruct Hf|].
    rewrite decide_True by done. cbn [negb]. by destruct (N.ltb_spec MAX_CHUNK (N.of_nat (length body))); [lia|].
Qed.

(** [PutIoError] does not mean that nothing was renamed into place: when only the
    flush of the directory fails, the caller is told of a disk error, the key is not
    listed, and yet a reader of the key finds the whole chunk. *)
Theorem io_error_after_rename s d key body env now :
  valid_key key = true → chunk_key body = key → (N.of_nat (length body) <= MAX_CHUNK)%N → held_key s key = false →
  om_find (tmp_path s key) d = None → om_ok d →
  env = mkPutEnv true (length body) true true true true false →
  let '(r, s', d') := store_put s d key body env now in
  r = PutIoError ∧ store_has s' key = false ∧ store_get s' d' key true = Found body.
Proof.
  intros Hv Hh Hlen Hnh Htmp Hd ->. unfold store_put. rewrite Hv, bool_decide_true, Hnh by done. cbn [negb].
  destruct (N.ltb_spec MAX_CHUNK (N.of_nat (length body))) as [|_]; [lia|].
  unfold put_write. rewrite Htmp. cbn [pe_open pe_written pe_sync pe_close pe_rename pe_dirsync negb orb].
  rewrite Nat.leb_refl. cbn [negb orb]. split; [done|]. split; [exact Hnh|].
  unfold store_get. rewrite Hv, om_find_set, decide_True by done. cbn [negb].
  by destruct (N.ltb_spec MAX_CHUNK (N.of_nat (length body))); [lia|].
Qed.

(** C36. [store_remove] unlinks after it has let go of the lock. A write of the same key
    that runs in between is answered [Stored], and the unlink then destroys the new
    file: the index lists a chunk that no longer exists. *)
Theorem remove_races_put s d key body env now stats :
  store_ok s d → store_has s key = true → chunk_key body = key → (N.of_nat (length body) <= MAX_CHUNK)%N →
  om_find (tmp_path s key) d = None →
  env = mkPutEnv true (length body) true true true true true →
  let s1 := remove_index s d key stats in
  let '(r, s2, d2) := store_put s1 d key body env now in
  let '(removed, d3) := remove_unlink s2 d2 key true in
  r = Stored ∧ removed = true ∧ store_has s2 key = true ∧ store_get s2 d3 key true = GetMissing.
Proof.
  intros Hok Hin Hh Hlen Htmp -> s1. pose proof Hin as Hin'. apply held_key_true in Hin'.
  pose proof (so_valid _ _ Hok _ Hin') as Hv.
  assert (Hnh : held_key s1 key = false) by (by eapply remove_index_unlists).
  assert (Hdir : st_dir s1 = st_dir s) by apply remove_index_dir.
  assert (Hnt : st_next_tmp s1 = st_next_tmp s) by (subst s1; unfold remove_index; by destruct (held_key s key)).
  clearbody s1. unfold store_put. rewrite Hv, bool_decide_true, Hnh by done. cbn [negb].
  destruct (N.ltb_spec MAX_CHUNK (N.of_nat (length body))) as [|_]; [lia|].
  unfold put_write. unfold tmp_path in *. rewrite Hdir, Hnt, Htmp.
  cbn [pe_open pe_written pe_sync pe_close pe_rename pe_dirsync negb orb]. rewrite Nat.leb_refl. cbn [negb orb].
  set (s2 := s1 <| st_next_tmp := _ |>). assert (Hp : store_path (put_commit s2 key body now) key = store_path s2 key).
  { unfold store_path, put_commit. by destruct (held_key s2 key). }
  unfold remove_unlink. rewrite Hp, om_find_set, decide_True by done. split_and!; try done.
  - apply held_key_true. unfold put_commit. change (held_key s2 key) with (held_key s1 key). rewrite Hnh.
    unfold store_touch, store_keys. upd. apply om_set_fst. by left.
  - unfold store_get. rewrite Hv, Hp, om_find_erase, decide_True by done. done.
Qed.
End store.
#[global] Arguments so_keys {SH whole exact} s d. #[global] Arguments so_disk {SH whole exact} s d.
#[global] Arguments so_valid {SH whole exact} s d. #[global] Arguments so_hash {SH whole exact} s d.
#[global] Arguments so_total {SH whole exact} s d. #[global] Arguments si_file {SH whole exact} s d.
(** A store that can serve its index. *)
Abbreviation store_ok := (store_inv true false).

(** ** A run on a small disk *)
#[local] Existing Instances demo_sha1 demo_sha1_ok.

Definition demo_root : bytes := "store".
Definition demo_body : bytes := "hello".
Definition demo_chunk : bytes := chunk_key demo_body.
Definition demo_env : PutEnv := mkPutEnv true (length demo_body) true true true true true.
Definition demo_open_env : StoreOpenEnv := mkStoreOpenEnv (λ _, true) (λ _, true) (λ _, true) (λ _, true).
Definition demo_blank : ChunkStore := mkChunkStore [] [] [] 0 0 0.
(** An empty disk, opened; then one chunk written. *)
Definition demo_opened : ChunkStore := (store_open demo_blank [] demo_root demo_open_env 100).1.1.2.
Definition demo_put := store_put demo_opened [] demo_chunk demo_body demo_env 200.

Lemma no_chunks_ok dir : chunks_ok dir [].
Proof. split; [constructor|]. done. Qed.

Lemma demo_opened_ok : store_ok demo_opened [].
Proof.
  eapply (store_open_ok demo_blank [] demo_root demo_open_env 100); [|apply no_chunks_ok].
  vm_compute. reflexivity.
Qed.

Lemma demo_put_ok : store_ok demo_put.1.2 demo_put.2.
Proof. eapply (store_put_ok true false demo_opened [] demo_chunk demo_body demo_env 200 Stored); [apply demo_opened_ok|]. vm_compute. reflexivity. Qed.

Lemma demo_valid : valid_key demo_chunk = true.
Proof. vm_compute. reflexivity. Qed.

(** A directory that cannot be read, a chunk written, dropped and written
    again, a removal that nothing comes between. *)
Definition demo_half_read : StoreOpenEnv := mkStoreOpenEnv (λ _, true) (λ p, bool_decide (p ≠ lit "store/aa")) (λ _, true) (λ _, true).
Definition demo_ops : list (Z * StoreOp) :=
  [(200%Z, OpPut demo_chunk demo_body demo_env); (300%Z, OpDrop demo_chunk 50 true true);
   (310%Z, OpPut demo_chunk demo_body demo_env); (320%Z, OpUnlist demo_chunk true); (321%Z, OpUnlink demo_chunk true);
   (330%Z, OpPut demo_chunk demo_body demo_env)].
Lemma store_serves_its_index_witness :
  let '(s', d') := store_run ((store_open demo_blank [] demo_root demo_half_read 100).1.1.2, []) demo_ops in
  (∀ key, store_has s' key = true →
     ∃ c, store_get s' d' key true = Found c ∧ chunk_key c = key ∧ (N.of_nat (length c) <= MAX_CHUNK)%N) ∧
  ((∀ p, so_stats demo_half_read p = true) → Forall (λ x, op_stats x.2 = true) demo_ops →
   st_bytes s' = om_sum (λ key, file_size d' (store_path s' key)) (st_keys s')).
Proof.
  apply (store_serves_its_index demo_blank [] demo_root demo_half_read 100 (store_open demo_blank [] demo_root demo_half_read 100).1.1.2 []
    (store_open demo_blank [] demo_root demo_half_read 100).2 demo_ops).
  - vm_compute. reflexivity.
  - apply no_chunks_ok.
  - vm_compute. repeat split.
Defined.

(** A size that is not told: the total keeps what has gone. *)
Lemma total_drifts :
  let '(s', d') := store_run (demo_put.1.2, demo_put.2) [(300%Z, OpDrop demo_chunk 50 false true)] in
  st_keys s' = [] ∧ d' = [] ∧ st_bytes s' = 5%N.
Proof. vm_compute. done. Qed.

Lemma stored_for_a_grace_period_witness :
  let '(s', d') := store_run (demo_put.1.2, demo_put.2) [(240%Z, OpDrop demo_chunk 50 true true); (245%Z, OpForget 50)] in
  store_has s' demo_chunk = true ∧ ∃ c, store_get s' d' demo_chunk true = Found c ∧ chunk_key c = demo_chunk ∧
    (Stored = Stored → c = demo_body).
Proof.
  apply (stored_for_a_grace_period demo_opened [] demo_chunk demo_body demo_env 200 Stored _ _ _ 50).
  - apply demo_opened_ok.
  - vm_compute. reflexivity.
  - by left.
  - repeat constructor; lia.
Defined.

(** The machine stops with three bytes of the body in the temporary file. *)
Definition demo_torn : PutEnv := mkPutEnv true 3 false false false false false.
Definition demo_torn_put := put_write demo_opened [] demo_chunk demo_body demo_torn.
Definition demo_reopened := store_open demo_blank demo_torn_put.2 demo_root demo_open_env 300.

Lemma crash_in_put_witness : demo_torn_put.2 ≠ [] ∧ store_ok demo_reopened.1.1.2 demo_reopened.1.2.
Proof.
  split; [vm_compute; discriminate|].
  apply (crash_in_put demo_opened [] demo_chunk demo_body demo_torn false demo_torn_put.1.2 demo_torn_put.2 demo_blank
    demo_open_env 300 demo_reopened.1.1.2 demo_reopened.1.2 demo_reopened.2).
  - apply demo_opened_ok.
  - apply demo_valid.
  - reflexivity.
  - apply N.leb_le. vm_compute. reflexivity.
  - vm_compute. reflexivity.
  - vm_compute. reflexivity.
  - vm_compute. reflexivity.
  - done.
Defined.

Lemma io_error_after_rename_witness :
  let '(r, s', d') := store_put demo_opened [] demo_chunk demo_body (mkPutEnv true 5 true true true true false) 200 in
  r = PutIoError ∧ store_has s' demo_chunk = false ∧ store_get s' d' demo_chunk true = Found demo_body.
Proof.
  apply (io_error_after_rename demo_opened [] demo_chunk demo_body (mkPutEnv true 5 true true true true false) 200).
  - apply demo_valid.
  - reflexivity.
  - apply N.leb_le. vm_compute. reflexivity.
  - vm_compute. reflexivity.
  - vm_compute. reflexivity.
  - constructor.
  - reflexivity.
Defined.

Lemma remove_races_put_witness :
  let s1 := remove_index demo_put.1.2 demo_put.2 demo_chunk true in
  let '(r, s2, d2) := store_put s1 demo_put.2 demo_chunk demo_body demo_env 300 in
  let '(removed, d3) := remove_unlink s2 d2 demo_chunk true in
  r = Stored ∧ removed = true ∧ store_has s2 demo_chunk = true ∧ store_get s2 d3 demo_chunk true = GetMissing.
Proof.
  apply (remove_races_put demo_put.1.2 demo_put.2 demo_chunk demo_body demo_env 300 true).
  - apply demo_put_ok.
  - vm_compute. reflexivity.
  - reflexivity.
  - apply N.leb_le. vm_compute. reflexivity.
  - vm_compute. reflexivity.
  - reflexivity.
Defined.
