(* ===== verification/Names.v ===== *)
(** * Names: the replicated namespace (names.h, names.cpp)

    Requests, log commands and the state machine that every replica of the
    tracker group applies its committed log to. [Command] and [apply_spec] are
    the abstract namespace the text commands implement. *)
From S2P Require Import Prelude Text Net Chord OrdMap Store.

Definition MAX_NAME : nat := 200.

Definition valid_name (name : bytes) : bool :=
  if (bool_decide (name = [])) || (MAX_NAME <? length name) then false else forallb is_visible name.

Definition valid_secret (secret : bytes) : bool :=
  if (length secret <? 32) || (64 <? length secret) then false else forallb is_lower_hex secret.

Record NameEntry := mkNameEntry { ne_key : bytes; ne_owner : bytes }.
#[export] Instance NameEntry_eq_dec : EqDecision NameEntry.
Proof. solve_decision. Defined.

Abbreviation Namespace := (list (bytes * NameEntry)) (only parsing).

Definition BAD_NAME : bytes := "ERR a name is 1 to 200 visible ASCII characters".
Definition BAD_KEY : bytes := "ERR a key is 40 lowercase hexadecimal characters".
Definition BAD_OWNER : bytes := "ERR an owner hash is 40 lowercase hexadecimal characters".
Definition BAD_SECRET : bytes := "ERR a secret is 32 to 64 lowercase hexadecimal characters".

(** ** Requests *)

Inductive Kind := KRegister | KUnregister | KResolve | KList | KEntries | KPing | KInvalid.
#[export] Instance Kind_eq_dec : EqDecision Kind.
Proof. solve_decision. Defined.

Record NamesRequest := mkNamesRequest {
  r_kind : Kind; r_name : bytes; r_key : bytes; r_owner : bytes; r_secret : bytes;
  r_after : bytes; r_from_start : bool; r_error : bytes;
}.
#[export] Instance NamesRequest_eta : Eta NamesRequest := λ r,
  mkNamesRequest (r_kind r) (r_name r) (r_key r) (r_owner r) (r_secret r) (r_after r) (r_from_start r) (r_error r).
Definition no_request : NamesRequest := mkNamesRequest KInvalid [] [] [] [] [] true [].

Definition parse_page (w : list bytes) (kind : Kind) (usage : bytes) : NamesRequest :=
  match w with
  | [_] => no_request <| r_kind := kind |> <| r_from_start := true |>
  | [_; after] =>
      if negb (valid_name after) then no_request <| r_error := BAD_NAME |>
      else no_request <| r_kind := kind |> <| r_from_start := false |> <| r_after := after |>
  | _ => no_request <| r_error := usage |>
  end.

Definition parse_register (w : list bytes) : NamesRequest :=
  match w with
  | [_; name; key] | [_; name; key; _] =>
      let owner := drop 3 w in
      if negb (valid_name name) then no_request <| r_error := BAD_NAME |>
      else if negb (valid_key key) then no_request <| r_error := BAD_KEY |>
      else if negb (forallb valid_key owner) then no_request <| r_error := BAD_OWNER |>
      else no_request <| r_kind := KRegister |> <| r_name := name |> <| r_key := key |>
             <| r_owner := default [] (head owner) |>
  | _ => no_request <| r_error := lit "ERR usage: REGISTER <name> <manifest-key> [<owner-hash>]" |>
  end.

Definition parse_unregister (w : list bytes) : NamesRequest :=
  match w with
  | [_; name; secret] =>
      if negb (valid_name name) then no_request <| r_error := BAD_NAME |>
      else if negb (valid_secret secret) then no_request <| r_error := BAD_SECRET |>
      else no_request <| r_kind := KUnregister |> <| r_name := name |> <| r_secret := secret |>
  | _ => no_request <| r_error := lit "ERR usage: UNREGISTER <name> <secret>" |>
  end.

Definition parse_resolve (w : list bytes) : NamesRequest :=
  match w with
  | [_; name] =>
      if negb (valid_name name) then no_request <| r_error := BAD_NAME |>
      else no_request <| r_kind := KResolve |> <| r_name := name |>
  | _ => no_request <| r_error := lit "ERR usage: RESOLVE <name>" |>
  end.

Definition parse_names_request (line : bytes) : NamesRequest :=
  if bool_decide (line = []) then no_request <| r_error := lit "ERR empty request" |>
  else
    let w := split_single_spaces line in
    let verb := default [] (head w) in
    if bool_decide (verb = lit "PING") && (length w =? 1) then no_request <| r_kind := KPing |>
    else if bool_decide (verb = lit "REGISTER") then parse_register w
    else if bool_decide (verb = lit "UNREGISTER") then parse_unregister w
    else if bool_decide (verb = lit "RESOLVE") then parse_resolve w
    else if bool_decide (verb = lit "LIST") then parse_page w KList "ERR usage: LIST [<after>]"
    else if bool_decide (verb = lit "ENTRIES") then parse_page w KEntries "ERR usage: ENTRIES [<after>]"
    else no_request <| r_error := lit "ERR unknown request" |>.

(** ** Log commands *)

Definition register_command (name key owner : bytes) : bytes :=
  lit "REGISTER " ++ name ++ lit " " ++ key ++ (if bool_decide (owner = []) then [] else lit " " ++ owner).
Definition unregister_command (name owner : bytes) : bytes :=
  lit "UNREGISTER " ++ name ++ lit " " ++ owner.

Definition valid_command (command : bytes) : bool :=
  if bool_decide (command = lit "NOOP") then true
  else
    let w := split_single_spaces command in
    let word i := default [] (w !! i) in
    if bool_decide (word 0 = lit "REGISTER") then
      ((length w =? 3) || (length w =? 4)) && valid_name (word 1) && valid_key (word 2) &&
        ((length w =? 3) || valid_key (word 3))
    else if bool_decide (word 0 = lit "UNREGISTER") then
      (length w =? 3) && valid_name (word 1) && valid_key (word 2)
    else false.

(** The state change, and what a waiting client is told. *)
Definition apply_command (ns : Namespace) (command : bytes) : bytes * Namespace :=
  if negb (valid_command command) || bool_decide (command = lit "NOOP") then ([], ns)
  else
    let w := split_single_spaces command in
    let word i := default [] (w !! i) in
    let it := om_find (word 1) ns in
    if bool_decide (word 0 = lit "UNREGISTER") then
      match it with
      | None => (lit "MISSING", ns)
      | Some e =>
          if bool_decide (ne_owner e = []) || negb (bool_decide (ne_owner e = word 2)) then (lit "DENIED", ns)
          else (lit "OK", om_erase (word 1) ns)
      end
    else
      let owner := if length w =? 4 then word 3 else [] in
      match it with
      | None => (lit "OK", om_set (word 1) (mkNameEntry (word 2) owner) ns)
      | Some e =>
          (if bool_decide (ne_key e = word 2) && bool_decide (ne_owner e = owner) then lit "OK"
           else lit "EXISTS " ++ ne_key e, ns)
      end.

(** ** Reads *)

Definition page (ns : Namespace) (verb after : bytes) (from_start : bool) (word : bytes * NameEntry → bytes) : bytes :=
  let budget := MAX_LINE - length verb - length (lit " 9999") in
  let items := fill (λ x, length (word x)) budget (if from_start then ns else om_after after ns) in
  verb ++ lit " " ++ dec (N.of_nat (length items)) ++ concat (word <$> items).

Definition list_word (x : bytes * NameEntry) : bytes := lit " " ++ x.1.
Definition entries_word (x : bytes * NameEntry) : bytes := lit " " ++ x.1 ++ lit " " ++ ne_key x.2.

Definition answer_read (ns : Namespace) (req : NamesRequest) : bytes :=
  match r_kind req with
  | KResolve => match om_find (r_name req) ns with
                | None => lit "MISSING" | Some e => lit "FILE " ++ ne_key e end
  | KList => page ns "NAMES" (r_after req) (r_from_start req) list_word
  | KEntries => page ns "ENTRIES" (r_after req) (r_from_start req) entries_word
  | _ => lit "ERR not a read"
  end.

Definition owner_hash {SH : Sha1} (secret : bytes) : bytes := chunk_key secret.

(** ** What a request does *)

(** The command a request logs, if it is a write. *)
Definition write_command {SH : Sha1} (line : bytes) : option bytes :=
  let r := parse_names_request line in
  match r_kind r with
  | KRegister => Some (register_command (r_name r) (r_key r) (r_owner r))
  | KUnregister => Some (unregister_command (r_name r) (owner_hash (r_secret r)))
  | _ => None
  end.

(** ** The abstract namespace *)

Inductive Command :=
  | Noop
  | Register (name key owner : bytes)      (* an empty owner: never deletable *)
  | Unregister (name owner : bytes).

Definition command_text (c : Command) : bytes :=
  match c with
  | Noop => "NOOP"
  | Register name key owner => register_command name key owner
  | Unregister name owner => unregister_command name owner
  end.

Definition command_ok (c : Command) : Prop :=
  match c with
  | Noop => True
  | Register name key owner => valid_name name = true ∧ valid_key key = true ∧ (owner = [] ∨ valid_key owner = true)
  | Unregister name owner => valid_name name = true ∧ valid_key owner = true
  end.

Inductive Answer := ANone | AOk | AExists (key : bytes) | AMissing | ADenied.
Definition answer_text (a : Answer) : bytes :=
  match a with
  | ANone => [] | AOk => "OK" | AExists key => lit "EXISTS " ++ key | AMissing => "MISSING" | ADenied => "DENIED"
  end.

(** A finite map from names to entries; a name is bound once, and unbound only by
    the owner it was bound with. *)
Definition apply_spec (c : Command) (m : gmap bytes NameEntry) : Answer * gmap bytes NameEntry :=
  match c with
  | Noop => (ANone, m)
  | Register name key owner =>
      match m !! name with
      | None => (AOk, <[name := mkNameEntry key owner]> m)
      | Some e => (if decide (e = mkNameEntry key owner) then AOk else AExists (ne_key e), m)
      end
  | Unregister name owner =>
      match m !! name with
      | None => (AMissing, m)
      | Some e => if decide (ne_owner e = owner) then (AOk, delete name m) else (ADenied, m)
      end
  end.

(** The map a namespace stands for. *)
Definition ns_map (ns : Namespace) : gmap bytes NameEntry := list_to_map ns.

Lemma ns_map_find (ns : Namespace) name : ns_map ns !! name = om_find name ns.
Proof.
  unfold ns_map. induction ns as [|[k e] ns IH]; [done|]. cbn. destruct (decide (k = name)) as [->|Hne].
  - by rewrite lookup_insert_eq.
  - by rewrite lookup_insert_ne.
Qed.

Lemma ns_map_set (ns : Namespace) name e : ns_map (om_set name e ns) = <[name := e]> (ns_map ns).
Proof.
  apply map_eq. intros k. rewrite ns_map_find, om_find_set. destruct (decide (k = name)) as [->|Hne].
  - by rewrite lookup_insert_eq.
  - by rewrite lookup_insert_ne, ns_map_find.
Qed.

Lemma ns_map_erase (ns : Namespace) name : ns_map (om_erase name ns) = delete name (ns_map ns).
Proof.
  apply map_eq. intros k. rewrite ns_map_find, om_find_erase. destruct (decide (k = name)) as [->|Hne].
  - by rewrite lookup_delete_eq.
  - by rewrite lookup_delete_ne, ns_map_find.
Qed.

(** ** Words of a command *)

Lemma valid_name_visible name c : valid_name name = true → c ∈ name → is_visible c = true.
Proof.
  unfold valid_name. destruct (_ || _); [done|]. intros H%forallb_Forall Hc. rewrite Forall_forall in H. by apply H.
Qed.
Lemma valid_name_length name : valid_name name = true → 0 < length name ≤ MAX_NAME.
Proof.
  unfold valid_name. destruct (_ || _) eqn:E; [done|]. intros _. bool_to_prop. destruct name; [done|]. cbn in *. lia.
Qed.
Lemma valid_name_no_space name : valid_name name = true → SPACE ∉ name.
Proof. intros H Hin. by pose proof (valid_name_visible _ _ H Hin). Qed.

Ltac words_of := unfold split_single_spaces; rewrite ?split_on_app, ?split_on_single
  by first [by apply valid_name_no_space | by apply valid_key_no_space | by apply (bool_decide_unpack _)].

Lemma register_words name key owner : valid_name name = true → valid_key key = true → owner = [] ∨ valid_key owner = true →
  split_single_spaces (register_command name key owner) =
  [lit "REGISTER"; name; key] ++ (if bool_decide (owner = []) then [] else [owner]).
Proof.
  intros Hn Hk Ho. unfold register_command.
  change (lit "REGISTER " ++ ?x) with (lit "REGISTER" ++ SPACE :: x). change (lit " " ++ ?x) with (SPACE :: x).
  case_bool_decide as E; [subst|].
  - rewrite app_nil_r. by words_of.
  - destruct Ho as [|Ho]; [done|]. change (lit " " ++ owner) with (SPACE :: owner). by words_of.
Qed.

Lemma unregister_words name owner : valid_name name = true → valid_key owner = true →
  split_single_spaces (unregister_command name owner) = [lit "UNREGISTER"; name; owner].
Proof.
  intros Hn Hk. unfold unregister_command.
  change (lit "UNREGISTER " ++ ?x) with (lit "UNREGISTER" ++ SPACE :: x). change (lit " " ++ ?x) with (SPACE :: x).
  by words_of.
Qed.

(** A valid command is the text of exactly one [Command]. *)
Lemma command_text_valid c : command_ok c → valid_command (command_text c) = true.
Proof.
  intros Hc. unfold valid_command. case_bool_decide; [done|]. destruct c as [|name key owner|name owner]; [done|..].
  - destruct Hc as (Hn & Hk & Ho). cbn [command_text]. rewrite register_words by done.
    destruct Ho as [->|Ho]; [cbn; by rewrite Hn, Hk|]. rewrite (bool_decide_false (owner = [])) by (intros ->; done).
    cbn. by rewrite Hn, Hk, Ho.
  - destruct Hc as (Hn & Hk). cbn [command_text]. rewrite unregister_words by done. cbn. by rewrite Hn, Hk.
Qed.

Lemma words_text w : join SPACE (split_single_spaces w) = w.
Proof. apply join_split_on. Qed.

Lemma valid_command_text t : valid_command t = true → ∃ c, command_ok c ∧ t = command_text c.
Proof.
  unfold valid_command. case_bool_decide as E; [intros _; by exists Noop|].
  pose proof (words_text t) as Ht. destruct (split_single_spaces t) as [|w0 [|w1 [|w2 [|w3 [|w4 w]]]]]; cbn;
    repeat case_bool_decide; rewrite ?andb_false_r; try done; intros Hv; bool_to_prop; subst w0;
    try (match goal with H : false || _ = true |- _ => cbn in H; done end).
  - exists (Register w1 w2 []). split; [by split_and!; auto|]. rewrite <- Ht. cbn. by rewrite app_nil_r.
  - exists (Unregister w1 w2). split; [done|]. rewrite <- Ht. by cbn.
  - exists (Register w1 w2 w3). assert (Ho : valid_key w3 = true) by naive_solver. split; [by split_and!; auto|].
    unfold command_text, register_command. rewrite bool_decide_false by (intros ->; done). rewrite <- Ht. by cbn.
Qed.

(** ** The refinement *)

(** A command is one line. *)
Lemma valid_command_no_nl t : valid_command t = true → NL ∉ t.
Proof.
  assert (Hlit : ∀ s, bool_decide (NL ∉ lit s) = true → NL ∉ lit s) by (intros s; by rewrite bool_decide_eq_true).
  assert (Hname : ∀ n, valid_name n = true → NL ∉ n) by (intros n Hn Hin; by pose proof (valid_name_visible n NL Hn Hin)).
  assert (Hkey : ∀ n, valid_key n = true → NL ∉ n) by (intros n Hn Hin; by pose proof (valid_key_hex n NL Hn Hin)).
  intros Ht. apply valid_command_text in Ht as ([|name key owner|name owner] & Hc & ->); cbn [command_text].
  - by apply Hlit.
  - destruct Hc as (H1 & H2 & H3). unfold register_command. rewrite !elem_of_app.
    intros [Hin|[Hin|[Hin|[Hin|Hin]]]]; revert Hin; [by apply Hlit|by apply Hname|by apply Hlit|by apply Hkey|].
    case_bool_decide; [apply not_elem_of_nil|]. destruct H3; [done|]. rewrite elem_of_app.
    intros [Hin|Hin]; revert Hin; [by apply Hlit|by apply Hkey].
  - destruct Hc as [H1 H2]. unfold unregister_command. rewrite !elem_of_app.
    intros [Hin|[Hin|[Hin|Hin]]]; revert Hin; [by apply Hlit|by apply Hname|by apply Hlit|by apply Hkey].
Qed.

Lemma apply_command_invalid ns t : valid_command t = false → apply_command ns t = ([], ns).
Proof. intros E. unfold apply_command. by rewrite E. Qed.

Lemma apply_register ns name key owner : command_ok (Register name key owner) →
  apply_command ns (register_command name key owner) =
  match om_find name ns with
  | None => (lit "OK", om_set name (mkNameEntry key owner) ns)
  | Some e => (if decide (e = mkNameEntry key owner) then lit "OK" else lit "EXISTS " ++ ne_key e, ns)
  end.
Proof.
  intros Hc. pose proof (command_text_valid _ Hc) as Hv. destruct Hc as (Hn & Hk & Ho). unfold apply_command.
  cbn [command_text] in Hv. rewrite Hv, register_words by done. cbn [negb orb].
  rewrite bool_decide_false by done. cbv zeta.
  destruct Ho as [->|Ho]; [rewrite (bool_decide_true ([] = [])) by done|rewrite (bool_decide_false (owner = [])) by (intros ->; done)];
    cbn [app lookup list_lookup default id length Nat.eqb]; rewrite bool_decide_false by done;
    (destruct (om_find name ns) as [[k o]|]; [|done]); cbn [ne_key ne_owner]; f_equal;
    repeat case_bool_decide; cbn [andb]; case_decide; simplify_eq; done.
Qed.

Lemma apply_unregister ns name owner : command_ok (Unregister name owner) →
  apply_command ns (unregister_command name owner) =
  match om_find name ns with
  | None => (lit "MISSING", ns)
  | Some e => if decide (ne_owner e = owner) then (lit "OK", om_erase name ns) else (lit "DENIED", ns)
  end.
Proof.
  intros Hc. pose proof (command_text_valid _ Hc) as Hv. destruct Hc as (Hn & Hk). unfold apply_command.
  cbn [command_text] in Hv. rewrite Hv, unregister_words by done. cbn [negb orb].
  rewrite bool_decide_false by done. cbv zeta. cbn [lookup list_lookup default id].
  rewrite bool_decide_true by done. destruct (om_find name ns) as [[k o]|]; [|done]. cbn [ne_owner].
  destruct (decide (o = owner)) as [->|Hne].
  - rewrite (bool_decide_true (owner = owner)), (bool_decide_false (owner = [])); try done. by intros ->.
  - rewrite (bool_decide_false (o = owner)) by done. by rewrite orb_true_r.
Qed.

Lemma apply_refines ns c : command_ok c →
  (apply_command ns (command_text c)).1 = answer_text (apply_spec c (ns_map ns)).1 ∧
  ns_map (apply_command ns (command_text c)).2 = (apply_spec c (ns_map ns)).2.
Proof.
  intros Hc. destruct c as [|name key owner|name owner]; [done|..]; cbn [command_text apply_spec].
  - rewrite apply_register, ns_map_find by done. destruct (om_find name ns); [by case_decide|].
    split; [done|apply ns_map_set].
  - rewrite apply_unregister, ns_map_find by done. destruct (om_find name ns); [|done].
    case_decide; [|done]. split; [done|apply ns_map_erase].
Qed.

(** ** Runs *)

Definition apply_all (ns : Namespace) (texts : list bytes) : Namespace := foldl (λ ns t, (apply_command ns t).2) ns texts.
(** What the waiting clients are told along the way. *)
Fixpoint replies (ns : Namespace) (texts : list bytes) : list bytes :=
  match texts with
  | [] => []
  | t :: texts => (apply_command ns t).1 :: replies (apply_command ns t).2 texts
  end.

Definition spec_all (m : gmap bytes NameEntry) (cs : list Command) : gmap bytes NameEntry :=
  foldl (λ m c, (apply_spec c m).2) m cs.
Fixpoint spec_replies (m : gmap bytes NameEntry) (cs : list Command) : list Answer :=
  match cs with
  | [] => []
  | c :: cs => (apply_spec c m).1 :: spec_replies (apply_spec c m).2 cs
  end.

(** Sorted by name; every name and key is a word of the wire. *)
Definition names_ok (ns : Namespace) : Prop :=
  om_ok ns ∧ ∀ name e, (name, e) ∈ ns → valid_name name = true ∧ valid_key (ne_key e) = true.

Lemma apply_command_ok ns t : names_ok ns → names_ok (apply_command ns t).2.
Proof.
  intros [Hs Hv]. destruct (valid_command t) eqn:Et; [|by rewrite apply_command_invalid].
  destruct (valid_command_text _ Et) as ([|name key owner|name owner] & Hc & ->); [done|..]; cbn [command_text].
  - rewrite apply_register by done. destruct (om_find name ns); [done|]. split; [by apply om_set_ok|].
    intros k e [[= -> ->]|Hin]%om_set_keys; [|by apply Hv]. by destruct Hc as (? & ? & _).
  - rewrite apply_unregister by done. destruct (om_find name ns); [|done]. case_decide; [|done].
    split; [by apply om_erase_ok|]. intros k e [_ Hin]%list_elem_of_filter. by apply Hv.
Qed.

Lemma apply_all_ok texts ns : names_ok ns → names_ok (apply_all ns texts).
Proof. revert ns. induction texts; intros ns Hok; [done|]. cbn. by apply IHtexts, apply_command_ok. Qed.

Lemma names_ok_nil : names_ok [].
Proof. split; [constructor|]. by intros ?? ?%elem_of_nil. Qed.

Lemma apply_keeps ns t name e :
  om_find name ns = Some e → ne_owner e = [] ∨ t ≠ unregister_command name (ne_owner e) →
  om_find name (apply_command ns t).2 = Some e.
Proof.
  intros Hf Ho. destruct (valid_command t) eqn:Et; [|by rewrite apply_command_invalid].
  destruct (valid_command_text _ Et) as ([|name' key owner|name' owner] & Hc & ->); [done|..]; cbn [command_text] in *.
  - rewrite apply_register by done. destruct (om_find name' ns) eqn:E'; [done|].
    cbn [snd]. rewrite om_find_set, decide_False; [done|]. congruence.
  - rewrite apply_unregister by done. destruct (om_find name' ns) as [e'|] eqn:E'; [|done]. case_decide as Eo; [|done].
    cbn [snd]. rewrite om_find_erase, decide_False; [done|]. intros ->. simplify_eq.
    destruct Hc as [_ Hk]. destruct Ho as [Ho|Ho]; [by rewrite Ho in Hk|done].
Qed.

(** C24. The text commands implement the abstract namespace: whatever sequence of valid
    commands the log holds, the state is the abstract map and every client is told
    the abstract answer; and a line of text is a valid command exactly when it is the
    text of a well-formed abstract command, every other line changing nothing. *)
Theorem namespace_refines cs ns :
  Forall command_ok cs →
  ns_map (apply_all ns (command_text <$> cs)) = spec_all (ns_map ns) cs ∧
  replies ns (command_text <$> cs) = answer_text <$> spec_replies (ns_map ns) cs ∧
  ∀ t, (valid_command t = true ↔ ∃ c, command_ok c ∧ t = command_text c) ∧
       (valid_command t = false → apply_command ns t = ([], ns)).
Proof.
  intros Hcs. split; [|split].
  - revert ns. induction Hcs as [|c cs Hc Hcs IH]; intros ns; [done|]. cbn. rewrite IH.
    unfold spec_all. f_equal. by apply apply_refines.
  - revert ns. induction Hcs as [|c cs Hc Hcs IH]; intros ns; [done|]. cbn.
    destruct (apply_refines ns c Hc) as [-> E]. f_equal. by rewrite IH, E.
  - intros t. split; [split; [apply valid_command_text|]|apply apply_command_invalid].
    intros (c & Hc & ->). by apply command_text_valid.
Qed.

(** A name once bound keeps its key and owner through any further log entries, valid
    or not, unless one of them is the deletion carrying the hash of its own owner's
    secret; a name bound without an owner is never deleted. *)
Theorem name_kept_for_its_owner ns texts name e :
  om_find name ns = Some e →
  ne_owner e = [] ∨ unregister_command name (ne_owner e) ∉ texts →
  om_find name (apply_all ns texts) = Some e.
Proof.
  revert ns. induction texts as [|t texts IH]; intros ns Hf Ho; [done|]. cbn. apply IH.
  - apply apply_keeps; [done|]. destruct Ho as [|Ho]; [by left|right]. intros ->. apply Ho, elem_of_cons. by left.
  - destruct Ho as [|Ho]; [by left|right]. intros Hin. apply Ho, elem_of_cons. by right.
Qed.

(** ** Requests become commands *)

Lemma command_length c : command_ok c → length (command_text c) ≤ 300.
Proof.
  destruct c as [|name key owner|name owner]; cbn [command_ok command_text]; [cbn; lia|..].
  - intros (Hn%valid_name_length & Hk%valid_key_length & Ho). unfold register_command, MAX_NAME in *.
    rewrite !length_app, Hk. change (length (lit "REGISTER ")) with 9. change (length (lit " ")) with 1.
    case_bool_decide; [cbn; lia|]. destruct Ho as [|Ho%valid_key_length]; [done|]. rewrite length_app, Ho. cbn. lia.
  - intros (Hn%valid_name_length & Hk%valid_key_length). unfold unregister_command, MAX_NAME in *.
    rewrite !length_app, Hk. cbn. lia.
Qed.

Lemma command_fits c : command_ok c → valid_command (command_text c) = true ∧ length (command_text c) ≤ MAX_LINE.
Proof.
  intros Hc. split; [by apply command_text_valid|]. pose proof (command_length c Hc). unfold MAX_LINE. lia.
Qed.

Lemma sha1_valid_key {SH : Sha1} {SHok : Sha1Ok SH} s : valid_key (sha1 s) = true.
Proof.
  unfold valid_key. rewrite sha1_length. cbn [Nat.eqb andb]. apply forallb_Forall, sha1_lower_hex.
Qed.

(** What a replica logs for a client: a request line the parser accepts as a
    registration or a deletion becomes a valid command, short enough for one line of
    the wire; a line it refuses carries an error reply. *)
Theorem request_becomes_command {SH : Sha1} {SHok : Sha1Ok SH} line :
  let r := parse_names_request line in
  match r_kind r with
  | KRegister => valid_command (register_command (r_name r) (r_key r) (r_owner r)) = true ∧
                 length (register_command (r_name r) (r_key r) (r_owner r)) ≤ MAX_LINE
  | KUnregister => valid_command (unregister_command (r_name r) (owner_hash (r_secret r))) = true ∧
                   length (unregister_command (r_name r) (owner_hash (r_secret r))) ≤ MAX_LINE
  | KInvalid => starts_with (lit "ERR ") (r_error r) = true
  | _ => True
  end.
Proof.
  cbv zeta. unfold parse_names_request. case_bool_decide; [done|]. cbv zeta.
  set (w := split_single_spaces line). clearbody w. set (verb := default [] (head w)). clearbody verb.
  destruct (_ && _); [done|]. repeat case_bool_decide; try done.
  - unfold parse_register. destruct w as [|w0 [|name [|key [|owner [|w4 w]]]]]; try done;
      (destruct (valid_name name) eqn:Hn; [|done]); (destruct (valid_key key) eqn:Hk; [|done]); cbn [negb drop forallb].
    + apply command_fits with (c := Register name key []). by split_and!; auto.
    + destruct (valid_key owner) eqn:Ho; [|done]. apply command_fits with (c := Register name key owner). by split_and!; auto.
  - unfold parse_unregister. destruct w as [|w0 [|name [|secret [|w3 w]]]]; try done.
    destruct (valid_name name) eqn:Hn; [|done]. destruct (valid_secret secret); [|done].
    apply command_fits with (c := Unregister name (owner_hash secret)). split; [done|]. apply sha1_valid_key.
  - unfold parse_resolve. destruct w as [|w0 [|name [|w2 w]]]; try done. by destruct (valid_name name).
  - unfold parse_page. destruct w as [|w0 [|after [|w2 w]]]; try done. by destruct (valid_name after).
  - unfold parse_page. destruct w as [|w0 [|after [|w2 w]]]; try done. by destruct (valid_name after).
Qed.

(** ** Pages *)

Definition page_budget (verb : bytes) : nat := MAX_LINE - length verb - 5.
Definition page_items (ns : Namespace) (verb after : bytes) (from_start : bool) (word : bytes * NameEntry → bytes)
    : Namespace :=
  fill (λ x, length (word x)) (page_budget verb) (if from_start then ns else om_after after ns).

Lemma page_eq ns verb after from_start word :
  page ns verb after from_start word =
  verb ++ lit " " ++ dec (N.of_nat (length (page_items ns verb after from_start word))) ++
  concat (word <$> page_items ns verb after from_start word).
Proof. reflexivity. Qed.

Lemma sum_words {A} (word : A → bytes) l : length (concat (word <$> l)) = sum_list_with (λ x, length (word x)) l.
Proof. induction l as [|x l IH]; [done|]. cbn. by rewrite length_app, IH. Qed.

Lemma length_words {A} (word : A → bytes) l :
  (∀ x, x ∈ l → 2 ≤ length (word x)) → 2 * length l ≤ sum_list_with (λ x, length (word x)) l.
Proof.
  induction l as [|x l IH]; intros H; [cbn; lia|]. cbn [length sum_list_with].
  pose proof (H x ltac:(apply elem_of_cons; by left)). assert (2 * length l ≤ sum_list_with (λ x, length (word x)) l).
  { apply IH. intros y Hy. apply H, elem_of_cons. by right. } lia.
Qed.

Lemma page_items_elem ns verb after from_start word x :
  x ∈ page_items ns verb after from_start word → x ∈ ns.
Proof.
  unfold page_items. intros Hx. destruct (fill_prefix (λ x, length (word x)) (page_budget verb)
    (if from_start then ns else om_after after ns)) as [k Hk].
  assert (Hin : x ∈ if from_start then ns else om_after after ns) by (rewrite Hk; apply elem_of_app; by left).
  destruct from_start; [done|]. by apply list_elem_of_filter in Hin as [_ Hin].
Qed.

(** A reply fits the line: the count never needs more than the four digits set aside. *)
Lemma page_fits ns verb after from_start word :
  length verb ≤ 100 → (∀ x, x ∈ ns → 2 ≤ length (word x)) →
  length (page ns verb after from_start word) ≤ MAX_LINE ∧
  length (page_items ns verb after from_start word) ≤ 512.
Proof.
  intros Hverb Hw. rewrite page_eq. set (items := page_items _ _ _ _ _) in *.
  assert (Hcost : sum_list_with (λ x, length (word x)) items ≤ page_budget verb) by apply fill_cost.
  assert (Hlen : 2 * length items ≤ sum_list_with (λ x, length (word x)) items).
  { apply length_words. intros x Hx. eapply Hw, page_items_elem, Hx. }
  unfold page_budget, MAX_LINE in *. split; [|lia].
  rewrite !length_app, sum_words. change (length (lit " ")) with 1.
  assert (Hd : length (dec (N.of_nat (length items))) ≤ 4) by (apply (dec_go_length 20 3); change (10 ^ N.of_nat 4)%N with 10000%N; lia). lia.
Qed.

Lemma list_word_length (x : bytes * NameEntry) : valid_name x.1 = true → 2 ≤ length (list_word x).
Proof. intros H%valid_name_length. unfold list_word. rewrite length_app. cbn. lia. Qed.
Lemma entries_word_length (x : bytes * NameEntry) :
  valid_name x.1 = true → valid_key (ne_key x.2) = true → 2 ≤ length (entries_word x) ≤ 242.
Proof.
  intros H%valid_name_length H'%valid_key_length. unfold entries_word, MAX_NAME in *. rewrite !length_app, H'. cbn. lia.
Qed.

(** The two listings a replica gives, and that an item always has room on a page. *)
Definition listing (verb : bytes) (word : bytes * NameEntry → bytes) : Prop :=
  (verb, word) = (lit "NAMES", list_word) ∨ (verb, word) = (lit "ENTRIES", entries_word).

Lemma listing_word ns verb word x : names_ok ns → listing verb word → x ∈ ns →
  length verb ≤ 100 ∧ 2 ≤ length (word x) ≤ page_budget verb.
Proof.
  intros [_ Hns] Hl Hx. destruct x as [name e]. destruct (Hns _ _ Hx) as [Hn Hk].
  pose proof (valid_name_length _ Hn) as Hn'. destruct Hl as [[= -> ->]|[= -> ->]].
  - split; [cbn; lia|]. split; [by apply list_word_length|]. unfold list_word. rewrite length_app.
    unfold page_budget, MAX_LINE, MAX_NAME in *. cbn in *. lia.
  - split; [cbn; lia|]. pose proof (entries_word_length (name, e) Hn Hk). unfold page_budget, MAX_LINE. cbn in *. lia.
Qed.

Lemma page_items_nonempty (ns : Namespace) verb after (from_start : bool) word : names_ok ns → listing verb word →
  (if from_start then ns else om_after after ns) ≠ [] → page_items ns verb after from_start word ≠ [].
Proof.
  intros Hns Hl Hne. apply fill_progress; [done|]. intros x Hx.
  assert (Hin : x ∈ ns) by (destruct from_start; [done|by apply list_elem_of_filter in Hx as [_ ?]]).
  by destruct (listing_word ns verb word x Hns Hl Hin) as [_ [_ ?]].
Qed.

(** ** Witnesses *)
#[local] Existing Instances demo_sha1 demo_sha1_ok.

Definition demo_file : bytes := "notes.txt".
Definition demo_key : bytes := sha1 (lit "manifest").
Definition demo_owner : bytes := sha1 (lit "secret").
Definition demo_commands : list Command := [Register demo_file demo_key demo_owner; Noop; Unregister demo_file demo_owner].

Lemma namespace_refines_witness :
  ns_map (apply_all [] (command_text <$> demo_commands)) = spec_all (ns_map []) demo_commands ∧
  replies [] (command_text <$> demo_commands) = answer_text <$> spec_replies (ns_map []) demo_commands ∧
  ∀ t, (valid_command t = true ↔ ∃ c, command_ok c ∧ t = command_text c) ∧
       (valid_command t = false → apply_command [] t = ([], [])).
Proof.
  apply (namespace_refines demo_commands []). unfold demo_commands.
  repeat constructor; try (right; vm_compute; reflexivity); vm_compute; reflexivity.
Defined.

Lemma name_kept_for_its_owner_witness :
  om_find demo_file (apply_all [(demo_file, mkNameEntry demo_key demo_owner)]
    [register_command demo_file demo_owner []; unregister_command demo_file demo_key; lit "junk"]) =
  Some (mkNameEntry demo_key demo_owner).
Proof.
  apply (name_kept_for_its_owner [(demo_file, mkNameEntry demo_key demo_owner)]
    [register_command demo_file demo_owner []; unregister_command demo_file demo_key; lit "junk"]
    demo_file (mkNameEntry demo_key demo_owner)).
  - vm_compute. reflexivity.
  - right. apply (bool_decide_unpack _). vm_compute. exact I.
Defined.

Lemma request_becomes_command_witness :
  let r := parse_names_request (lit "REGISTER notes.txt " ++ demo_key) in
  match r_kind r with
  | KRegister => valid_command (register_command (r_name r) (r_key r) (r_owner r)) = true ∧
                 length (register_command (r_name r) (r_key r) (r_owner r)) ≤ MAX_LINE
  | KUnregister => valid_command (unregister_command (r_name r) (owner_hash (r_secret r))) = true ∧
                   length (unregister_command (r_name r) (owner_hash (r_secret r))) ≤ MAX_LINE
  | KInvalid => starts_with (lit "ERR ") (r_error r) = true
  | _ => True
  end.
Proof. apply (@request_becomes_command demo_sha1 demo_sha1_ok (lit "REGISTER notes.txt " ++ demo_key)). Defined.
