(* ===== verification/Options.v ===== *)
(** * Options: reading a command line (node.cpp, tracker.cpp, client.cpp)

    The strict numbers, addresses and secrets the programs take as options. *)
From S2P Require Import Prelude Text Chord Lookup Names.

(** Digits only, at most [maxlen] of them, and in range. *)
Definition parse_whole (maxlen : nat) (s : bytes) (lo hi : Z) : option Z :=
  if bool_decide (s = []) || (maxlen <? length s) then None
  else
    v ← digits_val s;
    let v := Z.of_N v in
    if (v <? lo)%Z || (hi <? v)%Z then None else Some v.
Definition parse_int : bytes → Z → Z → option Z := parse_whole 7.
Definition parse_number : bytes → Z → Z → option Z := parse_whole 12.

(** "ip:port" through the membership parser, so it is canonical and its identifier computed. *)
Definition parse_address `{Sha1, Inet} (text : bytes) : option Peer :=
  if bool_decide (NL ∈ text) then None
  else match parse_members text with inr [p] => Some p | _ => None end.
Definition parse_one `{Sha1, Inet} (text : bytes) : option Peer :=
  if bool_decide (text = []) then None else parse_address text.

(** A list of them, in the order given, added to those given before. *)
Definition parse_list `{Sha1, Inet} (text : bytes) (out : list Peer) : option (list Peer) :=
  more ← mapM parse_one (getlines COMMA text);
  if bool_decide (out ++ more = []) then None else Some (out ++ more).

(** The first line of a file, without the spaces and carriage returns at its end:
    a secret. *)
Fixpoint drop_while_end (p : Ascii.ascii → bool) (s : bytes) : bytes :=
  match s with
  | [] => []
  | c :: s => match drop_while_end p s with [] => if p c then [] else [c] | s => c :: s end
  end.
Definition first_line (content : bytes) : option bytes := head (getlines NL content).
Definition trim_secret (line : bytes) : bytes := drop_while_end (λ c, bool_decide (c = CR) || bool_decide (c = SPACE)) line.
Definition read_secret (content : option bytes) : option bytes :=
  content ← content; line ← first_line content;
  let token := trim_secret line in
  if valid_secret token then Some token else None.

(** While the digits are read no value overflows: at most seven digits stay within
    an [int], at most twelve within a [long long]; and what comes out is in range. *)
Lemma digits_val_take s n v : digits_val s = Some v → ∃ v', digits_val (take n s) = Some v' ∧ (v' < 10 ^ N.of_nat (length (take n s)))%N.
Proof.
  intros H. destruct (digits_val (take n s)) as [v'|] eqn:E; [exists v'; split; [done|by apply digits_val_bound]|].
  exfalso. rewrite <- (take_drop n s) in H. unfold digits_val in *. rewrite foldl_app, E in H. clear E.
  induction (drop n s) as [|c l IH]; [done|]. by apply IH.
Qed.

Theorem parse_whole_bounds maxlen s lo hi v : parse_whole maxlen s lo hi = Some v →
  (lo <= v <= hi)%Z ∧ ∀ n, ∃ v', digits_val (take n s) = Some v' ∧ (v' < 10 ^ N.of_nat maxlen)%N.
Proof.
  unfold parse_whole. case_bool_decide; [done|]. destruct (Nat.ltb_spec maxlen (length s)) as [|Hl]; [done|]. cbn [orb].
  destruct (digits_val s) as [w|] eqn:E; [|done]. cbn [mbind option_bind].
  destruct (Z.ltb_spec (Z.of_N w) lo); [done|]. destruct (Z.ltb_spec hi (Z.of_N w)); [done|]. cbn [orb]. intros [= <-].
  split; [lia|]. intros n. destruct (digits_val_take s n w E) as (v' & E' & Hv). exists v'. split; [done|].
  eapply N.lt_le_trans; [exact Hv|]. apply N.pow_le_mono_r; [done|]. rewrite length_take. lia.
Qed.
