(* ===== verification/Stabilize.v ===== *)
(** * Stabilize: a ring member's routing state and its upkeep (stabilize.h, stabilize.cpp)

    [NodeState] is what the lock guards. Every function here runs on a pair of
    that state and the rest of the world; the lock is never held across a
    transport call, so a transport may return with the node's own state changed
    too: those are the other threads of the process, whose critical sections ran
    meanwhile. *)
From S2P Require Import Prelude Text Net Chord Lookup OrdMap.

Definition DEFAULT_SUCCESSORS : nat := 8.
Definition MAX_SUCCESSORS : nat := 16.
Definition STRIKES_TO_EVICT : N := 2.
Definition MAX_CONTACTS : nat := 32.
Definition MAX_WALK : nat := 64.

(** ** State *)

Record RingCounters := mkRingCounters {
  c_rounds : N; c_strikes : N; c_evicted_refused : N; c_evicted_strikes : N; c_evicted_orphan : N;
  c_new_successor : N; c_rejoins : N;
}.
#[export] Instance RingCounters_eta : Eta RingCounters := λ c,
  mkRingCounters (c_rounds c) (c_strikes c) (c_evicted_refused c) (c_evicted_strikes c) (c_evicted_orphan c)
    (c_new_successor c) (c_rejoins c).
Definition no_counts : RingCounters := mkRingCounters 0 0 0 0 0 0 0.
(** [fetch_add(1)] on a 64-bit atomic. *)
Definition bump (n : N) : N := wrap64N (n + 1).

Record NodeState := mkNodeState {
  ns_self : Peer;                      (* never changes *)
  ns_r : nat;                          (* never changes *)
  ns_has_pred : bool;
  ns_pred : Peer;
  ns_succs : list Peer;                (* never empty *)
  ns_fingers : list Peer;
  ns_next_finger : nat;
  ns_orphaned : bool;
  ns_contacts : list Peer;
  ns_next_contact : N;
  ns_strikes : list (bytes * N);
  ns_counters : RingCounters;
  ns_log : option (list bytes);        (* what was logged, if there is a log *)
}.
#[export] Instance NodeState_eta : Eta NodeState := λ s,
  mkNodeState (ns_self s) (ns_r s) (ns_has_pred s) (ns_pred s) (ns_succs s) (ns_fingers s) (ns_next_finger s)
    (ns_orphaned s) (ns_contacts s) (ns_next_contact s) (ns_strikes s) (ns_counters s) (ns_log s).

Definition no_peer : Peer := mkPeer 0 [] 0.
Definition new_node (me : Peer) (successors : nat) (log : option (list bytes)) : NodeState :=
  mkNodeState me successors false no_peer [me] (replicate ID_BITS me) 1 false [] 0 [] no_counts log.

(** [s.succs[0]]: the list is never empty. *)
Definition succ0 (s : NodeState) : Peer := default (ns_self s) (head (ns_succs s)).

Abbreviation Events := (list bytes) (only parsing).
Definition emit (s : NodeState) (events : Events) : NodeState :=
  match ns_log s with None => s | Some l => s <| ns_log := Some (l ++ events) |> end.

Definition same_process (a b : Peer) : bool :=
  bool_decide (peer_ip a = peer_ip b) && (peer_port a =? peer_port b)%Z.
Definition same_node (a b : Peer) : bool := same_process a b && (peer_id a =? peer_id b)%Z.

Definition member_key (p : Peer) : bytes := address p ++ lit "/" ++ id_to_hex (peer_id p).

Definition is_pong (reply : bytes) : bool := starts_with (lit "PONG ") reply.
Definition is_ok (reply : bytes) : bool := bool_decide (reply = lit "OK").

(** ** Eviction and strikes *)

(** [consider] folded over the fingers, then the predecessor. The distance is 0
    while nothing has been found. *)
Definition consider (self : Peer) (gone : Peer → bool) (best : Peer * Z) (p : Peer) : Peer * Z :=
  if same_node p self || gone p || (peer_id p =? peer_id self)%Z then best
  else
    let distance := wrap64 (peer_id p - peer_id self) in
    if (best.2 =? 0)%Z || (distance <? best.2)%Z then (p, distance) else best.

Definition nearest_known_locked (s : NodeState) (gone : Peer → bool) : Peer :=
  (foldl (consider (ns_self s) gone) (ns_self s, 0%Z)
     (ns_fingers s ++ if ns_has_pred s then [ns_pred s] else [])).1.

(** The first repeat is erased. *)
Fixpoint erase_node (p : Peer) (l : list Peer) : list Peer :=
  match l with
  | [] => []
  | q :: l => if same_node q p then l else q :: erase_node p l
  end.

Definition remember_locked (s : NodeState) (p : Peer) : NodeState :=
  if same_process p (ns_self s) then s
  else
    let contacts := p :: erase_node p (ns_contacts s) in
    s <| ns_contacts := if MAX_CONTACTS <? length contacts then take (length contacts - 1) contacts else contacts |>.

Definition gone (whole_process : bool) (dead p : Peer) : bool :=
  if whole_process then same_process p dead else same_node p dead.

(** The entry after [dead] that does not go too. *)
Fixpoint replacement (g : Peer → bool) (succs : list Peer) : option Peer :=
  match succs with
  | [] => None
  | p :: l => if g p then List.find (λ q, negb (g q)) l else replacement g l
  end.

(** Clear the successor list of everything gone, falling back when nothing is left. *)
Definition evict_succs (s : NodeState) (g : Peer → bool) : NodeState * Events :=
  let kept := filter (λ p, g p = false) (ns_succs s) in
  if bool_decide (kept = []) then
    let fallback := nearest_known_locked s g in
    if same_node fallback (ns_self s) && negb (same_node (succ0 s) (ns_self s))
    then (s <| ns_succs := [fallback] |> <| ns_orphaned := true |>,
          [lit "orphaned: every known node is gone; refusing to route until rejoined"])
    else (s <| ns_succs := [fallback] |>, [lit "successor list exhausted; falling back to " ++ address fallback])
  else (s <| ns_succs := kept |>, []).

Definition evict_fingers (s : NodeState) (g : Peer → bool) (by_list : option Peer) : NodeState :=
  let fingers := (λ f, if g f then default (succ0 s) by_list else f) <$> ns_fingers s in
  s <| ns_fingers := <[0 := succ0 s]> fingers |>.

Definition forget_strikes (s : NodeState) (dead : Peer) (whole_process : bool) : NodeState :=
  s <| ns_strikes := filter (λ x, (if whole_process then starts_with (address dead ++ lit "/") x.1
                                   else bool_decide (x.1 = member_key dead)) = false) (ns_strikes s) |>.

Definition count_eviction (c : RingCounters) (whole_process sibling_said_so : bool) : RingCounters :=
  if sibling_said_so then c <| c_evicted_orphan := bump (c_evicted_orphan c) |>
  else if whole_process then c <| c_evicted_refused := bump (c_evicted_refused c) |>
  else c <| c_evicted_strikes := bump (c_evicted_strikes c) |>.

Definition evict_locked (s : NodeState) (dead : Peer) (why : bytes) (whole_process sibling_said_so : bool)
    : NodeState * Events :=
  if same_node dead (ns_self s) then (s, [])
  else if same_process dead (ns_self s) && negb sibling_said_so then (s, [])
  else
    let g := gone whole_process dead in
    let by_list := replacement g (ns_succs s) in
    let was_known := existsb g (ns_succs s) || (ns_has_pred s && g (ns_pred s)) || existsb g (ns_fingers s) in
    let '(s, events) := evict_succs s g in
    let s := if ns_has_pred s && g (ns_pred s) then s <| ns_has_pred := false |> else s in
    let s := forget_strikes (evict_fingers s g by_list) dead whole_process in
    if was_known then
      (s <| ns_counters := count_eviction (ns_counters s) whole_process sibling_said_so |>,
       events ++ [lit "evict " ++ address dead ++ lit " (" ++ why ++ lit ")" ++
                  (if whole_process then [] else lit " member " ++ id_to_hex (peer_id dead))])
    else (s, events).

Definition holds (s : NodeState) (p : Peer) : bool :=
  (ns_has_pred s && same_node p (ns_pred s)) || existsb (same_node p) (ns_succs s) || existsb (same_node p) (ns_fingers s).

Definition strike_locked (s : NodeState) (p : Peer) (why detail : bytes) : NodeState * Events :=
  if same_process p (ns_self s) then (s, [])
  else if negb (holds s p) then (s, [])
  else
    let n := (default 0 (om_find (member_key p) (ns_strikes s)) + 1)%N in
    let s := s <| ns_strikes := om_set (member_key p) n (ns_strikes s) |>
               <| ns_counters := (ns_counters s) <| c_strikes := bump (c_strikes (ns_counters s)) |> |> in
    let event := lit "strike " ++ dec n ++ lit " against " ++ address p ++ lit " (" ++ why ++ lit ")" ++ detail in
    if (STRIKES_TO_EVICT <=? n)%N then
      let '(s, events) := evict_locked s p (why ++ lit ", second strike") false false in (s, event :: events)
    else (s, [event]).

Definition clear_strikes_locked (s : NodeState) (p : Peer) : NodeState :=
  s <| ns_strikes := om_erase (member_key p) (ns_strikes s) |>.

(** ** Starting states *)

Definition init_alone (s : NodeState) : NodeState :=
  s <| ns_has_pred := false |> <| ns_succs := [ns_self s] |> <| ns_fingers := replicate ID_BITS (ns_self s) |>
    <| ns_next_finger := 1 |>.

(** The index of [self], or the length of the list. *)
Fixpoint find_self (self : Peer) (members : list Peer) : nat :=
  match members with
  | [] => 0
  | p :: l => if same_node p self then 0 else S (find_self self l)
  end.

Definition wired_succs (s : NodeState) (members : list Peer) : list Peer :=
  let me := find_self (ns_self s) members in
  let n := length members in
  match take (ns_r s) ((λ step, default no_peer (members !! ((me + step) mod n))) <$> seq 1 (n - 1)) with
  | [] => [ns_self s]
  | l => l
  end.

(** [None]: the membership list is empty, which the caller rules out. *)
Definition init_wired (s : NodeState) (members : list Peer) : option NodeState :=
  fingers ← build_fingers (peer_id (ns_self s)) members;
  pred ← predecessor_of (peer_id (ns_self s)) members;
  let succs := wired_succs s members in
  let has_pred := 1 <? length members in
  let s := s <| ns_succs := succs |> <| ns_has_pred := has_pred |> in
  let s := if has_pred then s <| ns_pred := pred |> else s in
  let s := s <| ns_fingers := <[0 := succ0 s]> fingers |> <| ns_next_finger := 1 |> in
  Some (foldl remember_locked s succs).

(** ** Wire formats *)

Record Neighbours := mkNeighbours { nb_pred : option Peer; nb_succs : list Peer }.

Definition render_neighbours (n : Neighbours) : bytes :=
  lit "NEIGHBOURS " ++ match nb_pred n with Some p => peer_words p | None => lit "NONE" end ++
  lit " " ++ dec (N.of_nat (length (nb_succs n))) ++ concat ((λ p, lit " " ++ peer_words p) <$> nb_succs n).

(** 1..MAX_SUCCESSORS, no leading zero. *)
Definition parse_count (w : bytes) : option nat :=
  if bool_decide (w = []) || (2 <? length w) || bool_decide (head w = Some (digit_char 0)) then None
  else v ← digits_val w;
       if (v <? 1)%N || (N.of_nat MAX_SUCCESSORS <? v)%N then None else Some (N.to_nat v).

Section parse.
Context `{Inet}.

Fixpoint parse_peers (n : nat) (w : list bytes) : bytes + list Peer :=
  match n, w with
  | 0, _ => inr []
  | S n, a :: b :: c :: w =>
      match parse_peer_words a b c with
      | inl why => inl why
      | inr p => match parse_peers n w with inl why => inl why | inr l => inr (p :: l) end
      end
  | S _, _ => inl []
  end.

(** The successor count and the successors, from word [i] on. *)
Definition parse_succs (pred : option Peer) (w : list bytes) : bytes + Neighbours :=
  match w with
  | [] => inl []
  | c :: w =>
      match parse_count c with
      | None => inl (lit "successor count is not a number in 1.." ++ dec (N.of_nat MAX_SUCCESSORS))
      | Some n =>
          if negb (length w =? 3 * n) then inl (lit "successor count does not match the peers given")
          else match parse_peers n w with inl why => inl why | inr l => inr (mkNeighbours pred l) end
      end
  end.

Definition parse_neighbours (line : bytes) : bytes + Neighbours :=
  match split_single_spaces line with
  | w0 :: w1 :: w2 :: rest =>
      if negb (bool_decide (w0 = lit "NEIGHBOURS")) then inl (lit "not a NEIGHBOURS reply")
      else if bool_decide (w1 = lit "NONE") then parse_succs None (w2 :: rest)
      else match rest with
           | w3 :: ((_ :: _) as rest) =>
               match parse_peer_words w1 w2 w3 with
               | inl why => inl (if bool_decide (why = []) then lit "predecessor is incomplete" else why)
               | inr p => parse_succs (Some p) rest
               end
           | _ => inl (lit "predecessor is incomplete")
           end
  | _ => inl (lit "not a NEIGHBOURS reply")
  end.
End parse.

Fixpoint merge_loop (self : Peer) (r : nat) (out l : list Peer) : list Peer :=
  match l with
  | [] => out
  | p :: l =>
      if r <=? length out then out
      else if same_node p self then out
      else if (peer_id p =? peer_id self)%Z then merge_loop self r out l
      else merge_loop self r (if existsb (same_node p) out then out else out ++ [p]) l
  end.
Definition merge_successors (self succ : Peer) (succ_list : list Peer) (r : nat) : list Peer :=
  merge_loop self r [succ] succ_list.

(** ** Calls to other nodes *)

(** [in >> word] until the end: the maximal runs of characters that are not space. *)
Fixpoint stream_words_go (word s : bytes) : list bytes :=
  let done := if bool_decide (word = []) then [] else [word] in
  match s with
  | [] => done
  | c :: s => if is_space c then done ++ stream_words_go [] s else stream_words_go (word ++ [c]) s
  end.
Definition stream_words (s : bytes) : list bytes := stream_words_go [] s.

Inductive Call := CGood | CRefused | CFailed.
#[export] Instance Call_eq_dec : EqDecision Call.
Proof. solve_decision. Defined.

Inductive JoinStatus := Joined | Retry (why : bytes) | Collision (why : bytes).

(** What is left to do once a reply has been sent. *)
Inductive After := Nothing | ProbePredecessor (old candidate : Peer).

Definition first_word (s : bytes) : bytes := take (default (length s) (find_char SPACE s)) s.

Section node.
Context `{Inet} {W : Type}.
Notation State := (NodeState * W)%type (only parsing).
Context (transport : Transport State) (now : State → Z).

(** One critical section. *)
Definition locked (f : NodeState → NodeState) (σ : State) : State := (f σ.1, σ.2).

(** What a finished call does to the state, under the lock. *)
Definition report_call (s : NodeState) (to : Peer) (request : bytes) (d : Delivery) (reply : bytes) (good : bool)
    (took : Z) : NodeState * Events :=
  if good then (clear_strikes_locked s to, [])
  else if bool_decide (d = Ok) && starts_with (lit "ERR orphaned") reply
  then evict_locked s to (lit "it says it is orphaned") false true
  else if bool_decide (d = Refused) then evict_locked s to (lit "refused") true false
  else strike_locked s to (if bool_decide (d = Ok) then lit "bad reply to " ++ first_word request else delivery_name d)
         (lit " after " ++ to_string took ++ lit " ms").

Definition call_peer (to : Peer) (request : bytes) (valid : bytes → bool) (σ : State) : Call * bytes * State :=
  let t0 := now σ in
  let '((d, reply), σ) := transport to request σ in
  let took := (now σ - t0)%Z in
  let good := bool_decide (d = Ok) && negb (starts_with (lit "ERR") reply) && valid reply in
  let σ := locked (λ s, let '(s, events) := report_call s to request d reply good took in emit s events) σ in
  (if good then CGood else if bool_decide (d = Refused) then CRefused else CFailed, reply, σ).

(** ** Joining *)

(** The state a joiner starts from. *)
Definition joined (s : NodeState) (known owner : Peer) (list : option (list Peer)) : NodeState :=
  let succs := match list with Some l => merge_successors (ns_self s) owner l (ns_r s) | None => [owner] end in
  let s := s <| ns_has_pred := false |> <| ns_succs := succs |> <| ns_fingers := replicate ID_BITS owner |>
             <| ns_next_finger := 1 |> <| ns_orphaned := false |> in
  foldl remember_locked (remember_locked s known) (reverse succs).

Definition join_ring (known : Peer) (σ : State) : JoinStatus * State :=
  let self := ns_self σ.1 in
  let '(r, σ) := lookup transport known (peer_id self) σ in
  if negb (result_ok r)
  then (Retry (lit "lookup failed (" ++ lookup_error_name (error r) ++ lit "): " ++ message r), σ)
  else if same_node (found r) self
  then (Retry (lit "the ring still names " ++ address self ++ lit " as a member; waiting for it to be evicted"), σ)
  else if (peer_id (found r) =? peer_id self)%Z
  then (Collision (lit "identifier " ++ id_to_hex (peer_id self) ++ lit " is already used by " ++ address (found r) ++
                   lit "; start this node on another port"), σ)
  else
    let '((d, reply), σ) := transport (found r) (lit "NEIGHBOURS") σ in
    let list := if bool_decide (d = Ok)
                then match parse_neighbours reply with inr nb => Some (nb_succs nb) | inl _ => None end else None in
    (Joined, locked (λ s, joined s known (found r) list) σ).

(** ** Answering requests *)

Definition set_pred (s : NodeState) (c : Peer) : NodeState :=
  remember_locked (s <| ns_pred := c |> <| ns_has_pred := true |>) c.

(** The part of NOTIFY under the lock. *)
Definition notify_locked (s : NodeState) (c : Peer) : NodeState * Events * After :=
  if negb (ns_has_pred s) || in_range_oo (peer_id c) (peer_id (ns_pred s)) (peer_id (ns_self s))
  then (remember_locked
          (s <| ns_pred := c |> <| ns_has_pred := true |> <| ns_strikes := om_erase (member_key c) (ns_strikes s) |>) c,
        [lit "predecessor is now " ++ address c], Nothing)
  else if negb (same_node (ns_pred s) c) then (s, [], ProbePredecessor (ns_pred s) c)
  else (s, [], Nothing).

Definition handle_notify (c : Peer) (σ : State) : bytes * After * State :=
  if same_node c (ns_self σ.1) then (lit "OK", Nothing, σ)
  else if (peer_id c =? peer_id (ns_self σ.1))%Z
  then (lit "OK", Nothing,
        locked (λ s, emit s [lit "refusing " ++ address c ++ lit " as predecessor: it carries my identifier"]) σ)
  else
    let '(s, events, after) := notify_locked σ.1 c in (lit "OK", after, (emit s events, σ.2)).

(** The probe, after the reply has gone. *)
Definition run_after (a : After) (σ : State) : State :=
  match a with
  | Nothing => σ
  | ProbePredecessor old c =>
      let '(call, _, σ) := call_peer old (lit "PING") is_pong σ in
      if bool_decide (call = CGood) then σ
      else locked (λ s, if ns_has_pred s then s else emit (set_pred s c) [lit "predecessor is now " ++ address c]) σ
  end.

Definition suspect_target (s : NodeState) (named : bytes) : option Peer :=
  List.find (λ p, bool_decide (address p = named))
    ((if ns_has_pred s then [ns_pred s] else []) ++ ns_succs s ++ ns_fingers s).

Definition handle_suspect (ip port : bytes) (σ : State) : State :=
  match suspect_target σ.1 (ip ++ lit ":" ++ port) with
  | None => σ
  | Some target =>
      if same_process target (ns_self σ.1) then σ
      else
        let '((d, _), σ) := transport target (lit "PING") σ in
        if bool_decide (d = Refused)
        then locked (λ s, let '(s, events) := evict_locked s target (lit "refused, after a client reported it") true false in
                          emit s events) σ
        else σ
  end.

(** One entry per run of equal fingers: the runs, and how many. *)
Fixpoint finger_runs (i : nat) (prev : option Peer) (l : list Peer) : N * bytes :=
  match l with
  | [] => (0%N, [])
  | f :: l =>
      let '(runs, body) := finger_runs (S i) (Some f) l in
      if match prev with Some q => same_node f q | None => false end then (runs, body)
      else ((runs + 1)%N, lit " " ++ dec (N.of_nat i) ++ lit " " ++ peer_words f ++ body)
  end.

Definition fingers_reply (s : NodeState) : bytes :=
  let '(runs, body) := finger_runs 0 None (ns_fingers s) in
  let reply := lit "FINGERS " ++ dec runs ++ body in
  if MAX_LINE <? length reply then lit "ERR too many distinct fingers for one line" else reply.

Definition find_successor_reply (s : NodeState) (id : bytes) : bytes :=
  match id_from_hex id with
  | None => lit "ERR identifier must be 16 hexadecimal characters"
  | Some k =>
      let step := route_step (ns_self s) (succ0 s) (ns_fingers s) k in
      (if owner step then lit "OWNER " else lit "NEXT ") ++ peer_words (step_peer step)
  end.

Definition ring_verb (verb : bytes) : bool :=
  bool_decide (verb ∈ [lit "PING"; lit "FIND_SUCCESSOR"; lit "NEIGHBOURS"; lit "NOTIFY"]).

Definition handle_request (line : bytes) (σ : State) : bytes * After * State :=
  match stream_words line with
  | [] => (lit "ERR empty request", Nothing, σ)
  | verb :: args =>
      if ring_verb verb && ns_orphaned σ.1 then (lit "ERR orphaned: rejoining the ring", Nothing, σ)
      else match args with
      | [] =>
          if bool_decide (verb = lit "PING") then (lit "PONG " ++ id_to_hex (peer_id (ns_self σ.1)), Nothing, σ)
          else if bool_decide (verb = lit "NEIGHBOURS") then
            (render_neighbours
               (mkNeighbours (if ns_has_pred σ.1 then Some (ns_pred σ.1) else None) (ns_succs σ.1)), Nothing, σ)
          else if bool_decide (verb = lit "FINGERS") then (fingers_reply σ.1, Nothing, σ)
          else (lit "ERR unknown request", Nothing, σ)
      | [a] =>
          if bool_decide (verb = lit "FIND_SUCCESSOR") then (find_successor_reply σ.1 a, Nothing, σ)
          else (lit "ERR unknown request", Nothing, σ)
      | [a; b] =>
          if bool_decide (verb = lit "SUSPECT") then (lit "OK", Nothing, handle_suspect a b σ)
          else (lit "ERR unknown request", Nothing, σ)
      | [a; b; c] =>
          if bool_decide (verb = lit "NOTIFY") then
            match parse_peer_words a b c with
            | inl why => (lit "ERR " ++ why, Nothing, σ)
            | inr c => handle_notify c σ
            end
          else (lit "ERR unknown request", Nothing, σ)
      | _ => (lit "ERR unknown request", Nothing, σ)
      end
  end.

(** ** The maintenance round *)

(** The successor's answer, applied if it is still the successor: its list is
    taken, and a node it names between us and it is returned for checking. *)
Definition take_list (s : NodeState) (succ : Peer) (nb : Neighbours) : NodeState * option Peer :=
  let succs := merge_successors (ns_self s) succ (nb_succs nb) (ns_r s) in
  let s := s <| ns_succs := succs |> in
  let s := s <| ns_fingers := <[0 := succ0 s]> (ns_fingers s) |> in
  let s := foldl remember_locked s (reverse succs) in
  match nb_pred nb with
  | None => (s, None)
  | Some p =>
      if same_node p (ns_self s) || same_node p succ then (s, None)
      else if (peer_id p =? peer_id (ns_self s))%Z
      then (emit s [lit "refusing " ++ address p ++ lit " as successor: it carries my identifier"], None)
      else if in_range_oo (peer_id p) (peer_id (ns_self s)) (peer_id succ) then (s, Some p)
      else (s, None)
  end.

Definition adopt_list (s : NodeState) (candidate : Peer) : list Peer :=
  take (Nat.max 1 (ns_r s)) (candidate :: filter (λ p, same_node p (ns_self s) = false) (ns_succs s)).

Definition adopt (s : NodeState) (candidate : Peer) : NodeState :=
  let s := s <| ns_succs := adopt_list s candidate |> in
  let s := s <| ns_fingers := <[0 := succ0 s]> (ns_fingers s) |> in
  let s := remember_locked s candidate in
  let s := s <| ns_counters := (ns_counters s) <| c_new_successor := bump (c_new_successor (ns_counters s)) |> |> in
  emit s [lit "successor is now " ++ address candidate].

(** Check a candidate, adopt it if it answers and the successor has not changed. *)
Definition verify_candidate (succ candidate : Peer) (σ : State) : bool * State :=
  let '(c, _, σ) := call_peer candidate (lit "PING") is_pong σ in
  if negb (bool_decide (c = CGood)) then (false, σ)
  else if same_node (succ0 σ.1) succ then (true, locked (λ s, adopt s candidate) σ)
  else (false, σ).

Definition notify_successor (σ : State) : State :=
  let target := succ0 σ.1 in
  if same_node target (ns_self σ.1) then σ
  else let '(_, _, σ) := call_peer target (lit "NOTIFY " ++ peer_words (ns_self σ.1)) is_ok σ in σ.

(** One pass: whether to go round again. *)
Definition stabilize_pass (σ : State) : bool * State :=
  let succ := succ0 σ.1 in
  let '(c, reply, σ) := call_peer succ (lit "NEIGHBOURS")
    (λ line, match parse_neighbours line with inr _ => true | inl _ => false end) σ in
  if negb (bool_decide (c = CGood)) then (negb (same_node (succ0 σ.1) succ), σ)
  else match parse_neighbours reply with
  | inl _ => (false, σ)
  | inr nb =>
      if negb (same_node (succ0 σ.1) succ) then (false, σ)
      else
        let '(s, candidate) := take_list σ.1 succ nb in
        let σ := (s, σ.2) in
        let '(moved, σ) := match candidate with
                           | Some p => verify_candidate succ p σ
                           | None => (false, σ)
                           end in
        if moved then (true, σ) else (false, notify_successor σ)
  end.

Fixpoint stabilize_loop (passes : nat) (σ : State) : State :=
  match passes with
  | 0 => σ
  | S n => let '(again, σ) := stabilize_pass σ in if again then stabilize_loop n σ else σ
  end.

(** [pass <= MAX_SUCCESSORS + MAX_WALK] *)
Definition stabilize (σ : State) : State := stabilize_loop (S (MAX_SUCCESSORS + MAX_WALK)) σ.

Definition check_predecessor (σ : State) : State :=
  if negb (ns_has_pred σ.1) || same_node (ns_pred σ.1) (ns_self σ.1) then σ
  else let '(_, _, σ) := call_peer (ns_pred σ.1) (lit "PING") is_pong σ in σ.

Definition after_finger (i : nat) : nat := if ID_BITS <=? i + 1 then 1 else i + 1.

(** How far an answer fills: the first index from [j] on whose start it does not cover. *)
Fixpoint fill_fingers (fuel : nat) (self : Id) (owner : Peer) (j : nat) (fingers : list Peer) : nat * list Peer :=
  match fuel with
  | 0 => (j, fingers)
  | S n =>
      if (j <? ID_BITS) && in_range_oc (finger_start self j) self (peer_id owner)
      then fill_fingers n self owner (S j) (<[j := owner]> fingers)
      else (j, fingers)
  end.

Definition finger_failed (s : NodeState) (r : LookupResult) (i : nat) : NodeState * Events :=
  let blame := negb (bool_decide (error r = LTooManyRequests)) && negb (bool_decide (error r = LUnreachable)) in
  let '(s, events) :=
    match last (path r) with
    | Some p =>
        if negb blame then (s, [])
        else
          let why := lookup_error_name (error r) ++ lit " during fix_fingers" in
          if bool_decide (error r = LRefused) then evict_locked s p why true false else strike_locked s p why []
    | None => (s, [])
    end in
  (s <| ns_next_finger := after_finger i |>, events).

Definition finger_found (s : NodeState) (owner : Peer) (i : nat) : NodeState :=
  let '(j, fingers) := fill_fingers ID_BITS (peer_id (ns_self s)) owner i (ns_fingers s) in
  let '(j, fingers) := if j =? i then (i + 1, <[i := owner]> fingers) else (j, fingers) in
  let s := s <| ns_fingers := <[0 := succ0 s]> fingers |> <| ns_next_finger := if ID_BITS <=? j then 1 else j |> in
  remember_locked s owner.

Definition fix_next_finger (σ : State) : State :=
  let i := ns_next_finger σ.1 in
  let self := ns_self σ.1 in
  let '(r, σ) := lookup transport self (finger_start (peer_id self) i) σ in
  locked (λ s,
    if negb (result_ok r) then let '(s, events) := finger_failed s r i in emit s events
    else if (peer_id (found r) =? peer_id (ns_self s))%Z && negb (same_node (found r) (ns_self s))
    then emit (s <| ns_next_finger := after_finger i |>)
           [lit "refusing " ++ address (found r) ++ lit " as a finger: it carries my identifier"]
    else finger_found s (found r) i) σ.

(** Draw the next contact, round-robin. *)
Definition next_contact (s : NodeState) : option Peer * NodeState :=
  match ns_contacts s with
  | [] => (None, s)
  | l => (l !! N.to_nat (ns_next_contact s mod N.of_nat (length l)),
          s <| ns_next_contact := bump (ns_next_contact s) |>)
  end.

Definition rejoin (contact : Peer) (σ : State) : State :=
  let '(st, σ) := join_ring contact σ in
  locked (λ s,
    match st with
    | Joined => emit (s <| ns_counters := (ns_counters s) <| c_rejoins := bump (c_rejoins (ns_counters s)) |> |>)
                  [lit "rejoined through " ++ address contact]
    | Retry why | Collision why => emit s [lit "rejoin through " ++ address contact ++ lit " failed: " ++ why]
    end) σ.

Definition maintenance_round (σ : State) : State :=
  let σ := locked (λ s, s <| ns_counters := (ns_counters s) <| c_rounds := bump (c_rounds (ns_counters s)) |> |>) σ in
  if ns_orphaned σ.1 then
    let '(contact, s) := next_contact σ.1 in
    match contact with
    | None => (s, σ.2)
    | Some c => rejoin c (s, σ.2)
    end
  else fix_next_finger (check_predecessor (stabilize σ)).
End node.
