(* ===== verification/StabilizeInv.v ===== *)
(** * StabilizeInv: what every critical section of a ring member keeps

    [node_ok] is the invariant of a member's state (stabilize.h). Each critical
    section keeps it, and a round of maintenance or a request keeps it provided
    the other threads do, whose sections may run during any call to another node:
    a transport is required only to return a state that satisfies the invariant. *)
From S2P Require Import Prelude Text Net Chord Lookup OrdMap Stabilize.

Lemma same_process_true a b : same_process a b = true ↔ peer_ip a = peer_ip b ∧ peer_port a = peer_port b.
Proof. unfold same_process. rewrite andb_true_iff, bool_decide_eq_true, Z.eqb_eq. done. Qed.

Lemma same_node_eq a b : same_node a b = true ↔ a = b.
Proof.
  unfold same_node. rewrite andb_true_iff, same_process_true, Z.eqb_eq. destruct a, b; cbn.
  split; [intros [[-> ->] ->]; done|by intros [= -> -> ->]].
Qed.
Lemma same_node_refl a : same_node a a = true.
Proof. by apply same_node_eq. Qed.
Lemma same_node_false a b : same_node a b = false ↔ a ≠ b.
Proof. rewrite <- not_true_iff_false, same_node_eq. done. Qed.
Lemma existsb_same_node p l : existsb (same_node p) l = true ↔ p ∈ l.
Proof.
  rewrite existsb_exists, list_elem_of_In. split.
  - by intros (q & Hin & ->%same_node_eq).
  - intros Hin. exists p. split; [done|apply same_node_refl].
Qed.

Section inv.
Context {IN : Inet} {IOk : InetOk IN}.

(** A peer that may stand in this member's tables: well formed, and not another
    node carrying this member's identifier. *)
Definition held_ok (self p : Peer) : Prop := peer_ok p ∧ (peer_id p = peer_id self → p = self).

Definition strikes_ok (strikes : list (bytes * N)) : Prop :=
  om_ok strikes ∧ ∀ key n, om_find key strikes = Some n → n = 1%N.

(** Everything but the strikes. [alone]: the member may be a ring of its own. *)
Record tables_ok (alone : bool) (s : NodeState) : Prop := mkTablesOk {
  tb_self : peer_ok (ns_self s);
  tb_r : 1 ≤ ns_r s;
  tb_succs : ns_succs s ≠ [];
  tb_length : length (ns_succs s) ≤ ns_r s;
  tb_tail : ns_self s ∉ tail (ns_succs s);
  tb_fingers : length (ns_fingers s) = ID_BITS;
  tb_finger0 : head (ns_fingers s) = head (ns_succs s);
  tb_next : 1 ≤ ns_next_finger s < ID_BITS;
  tb_held : Forall (held_ok (ns_self s)) (ns_succs s ++ ns_fingers s);
  tb_pred : ns_has_pred s = true → held_ok (ns_self s) (ns_pred s) ∧ ns_pred s ≠ ns_self s;
  tb_contacts : length (ns_contacts s) ≤ MAX_CONTACTS ∧ NoDup (ns_contacts s) ∧
    Forall (λ p, same_process p (ns_self s) = false) (ns_contacts s);
  tb_claim : alone = false → succ0 s = ns_self s → ns_orphaned s = true;
}.

Definition node_ok (alone : bool) (s : NodeState) : Prop := tables_ok alone s ∧ strikes_ok (ns_strikes s).

Lemma self_held self : peer_ok self → held_ok self self.
Proof. by split. Qed.

Lemma succ0_head s : ns_succs s ≠ [] → head (ns_succs s) = Some (succ0 s).
Proof. unfold succ0. by destruct (ns_succs s). Qed.

Lemma succ0_held alone s : tables_ok alone s → held_ok (ns_self s) (succ0 s).
Proof.
  intros Hs. pose proof (succ0_head s (tb_succs _ _ Hs)) as Hh. pose proof (tb_held _ _ Hs) as Hp.
  rewrite Forall_forall in Hp. apply Hp, elem_of_app. left. by apply head_elem.
Qed.

(** ** Contacts, log and counters *)

Lemma elem_of_erase_node p q l : q ∈ erase_node p l → q ∈ l.
Proof.
  induction l as [|x l IH]; [done|]. cbn. destruct (same_node x p); rewrite !elem_of_cons; [by right|naive_solver].
Qed.
Lemma erase_node_nodup p l : NoDup l → NoDup (erase_node p l) ∧ p ∉ erase_node p l.
Proof.
  induction l as [|x l IH]; intros Hl; cbn; [split; [done|apply not_elem_of_nil]|].
  apply NoDup_cons in Hl as [Hx Hl]. destruct (same_node x p) eqn:E; [by apply same_node_eq in E; subst|].
  destruct (IH Hl) as [H1 H2]. apply same_node_false in E. split.
  - apply NoDup_cons. split; [|done]. by intros ?%elem_of_erase_node.
  - rewrite elem_of_cons. naive_solver.
Qed.
Lemma length_erase_node p l : length (erase_node p l) ≤ length l.
Proof. induction l as [|x l IH]; cbn; [lia|]. destruct (same_node x p); cbn; lia. Qed.

(** What [remember_locked] may change. *)
Lemma remember_fields s p :
  ∃ contacts, remember_locked s p = s <| ns_contacts := contacts |>.
Proof.
  unfold remember_locked. destruct (same_process p (ns_self s)); [|by eexists].
  exists (ns_contacts s). by destruct s.
Qed.

Lemma remember_tables alone s p : tables_ok alone s → tables_ok alone (remember_locked s p).
Proof.
  intros Hs. unfold remember_locked. destruct (same_process p (ns_self s)) eqn:Ep; [done|].
  destruct Hs as [? ? ? ? ? ? ? ? ? ? (Hl & Hn & Hf) ?]. split; try done. upd.
  set (c := p :: erase_node p (ns_contacts s)). destruct (erase_node_nodup p _ Hn) as [Hn' Hp].
  assert (Hc : NoDup c) by by apply NoDup_cons.
  assert (Hfc : Forall (λ q, same_process q (ns_self s) = false) c).
  { constructor; [done|]. apply Forall_forall. intros q Hq%elem_of_erase_node. rewrite Forall_forall in Hf. by apply Hf. }
  assert (Hlc : length c ≤ S MAX_CONTACTS) by (subst c; cbn; pose proof (length_erase_node p (ns_contacts s)); lia).
  destruct (Nat.ltb_spec MAX_CONTACTS (length c)); [|by split_and!].
  split_and!; [rewrite length_take; lia|by eapply sublist_NoDup, sublist_take|by apply Forall_take].
Qed.

Lemma remember_node alone s p : node_ok alone s → node_ok alone (remember_locked s p).
Proof.
  intros [Ht Hs]. split; [by apply remember_tables|]. destruct (remember_fields s p) as [c ->]. done.
Qed.

Lemma remember_all alone l s : node_ok alone s → node_ok alone (foldl remember_locked s l).
Proof. revert s. induction l as [|p l IH]; intros s Hs; [done|]. cbn. by apply IH, remember_node. Qed.

Lemma remember_self s p : ns_self (remember_locked s p) = ns_self s ∧ ns_r (remember_locked s p) = ns_r s.
Proof. destruct (remember_fields s p) as [c ->]. done. Qed.
Lemma remember_all_self l s :
  ns_self (foldl remember_locked s l) = ns_self s ∧ ns_r (foldl remember_locked s l) = ns_r s.
Proof.
  revert s. induction l as [|p l IH]; intros s; [done|]. cbn [foldl].
  destruct (IH (remember_locked s p)) as [-> ->]. apply remember_self.
Qed.

Lemma emit_node alone s es : node_ok alone s → node_ok alone (emit s es).
Proof.
  unfold emit. intros [[] Hst]. destruct (ns_log s); [|by split; [split|]]. split; [split|]; done.
Qed.

Lemma counters_node alone s c : node_ok alone s → node_ok alone (s <| ns_counters := c |>).
Proof. intros [[] Hst]. split; [split|]; done. Qed.

(** ** Eviction *)

Lemma tail_filter (P : Peer → Prop) `{∀ x, Decision (P x)} l x : x ∈ tail (filter P l) → x ∈ tail l.
Proof.
  destruct l as [|y l]; [done|]. rewrite filter_cons. case_decide; cbn.
  - by intros [_ Hx]%list_elem_of_filter.
  - intros Hx. assert (Hx' : x ∈ filter P l) by (destruct (filter P l); [done|]; cbn in Hx; apply elem_of_cons; by right).
    by apply list_elem_of_filter in Hx' as [_ ?].
Qed.

Lemma consider_choice self g best p :
  (consider self g best p).1 = best.1 ∨ (consider self g best p).1 = p.
Proof. unfold consider. destruct (_ || _ || _); [by left|]. destruct (_ || _); [by right|by left]. Qed.

Lemma nearest_known_held alone s g : tables_ok alone s → held_ok (ns_self s) (nearest_known_locked s g).
Proof.
  intros Hs. unfold nearest_known_locked.
  assert (Hl : Forall (held_ok (ns_self s)) (ns_fingers s ++ if ns_has_pred s then [ns_pred s] else [])).
  { pose proof (tb_held _ _ Hs) as Hh. apply Forall_app in Hh as [_ Hh]. apply Forall_app. split; [done|].
    destruct (ns_has_pred s) eqn:Ep; [|done]. constructor; [|done]. by apply (tb_pred _ _ Hs). }
  assert (Hb : held_ok (ns_self s) (ns_self s, 0%Z).1) by apply self_held, Hs. revert Hb.
  generalize (ns_self s, 0%Z). induction Hl as [|p l Hp Hl IH]; intros best Hb; [done|]. cbn [foldl]. apply IH.
  by destruct (consider_choice (ns_self s) g best p) as [->| ->].
Qed.

(** The successor list after an eviction. *)
Record succs_ok (alone : bool) (s : NodeState) (succs : list Peer) (orphaned : bool) : Prop := mkSuccsOk {
  sc_ne : succs ≠ [];
  sc_length : length succs ≤ ns_r s;
  sc_tail : ns_self s ∉ tail succs;
  sc_held : Forall (held_ok (ns_self s)) succs;
  sc_claim : alone = false → head succs = Some (ns_self s) → orphaned = true;
}.

(** New successors with fingers to match: the only two fields most sections change. *)
Lemma set_tables alone s succs fingers orphaned :
  tables_ok alone s → succs_ok alone s succs orphaned → length fingers = ID_BITS →
  Forall (held_ok (ns_self s)) fingers →
  let s1 := s <| ns_succs := succs |> <| ns_orphaned := orphaned |> in
  tables_ok alone (s1 <| ns_fingers := <[0 := succ0 s1]> fingers |>).
Proof.
  intros Hs [Hne Hl Ht Hh Hc] Hf Hff s1. assert (H0 : head succs = Some (succ0 s1)) by by apply (succ0_head s1).
  assert (Hx : held_ok (ns_self s) (succ0 s1)).
  { rewrite Forall_forall in Hh. apply Hh, head_elem. done. }
  destruct Hs. split; subst s1; upd; try done.
  - by rewrite length_insert.
  - rewrite H0. by destruct fingers.
  - apply Forall_app. split; [done|]. by apply Forall_insert.
  - intros Ha Hc'. apply Hc; [done|]. rewrite H0. f_equal. exact Hc'.
Qed.

Lemma evict_succs_fields s g :
  let '(s', _) := evict_succs s g in
  s' = s <| ns_succs := ns_succs s' |> <| ns_orphaned := ns_orphaned s' |>.
Proof. unfold evict_succs. case_bool_decide; [destruct (_ && _)|]; by destruct s. Qed.

Lemma evict_succs_ok alone s g : tables_ok alone s →
  succs_ok alone s (ns_succs (evict_succs s g).1) (ns_orphaned (evict_succs s g).1).
Proof.
  intros Hs. pose proof (tb_r _ _ Hs) as Hr. unfold evict_succs. case_bool_decide as Ek.
  - set (f := nearest_known_locked s g). assert (Hf : held_ok (ns_self s) f) by by apply (nearest_known_held alone).
    destruct (same_node f (ns_self s) && _) eqn:Eo; split; upd; try done.
    + by apply not_elem_of_nil.
    + by constructor.
    + by apply not_elem_of_nil.
    + by constructor.
    + intros Ha [= Hfs]. apply andb_false_iff in Eo as [Eo|Eo].
      * apply same_node_false in Eo. done.
      * apply negb_false_iff, same_node_eq in Eo. by apply (tb_claim _ _ Hs).
  - split; upd; [done| | | |].
    + etrans; [apply length_filter|]. apply Hs.
    + intros Hin%tail_filter. by apply (tb_tail _ _ Hs).
    + pose proof (tb_held _ _ Hs) as Hh. apply Forall_app in Hh as [Hh _].
      rewrite Forall_forall in *. intros x [_ Hx]%list_elem_of_filter. by apply Hh.
    + intros Ha Hh. apply (tb_claim _ _ Hs Ha). apply head_elem, list_elem_of_filter in Hh as [_ Hin].
      pose proof (tb_tail _ _ Hs) as Ht. unfold succ0. destruct (ns_succs s) as [|q l]; [done|]. cbn in *.
      apply elem_of_cons in Hin as [->|?]; done.
Qed.

Lemma replacement_elem g l q : replacement g l = Some q → q ∈ l.
Proof.
  induction l as [|p l IH]; [done|]. cbn. destruct (g p).
  - intros [Hin _]%find_some. apply elem_of_cons. right. by apply list_elem_of_In.
  - intros Hin. apply elem_of_cons. right. by apply IH.
Qed.

(** The tables once [g] has gone from them. *)
Lemma evict_tables alone s g :
  tables_ok alone s →
  let s1 := (evict_succs s g).1 in
  let s2 := if ns_has_pred s1 && g (ns_pred s1) then s1 <| ns_has_pred := false |> else s1 in
  tables_ok alone (evict_fingers s2 g (replacement g (ns_succs s))).
Proof.
  intros Hs. pose proof (evict_succs_ok alone s g Hs) as Hsc. pose proof (evict_succs_fields s g) as Ef.
  destruct (evict_succs s g) as [s1 events]. cbn [fst] in *. cbv zeta.
  assert (Hfin : ∀ d, held_ok (ns_self s) d → Forall (held_ok (ns_self s))
    ((λ f, if g f then default d (replacement g (ns_succs s)) else f) <$> ns_fingers s)).
  { intros d Hd. pose proof (tb_held _ _ Hs) as Hh. apply Forall_app in Hh as [Hh1 Hh2].
    apply Forall_fmap. eapply Forall_impl; [exact Hh2|]. intros f Hf. cbn. destruct (g f); [|done].
    destruct (replacement g (ns_succs s)) as [q|] eqn:Eq; [|done]. cbn. apply replacement_elem in Eq.
    rewrite Forall_forall in Hh1. by apply Hh1. }
  set (succs := ns_succs s1) in *. set (orph := ns_orphaned s1) in *. clearbody succs orph. subst s1.
  assert (H0 : held_ok (ns_self s) (default (ns_self s) (head succs))).
  { destruct Hsc as [Hne _ _ Hh _]. destruct succs; [done|]. by apply Forall_cons in Hh as [? _]. }
  assert (Ht : tables_ok alone (evict_fingers (s <| ns_succs := succs |> <| ns_orphaned := orph |>) g
    (replacement g (ns_succs s)))).
  { apply (set_tables alone s succs _ orph); [done|done|rewrite length_fmap; apply Hs|by apply Hfin]. }
  upd. destruct (ns_has_pred s && g (ns_pred s)); [|done]. destruct Ht. split; try done.
Qed.

Lemma forget_strikes_tables alone s dead w : tables_ok alone s → tables_ok alone (forget_strikes s dead w).
Proof. intros []. by split. Qed.

Lemma strikes_filter P `{∀ x, Decision (P x)} strikes : strikes_ok strikes → strikes_ok (filter P strikes).
Proof.
  intros [Ho H1]. split; [by apply om_filter_ok|]. intros key n Hf.
  apply om_find_elem in Hf; [|by apply om_filter_ok]. apply list_elem_of_filter in Hf as [_ Hf].
  apply om_find_elem in Hf; [|done]. by eapply H1.
Qed.

Lemma evict_strikes_exact s dead why w o :
  same_node dead (ns_self s) = false → same_process dead (ns_self s) && negb o = false →
  ns_strikes (evict_locked s dead why w o).1 = ns_strikes (forget_strikes s dead w).
Proof.
  intros E1 E2. unfold evict_locked. rewrite E1, E2. cbv zeta.
  pose proof (evict_succs_fields s (gone w dead)) as Ef. destruct (evict_succs s (gone w dead)) as [s1 events].
  assert (Hst : ns_strikes s1 = ns_strikes s) by (rewrite Ef; done).
  set (s2 := if ns_has_pred s1 && gone w dead (ns_pred s1) then _ else s1).
  assert (Hst2 : ns_strikes s2 = ns_strikes s1) by (subst s2; by destruct (ns_has_pred s1 && gone w dead (ns_pred s1))).
  destruct (existsb _ _ || _ || _); unfold forget_strikes, evict_fingers; upd; by rewrite Hst2, Hst.
Qed.

Lemma evict_strikes s dead why w o :
  let s' := (evict_locked s dead why w o).1 in
  ns_strikes s' = ns_strikes s ∨ ns_strikes s' = ns_strikes (forget_strikes s dead w).
Proof.
  destruct (same_node dead (ns_self s)) eqn:E1; [left; unfold evict_locked; by rewrite E1|].
  destruct (same_process dead (ns_self s) && negb o) eqn:E2; [left; unfold evict_locked; by rewrite E1, E2|].
  right. by apply evict_strikes_exact.
Qed.

Lemma evict_locked_tables alone s dead why w o :
  tables_ok alone s → tables_ok alone (evict_locked s dead why w o).1.
Proof.
  intros Hs. unfold evict_locked. destruct (same_node dead (ns_self s)); [done|].
  destruct (same_process dead (ns_self s) && _); [done|]. cbv zeta.
  pose proof (evict_tables alone s (gone w dead) Hs) as Ht. cbv zeta in Ht.
  destruct (evict_succs s (gone w dead)) as [s1 events]. cbn [fst] in Ht.
  apply (forget_strikes_tables _ _ dead w) in Ht.
  destruct (existsb _ _ || _ || _); [|done]. cbn [fst]. destruct Ht. by split.
Qed.

Lemma evict_node alone s dead why w o : node_ok alone s → node_ok alone (evict_locked s dead why w o).1.
Proof.
  intros [Ht Hs]. split; [by apply evict_locked_tables|].
  destruct (evict_strikes s dead why w o) as [->| ->]; [done|]. by apply strikes_filter.
Qed.

(** ** Strikes *)

Lemma member_key_forgotten s p : om_find (member_key p) (ns_strikes (forget_strikes s p false)) = None.
Proof.
  unfold forget_strikes. upd. apply om_find_None. intros ([k n] & Ek & Hin)%list_elem_of_fmap.
  apply list_elem_of_filter in Hin as [Hx _]. cbn in *. subst k. by rewrite bool_decide_true in Hx.
Qed.

(** The second strike in a row evicts, so no count above one is ever left. *)
Lemma strike_node alone s p why detail : node_ok alone s → node_ok alone (strike_locked s p why detail).1.
Proof.
  intros [Ht Hs]. unfold strike_locked. destruct (same_process p (ns_self s)) eqn:Ep; [done|].
  destruct (holds s p); [|done]. cbn [negb]. cbv zeta.
  set (n := (default 0 (om_find (member_key p) (ns_strikes s)) + 1)%N).
  set (s1 := s <| ns_strikes := om_set (member_key p) n (ns_strikes s) |> <| ns_counters := _ |>).
  assert (Ht1 : tables_ok alone s1) by (destruct Ht; by split).
  assert (Hn : ∀ key m, om_find key (ns_strikes s1) = Some m → key ≠ member_key p → m = 1%N).
  { subst s1. upd. intros key m. rewrite om_find_set. case_decide; [done|]. intros Hf _. by eapply Hs. }
  assert (Ho : om_ok (ns_strikes s1)) by apply om_set_ok, Hs.
  destruct (STRIKES_TO_EVICT <=? n)%N eqn:E2.
  - pose proof (evict_locked_tables alone s1 p (why ++ lit ", second strike") false false Ht1) as Ht2.
    assert (Hst : ns_strikes (evict_locked s1 p (why ++ lit ", second strike") false false).1 =
                  ns_strikes (forget_strikes s1 p false)).
    { apply evict_strikes_exact; change (ns_self s1) with (ns_self s); [unfold same_node|]; by rewrite Ep. }
    destruct (evict_locked s1 p _ false false) as [s2 events]. cbn [fst] in *. split; [done|]. rewrite Hst. split.
    + by apply om_filter_ok.
    + intros key m Hf. destruct (decide (key = member_key p)) as [->|Hne]; [by rewrite member_key_forgotten in Hf|].
      apply om_find_elem in Hf; [|by apply om_filter_ok]. apply list_elem_of_filter in Hf as [_ Hf].
      apply om_find_elem in Hf; [|done]. by apply (Hn key m).
  - cbn [fst]. split; [done|]. split; [done|]. intros key m Hf.
    destruct (decide (key = member_key p)) as [->|Hne]; [|by apply (Hn key m)].
    subst s1. upd. rewrite om_find_set, decide_True in Hf by done. injection Hf as <-.
    unfold STRIKES_TO_EVICT in E2. apply N.leb_gt in E2. subst n. lia.
Qed.

Lemma clear_strikes_node alone s p : node_ok alone s → node_ok alone (clear_strikes_locked s p).
Proof. intros [[] Hs]. split; [by split|]. by apply strikes_filter. Qed.

Lemma report_call_node alone s to req d reply good took :
  node_ok alone s → node_ok alone (report_call s to req d reply good took).1.
Proof.
  intros Hs. unfold report_call. destruct good; [by apply clear_strikes_node|].
  destruct (_ && _); [by apply evict_node|]. case_bool_decide; [by apply evict_node|by apply strike_node].
Qed.

(** ** Successor lists *)

Lemma merge_loop_spec self r out l :
  Forall (held_ok self) out → Forall peer_ok l → 1 ≤ length out ≤ r → self ∉ tail out → NoDup out →
  let m := merge_loop self r out l in
  Forall (held_ok self) m ∧ length m ≤ r ∧ self ∉ tail m ∧ NoDup m ∧ (∃ more, m = out ++ more).
Proof.
  revert out. induction l as [|p l IH]; intros out Hh Hl Hr Ht Hn; cbn [merge_loop].
  { cbv zeta. split_and!; try done; [lia|]. exists []. by rewrite app_nil_r. }
  apply Forall_cons in Hl as [Hp Hl].
  assert (Hstop : Forall (held_ok self) out ∧ length out ≤ r ∧ self ∉ tail out ∧ NoDup out ∧ (∃ more, out = out ++ more)).
  { split_and!; try done; [lia|]. exists []. by rewrite app_nil_r. }
  destruct (Nat.leb_spec r (length out)); [done|]. destruct (same_node p self) eqn:Eps; [done|].
  apply same_node_false in Eps. destruct (Z.eqb_spec (peer_id p) (peer_id self)); [by apply IH|].
  destruct (existsb (same_node p) out) eqn:Ex; [by apply IH|].
  assert (Hpn : p ∉ out) by (intros Hin%existsb_same_node; congruence).
  destruct (IH (out ++ [p])) as (H1 & H2 & H3 & H4 & more & Hm).
  - apply Forall_app. split; [done|]. constructor; [|done]. split; [done|]. done.
  - done.
  - rewrite length_app. cbn. lia.
  - destruct out as [|q out]; [cbn in *; lia|]. cbn in *. rewrite elem_of_app, list_elem_of_singleton. naive_solver.
  - apply NoDup_app. split_and!; [done| |apply NoDup_singleton]. intros x Hx ->%list_elem_of_singleton. done.
  - cbv zeta in *. split_and!; try done. exists ([p] ++ more). by rewrite app_assoc.
Qed.

Lemma merge_successors_spec self succ l r :
  held_ok self succ → Forall peer_ok l → 1 ≤ r →
  let m := merge_successors self succ l r in
  Forall (held_ok self) m ∧ length m ≤ r ∧ self ∉ tail m ∧ NoDup m ∧ head m = Some succ.
Proof.
  intros Hs Hl Hr. destruct (merge_loop_spec self r [succ] l) as (H1 & H2 & H3 & H4 & more & Hm); try done.
  - by constructor.
  - cbn. by apply not_elem_of_nil.
  - apply NoDup_singleton.
  - cbv zeta in *. split_and!; try done. unfold merge_successors. by rewrite Hm.
Qed.

Lemma parse_peers_ok n w l : parse_peers n w = inr l → Forall peer_ok l.
Proof.
  revert w l. induction n as [|n IH]; intros w l; [by intros [= <-]|].
  destruct w as [|a [|b [|c w]]]; try done. cbn. destruct (parse_peer_words a b c) as [|p] eqn:Ep; [done|].
  destruct (parse_peers n w) as [|l'] eqn:El; [done|]. intros [= <-]. constructor; [by eapply parse_peer_words_inr|].
  by eapply IH.
Qed.

Lemma parse_succs_ok pred w nb : parse_succs pred w = inr nb → nb_pred nb = pred ∧ Forall peer_ok (nb_succs nb).
Proof.
  unfold parse_succs. destruct w as [|c w]; [done|]. destruct (parse_count c); [|done]. destruct (negb _); [done|].
  destruct (parse_peers _ w) eqn:E; [done|]. intros [= <-]. split; [done|]. by eapply parse_peers_ok.
Qed.

Lemma parse_neighbours_ok line nb : parse_neighbours line = inr nb →
  Forall peer_ok (nb_succs nb) ∧ ∀ p, nb_pred nb = Some p → peer_ok p.
Proof.
  unfold parse_neighbours. destruct (split_single_spaces line) as [|w0 [|w1 [|w2 rest]]]; try done.
  case_bool_decide; [cbn [negb]|done]. case_bool_decide.
  - intros [-> Hl]%parse_succs_ok. done.
  - destruct rest as [|w3 [|w4 rest]]; try done. destruct (parse_peer_words w1 w2 w3) as [|q] eqn:Eq; [done|].
    intros [-> Hl]%parse_succs_ok. split; [done|]. intros p [= <-]. by eapply parse_peer_words_inr.
Qed.

(** ** The other sections *)

Lemma joined_node alone alone' s known o list :
  node_ok alone s → held_ok (ns_self s) o → o ≠ ns_self s → (∀ l, list = Some l → Forall peer_ok l) →
  node_ok alone' (joined s known o list).
Proof.
  intros [Ht Hs] Ho Hne Hl. unfold joined. apply remember_all, remember_node. split; [|done].
  set (succs := match list with Some l => _ | None => _ end).
  assert (Hsc : Forall (held_ok (ns_self s)) succs ∧ length succs ≤ ns_r s ∧ ns_self s ∉ tail succs ∧ head succs = Some o).
  { pose proof (tb_r _ _ Ht). subst succs. destruct list as [l|].
    - destruct (merge_successors_spec (ns_self s) o l (ns_r s) Ho (Hl _ eq_refl)) as (? & ? & ? & _ & ?); done.
    - split_and!; [by constructor|cbn; lia|by apply not_elem_of_nil|done]. }
  destruct Hsc as (H1 & H2 & H3 & H4). destruct Ht. split; upd; try done.
  - by destruct succs.
  - unfold ID_BITS. lia.
  - apply Forall_app. split; [done|]. apply Forall_replicate. done.
  - intros _ E. unfold succ0 in E. upd. rewrite H4 in E. done.
Qed.

Lemma set_pred_node alone s c strikes :
  node_ok alone s → held_ok (ns_self s) c → c ≠ ns_self s → strikes_ok strikes →
  node_ok alone (remember_locked (s <| ns_pred := c |> <| ns_has_pred := true |> <| ns_strikes := strikes |>) c).
Proof. intros [[] Hs] Hc Hne Hst. apply remember_node. split; [by split|done]. Qed.

Lemma notify_node alone s c :
  node_ok alone s → peer_ok c → peer_id c ≠ peer_id (ns_self s) → node_ok alone (notify_locked s c).1.1.
Proof.
  intros Hs Hc Hne. unfold notify_locked. destruct (_ || _).
  - cbn [fst]. apply set_pred_node; [done|by split|congruence|]. apply strikes_filter, Hs.
  - by destruct (negb _).
Qed.

Lemma retable_node alone s succs :
  node_ok alone s → succs_ok alone s succs (ns_orphaned s) →
  let s1 := s <| ns_succs := succs |> in
  node_ok alone (s1 <| ns_fingers := <[0 := succ0 s1]> (ns_fingers s1) |>).
Proof.
  intros [Ht Hs] Hsc s1. split; [|done].
  pose proof (set_tables alone s succs (ns_fingers s) (ns_orphaned s) Ht Hsc (tb_fingers _ _ Ht)) as Hst.
  cbv zeta in Hst. pose proof (tb_held _ _ Ht) as Hh. apply Forall_app in Hh as [_ Hh]. specialize (Hst Hh).
  destruct Hst. by split.
Qed.

Lemma take_list_node alone s succ nb :
  node_ok alone s → succ0 s = succ → Forall peer_ok (nb_succs nb) → node_ok alone (take_list s succ nb).1.
Proof.
  intros Hs Hsucc Hnb. pose proof (proj1 Hs) as Ht. unfold take_list.
  destruct (merge_successors_spec (ns_self s) succ (nb_succs nb) (ns_r s)) as (H1 & H2 & H3 & H4 & H5).
  { subst succ. by eapply succ0_held. } { done. } { apply Ht. }
  set (succs := merge_successors _ _ _ _) in *. cbv zeta.
  assert (Hs' : node_ok alone (foldl remember_locked (s <| ns_succs := succs |> <| ns_fingers :=
    <[0 := succ0 (s <| ns_succs := succs |>)]> (ns_fingers s) |>) (reverse succs))).
  { apply remember_all, (retable_node alone s); [done|]. split; try done; [by destruct succs|].
    intros Ha Hh. rewrite H5 in Hh. injection Hh as Hh. apply (tb_claim _ _ Ht Ha). congruence. }
  set (s2 := foldl remember_locked _ _) in *. clearbody s2. destruct (nb_pred nb) as [p|]; [|done].
  destruct (_ || _); [done|]. destruct (_ =? _)%Z; [by apply emit_node|]. by destruct (in_range_oo _ _ _).
Qed.

(** What [take_list] proposes lies strictly between this member and its successor. *)
Lemma take_list_candidate s succ nb c :
  (take_list s succ nb).2 = Some c →
  nb_pred nb = Some c ∧ peer_id c ≠ peer_id (ns_self s) ∧ in_range_oo (peer_id c) (peer_id (ns_self s)) (peer_id succ) = true.
Proof.
  unfold take_list. cbv zeta. set (s2 := foldl remember_locked _ _).
  assert (E : ns_self s2 = ns_self s).
  { subst s2. rewrite (proj1 (remember_all_self _ _)). done. }
  clearbody s2. rewrite E. destruct (nb_pred nb) as [p|]; [|done]. destruct (_ || _); [done|].
  destruct (Z.eqb_spec (peer_id p) (peer_id (ns_self s))); [done|].
  destruct (in_range_oo _ _ _) eqn:Er; [|done]. intros [= <-]. done.
Qed.

Lemma adopt_node alone s c :
  node_ok alone s → held_ok (ns_self s) c → c ≠ ns_self s → node_ok alone (adopt s c).
Proof.
  intros Hs Hc Hne. pose proof (proj1 Hs) as Ht. unfold adopt. cbv zeta. apply emit_node, counters_node, remember_node.
  apply (retable_node alone s); [done|]. unfold adopt_list. pose proof (tb_r _ _ Ht) as Hr.
  rewrite (Nat.max_r 1 (ns_r s)) by done. destruct (ns_r s) as [|r] eqn:Er; [lia|]. rewrite firstn_cons. split; try done.
  - cbn. rewrite length_take, Er. lia.
  - cbn. intros Hin.
    assert (Hin' : ns_self s ∈ filter (λ p, same_node p (ns_self s) = false) (ns_succs s))
      by (eapply (sublist_subseteq _ _ (sublist_take _ r)); done).
    apply list_elem_of_filter in Hin' as [E _]. by rewrite same_node_refl in E.
  - constructor; [done|]. apply Forall_take. pose proof (tb_held _ _ Ht) as Hh. apply Forall_app in Hh as [Hh _].
    rewrite Forall_forall in *. intros x [_ Hx]%list_elem_of_filter. by apply Hh.
  - intros _ [= E]. done.
Qed.

(** ** Fingers *)

Lemma fill_fingers_spec fuel self o j fs :
  j ≤ ID_BITS →
  let '(k, fs') := fill_fingers fuel self o j fs in
  j ≤ k ≤ ID_BITS ∧ length fs' = length fs ∧
  (∀ i, j ≤ i < k → i < length fs → fs' !! i = Some o ∧ in_range_oc (finger_start self i) self (peer_id o) = true) ∧
  (∀ i, i < j ∨ k ≤ i → fs' !! i = fs !! i).
Proof.
  revert j fs. induction fuel as [|n IH]; intros j fs Hj; cbn [fill_fingers].
  { split; [lia|]. split; [done|]. split; [intros; lia|done]. }
  destruct ((j <? ID_BITS) && _) eqn:E; [|split; [lia|]; split; [done|]; split; [intros; lia|done]].
  apply andb_true_iff in E as [Ej%Nat.ltb_lt Er]. specialize (IH (S j) (<[j := o]> fs) Ej).
  destruct (fill_fingers n self o (S j) (<[j := o]> fs)) as [k fs']. destruct IH as (H1 & H2 & H3 & H4).
  rewrite length_insert in H2, H3. split; [lia|]. split; [done|]. split.
  - intros i Hi Hl. destruct (decide (i = j)) as [->|Hne]; [|by apply H3; lia].
    split; [|done]. rewrite H4 by lia. by apply list_lookup_insert_eq.
  - intros i Hi. rewrite H4 by lia. apply list_lookup_insert_ne. lia.
Qed.

Lemma fill_fingers_held self0 fuel self o j fs :
  held_ok self0 o → Forall (held_ok self0) fs → Forall (held_ok self0) (fill_fingers fuel self o j fs).2.
Proof.
  intros Ho. revert j fs. induction fuel as [|n IH]; intros j fs Hf; cbn [fill_fingers]; [done|].
  destruct (_ && _); [|done]. apply IH. by apply Forall_insert.
Qed.

Lemma next_finger_tables alone s j : tables_ok alone s → 1 ≤ j < ID_BITS → tables_ok alone (s <| ns_next_finger := j |>).
Proof. intros [] Hj. by split. Qed.

Lemma finger_found_node alone s o i :
  node_ok alone s → held_ok (ns_self s) o → 1 ≤ i < ID_BITS → node_ok alone (finger_found s o i).
Proof.
  intros Hs Ho Hi. unfold finger_found. pose proof (proj1 Hs) as Ht. pose proof (tb_held _ _ Ht) as Hh.
  apply Forall_app in Hh as [Hh1 Hh2].
  pose proof (fill_fingers_spec ID_BITS (peer_id (ns_self s)) o i (ns_fingers s) ltac:(lia)) as Hsp.
  pose proof (fill_fingers_held (ns_self s) ID_BITS (peer_id (ns_self s)) o i (ns_fingers s) Ho Hh2) as Hfh.
  destruct (fill_fingers ID_BITS _ o i (ns_fingers s)) as [j fs]. cbn [snd] in Hfh. destruct Hsp as (Hj & Hl & _ & _).
  rewrite (tb_fingers _ _ Ht) in Hl.
  set (jf := if j =? i then _ else _). assert (Hjf : length jf.2 = ID_BITS ∧ Forall (held_ok (ns_self s)) jf.2 ∧ 1 ≤ jf.1).
  { subst jf. destruct (j =? i); cbn [fst snd]; [|by split_and!; [done|done|lia]].
    rewrite length_insert. split_and!; [done|by apply Forall_insert|lia]. }
  destruct jf as [j' fs']. cbn [fst snd] in Hjf. destruct Hjf as (Hl' & Hf' & Hj'). cbv zeta.
  apply remember_node. split; [|by destruct Hs]. apply next_finger_tables.
  - pose proof (set_tables alone s (ns_succs s) fs' (ns_orphaned s) Ht) as Hst. cbv zeta in Hst.
    assert (Hst' : tables_ok alone (s <| ns_succs := ns_succs s |> <| ns_orphaned := ns_orphaned s |> <| ns_fingers :=
      <[0 := succ0 s]> fs' |>)).
    { apply Hst; [|done|done]. destruct Ht. split; try done. intros Ha Hh. apply tb_claim0; [done|].
      unfold succ0. by rewrite Hh. }
    destruct Hst'. by split.
  - destruct (Nat.leb_spec ID_BITS j'); unfold ID_BITS in *; lia.
Qed.

Lemma after_finger_range i : 1 ≤ i < ID_BITS → 1 ≤ after_finger i < ID_BITS.
Proof. unfold after_finger. destruct (Nat.leb_spec ID_BITS (i + 1)); unfold ID_BITS in *; lia. Qed.

Lemma finger_failed_node alone s r i :
  node_ok alone s → 1 ≤ i < ID_BITS → node_ok alone (finger_failed s r i).1.
Proof.
  intros Hs Hi. unfold finger_failed. cbv zeta.
  set (se := match last (path r) with Some p => _ | None => _ end).
  assert (Hse : node_ok alone se.1).
  { subst se. destruct (last (path r)); [|done]. destruct (negb _); [done|].
    case_bool_decide; [by apply evict_node|by apply strike_node]. }
  destruct se as [s' ev]. destruct Hse. split; [|done]. by apply next_finger_tables, after_finger_range.
Qed.

(** ** Fixed identity: a member's own peer and list length never change *)

Definition same_member (s s' : NodeState) : Prop := ns_self s' = ns_self s ∧ ns_r s' = ns_r s.

Lemma evict_member s dead why w o : same_member s (evict_locked s dead why w o).1.
Proof.
  unfold evict_locked. destruct (same_node dead (ns_self s)); [done|]. destruct (_ && negb o); [done|]. cbv zeta.
  pose proof (evict_succs_fields s (gone w dead)) as Ef. destruct (evict_succs s (gone w dead)) as [s1 ev].
  assert (E : same_member s s1) by (rewrite Ef; done). clear Ef.
  set (s2 := if ns_has_pred s1 && gone w dead (ns_pred s1) then _ else s1).
  assert (E2 : same_member s s2) by (subst s2; by destruct (ns_has_pred s1 && gone w dead (ns_pred s1))).
  destruct (existsb _ _ || _ || _); exact E2.
Qed.
Lemma strike_member s p why detail : same_member s (strike_locked s p why detail).1.
Proof.
  unfold strike_locked. destruct (same_process p (ns_self s)); [done|]. destruct (negb _); [done|]. cbv zeta.
  set (s1 := s <| ns_strikes := _ |> <| ns_counters := _ |>). destruct (_ <=? _)%N; [|done].
  pose proof (evict_member s1 p (why ++ lit ", second strike") false false) as E.
  destruct (evict_locked s1 p _ false false). exact E.
Qed.
Lemma report_call_member s to req d reply good took : same_member s (report_call s to req d reply good took).1.
Proof.
  unfold report_call. destruct good; [done|]. destruct (_ && _); [apply evict_member|].
  case_bool_decide; [apply evict_member|apply strike_member].
Qed.
Lemma emit_member s es : same_member s (emit s es).
Proof. unfold emit. by destruct (ns_log s). Qed.
Lemma joined_member s known o l : same_member s (joined s known o l).
Proof.
  unfold joined, same_member. cbv zeta. split.
  - rewrite (proj1 (remember_all_self _ _)), (proj1 (remember_self _ _)). done.
  - rewrite (proj2 (remember_all_self _ _)), (proj2 (remember_self _ _)). done.
Qed.

(** ** Starting states *)

Lemma new_node_ok me r log : peer_ok me → 1 ≤ r → node_ok true (new_node me r log).
Proof.
  intros Hme Hr. split; [|by split; [constructor|]]. split; upd; cbn [ns_self ns_r ns_succs ns_fingers new_node]; try done.
  - by apply not_elem_of_nil.
  - cbn. unfold ID_BITS. lia.
  - apply Forall_app. split; [by constructor; [apply self_held|]|]. apply Forall_replicate. by apply self_held.
  - cbn. split_and!; [lia|constructor|done].
Qed.

Lemma init_alone_ok s : node_ok true s → node_ok true (init_alone s).
Proof.
  intros [[] Hst]. split; [|done]. split; unfold init_alone; upd; try done.
  - by apply not_elem_of_nil.
  - unfold ID_BITS. lia.
  - apply Forall_app. split; [by constructor; [apply self_held|]|]. apply Forall_replicate. by apply self_held.
Qed.
End inv.

(** ** Whole operations, with the other threads running *)
Section ops.
Context {IN : Inet} {IOk : InetOk IN} {W : Type}.
Context (transport : Transport (NodeState * W)) (now : NodeState * W → Z).
Context (alone : bool) (me : Peer) (r : nat).

Definition Inv (σ : NodeState * W) : Prop := node_ok alone σ.1 ∧ ns_self σ.1 = me ∧ ns_r σ.1 = r.

(** The other threads keep the invariant while a call is under way. *)
Definition others_keep : Prop := ∀ to request σ, Inv σ → Inv (transport to request σ).2.
Context (Hrely : others_keep).

(** A critical section that keeps the invariant and the identity. *)
Definition section_ok (f : NodeState → NodeState) : Prop :=
  ∀ s, node_ok alone s → ns_self s = me → node_ok alone (f s) ∧ same_member s (f s).

Lemma locked_inv f σ : section_ok f → Inv σ → Inv (locked f σ).
Proof.
  intros Hf (Hs & Hme & Hr). destruct (Hf _ Hs Hme) as [Hs' [E1 E2]]. split; [done|]. cbn. split; congruence.
Qed.

Lemma emit_section (f : NodeState → NodeState * list bytes) :
  (∀ s, node_ok alone s → ns_self s = me → node_ok alone (f s).1 ∧ same_member s (f s).1) →
  section_ok (λ s, let '(s, events) := f s in emit s events).
Proof.
  intros Hf s Hs Hme. destruct (Hf s Hs Hme) as [H1 [E1 E2]]. destruct (f s) as [s' ev]. cbn [fst] in *.
  split; [by apply emit_node|]. destruct (emit_member s' ev) as [E3 E4]. split; congruence.
Qed.

Lemma call_peer_inv to req valid σ : Inv σ → Inv (call_peer transport now to req valid σ).2.
Proof.
  intros Hi. unfold call_peer. cbv zeta. pose proof (Hrely to req σ Hi) as Hi'.
  destruct (transport to req σ) as [[d reply] σ']. cbn [snd] in *. apply locked_inv; [|done].
  apply (emit_section (λ s, report_call s to req d reply _ _)).
  intros s Hs Hme. split; [by apply report_call_node|apply report_call_member].
Qed.

Lemma call_peer_good to req valid σ c reply σ' :
  call_peer transport now to req valid σ = (c, reply, σ') → c = CGood → valid reply = true.
Proof.
  unfold call_peer. destruct (transport to req σ) as [[d rep] σ1]. cbv zeta. intros [= <- <- <-].
  destruct (_ && _ && valid rep) eqn:E; [by apply andb_true_iff in E as [_ ?]|]. by destruct (bool_decide (d = Refused)).
Qed.

Lemma lookup_loop_inv n k current pth σ : Inv σ → Inv (lookup_loop transport n k current pth σ).2.
Proof.
  revert current pth σ. induction n as [|n IH]; intros current pth σ Hi; cbn [lookup_loop]; [done|].
  pose proof (Hrely current (lit "FIND_SUCCESSOR " ++ id_to_hex k) σ Hi) as Hi'.
  destruct (transport current _ σ) as [[d reply] σ']. cbn [snd] in Hi'.
  destruct (negb (bool_decide (d = Ok))); [done|]. destruct (_ || _); [done|].
  destruct (parse_reply reply) as [|[[] named]]; [done| |]; destruct (negb _); try done. by apply IH.
Qed.

Lemma lookup_loop_found n k current pth σ :
  error (lookup_loop transport n k current pth σ).1 = LNone → peer_ok (found (lookup_loop transport n k current pth σ).1).
Proof.
  revert current pth σ. induction n as [|n IH]; intros current pth σ; cbn [lookup_loop]; [done|].
  destruct (transport current _ σ) as [[d reply] σ']. destruct (negb (bool_decide (d = Ok))); [by destruct d|].
  destruct (_ || _); [done|]. destruct (parse_reply reply) as [|[[] named]] eqn:Ep; [done| |]; destruct (negb _); try done.
  - intros _. by eapply parse_reply_inr.
  - apply IH.
Qed.

Lemma lookup_inv start k σ : Inv σ → Inv (lookup transport start k σ).2.
Proof. apply lookup_loop_inv. Qed.

Lemma result_ok_found start k σ : result_ok (lookup transport start k σ).1 = true → peer_ok (found (lookup transport start k σ).1).
Proof. intros E%bool_decide_eq_true. by apply lookup_loop_found. Qed.

Lemma join_ring_inv known σ : Inv σ → Inv (join_ring transport known σ).2.
Proof.
  intros Hi. unfold join_ring. cbv zeta. pose proof (lookup_inv known (peer_id (ns_self σ.1)) σ Hi) as Hi1.
  pose proof (result_ok_found known (peer_id (ns_self σ.1)) σ) as Hf. destruct Hi as (_ & Hme & _). rewrite Hme in *.
  destruct (lookup transport known (peer_id me) σ) as [res σ1]. cbn [fst snd] in *.
  destruct (result_ok res) eqn:Eok; cbn [negb]; [|done]. specialize (Hf eq_refl).
  destruct (same_node (found res) me) eqn:Es; [done|]. apply same_node_false in Es.
  destruct (Z.eqb_spec (peer_id (found res)) (peer_id me)); [done|].
  pose proof (Hrely (found res) (lit "NEIGHBOURS") σ1 Hi1) as Hi2.
  destruct (transport (found res) _ σ1) as [[d reply] σ2]. cbn [snd] in *. apply locked_inv; [|done].
  intros s Hs Hms. split; [|apply joined_member]. eapply joined_node; [exact Hs|by rewrite Hms; split|by rewrite Hms|].
  intros l. case_bool_decide; [|done]. destruct (parse_neighbours reply) eqn:Ep; [done|]. intros [= <-].
  by apply parse_neighbours_ok in Ep as [? _].
Qed.

Definition after_ok (a : After) : Prop :=
  match a with Nothing => True | ProbePredecessor _ c => peer_ok c ∧ peer_id c ≠ peer_id me end.

Lemma run_after_inv a σ : after_ok a → Inv σ → Inv (run_after transport now a σ).
Proof.
  destruct a as [|old c]; [done|]. intros [Hc Hid] Hi. cbn [run_after].
  pose proof (call_peer_inv old (lit "PING") is_pong σ Hi) as Hi1.
  destruct (call_peer _ _ old _ _ σ) as [[call rep] σ1]. cbn [snd] in Hi1. case_bool_decide; [done|].
  apply locked_inv; [|done]. intros s Hs Hms. destruct (ns_has_pred s); [by split|]. unfold set_pred.
  split; [|by destruct (emit_member (remember_locked (s <| ns_pred := c |> <| ns_has_pred := true |>) c)
    [lit "predecessor is now " ++ address c]) as [E1 E2]; destruct (remember_self (s <| ns_pred := c |> <| ns_has_pred := true |>) c) as [E3 E4]; split; [rewrite E1, E3|rewrite E2, E4]].
  apply emit_node. pose proof (set_pred_node alone s c (ns_strikes s) Hs) as Hp. rewrite Hms in Hp.
  destruct s. apply Hp; [by split|congruence|apply Hs].
Qed.

Lemma notify_member s c : same_member s (notify_locked s c).1.1.
Proof.
  unfold notify_locked. destruct (_ || _); [|by destruct (negb _)]. cbn [fst].
  split; [rewrite (proj1 (remember_self _ _))|rewrite (proj2 (remember_self _ _))]; done.
Qed.

Lemma handle_notify_inv c σ : peer_ok c → Inv σ →
  Inv (handle_notify c σ).2 ∧ after_ok (handle_notify c σ).1.2.
Proof.
  intros Hc Hi. unfold handle_notify. destruct (same_node c (ns_self σ.1)); [by split|].
  pose proof Hi as (Hs & Hme & Hr). rewrite Hme. destruct (Z.eqb_spec (peer_id c) (peer_id me)).
  - split; [|done]. apply locked_inv; [|done]. intros s ? ?. split; [by apply emit_node|apply emit_member].
  - pose proof (notify_node alone σ.1 c Hs Hc ltac:(by rewrite Hme)) as Hn. pose proof (notify_member σ.1 c) as [E1 E2].
    assert (Ha : after_ok (notify_locked σ.1 c).2).
    { unfold notify_locked. destruct (_ || _); [done|]. by destruct (negb _). }
    destruct (notify_locked σ.1 c) as [[s ev] a]. cbn [fst snd] in *. split; [|done].
    destruct (emit_member s ev) as [E3 E4]. split; [by apply emit_node|]. cbn. split; congruence.
Qed.

Lemma handle_suspect_inv ip port σ : Inv σ → Inv (handle_suspect transport ip port σ).
Proof.
  intros Hi. unfold handle_suspect. destruct (suspect_target _ _) as [p|]; [|done].
  destruct (same_process p _); [done|]. pose proof (Hrely p (lit "PING") σ Hi) as Hi'.
  destruct (transport p _ σ) as [[d rep] σ']. case_bool_decide; [|done]. apply locked_inv; [|done].
  apply (emit_section (λ s, evict_locked s p _ true false)). intros s ? ?. split; [by apply evict_node|apply evict_member].
Qed.

Lemma handle_request_inv line σ : Inv σ →
  Inv (handle_request transport line σ).2 ∧ after_ok (handle_request transport line σ).1.2.
Proof.
  intros Hi. unfold handle_request. destruct (stream_words line) as [|verb args]; [done|].
  destruct (ring_verb verb && _); [done|]. destruct args as [|a [|b [|c [|d args]]]].
  - repeat case_bool_decide; done.
  - case_bool_decide; done.
  - case_bool_decide; [|done]. split; [by apply handle_suspect_inv|done].
  - case_bool_decide; [|done]. destruct (parse_peer_words a b c) as [|p] eqn:Ep; [done|].
    apply handle_notify_inv; [by eapply parse_peer_words_inr|done].
  - done.
Qed.

Lemma adopt_member s c : same_member s (adopt s c).
Proof.
  unfold adopt. cbv zeta. set (s1 := s <| ns_succs := _ |> <| ns_fingers := _ |>).
  destruct (remember_self s1 c) as [E1 E2]. set (s2 := (remember_locked s1 c) <| ns_counters := _ |>).
  destruct (emit_member s2 [lit "successor is now " ++ address c]) as [E3 E4]. split; [rewrite E3|rewrite E4]; done.
Qed.

Lemma take_list_member s succ nb : same_member s (take_list s succ nb).1.
Proof.
  unfold take_list. cbv zeta. set (s1 := foldl remember_locked _ _).
  assert (E : same_member s s1) by (subst s1; split; [rewrite (proj1 (remember_all_self _ _))|rewrite (proj2 (remember_all_self _ _))]; done).
  clearbody s1. destruct (nb_pred nb) as [p|]; [|done]. destruct (_ || _); [done|]. destruct (_ =? _)%Z.
  - destruct E as [E1 E2]. destruct (emit_member s1 [lit "refusing " ++ address p ++ lit " as successor: it carries my identifier"]) as [E3 E4].
    split; cbn [fst]; congruence.
  - by destruct (in_range_oo _ _ _).
Qed.

Lemma verify_candidate_inv succ c σ : Inv σ → peer_ok c → peer_id c ≠ peer_id me →
  Inv (verify_candidate transport now succ c σ).2.
Proof.
  intros Hi Hc Hne. unfold verify_candidate. pose proof (call_peer_inv c (lit "PING") is_pong σ Hi) as Hi1.
  destruct (call_peer _ _ c _ _ σ) as [[call rep] σ1]. cbn [snd] in Hi1. destruct (negb _); [done|].
  destruct (same_node (succ0 σ1.1) succ); [|done]. apply locked_inv; [|done]. intros s Hs Hms.
  split; [|apply adopt_member]. apply adopt_node; [done|by rewrite Hms; split|congruence].
Qed.

Lemma notify_successor_inv σ : Inv σ → Inv (notify_successor transport now σ).
Proof.
  intros Hi. unfold notify_successor. cbv zeta. destruct (same_node _ _); [done|].
  pose proof (call_peer_inv (succ0 σ.1) (lit "NOTIFY " ++ peer_words (ns_self σ.1)) is_ok σ Hi) as Hi1.
  by destruct (call_peer _ _ _ _ _ σ) as [[? ?] ?].
Qed.

Lemma stabilize_pass_inv σ : Inv σ → Inv (stabilize_pass transport now σ).2.
Proof.
  intros Hi. unfold stabilize_pass. cbv zeta.
  pose proof (call_peer_inv (succ0 σ.1) (lit "NEIGHBOURS")
    (λ line, match parse_neighbours line with inr _ => true | inl _ => false end) σ Hi) as Hi1.
  destruct (call_peer _ _ _ _ _ σ) as [[c reply] σ1]. cbn [snd] in Hi1. destruct (negb _); [done|].
  destruct (parse_neighbours reply) as [|nb] eqn:Ep; [done|]. apply parse_neighbours_ok in Ep as [Hnb Hpred].
  destruct (same_node (succ0 σ1.1) (succ0 σ.1)) eqn:Es; [|done]. cbn [negb]. apply same_node_eq in Es.
  pose proof (take_list_node alone σ1.1 (succ0 σ.1) nb (proj1 Hi1) Es Hnb) as Ht.
  pose proof (take_list_member σ1.1 (succ0 σ.1) nb) as [E1 E2].
  pose proof (take_list_candidate σ1.1 (succ0 σ.1) nb) as Hc.
  destruct (take_list σ1.1 (succ0 σ.1) nb) as [s cand]. cbn [fst snd] in *. destruct Hi1 as (_ & Hme & Hr).
  assert (Hi2 : Inv (s, σ1.2)) by (split; [done|]; cbn; split; congruence).
  set (mv := match cand with Some p => _ | None => _ end).
  assert (Hmv : Inv mv.2).
  { subst mv. destruct cand as [p|]; [|done]. destruct (Hc p eq_refl) as (Hp & Hid & _). apply verify_candidate_inv; [done| |].
    - by apply Hpred.
    - by rewrite <- Hme. }
  destruct mv as [[] σ2]; cbn [snd] in *; [done|]. by apply notify_successor_inv.
Qed.

Lemma stabilize_inv σ : Inv σ → Inv (stabilize transport now σ).
Proof.
  unfold stabilize. generalize (S (MAX_SUCCESSORS + MAX_WALK)). intros n. revert σ.
  induction n as [|n IH]; intros σ Hi; [done|]. cbn [stabilize_loop]. pose proof (stabilize_pass_inv σ Hi) as Hi1.
  destruct (stabilize_pass transport now σ) as [[] σ1]; [by apply IH|done].
Qed.

Lemma check_predecessor_inv σ : Inv σ → Inv (check_predecessor transport now σ).
Proof.
  intros Hi. unfold check_predecessor. destruct (_ || _); [done|].
  pose proof (call_peer_inv (ns_pred σ.1) (lit "PING") is_pong σ Hi) as Hi1.
  by destruct (call_peer _ _ _ _ _ σ) as [[? ?] ?].
Qed.

Lemma finger_found_member s o i : same_member s (finger_found s o i).
Proof.
  unfold finger_found. destruct (fill_fingers _ _ _ _ _) as [j fs]. destruct (if j =? i then _ else _) as [j' fs']. cbv zeta.
  split; [rewrite (proj1 (remember_self _ _))|rewrite (proj2 (remember_self _ _))]; done.
Qed.

Lemma finger_failed_member s res i : same_member s (finger_failed s res i).1.
Proof.
  unfold finger_failed. cbv zeta. set (se := match last (path res) with Some p => _ | None => _ end).
  assert (E : same_member s se.1).
  { subst se. destruct (last (path res)); [|done]. destruct (negb _); [done|].
    case_bool_decide; [apply evict_member|apply strike_member]. }
  destruct se. exact E.
Qed.

Lemma fix_next_finger_inv σ : Inv σ → Inv (fix_next_finger transport σ).
Proof.
  intros Hi. unfold fix_next_finger. cbv zeta. set (i := ns_next_finger σ.1).
  assert (Hrange : 1 ≤ i < ID_BITS) by apply Hi.
  pose proof (lookup_inv (ns_self σ.1) (finger_start (peer_id (ns_self σ.1)) i) σ Hi) as Hi1.
  pose proof (result_ok_found (ns_self σ.1) (finger_start (peer_id (ns_self σ.1)) i) σ) as Hf.
  destruct (lookup transport _ _ σ) as [res σ1]. cbn [fst snd] in *. apply locked_inv; [|done].
  intros s Hs Hms. destruct (result_ok res) eqn:Eok; cbn [negb].
  - specialize (Hf eq_refl). destruct (_ && _) eqn:Ec.
    + pose proof (emit_member (s <| ns_next_finger := after_finger i |>)
        [lit "refusing " ++ address (found res) ++ lit " as a finger: it carries my identifier"]) as [E1 E2].
      split; [|split; [rewrite E1|rewrite E2]; done]. apply emit_node. destruct Hs. split; [|done].
      by apply next_finger_tables, after_finger_range.
    + split; [|apply finger_found_member]. apply finger_found_node; [done| |done]. split; [done|]. intros Hid.
      rewrite Hid, Z.eqb_refl in Ec. cbn in Ec. by apply negb_false_iff, same_node_eq in Ec.
  - apply (emit_section (λ s, finger_failed s res i)); [|done|done]. intros s' Hs' _.
    split; [by apply finger_failed_node|apply finger_failed_member].
Qed.

Lemma counters_section (f : RingCounters → RingCounters) : section_ok (λ s, s <| ns_counters := f (ns_counters s) |>).
Proof. intros s Hs _. split; [by apply counters_node|done]. Qed.

Lemma rejoin_inv c σ : Inv σ → Inv (rejoin transport c σ).
Proof.
  intros Hi. unfold rejoin. pose proof (join_ring_inv c σ Hi) as Hi1. destruct (join_ring transport c σ) as [st σ1].
  cbn [snd] in Hi1. apply locked_inv; [|done]. intros s Hs Hms. destruct st.
  - set (s1 := s <| ns_counters := _ |>). split; [by apply emit_node, counters_node|].
    destruct (emit_member s1 [lit "rejoined through " ++ address c]) as [E1 E2]. split; [rewrite E1|rewrite E2]; done.
  - split; [by apply emit_node|apply emit_member].
  - split; [by apply emit_node|apply emit_member].
Qed.

Lemma maintenance_round_inv σ : Inv σ → Inv (maintenance_round transport now σ).
Proof.
  intros Hi. unfold maintenance_round. cbv zeta. set (σ1 := locked _ σ).
  assert (Hi1 : Inv σ1) by (apply locked_inv; [apply (counters_section (λ c, c <| c_rounds := bump (c_rounds c) |>))|done]).
  clearbody σ1. destruct (ns_orphaned σ1.1).
  - assert (Hn : Inv ((next_contact σ1.1).2, σ1.2)).
    { unfold next_contact. destruct Hi1 as (Hs & Hme & Hr). destruct (ns_contacts σ1.1); [done|].
      split; [|done]. destruct Hs as [[] ?]. split; [by split|done]. }
    destruct (next_contact σ1.1) as [[c|] s]; cbn [snd] in Hn; [by apply rejoin_inv|done].
  - by apply fix_next_finger_inv, check_predecessor_inv, stabilize_inv.
Qed.
End ops.
