(* ===== verification/Ring.v ===== *)
(** * Ring: what a ring member promises, alone and among others

    The claims about stabilize.cpp: the invariant of a member under concurrent
    threads, that it never claims the whole ring by accident, the failure
    detector, the NEIGHBOURS wire format, and that wired members answer lookups
    correctly and are a fixed point of stabilisation. *)
From stdpp Require Import sorting.
From S2P Require Import Prelude Text Net Chord Lookup Routing OrdMap Stabilize StabilizeInv.

(** ** Requests as words *)

Lemma stream_words_go_word w s : Forall (λ c, is_space c = false) w → ∀ acc,
  stream_words_go acc (w ++ s) = stream_words_go (acc ++ w) s.
Proof.
  induction 1 as [|c w Hc Hw IH]; intros acc; [by rewrite app_nil_r|]. cbn. rewrite Hc, IH. by rewrite <- app_assoc.
Qed.

Lemma stream_words_snoc w rest : w ≠ [] → Forall (λ c, is_space c = false) w →
  stream_words (w ++ SPACE :: rest) = w :: stream_words rest.
Proof.
  intros Hne Hw. unfold stream_words. rewrite stream_words_go_word by done. cbn. by rewrite bool_decide_false.
Qed.

Lemma stream_words_last w : w ≠ [] → Forall (λ c, is_space c = false) w → stream_words w = [w].
Proof.
  intros Hne Hw. unfold stream_words. rewrite <- (app_nil_r w) at 1. rewrite stream_words_go_word by done. cbn.
  by rewrite bool_decide_false.
Qed.

Lemma lower_hex_not_space c : is_lower_hex c = true → is_space c = false.
Proof.
  unfold is_lower_hex, is_digit, is_space. intros E. apply not_true_is_false. intros E'.
  repeat match goal with H : _ || _ = true |- _ => apply orb_true_iff in H as [H|H]
                       | H : _ && _ = true |- _ => apply andb_true_iff in H as [? ?] end; bool_to_prop; lia.
Qed.

Lemma id_to_hex_word id : id_to_hex id ≠ [] ∧ Forall (λ c, is_space c = false) (id_to_hex id).
Proof.
  split.
  - intros E. pose proof (length_hex_go 16 id) as Hl. unfold id_to_hex in E. by rewrite E in Hl.
  - eapply Forall_impl; [apply hex_go_lower|]. intros c. apply lower_hex_not_space.
Qed.

Lemma find_successor_words id :
  stream_words (lit "FIND_SUCCESSOR " ++ id_to_hex id) = [lit "FIND_SUCCESSOR"; id_to_hex id].
Proof.
  destruct (id_to_hex_word id) as [Hne Hw].
  change (lit "FIND_SUCCESSOR " ++ id_to_hex id) with (lit "FIND_SUCCESSOR" ++ SPACE :: id_to_hex id).
  rewrite stream_words_snoc, stream_words_last; try done. by apply (bool_decide_unpack _).
Qed.

(** ** NEIGHBOURS on the wire *)
Section wire.
Context {IN : Inet} {IOk : InetOk IN}.

Definition peer3 (p : Peer) : list bytes := [id_to_hex (peer_id p); peer_ip p; to_string (peer_port p)].

Lemma split_peers w l : SPACE ∉ w → Forall peer_ok l →
  split_single_spaces (w ++ concat ((λ p, lit " " ++ peer_words p) <$> l)) = w :: concat (peer3 <$> l).
Proof.
  intros Hw Hl. unfold split_single_spaces. revert w Hw. induction Hl as [|p l Hp Hl IH]; intros w Hw; cbn [fmap list_fmap concat].
  { rewrite app_nil_r. by apply split_on_single. }
  pose proof (peer_words_no_space p Hp) as Hns. rewrite !Forall_cons in Hns. destruct Hns as (H1 & H2 & H3 & _).
  unfold peer_words. rewrite <- !app_assoc.
  change (lit " " ++ ?x) with (SPACE :: x). rewrite split_on_app by done.
  change (lit " " ++ ?x) with (SPACE :: x). rewrite split_on_app by done.
  change (lit " " ++ ?x) with (SPACE :: x). rewrite split_on_app by done.
  rewrite IH by done. done.
Qed.

Lemma parse_peers_render l : Forall peer_ok l → parse_peers (length l) (concat (peer3 <$> l)) = inr l.
Proof.
  induction 1 as [|p l Hp Hl IH]; [done|]. cbn [fmap list_fmap concat length].
  unfold peer3 at 1. cbn [app parse_peers]. rewrite parse_peer_words_ok by done. by rewrite IH.
Qed.

Lemma parse_count_dec n : 1 ≤ n ≤ MAX_SUCCESSORS → parse_count (dec (N.of_nat n)) = Some n.
Proof.
  unfold MAX_SUCCESSORS. intros Hn. unfold parse_count.
  assert (Hc : parse_canonical 2 (dec (N.of_nat n)) = Some (N.of_nat n)) by (apply parse_canonical_dec; [lia|cbn; lia|lia]).
  revert Hc. unfold parse_canonical. destruct (_ || _); [done|].
  assert (Hh : head (dec (N.of_nat n)) ≠ Some (digit_char 0)) by (apply dec_go_head; [lia|cbn; lia]).
  rewrite (bool_decide_false (head _ = _)) by done. rewrite andb_false_r. cbn [orb].
  intros ->. cbn. destruct (N.ltb_spec (N.of_nat n) 1); [lia|].
  destruct (N.ltb_spec (N.of_nat MAX_SUCCESSORS) (N.of_nat n)); [unfold MAX_SUCCESSORS in *; lia|]. cbn. by rewrite Nat2N.id.
Qed.

Lemma parse_succs_render pred l : 1 ≤ length l ≤ MAX_SUCCESSORS → Forall peer_ok l →
  parse_succs pred (dec (N.of_nat (length l)) :: concat (peer3 <$> l)) = inr (mkNeighbours pred l).
Proof.
  intros Hl Hp. unfold parse_succs. rewrite parse_count_dec by done.
  assert (E : length (concat (peer3 <$> l)) = 3 * length l).
  { clear. induction l as [|p l IH]; [done|]. cbn [fmap list_fmap concat]. rewrite length_app, IH. cbn. lia. }
  rewrite E, Nat.eqb_refl. cbn [negb]. by rewrite parse_peers_render.
Qed.

Lemma neighbours_roundtrip_lemma nb :
  1 ≤ length (nb_succs nb) ≤ MAX_SUCCESSORS → Forall peer_ok (nb_succs nb) → (∀ p, nb_pred nb = Some p → peer_ok p) →
  parse_neighbours (render_neighbours nb) = inr nb.
Proof.
  intros Hl Hs Hp. destruct nb as [[p|] l]; cbn [nb_pred nb_succs] in *; unfold parse_neighbours, render_neighbours; cbn [nb_pred nb_succs].
  - specialize (Hp p eq_refl). pose proof (peer_words_no_space p Hp) as Hns. rewrite !Forall_cons in Hns.
    destruct Hns as (H1 & H2 & H3 & _). unfold peer_words. rewrite <- !app_assoc.
    change (lit "NEIGHBOURS " ++ ?x) with (lit "NEIGHBOURS" ++ SPACE :: x). unfold split_single_spaces.
    rewrite split_on_app by by apply (bool_decide_unpack _).
    do 3 (change (lit " " ++ ?x) with (SPACE :: x); rewrite split_on_app by done).
    fold (split_single_spaces (dec (N.of_nat (length l)) ++ concat ((λ p, lit " " ++ peer_words p) <$> l))).
    rewrite split_peers by (done || apply dec_no_space). rewrite bool_decide_true by done. cbn [negb].
    rewrite bool_decide_false.
    + rewrite parse_peer_words_ok by done. by apply parse_succs_render.
    + intros E. pose proof (length_hex_go 16 (peer_id p)) as Hlen. unfold id_to_hex in E. by rewrite E in Hlen.
  - change (lit "NEIGHBOURS " ++ ?x) with (lit "NEIGHBOURS" ++ SPACE :: x). unfold split_single_spaces.
    rewrite split_on_app by by apply (bool_decide_unpack _). change (lit " " ++ ?x) with (SPACE :: x).
    rewrite split_on_app by by apply (bool_decide_unpack _).
    fold (split_single_spaces (dec (N.of_nat (length l)) ++ concat ((λ p, lit " " ++ peer_words p) <$> l))).
    rewrite split_peers by (done || apply dec_no_space). rewrite !bool_decide_true by done. cbn [negb].
    by apply parse_succs_render.
Qed.
End wire.

(** ** A member among its threads *)
Section member.
Context {IN : Inet} {IOk : InetOk IN} {W : Type}.
Context (transport : Transport (NodeState * W)) (now : NodeState * W → Z).
Context (alone : bool) (me : Peer) (r : nat).
Notation Inv := (Inv alone me r).

(** C23. Maintenance and requests keep a member's tables sound, whatever the other nodes
    answer and whatever the member's other threads do during the calls, so long as
    those threads keep the same invariant: the successor list is never empty nor
    longer than [r], finger 0 is the successor, no other node carrying this member's
    identifier is ever held, a strike count never stays at the eviction threshold,
    and the contacts are few, distinct and of other processes. *)
Theorem member_keeps_invariant σ :
  others_keep transport alone me r → Inv σ →
  Inv (maintenance_round transport now σ) ∧
  ∀ line, let '(_, after, σ') := handle_request transport line σ in
    Inv σ' ∧ Inv (run_after transport now after σ').
Proof.
  intros Hrely Hi. split; [by apply maintenance_round_inv|]. intros line.
  pose proof (handle_request_inv transport alone me r Hrely line σ Hi) as [H1 H2].
  destruct (handle_request transport line σ) as [[reply after] σ']. cbn [fst snd] in *.
  split; [done|]. by apply run_after_inv.
Qed.
End member.

Section claim.
Context {IN : Inet} {IOk : InetOk IN} {W : Type}.
Context (transport : Transport (NodeState * W)).

Lemma request_find_successor σ k :
  is_u64 k →
  (handle_request transport (lit "FIND_SUCCESSOR " ++ id_to_hex k) σ).1.1 =
  if ns_orphaned σ.1 then lit "ERR orphaned: rejoining the ring"
  else render_step (route_step (ns_self σ.1) (succ0 σ.1) (ns_fingers σ.1) k).
Proof.
  intros Hk. unfold handle_request. rewrite find_successor_words.
  change (ring_verb (lit "FIND_SUCCESSOR")) with true. cbn [andb].
  destruct (ns_orphaned σ.1); [done|]. rewrite bool_decide_true by done. cbn [fst]. unfold find_successor_reply.
  by rewrite id_from_hex_to_hex.
Qed.

(** A member that has joined a ring never claims all of it because its neighbours
    died: whenever its state satisfies the invariant, a routing request either is
    answered by an orphan's refusal, or names as owner another member [p] with the
    key in the arc (self, p], or hands the lookup on. *)
Theorem never_claims_the_ring σ me r k b p :
  Inv false me r σ → is_u64 k →
  parse_reply (handle_request transport (lit "FIND_SUCCESSOR " ++ id_to_hex k) σ).1.1 = inr (b, p) →
  b = true → p ≠ me ∧ in_range_oc k (peer_id me) (peer_id p) = true.
Proof.
  intros ([Ht _] & Hme & _) Hk. rewrite request_find_successor by done.
  destruct (ns_orphaned σ.1) eqn:Eo; [done|]. unfold route_step. rewrite Hme.
  destruct (in_range_oc k (peer_id me) (peer_id (succ0 σ.1))) eqn:Er.
  - pose proof (succ0_held _ _ Ht) as [Hok _]. unfold render_step. cbn [owner step_peer].
    rewrite (parse_reply_words true) by done. intros [= <- <-] _. split; [|done]. intros E.
    rewrite (tb_claim _ _ Ht eq_refl) in Eo; congruence.
  - cbv zeta. set (n := closest_preceding_finger me (ns_fingers σ.1) k).
    assert (Hn : peer_ok n).
    { pose proof (tb_held _ _ Ht) as Hh. apply Forall_app in Hh as [_ Hh]. subst n. unfold closest_preceding_finger.
      destruct (List.find _ _) as [f|] eqn:Ef; [|cbn; rewrite <- Hme; apply Ht]. cbn. apply find_some in Ef as [Hin _].
      apply list_elem_of_In, elem_of_reverse in Hin. rewrite reverse_involutive in Hin. rewrite Forall_forall in Hh. by destruct (Hh f Hin). }
    destruct (_ && _); unfold render_step; cbn [owner step_peer]; rewrite (parse_reply_words false);
      try done; [by intros [= <- <-]| |by intros [= <- <-]]. by apply (succ0_held _ _ Ht).
Qed.

(** What a member says about its neighbours is what it holds: its NEIGHBOURS reply is
    one the strict parser of every other node accepts, and it reads back as exactly
    the predecessor and successor list under the lock. *)
Theorem neighbours_reply_roundtrip alone σ me r :
  Inv alone me r σ → r ≤ MAX_SUCCESSORS → ns_orphaned σ.1 = false →
  parse_neighbours (handle_request transport (lit "NEIGHBOURS") σ).1.1 =
  inr (mkNeighbours (if ns_has_pred σ.1 then Some (ns_pred σ.1) else None) (ns_succs σ.1)).
Proof.
  intros ([Ht _] & Hme & Hr) Hmax Ho. unfold handle_request.
  change (stream_words (lit "NEIGHBOURS")) with [lit "NEIGHBOURS"]. rewrite Ho, andb_false_r.
  rewrite bool_decide_false, bool_decide_true by done. cbn [fst]. apply neighbours_roundtrip_lemma; cbn [nb_succs nb_pred].
  - pose proof (tb_succs _ _ Ht). pose proof (tb_length _ _ Ht). rewrite Hr in *. destruct (ns_succs σ.1); [done|].
    cbn [length] in *. lia.
  - pose proof (tb_held _ _ Ht) as Hh. apply Forall_app in Hh as [Hh _]. eapply Forall_impl; [exact Hh|]. by intros ? [? _].
  - intros p. destruct (ns_has_pred σ.1) eqn:Ep; [|done]. intros [= <-]. by apply (tb_pred _ _ Ht).
Qed.
End claim.

(** ** The failure detector *)
Section detector.
Context {IN : Inet} {IOk : InetOk IN}.

(** Every peer a member routes by. *)
Definition tables (s : NodeState) : list Peer :=
  ns_succs s ++ ns_fingers s ++ if ns_has_pred s then [ns_pred s] else [].

Lemma nearest_known_stays s g : g (ns_self s) = false → g (nearest_known_locked s g) = false.
Proof.
  intros Hg. unfold nearest_known_locked. generalize (ns_fingers s ++ if ns_has_pred s then [ns_pred s] else []). intros l.
  assert (Hb : g (ns_self s, 0%Z).1 = false) by done. revert Hb. generalize (ns_self s, 0%Z).
  induction l as [|p l IH]; intros best Hb; [done|]. cbn [foldl]. apply IH. unfold consider.
  destruct (g p) eqn:Ep; [by rewrite orb_true_r|]. destruct (_ || _ || _); [done|]. by destruct (_ || _).
Qed.

Lemma replacement_stays g l q : replacement g l = Some q → g q = false.
Proof.
  induction l as [|p l IH]; [done|]. cbn. destruct (g p); [|done]. intros [_ E]%find_some. by apply negb_true_iff.
Qed.

Lemma evict_clears s dead why w o p :
  ns_succs s ≠ [] → gone w dead (ns_self s) = false → same_process dead (ns_self s) && negb o = false →
  p ∈ tables (evict_locked s dead why w o).1 → gone w dead p = false.
Proof.
  intros Hne Hself Hp. unfold evict_locked. destruct (same_node dead (ns_self s)) eqn:E1.
  { apply same_node_eq in E1 as ->. unfold gone in Hself. destruct w; [|by rewrite same_node_refl in Hself].
    assert (E : same_process (ns_self s) (ns_self s) = true) by (by apply same_process_true). congruence. }
  rewrite Hp. clear Hp. cbv zeta. set (g := gone w dead) in *.
  assert (Hsucc : Forall (λ q, g q = false) (ns_succs (evict_succs s g).1) ∧ ns_succs (evict_succs s g).1 ≠ []).
  { unfold evict_succs. case_bool_decide as Ek; [destruct (_ && _); upd|].
    - split; [|done]. constructor; [by apply nearest_known_stays|done].
    - split; [|done]. constructor; [by apply nearest_known_stays|done].
    - cbn [fst]. upd. split; [|done]. apply Forall_forall. by intros x [? _]%list_elem_of_filter. }
  pose proof (evict_succs_fields s g) as Ef. destruct (evict_succs s g) as [s1 ev]. cbn [fst] in *. destruct Hsucc as [Hs Hn].
  assert (H0 : g (succ0 s1) = false).
  { pose proof (succ0_head s1 Hn) as Hh. apply head_elem in Hh. rewrite Forall_forall in Hs. by apply Hs. }
  set (s2 := if ns_has_pred s1 && g (ns_pred s1) then s1 <| ns_has_pred := false |> else s1).
  assert (Hpred : ns_has_pred s2 = true → g (ns_pred s2) = false).
  { subst s2. destruct (ns_has_pred s1) eqn:Eh; cbn [andb]; [|by rewrite Eh]. by destruct (g (ns_pred s1)) eqn:Eg. }
  assert (H2 : ns_succs s2 = ns_succs s1 ∧ succ0 s2 = succ0 s1) by (subst s2; by destruct (ns_has_pred s1 && g (ns_pred s1))).
  clearbody s2. destruct H2 as [H2 H2'].
  set (s3 := forget_strikes (evict_fingers s2 g (replacement g (ns_succs s))) dead w).
  assert (Hin : ∀ q, q ∈ tables s3 → g q = false).
  { intros q. unfold tables. rewrite !elem_of_app. subst s3. unfold forget_strikes, evict_fingers. upd. rewrite H2, H2'.
    rewrite Forall_forall in Hs. intros [Hq|[Hq|Hq]]; [by apply Hs| |].
    - apply list_elem_of_lookup_1 in Hq as [i Hi]. destruct i as [|i].
      + destruct (_ <$> _) eqn:El; cbn in Hi; [done|]. by injection Hi as <-.
      + rewrite list_lookup_insert_ne in Hi by done. rewrite list_lookup_fmap in Hi.
        destruct (ns_fingers s2 !! S i) as [f|]; [|done]. cbn in Hi. injection Hi as <-.
        destruct (g f) eqn:Eg; [|done]. destruct (replacement g (ns_succs s)) eqn:Er; [by apply replacement_stays in Er|done].
    - destruct (ns_has_pred s2); [|by apply elem_of_nil in Hq]. apply list_elem_of_singleton in Hq as ->. by apply Hpred. }
  clearbody s3. destruct (existsb _ _ || _ || _); [|apply Hin]. cbn [fst]. apply Hin.
Qed.

(** The failure detector acts on proof at once and on suspicion the second time. For a
    peer of another process: a refused call takes every member at that address out of
    the successor list, the fingers and the predecessor; a first failure of any other
    kind leaves the tables as they were and is remembered; a second one in a row takes
    that member out of them; an answer in between forgets the first. *)
Theorem failure_detector alone s p req reply took d :
  node_ok alone s → same_process p (ns_self s) = false → d ≠ Ok → d ≠ Refused →
  (∀ q, q ∈ tables (report_call s p req Refused reply false took).1 → same_process q p = false) ∧
  (om_find (member_key p) (ns_strikes s) = None →
     tables (report_call s p req d reply false took).1 = tables s) ∧
  (om_find (member_key p) (ns_strikes s) = Some 1%N → p ∈ tables s →
     p ∉ tables (report_call s p req d reply false took).1) ∧
  om_find (member_key p) (ns_strikes (report_call s p req d reply true took).1) = None.
Proof.
  intros [Ht Hs] Hp Hd1 Hd2.
  assert (Hp' : same_process (ns_self s) p = false).
  { apply not_true_is_false. intros [E1 E2]%same_process_true. apply not_true_iff_false in Hp. by apply Hp, same_process_true. }
  split; [|split; [|split]].
  - unfold report_call. rewrite bool_decide_false, bool_decide_true by done. cbn [andb]. intros q.
    apply (evict_clears s p _ true false); [apply Ht|done|by rewrite Hp].
  - intros Hn. unfold report_call. rewrite !bool_decide_false by done. cbn [andb]. unfold strike_locked. rewrite Hp, Hn.
    destruct (negb _); [done|]. cbn. done.
  - intros H1 Hin. unfold report_call. rewrite !bool_decide_false by done. cbn [andb]. unfold strike_locked. rewrite Hp, H1.
    assert (Hh : holds s p = true).
    { unfold holds. unfold tables in Hin. rewrite !elem_of_app in Hin. destruct Hin as [Hin|[Hin|Hin]].
      - apply existsb_same_node in Hin. rewrite Hin. by rewrite orb_true_r.
      - apply existsb_same_node in Hin. rewrite Hin. by rewrite orb_true_r.
      - destruct (ns_has_pred s); [|by apply elem_of_nil in Hin]. apply list_elem_of_singleton in Hin as ->.
        by rewrite same_node_refl. }
    rewrite Hh. cbn [negb]. cbv zeta. cbn [default]. change (STRIKES_TO_EVICT <=? 1 + 1)%N with true. cbv iota.
    set (s1 := s <| ns_strikes := _ |> <| ns_counters := _ |>). set (why := _ ++ _).
    pose proof (evict_clears s1 p why false false p) as Hc.
    destruct (evict_locked s1 p why false false) as [s2 ev]. cbn [fst] in *. intros Hq.
    apply Hc in Hq; [|apply Ht| |by change (ns_self s1) with (ns_self s); rewrite Hp].
    + cbn in Hq. by rewrite same_node_refl in Hq.
    + cbn. change (ns_self s1) with (ns_self s). unfold same_node. by rewrite Hp'.
  - unfold report_call, clear_strikes_locked. cbn [fst]. upd. by rewrite om_find_erase, decide_True.
Qed.
End detector.

(** ** Fingers against the reference table *)
Section fingers.
Context (ring : list Peer) (Hring : ring_ok ring).

Lemma owner_covers a si o : is_u64 a → is_u64 si → is_u64 o →
  (dist si o <= dist si a)%Z → (gap a si <= gap a o)%Z.
Proof. intros. circle_lia. Qed.

Lemma owner_later a si sj o q : is_u64 a → is_u64 si → is_u64 sj → is_u64 o → is_u64 q →
  (gap a si <= gap a sj)%Z → (gap a sj <= gap a o)%Z → (dist si o <= dist si q)%Z → (dist sj o <= dist sj q)%Z.
Proof. intros. circle_lia. Qed.

(** Every later start inside (self, owner] has the same owner. *)
Lemma covered_owner n i j o :
  n ∈ ring → i ≤ j < ID_BITS → successor_of (finger_start (peer_id n) i) ring = Some o →
  in_range_oc (finger_start (peer_id n) j) (peer_id n) (peer_id o) = true →
  successor_of (finger_start (peer_id n) j) ring = Some o.
Proof using Hring.
  intros Hn Hij Ho Hc. pose proof (ring_u64 _ _ Hring Hn) as Hu.
  pose proof (finger_start_u64 (peer_id n) i) as Hsi. pose proof (finger_start_u64 (peer_id n) j) as Hsj.
  destruct (successor_of_owns ring _ Hring Hsi) as (o' & E & Hin & Hown). simplify_eq.
  pose proof (ring_u64 _ _ Hring Hin) as Huo.
  destruct (successor_of_owns ring _ Hring Hsj) as (oj & -> & Hownj). f_equal.
  apply (owns_unique ring (finger_start (peer_id n) j)); [done|done|done|]. split; [done|]. intros q Hq.
  apply in_range_oc_gap in Hc; [|done..].
  apply (owner_later (peer_id n) (finger_start (peer_id n) i)); try done; [by apply (ring_u64 ring)| |by apply Hown].
  rewrite !finger_start_gap by (done || lia). apply Z.pow_le_mono_r; lia.
Qed.

Lemma own_start_covered n i o :
  n ∈ ring → i < ID_BITS → successor_of (finger_start (peer_id n) i) ring = Some o →
  in_range_oc (finger_start (peer_id n) i) (peer_id n) (peer_id o) = true.
Proof using Hring.
  intros Hn Hi Ho. pose proof (finger_start_u64 (peer_id n) i) as Hsi. pose proof (ring_u64 _ _ Hring Hn) as Hu.
  destruct (successor_of_owns ring _ Hring Hsi) as (o' & E & Hin & Hown). simplify_eq.
  apply in_range_oc_gap; [done|by apply (ring_u64 ring)|done|].
  apply owner_covers; try done; [by apply (ring_u64 ring)|]. by apply Hown.
Qed.
End fingers.

Lemma fill_fingers_S n self o j fs :
  fill_fingers (S n) self o j fs =
  if (j <? ID_BITS) && in_range_oc (finger_start self j) self (peer_id o)
  then fill_fingers n self o (S j) (<[j := o]> fs) else (j, fs).
Proof. reflexivity. Qed.

(** One answer to a finger lookup fills a run of fingers, and fills them right: if the
    lookup of finger [i] returned the true owner, every finger from [i] up to the next
    one to refresh becomes the entry of the reference table [build_fingers] builds
    from the whole membership, at least one of them does, and no other finger but the
    successor's changes. *)
Theorem fingers_filled_right {IN : Inet} {IOk : InetOk IN} alone ring s i o fs :
  ring_ok ring → node_ok alone s → ns_self s ∈ ring → 1 ≤ i < ID_BITS →
  successor_of (finger_start (peer_id (ns_self s)) i) ring = Some o →
  build_fingers (peer_id (ns_self s)) ring = Some fs →
  ∃ k, i < k ≤ ID_BITS ∧ ns_next_finger (finger_found s o i) = (if ID_BITS <=? k then 1 else k) ∧
    (∀ j, i ≤ j < k → ns_fingers (finger_found s o i) !! j = fs !! j) ∧
    (∀ j, 1 ≤ j < i ∨ k ≤ j → ns_fingers (finger_found s o i) !! j = ns_fingers s !! j).
Proof.
  intros Hr [Ht _] Hin Hi Ho Hfs. unfold finger_found.
  pose proof (fill_fingers_spec ID_BITS (peer_id (ns_self s)) o i (ns_fingers s) ltac:(lia)) as Hsp.
  assert (Hfirst : i < (fill_fingers ID_BITS (peer_id (ns_self s)) o i (ns_fingers s)).1).
  { change ID_BITS with (S 63) at 1. rewrite fill_fingers_S. destruct (Nat.ltb_spec i ID_BITS); [|lia].
    rewrite (own_start_covered ring Hr (ns_self s) i o) by (done || lia). cbn [andb].
    pose proof (fill_fingers_spec 63 (peer_id (ns_self s)) o (S i) (<[i := o]> (ns_fingers s)) ltac:(lia)) as Hs2.
    destruct (fill_fingers 63 _ o (S i) _) as [k' fs']. destruct Hs2 as [Hs2 _]. cbn. lia. }
  destruct (fill_fingers ID_BITS _ o i (ns_fingers s)) as [k fs']. cbn [fst] in Hfirst.
  destruct Hsp as (Hk & Hl & Hfill & Hrest). destruct (Nat.eqb_spec k i); [lia|]. cbv zeta.
  destruct (remember_fields (s <| ns_fingers := <[0 := succ0 s]> fs' |> <| ns_next_finger := if ID_BITS <=? k then 1 else k |>) o)
    as [c ->]. upd. exists k. split; [lia|]. split; [done|]. rewrite (tb_fingers _ _ Ht) in *. split.
  - intros j Hj. rewrite list_lookup_insert_ne by lia. destruct (Hfill j) as [-> Hc]; [lia|lia|].
    pose proof (length_build_fingers ring _ _ Hfs) as Hlf.
    destruct (fs !! j) as [f|] eqn:Ef; [|apply lookup_ge_None in Ef; lia].
    destruct (build_fingers_lookup ring _ _ _ _ Hfs Ef) as [_ Ef'].
    rewrite (covered_owner ring Hr (ns_self s) i j o) in Ef' by (done || lia). done.
  - intros j Hj. rewrite list_lookup_insert_ne by lia. apply Hrest. lia.
Qed.

(** ** Wired members *)

Section wired.
Context (ring : list Peer) (Hring : ring_ok ring).

(** The members after position [me], going round. *)
Definition rot (me : nat) : list Peer := drop (S me) ring ++ take me ring.

Lemma find_self_lookup m : m ∈ ring → ring !! find_self m ring = Some m.
Proof.
  clear. induction ring as [|p l IH]; [by intros ?%elem_of_nil|]. cbn. intros [->|Hin]%elem_of_cons.
  - by rewrite same_node_refl.
  - destruct (same_node p m) eqn:E; [by apply same_node_eq in E as ->|]. by apply IH.
Qed.

Lemma steps_rot me : me < length ring →
  (λ step, default no_peer (ring !! ((me + step) mod length ring))) <$> seq 1 (length ring - 1) = rot me.
Proof.
  intros Hme. apply list_eq. intros i. unfold rot. rewrite list_lookup_fmap.
  destruct (decide (i < length ring - 1)) as [Hi|Hi].
  - rewrite lookup_seq_lt by done. cbn [fmap option_fmap option_map]. replace (me + (1 + i)) with (S me + i) by lia.
    destruct (decide (S me + i < length ring)) as [Hlt|Hge].
    + rewrite Nat.mod_small by done. rewrite lookup_app_l by (rewrite length_drop; lia). rewrite lookup_drop.
      destruct (lookup_lt_is_Some_2 ring (S me + i) Hlt) as [x ->]. done.
    + rewrite lookup_app_r by (rewrite length_drop; lia). rewrite length_drop.
      replace ((S me + i) mod length ring) with (S me + i - length ring)
        by (rewrite <- (Nat.mod_small (S me + i - length ring) (length ring)) by lia;
            rewrite <- (Nat.Div0.mod_add (S me + i - length ring) 1); f_equal; lia).
      rewrite lookup_take_lt by lia. replace (i - (length ring - S me)) with (S me + i - length ring) by lia.
      destruct (lookup_lt_is_Some_2 ring (S me + i - length ring)) as [x ->]; [lia|done].
  - rewrite (proj2 (lookup_ge_None (seq _ _) i)) by (rewrite length_seq; lia). symmetry. apply lookup_ge_None.
    rewrite length_app, length_drop, length_take. lia.
Qed.

Lemma wired_succs_rot s : ns_self s ∈ ring →
  wired_succs s ring = match take (ns_r s) (rot (find_self (ns_self s) ring)) with [] => [ns_self s] | l => l end.
Proof.
  intros Hin. unfold wired_succs. rewrite steps_rot; [done|]. eapply lookup_lt_Some, find_self_lookup, Hin.
Qed.

Lemma rot_elem m q : m ∈ ring → q ∈ rot (find_self m ring) ↔ q ∈ ring ∧ q ≠ m.
Proof using Hring.
  intros Hm. pose proof (find_self_lookup m Hm) as Hl. set (i := find_self m ring) in *.
  assert (Hnd : NoDup ring) by (apply (NoDup_fmap_1 peer_id), ring_ids_nodup, Hring).
  assert (Hq : q ∈ ring ↔ q ∈ take i ring ++ m :: drop (S i) ring) by by rewrite (take_drop_middle ring i m Hl).
  rewrite <- (take_drop_middle ring i m Hl) in Hnd. rewrite Hq. clear Hq.
  apply NoDup_app in Hnd as (_ & H1 & [H2 _]%NoDup_cons).
  unfold rot. rewrite !elem_of_app, elem_of_cons. split.
  - intros [Hq|Hq]; (split; [tauto|]); intros ->; [done|]. apply (H1 m Hq). apply elem_of_cons. by left.
  - intros [[Hq|[->|Hq]] Hne]; tauto.
Qed.

Lemma rot_nil m : m ∈ ring → rot (find_self m ring) = [] → ring = [m].
Proof.
  intros Hm E. pose proof (find_self_lookup m Hm) as Hl. rewrite <- (take_drop_middle ring _ m Hl).
  unfold rot in E. apply app_nil in E as [-> ->]. done.
Qed.

(** The first of them owns the arc right after [m]. *)
Lemma rot_head m q : m ∈ ring → head (rot (find_self m ring)) = Some q →
  successor_of (finger_start (peer_id m) 0) ring = Some q.
Proof using Hring.
  intros Hm Hq. pose proof (find_self_lookup m Hm) as Hl. set (i := find_self m ring) in *.
  assert (Hfs : is_u64 (finger_start (peer_id m) 0)) by apply finger_start_u64.
  destruct (successor_of_owns ring _ Hring Hfs) as (o & -> & Hown). f_equal.
  apply (owns_unique ring (finger_start (peer_id m) 0)); [done..|].
  pose proof (ring_u64 _ _ Hring Hm) as Hum. pose proof Hring as (_ & Hs & _).
  assert (Hqr : q ∈ rot i) by by apply head_elem. apply rot_elem in Hqr as [Hqr Hqm]; [|done].
  split; [done|]. intros x Hx. pose proof (ring_u64 _ _ Hring Hqr) as Huq. pose proof (ring_u64 _ _ Hring Hx) as Hux.
  assert (Hg : gap (peer_id m) (finger_start (peer_id m) 0) = 1%Z) by (apply finger_start_gap; [done|unfold ID_BITS; lia]).
  apply list_elem_of_lookup_1 in Hx as [j Hj]. destruct (decide (S i < length ring)) as [Hi|Hi].
  - assert (Hqi : ring !! S i = Some q).
    { unfold rot in Hq. destruct (drop (S i) ring) as [|y l] eqn:Ed; [apply (f_equal length) in Ed; rewrite length_drop in Ed; cbn in Ed; lia|].
      cbn in Hq. injection Hq as ->. rewrite <- (Nat.add_0_r (S i)), <- lookup_drop, Ed. done. }
    pose proof (sorted_lookup_lt ring i (S i) m q Hs Hl Hqi ltac:(lia)) as H1.
    destruct (decide (j ≤ i)) as [Hji|Hji].
    + assert (H2 : (peer_id x <= peer_id m)%Z).
      { destruct (decide (j = i)) as [->|]; [simplify_eq; lia|]. pose proof (sorted_lookup_lt ring j i x m Hs Hj Hl ltac:(lia)). lia. }
      circle_lia.
    + assert (H2 : (peer_id q <= peer_id x)%Z).
      { destruct (decide (j = S i)) as [->|]; [simplify_eq; lia|]. pose proof (sorted_lookup_lt ring (S i) j q x Hs Hqi Hj ltac:(lia)). lia. }
      circle_lia.
  - assert (Hq0 : ring !! 0 = Some q).
    { unfold rot in Hq. rewrite drop_ge in Hq by lia. cbn [app] in Hq. destruct (decide (i = 0)) as [Hi0|Hi0].
      - by rewrite Hi0 in Hq.
      - by rewrite head_lookup, lookup_take_lt in Hq by lia. }
    assert (Hmx : (peer_id x <= peer_id m)%Z).
    { pose proof (lookup_lt_Some _ _ _ Hj). destruct (decide (j = i)) as [->|]; [simplify_eq; lia|].
      pose proof (sorted_lookup_lt ring j i x m Hs Hj Hl ltac:(lia)). lia. }
    assert (Hqx : (peer_id q <= peer_id x)%Z).
    { destruct j as [|j]; [simplify_eq; lia|]. pose proof (sorted_lookup_lt ring 0 (S j) q x Hs Hq0 Hj ltac:(lia)). lia. }
    assert (Hqm' : (peer_id q < peer_id m)%Z).
    { destruct (Z.eq_dec (peer_id q) (peer_id m)) as [E|]; [|lia]. by apply (ring_inj ring) in E. }
    circle_lia.
Qed.

Lemma rot_nodup m : m ∈ ring → NoDup (rot (find_self m ring)).
Proof using Hring.
  intros Hm. pose proof (find_self_lookup m Hm) as Hl. set (i := find_self m ring) in *.
  assert (Hnd : NoDup ring) by (apply (NoDup_fmap_1 peer_id), ring_ids_nodup, Hring).
  rewrite <- (take_drop_middle ring i m Hl) in Hnd. apply NoDup_app in Hnd as (H1 & H2 & [_ H3]%NoDup_cons).
  unfold rot. apply NoDup_app. split_and!; [done| |done]. intros x Hx Hx'. apply (H2 x Hx'). apply elem_of_cons. by right.
Qed.

Lemma wired_succ0 m r : m ∈ ring → 1 ≤ r →
  ∃ l, (match take r (rot (find_self m ring)) with [] => [m] | l => l end) = l ∧
    head l = successor_of (finger_start (peer_id m) 0) ring ∧ is_Some (head l).
Proof using Hring.
  intros Hm Hr. eexists. split; [reflexivity|]. destruct r as [|r]; [lia|].
  destruct (rot (find_self m ring)) as [|q l] eqn:E.
  - cbn. apply rot_nil in E as ->; [|done]. split; [|by eexists]. unfold successor_of. cbn. by destruct (_ <? _)%Z.
  - cbn. rewrite (rot_head m q) by (done || by rewrite E). split; [done|by eexists].
Qed.

(** [init_wired] on a valid ring: the successor and fingers of chord.cpp. *)
Lemma init_wired_tables s : ns_self s ∈ ring → 1 ≤ ns_r s →
  ∃ s' fs, init_wired s ring = Some s' ∧ build_fingers (peer_id (ns_self s)) ring = Some fs ∧
    ns_self s' = ns_self s ∧ ns_r s' = ns_r s ∧ ns_succs s' = wired_succs s ring ∧ ns_fingers s' = fs ∧
    successor_of (finger_start (peer_id (ns_self s)) 0) ring = Some (succ0 s') ∧ ns_orphaned s' = ns_orphaned s.
Proof using Hring.
  intros Hm Hr. destruct (build_fingers_Some ring Hring (peer_id (ns_self s))) as [fs Hfs].
  destruct (predecessor_of_precedes ring (peer_id (ns_self s)) Hring) as (p & Hp & _); [by apply (ring_u64 ring)|].
  destruct (wired_succ0 (ns_self s) (ns_r s) Hm Hr) as (l & El & Hh & [q Hq]).
  unfold init_wired. rewrite Hfs, Hp. cbn [mbind option_bind]. rewrite wired_succs_rot, El by done.
  set (s1 := if 1 <? length ring then _ else _).
  assert (Hs1 : ns_self s1 = ns_self s ∧ ns_r s1 = ns_r s ∧ ns_succs s1 = l ∧ ns_orphaned s1 = ns_orphaned s)
    by (subst s1; by destruct (1 <? length ring)). clearbody s1. destruct Hs1 as (E1 & E2 & E3 & E4).
  assert (E0 : succ0 s1 = q) by (unfold succ0; by rewrite E3, Hq).
  eexists _, fs. split; [reflexivity|]. split; [done|]. set (s2 := s1 <| ns_fingers := _ |> <| ns_next_finger := 1 |>).
  assert (Hrem : ∃ c, foldl remember_locked s2 l = s2 <| ns_contacts := c |>).
  { clearbody s2. generalize l. intros l'. revert s2. induction l' as [|x l' IH]; intros s2.
    - exists (ns_contacts s2). by destruct s2.
    - cbn. destruct (remember_fields s2 x) as [c ->]. destruct (IH (s2 <| ns_contacts := c |>)) as [c' ->]. by exists c'. }
  destruct Hrem as [c ->]. subst s2. upd. split_and!; try done.
  - rewrite E0. apply list_insert_id. destruct (fs !! 0) as [f|] eqn:Ef.
    + destruct (build_fingers_lookup ring _ _ _ _ Hfs Ef) as [_ Ef']. rewrite <- Hh, Hq in Ef'. done.
    + apply lookup_ge_None in Ef. rewrite (length_build_fingers ring _ _ Hfs) in Ef. unfold ID_BITS in Ef. lia.
  - rewrite <- Hh, Hq. unfold succ0. upd. rewrite E3, Hq. done.
Qed.

(** ** Stabilisation leaves wired lists alone *)

Lemma find_self_unique m i : ring !! i = Some m → find_self m ring = i.
Proof using Hring.
  intros Hi. assert (Hnd : NoDup ring) by (apply (NoDup_fmap_1 peer_id), ring_ids_nodup, Hring).
  eapply NoDup_lookup; [exact Hnd| |exact Hi]. apply find_self_lookup. by eapply list_elem_of_lookup_2.
Qed.

(** The next member sees the same members, and us last. *)
Lemma rot_next m q l : m ∈ ring → rot (find_self m ring) = q :: l → rot (find_self q ring) = l ++ [m].
Proof using Hring.
  intros Hm. pose proof (find_self_lookup m Hm) as Hl. set (i := find_self m ring) in *.
  pose proof (lookup_lt_Some _ _ _ Hl) as Hlt. unfold rot at 1. intros E. destruct (decide (S i < length ring)) as [Hi|Hi].
  - destruct (lookup_lt_is_Some_2 ring (S i) Hi) as [q' Hq']. rewrite (drop_S _ _ _ Hq') in E. cbn in E. injection E as -> <-.
    rewrite (find_self_unique q (S i)) by done. unfold rot. rewrite <- app_assoc. f_equal. by apply take_S_r.
  - rewrite drop_ge in E by lia. cbn in E.
    assert (Hr : ring = q :: l ++ [m]).
    { rewrite <- (take_drop_middle ring i m Hl), E, drop_ge by lia. done. }
    assert (H0 : ring !! 0 = Some q) by (rewrite Hr; done).
    rewrite (find_self_unique q 0) by done. unfold rot. rewrite Hr. cbn. by rewrite drop_0, app_nil_r.
Qed.

Lemma merge_loop_wired m r l : ∀ out k,
  length out ≤ r → r ≤ length out + k → NoDup (out ++ l) → m ∉ l → (∀ p, p ∈ l → peer_id p ≠ peer_id m) →
  merge_loop m r out (take k (l ++ [m])) = take r (out ++ l).
Proof.
  clear Hring. induction l as [|p l IH]; intros out k Hlen Hk Hnd Hm Hids.
  - rewrite app_nil_r, (take_ge out r) by done. destruct k as [|k]; [by cbn|]. cbn [app]. rewrite firstn_cons.
    cbn [merge_loop]. destruct (r <=? length out); [done|]. by rewrite same_node_refl.
  - destruct k as [|k]; [rewrite (take_app_length' out) by lia; done|]. cbn [app]. rewrite firstn_cons. cbn [merge_loop].
    destruct (Nat.leb_spec r (length out)); [by rewrite (take_app_length' out) by lia|].
    rewrite elem_of_cons in Hm. rewrite (proj2 (same_node_false p m)) by naive_solver.
    destruct (Z.eqb_spec (peer_id p) (peer_id m)) as [E|_].
    { exfalso. apply (Hids p); [apply elem_of_cons; by left|done]. }
    destruct (existsb (same_node p) out) eqn:Ex.
    { exfalso. apply existsb_same_node in Ex. apply NoDup_app in Hnd as (_ & Hd & _). apply (Hd p Ex), elem_of_cons. by left. }
    rewrite IH; [by rewrite <- app_assoc|rewrite length_app; cbn; lia|rewrite length_app; cbn; lia|by rewrite <- app_assoc|naive_solver|].
    intros x Hx. apply Hids, elem_of_cons. by right.
Qed.

Lemma merge_wired m q l r : m ∈ ring → rot (find_self m ring) = q :: l → 1 ≤ r →
  merge_successors m q (match take r (rot (find_self q ring)) with [] => [q] | l => l end) r = take r (q :: l).
Proof using Hring.
  intros Hm E Hr. rewrite (rot_next m q l Hm E).
  pose proof (rot_nodup m Hm) as Hnd. rewrite E in Hnd.
  assert (Hin : ∀ p, p ∈ q :: l → p ∈ ring ∧ p ≠ m) by (intros p Hp; rewrite <- E in Hp; by apply rot_elem in Hp).
  assert (Et : match take r (l ++ [m]) with [] => [q] | l0 => l0 end = take r (l ++ [m])).
  { destruct r; [lia|]. by destruct l. }
  rewrite Et. unfold merge_successors. rewrite (merge_loop_wired m r l [q] r); cbn; try done; try lia.
  - intros Hml. by destruct (Hin m) as [_ ?]; [apply elem_of_cons; right|].
  - intros p Hp Eid. destruct (Hin p) as [Hpr Hne]; [apply elem_of_cons; by right|]. by apply (ring_inj ring) in Eid.
Qed.
End wired.

(** A member of a wired ring. *)
Definition wired_node (ring : list Peer) (r : nat) (m : Peer) : option NodeState := init_wired (new_node m r None) ring.

(** Every member of the ring answering through its request handler. *)
Definition wired_transport `{Inet} (ring : list Peer) (r : nat) : Transport unit :=
  λ to request σ,
    if bool_decide (to ∈ ring) then
      match wired_node ring r to with
      | Some s => ((Ok, (handle_request (λ _ _ σ, ((Closed, []), σ)) request (s, tt)).1.1), σ)
      | None => ((Refused, []), σ)
      end
    else ((Refused, []), σ).

Lemma wired_answers {IN : Inet} ring r : ring_ok ring → 1 ≤ r → answers_for ring (wired_transport ring r).
Proof.
  intros Hr Hr1 m k σ Hm Hk.
  destruct (init_wired_tables ring Hr (new_node m r None) Hm Hr1) as (s & fs & Ew & Hfs & E1 & E2 & E3 & E4 & E5 & E6).
  exists (render_step (route_step m (succ0 s) fs k)), σ. split.
  - unfold ring_answer. cbn [ns_self new_node] in *. rewrite E5. cbn [mbind option_bind]. by rewrite Hfs.
  - unfold wired_transport, wired_node. rewrite bool_decide_true, Ew by done. do 2 f_equal.
    rewrite request_find_successor by done. cbn [fst]. by rewrite E6, E1, E4.
Qed.

(** Handlers, tables and lookup together: among members wired from one valid
    membership list, each answering requests through [handle_request], a lookup from
    any member finds the true owner of any identifier within [MAX_REQUESTS] requests. *)
Theorem wired_ring_routes {IN : Inet} {IOk : InetOk IN} ring r start k σ :
  ring_ok ring → Forall peer_ok ring → 1 ≤ r → start ∈ ring → is_u64 k →
  ∃ res σ', lookup (wired_transport ring r) start k σ = (res, σ') ∧ error res = LNone ∧
    successor_of k ring = Some (found res) ∧ requests res ≤ MAX_REQUESTS.
Proof.
  intros Hr Hp Hr1 Hs Hk. destruct (predecessor_of_precedes ring k Hr Hk) as (p & _ & Hpre).
  destruct (lookup_loop_finds ring Hr Hp (wired_transport ring r) (wired_answers ring r Hr Hr1) 64 start k p [] σ Hs Hk Hpre)
    as (o & pth & σ' & E & Ho & Hl); [by apply wrap64_is_u64|].
  by exists (mkLookupResult LNone [] o pth 1), σ'.
Qed.

(** The wired successor lists are a fixed point of stabilisation: a member that asks
    its wired successor for its neighbours and merges the answer holds exactly the
    list it was wired with - no entry lost, repeated or reordered, and the list cut
    where it comes back round to the member itself. *)
Theorem wired_lists_stable ring r m s q sq :
  ring_ok ring → 1 ≤ r → m ∈ ring →
  wired_node ring r m = Some s → succ0 s = q → wired_node ring r q = Some sq →
  merge_successors m q (ns_succs sq) r = ns_succs s.
Proof.
  intros Hr Hr1 Hm Es Hq Esq. unfold wired_node in *.
  destruct (init_wired_tables ring Hr (new_node m r None) Hm Hr1) as (s' & fs & Ew & _ & _ & _ & E3 & _ & E5 & _).
  simplify_eq. assert (Hqr : succ0 s ∈ ring).
  { destruct (successor_of_owns ring _ Hr (finger_start_u64 (peer_id m) 0)) as (o & Eo & Ho & _).
    cbn [ns_self new_node] in E5. rewrite Eo in E5. by injection E5 as <-. }
  destruct (init_wired_tables ring Hr (new_node (succ0 s) r None) Hqr Hr1) as (s2 & fs2 & Ew2 & _ & _ & _ & E3' & _).
  simplify_eq. rewrite E3, E3', !wired_succs_rot by done. cbn [ns_self ns_r new_node].
  rewrite wired_succs_rot in E3 by done. cbn [ns_self ns_r new_node] in E3.
  destruct (rot ring (find_self m ring)) as [|q l] eqn:Erot.
  - apply rot_nil in Erot as Hone; [|done]. rewrite firstn_nil in E3 |- *.
    assert (E0 : succ0 s = m) by (unfold succ0; by rewrite E3). rewrite E0, Erot, firstn_nil. unfold merge_successors. cbn.
    destruct (r <=? 1); [done|]. by rewrite same_node_refl.
  - assert (E0 : succ0 s = q) by (unfold succ0; rewrite E3; by destruct r; [lia|]).
    rewrite E0, (merge_wired ring Hr m q l r Hm Erot Hr1). by destruct r; [lia|].
Qed.

(** ** Witnesses *)

Definition demo_a : Peer := mkPeer 10 "10.0.0.1" 9001.
Definition demo_b : Peer := mkPeer 5000000000 "10.0.0.2" 9002.
Definition demo_member : NodeState := default (new_node demo_a 2 None) (wired_node demo_ring 2 demo_a).

Definition demo_refuse : Transport (NodeState * unit) := λ _ _ σ, ((Refused, []), σ).

Lemma demo_member_ok : node_ok false demo_member.
Proof.
  split; [|by split; [constructor|]]. assert (Es : ns_succs demo_member = [demo_b; mkPeer 18446744073709551000 "10.0.0.3" 9003])
    by (vm_compute; reflexivity).
  assert (Ef : ns_fingers demo_member = default [] (build_fingers 10 demo_ring)) by (vm_compute; reflexivity).
  assert (Er : ns_r demo_member = 2) by (vm_compute; reflexivity).
  assert (Em : ns_self demo_member = demo_a) by (vm_compute; reflexivity).
  assert (Ec : ns_contacts demo_member = [mkPeer 18446744073709551000 "10.0.0.3" 9003; demo_b]) by (vm_compute; reflexivity).
  split; rewrite ?Es, ?Ef, ?Er, ?Em, ?Ec.
  - apply (bool_decide_unpack _). vm_compute. exact I.
  - lia.
  - discriminate.
  - cbn. lia.
  - apply (bool_decide_unpack _). vm_compute. exact I.
  - vm_compute. reflexivity.
  - vm_compute. reflexivity.
  - change (ns_next_finger demo_member) with 1. unfold ID_BITS. lia.
  - apply (bool_decide_unpack _). vm_compute. exact I.
  - intros _. apply (bool_decide_unpack _). vm_compute. exact I.
  - cbn. unfold MAX_CONTACTS. split_and!; [lia|apply (bool_decide_unpack _); vm_compute; exact I|by repeat constructor].
  - intros _ E. unfold succ0 in E. rewrite Es, Em in E. discriminate E.
Qed.
Lemma demo_member_inv : Inv false demo_a 2 (demo_member, tt).
Proof. split; [apply demo_member_ok|]. by split. Qed.

Lemma member_keeps_invariant_witness :
  Inv false demo_a 2 (maintenance_round demo_refuse (λ _, 0%Z) (demo_member, tt)) ∧
  ∀ line, let '(_, after, σ') := handle_request demo_refuse line (demo_member, tt) in
    Inv false demo_a 2 σ' ∧ Inv false demo_a 2 (run_after demo_refuse (λ _, 0%Z) after σ').
Proof.
  apply (member_keeps_invariant demo_refuse (λ _, 0%Z) false demo_a 2 (demo_member, tt)).
  - intros to req σ Hi. exact Hi.
  - apply demo_member_inv.
Defined.

Lemma never_claims_the_ring_witness :
  demo_b ≠ demo_a ∧ in_range_oc 4000000000 (peer_id demo_a) (peer_id demo_b) = true.
Proof.
  apply (never_claims_the_ring demo_refuse (demo_member, tt) demo_a 2 4000000000 true demo_b).
  - apply demo_member_inv.
  - by apply (bool_decide_unpack _).
  - vm_compute. reflexivity.
  - reflexivity.
Defined.

Lemma neighbours_reply_roundtrip_witness :
  parse_neighbours (handle_request demo_refuse (lit "NEIGHBOURS") (demo_member, tt)).1.1 =
  inr (mkNeighbours (if ns_has_pred (demo_member, tt).1 then Some (ns_pred (demo_member, tt).1) else None)
         (ns_succs (demo_member, tt).1)).
Proof.
  apply (neighbours_reply_roundtrip demo_refuse false (demo_member, tt) demo_a 2).
  - apply demo_member_inv.
  - unfold MAX_SUCCESSORS. lia.
  - vm_compute. reflexivity.
Defined.

Lemma failure_detector_witness :
  (∀ q, q ∈ tables (report_call demo_member demo_b (lit "PING") Refused [] false 0).1 → same_process q demo_b = false) ∧
  tables (report_call demo_member demo_b (lit "PING") Timeout [] false 0).1 = tables demo_member.
Proof.
  destruct (failure_detector false demo_member demo_b (lit "PING") [] 0 Timeout) as (Hrefused & Hfirst & _).
  - apply demo_member_ok.
  - vm_compute. reflexivity.
  - discriminate.
  - discriminate.
  - split; [exact Hrefused|]. apply Hfirst. vm_compute. reflexivity.
Defined.

Lemma fingers_filled_right_witness :
  ∃ k, 1 < k ≤ ID_BITS ∧ ns_next_finger (finger_found demo_member demo_b 1) = (if ID_BITS <=? k then 1 else k) ∧
    (∀ j, 1 ≤ j < k → ns_fingers (finger_found demo_member demo_b 1) !! j = ns_fingers demo_member !! j) ∧
    (∀ j, 1 ≤ j < 1 ∨ k ≤ j → ns_fingers (finger_found demo_member demo_b 1) !! j = ns_fingers demo_member !! j).
Proof.
  apply (fingers_filled_right false demo_ring demo_member 1 demo_b (ns_fingers demo_member)).
  - apply demo_ring_ok.
  - apply demo_member_ok.
  - apply (bool_decide_unpack _). vm_compute. exact I.
  - unfold ID_BITS. lia.
  - vm_compute. reflexivity.
  - vm_compute. reflexivity.
Defined.

Lemma wired_ring_routes_witness :
  ∃ res σ', lookup (wired_transport demo_ring 2) demo_a 4000000000 tt = (res, σ') ∧ error res = LNone ∧
    successor_of 4000000000 demo_ring = Some (found res) ∧ requests res ≤ MAX_REQUESTS.
Proof.
  apply (wired_ring_routes demo_ring 2 demo_a 4000000000 tt).
  - apply demo_ring_ok.
  - apply demo_ring_ok.
  - lia.
  - apply (bool_decide_unpack _). vm_compute. exact I.
  - by apply (bool_decide_unpack _).
Defined.

Lemma wired_lists_stable_witness :
  merge_successors demo_a demo_b (ns_succs (default demo_member (wired_node demo_ring 2 demo_b))) 2 = ns_succs demo_member.
Proof.
  apply (wired_lists_stable demo_ring 2 demo_a demo_member demo_b).
  - apply demo_ring_ok.
  - lia.
  - apply (bool_decide_unpack _). vm_compute. exact I.
  - vm_compute. reflexivity.
  - vm_compute. reflexivity.
  - vm_compute. reflexivity.
Defined.
