(* ===== verification/SimHops.v ===== *)
(** * SimHops: the hop-count experiment in one process (sim_hops.cpp)

    The lookup program with the ring in memory: only the transport differs, a
    function of the membership list instead of processes. The theorem is what the
    experiment rests on: every lookup is the one a ring of real processes gives,
    request for request. *)
From S2P Require Import Prelude Text Net Chord Sha1 Lookup Routing LookupMain Stabilize Ring.

(** One member answering FIND_SUCCESSOR; nobody at the address: refused. *)
Definition answer_member (members : list Peer) (to : Peer) (request : bytes) : Delivery * bytes :=
  match members !! lower_bound (peer_id to) members with
  | None => (Refused, [])
  | Some self =>
      if negb (peer_id self =? peer_id to)%Z || negb (bool_decide (peer_ip self = peer_ip to)) || negb (peer_port self =? peer_port to)%Z
      then (Refused, [])
      else if negb (starts_with (lit "FIND_SUCCESSOR ") request) then (Ok, lit "ERR unknown request")
      else match id_from_hex (drop 15 request) with
      | None => (Ok, lit "ERR unknown request")
      | Some k =>
          match build_fingers (peer_id self) members with
          | Some ((successor :: _) as fingers) =>
              let step := route_step self successor fingers k in
              (Ok, (if owner step then lit "OWNER " else lit "NEXT ") ++ id_to_hex (peer_id (step_peer step)) ++ lit " " ++
                   peer_ip (step_peer step) ++ lit " " ++ to_string (peer_port (step_peer step)))
          | _ => (Refused, [])
          end
      end
  end.

Definition in_process {St} (members : list Peer) : Transport St := λ to request σ, (answer_member members to request, σ).

Section program.
Context `{Sha1, Inet}.

Definition bad_workload (line_no : nat) : bytes :=
  lit "? ERROR bad-input requests 0 hops 0 path - : line " ++ int_text line_no ++ lit " is not " ++ [chr 34] ++ lit "<ip>:<port> <16-hex identifier>" ++ [chr 34].

(** A workload line: who starts, and the key; [None] for anything else. *)
Definition workload (line : bytes) : option (Peer * Id) :=
  match stream_words line with
  | [start_text; key_text] =>
      match parse_members start_text, id_from_hex key_text with
      | inr (start :: _), Some k => Some (start, k)
      | _, _ => None
      end
  | _ => None
  end.

(** The lines printed and whether any lookup failed; a blank line prints nothing. *)
Fixpoint sim_lines (members : list Peer) (line_no : nat) (input : list bytes) : list bytes * bool :=
  match input with
  | [] => ([], false)
  | line :: input =>
      let line_no := line_no + 1 in
      let '(out, failed) := sim_lines members line_no input in
      if bool_decide (stream_words line = []) then (out, failed)
      else match workload line with
      | None => (bad_workload line_no :: out, true)
      | Some (start, k) =>
          let r := (lookup (in_process members) start k tt).1 in
          (answer_line None k r :: out, negb (result_ok r) || failed)
      end
  end.

(** [file]: the membership file's content, if it opens. The exit status, what is
    printed, and what goes to standard error. *)
Definition sim_hops (args : list bytes) (file : option bytes) (input : bytes) : Z * list bytes * list bytes :=
  match args with
  | [path] =>
      match file with
      | None => (2%Z, [], [lit "sim-hops: cannot open " ++ path])
      | Some text =>
          match parse_members text with
          | inl err => (2%Z, [], [lit "sim-hops: " ++ err])
          | inr members =>
              let '(out, failed) := sim_lines members 0 (getlines NL input) in
              ((if (failed : bool) then 1 else 0)%Z, out, [])
          end
      end
  | _ => (2%Z, [], [])
  end.
End program.

(** ** The simulated ring answers as a ring does *)

Lemma lower_bound_found ring m : ring_ok ring → m ∈ ring → ring !! lower_bound (peer_id m) ring = Some m.
Proof.
  intros (_ & Hs & _) Hm. destruct (lower_bound_spec (peer_id m) ring Hs) as [Hlo Hhi].
  apply list_elem_of_lookup in Hm as [i Hi]. set (n := lower_bound (peer_id m) ring) in *. clearbody n. rewrite Forall_forall in Hlo, Hhi.
  destruct (Nat.lt_trichotomy i n) as [Hlt|[->|Hlt]]; [|done|].
  - assert (Hin : m ∈ take n ring) by (eapply list_elem_of_lookup_2; by rewrite lookup_take_lt by done). specialize (Hlo m Hin). lia.
  - destruct (lookup_lt_is_Some_2 ring n) as [x Hx]; [apply lookup_lt_Some in Hi; lia|].
    assert (Hin : x ∈ drop n ring) by (eapply (list_elem_of_lookup_2 _ 0); by rewrite lookup_drop, Nat.add_0_r). specialize (Hhi x Hin).
    pose proof (sorted_lookup_lt ring n i x m Hs Hx Hi Hlt). lia.
Qed.

Lemma in_process_answers {IN : Inet} {St} ring : ring_ok ring → answers_for ring (in_process (St := St) ring).
Proof.
  intros Hr m k σ Hm Hk. destruct (build_fingers_Some ring Hr (peer_id m)) as [fs Hfs].
  destruct (successor_of_owns ring _ Hr (finger_start_u64 (peer_id m) 0)) as (s & Hs & _).
  destruct fs as [|f0 fs]; [pose proof (length_build_fingers ring _ _ Hfs); done|].
  assert (E0 : f0 = s).
  { destruct (build_fingers_lookup ring (peer_id m) (f0 :: fs) 0 f0 Hfs eq_refl) as [_ E]. congruence. }
  subst f0. exists (render_step (route_step m s (s :: fs) k)), σ. split; [unfold ring_answer; by rewrite Hs, Hfs|].
  unfold in_process, answer_member. rewrite lower_bound_found by done. rewrite !Z.eqb_refl, bool_decide_true by done. cbn [negb orb].
  rewrite starts_with_app. cbn [negb]. change 15 with (length (lit "FIND_SUCCESSOR ")). rewrite drop_app_length, id_from_hex_to_hex by done.
  rewrite Hfs. unfold render_step, peer_words. done.
Qed.

Section replay.
Context {IN : Inet} {IOk : InetOk IN}.
Context (ring : list Peer) (Hring : ring_ok ring) (Hpeers : Forall peer_ok ring).

(** A correct member names members only. *)
Lemma route_step_in_ring n s fs k : n ∈ ring → s ∈ ring → build_fingers (peer_id n) ring = Some fs → step_peer (route_step n s fs k) ∈ ring.
Proof using Hring.
  intros Hn Hs Hfs. unfold route_step. destruct (in_range_oc k (peer_id n) (peer_id s)); [done|].
  destruct (_ && _); [done|]. cbn [step_peer]. unfold closest_preceding_finger.
  destruct (List.find _ (reverse fs)) as [f|] eqn:Ef; [|done]. apply find_some in Ef as [Hin _].
  apply list_elem_of_In in Hin. rewrite elem_of_reverse in Hin. apply list_elem_of_lookup in Hin as [i Hi].
  destruct (build_fingers_lookup ring _ _ _ _ Hfs Hi) as [_ E].
  destruct (successor_of_owns ring _ Hring (finger_start_u64 (peer_id n) i)) as (x & Ex & Hx & _). rewrite E in Ex. by injection Ex as ->.
Qed.

Lemma lookup_loops_agree {St1 St2} (tr1 : Transport St1) (tr2 : Transport St2) m n k pth σ1 σ2 :
  answers_for ring tr1 → answers_for ring tr2 → n ∈ ring → is_u64 k →
  (lookup_loop tr1 m k n pth σ1).1 = (lookup_loop tr2 m k n pth σ2).1.
Proof using Hring Hpeers IOk.
  intros H1 H2 Hn Hk. revert n pth σ1 σ2 Hn. induction m as [|m IH]; intros n pth σ1 σ2 Hn; cbn [lookup_loop]; [done|].
  destruct (H1 n k σ1 Hn Hk) as (reply & σ1' & Ea & E1). destruct (H2 n k σ2 Hn Hk) as (reply2 & σ2' & Ea2 & E2).
  rewrite Ea in Ea2. injection Ea2 as <-. rewrite E1, E2. cbn [negb]. destruct (negb _); [done|].
  destruct (successor_of_owns ring _ Hring (finger_start_u64 (peer_id n) 0)) as (s & Hs & Hsin & _).
  destruct (build_fingers_Some ring Hring (peer_id n)) as [fs Hfs].
  unfold ring_answer in Ea. rewrite Hs in Ea. cbn [mbind option_bind] in Ea. rewrite Hfs in Ea. injection Ea as <-.
  pose proof (route_step_in_ring n s fs k Hn Hsin Hfs) as Hin. set (step := route_step n s fs k) in *. clearbody step.
  destruct (render_step_parses step) as [He Hp]; [rewrite Forall_forall in Hpeers; by apply Hpeers|]. rewrite He, Hp.
  destruct (owner step); [by destruct (negb _)|]. destruct (negb _); [done|]. by apply IH.
Qed.

(** Replaying a ring in one process changes no result. Take a valid membership list and
    any ring of processes whose members answer from the tables of that list - the wired
    processes of node.cpp do - over any transport: for every workload line that names a
    member and an identifier, the line printed is the one the lookup program prints for that
    start and identifier, owner, path, requests and hops included. *)
Theorem simulation_replays_ring {SH : Sha1} {St} (tr : Transport St) line start k n input σ :
  answers_for ring tr → workload line = Some (start, k) → start ∈ ring →
  head (sim_lines ring n (line :: input)).1 = Some (answer_line None k (ask tr None start k σ).1).
Proof using Hring Hpeers IOk.
  intros Htr Hw Hs. cbn [sim_lines]. destruct (sim_lines ring (n + 1) input) as [out failed]. rewrite Hw.
  rewrite bool_decide_false by (unfold workload in Hw; intros E; by rewrite E in Hw). cbn [fst head]. do 2 f_equal.
  unfold ask, lookup. apply lookup_loops_agree; [by apply in_process_answers|done|done|].
  unfold workload in Hw. destruct (stream_words line) as [|? [|key [|? ?]]]; try done. destruct (parse_members _) as [|[|? ?]]; try done.
  destruct (id_from_hex key) eqn:E; [|done]. injection Hw as <- <-. by eapply id_from_hex_u64.
Qed.
End replay.

(** A digest that spreads addresses by their last characters, to evaluate on. *)
Definition mirror_sha1 : Sha1 := @sha1_of_raw (λ s, take 20 (reverse s ++ replicate 20 (chr 255))).

(** Three members: a lookup, a blank line, a line without an identifier. *)
Example simulated_run :
  @sim_hops mirror_sha1 quad_inet [lit "members"]
    (Some (lit "10.0.0.1:9001" ++ [NL] ++ lit "10.0.0.2:9002" ++ [NL] ++ lit "10.0.0.3:9003"))
    (lit "10.0.0.3:9003 3230303900000000" ++ [NL; NL] ++ lit "10.0.0.3:9003" ++ [NL]) =
    (1%Z, [lit "3230303900000000 OWNER 323030393a322e30 10.0.0.2:9002 requests 2 hops 1 path 10.0.0.3:9003,10.0.0.1:9001"; bad_workload 3], []).
Proof. vm_compute. reflexivity. Qed.
