(* ===== verification/Chunk.v ===== *)
(** * Chunk: storing, replicating and reading chunks (chunk.h, chunk.cpp)

    One process's answers to chunk requests, the coordinator of a replicated
    write, and the client side. A coordinator's copies run in parallel threads:
    the order in which they finish and the moment the coordinator looks at their
    tally are arguments. A [FrameTransport] is state passing, as a [Transport] is. *)
From S2P Require Import Prelude Text Net Chord Lookup OrdMap Store Stabilize.

Definition RF : nat := 3.
Definition DEFAULT_W : nat := 2.
Definition MAX_BODIES : nat := 32.
Definition MAX_HAVE_KEYS : nat := 20.
Definition DEFAULT_GC_GRACE_S : Z := 7200.

Definition Frame : Type := bytes * bytes.
Definition FrameTransport (St : Type) : Type := Peer → bytes → bytes → St → (Delivery * Frame) * St.

Definition BAD_CHUNK_KEY : bytes := "ERR key must be 40 lowercase hexadecimal characters".

(** ** Small parts *)

Definition is_chunk_request (line : bytes) : bool :=
  bool_decide (first_word line ∈ [lit "PUT"; lit "STORE"; lit "GET"; lit "HAVE"; lit "DIGEST"; lit "KEYS"; lit "DROP"]).

Definition parse_w (word : bytes) : option nat :=
  match word with
  | [c] => if (49 <=? code c)%N && (code c <=? 51)%N then Some (N.to_nat (code c - 48)) else None
  | _ => None
  end.

(** The differences of all bytes, or-ed together. *)
Definition same_secret (a b : bytes) : bool :=
  if negb (length a =? length b) then false
  else (foldl (λ diff '(x, y), N.lor diff (N.lxor (code x) (code y))) 0%N (zip a b) =? 0)%N.

Fixpoint distinct_loop (rf : nat) (out l : list Peer) : list Peer :=
  match l with
  | [] => out
  | p :: l => if rf <=? length out then out
              else distinct_loop rf (if existsb (same_process p) out then out else out ++ [p]) l
  end.
Definition distinct_processes (from_owner : list Peer) (rf : nat) : list Peer := distinct_loop rf [] from_owner.

Definition replica_set (member : NodeState) (rf : nat) : list Peer :=
  distinct_processes (ns_self member :: ns_succs member) rf.

(** [None]: no members, which the caller rules out. *)
Definition member_for (members : list NodeState) (k : Id) : option NodeState :=
  match members with
  | [] => None
  | m :: _ => Some (foldl (λ best m, if (wrap64 (peer_id (ns_self m) - k) <? wrap64 (peer_id (ns_self best) - k))%Z
                                      then m else best) m members)
  end.

Section chunk.
Context {SH : Sha1}.

Definition keys_digest (keys : list bytes) : bytes :=
  dec (N.of_nat (length keys)) ++ lit " " ++ chunk_key (concat ((λ k, k ++ [NL]) <$> keys)).

(** ** State of a process *)

Abbreviation Disk := (list (bytes * bytes)) (only parsing).

Record ChunkNode := mkChunkNode {
  cn_store : option ChunkStore;
  cn_disk : Disk;
  cn_members : list NodeState;
  cn_bodies : nat;
  cn_copies_short : N;
  cn_gc_key : bytes;
  cn_gc_grace : Z;                    (* milliseconds *)
  cn_dropped_chunks : N; cn_dropped_bytes : N; cn_kept_young : N;
  cn_log : option (list bytes);
}.
#[export] Instance ChunkNode_eta : Eta ChunkNode := λ n,
  mkChunkNode (cn_store n) (cn_disk n) (cn_members n) (cn_bodies n) (cn_copies_short n) (cn_gc_key n) (cn_gc_grace n)
    (cn_dropped_chunks n) (cn_dropped_bytes n) (cn_kept_young n) (cn_log n).

Definition hold_body (n : ChunkNode) : bool * ChunkNode :=
  if MAX_BODIES <=? cn_bodies n then (false, n) else (true, n <| cn_bodies := cn_bodies n + 1 |>).
(** The last copy of a [Hold] destroyed. *)
Definition release_body (n : ChunkNode) : ChunkNode := n <| cn_bodies := cn_bodies n - 1 |>.

(** What the operating system answers during one request. *)
Record Os := mkOs { os_now : Z; os_put : PutEnv; os_readable : bool; os_stats : bool; os_unlinks : bool }.

(** ** The coordinator *)

Record Tally := mkTally { t_confirmed : nat; t_failed : nat; t_failures : bytes }.

Definition add_failure (t : Tally) (why : bytes) : Tally :=
  mkTally (t_confirmed t) (t_failed t + 1) (t_failures t ++ (if bool_decide (t_failures t = []) then [] else lit "; ") ++ why).

(** One copy's answer, counted under the tally's lock. *)
Definition count_copy (t : Tally) (to : Peer) (d : Delivery) (line : bytes) : Tally :=
  if bool_decide (d = Ok) && bool_decide (line = lit "OK")
  then mkTally (t_confirmed t + 1) (t_failed t) (t_failures t)
  else add_failure t (address to ++ lit " " ++ (if bool_decide (d = Ok) then line else delivery_name d)).

Definition no_thread (t : Tally) (to : Peer) : Tally := add_failure t (address to ++ lit " no thread").

(** The copies in the order they touch the tally, with the tally after each. The
    flag: whether a thread could be started for the copy. *)
Fixpoint run_copies {St} (send : FrameTransport St) (line body : bytes) (events : list (Peer * bool)) (t : Tally) (σ : St)
    : list Tally * St :=
  match events with
  | [] => ([], σ)
  | (to, started) :: events =>
      let '(t, σ) := if started
                     then let '((d, answer), σ) := send to line body σ in (count_copy t to d answer.1, σ)
                     else (no_thread t to, σ) in
      let '(ts, σ) := run_copies send line body events t σ in (t :: ts, σ)
  end.

(** The condition the coordinator waits for. *)
Definition decided (total w : nat) (t : Tally) : bool :=
  let pending := total - t_confirmed t - t_failed t in
  (w <=? t_confirmed t) || (t_confirmed t + pending <? w).

(** The tally the coordinator reads: at the first moment the condition holds, or
    any of [late] finishes afterwards. *)
Fixpoint wait_tally (total w late : nat) (t : Tally) (later : list Tally) : option Tally :=
  if decided total w t then Some (default t (last (take late later)))
  else match later with
       | [] => None
       | t :: later => wait_tally total w late t later
       end.

Definition write_reply (t : Tally) (w : nat) : bytes :=
  take MAX_LINE
    (if w <=? t_confirmed t then lit "OK " ++ dec (N.of_nat (t_confirmed t))
     else lit "ERR only " ++ dec (N.of_nat (t_confirmed t)) ++ lit " of " ++ dec (N.of_nat w) ++
          lit " copies stored: " ++ t_failures t).

(** How the copies of one write were scheduled: the order in which they touched
    the tally, how many had when the coordinator began to wait (every thread had
    been started or refused by then), and how late it looks. *)
Record Schedule := mkSchedule { sc_events : list (Peer * bool); sc_began : nat; sc_late : nat }.

Definition schedule_ok (set : list Peer) (sch : Schedule) : Prop :=
  (sc_events sch).*1 ≡ₚ drop 1 set ∧ sc_began sch ≤ length (sc_events sch) ∧
  Forall (λ e, e.2 = true) (drop (sc_began sch) (sc_events sch)).

Definition first_tally (local_ok : bool) : Tally :=
  if local_ok then mkTally 1 0 [] else mkTally 0 1 (lit "local disk error").

(** The part after the local copy: the tally read, the final tally. [None]: the
    wait never ends. *)
Definition replicate_copies {St} (send : FrameTransport St) (key body : bytes) (w : nat) (set : list Peer) (local_ok : bool)
    (sch : Schedule) (σ : St) : option (Tally * Tally) * St :=
  let t0 := first_tally local_ok in
  let line := lit "STORE " ++ key ++ lit " " ++ dec (N.of_nat (length body)) in
  let '(ts, σ) := run_copies send line body (sc_events sch) t0 σ in
  (match drop (sc_began sch) (t0 :: ts) with
   | [] => None
   | t :: later => (λ t, (t, default t0 (last ts))) <$> wait_tally (length set) w (sc_late sch) t later
   end, σ).

(** What [after] does once the reply has gone: [acked] and [last] are the times it logs. *)
Definition after_put (n : ChunkNode) (key : bytes) (total : nat) (t : Tally) (acked last : Z) : ChunkNode :=
  let n := if t_confirmed t <? RF then n <| cn_copies_short := bump (cn_copies_short n) |> else n in
  match cn_log n with
  | None => n
  | Some l =>
      n <| cn_log := Some (l ++ [lit "put " ++ key ++ lit ": " ++ dec (N.of_nat (t_confirmed t)) ++ lit " of " ++
             dec (N.of_nat total) ++ lit " copies, answered after " ++ to_string acked ++ lit " ms, last copy after " ++
             to_string last ++ lit " ms" ++
             (if t_failed t =? 0 then [] else lit ", " ++ dec (N.of_nat (t_failed t)) ++ lit " failed")]) |>
  end.

Definition put_refused (r : PutResult) : bool :=
  match r with PutBadKey | TooLarge | HashMismatch => true | _ => false end.
Definition put_held (r : PutResult) : bool := match r with Stored | AlreadyHeld => true | _ => false end.

(** The reply, and the final tally with the size of the replica set if copies were made. *)
Definition coordinate {St} (n : ChunkNode) (s : ChunkStore) (send : FrameTransport St) (key : bytes) (w : nat) (body : bytes)
    (os : Os) (sch : Schedule) (σ : St) : bytes * option (nat * Tally) * ChunkNode * St :=
  let '(local, s, d) := store_put s (cn_disk n) key body (os_put os) (os_now os) in
  let n := n <| cn_store := Some s |> <| cn_disk := d |> in
  if put_refused local then (lit "ERR " ++ put_result_name local, None, n, σ)
  else
    let set := match member_for (cn_members n) (default 0%Z (id_from_key key)) with
               | Some m => replica_set m RF | None => [] end in
    let '(ts, σ) := replicate_copies send key body w set (put_held local) sch σ in
    match ts with
    | Some (t, final) => (write_reply t w, Some (length set, final), n, σ)
    | None => ([], None, n, σ)              (* the wait never ends: ruled out below *)
    end.

(** ** Requests without a coordinator *)

Definition simple_reply (n : ChunkNode) (line : bytes) : bytes * bytes * bool * ChunkNode := (line, [], false, n).

Definition handle_store (n : ChunkNode) (s : ChunkStore) (key body : bytes) (os : Os) : bytes * bytes * bool * ChunkNode :=
  let '(r, s, d) := store_put s (cn_disk n) key body (os_put os) (os_now os) in
  simple_reply (n <| cn_store := Some s |> <| cn_disk := d |>)
    (if put_held r then lit "OK" else lit "ERR " ++ put_result_name r).

(** The flag: whether the slot is still held when the handler returns. *)
Definition handle_get (n : ChunkNode) (s : ChunkStore) (key : bytes) (os : Os) : bytes * bytes * bool * ChunkNode :=
  let '(held, n') := hold_body n in
  if negb held then simple_reply n (lit "ERR busy")
  else match store_get s (cn_disk n) key (os_readable os) with
       | Found b => (lit "CHUNK " ++ dec (N.of_nat (length b)), b, true, n')
       | GetMissing => simple_reply n (lit "MISSING")
       | GetBadKey => simple_reply n BAD_CHUNK_KEY
       | GetIoError => simple_reply n (lit "ERR disk error")
       end.

Definition handle_have (s : ChunkStore) (keys : list bytes) : bytes :=
  if negb (forallb valid_key keys) then BAD_CHUNK_KEY
  else lit "HAVE " ++ ((λ k, if store_has s k then chr 49 else chr 48) <$> keys).

Definition handle_digest (s : ChunkStore) (from to : bytes) : bytes :=
  match id_from_hex from, id_from_hex to with
  | Some f, Some t => lit "DIGEST " ++ keys_digest (store_keys_in_arc s f t)
  | _, _ => lit "ERR malformed DIGEST"
  end.

Definition keys_line (page : list bytes) (grace : Z) : bytes :=
  lit "KEYS " ++ dec (N.of_nat (length page)) ++ lit " " ++ to_string (grace ÷ 1000) ++
  concat ((λ k, lit " " ++ k) <$> page).

Definition handle_keys (n : ChunkNode) (s : ChunkStore) (after : bytes) (os : Os) : bytes * bytes * bool * ChunkNode :=
  let start := bool_decide (after = lit "-") in
  if negb start && negb (valid_key after) then simple_reply n BAD_CHUNK_KEY
  else
    let s := if start then store_forget_old s (cn_gc_grace n) (os_now os) else s in
    let page := store_keys_after s (if start then [] else after) MAX_HAVE_KEYS in
    simple_reply (n <| cn_store := Some s |>) (keys_line page (cn_gc_grace n)).

(** One key of a DROP: the bit and the bytes freed so far. *)
Definition drop_one (os : Os) (acc : bytes * N * ChunkNode * ChunkStore) (key : bytes) : bytes * N * ChunkNode * ChunkStore :=
  let '(bits, freed, n, s) := acc in
  let '(r, s, d) := store_drop s (cn_disk n) key (cn_gc_grace n) (os_now os) (os_stats os) (os_unlinks os) in
  let n := n <| cn_disk := d |> in
  match r with
  | Dropped b =>
      (bits ++ [chr 49], wrap64N (freed + b),
       n <| cn_dropped_chunks := bump (cn_dropped_chunks n) |> <| cn_dropped_bytes := wrap64N (cn_dropped_bytes n + b) |>, s)
  | TooYoung => (bits ++ [chr 48], freed, n <| cn_kept_young := bump (cn_kept_young n) |>, s)
  | _ => (bits ++ [chr 48], freed, n, s)
  end.

Definition handle_drop (n : ChunkNode) (s : ChunkStore) (secret : bytes) (keys : list bytes) (os : Os)
    : bytes * bytes * bool * ChunkNode :=
  if bool_decide (cn_gc_key n = []) then simple_reply n (lit "ERR deletion is not enabled on this node")
  else if negb (same_secret secret (cn_gc_key n)) then simple_reply n (lit "ERR wrong collection key")
  else if negb (forallb valid_key keys) then simple_reply n BAD_CHUNK_KEY
  else
    let '(bits, freed, n, s) := foldl (drop_one os) ([], 0%N, n, s) keys in
    simple_reply (n <| cn_store := Some s |>) (lit "DROPPED " ++ bits ++ lit " " ++ dec freed).

(** ** One chunk request *)

Record ChunkHandled := mkChunkHandled {
  h_reply : bytes; h_body : bytes; h_hold : bool; h_after : option (bytes * nat * Tally) }.

Definition plain (x : bytes * bytes * bool * ChunkNode) : ChunkHandled * ChunkNode :=
  let '(reply, body, hold, n) := x in (mkChunkHandled reply body hold None, n).

Definition handle_chunk_request {St} (n : ChunkNode) (send : FrameTransport St) (line body : bytes) (os : Os) (sch : Schedule)
    (σ : St) : ChunkHandled * ChunkNode * St :=
  let simple line := plain (simple_reply n line) in
  match split_single_spaces line with
  | [] | [] :: _ => (simple (lit "ERR empty request"), σ)
  | verb :: args =>
      match cn_store n with
      | None => (simple (lit "ERR this node keeps no chunks"), σ)
      | Some s =>
          let count := length args in
          if bool_decide (verb = lit "PUT") && (count =? 3) then
            let key := default [] (args !! 0) in
            if negb (valid_key key) then (simple BAD_CHUNK_KEY, σ)
            else match parse_w (default [] (args !! 1)) with
                 | None => (simple (lit "ERR w must be 1, 2 or 3"), σ)
                 | Some w =>
                     let '(reply, fin, n, σ) := coordinate n s send key w body os sch σ in
                     (mkChunkHandled reply [] false ((λ x, (key, x.1, x.2)) <$> fin), n, σ)
                 end
          else if bool_decide (verb = lit "STORE") && (count =? 2) then (plain (handle_store n s (default [] (args !! 0)) body os), σ)
          else if bool_decide (verb = lit "GET") && (count =? 1) then (plain (handle_get n s (default [] (args !! 0)) os), σ)
          else if bool_decide (verb = lit "HAVE") && (1 <=? count) && (count <=? MAX_HAVE_KEYS) then (simple (handle_have s args), σ)
          else if bool_decide (verb = lit "DIGEST") && (count =? 2) then
            (simple (handle_digest s (default [] (args !! 0)) (default [] (args !! 1))), σ)
          else if bool_decide (verb = lit "KEYS") && (count =? 1) then (plain (handle_keys n s (default [] (args !! 0)) os), σ)
          else if bool_decide (verb = lit "DROP") && (2 <=? count) && (count <=? 1 + MAX_HAVE_KEYS) then
            (plain (handle_drop n s (default [] (head args)) (drop 1 args) os), σ)
          else (simple (lit "ERR malformed chunk request"), σ)
      end
  end.

(** ** The client side *)

Record PutOutcome := mkPutOutcome {
  po_ok : bool; po_copies : Z; po_message : bytes; po_coordinator : Peer; po_attempts : nat; po_key : bytes }.
#[export] Instance PutOutcome_eta : Eta PutOutcome := λ o,
  mkPutOutcome (po_ok o) (po_copies o) (po_message o) (po_coordinator o) (po_attempts o) (po_key o).

Record GetOutcome := mkGetOutcome {
  go_ok : bool; go_body : bytes; go_message : bytes; go_served_by : Peer; go_tried : list bytes }.
#[export] Instance GetOutcome_eta : Eta GetOutcome := λ o,
  mkGetOutcome (go_ok o) (go_body o) (go_message o) (go_served_by o) (go_tried o).

Definition unreachable (d : Delivery) : bool :=
  bool_decide (d = Refused) || bool_decide (d = Timeout) || bool_decide (d = Closed).

(** [std::atoi]: the value of the leading digits after space and sign. *)
Fixpoint atoi_digits (acc : Z) (s : bytes) : Z :=
  match s with
  | c :: s => match digit_val c with Some d => atoi_digits (10 * acc + Z.of_N d) s | None => acc end
  | [] => acc
  end.
Definition atoi (s : bytes) : Z :=
  match drop_spaces s with
  | c :: s => if bool_decide (c = chr 45) then - atoi_digits 0 s
              else if bool_decide (c = chr 43) then atoi_digits 0 s else atoi_digits 0 (c :: s)
  | [] => 0
  end.

(** Separate entries of a list in a message. *)
Definition append_note (message note : bytes) : bytes :=
  message ++ (if bool_decide (message = []) then [] else lit "; ") ++ note.

Context `{Inet} {St : Type} (route : Transport St) (send : FrameTransport St).

(** From the owner on, in the namer's list; all of it if the owner is not there. *)
Fixpoint from_owner (owner : Peer) (succs : list Peer) : option (list Peer) :=
  match succs with
  | [] => None
  | p :: l => if same_node p owner then Some (p :: l) else from_owner owner l
  end.

Definition fallbacks (r : LookupResult) (owner_unreachable : bool) (σ : St) : list Peer * St :=
  let namer := default no_peer (last (path r)) in
  let σ := if owner_unreachable
           then (route namer (lit "SUSPECT " ++ peer_ip (found r) ++ lit " " ++ to_string (peer_port (found r))) σ).2
           else σ in
  let '((d, line), σ) := route namer (lit "NEIGHBOURS") σ in
  if negb (bool_decide (d = Ok)) then ([], σ)
  else match parse_neighbours line with
       | inl _ => ([], σ)
       | inr nb =>
           let l := default (nb_succs nb) (from_owner (found r) (nb_succs nb)) in
           (filter (λ p, same_process p (found r) = false) (distinct_processes l RF), σ)
       end.

Definition lookup_failure (r : LookupResult) : bytes :=
  lit "lookup failed (" ++ lookup_error_name (error r) ++ lit "): " ++ message r.

(** One candidate: the outcome so far, whether it is final, and how the call went. *)
Definition try_put (line body : bytes) (to : Peer) (out : PutOutcome) (σ : St) : PutOutcome * bool * Delivery * St :=
  let '((d, answer), σ) := send to line body σ in
  let out := out <| po_attempts := po_attempts out + 1 |> <| po_coordinator := to |> in
  if bool_decide (d = Ok) && starts_with (lit "OK ") answer.1
  then (out <| po_ok := true |> <| po_copies := atoi (c_str (drop 3 answer.1)) |> <| po_message := [] |>, true, d, σ)
  else
    let out := out <| po_message := append_note (po_message out)
                 (address to ++ lit ": " ++ (if bool_decide (d = Ok) then answer.1 else delivery_name d)) |> in
    (out, bool_decide (d = Ok) && negb (bool_decide (answer.1 = lit "ERR busy")), d, σ).

Fixpoint put_rest (line body : bytes) (candidates : list Peer) (out : PutOutcome) (σ : St) : PutOutcome * St :=
  match candidates with
  | [] => (out, σ)
  | to :: candidates =>
      let '(out, final, _, σ) := try_put line body to out σ in
      if final then (out, σ) else put_rest line body candidates out σ
  end.

(** The owner, then - asked for once, when the owner has failed - the rest of the
    replica set. *)
Definition put_chunk (start : Peer) (body : bytes) (w : nat) (retries : nat) (σ : St) : PutOutcome * St :=
  let key := chunk_key body in
  let out := mkPutOutcome false 0 [] no_peer 0 key in
  let '(r, σ) := lookup_with_recovery route start (default 0%Z (id_from_key key)) retries σ in
  if negb (result_ok r) then (out <| po_message := lookup_failure r |>, σ)
  else
    let line := lit "PUT " ++ key ++ lit " " ++ dec (N.of_nat w) ++ lit " " ++ dec (N.of_nat (length body)) in
    let '(out, final, d, σ) := try_put line body (found r) out σ in
    if final then (out, σ)
    else let '(more, σ) := fallbacks r (unreachable d) σ in put_rest line body more out σ.

Definition try_get (key : bytes) (from : Peer) (out : GetOutcome) (σ : St) : GetOutcome * bool * Delivery * St :=
  let '((d, answer), σ) := send from (lit "GET " ++ key) [] σ in
  let failed what := (out <| go_tried := go_tried out ++ [address from ++ lit ": " ++ what] |>, false, d, σ) in
  if negb (bool_decide (d = Ok)) then failed (delivery_name d)
  else if negb (starts_with (lit "CHUNK ") answer.1) then failed answer.1
  else if negb (bool_decide (chunk_key answer.2 = key)) then failed (lit "bytes do not hash to the key")
  else (out <| go_ok := true |> <| go_body := answer.2 |> <| go_served_by := from |>
            <| go_tried := go_tried out ++ [address from ++ lit ": ok"] |>, true, d, σ).

Fixpoint get_rest (key : bytes) (candidates : list Peer) (out : GetOutcome) (σ : St) : GetOutcome * St :=
  match candidates with
  | [] => (out <| go_message := foldl append_note (go_message out) (go_tried out) |>, σ)
  | from :: candidates =>
      let '(out, final, _, σ) := try_get key from out σ in
      if final then (out, σ) else get_rest key candidates out σ
  end.

Definition get_chunk (start : Peer) (key : bytes) (retries : nat) (σ : St) : GetOutcome * St :=
  let out := mkGetOutcome false [] [] no_peer [] in
  let bad := (out <| go_message := lit "key must be 40 lowercase hexadecimal characters" |>, σ) in
  if negb (valid_key key) then bad
  else match id_from_key key with
  | None => bad
  | Some k =>
      let '(r, σ) := lookup_with_recovery route start k retries σ in
      if negb (result_ok r) then (out <| go_message := lookup_failure r |>, σ)
      else
        let '(out, final, d, σ) := try_get key (found r) out σ in
        if final then (out, σ)
        else let '(more, σ) := fallbacks r (unreachable d) σ in get_rest key more out σ
  end.
End chunk.
