(* ===== verification/Replication.v ===== *)
(** * Replication: the promises of the chunk plane

    The claims about chunk.cpp: what an acknowledged write means, who the
    replicas are, that a reader is never given wrong bytes, and that nothing but
    an authorised DROP destroys a chunk. *)
From S2P Require Import Prelude Text Net Chord Lookup Routing OrdMap Store Stabilize StabilizeInv Ring Chunk.

(** ** Secrets *)

Lemma lor_zero a b : N.lor a b = 0%N ↔ a = 0%N ∧ b = 0%N.
Proof. apply N.lor_eq_0_iff. Qed.

Lemma diff_zero l d :
  foldl (λ diff '(x, y), N.lor diff (N.lxor (code x) (code y))) d l = 0%N ↔ d = 0%N ∧ Forall (λ '(x, y), x = y) l.
Proof.
  revert d. induction l as [|[x y] l IH]; intros d; cbn [foldl]; [by split; [done|intros [? _]]|].
  rewrite IH, lor_zero, N.lxor_eq_0_iff, Forall_cons. split.
  - intros [[-> E] Hl]. split; [done|]. split; [by apply code_inj|done].
  - intros [-> [-> Hl]]. done.
Qed.

Lemma zip_eq (a b : bytes) : length a = length b → Forall (λ '(x, y), x = y) (zip a b) → a = b.
Proof.
  revert b. induction a as [|x a IH]; intros [|y b]; try done. cbn. intros [= El] H. apply Forall_cons in H as [-> H].
  f_equal. by apply IH.
Qed.

Lemma same_secret_eq a b : same_secret a b = true ↔ a = b.
Proof.
  unfold same_secret. destruct (Nat.eqb_spec (length a) (length b)) as [El|El]; cbn [negb].
  - rewrite N.eqb_eq, diff_zero. split; [intros [_ H]; by apply zip_eq|]. intros ->. split; [done|].
    clear. induction b; [constructor|]. cbn. constructor; done.
  - split; [done|]. by intros ->.
Qed.

(** ** Replica sets *)

(** No two of one process. *)
Definition apart (l : list Peer) : Prop := ∀ i j p q, l !! i = Some p → l !! j = Some q → same_process p q = true → i = j.

Lemma same_process_sym p q : same_process p q = same_process q p.
Proof. apply eq_true_iff_eq. rewrite !same_process_true. split; intros [? ?]; done. Qed.

Lemma existsb_process p l : existsb (same_process p) l = true ↔ ∃ q, q ∈ l ∧ same_process p q = true.
Proof. rewrite existsb_exists. setoid_rewrite list_elem_of_In. done. Qed.

Lemma apart_snoc l p : apart l → existsb (same_process p) l = false → apart (l ++ [p]).
Proof.
  intros Ha Hp i j x y Hi Hj E.
  assert (Hn : ∀ q, q ∈ l → same_process p q = false).
  { intros q Hq. apply not_true_is_false. intros E'. apply not_true_iff_false in Hp. apply Hp, existsb_process. by exists q. }
  apply lookup_app_Some in Hi as [Hi|[Hi1 Hi]], Hj as [Hj|[Hj1 Hj]].
  - by eapply Ha.
  - apply list_elem_of_lookup_2 in Hi. apply list_lookup_singleton_Some in Hj as [_ <-].
    rewrite same_process_sym, Hn in E; done.
  - apply list_elem_of_lookup_2 in Hj. apply list_lookup_singleton_Some in Hi as [_ <-]. rewrite Hn in E; done.
  - apply list_lookup_singleton_Some in Hi as [Hi _], Hj as [Hj _]. lia.
Qed.

Lemma distinct_loop_spec rf out l :
  apart out → length out ≤ rf →
  let m := distinct_loop rf out l in
  apart m ∧ length m ≤ rf ∧ (∃ more, m = out ++ more) ∧ (∀ p, p ∈ m → p ∈ out ∨ p ∈ l) ∧
  (length m < rf → ∀ p, p ∈ l → ∃ q, q ∈ m ∧ same_process p q = true).
Proof.
  revert out. induction l as [|p l IH]; intros out Ha Hl; cbn [distinct_loop].
  { cbv zeta. split_and!; try done; [by exists []; rewrite app_nil_r|by left|]. intros _ p Hp. by apply elem_of_nil in Hp. }
  destruct (Nat.leb_spec rf (length out)).
  { cbv zeta. split_and!; try done; [by exists []; rewrite app_nil_r|by left|]. lia. }
  set (out' := if existsb (same_process p) out then out else out ++ [p]).
  assert (H' : apart out' ∧ length out' ≤ rf ∧ (∃ more, out' = out ++ more) ∧ (∀ q, q ∈ out' → q ∈ out ∨ q = p) ∧
    ∃ q, q ∈ out' ∧ same_process p q = true).
  { subst out'. destruct (existsb (same_process p) out) eqn:E.
    - split_and!; try done; [by exists []; rewrite app_nil_r|by left|by apply existsb_process].
    - split_and!; [by apply apart_snoc|rewrite length_app; cbn; lia|by eexists|..].
      + intros q. rewrite elem_of_app, list_elem_of_singleton. tauto.
      + exists p. split; [apply elem_of_app; right; by apply list_elem_of_singleton|by apply same_process_true]. }
  clearbody out'. destruct H' as (Ha' & Hl' & [m1 E1] & Hin & Hp). destruct (IH out' Ha' Hl') as (I1 & I2 & [m2 I3] & I4 & I5).
  cbv zeta in *. split_and!; [done|done|exists (m1 ++ m2); by rewrite I3, E1, app_assoc|..].
  - intros q [Hq|Hq]%I4; [|right; apply elem_of_cons; by right]. apply Hin in Hq as [Hq| ->]; [by left|].
    right. apply elem_of_cons. by left.
  - intros Hlt q [->|Hq]%elem_of_cons; [|by apply I5]. destruct Hp as (x & Hx & Ex). exists x. split; [|done].
    rewrite I3. apply elem_of_app. by left.
Qed.

Lemma replica_set_spec m rf : 1 ≤ rf →
  let set := replica_set m rf in
  apart set ∧ length set ≤ rf ∧ head set = Some (ns_self m) ∧ (∀ p, p ∈ set → p = ns_self m ∨ p ∈ ns_succs m) ∧
  (length set < rf → ∀ p, p ∈ ns_succs m → ∃ q, q ∈ set ∧ same_process p q = true).
Proof.
  intros Hrf. assert (E : replica_set m rf = distinct_loop rf [ns_self m] (ns_succs m)) by (by destruct rf; [lia|]).
  cbv zeta. rewrite E.
  destruct (distinct_loop_spec rf [ns_self m] (ns_succs m)) as (I1 & I2 & [more I3] & I4 & I5).
  - intros i j p q Hi Hj _. apply list_lookup_singleton_Some in Hi as [-> _], Hj as [-> _]. done.
  - cbn. lia.
  - cbv zeta in *. split_and!; try done; [by rewrite I3|]. intros p [->%list_elem_of_singleton|Hp]%I4; [by left|by right].
Qed.

(** ** The write quorum *)
Section quorum.
Context {St : Type} (send : FrameTransport St) (line body : bytes).
(** [stored p σ]: the process of [p] holds the chunk. *)
Context (stored : Peer → St → Prop).

(** What the coordinator relies on: an [OK] to STORE means stored, and a call
    loses nobody's copy. *)
Definition store_means_stored : Prop := ∀ to σ d answer σ', send to line body σ = ((d, answer), σ') →
  (d = Ok → answer.1 = lit "OK" → stored to σ') ∧ ∀ q, stored q σ → stored q σ'.
Context (Hsend : store_means_stored).

Lemma run_copies_keep events t σ q : stored q σ → stored q (run_copies send line body events t σ).2.
Proof using Hsend.
  revert t σ. induction events as [|[to []] events IH]; intros t σ Hq; cbn [run_copies]; [done|..].
  - destruct (send to line body σ) as [[d a] σ1] eqn:E. destruct (Hsend _ _ _ _ _ E) as [_ Hk].
    specialize (IH (count_copy t to d a.1) σ1 (Hk q Hq)). by destruct (run_copies send line body events _ σ1).
  - specialize (IH (no_thread t to) σ Hq). by destruct (run_copies send line body events _ σ).
Qed.

(** One step of the tally: one more copy confirmed, or one more failed. *)
Definition tally_step (t t' : Tally) : Prop :=
  (t_confirmed t' = t_confirmed t + 1 ∧ t_failed t' = t_failed t) ∨
  (t_confirmed t' = t_confirmed t ∧ t_failed t' = t_failed t + 1).

Lemma count_copy_step t to d a : tally_step t (count_copy t to d a).
Proof. unfold count_copy. destruct (_ && _); [by left|by right]. Qed.

(** A run of tallies, each one step on from the one before. *)
Fixpoint tallies (t : Tally) (ts : list Tally) : Prop :=
  match ts with [] => True | t' :: ts => tally_step t t' ∧ tallies t' ts end.

Lemma run_copies_tallies events t σ :
  tallies t (run_copies send line body events t σ).1 ∧ length (run_copies send line body events t σ).1 = length events.
Proof.
  revert t σ. induction events as [|[to []] events IH]; intros t σ; cbn [run_copies]; [done|..].
  - destruct (send to line body σ) as [[d a] σ1]. specialize (IH (count_copy t to d a.1) σ1).
    destruct (run_copies send line body events _ σ1) as [ts σ2]. cbn in *. destruct IH as [H1 H2].
    split; [split; [apply count_copy_step|done]|lia].
  - specialize (IH (no_thread t to) σ). destruct (run_copies send line body events _ σ) as [ts σ2]. cbn in *.
    destruct IH as [H1 H2]. split; [split; [by right|done]|lia].
Qed.

Definition final_tally (t : Tally) (ts : list Tally) : Tally := default t (last ts).

Lemma final_tally_cons t t' ts : final_tally t (t' :: ts) = final_tally t' ts.
Proof. unfold final_tally. rewrite last_cons. by destruct (last ts). Qed.

(** The copies confirmed at the end are held by as many different peers. *)
Lemma run_copies_stored events t σ :
  ∃ l, sublist l events.*1 ∧
    t_confirmed (final_tally t (run_copies send line body events t σ).1) = t_confirmed t + length l ∧
    Forall (λ p, stored p (run_copies send line body events t σ).2) l.
Proof using Hsend.
  revert t σ. induction events as [|[to []] events IH]; intros t σ; cbn [run_copies].
  - exists []. split_and!; [done|cbn; lia|done].
  - destruct (send to line body σ) as [[d a] σ1] eqn:E. destruct (Hsend _ _ _ _ _ E) as [Hok _].
    destruct (IH (count_copy t to d a.1) σ1) as (l & Hl & Hc & Hs).
    pose proof (run_copies_keep events (count_copy t to d a.1) σ1 to) as Hkeep.
    destruct (run_copies send line body events _ σ1) as [ts σ2]. cbn [fst snd] in *. rewrite final_tally_cons.
    unfold count_copy in *. destruct (_ && _) eqn:Ea.
    + apply andb_true_iff in Ea as [Ed%bool_decide_eq_true El%bool_decide_eq_true].
      exists (to :: l). split_and!; [by apply sublist_skip|cbn in *; lia|]. constructor; [by auto|done].
    + exists l. split_and!; [by apply sublist_cons|cbn in *; lia|done].
  - destruct (IH (no_thread t to) σ) as (l & Hl & Hc & Hs).
    destruct (run_copies send line body events _ σ) as [ts σ2]. cbn [fst snd] in *. rewrite final_tally_cons.
    exists l. split_and!; [by apply sublist_cons|cbn in *; lia|done].
Qed.

Lemma tallies_final t ts : tallies t ts →
  t_confirmed (final_tally t ts) + t_failed (final_tally t ts) = t_confirmed t + t_failed t + length ts ∧
  t_confirmed t ≤ t_confirmed (final_tally t ts) ≤ t_confirmed t + length ts.
Proof.
  revert t. induction ts as [|t' ts IH]; intros t; [cbn; lia|]. rewrite final_tally_cons. intros [Hs Ht].
  specialize (IH t' Ht). unfold tally_step in Hs. cbn [length]. lia.
Qed.

Lemma tallies_app t ts ts' : tallies t (ts ++ ts') ↔ tallies t ts ∧ tallies (final_tally t ts) ts'.
Proof.
  revert t. induction ts as [|x ts IH]; intros t; cbn [app tallies]; [cbn; tauto|]. rewrite IH, final_tally_cons. tauto.
Qed.

Lemma final_tally_app t ts ts' : final_tally t (ts ++ ts') = final_tally (final_tally t ts) ts'.
Proof.
  revert t. induction ts as [|x ts IH]; intros t; [done|]. cbn [app]. by rewrite !final_tally_cons, IH.
Qed.

(** A tally taken before the end: what it has and what is still to come. *)
Definition at_point (total : nat) (t : Tally) (later : list Tally) : Prop :=
  tallies t later ∧ t_confirmed t + t_failed t + length later = total.

Lemma decided_stays total w t a b : at_point total t (a ++ b) → decided total w t = true →
  decided total w (final_tally t a) = true.
Proof.
  intros [Ht Htot] Hd. apply tallies_app in Ht as [Ha Hb]. pose proof (tallies_final t a Ha) as Hf. rewrite length_app in Htot.
  unfold decided in *. apply orb_true_iff in Hd. apply orb_true_iff. rewrite !Nat.leb_le, !Nat.ltb_lt in *. lia.
Qed.

(** The wait ends, at a tally that decides the reply for good. *)
Lemma wait_tally_spec total w late t later : at_point total t later →
  ∃ r, wait_tally total w late t later = Some r ∧
    ∃ rest, at_point total r rest ∧ final_tally r rest = final_tally t later ∧ decided total w r = true.
Proof.
  revert t. induction later as [|t' later IH]; intros t Hp; cbn [wait_tally].
  - assert (Hd : decided total w t = true).
    { destruct Hp as [_ Htot]. cbn in Htot. unfold decided. apply orb_true_iff. rewrite Nat.leb_le, Nat.ltb_lt. lia. }
    rewrite Hd. rewrite take_nil. exists t. split; [done|]. by exists [].
  - destruct (decided total w t) eqn:Hd.
    + exists (final_tally t (take late (t' :: later))). split; [done|]. exists (drop late (t' :: later)).
      rewrite <- (take_drop late (t' :: later)) in Hp. destruct Hp as [Ht Htot].
      pose proof (decided_stays total w t _ _ (conj Ht Htot) Hd) as Hd'. apply tallies_app in Ht as [H1 H2].
      pose proof (tallies_final _ _ H1). rewrite length_app in Htot. split; [split; [done|lia]|]. split; [|done].
      by rewrite <- final_tally_app, take_drop.
    + destruct Hp as [[Hs Ht] Htot]. destruct (IH t') as (r & E & rest & H1 & H2 & H3).
      { split; [done|]. unfold tally_step in Hs. cbn in Htot. lia. }
      exists r. split; [done|]. exists rest. by rewrite final_tally_cons.
Qed.
End quorum.

Section coordinator.
Context {SH : Sha1} {St : Type} (send : FrameTransport St) (stored : Peer → St → Prop).

Lemma replicate_copies_spec key body w set local_ok sch σ :
  schedule_ok set sch → set ≠ [] →
  store_means_stored send (lit "STORE " ++ key ++ lit " " ++ dec (N.of_nat (length body))) body stored →
  ∃ t final σ', replicate_copies send key body w set local_ok sch σ = (Some (t, final), σ') ∧
    t_confirmed t ≤ t_confirmed final ∧ t_confirmed final + t_failed final = length set ∧
    (t_confirmed t < w → t_confirmed final < w) ∧
    ∃ l, l ⊆+ drop 1 set ∧ t_confirmed final = (if local_ok then 1 else 0) + length l ∧ Forall (λ p, stored p σ') l.
Proof.
  intros (Hperm & Hbegan & _) Hne Hsend. unfold replicate_copies. cbv zeta.
  set (line := lit "STORE " ++ _) in *. set (t0 := first_tally local_ok).
  pose proof (run_copies_tallies send line body (sc_events sch) t0 σ) as [Htal Hlen].
  destruct (run_copies_stored send line body stored Hsend (sc_events sch) t0 σ) as (l & Hsub & Hconf & Hst).
  destruct (run_copies send line body (sc_events sch) t0 σ) as [ts σ'] eqn:Er. cbn [fst snd] in *.
  assert (Hev : length (sc_events sch) = length set - 1).
  { rewrite <- (length_fmap fst), (Permutation_length Hperm), length_drop. done. }
  assert (Hset : 1 ≤ length set) by (destruct set; [done|cbn; lia]).
  assert (H0 : t_confirmed t0 + t_failed t0 = 1 ∧ t_confirmed t0 = if local_ok then 1 else 0) by (subst t0; by destruct local_ok).
  assert (Hp0 : at_point (length set) t0 ts) by (split; [done|lia]).
  pose proof (tallies_final t0 ts Htal) as Hfin. fold (final_tally t0 ts).
  assert (Hdrop : ∃ t later, drop (sc_began sch) (t0 :: ts) = t :: later ∧ at_point (length set) t later ∧
    final_tally t later = final_tally t0 ts).
  { destruct (sc_began sch) as [|b]; [by exists t0, ts|]. cbn [drop].
    destruct (lookup_lt_is_Some_2 ts b ltac:(lia)) as [t Ht]. exists t, (drop (S b) ts).
    rewrite (drop_S _ _ _ Ht). split; [done|].
    assert (Hts : ts = take (S b) ts ++ drop (S b) ts) by (by rewrite take_drop).
    assert (Et : final_tally t0 (take (S b) ts) = t).
    { unfold final_tally. rewrite (take_S_r _ _ _ Ht), last_snoc. done. }
    rewrite Hts in Htal. apply tallies_app in Htal as [Ha Hb]. rewrite Et in Hb.
    pose proof (tallies_final _ _ Ha) as Hfa. rewrite Et, length_take in Hfa.
    split; [split; [done|rewrite length_drop; lia]|]. by rewrite Hts at 2; rewrite final_tally_app, Et. }
  destruct Hdrop as (t & later & -> & Hp & Ef).
  destruct (wait_tally_spec (length set) w (sc_late sch) t later Hp) as (r & -> & rest & Hr & Efr & Hd). cbn.
  exists r, (final_tally t0 ts), σ'. split; [done|]. destruct Hr as [Hrt Hrn]. pose proof (tallies_final r rest Hrt) as Hrf.
  rewrite Efr, Ef in Hrf. split; [lia|]. split; [lia|]. split.
  - intros Hlt. unfold decided in Hd. apply orb_true_iff in Hd. rewrite Nat.leb_le, Nat.ltb_lt in Hd. lia.
  - exists l. split; [|split; [lia|done]]. rewrite <- Hperm. by apply sublist_submseteq.
Qed.

(** The reply, whole: [MAX_LINE] cuts no OK and leaves an error one. *)
Lemma write_reply_ok t w : w ≤ t_confirmed t ≤ RF → write_reply t w = lit "OK " ++ dec (N.of_nat (t_confirmed t)).
Proof.
  intros [Hw Hrf]. unfold write_reply. rewrite (proj2 (Nat.leb_le _ _)) by done. unfold RF in Hrf.
  destruct (t_confirmed t) as [|[|[|[|c]]]]; [vm_compute; reflexivity..|lia].
Qed.

Lemma write_reply_err t w : t_confirmed t < w → starts_with (lit "ERR only ") (write_reply t w) = true.
Proof.
  intros Hw. unfold write_reply. rewrite (proj2 (Nat.leb_gt _ _)) by done.
  set (rest := dec _ ++ _). clearbody rest. change (take MAX_LINE (lit "ERR only " ++ rest)) with (lit "ERR only " ++ take (MAX_LINE - 9) rest).
  apply starts_with_app.
Qed.

(** C9. What the reply to a replicated write means. A write that is not refused is
    always answered, however its copies are scheduled, in one of two ways. [OK c]:
    at least [w] of the processes of the replica set hold the chunk, as [c] of them
    say - this one, where its own store then lists the key, and others whose answer
    was [OK], no two of them the same process. [ERR only ...]: in the end, with every
    process of the set counted, fewer than [w] copies are confirmed. Confirmed, not
    made: a copy whose answer was lost may be there all the same. *)
Theorem acknowledged_means_replicated n s key w body os sch σ m d' local s' :
  store_ok s (cn_disk n) →
  store_put s (cn_disk n) key body (os_put os) (os_now os) = (local, s', d') → put_refused local = false →
  member_for (cn_members n) (default 0%Z (id_from_key key)) = Some m →
  schedule_ok (replica_set m RF) sch →
  store_means_stored send (lit "STORE " ++ key ++ lit " " ++ dec (N.of_nat (length body))) body stored →
  ∃ reply final n' σ' l, coordinate n s send key w body os sch σ = (reply, Some (length (replica_set m RF), final), n', σ') ∧
    cn_store n' = Some s' ∧ (put_held local = true → store_has s' key = true) ∧
    l ⊆+ drop 1 (replica_set m RF) ∧ apart (replica_set m RF) ∧ Forall (λ p, stored p σ') l ∧
    t_confirmed final = (if put_held local then 1 else 0) + length l ∧
    t_confirmed final + t_failed final = length (replica_set m RF) ∧
    ((∃ c, reply = lit "OK " ++ dec (N.of_nat c) ∧ w ≤ c ≤ t_confirmed final) ∨
     starts_with (lit "ERR only ") reply = true ∧ t_confirmed final < w).
Proof.
  intros Hok Eput Href Hm Hsch Hsend. destruct (replica_set_spec m RF) as (Hap & Hrf & Hhead & _); [unfold RF; lia|].
  destruct (replicate_copies_spec key body w (replica_set m RF) (put_held local) sch σ Hsch) as
    (t & final & σ' & Er & Hle & Hall & Herr & l & Hl & Hc & Hst); [by destruct (replica_set m RF)|done|].
  unfold coordinate. rewrite Eput, Href. upd. rewrite Hm, Er.
  exists (write_reply t w), final, (n <| cn_store := Some s' |> <| cn_disk := d' |>), σ', l. split_and!; try done.
  - intros Hh. apply held_key_true.
    destruct (store_put_fresh _ _ _ _ _ _ _ _ _ Hok Eput) as (c & (Hin & _) & _); [destruct local; by auto|done].
  - destruct (le_lt_dec w (t_confirmed t)) as [Hw|Hw].
    + left. exists (t_confirmed t). split; [apply write_reply_ok|]; lia.
    + right. split; [by apply write_reply_err|by apply Herr].
Qed.
End coordinator.

(** ** The owner's member *)

Lemma member_for_min members k m : member_for members k = Some m →
  m ∈ members ∧ ∀ x, x ∈ members → (dist k (peer_id (ns_self m)) <= dist k (peer_id (ns_self x)))%Z.
Proof.
  destruct members as [|m0 members]; [done|]. unfold member_for. intros Hm. apply (inj Some) in Hm. rewrite <- Hm. clear Hm m.
  assert (Hgen : ∀ l best, let b := foldl (λ best m, if (wrap64 (peer_id (ns_self m) - k) <? wrap64 (peer_id (ns_self best) - k))%Z
      then m else best) best l in
    (b = best ∨ b ∈ l) ∧ (dist k (peer_id (ns_self b)) <= dist k (peer_id (ns_self best)))%Z ∧
    ∀ x, x ∈ l → (dist k (peer_id (ns_self b)) <= dist k (peer_id (ns_self x)))%Z).
  { induction l as [|y l IH]; intros best; cbn [foldl]; [cbv zeta; split_and!; [by left|lia|by intros ? ?%elem_of_nil]|].
    set (best' := if (_ <? _)%Z then y else best).
    assert (Hb : (best' = best ∨ best' = y) ∧ (dist k (peer_id (ns_self best')) <= dist k (peer_id (ns_self best)))%Z ∧
      (dist k (peer_id (ns_self best')) <= dist k (peer_id (ns_self y)))%Z).
    { subst best'. unfold dist. destruct (Z.ltb_spec (wrap64 (peer_id (ns_self y) - k)) (wrap64 (peer_id (ns_self best) - k)));
        split_and!; (lia || tauto). }
    clearbody best'. destruct Hb as (Hb1 & Hb2 & Hb3). destruct (IH best') as (I1 & I2 & I3). cbv zeta in *. split_and!.
    - destruct I1 as [->|I1]; [|right; apply elem_of_cons; by right]. destruct Hb1 as [->| ->]; [by left|].
      right. apply elem_of_cons. by left.
    - lia.
    - intros x [->|Hx]%elem_of_cons; [lia|]. by apply I3. }
  destruct (Hgen (m0 :: members) m0) as (I1 & I2 & I3). cbv zeta in *. split; [|done].
  destruct I1 as [E|I1]; [rewrite E; apply elem_of_cons; by left|done].
Qed.

(** A process coordinates for the right member: if the owner of the key among all
    the ring's members is one of this process's, that member is the one whose replica
    set is used. *)
Theorem coordinates_as_owner ring (members : list NodeState) k m o :
  ring_ok ring → is_u64 k → (∀ x, x ∈ members → ns_self x ∈ ring) →
  successor_of k ring = Some o → o ∈ ((ns_self <$> members) : list Peer) → member_for members k = Some m → ns_self m = o.
Proof.
  intros Hr Hk Hin Ho Hom Hm. destruct (member_for_min _ _ _ Hm) as [Hmm Hmin].
  destruct (successor_of_owns ring k Hr Hk) as (o' & E & Hown). simplify_eq.
  apply (owns_unique ring k); [done..| |done]. split; [by apply Hin|]. intros q Hq.
  apply list_elem_of_fmap in Hom as (x & -> & Hx). destruct Hown as [_ Hown]. specialize (Hown q Hq). specialize (Hmin x Hx). lia.
Qed.

(** ** Readers *)
Section readers.
Context {SH : Sha1} {IN : Inet} {St : Type} (route : Transport St) (send : FrameTransport St).

Lemma try_get_verified key from out σ : (go_ok out = true → chunk_key (go_body out) = key) →
  let o := (try_get send key from out σ).1.1.1 in
  (go_ok o = true → chunk_key (go_body o) = key) ∧ ((try_get send key from out σ).1.1.2 = true → go_ok o = true).
Proof.
  intros Hout. unfold try_get. destruct (send from _ [] σ) as [[d a] σ1]. cbv zeta.
  destruct (negb (bool_decide (d = Ok))); [done|]. destruct (negb (starts_with _ _)); [done|].
  case_bool_decide; cbn [negb]; [|done]. done.
Qed.

Lemma get_rest_verified key candidates out σ : (go_ok out = true → chunk_key (go_body out) = key) →
  let o := (get_rest send key candidates out σ).1 in go_ok o = true → chunk_key (go_body o) = key.
Proof.
  revert out σ. induction candidates as [|p l IH]; intros out σ Hout; cbn [get_rest]; [done|].
  pose proof (try_get_verified key p out σ Hout) as [H1 _].
  destruct (try_get send key p out σ) as [[[out' fin] d] σ']. cbn [fst snd] in *. destruct fin; [done|]. by apply IH.
Qed.

(** A reader is never given the wrong bytes: whatever the nodes, the network and the
    lookups answer, a read that succeeds returns bytes whose digest is the key asked
    for; and a malformed key is refused without a message sent. *)
Theorem reads_are_verified start key retries σ :
  let '(o, σ') := get_chunk route send start key retries σ in
  (go_ok o = true → chunk_key (go_body o) = key) ∧ (valid_key key = false → go_ok o = false ∧ σ' = σ).
Proof.
  unfold get_chunk. cbv zeta. destruct (valid_key key); cbn [negb]; [|done].
  destruct (id_from_key key) as [k|]; [|done]. destruct (lookup_with_recovery route start k retries σ) as [r σ1].
  destruct (negb (result_ok r)); [done|].
  pose proof (try_get_verified key (found r) (mkGetOutcome false [] [] no_peer []) σ1 ltac:(done)) as [H1 _].
  destruct (try_get send key (found r) _ σ1) as [[[out fin] d] σ2]. cbn [fst snd] in *. destruct fin; [done|].
  destruct (fallbacks route r (unreachable d) σ2) as [more σ3].
  pose proof (get_rest_verified key more out σ3 H1) as H2. destruct (get_rest send key more out σ3) as [o σ4]. done.
Qed.
End readers.

(** ** What a request can do to the store *)
Section requests.
Context {SH : Sha1}.

(** Every chunk of [s] is in [s'], unchanged. *)
Definition keeps_chunks (s s' : ChunkStore) (d d' : list (bytes * bytes)) : Prop :=
  ∀ key, store_has s key = true → store_has s' key = true ∧ om_find (store_path s' key) d' = om_find (store_path s key) d.

Lemma keeps_chunks_refl s d : keeps_chunks s s d d.
Proof. done. Qed.

Lemma store_put_keeps s d key body env now r s' d' :
  store_ok s d → store_put s d key body env now = (r, s', d') → keeps_chunks s s' d d'.
Proof.
  intros Hok. unfold store_put. destruct (valid_key key) eqn:Hv; cbn [negb]; [|by intros [= _ <- <-]].
  destruct (_ <? _)%N; [by intros [= _ <- <-]|]. destruct (bool_decide (chunk_key body = key)); cbn [negb]; [|by intros [= _ <- <-]].
  destruct (held_key s key) eqn:Hh; [by intros [= _ <- <-]|].
  destruct (put_write s d key body env) as [[ok s1] d1] eqn:Ew.
  apply put_write_disk in Ew as (Hd1 & -> & Hw); [|apply Hok|done].
  intros E key' Hk. assert (Hne : key' ≠ key) by (intros ->; unfold store_has in Hk; congruence).
  pose proof (so_valid _ _ Hok key' (proj1 (held_key_true s key') Hk)) as Hv'.
  assert (Hd : om_find (store_path s key') d1 = om_find (store_path s key') d).
  { destruct Hw as [[_ Hw]|Hw]; rewrite Hw by done; [done|]. by rewrite decide_False. }
  destruct ok; cbn [negb] in E; simplify_eq; [|by split].
  unfold put_commit. set (s1 := s <| st_next_tmp := _ |>). change (held_key s1 key) with (held_key s key). rewrite Hh. split.
  - apply held_key_true. unfold store_touch, store_keys. upd. apply om_set_fst. right. by apply held_key_true.
  - exact Hd.
Qed.

(** What any request may leave behind. *)
Definition process_ok (n : ChunkNode) : Prop :=
  cn_bodies n ≤ MAX_BODIES ∧ ∀ s, cn_store n = Some s → store_ok s (cn_disk n).

Definition process_keeps (n n' : ChunkNode) : Prop := ∀ s, cn_store n = Some s →
  ∃ s', cn_store n' = Some s' ∧ keeps_chunks s s' (cn_disk n) (cn_disk n').

Lemma process_keeps_refl n : process_keeps n n.
Proof. intros s Hs. by exists s. Qed.

Lemma process_same n : process_ok n → process_ok n ∧ process_keeps n n.
Proof. intros H. split; [done|apply process_keeps_refl]. Qed.

Lemma handle_store_ok n s key body os : process_ok n → cn_store n = Some s →
  process_ok (handle_store n s key body os).2 ∧ process_keeps n (handle_store n s key body os).2.
Proof.
  intros [Hb Hn] Hs. unfold handle_store.
  destruct (store_put s (cn_disk n) key body (os_put os) (os_now os)) as [[r s'] d'] eqn:E.
  unfold simple_reply. cbn [snd]. split.
  - split; [done|]. upd. intros ? [= <-]. eapply store_put_ok; [by apply Hn|done].
  - intros s0 Hs0. exists s'. upd. split; [done|]. simplify_eq. eapply store_put_keeps; [by apply Hn|done].
Qed.

Lemma handle_get_ok n s key os : process_ok n → process_ok (handle_get n s key os).2 ∧ process_keeps n (handle_get n s key os).2.
Proof.
  intros Hp. pose proof (process_same n Hp) as Hsame. destruct Hp as [Hb Hn].
  unfold handle_get, hold_body. destruct (Nat.leb_spec MAX_BODIES (cn_bodies n)); cbn [negb]; [exact Hsame|].
  destruct (store_get _ _ _ _); try exact Hsame. unfold simple_reply. cbn [snd].
  split; [split; upd; [lia|done]|]. intros s0 Hs0. by exists s0.
Qed.

Lemma handle_keys_ok n s after os : process_ok n → cn_store n = Some s →
  process_ok (handle_keys n s after os).2 ∧ process_keeps n (handle_keys n s after os).2.
Proof.
  intros Hp Hs. unfold handle_keys. cbv zeta. destruct (_ && _); [by apply process_same|]. destruct Hp as [Hb Hn]. unfold simple_reply. cbn [snd].
  set (s' := if bool_decide (after = lit "-") then _ else s).
  assert (Hs' : store_ok s' (cn_disk n) ∧ keeps_chunks s s' (cn_disk n) (cn_disk n)).
  { subst s'. case_bool_decide; [|by split; [apply Hn|]]. split; [by apply store_forget_old_ok, Hn|done]. }
  destruct Hs' as [H1 H2]. split; [split; [done|]; upd; by intros ? [= <-]|].
  intros s0 Hs0. exists s'. upd. simplify_eq. done.
Qed.

Lemma drop_fold_ok os keys acc :
  store_ok acc.2 (cn_disk acc.1.2) → cn_bodies acc.1.2 ≤ MAX_BODIES →
  let r := foldl (drop_one os) acc keys in store_ok r.2 (cn_disk r.1.2) ∧ cn_bodies r.1.2 ≤ MAX_BODIES.
Proof.
  revert acc. induction keys as [|k keys IH]; intros [[[bits freed] n] s] Hok Hb; [done|]. cbn [foldl]. apply IH.
  - unfold drop_one. cbn [fst snd] in *. destruct (store_drop _ _ _ _ _ _ _) as [[r s'] d'] eqn:E.
    apply (store_drop_ok true false) in E; [|done..]. by destruct r.
  - unfold drop_one. cbn [fst snd] in *. destruct (store_drop _ _ _ _ _ _ _) as [[r s'] d']. by destruct r.
Qed.

Lemma handle_drop_ok n s secret keys os : process_ok n → cn_store n = Some s →
  process_ok (handle_drop n s secret keys os).2 ∧
  (cn_gc_key n = [] ∨ secret ≠ cn_gc_key n → (handle_drop n s secret keys os).2 = n).
Proof.
  intros Hp Hs. unfold handle_drop. case_bool_decide as Ek; [done|].
  destruct (same_secret secret (cn_gc_key n)) eqn:Es; cbn [negb]; [|done]. apply same_secret_eq in Es.
  destruct (negb _); [done|]. destruct Hp as [Hb Hn].
  pose proof (drop_fold_ok os keys ([], 0%N, n, s) (Hn s Hs) Hb) as [H1 H2].
  destruct (foldl (drop_one os) _ keys) as [[[bits freed] n'] s']. cbn [fst snd] in *. split; [|naive_solver].
  unfold simple_reply. cbn [snd]. split; [done|]. upd. by intros ? [= <-].
Qed.

Lemma coordinate_ok {St} n s (send : FrameTransport St) key w body os sch σ : process_ok n → cn_store n = Some s →
  let n' := (coordinate n s send key w body os sch σ).1.2 in process_ok n' ∧ process_keeps n n'.
Proof.
  intros [Hb Hn] Hs. unfold coordinate.
  destruct (store_put s (cn_disk n) key body (os_put os) (os_now os)) as [[r s'] d'] eqn:E. cbv zeta.
  set (n' := n <| cn_store := Some s' |> <| cn_disk := d' |>).
  assert (Hn' : process_ok n' ∧ process_keeps n n').
  { split; [split; [done|]; subst n'; upd; intros ? [= <-]; eapply store_put_ok; [by apply Hn|done]|].
    intros s0 Hs0. exists s'. split; [done|]. simplify_eq. subst n'. upd. eapply store_put_keeps; [by apply Hn|done]. }
  clearbody n'. destruct (put_refused r); [done|]. destruct (replicate_copies _ _ _ _ _ _ _ _) as [[[t f]|] σ']; done.
Qed.

Lemma request_keeps {St} n (send : FrameTransport St) line body os sch σ :
  process_ok n →
  let n' := (handle_chunk_request n send line body os sch σ).1.2 in
  process_ok n' ∧
  ((∀ secret keys, split_single_spaces line = lit "DROP" :: secret :: keys → cn_gc_key n = [] ∨ secret ≠ cn_gc_key n) →
   process_keeps n n').
Proof.
  intros Hp. pose proof (process_same n Hp) as [_ Hsame].
  unfold handle_chunk_request. cbv zeta. destruct (split_single_spaces line) as [|[|v0 v] args]; [done..|].
  set (verb := v0 :: v) in *. clearbody verb. destruct (cn_store n) as [s|] eqn:Hs; [|done]. cbv zeta.
  destruct (bool_decide (verb = lit "PUT") && _).
  { destruct (negb _); [done|]. destruct (parse_w _) as [w|]; [|done].
    pose proof (coordinate_ok n s send (default [] (args !! 0)) w body os sch σ Hp Hs) as Hc. cbv zeta in Hc.
    destruct (coordinate n s send _ w body os sch σ) as [[[reply fin] n'] σ']. cbn [fst snd] in *. by destruct Hc. }
  destruct (bool_decide (verb = lit "STORE") && _).
  { pose proof (handle_store_ok n s (default [] (args !! 0)) body os Hp Hs) as [H1 H2].
    destruct (handle_store n s _ body os) as [[[? ?] ?] ?]. done. }
  destruct (bool_decide (verb = lit "GET") && _).
  { pose proof (handle_get_ok n s (default [] (args !! 0)) os Hp) as [H1 H2].
    destruct (handle_get n s _ os) as [[[? ?] ?] ?]. done. }
  destruct (bool_decide (verb = lit "HAVE") && _ && _); [done|]. destruct (bool_decide (verb = lit "DIGEST") && _); [done|].
  destruct (bool_decide (verb = lit "KEYS") && _).
  { pose proof (handle_keys_ok n s (default [] (args !! 0)) os Hp Hs) as [H1 H2].
    destruct (handle_keys n s _ os) as [[[? ?] ?] ?]. done. }
  destruct (bool_decide (verb = lit "DROP") && _ && _) eqn:Ed; [|done].
  apply andb_true_iff in Ed as [[Ev%bool_decide_eq_true Ec]%andb_true_iff _]. subst verb.
  destruct args as [|secret keys]; [done|]. change (default [] (head (secret :: keys))) with secret.
  change (drop 1 (secret :: keys)) with (drop 0 keys). rewrite drop_0.
  pose proof (handle_drop_ok n s secret keys os Hp Hs) as [H1 H2].
  destruct (handle_drop n s secret keys os) as [[[? ?] ?] n']. cbn [snd fst plain] in *. split; [done|].
  intros Hk. rewrite H2 by (by eapply Hk). apply process_keeps_refl.
Qed.

(** Nothing on the data plane destroys a chunk but a DROP that carries this node's
    collection key. Whatever request line, body, operating-system answers and
    schedule, the store's invariant and the limit on bodies held in memory are kept;
    and unless the line is a DROP with the right, non-empty key, every chunk listed
    before is listed after, with the same bytes. *)
Theorem only_authorised_drops_destroy {St} n (send : FrameTransport St) line body os sch σ :
  process_ok n →
  let n' := (handle_chunk_request n send line body os sch σ).1.2 in
  process_ok n' ∧
  ((∀ secret keys, split_single_spaces line = lit "DROP" :: secret :: keys → cn_gc_key n = [] ∨ secret ≠ cn_gc_key n) →
   process_keeps n n').
Proof. apply request_keeps. Qed.
End requests.

(** ** Witnesses *)
#[local] Existing Instances demo_sha1 demo_sha1_ok.

(** Another node that stores whatever it is sent; the state is the nodes that have. *)
Definition demo_send : FrameTransport (list Peer) := λ to _ _ σ, ((Ok, (lit "OK", [])), to :: σ).
Definition demo_os : Os := mkOs 200 demo_env true true true.
Definition demo_node : ChunkNode :=
  mkChunkNode (Some demo_opened) [] [demo_member] 0 0 (lit "collection-key") 7200000 0 0 0 None.
Definition demo_copies : list Peer := drop 1 (replica_set demo_member RF).
Definition demo_schedule : Schedule := mkSchedule (reverse ((λ p, (p, true)) <$> demo_copies)) 1 1.

Lemma demo_schedule_ok : schedule_ok (replica_set demo_member RF) demo_schedule.
Proof.
  assert (E : sc_events demo_schedule = [(mkPeer 18446744073709551000 "10.0.0.3" 9003, true); (demo_b, true)])
    by (vm_compute; reflexivity).
  assert (E' : drop 1 (replica_set demo_member RF) = [demo_b; mkPeer 18446744073709551000 "10.0.0.3" 9003])
    by (vm_compute; reflexivity).
  unfold schedule_ok. rewrite E, E'. split; [apply Permutation_swap|]. split; [cbn; lia|]. by repeat constructor.
Qed.

Lemma acknowledged_means_replicated_witness :
  ∃ reply final n' σ' l, coordinate demo_node demo_opened demo_send demo_chunk 2 demo_body demo_os demo_schedule [] =
      (reply, Some (length (replica_set demo_member RF), final), n', σ') ∧
    cn_store n' = Some demo_put.1.2 ∧ (put_held Stored = true → store_has demo_put.1.2 demo_chunk = true) ∧
    l ⊆+ drop 1 (replica_set demo_member RF) ∧ apart (replica_set demo_member RF) ∧ Forall (λ p, p ∈ σ') l ∧
    t_confirmed final = (if put_held Stored then 1 else 0) + length l ∧
    t_confirmed final + t_failed final = length (replica_set demo_member RF) ∧
    ((∃ c, reply = lit "OK " ++ dec (N.of_nat c) ∧ 2 ≤ c ≤ t_confirmed final) ∨
     starts_with (lit "ERR only ") reply = true ∧ t_confirmed final < 2).
Proof.
  apply (acknowledged_means_replicated demo_send (λ p σ, p ∈ σ) demo_node demo_opened demo_chunk 2 demo_body demo_os
    demo_schedule [] demo_member demo_put.2 Stored demo_put.1.2).
  - apply demo_opened_ok.
  - vm_compute. reflexivity.
  - reflexivity.
  - reflexivity.
  - apply demo_schedule_ok.
  - intros to σ d a σ' E. injection E as <- <- <-. split; [intros; apply elem_of_cons; by left|].
    intros p Hp. apply elem_of_cons. by right.
Defined.

Lemma coordinates_as_owner_witness : ns_self demo_member = demo_a.
Proof.
  apply (coordinates_as_owner demo_ring [demo_member] 5 demo_member demo_a).
  - apply demo_ring_ok.
  - vm_compute. done.
  - intros x Hx. apply list_elem_of_singleton in Hx. subst x. apply (bool_decide_unpack _). vm_compute. exact I.
  - vm_compute. reflexivity.
  - apply (bool_decide_unpack _). vm_compute. exact I.
  - reflexivity.
Defined.

Lemma only_authorised_drops_destroy_witness :
  let n' := (handle_chunk_request demo_node demo_send (lit "DROP other-key " ++ demo_chunk) [] demo_os demo_schedule []).1.2 in
  process_ok n' ∧
  ((∀ secret keys, split_single_spaces (lit "DROP other-key " ++ demo_chunk) = lit "DROP" :: secret :: keys →
      cn_gc_key demo_node = [] ∨ secret ≠ cn_gc_key demo_node) → process_keeps demo_node n').
Proof.
  apply (only_authorised_drops_destroy demo_node demo_send (lit "DROP other-key " ++ demo_chunk) [] demo_os demo_schedule []).
  split; [cbn; lia|]. intros s [= <-]. apply demo_opened_ok.
Defined.
