(* ===== verification/NodeServe.v ===== *)
(** * NodeServe: one connection of a node (node.cpp)

    [serve] answers the requests of one connection: chunk requests with their
    bodies, ring requests for one of the process's members, and what each does to
    the counters and the log. The process is a [ChunkNode]; between two requests
    the other threads of the process may change it, as [nv_other] says. A request's
    own circumstances - what the disk answers, how copies are scheduled, the times
    printed - are a [RequestEnv]. *)
From S2P Require Import Prelude Text OrdMap Net Log Serve Chord Lookup Store Stabilize Chunk.

#[export] Instance Target_eq_dec : EqDecision Target.
Proof. solve_decision. Defined.
#[export] Instance Body_eq_dec : EqDecision Body.
Proof. solve_decision. Defined.

(** ** What is counted and logged *)

Definition verb_of (line : bytes) : bytes := lower <$> first_of line.

Definition result_of (reply : bytes) : bytes :=
  if bool_decide (reply = lit "OK") ||
     existsb (λ p, starts_with p reply)
       [lit "OK "; lit "CHUNK "; lit "HAVE "; lit "KEYS "; lit "DROPPED "; lit "DIGEST "]
  then lit "ok"
  else if bool_decide (reply = lit "MISSING") then lit "missing"
  else if bool_decide (reply = lit "ERR busy") then lit "busy"
  else lit "error".

Definition CHUNK_VERBS : list bytes := [lit "put"; lit "store"; lit "get"; lit "have"; lit "digest"; lit "keys"; lit "drop"].
Definition CHUNK_RESULTS : list bytes := [lit "ok"; lit "missing"; lit "busy"; lit "error"].
Definition ERROR_TYPES : list bytes :=
  [lit "deadline"; lit "line_too_long"; lit "malformed"; lit "too_large"; lit "busy"; lit "closed_mid_body"].

(** The families as [register_metrics] leaves them. *)
Definition family (labels : list bytes) : Family := foldl (λ f l, om_set l 0%N f) [] labels.
Definition no_errors : Family := family ERROR_TYPES.
Definition no_requests : Family := family (v ← CHUNK_VERBS; r ← CHUNK_RESULTS; [v ++ lit "/" ++ r]).

Definition LogEntry : Type := Level * bytes * list LogField.

Definition record_level (verb : bytes) : Level :=
  if bool_decide (verb ∈ [lit "have"; lit "keys"; lit "digest"]) then Debug else Info.
(** The word after the verb, but never a collection's secret. *)
Definition record_key (line : bytes) : bytes :=
  match find_char SPACE line with
  | None => []
  | Some a => if bool_decide (verb_of line = lit "drop") then [] else first_of (drop (S a) line)
  end.
Definition record_entry (line reply ms : bytes) (count : N) : LogEntry :=
  (record_level (verb_of line), lit "chunk." ++ verb_of line,
   [(lit "key", record_key line); (lit "result", result_of reply); (lit "reply", take 120 reply); (lit "bytes", dec count);
    (lit "ms", ms)]).

(** ** State *)

Record RequestEnv := mkRequestEnv { rv_os : Os; rv_sched : Schedule; rv_ms : bytes; rv_acked : Z; rv_last : Z }.

Record Server (W : Type) := mkServer {
  sv_conn : Conn; sv_node : ChunkNode; sv_world : W; sv_thread_id : bytes;
  sv_errors : Family; sv_requests : Family; sv_bytes_in : N; sv_bytes_out : N; sv_log : list LogEntry; sv_turn : nat }.
Arguments mkServer {W}. Arguments sv_conn {W}. Arguments sv_node {W}. Arguments sv_world {W}. Arguments sv_thread_id {W}.
Arguments sv_errors {W}. Arguments sv_requests {W}. Arguments sv_bytes_in {W}. Arguments sv_bytes_out {W}. Arguments sv_log {W}.
Arguments sv_turn {W}.
#[export] Instance Server_eta {W} : Eta (Server W) := λ s,
  mkServer (sv_conn s) (sv_node s) (sv_world s) (sv_thread_id s) (sv_errors s) (sv_requests s) (sv_bytes_in s) (sv_bytes_out s)
    (sv_log s) (sv_turn s).

Section serve.
Context {SH : Sha1} {IN : Inet} {W : Type} (logger : Logger).
(** The two exchanges of net.cpp, and the clock. *)
Context (exchange_line : bytes → Transport (NodeState * (ChunkNode * W))) (exchange_frame : bytes → FrameTransport W)
  (now : NodeState * (ChunkNode * W) → Z).
Context (env : nat → RequestEnv) (nv_other : nat → ChunkNode * W → ChunkNode * W).
Implicit Types s : Server W.

Definition add_error (which : bytes) s : Server W := s <| sv_errors := count which 1 (sv_errors s) |>.

Definition write_entry (e : LogEntry) s : Server W :=
  if log_enabled logger e.1.1 then s <| sv_log := sv_log s ++ [e] |> else s.
Definition record_chunk (line reply : bytes) (bytes_moved : N) s : Server W :=
  let s := s <| sv_requests := count (verb_of line ++ lit "/" ++ result_of reply) 1 (sv_requests s) |> in
  write_entry (record_entry line reply (rv_ms (env (sv_turn s))) bytes_moved) s.

(** ** The transports of the process: calls carry the thread's request id *)

Definition node_transport (rid : bytes) : Transport (NodeState * (ChunkNode * W)) := λ (to : Peer) (request : bytes),
  exchange_line rid to (with_request_id logger rid (addressed to request)).
Definition frame_transport (rid : bytes) : FrameTransport W := λ (to : Peer) (line body : bytes),
  exchange_frame rid to (with_request_id logger rid line) body.

Definition send_reply (reply : bytes) s : option (bool * Server W) :=
  '(sent, c) ← put_line reply (sv_conn s); Some (sent, s <| sv_conn := c |>).

(** ** Chunk requests *)

(** The request is answered: its reply, its body, the rest of its work. *)
Definition answer_chunk (line body : bytes) (announced : option N) s : option (bool * Server W) :=
  let e := env (sv_turn s) in
  let '(h, n, w) := handle_chunk_request (sv_node s) (frame_transport (sv_thread_id s)) line body (rv_os e) (rv_sched e) (sv_world s) in
  let s := s <| sv_node := n |> <| sv_world := w |> in
  '(sent, s) ← send_reply (h_reply h) s;
  '(sent, c) ← (if (sent : bool) then put_bytes (h_body h) (sv_conn s) else Some (false, sv_conn s));
  let s := s <| sv_conn := c |> in
  let size := N.of_nat (length (h_body h)) in
  let s := if (sent : bool) then s <| sv_bytes_out := wrap64N (sv_bytes_out s + size) |> else s in
  let s := record_chunk line (h_reply h) (default size announced) s in
  let s := match h_after h with
           | Some (key, total, t) => s <| sv_node := after_put (sv_node s) key total t (rv_acked e) (rv_last e) |>
           | None => s
           end in
  Some (sent, if h_hold h then s <| sv_node := release_body (sv_node s) |> else s).

Definition serve_chunk (line : bytes) s : option (bool * Server W) :=
  match body_length line with
  | BodyMalformed => '(_, s) ← send_reply (lit "ERR malformed body length") (add_error (lit "malformed") s); Some (false, s)
  | BodyTooLarge =>
      '(_, s) ← send_reply (lit "ERR chunk larger than " ++ dec MAX_BODY ++ lit " bytes") (add_error (lit "too_large") s); Some (false, s)
  | BodyNone => answer_chunk line [] None s
  | BodyPresent length =>
      let '(held, n) := hold_body (sv_node s) in
      if negb held then
        let s := add_error (lit "busy") s in
        '(ok, c) ← drop_body length (sv_conn s);
        let s := s <| sv_conn := c |> in
        '(ok, s) ← (if (ok : bool) then send_reply (lit "ERR busy") s else Some (false, s));
        Some (ok, record_chunk line (lit "ERR busy") 0 s)
      else
        let s := s <| sv_node := n |> in
        '(r, c) ← take_body length (sv_conn s);
        let s := s <| sv_conn := c |> in
        '(ok, s) ← match r with
                   | inl e => Some (false, add_error (body_error e) s)
                   | inr body =>
                       answer_chunk line body (Some length) (s <| sv_bytes_in := wrap64N (sv_bytes_in s + length) |>)
                   end;
        Some (ok, s <| sv_node := release_body (sv_node s) |>)
  end.

(** ** Ring requests *)

Definition member_by_id (members : list NodeState) (id : Id) : option nat :=
  fst <$> list_find (λ m, peer_id (ns_self m) = id) members.

(** A section of one member of the process; [None] if it is not there. *)
Definition at_member {A} (i : nat) (f : NodeState * (ChunkNode * W) → A * (NodeState * (ChunkNode * W))) (x : ChunkNode * W)
    : option (A * (ChunkNode * W)) :=
  m ← cn_members x.1 !! i;
  let '(a, (m, (n, w))) := f (m, x) in
  Some (a, (n <| cn_members := <[i := m]> (cn_members n) |>, w)).

Definition target_member (t : Target) (members : list NodeState) : option nat :=
  match t with
  | TNone _ => match members with [] => None | _ => Some 0 end
  | TMember id _ => member_by_id members id
  | TMalformed => None
  end.
Definition target_request (t : Target) : bytes := match t with TNone r => r | TMember _ r => r | TMalformed => [] end.

(** The reply, and what is left to do once it has been sent. *)
Definition answer_ring (line rid : bytes) (x : ChunkNode * W) : bytes * option (nat * After) * (ChunkNode * W) :=
  let t := split_target line in
  match t, target_member t (cn_members x.1) with
  | TMalformed, _ => (lit "ERR malformed TO prefix", None, x)
  | _, None => (lit "ERR no ring member " ++ id_to_hex (match t with TMember id _ => id | _ => 0%Z end) ++ lit " here", None, x)
  | _, Some i =>
      match at_member i (handle_request (node_transport rid) (target_request t)) x with
      | Some ((reply, after), x) => (reply, Some (i, after), x)
      | None => ([], None, x)
      end
  end.

Definition ring_entry (line reply : bytes) (members : list NodeState) : LogEntry :=
  let t := split_target line in
  (Debug, lit "ring.request",
   [(lit "member", match target_member t members ≫= (λ i, members !! i) with Some m => id_to_hex (peer_id (ns_self m)) | None => lit "-" end);
    (lit "verb", first_of (target_request t)); (lit "reply", take 120 reply)]).

Definition run_after_reply (rid : bytes) (after : option (nat * After)) (x : ChunkNode * W) : ChunkNode * W :=
  match after with
  | None => x
  | Some (i, a) => match at_member i (λ σ, (tt, run_after (node_transport rid) now a σ)) x with Some (_, x) => x | None => x end
  end.

Definition serve_ring (line : bytes) s : option (bool * Server W) :=
  let rid := sv_thread_id s in
  let '(reply, after, (n, w)) := answer_ring line rid (sv_node s, sv_world s) in
  let s := s <| sv_node := n |> <| sv_world := w |> in
  let s := if bool_decide (split_target line = TMalformed) then add_error (lit "malformed") s else s in
  '(sent, s) ← send_reply reply s;
  let s := write_entry (ring_entry line reply (cn_members (sv_node s))) s in
  let '(n, w) := run_after_reply rid after (sv_node s, sv_world s) in
  Some (sent, s <| sv_node := n |> <| sv_world := w |>).

(** ** The connection *)

(** A request line and everything that belongs to it. *)
Definition serve_request (rid line : bytes) s : option (bool * Server W) :=
  let '(saved, id) := open_scope rid (sv_thread_id s) in
  let s := s <| sv_thread_id := id |> in
  '(ok, s) ← (if is_chunk_request line || negb (bool_decide (body_length line = BodyNone)) then serve_chunk line s else serve_ring line s);
  Some (ok, s <| sv_thread_id := close_scope saved |>).

(** The other threads' turn, then one request. *)
Definition serve_one s : option (bool * Server W) :=
  let '(n, w) := nv_other (sv_turn s) (sv_node s, sv_world s) in
  let s := s <| sv_node := n |> <| sv_world := w |> in
  '(r, c) ← take_request (sv_conn s);
  let s := s <| sv_conn := c |> in
  '(ok, s) ← match r with
             | Gone e => Some (false, if bool_decide (line_error e = []) then s else add_error (line_error e) s)
             | BadRequestId => '(_, s) ← send_reply (lit "ERR malformed request id") (add_error (lit "malformed") s); Some (false, s)
             | Request_of rid line => serve_request rid line s
             end;
  Some (ok, s <| sv_turn := sv_turn s + 1 |>).

(** Until the connection closes. [None]: out of fuel, or a call that has not returned. *)
Fixpoint serve (fuel : nat) s : option (Server W) :=
  match fuel with
  | 0 => None
  | S fuel => '(ok, s) ← serve_one s; if (ok : bool) then serve fuel s else Some s
  end.
End serve.
