(* ===== verification/NodeServeSpec.v ===== *)
(** * NodeServeSpec: what serving a connection promises

    Whatever a peer sends, serving it keeps the process sound and gives back every
    body slot it took ([serving_keeps_the_process]); what a careful peer sends is
    answered request by request, in order, however the stream is cut
    ([requests_answered_in_order]). *)
From S2P Require Import Prelude Text OrdMap Net Log Serve Chord Lookup Routing Store Stabilize StabilizeInv Ring Chunk Replication NodeServe.

(** ** What a chunk request does to the process *)

Lemma handle_get_slots n s key os : let '(_, _, hold, n') := handle_get n s key os in
  cn_bodies n' = cn_bodies n + (if hold then 1 else 0) ∧ cn_members n' = cn_members n.
Proof.
  unfold handle_get, hold_body. destruct (MAX_BODIES <=? cn_bodies n); cbn [negb]; [cbn; split; [lia|done]|].
  destruct (store_get _ _ _ _); cbn; upd; (split; [lia|done]).
Qed.

Lemma drop_fold_slots os keys acc : let r := foldl (drop_one os) acc keys in
  cn_bodies r.1.2 = cn_bodies acc.1.2 ∧ cn_members r.1.2 = cn_members acc.1.2.
Proof.
  apply (foldl_keeps (λ a, cn_bodies a.1.2 = cn_bodies acc.1.2 ∧ cn_members a.1.2 = cn_members acc.1.2)); [|done].
  intros [[[bits freed] n] s] key _ [H1 H2]. cbn [fst snd] in *. unfold drop_one.
  destruct (store_drop _ _ _ _ _ _ _) as [[[] ?] ?]; cbn [fst snd]; by upd.
Qed.

Lemma chunk_request_slots {SH : Sha1} {St} n (send : FrameTransport St) line body os sch σ :
  let '(h, n', _) := handle_chunk_request n send line body os sch σ in
  cn_bodies n' = cn_bodies n + (if h_hold h then 1 else 0) ∧ cn_members n' = cn_members n.
Proof.
  assert (Hsimple : ∀ l, cn_bodies n = cn_bodies n + (if h_hold (plain (simple_reply n l)).1 then 1 else 0) ∧
    cn_members n = cn_members n) by (intros l; cbn; split; [lia|done]).
  unfold handle_chunk_request. cbv zeta. destruct (split_single_spaces line) as [|[|v0 v] args]; [apply (Hsimple [])..|].
  destruct (cn_store n) as [s|]; [|apply (Hsimple [])]. cbv zeta.
  destruct (bool_decide _ && _).
  { destruct (negb _); [apply (Hsimple [])|]. destruct (parse_w _) as [w|]; [|apply (Hsimple [])].
    unfold coordinate. destruct (store_put _ _ _ _ _ _) as [[r s'] d']. cbv zeta. destruct (put_refused r); [cbn; upd; split; [lia|done]|].
    destruct (replicate_copies _ _ _ _ _ _ _ _) as [[[t f]|] σ']; cbn; upd; (split; [lia|done]). }
  destruct (bool_decide _ && _).
  { unfold handle_store. destruct (store_put _ _ _ _ _ _) as [[r s'] d']. cbn. upd. split; [lia|done]. }
  destruct (bool_decide _ && _).
  { pose proof (handle_get_slots n s (default [] (args !! 0)) os) as H. by destruct (handle_get n s _ os) as [[[? ?] ?] ?]. }
  destruct (_ && _ && _); [apply (Hsimple [])|]. destruct (bool_decide _ && _); [apply (Hsimple [])|].
  destruct (bool_decide _ && _).
  { unfold handle_keys. cbv zeta. destruct (_ && _); [apply (Hsimple [])|]. cbn. upd. split; [lia|done]. }
  destruct (_ && _ && _); [|apply (Hsimple [])]. unfold handle_drop.
  destruct (bool_decide _); [apply (Hsimple [])|]. destruct (negb _); [apply (Hsimple [])|]. destruct (negb _); [apply (Hsimple [])|].
  pose proof (drop_fold_slots os (drop 1 args) ([], 0%N, n, s)) as [H1 H2].
  destruct (foldl (drop_one os) _ _) as [[[bits freed] n'] s']. cbn in *. upd. split; [lia|done].
Qed.

(** ** A sound process *)

(** What a member was made with: whether it is alone, who it is, its list's length. *)
Abbreviation MemberId := (bool * Peer * nat)%type (only parsing).
Definition member_sound `{Inet} (id : MemberId) (m : NodeState) : Prop :=
  node_ok id.1.1 m ∧ ns_self m = id.1.2 ∧ ns_r m = id.2.

Record sound `{Sha1, Inet} (ids : list MemberId) (slots : nat) (n : ChunkNode) : Prop := {
  sd_process : process_ok n;
  sd_slots : cn_bodies n = slots;
  sd_members : Forall2 member_sound ids (cn_members n);
}.

Section serving.
Context {SH : Sha1} {IN : Inet} {IOk : InetOk IN} {W : Type} (logger : Logger).
Context (exchange_line : bytes → Transport (NodeState * (ChunkNode * W))) (exchange_frame : bytes → FrameTransport W)
  (now : NodeState * (ChunkNode * W) → Z).
Context (env : nat → RequestEnv) (other : nat → ChunkNode * W → ChunkNode * W).
Context (ids : list MemberId).
Implicit Types s : Server W.
Abbreviation answer_chunk := (answer_chunk logger exchange_frame env).
Abbreviation serve_chunk := (serve_chunk logger exchange_frame env).
Abbreviation serve_ring := (serve_ring logger exchange_line now).
Abbreviation serve_request := (serve_request logger exchange_line exchange_frame now env).
Abbreviation serve_one := (serve_one logger exchange_line exchange_frame now env other).
Abbreviation serve := (serve logger exchange_line exchange_frame now env other).

(** The other threads leave a sound process sound and hold as many bodies as they held. *)
Definition others_sound : Prop := ∀ t x b, sound ids b x.1 → sound ids b (other t x).1.
Record calls_sound : Prop := {
  cs_member : ∀ rid to line m x id, id ∈ ids → member_sound id m → member_sound id (exchange_line rid to line (m, x)).2.1;
  cs_process : ∀ rid to line m x b, sound ids b x.1 → sound ids b (exchange_line rid to line (m, x)).2.2.1;
}.

Lemma sound_same b n n' : sound ids b n → cn_store n' = cn_store n → cn_disk n' = cn_disk n → cn_bodies n' = cn_bodies n →
  cn_members n' = cn_members n → sound ids b n'.
Proof.
  intros [[Hb Hs] Hslots Hm] E1 E2 E3 E4. split; [split; [congruence|]|congruence|congruence]. intros s E. rewrite E2. apply Hs. congruence.
Qed.

Lemma send_reply_node reply s ok s' : send_reply reply s = Some (ok, s') → sv_node s' = sv_node s.
Proof. unfold send_reply. destruct (put_line _ _) as [[? ?]|]; [|done]. cbn. intros [= <- <-]. by upd. Qed.

Lemma write_entry_node e s : sv_node (write_entry logger e s) = sv_node s.
Proof. unfold write_entry. by destruct (log_enabled _ _); upd. Qed.

Lemma record_chunk_node line reply k s : sv_node (record_chunk logger env line reply k s) = sv_node s.
Proof. unfold record_chunk. by rewrite write_entry_node. Qed.

Lemma after_put_sound b n key total t acked last : sound ids b n → sound ids b (after_put n key total t acked last).
Proof.
  intros H. unfold after_put. set (n1 := if t_confirmed t <? RF then _ else n).
  assert (H1 : sound ids b n1). { subst n1. destruct (_ <? _); [|done]. by eapply sound_same; [exact H|..]. }
  clearbody n1. destruct (cn_log n1); [|done]. by eapply sound_same; [exact H1|..].
Qed.

Lemma release_sound b n : sound ids (S b) n → sound ids b (release_body n).
Proof.
  intros [[Hb Hs] Hslots Hm]. unfold release_body. split; upd; [|lia|done]. split; upd; [lia|]. exact Hs.
Qed.

Lemma answer_chunk_sound b line body announced s ok s' : sound ids b (sv_node s) →
  answer_chunk line body announced s = Some (ok, s') → sound ids b (sv_node s').
Proof.
  intros Hs. unfold NodeServe.answer_chunk.
  pose proof (chunk_request_slots (sv_node s) (frame_transport logger exchange_frame (sv_thread_id s)) line body
    (rv_os (env (sv_turn s))) (rv_sched (env (sv_turn s))) (sv_world s)) as Hslots.
  pose proof (request_keeps (sv_node s) (frame_transport logger exchange_frame (sv_thread_id s)) line body
    (rv_os (env (sv_turn s))) (rv_sched (env (sv_turn s))) (sv_world s) (sd_process _ _ _ Hs)) as [Hp _].
  destruct (handle_chunk_request _ _ _ _ _ _ _) as [[h n] w]. cbn [fst snd] in Hp. destruct Hslots as [Hb Hm].
  assert (Hn : sound ids (b + if h_hold h then 1 else 0) n).
  { destruct Hs as [_ E2 E3]. split; [done|lia|by rewrite Hm]. }
  cbv zeta. set (s1 := _ <| sv_world := w |>). assert (E1 : sv_node s1 = n) by (subst s1; by upd). clearbody s1.
  destruct (send_reply (h_reply h) s1) as [[sent s2]|] eqn:E2; cbn [mbind option_bind]; [|done]. apply send_reply_node in E2.
  destruct (if sent then _ else _) as [[sent' c]|]; cbn [mbind option_bind]; [|done]. intros [= <- <-].
  set (s3 := record_chunk _ _ _ _ _ _). assert (E3 : sv_node s3 = n).
  { subst s3. rewrite record_chunk_node. destruct sent'; upd; congruence. }
  clearbody s3.
  assert (Hrel : ∀ s4, sound ids (b + if h_hold h then 1 else 0) (sv_node s4) →
    sound ids b (sv_node (if h_hold h then s4 <| sv_node := release_body (sv_node s4) |> else s4))).
  { intros s4 E4. destruct (h_hold h); upd; [|by rewrite Nat.add_0_r in E4]. apply release_sound. by rewrite Nat.add_1_r in E4. }
  apply Hrel. destruct (h_after h) as [[[? ?] ?]|]; upd; rewrite E3; [by apply after_put_sound|done].
Qed.

Lemma hold_sound b n held n' : sound ids b n → hold_body n = (held, n') → sound ids (if held then S b else b) n'.
Proof.
  intros H. unfold hold_body. destruct (Nat.leb_spec MAX_BODIES (cn_bodies n)); intros [= <- <-]; [done|].
  destruct H as [[Hb Hs] Hslots Hm]. split; upd; [|lia|done]. split; upd; [lia|]. exact Hs.
Qed.

Lemma serve_chunk_sound b line s ok s' : sound ids b (sv_node s) → serve_chunk line s = Some (ok, s') → sound ids b (sv_node s').
Proof.
  intros Hs. unfold NodeServe.serve_chunk. destruct (body_length line) as [|len| |].
  - by apply answer_chunk_sound.
  - destruct (hold_body (sv_node s)) as [held n] eqn:Eh. pose proof (hold_sound b _ _ _ Hs Eh) as Hn. destruct held; cbn [negb].
    + destruct (take_body _ _) as [[r c]|]; cbn [mbind option_bind]; [|done]. cbv zeta. destruct r as [e|body].
      * cbn. intros [= <- <-]. upd. unfold add_error. upd. by apply release_sound.
      * destruct (answer_chunk line body _ _) as [[ok' s2]|] eqn:Ea; cbn [mbind option_bind]; [|done]. intros [= <- <-]. upd.
        apply release_sound. eapply answer_chunk_sound; [|exact Ea]. by upd.
    + destruct (drop_body _ _) as [[ok0 c]|]; cbn [mbind option_bind]; [|done]. cbv zeta.
      destruct ok0.
      * destruct (send_reply _ _) as [[ok' s2]|] eqn:E2; cbn [mbind option_bind]; [|done]. apply send_reply_node in E2.
        intros [= <- <-]. rewrite record_chunk_node, E2. unfold add_error. by upd.
      * cbn [mbind option_bind]. intros [= <- <-]. rewrite record_chunk_node. unfold add_error. by upd.
  - destruct (send_reply _ _) as [[ok' s2]|] eqn:E2; cbn [mbind option_bind]; [|done]. apply send_reply_node in E2.
    intros [= <- <-]. rewrite E2. unfold add_error. by upd.
  - destruct (send_reply _ _) as [[ok' s2]|] eqn:E2; cbn [mbind option_bind]; [|done]. apply send_reply_node in E2.
    intros [= <- <-]. rewrite E2. unfold add_error. by upd.
Qed.

(** ** Ring requests *)

Lemma handle_request_rest {X} (tr : Transport (NodeState * X)) (Q : X → Prop) line σ :
  (∀ to request σ, Q σ.2 → Q (tr to request σ).2.2) → Q σ.2 → Q (handle_request tr line σ).2.2.
Proof.
  intros Htr Hq. unfold handle_request. destruct (stream_words line) as [|verb args]; [done|].
  destruct (ring_verb verb && _); [done|]. destruct args as [|a [|b [|c [|d args]]]].
  - repeat case_bool_decide; done.
  - case_bool_decide; done.
  - case_bool_decide; [|done]. cbn [fst snd]. unfold handle_suspect. destruct (suspect_target _ _) as [t|]; [|done].
    destruct (same_process _ _); [done|]. pose proof (Htr t (lit "PING") σ Hq) as Hp. destruct (tr t _ σ) as [[d rep] σ']. cbn [snd] in Hp.
    by case_bool_decide.
  - case_bool_decide; [|done]. destruct (parse_peer_words a b c) as [|p]; [done|]. unfold handle_notify.
    destruct (same_node _ _); [done|]. destruct (_ =? _)%Z; [done|]. by destruct (notify_locked _ _) as [[? ?] ?].
  - done.
Qed.

Lemma run_after_rest {X} (tr : Transport (NodeState * X)) (clock : NodeState * X → Z) (Q : X → Prop) a σ :
  (∀ to request σ, Q σ.2 → Q (tr to request σ).2.2) → Q σ.2 → Q (run_after tr clock a σ).2.
Proof.
  intros Htr Hq. destruct a as [|old c]; [done|]. cbn [run_after]. unfold call_peer.
  pose proof (Htr old (lit "PING") σ Hq) as Hp. destruct (tr old _ σ) as [[d rep] σ']. cbn [fst snd] in *. cbv zeta. by case_bool_decide.
Qed.

Lemma at_member_sound {A} i (f : NodeState * (ChunkNode * W) → A * (NodeState * (ChunkNode * W))) x b (P : MemberId → A → Prop) :
  sound ids b x.1 →
  (∀ id m, id ∈ ids → member_sound id m → (member_sound id (f (m, x)).2.1 ∧ sound ids b (f (m, x)).2.2.1) ∧ P id (f (m, x)).1) →
  ∀ a x', at_member i f x = Some (a, x') → sound ids b x'.1 ∧ ∃ id, ids !! i = Some id ∧ P id a.
Proof.
  intros Hx Hf a x'. unfold at_member. destruct (cn_members x.1 !! i) as [m|] eqn:Em; cbn [mbind option_bind]; [|done].
  destruct (Forall2_lookup_r _ _ _ _ _ (sd_members _ _ _ Hx) Em) as (id & Eid & Hm).
  destruct (Hf id m) as [[H1 H2] H3]; [by eapply list_elem_of_lookup_2|done|]. destruct (f (m, x)) as [a0 [m' [n' w']]]. cbn [fst snd] in *.
  intros [= <- <-]. split; [|by exists id]. destruct H2 as [[Hb Hs] E2 E3]. split; upd; [by split; upd|done|].
  cbn [fst]. rewrite <- (list_insert_id ids i id) by done. by apply Forall2_insert.
Qed.

Hypothesis (Hcalls : calls_sound) (Hothers : others_sound).

Lemma node_transport_member rid id : id ∈ ids →
  others_keep (node_transport logger exchange_line rid) id.1.1 id.1.2 id.2.
Proof using Hcalls.
  intros Hid to request [m x] Hi. unfold node_transport. by apply (cs_member Hcalls).
Qed.

Lemma node_transport_rest rid b to request (σ : NodeState * (ChunkNode * W)) : sound ids b σ.2.1 →
  sound ids b (node_transport logger exchange_line rid to request σ).2.2.1.
Proof using Hcalls. destruct σ as [m x]. apply (cs_process Hcalls). Qed.

Lemma answer_ring_sound line rid b x : sound ids b x.1 →
  let '(_, after, x') := answer_ring logger exchange_line line rid x in
  sound ids b x'.1 ∧ match after with None => True | Some (i, a) => ∃ id, ids !! i = Some id ∧ after_ok id.1.2 a end.
Proof using Hcalls IOk.
  intros Hx. unfold answer_ring. cbv zeta.
  assert (Hat : ∀ i, match at_member i (handle_request (node_transport logger exchange_line rid) (target_request (split_target line))) x with
    | Some (reply, after, x') => sound ids b x'.1 ∧ ∃ id, ids !! i = Some id ∧ after_ok id.1.2 after | None => True end).
  { intros i. destruct (at_member i _ x) as [[[reply after] x']|] eqn:E; [|done].
    eapply (at_member_sound i _ x b (λ id a, after_ok id.1.2 a.2)) in E as [H1 (id & H2 & H3)]; [split; [exact H1|by exists id]|exact Hx|].
    intros id m Hid Hm. pose proof (handle_request_inv _ id.1.1 id.1.2 id.2 (node_transport_member rid id Hid)
      (target_request (split_target line)) (m, x) Hm) as [H1 H2]. split; [split; [exact H1|]|exact H2].
    apply (handle_request_rest _ (λ x, sound ids b x.1)); [|exact Hx]. intros to request σ. apply node_transport_rest. }
  destruct (split_target line) as [rest|id rest|]; [..|done].
  - destruct (target_member _ _) as [i|]; [|done]. specialize (Hat i). destruct (at_member i _ x) as [[[? ?] ?]|]; done.
  - destruct (target_member _ _) as [i|]; [|done]. specialize (Hat i). destruct (at_member i _ x) as [[[? ?] ?]|]; done.
Qed.

Lemma run_after_reply_sound rid b after x : sound ids b x.1 →
  match after with None => True | Some (i, a) => ∃ id, ids !! i = Some id ∧ after_ok id.1.2 a end →
  sound ids b (run_after_reply logger exchange_line now rid after x).1.
Proof using Hcalls IOk.
  intros Hx. destruct after as [[i a]|]; [|done]. intros (id & Eid & Ha). unfold run_after_reply.
  destruct (at_member i _ x) as [[[] x']|] eqn:E; [|done]. unfold at_member in E.
  destruct (cn_members x.1 !! i) as [m|] eqn:Em; cbn [mbind option_bind] in E; [|done].
  destruct (Forall2_lookup_r _ _ _ _ _ (sd_members _ _ _ Hx) Em) as (id' & Eid' & Hm). rewrite Eid in Eid'. injection Eid' as <-.
  assert (Hid : id ∈ ids) by by eapply list_elem_of_lookup_2.
  pose proof (run_after_inv (node_transport logger exchange_line rid) now id.1.1 id.1.2 id.2 (node_transport_member rid id Hid) a (m, x) Ha Hm) as H1.
  pose proof (run_after_rest (node_transport logger exchange_line rid) now (λ x, sound ids b x.1) a (m, x)
    (λ to request σ, node_transport_rest rid b to request σ) Hx) as H2.
  destruct (run_after _ _ _ _) as [m' [n' w']]. cbn [fst snd] in *. injection E as <-.
  destruct H2 as [[Hb Hs] E2 E3]. split; upd; [by split; upd|done|]. cbn [fst].
  rewrite <- (list_insert_id ids i id) by done. by apply Forall2_insert.
Qed.

Lemma serve_ring_sound b line s ok s' : sound ids b (sv_node s) → serve_ring line s = Some (ok, s') → sound ids b (sv_node s').
Proof using Hcalls IOk.
  intros Hs. unfold NodeServe.serve_ring. pose proof (answer_ring_sound line (sv_thread_id s) b (sv_node s, sv_world s) Hs) as H1.
  destruct (answer_ring _ _ _ _ _) as [[reply after] [n w]]. destruct H1 as [H1 Ha]. cbn [fst] in H1. cbv zeta.
  set (s1 := if bool_decide _ then _ else _). assert (E1 : sv_node s1 = n). { subst s1. unfold add_error. case_bool_decide; by upd. }
  clearbody s1. destruct (send_reply reply s1) as [[sent s2]|] eqn:E2; cbn [mbind option_bind]; [|done]. apply send_reply_node in E2.
  set (s3 := write_entry _ _ s2). assert (E3 : sv_node s3 = n) by (subst s3; rewrite write_entry_node; congruence). clearbody s3.
  pose proof (run_after_reply_sound (sv_thread_id s) b after (sv_node s3, sv_world s3)) as H3. rewrite E3 in H3 at 1.
  specialize (H3 H1 Ha). destruct (run_after_reply _ _ _ _ _ _) as [n' w']. intros [= <- <-]. by upd.
Qed.

Lemma serve_one_sound b s ok s' : sound ids b (sv_node s) → serve_one s = Some (ok, s') → sound ids b (sv_node s').
Proof using Hcalls Hothers IOk.
  intros Hs. unfold NodeServe.serve_one. pose proof (Hothers (sv_turn s) (sv_node s, sv_world s) b Hs) as Ho.
  destruct (other _ _) as [n w]. cbn [fst] in Ho. cbv zeta. destruct (take_request _) as [[r c]|]; cbn [mbind option_bind]; [|done].
  set (s1 := _ <| sv_conn := c |>). assert (E1 : sv_node s1 = n) by (subst s1; by upd). clearbody s1. destruct r as [e| |rid line].
  - cbn [mbind option_bind]. intros [= <- <-]. upd. case_bool_decide; [congruence|]. unfold add_error. upd. congruence.
  - destruct (send_reply _ _) as [[? s2]|] eqn:E2; cbn [mbind option_bind]; [|done]. apply send_reply_node in E2. intros [= <- <-]. upd.
    rewrite E2. unfold add_error. upd. congruence.
  - unfold NodeServe.serve_request, open_scope. cbv zeta. set (s2 := s1 <| sv_thread_id := rid |>).
    assert (E2 : sv_node s2 = n) by (subst s2; by upd). clearbody s2.
    assert (H2 : sound ids b (sv_node s2)) by by rewrite E2. destruct (_ || _).
    + destruct (serve_chunk line s2) as [[ok2 s3]|] eqn:E3; cbn [mbind option_bind]; [|done]. intros [= <- <-]. upd. by eapply serve_chunk_sound.
    + destruct (serve_ring line s2) as [[ok2 s3]|] eqn:E3; cbn [mbind option_bind]; [|done]. intros [= <- <-]. upd. by eapply serve_ring_sound.
Qed.

Lemma serve_sound fuel b s s' : sound ids b (sv_node s) → serve fuel s = Some s' → sound ids b (sv_node s').
Proof using Hcalls Hothers IOk.
  revert s. induction fuel as [|fuel IH]; intros s Hs; [done|]. cbn [NodeServe.serve].
  destruct (serve_one s) as [[ok s1]|] eqn:E1; cbn [mbind option_bind]; [|done]. pose proof (serve_one_sound b s ok s1 Hs E1) as H1.
  destruct ok; [by apply IH|]. intros [= <-]. done.
Qed.

(** ** A careful peer *)

(** The request done: what goes on the wire, and the process after it. *)
Definition chunk_done (rid line body : bytes) (t : nat) (x : ChunkNode * W) : bytes * (ChunkNode * W) :=
  let '(h, n, w) := handle_chunk_request x.1 (frame_transport logger exchange_frame rid) line body (rv_os (env t)) (rv_sched (env t)) x.2 in
  let n := match h_after h with
           | Some (key, total, y) => after_put n key total y (rv_acked (env t)) (rv_last (env t))
           | None => n
           end in
  (line_bytes (h_reply h) ++ h_body h, (if h_hold h then release_body n else n, w)).

Definition frame_answer (f : WireFrame) (t : nat) (x : ChunkNode * W) : bytes * (ChunkNode * W) :=
  if is_chunk_request (wf_line f) || negb (bool_decide (body_length (wf_line f) = BodyNone)) then
    if bool_decide (body_length (wf_line f) = BodyNone) then chunk_done (wf_rid f) (wf_line f) [] t x
    else
      let '(held, n) := hold_body x.1 in
      if negb held then (line_bytes (lit "ERR busy"), x)
      else let '(out, (n, w)) := chunk_done (wf_rid f) (wf_line f) (wf_body f) t (n, x.2) in (out, (release_body n, w))
  else
    let '(reply, after, x) := answer_ring logger exchange_line (wf_line f) (wf_rid f) x in
    (line_bytes reply, run_after_reply logger exchange_line now (wf_rid f) after x).

(** The answers to a sequence of requests, and the process at the end. *)
Fixpoint answers (fs : list WireFrame) (t : nat) (x : ChunkNode * W) : list bytes * (ChunkNode * W) :=
  match fs with
  | [] => ([], other t x)
  | f :: fs =>
      let '(out, x) := frame_answer f t (other t x) in
      let '(outs, x) := answers fs (t + 1) x in (out :: outs, x)
  end.

(** The connection has been answered [out] and goes on with [more]; the process is [x]. *)
Record replied s (out : bytes) (x : ChunkNode * W) (more : bytes) (tl : list RecvEvent) (m : nat) s' : Prop := {
  re_stream : delivers (sv_conn s') more tl;
  re_sent : cn_sent (sv_conn s') = cn_sent (sv_conn s) ++ out;
  re_calls : accepts m (cn_calls (sv_conn s'));
  re_process : (sv_node s', sv_world s') = x;
  re_thread : sv_thread_id s' = sv_thread_id s;
  re_turn : sv_turn s' = sv_turn s;
}.

Lemma send_reply_accepts reply s more tl m : delivers (sv_conn s) more tl →
  accepts (length (line_bytes reply) + m) (cn_calls (sv_conn s)) →
  ∃ s', send_reply reply s = Some (true, s') ∧ replied s (line_bytes reply) (sv_node s, sv_world s) more tl m s'.
Proof.
  intros Hd Ha. destruct (put_bytes_accepts (line_bytes reply) (sv_conn s)) as (calls & E & Hm).
  { eapply accepts_less; [|exact Ha]. lia. }
  eexists. unfold send_reply, put_line. rewrite E. split; [reflexivity|]. split; upd; [exact Hd|done|by apply Hm|done..].
Qed.

(** Counting and logging touch neither the connection nor the process. *)
Lemma replied_same s out x more tl m s1 s2 : replied s out x more tl m s1 → sv_conn s2 = sv_conn s1 →
  (sv_node s2, sv_world s2) = (sv_node s1, sv_world s1) → sv_thread_id s2 = sv_thread_id s1 → sv_turn s2 = sv_turn s1 →
  replied s out x more tl m s2.
Proof. intros [] E1 E2 E3 E4. split; congruence. Qed.

Definition same_conn (s1 s2 : Server W) : Prop :=
  sv_conn s2 = sv_conn s1 ∧ (sv_node s2, sv_world s2) = (sv_node s1, sv_world s1) ∧ sv_thread_id s2 = sv_thread_id s1 ∧ sv_turn s2 = sv_turn s1.

Lemma write_entry_same e s : same_conn s (write_entry logger e s).
Proof. unfold write_entry, same_conn. by destruct (log_enabled _ _). Qed.

Lemma record_chunk_same line reply k s : same_conn s (record_chunk logger env line reply k s).
Proof. unfold record_chunk. destruct (write_entry_same (record_entry line reply (rv_ms (env (sv_turn s))) k)
  (s <| sv_requests := count (verb_of line ++ lit "/" ++ result_of reply) 1 (sv_requests s) |>)) as (H1 & H2 & H3 & H4). done. Qed.

Lemma answer_chunk_accepts line body announced s more tl m : delivers (sv_conn s) more tl →
  let '(out, x) := chunk_done (sv_thread_id s) line body (sv_turn s) (sv_node s, sv_world s) in
  accepts (length out + m) (cn_calls (sv_conn s)) →
  ∃ s', answer_chunk line body announced s = Some (true, s') ∧ replied s out x more tl m s'.
Proof.
  intros Hd. unfold chunk_done, NodeServe.answer_chunk. cbn [fst snd].
  destruct (handle_chunk_request _ _ _ _ _ _ _) as [[h n] w]. cbv zeta. rewrite length_app. intros Ha.
  set (s1 := _ <| sv_world := w |>). rewrite <- Nat.add_assoc in Ha.
  destruct (send_reply_accepts (h_reply h) s1 more tl (length (h_body h) + m)) as (s2 & E2 & [R1 R2 R3 R4 R5 R6]); [exact Hd|exact Ha|].
  rewrite E2. cbn [mbind option_bind].
  destruct (put_bytes_accepts (h_body h) (sv_conn s2)) as (calls & E3 & Hm); [eapply accepts_less; [|exact R3]; lia|].
  rewrite E3. cbn [mbind option_bind]. eexists. split; [reflexivity|].
  set (s3 := s2 <| sv_conn := _ |>). set (s4 := record_chunk _ _ _ _ _ _).
  assert (H4 : replied s (line_bytes (h_reply h) ++ h_body h) (n, w) more tl m s4).
  { eapply replied_same; [|apply record_chunk_same..]. subst s3. split; upd; [exact R1|rewrite R2; subst s1; upd; by rewrite <- app_assoc|by apply Hm| | |].
    - rewrite R4. subst s1. by upd.
    - rewrite R5. subst s1. by upd.
    - rewrite R6. subst s1. by upd. }
  clearbody s4. destruct H4 as [Q1 Q2 Q3 Q4 Q5 Q6]. injection Q4 as Q4 Q4'.
  destruct (h_after h) as [[[key total] y]|]; destruct (h_hold h); split; upd; congruence || done.
Qed.

Lemma serve_chunk_accepts f s more m : frame_ok f → sv_thread_id s = wf_rid f →
  is_chunk_request (wf_line f) || negb (bool_decide (body_length (wf_line f) = BodyNone)) = true →
  ∀ tl, delivers (sv_conn s) (wf_body f ++ more) tl →
  let '(out, x) := frame_answer f (sv_turn s) (sv_node s, sv_world s) in
  accepts (length out + m) (cn_calls (sv_conn s)) →
  ∃ s', serve_chunk (wf_line f) s = Some (true, s') ∧ replied s out x more tl m s'.
Proof.
  intros Hf Hrid Hc tl Hd. unfold frame_answer, NodeServe.serve_chunk. rewrite Hc.
  destruct (fo_body _ Hf) as [E|[E Eb]]; rewrite E.
  - rewrite bool_decide_false by done. cbn [fst]. destruct (hold_body (sv_node s)) as [held n]. destruct held; cbn [negb].
    + cbv zeta. set (s1 := s <| sv_node := n |>).
      destruct (take_body_clean (wf_body f) (sv_conn s1) more tl Hd) as (rest & E1 & Hd1). rewrite E1. cbn [mbind option_bind].
      set (s2 := _ <| sv_bytes_in := _ |>).
      pose proof (answer_chunk_accepts (wf_line f) (wf_body f) (Some (N.of_nat (length (wf_body f)))) s2 more tl m Hd1) as H2.
      change (sv_thread_id s2) with (sv_thread_id s) in H2. change (sv_turn s2) with (sv_turn s) in H2.
      change (sv_node s2) with n in H2. change (sv_world s2) with (sv_world s) in H2. rewrite Hrid in H2. cbn [snd].
      destruct (chunk_done _ _ _ _ _) as [out [n' w']]. intros Ha. destruct (H2 Ha) as (s3 & E3 & [R1 R2 R3 R4 R5 R6]).
      rewrite E3. cbn [mbind option_bind]. eexists. split; [reflexivity|]. injection R4 as R4 R4'. split; upd; try done. by rewrite R4, R4'.
    + cbv zeta. set (s1 := add_error _ s). intros Ha.
      destruct (drop_body_clean (wf_body f) (sv_conn s1) more tl Hd) as (rest & E1 & Hd1). rewrite E1. cbn [mbind option_bind].
      set (s2 := s1 <| sv_conn := _ |>). destruct (send_reply_accepts (lit "ERR busy") s2 more tl m Hd1 Ha) as (s3 & E3 & R3).
      rewrite E3. cbn [mbind option_bind]. eexists. split; [reflexivity|]. eapply replied_same; [|apply record_chunk_same..].
      destruct R3 as [R1 R2 R3 R4 R5 R6]. by split.
  - rewrite bool_decide_true by done. rewrite Eb in Hd. cbn [app] in Hd.
    pose proof (answer_chunk_accepts (wf_line f) [] None s more tl m Hd) as H2. by rewrite Hrid in H2.
Qed.

Lemma serve_ring_accepts f s more m : sv_thread_id s = wf_rid f → wf_body f = [] →
  is_chunk_request (wf_line f) || negb (bool_decide (body_length (wf_line f) = BodyNone)) = false →
  ∀ tl, delivers (sv_conn s) more tl →
  let '(out, x) := frame_answer f (sv_turn s) (sv_node s, sv_world s) in
  accepts (length out + m) (cn_calls (sv_conn s)) →
  ∃ s', serve_ring (wf_line f) s = Some (true, s') ∧ replied s out x more tl m s'.
Proof.
  intros Hrid Hb Hc tl Hd. unfold frame_answer, NodeServe.serve_ring. rewrite Hc, Hrid. cbv zeta.
  destruct (answer_ring _ _ _ _ _) as [[reply after] [n w]] eqn:Ea. set (s0 := s <| sv_node := n |> <| sv_world := w |>).
  set (s1 := if bool_decide (split_target _ = TMalformed) then _ else s0).
  assert (H1 : same_conn s0 s1) by (subst s1; unfold same_conn; by destruct (bool_decide (split_target _ = _))). clearbody s1.
  destruct H1 as (C1 & C2 & C3 & C4). intros Ha.
  destruct (send_reply_accepts reply s1 more tl m) as (s2 & E2 & [R1 R2 R3 R4 R5 R6]); [by rewrite C1|by rewrite C1|].
  rewrite E2. cbn [mbind option_bind]. set (s3 := write_entry _ _ s2).
  destruct (write_entry_same (ring_entry (wf_line f) reply (cn_members (sv_node s2))) s2) as (D1 & D2 & D3 & D4). fold s3 in D1, D2, D3, D4.
  clearbody s3. assert (E3 : (sv_node s3, sv_world s3) = (n, w)) by (rewrite D2, R4, C2; by upd). rewrite E3.
  destruct (run_after_reply _ _ _ _ _ _) as [n' w'] eqn:Er. eexists. split; [reflexivity|]. split; upd; try congruence; try done; rewrite ?D1, ?R2, ?C1; try done.
  - by rewrite D3, R5, C3.
  - by rewrite D4, R6, C4.
Qed.

Lemma serve_one_accepts f s more m : frame_ok f → ∀ tl, delivers (sv_conn s) (frame_bytes f ++ more) tl →
  let '(out, x) := frame_answer f (sv_turn s) (other (sv_turn s) (sv_node s, sv_world s)) in
  accepts (length out + m) (cn_calls (sv_conn s)) →
  ∃ s', serve_one s = Some (true, s') ∧ delivers (sv_conn s') more tl ∧ cn_sent (sv_conn s') = cn_sent (sv_conn s) ++ out ∧
    accepts m (cn_calls (sv_conn s')) ∧ (sv_node s', sv_world s') = x ∧ sv_turn s' = sv_turn s + 1.
Proof.
  intros Hf tl Hd. unfold NodeServe.serve_one. destruct (other (sv_turn s) _) as [n w]. cbv zeta.
  set (s1 := s <| sv_node := n |> <| sv_world := w |>). change (sv_conn s1) with (sv_conn s).
  destruct (take_request_frame f (sv_conn s) more tl Hf Hd) as (rest & E1 & Hd1). rewrite E1. cbn [mbind option_bind].
  unfold NodeServe.serve_request, open_scope. cbv zeta. set (s2 := _ <| sv_thread_id := wf_rid f |>).
  pose proof (serve_chunk_accepts f s2 more m Hf eq_refl) as H2. pose proof (serve_ring_accepts f s2 more m eq_refl) as H3.
  change (sv_node s2) with n in H2, H3. change (sv_world s2) with w in H2, H3. change (sv_turn s2) with (sv_turn s) in H2, H3.
  destruct (is_chunk_request (wf_line f) || _) eqn:Ec.
  - specialize (H2 eq_refl tl Hd1). destruct (frame_answer _ _ _) as [out x]. intros Ha. destruct (H2 Ha) as (s3 & E3 & [R1 R2 R3 R4 R5 R6]).
    rewrite E3. cbn [mbind option_bind]. eexists. split; [reflexivity|]. upd. split_and!; try done. by rewrite R6.
  - assert (Hb : wf_body f = []).
    { apply orb_false_iff in Ec as [_ Ec%negb_false_iff%bool_decide_eq_true]. destruct (fo_body _ Hf) as [E|[_ E]]; [congruence|done]. }
    rewrite Hb in Hd1. specialize (H3 Hb eq_refl tl Hd1). destruct (frame_answer _ _ _) as [out x]. intros Ha.
    destruct (H3 Ha) as (s3 & E3 & [R1 R2 R3 R4 R5 R6]).
    rewrite E3. cbn [mbind option_bind]. eexists. split; [reflexivity|]. upd. split_and!; try done. by rewrite R6.
Qed.

Lemma serve_all_accepts fs s : Forall frame_ok fs → delivers (sv_conn s) (concat (frame_bytes <$> fs)) [RecvClosed] →
  let '(outs, x) := answers fs (sv_turn s) (sv_node s, sv_world s) in
  accepts (length (concat outs)) (cn_calls (sv_conn s)) →
  ∃ s', serve (S (length fs)) s = Some s' ∧ cn_sent (sv_conn s') = cn_sent (sv_conn s) ++ concat outs ∧ (sv_node s', sv_world s') = x.
Proof.
  intros Hf. revert s. induction Hf as [|f fs Hf Hfs IH]; intros s Hd; cbn [answers].
  - intros _. cbn [length NodeServe.serve]. unfold NodeServe.serve_one. destruct (other (sv_turn s) _) as [n w]. cbv zeta.
    destruct (take_request_closed (sv_conn s)) as (rest & E); [exact Hd|]. set (s1 := s <| sv_node := n |> <| sv_world := w |>).
    change (sv_conn s1) with (sv_conn s). rewrite E. cbn [mbind option_bind]. eexists. split; [reflexivity|]. upd.
    rewrite bool_decide_true by done. subst s1. upd. by rewrite app_nil_r.
  - rewrite fmap_cons in Hd. cbn [concat] in Hd.
    pose proof (λ m, serve_one_accepts f s (concat (frame_bytes <$> fs)) m Hf _ Hd) as H1.
    destruct (frame_answer f (sv_turn s) (other (sv_turn s) (sv_node s, sv_world s))) as [out x].
    destruct (answers fs (sv_turn s + 1) x) as [outs x'] eqn:Ea. cbn [concat]. rewrite length_app. intros Ha.
    destruct (H1 _ Ha) as (s1 & E1 & D1 & S1 & A1 & P1 & T1). specialize (IH s1 D1). rewrite T1, P1, Ea in IH.
    destruct (IH A1) as (s' & E' & S' & P'). exists s'. split; [|split; [by rewrite S', S1, <- app_assoc|done]].
    change (serve (S (length (f :: fs))) s) with ('(ok, s) ← serve_one s; if (ok : bool) then serve (S (length fs)) s else Some s).
    rewrite E1. cbn [mbind option_bind]. exact E'.
Qed.
End serving.

(** ** Theorems *)
Section claims.
Context {SH : Sha1} {IN : Inet} {IOk : InetOk IN} {W : Type} (logger : Logger).
Context (exchange_line : bytes → Transport (NodeState * (ChunkNode * W))) (exchange_frame : bytes → FrameTransport W)
  (now : NodeState * (ChunkNode * W) → Z).
Context (env : nat → RequestEnv) (other : nat → ChunkNode * W → ChunkNode * W).

(** C20. Nothing a peer sends harms the process. Whatever arrives on a connection - cut
    anywhere, malformed, too long, announcing bodies that never come - and however
    the disk, the other nodes and the socket answer, serving it until it closes
    leaves the store a store, every member's tables sound, and exactly as many body
    slots in use as before, within [MAX_BODIES]: a slot taken for a body is given back
    on every path. *)
Theorem serving_keeps_the_process ids b fuel (s s' : Server W) :
  calls_sound exchange_line ids → others_sound other ids → sound ids b (sv_node s) →
  serve logger exchange_line exchange_frame now env other fuel s = Some s' → sound ids b (sv_node s').
Proof. intros Hc Ho. by apply serve_sound. Qed.

(** C19. A node answers the requests of a connection one by one, in order. However the
    stream of a careful peer is cut into segments, and whatever the bodies hold, the
    connection is served to its end, and what was sent back is exactly the answers
    of [frame_answer] to the requests the peer wrote, each to the process as the
    requests before it (and the other threads) left it. *)
Theorem requests_answered_in_order fs (s : Server W) st outs x :
  Forall frame_ok fs → cn_in (sv_conn s) = st ++ [RecvClosed] → clean st → stream_bytes st = concat (frame_bytes <$> fs) →
  answers logger exchange_line exchange_frame now env other fs (sv_turn s) (sv_node s, sv_world s) = (outs, x) →
  accepts (length (concat outs)) (cn_calls (sv_conn s)) →
  ∃ s', serve logger exchange_line exchange_frame now env other (S (length fs)) s = Some s' ∧
    cn_sent (sv_conn s') = cn_sent (sv_conn s) ++ concat outs ∧ (sv_node s', sv_world s') = x.
Proof.
  intros Hf Ein Hc E Ea. pose proof (serve_all_accepts logger exchange_line exchange_frame now env other fs s Hf) as H.
  rewrite Ea in H. apply H. by exists st.
Qed.
End claims.

(** ** Witnesses *)
#[local] Existing Instances demo_sha1 demo_sha1_ok quad_inet.

Definition demo_line : bytes → Transport (NodeState * (ChunkNode * list Peer)) := λ _ _ _ σ, ((Refused, []), σ).
Definition demo_frame : bytes → FrameTransport (list Peer) := λ _, demo_send.
Definition demo_env_at : nat → RequestEnv := λ _, mkRequestEnv demo_os demo_schedule (lit "1.000") 1 2.
Definition demo_idle : nat → ChunkNode * list Peer → ChunkNode * list Peer := λ _ x, x.
Definition demo_frames : list WireFrame :=
  [mkWireFrame [] (lit "PING") [];
   mkWireFrame (new_request_id 7 8) (lit "STORE " ++ demo_chunk ++ lit " " ++ dec (N.of_nat (length demo_body))) demo_body;
   mkWireFrame [] (lit "GET " ++ demo_chunk) []].

(** The stream, a few bytes at a time, with interruptions. *)
Definition demo_stream : list RecvEvent :=
  [RecvData (take 3 (concat (frame_bytes <$> demo_frames))); RecvIntr; RecvData (take 40 (drop 3 (concat (frame_bytes <$> demo_frames))));
   RecvData (drop 43 (concat (frame_bytes <$> demo_frames)))].
Definition demo_server : Server (list Peer) :=
  mkServer (mkConn (demo_stream ++ [RecvClosed]) (replicate 200 (SendSome 3)) []) demo_node [] [] no_errors no_requests 0 0 [] 0.
Definition demo_answers := answers demo_logger demo_line demo_frame (λ _, 0%Z) demo_env_at demo_idle demo_frames 0 (demo_node, []).

Lemma demo_frames_ok : Forall frame_ok demo_frames.
Proof.
  repeat (constructor; [split|]); try constructor;
    first [by (left; vm_compute) | by (right; vm_compute) | done | by (apply Nat.leb_le; vm_compute)
          | apply (bool_decide_unpack _); vm_compute; exact Logic.I].
Qed.

Lemma requests_answered_in_order_witness :
  ∃ s', serve demo_logger demo_line demo_frame (λ _, 0%Z) demo_env_at demo_idle 4 demo_server = Some s' ∧
    cn_sent (sv_conn s') = concat demo_answers.1 ∧ (sv_node s', sv_world s') = demo_answers.2.
Proof.
  apply (requests_answered_in_order demo_logger demo_line demo_frame (λ _, 0%Z) demo_env_at demo_idle demo_frames demo_server demo_stream
    demo_answers.1 demo_answers.2).
  - apply demo_frames_ok.
  - reflexivity.
  - by repeat constructor.
  - vm_compute. reflexivity.
  - apply surjective_pairing.
  - split; [by apply Forall_replicate|]. apply Nat.leb_le. vm_compute. reflexivity.
Defined.

(** A body that never comes: its slot is given back. *)
Definition demo_cut : Server (list Peer) :=
  mkServer (mkConn [RecvData (lit "STORE " ++ demo_chunk ++ lit " 7" ++ [NL] ++ lit "abc"); RecvError EAGAIN] [] []) demo_node [] []
    no_errors no_requests 0 0 [] 0.

Lemma serving_keeps_the_process_witness : ∃ s',
  serve demo_logger demo_line demo_frame (λ _, 0%Z) demo_env_at demo_idle 2 demo_cut = Some s' ∧
  sound [(false, demo_a, 2)] 0 (sv_node s').
Proof.
  destruct (serve demo_logger demo_line demo_frame (λ _, 0%Z) demo_env_at demo_idle 2 demo_cut) as [s'|] eqn:E.
  - exists s'. split; [reflexivity|].
    apply (serving_keeps_the_process demo_logger demo_line demo_frame (λ _, 0%Z) demo_env_at demo_idle [(false, demo_a, 2)] 0 2 demo_cut s').
    + split; [by intros rid to line m x id Hid Hm|by intros rid to line m x b Hx].
    + by intros t x b Hx.
    + split; [split|reflexivity|].
      * apply Nat.leb_le. vm_compute. reflexivity.
      * intros s0 [= <-]. apply demo_opened_ok.
      * change (Forall2 member_sound [(false, demo_a, 2)] [demo_member]). constructor; [|constructor].
        split; [exact demo_member_ok|]. split; reflexivity.
    + exact E.
  - exfalso. vm_compute in E. discriminate E.
Defined.
