(* ===== verification/Group.v ===== *)
(** * Group: a tracker group's addresses, and asking it (group.h, group.cpp)

    The strict parser of address lists, and the client's loop over the replicas
    of a group: redirects are followed a bounded number of times, every other
    failure moves on to the next replica, and rounds repeat until the wait is
    over. The exchange, the clock and the sleep are parameters, state passing
    functions. *)
From stdpp Require Import sorting.
From S2P Require Import Prelude Text Net Chord Lookup Routing.

Record Address := mkAddress { ad_ip : bytes; ad_port : Z }.
#[export] Instance Address_eq_dec : EqDecision Address.
Proof. solve_decision. Defined.
#[export] Instance Address_inhabited : Inhabited Address := populate (mkAddress [] 0).

Definition address_text (a : Address) : bytes := ad_ip a ++ lit ":" ++ to_string (ad_port a).

Definition ADDRESS_USAGE : bytes := "an address list is ip:port[,ip:port...]".

(** The loop over the items: [inl] is the error text. *)
Fixpoint parse_addresses `{Sha1, Inet} (items : list bytes) (out : list Address) : bytes + list Address :=
  match items with
  | [] => inr out
  | item :: items =>
      match (if bool_decide (item = []) then inl [] else parse_members item) with
      | inr [p] =>
          let a := mkAddress (peer_ip p) (peer_port p) in
          if bool_decide (a ∈ out) then inl (address_text a ++ lit " is listed twice")
          else parse_addresses items (out ++ [a])
      | _ => inl (lit "not an address: '" ++ item ++ lit "'")
      end
  end.

Definition parse_address_list `{Sha1, Inet} (text : bytes) : bytes + list Address :=
  if bool_decide (text = []) || bool_decide (NL ∈ text) then inl ADDRESS_USAGE
  else match parse_addresses (getlines COMMA text) [] with
       | inl err => inl err
       | inr out => if bool_decide (out = []) || bool_decide (last text = Some COMMA) then inl ADDRESS_USAGE else inr out
       end.

(** ** The client *)

Record GroupIO (St : Type) := mkGroupIO {
  gi_exchange : Address → bytes → St → (Delivery * bytes) * St;
  gi_now : St → Z * St;                       (* milliseconds on a steady clock *)
  gi_sleep : Z → St → St;
}.
Arguments mkGroupIO {St}. Arguments gi_exchange {St}. Arguments gi_now {St}. Arguments gi_sleep {St}.

Record GroupClient := mkGroupClient {
  gc_replicas : list Address; gc_wait_ms : Z; gc_pause_ms : Z; gc_preferred : nat }.

Inductive Followed := GotAnswer (target : Address) (line : bytes) | GotNone (note : bytes).

Section client.
Context `{Sha1, Inet} {St : Type} (io : GroupIO St) (request : bytes).

(** From one replica, along its redirects. *)
Fixpoint follow (hops : nat) (target : Address) (note : bytes) (σ : St) : Followed * St :=
  match hops with
  | 0 => (GotNone note, σ)
  | S hops =>
      let '((d, line), σ) := gi_exchange io target request σ in
      if negb (bool_decide (d = Ok)) then (GotNone (note ++ address_text target ++ lit " " ++ delivery_name d), σ)
      else if starts_with (lit "REDIRECT ") line then
        let note := note ++ address_text target ++ lit " redirected to " ++ drop 9 line ++ lit "; " in
        match parse_address_list (drop 9 line) with
        | inr [to] => follow hops to note σ
        | _ => (GotNone note, σ)
        end
      else if starts_with (lit "UNAVAILABLE") line
      then (GotNone (note ++ address_text target ++ lit " answered " ++ line), σ)
      else (GotAnswer target line, σ)
  end.

(** Where the next request starts: the replica that answered, if it is listed. *)
Definition prefer (replicas : list Address) (preferred : nat) (target : Address) : nat :=
  foldl (λ p i, if bool_decide (replicas !! i = Some target) then i else p) preferred (seq 0 (length replicas)).

(** One round over the replicas, from the preferred one. *)
Fixpoint ask_round (g : GroupClient) (deadline : Z) (ks : list nat) (said : list bytes) (σ : St)
    : option (Address * bytes) * list bytes * St :=
  match ks with
  | [] => (None, said, σ)
  | k :: ks =>
      let n := length (gc_replicas g) in
      let first := (gc_preferred g + k) mod n in
      let '(f, σ) := follow (S n) (gc_replicas g !!! first) [] σ in
      match f with
      | GotAnswer target line => (Some (target, line), said, σ)
      | GotNone note =>
          let said := <[first := note]> said in
          let '(t, σ) := gi_now io σ in
          if (deadline <=? t)%Z then (None, said, σ) else ask_round g deadline ks said σ
      end
  end.

Definition sayings (said : list bytes) : bytes :=
  foldl (λ reply s, if bool_decide (s = []) then reply
                    else reply ++ (if bool_decide (reply = []) then [] else lit "; ") ++ s) [] said.

(** Rounds until an answer or the deadline. [None]: out of fuel. *)
Fixpoint ask_rounds (fuel : nat) (g : GroupClient) (deadline : Z) (said : list bytes) (σ : St)
    : option (bool * bytes * GroupClient * St) :=
  match fuel with
  | 0 => None
  | S fuel =>
      let '(answer, said, σ) := ask_round g deadline (seq 0 (length (gc_replicas g))) said σ in
      match answer with
      | Some (target, line) =>
          Some (true, line, mkGroupClient (gc_replicas g) (gc_wait_ms g) (gc_pause_ms g)
                              (prefer (gc_replicas g) (gc_preferred g) target), σ)
      | None =>
          let '(t, σ) := gi_now io σ in
          let left := (deadline - t)%Z in
          if (left <=? 0)%Z then Some (false, sayings said, g, σ)
          else ask_rounds fuel g deadline said
                 (gi_sleep io (if (left <? gc_pause_ms g)%Z then left else gc_pause_ms g) σ)
      end
  end.

Definition ask_group (fuel : nat) (g : GroupClient) (σ : St) : option (bool * bytes * GroupClient * St) :=
  let '(t, σ) := gi_now io σ in
  ask_rounds fuel g (t + gc_wait_ms g)%Z (replicate (length (gc_replicas g)) []) σ.
End client.

(** ** Addresses survive their text *)

Definition address_ok `{Inet} (a : Address) : Prop :=
  inet_canonical (ad_ip a) = Some (ad_ip a) ∧ (1 <= ad_port a <= 65535)%Z.

Section addresses.
Context {SH : Sha1} {SHok : Sha1Ok SH} {IN : Inet} {IOk : InetOk IN}.

(** An address is made of digits, dots and one colon. *)
Definition address_char (c : Ascii.ascii) : Prop := is_digit c = true ∨ c = DOT ∨ c = COLON.

Lemma address_chars a : address_ok a → Forall address_char (address_text a).
Proof.
  intros [Hip Hp]. unfold address_text. rewrite to_string_nonneg by lia. apply Forall_app. split.
  - apply inet_quad in Hip as [H _]. eapply Forall_impl; [exact H|]. intros c [?|?]; [by left|by (right; left)].
  - constructor; [by (right; right)|]. eapply Forall_impl; [apply dec_digits|]. intros c Hc. by left.
Qed.

Lemma address_text_no a c : address_ok a → is_digit c = false → c ≠ DOT → c ≠ COLON → c ∉ address_text a.
Proof.
  intros Ha H1 H2 H3 Hin. pose proof (address_chars a Ha) as HF. rewrite Forall_forall in HF.
  destruct (HF c Hin) as [?|[?|?]]; congruence.
Qed.

Lemma drop_spaces_id s : Forall (λ c, is_space c = false) s → drop_spaces s = s.
Proof. intros H. destruct H as [|c s Hc Hs]; [done|]. simpl. by rewrite Hc. Qed.

Lemma trim_address a : address_ok a → trim (address_text a) = address_text a.
Proof.
  intros Ha. assert (H : Forall (λ c, is_space c = false) (address_text a)).
  { eapply Forall_impl; [by apply address_chars|]. intros c [Hc|[->| ->]]; [|done|done].
    unfold is_digit, is_space in *. apply andb_true_iff in Hc as [? _]. bool_to_prop.
    apply orb_false_iff. split; [apply N.eqb_neq; lia|]. apply andb_false_iff. right. apply N.leb_gt. lia. }
  unfold trim. rewrite (drop_spaces_id (address_text a)) by done. rewrite drop_spaces_id; [apply reverse_involutive|].
  by apply Forall_reverse.
Qed.

Lemma parse_port_to_string p : (1 <= p <= 65535)%Z → parse_port (to_string p) = Some p.
Proof.
  intros Hp. rewrite to_string_nonneg by lia. set (n := Z.to_N p).
  assert (Hn : (1 <= n <= 65535)%N) by (unfold n; lia).
  unfold parse_port. rewrite bool_decide_false by apply dec_not_nil.
  pose proof (dec_go_length 20 4 n ltac:(simpl; lia)) as Hl. fold (dec n) in Hl.
  simpl orb. destruct (Nat.ltb_spec 5 (length (dec n))); [lia|].
  rewrite dec_val by (simpl; lia). simpl. destruct (N.ltb_spec n 1); [lia|]. destruct (N.ltb_spec 65535 n); [lia|].
  simpl. f_equal. unfold n. lia.
Qed.

Lemma parse_member_address a : address_ok a →
  ∃ id, parse_member (address_text a) = Some (mkPeer id (ad_ip a) (ad_port a)).
Proof.
  intros Ha. pose proof Ha as [Hip Hp]. unfold parse_member.
  rewrite bool_decide_false by (by apply address_text_no).
  assert (Hc : COLON ∉ ad_ip a) by (by apply quad_no).
  assert (Hf : find_char COLON (address_text a) = Some (length (ad_ip a))).
  { unfold address_text. change (lit ":" ++ ?x) with (COLON :: x). by apply find_char_app. }
  rewrite Hf. assert (Hd : drop (S (length (ad_ip a))) (address_text a) = to_string (ad_port a)).
  { unfold address_text. change (lit ":" ++ ?x) with (COLON :: x). rewrite drop_app_ge by lia.
    replace (S (length (ad_ip a)) - length (ad_ip a)) with 1 by lia. done. }
  assert (Ht : take (length (ad_ip a)) (address_text a) = ad_ip a).
  { unfold address_text. by rewrite take_app_length. }
  rewrite Hd, Ht, bool_decide_false.
  - rewrite parse_port_to_string by done. cbn [mbind option_bind]. rewrite c_str_quad by done. rewrite Hip. cbn [mbind option_bind].
    unfold id_of_address. destruct (id_from_key_sha1 (ad_ip a ++ lit ":" ++ to_string (ad_port a))) as (id & -> & _). by exists id.
  - rewrite to_string_nonneg by lia. intros Hin. pose proof (dec_digits (Z.to_N (ad_port a))) as HF.
    rewrite Forall_forall in HF. by discriminate (HF _ Hin).
Qed.

Lemma address_text_not_nil a : address_text a ≠ [].
Proof. unfold address_text. intros E. by apply app_eq_nil in E as [_ E]. Qed.

Lemma parse_members_address a : address_ok a →
  ∃ id, parse_members (address_text a) = inr [mkPeer id (ad_ip a) (ad_port a)].
Proof.
  intros Ha. destruct (parse_member_address a Ha) as (id & Hm). exists id.
  unfold parse_members, getlines. rewrite split_on_single by (by apply address_text_no).
  cbn [last]. rewrite bool_decide_false by (intros [= E]; by apply address_text_not_nil in E).
  cbn [parse_member_lines]. rewrite trim_address by done. rewrite bool_decide_false by apply address_text_not_nil.
  rewrite bool_decide_false.
  - simpl orb. rewrite Hm. done.
  - intros Hh. destruct (address_text a) as [|c l] eqn:E; [done|]. injection Hh as ->.
    assert (HASH ∉ HASH :: l) as [].
    { rewrite <- E. by apply address_text_no. } constructor.
Qed.

Lemma parse_addresses_text l out : Forall address_ok l → NoDup (out ++ l) →
  parse_addresses (address_text <$> l) out = inr (out ++ l).
Proof.
  intros Hl. revert out. induction Hl as [|a l Ha Hl IH]; intros out Hd; [by rewrite app_nil_r|].
  cbn [fmap list_fmap parse_addresses]. rewrite bool_decide_false by apply address_text_not_nil.
  destruct (parse_members_address a Ha) as (id & ->). cbn [peer_ip peer_port].
  replace (mkAddress (ad_ip a) (ad_port a)) with a by (by destruct a).
  rewrite bool_decide_false.
  - rewrite IH; [by rewrite <- app_assoc|]. by rewrite <- app_assoc.
  - apply NoDup_app in Hd as (_ & Hd & _). intros Hin. apply (Hd a Hin). constructor.
Qed.

Definition peer_address (p : Peer) : Address := mkAddress (peer_ip p) (peer_port p).

Lemma parse_member_ok e p : parse_member e = Some p → address_ok (peer_address p).
Proof.
  unfold parse_member. case_bool_decide; [done|]. destruct (find_char _ _); [|done]. case_bool_decide; [done|].
  unfold parse_port. destruct (_ || _); [done|]. destruct (digits_val _) as [v|]; [|done]. cbn [mbind option_bind].
  destruct (N.ltb_spec v 1); [done|]. destruct (N.ltb_spec 65535 v); [done|]. cbn [orb mbind option_bind].
  destruct (inet_canonical _) as [ip|] eqn:Hip; [|done]. cbn [mbind option_bind].
  destruct (id_of_address _ _); [|done]. cbn. intros [= <-]. split; cbn; [by eapply inet_idempotent|lia].
Qed.

Lemma parse_member_lines_ok no lines acc l : parse_member_lines no lines acc = inr l →
  Forall (λ p, address_ok (peer_address p)) acc → Forall (λ p, address_ok (peer_address p)) l.
Proof.
  revert no acc. induction lines as [|raw lines IH]; intros no acc; cbn [parse_member_lines]; [by intros [= ->]|].
  case_match; [apply IH|]. destruct (parse_member _) as [p|] eqn:E; [|done]. intros Hp Hacc.
  apply (IH _ _ Hp). apply Forall_app. split; [done|]. apply Forall_singleton. by eapply parse_member_ok.
Qed.

Lemma parse_members_ok text l : parse_members text = inr l → Forall (λ p, address_ok (peer_address p)) l.
Proof.
  unfold parse_members, validate_ring. destruct (parse_member_lines _ _ _) as [|ms] eqn:E; [done|].
  case_bool_decide; [done|]. destruct (adjacent_clash _) as [[??]|]; [done|]. intros [= <-].
  rewrite merge_sort_Permutation. by eapply parse_member_lines_ok.
Qed.

Lemma parse_addresses_inv items out l : parse_addresses items out = inr l →
  NoDup out → Forall address_ok out → NoDup l ∧ Forall address_ok l.
Proof.
  revert out. induction items as [|item items IH]; intros out; cbn [parse_addresses]; [by intros [= ->]|].
  case_bool_decide; [done|]. destruct (parse_members item) as [|[|p [|]]] eqn:E; try done.
  case_bool_decide as Hin; [done|]. intros Hp Hd Ho. apply (IH _ Hp).
  - apply NoDup_app. split_and!; [done| |apply NoDup_singleton]. intros a Ha Hl.
    apply list_elem_of_singleton in Hl. by subst.
  - apply Forall_app. split; [done|]. apply Forall_singleton.
    apply parse_members_ok in E. by inversion E.
Qed.

Lemma parse_address_list_ok text l : parse_address_list text = inr l → l ≠ [] ∧ NoDup l ∧ Forall address_ok l.
Proof.
  unfold parse_address_list. destruct (_ || _); [done|]. destruct (parse_addresses _ _) as [|out] eqn:E; [done|].
  destruct (_ || _) eqn:Hb; [done|]. intros [= <-]. bool_to_prop. split; [done|].
  apply (parse_addresses_inv _ _ _ E); constructor.
Qed.

Lemma join_last c (ws : list bytes) : ws ≠ [] → last ws ≠ Some [] → last (join c ws) = (ws' ← last ws; last ws').
Proof.
  intros Hne Hl. induction ws as [|w ws IH]; [done|]. destruct ws as [|w' ws]; [done|].
  change (join c (w :: w' :: ws)) with (w ++ c :: join c (w' :: ws)). rewrite last_app.
  change (last (w :: w' :: ws)) with (last (w' :: ws)) in *.
  rewrite (last_cons c). rewrite IH by done. destruct (last (w' :: ws)) as [x|] eqn:E; [|by apply last_None in E].
  cbn. destruct (last x) as [y|] eqn:Ey; [done|]. apply last_None in Ey. by subst.
Qed.

Lemma parse_address_list_text l : l ≠ [] → Forall address_ok l → NoDup l →
  parse_address_list (join COMMA (address_text <$> l)) = inr l.
Proof.
  intros Hne Hok Hd. set (ws := address_text <$> l).
  assert (Hws : ws ≠ []) by (by destruct l).
  assert (Hno : ∀ c, is_digit c = false → c ≠ DOT → c ≠ COLON → Forall (λ w, c ∉ w) ws).
  { intros c ???. apply Forall_fmap. eapply Forall_impl; [exact Hok|]. intros a Ha. by apply address_text_no. }
  assert (Hlast : last (join COMMA ws) = (w ← last ws; last w)).
  { apply join_last; [done|]. intros Hl. apply last_Some_elem_of in Hl. apply list_elem_of_fmap in Hl as (a & E & _).
    by apply (address_text_not_nil a). }
  unfold parse_address_list. rewrite bool_decide_false, bool_decide_false; cbn [orb].
  - unfold getlines. rewrite split_on_join by (done || by apply Hno). rewrite bool_decide_false.
    + unfold ws. rewrite parse_addresses_text by done. cbn [app].
      rewrite bool_decide_false by done. cbn [orb]. fold ws. rewrite bool_decide_false; [done|].
      rewrite Hlast. destruct (last ws) as [w|] eqn:E; [|by apply last_None in E]. cbn. intros Hc.
      apply last_Some_elem_of in E, Hc. pose proof (Hno COMMA eq_refl ltac:(done) ltac:(done)) as HF.
      rewrite Forall_forall in HF. by apply (HF w E).
    + intros Hl. apply last_Some_elem_of in Hl. apply list_elem_of_fmap in Hl as (a & E & _).
      by apply (address_text_not_nil a).
  - by apply join_no, Hno.
  - intros E. rewrite E in Hlast. destruct (last ws) as [w|] eqn:El; [|by apply last_None in El].
    cbn in Hlast. symmetry in Hlast. apply last_None in Hlast. subst w. apply last_Some_elem_of in El.
    apply list_elem_of_fmap in El as (a & E' & _). by apply (address_text_not_nil a).
Qed.
End addresses.

(** ** What the client does *)

Definition is_answer (line : bytes) : Prop :=
  starts_with (lit "REDIRECT ") line = false ∧ starts_with (lit "UNAVAILABLE") line = false.

(** A steady clock: [clock] is what [now] reads, nothing moves it back, and a
    sleep of [d] milliseconds moves it at least that far. *)
Record steady {St} (io : GroupIO St) (clock : St → Z) : Prop := {
  st_now σ : (gi_now io σ).1 = clock σ ∧ (clock σ <= clock (gi_now io σ).2)%Z;
  st_exchange a req σ : (clock σ <= clock (gi_exchange io a req σ).2)%Z;
  st_sleep d σ : (0 <= d)%Z → (clock σ + d <= clock (gi_sleep io d σ))%Z;
}.

Section asking.
Context {SH : Sha1} {SHok : Sha1Ok SH} {IN : Inet} {IOk : InetOk IN}.
Context {St : Type} (io : GroupIO St) (request : bytes) (clock : St → Z) (Hclock : steady io clock).

Lemma follow_spec hops target note σ f σ' : follow io request hops target note σ = (f, σ') →
  (clock σ <= clock σ')%Z ∧
  ∀ a line, f = GotAnswer a line → is_answer line ∧ ∃ σ0 σ1, gi_exchange io a request σ0 = ((Ok, line), σ1).
Proof using Hclock.
  revert target note σ. induction hops as [|hops IH]; intros target note σ; cbn [follow]; [by intros [= <- <-]|].
  pose proof (st_exchange _ _ Hclock target request σ) as Hx.
  destruct (gi_exchange io target request σ) as [[d line] σ1] eqn:E. cbn in Hx.
  case_bool_decide as Hd; cbn [negb]; [|by intros [= <- <-]].
  destruct (starts_with (lit "REDIRECT ") line) eqn:Hr.
  - destruct (parse_address_list _) as [|[|to [|]]]; try (by intros [= <- <-]).
    intros Hf. destruct (IH _ _ _ Hf) as [Hc Ha]. split; [lia|done].
  - destruct (starts_with (lit "UNAVAILABLE") line) eqn:Hu; intros [= <- <-]; [done|].
    split; [done|]. intros a l [= <- <-]. subst d. split; [done|]. by exists σ, σ1.
Qed.

Lemma ask_round_spec g deadline ks said σ r said' σ' : ask_round io request g deadline ks said σ = (r, said', σ') →
  (clock σ <= clock σ')%Z ∧ length said' = length said ∧
  ∀ a line, r = Some (a, line) → is_answer line ∧ ∃ σ0 σ1, gi_exchange io a request σ0 = ((Ok, line), σ1).
Proof using Hclock.
  revert said σ. induction ks as [|k ks IH]; intros said σ; cbn [ask_round]; [by intros [= <- <- <-]|].
  destruct (follow _ _ _ _ _ _) as [f σ1] eqn:Hf. destruct (follow_spec _ _ _ _ _ _ Hf) as [Hc Ha].
  destruct f as [a line|note].
  - intros [= <- <- <-]. split_and!; [done|done|]. intros a' l' [= <- <-]. by apply Ha.
  - destruct (st_now _ _ Hclock σ1) as [Ht Hm]. destruct (gi_now io σ1) as [t σ2]. cbn in Ht, Hm.
    destruct (_ <=? _)%Z.
    + intros [= <- <- <-]. split_and!; [lia|apply length_insert|done].
    + intros Hr. destruct (IH _ _ Hr) as (? & Hl & ?). rewrite length_insert in Hl. split_and!; [lia|done|done].
Qed.

Lemma ask_rounds_spec fuel g deadline said σ : (0 < gc_pause_ms g)%Z → (deadline - clock σ < Z.of_nat fuel)%Z → 0 < fuel →
  ∃ b reply g' σ', ask_rounds io request fuel g deadline said σ = Some (b, reply, g', σ') ∧
    (b = false → g' = g ∧ (deadline <= clock σ')%Z) ∧
    (b = true → is_answer reply ∧ ∃ a σ0 σ1, gi_exchange io a request σ0 = ((Ok, reply), σ1) ∧
       gc_preferred g' = prefer (gc_replicas g) (gc_preferred g) a).
Proof using Hclock.
  intros Hp. revert said σ. induction fuel as [|fuel IH]; intros said σ Hf Hz; [lia|]. cbn [ask_rounds].
  destruct (ask_round _ _ _ _ _ _ _) as [[r said1] σ1] eqn:Hr.
  destruct (ask_round_spec _ _ _ _ _ _ _ _ Hr) as (Hc & _ & Ha). destruct r as [[a line]|].
  - eexists _, _, _, _. split; [reflexivity|]. split; [done|]. intros _.
    destruct (Ha a line eq_refl) as (? & σ0 & σ2 & ?). split; [done|]. by exists a, σ0, σ2.
  - destruct (st_now _ _ Hclock σ1) as [Ht Hm]. destruct (gi_now io σ1) as [t σ2]. cbn in Ht, Hm.
    destruct (Z.leb_spec (deadline - t) 0) as [Hle|Hgt].
    + eexists _, _, _, _. split; [reflexivity|]. split; [|done]. intros _. split; [done|lia].
    + set (d := if (deadline - t <? gc_pause_ms g)%Z then (deadline - t)%Z else gc_pause_ms g).
      assert (Hd : (0 < d)%Z) by (unfold d; destruct (_ <? _)%Z; lia).
      pose proof (st_sleep _ _ Hclock d σ2 ltac:(lia)) as Hs.
      apply IH; lia.
Qed.

(** *** What a request may have done by the time it is answered, or given up *)
Section rule.
Context (R : St → St → Prop) `{!PreOrder R}.
Hypothesis Hx : ∀ a σ d line σ', gi_exchange io a request σ = ((d, line), σ') → ¬ (d = Ok ∧ is_answer line) → R σ σ'.
Hypothesis Hn : ∀ σ, R σ (gi_now io σ).2.
Hypothesis Hs : ∀ d σ, R σ (gi_sleep io d σ).

Definition asked (σ : St) (f : option bytes) (σ' : St) : Prop :=
  match f with
  | Some line => ∃ a σ0, R σ σ0 ∧ is_answer line ∧ gi_exchange io a request σ0 = ((Ok, line), σ')
  | None => R σ σ'
  end.
Lemma asked_after σ σ1 f σ' : R σ σ1 → asked σ1 f σ' → asked σ f σ'.
Proof using PreOrder0. intros H1. destruct f as [line|]; cbn; [|by intros; transitivity σ1]. intros (a & σ0 & H2 & H3). exists a, σ0. split; [by transitivity σ1|done]. Qed.

Lemma follow_rule hops target note σ f σ' : follow io request hops target note σ = (f, σ') →
  asked σ (match f with GotAnswer _ line => Some line | GotNone _ => None end) σ'.
Proof using Hx PreOrder0.
  revert target note σ. induction hops as [|hops IH]; intros target note σ; cbn [follow]; [intros [= <- <-]; cbn; reflexivity|].
  destruct (gi_exchange io target request σ) as [[d line] σ1] eqn:E. case_bool_decide as Hd; cbn [negb].
  2:{ intros [= <- <-]. cbn. eapply Hx; [exact E|]. by intros [? _]. }
  subst d. destruct (starts_with (lit "REDIRECT ") line) eqn:Hr.
  - assert (H1 : R σ σ1) by (eapply Hx; [exact E|]; intros [_ [? _]]; congruence).
    destruct (parse_address_list _) as [|[|to [|]]]; try (intros [= <- <-]; exact H1).
    intros Hf. eapply asked_after; [exact H1|by eapply IH].
  - destruct (starts_with (lit "UNAVAILABLE") line) eqn:Hu; intros [= <- <-].
    + eapply Hx; [exact E|]. intros [_ [_ ?]]. congruence.
    + exists target, σ. by split.
Qed.

Lemma ask_round_rule g deadline ks said σ r said' σ' : ask_round io request g deadline ks said σ = (r, said', σ') → asked σ (snd <$> r) σ'.
Proof using Hx Hn PreOrder0.
  revert said σ. induction ks as [|k ks IH]; intros said σ; cbn [ask_round]; [intros [= <- <- <-]; cbn; reflexivity|].
  destruct (follow _ _ _ _ _ _) as [f σ1] eqn:Hf. apply follow_rule in Hf. destruct f as [a line|note]; [by intros [= <- <- <-]|].
  pose proof (Hn σ1) as H1. destruct (gi_now io σ1) as [t σ2]. cbn in H1, Hf. assert (H2 : R σ σ2) by by transitivity σ1.
  destruct (_ <=? _)%Z; [by intros [= <- <- <-]|]. intros Hr. eapply asked_after; [exact H2|by eapply IH].
Qed.

Lemma ask_rounds_rule fuel g deadline said σ ok reply g' σ' : ask_rounds io request fuel g deadline said σ = Some (ok, reply, g', σ') →
  gc_replicas g' = gc_replicas g ∧ asked σ (if ok then Some reply else None) σ'.
Proof using Hx Hn Hs PreOrder0.
  revert said σ. induction fuel as [|fuel IH]; intros said σ; cbn [ask_rounds]; [done|].
  destruct (ask_round _ _ _ _ _ _ _) as [[r said1] σ1] eqn:Hr. apply ask_round_rule in Hr. destruct r as [[a line]|]; [by intros [= <- <- <- <-]|].
  pose proof (Hn σ1) as H1. destruct (gi_now io σ1) as [t σ2]. cbn in H1, Hr. assert (H2 : R σ σ2) by by transitivity σ1.
  destruct (_ <=? _)%Z; [by intros [= <- <- <- <-]|]. intros H. apply IH in H as [Hg Ha]. split; [done|].
  eapply asked_after; [|exact Ha]. by transitivity σ2.
Qed.

Lemma ask_group_rule fuel g σ ok reply g' σ' : ask_group io request fuel g σ = Some (ok, reply, g', σ') →
  gc_replicas g' = gc_replicas g ∧ asked σ (if ok then Some reply else None) σ'.
Proof using Hx Hn Hs PreOrder0.
  unfold ask_group. pose proof (Hn σ) as H1. destruct (gi_now io σ) as [t σ1]. intros H%ask_rounds_rule. destruct H as [Hg Ha].
  split; [done|]. by eapply asked_after.
Qed.
End rule.

(** *** A replica that answers is found in the first round *)
Section leader.
Context (I : St → Prop) (leader : Address) (ans : bytes) (deadline : Z).
Hypothesis Hx : ∀ a σ, I σ → I (gi_exchange io a request σ).2.
Hypothesis Hn : ∀ σ, I σ → I (gi_now io σ).2 ∧ (clock σ < deadline)%Z.
Hypothesis Hlead : ∀ σ, I σ → (gi_exchange io leader request σ).1 = (Ok, ans).
Hypothesis Hans : is_answer ans.
Hypothesis Hrest : ∀ a σ line, I σ → a ≠ leader → (gi_exchange io a request σ).1 = (Ok, line) → ¬ is_answer line.

Lemma follow_finds hops target note σ : I σ → let '(f, σ') := follow io request hops target note σ in
  I σ' ∧ ((∃ note', f = GotNone note' ∧ (hops = 0 ∨ target ≠ leader)) ∨ f = GotAnswer leader ans).
Proof using Hx Hlead Hans Hrest.
  revert target note σ. induction hops as [|hops IH]; intros target note σ HI; cbn [follow]; [eauto 6|].
  pose proof (Hx target σ HI) as Hi. pose proof (Hlead σ HI) as Hl. pose proof (Hrest target σ) as Hr.
  destruct (decide (target = leader)) as [->|Hne].
  - destruct (gi_exchange io leader request σ) as [[d line] σ1]. cbn in Hi, Hl. injection Hl as -> ->.
    rewrite bool_decide_true by done. cbn [negb]. destruct Hans as [-> ->]. eauto.
  - destruct (gi_exchange io target request σ) as [[d line] σ1]. cbn in Hi, Hr.
    case_bool_decide as Hd; cbn [negb]; [subst d|by eauto 8].
    destruct (starts_with (lit "REDIRECT ") line) eqn:E1.
    + destruct (parse_address_list _) as [|[|to [|]]]; try (by eauto 8).
      specialize (IH to (note ++ address_text target ++ lit " redirected to " ++ drop 9 line ++ lit "; ") σ1 Hi).
      destruct (follow _ _ _ _ _ _) as [f σ2]. destruct IH as [? [(n' & -> & _)| ->]]; eauto 8.
    + destruct (starts_with (lit "UNAVAILABLE") line) eqn:E2; [by eauto 8|].
      destruct (Hr line HI Hne eq_refl). by split.
Qed.

(** It returns, after at most one round per millisecond of its wait. *)
Lemma ask_group_returns fuel g σ : (0 < gc_pause_ms g)%Z → (gc_wait_ms g < Z.of_nat fuel)%Z → 0 < fuel →
  ∃ b reply g' σ', ask_group io request fuel g σ = Some (b, reply, g', σ') ∧
    (b = false → g' = g ∧ (clock σ + gc_wait_ms g <= clock σ')%Z).
Proof using Hclock.
  intros Hp Hf Hz. unfold ask_group. destruct (st_now _ _ Hclock σ) as [Et Hle]. destruct (gi_now io σ) as [t σ1]. cbn in Et, Hle. subst t.
  destruct (ask_rounds_spec fuel g (clock σ + gc_wait_ms g) (replicate (length (gc_replicas g)) []) σ1 Hp ltac:(lia) Hz)
    as (b & reply & g' & σ' & E & Hno & _). by exists b, reply, g', σ'.
Qed.

Lemma ask_round_finds g ks said σ : I σ →
  (∃ k, k ∈ ks ∧ gc_replicas g !!! ((gc_preferred g + k) mod length (gc_replicas g)) = leader) →
  (ask_round io request g deadline ks said σ).1.1 = Some (leader, ans).
Proof using Hclock Hx Hn Hlead Hans Hrest.
  revert said σ. induction ks as [|k ks IH]; intros said σ HI (k0 & Hk & Hk0); [by apply elem_of_nil in Hk|].
  cbn [ask_round]. set (target := gc_replicas g !!! _).
  pose proof (follow_finds (S (length (gc_replicas g))) target [] σ HI) as Hf.
  destruct (follow _ _ _ _ _ _) as [f σ1]. destruct Hf as [HI1 [(note & -> & [?|Ht])| ->]]; [done| |done].
  destruct (st_now _ _ Hclock σ1) as [Et _]. destruct (Hn σ1 HI1) as [HI2 Hlt].
  destruct (gi_now io σ1) as [t σ2]. cbn in Et, HI2. destruct (Z.leb_spec deadline t); [lia|].
  apply IH; [done|]. exists k0. split; [|done]. apply elem_of_cons in Hk as [->|?]; done.
Qed.
End leader.

(** *** What a failed request says of each replica *)

(** The account of one replica: how the exchange with it went, and with each replica
    it was redirected to, [hops] exchanges at most. *)
Inductive told : nat → Address → bytes → Prop :=
  | told_end a : told 0 a []
  | told_failed hops a σ d line σ' :
      gi_exchange io a request σ = ((d, line), σ') → d ≠ Ok →
      told (S hops) a (address_text a ++ lit " " ++ delivery_name d)
  | told_unavailable hops a σ line σ' :
      gi_exchange io a request σ = ((Ok, line), σ') → starts_with (lit "UNAVAILABLE") line = true →
      told (S hops) a (address_text a ++ lit " answered " ++ line)
  | told_lost hops a σ where_to σ' :
      gi_exchange io a request σ = ((Ok, lit "REDIRECT " ++ where_to), σ') →
      (∀ to, parse_address_list where_to ≠ inr [to]) →
      told (S hops) a (address_text a ++ lit " redirected to " ++ where_to ++ lit "; ")
  | told_on hops a σ where_to to more σ' :
      gi_exchange io a request σ = ((Ok, lit "REDIRECT " ++ where_to), σ') →
      parse_address_list where_to = inr [to] → told hops to more →
      told (S hops) a (address_text a ++ lit " redirected to " ++ where_to ++ lit "; " ++ more).

Lemma told_something hops a s : told (S hops) a s → s ≠ [].
Proof. intros H. inversion H; subst; intros E; apply app_eq_nil in E as [_ E]; discriminate E. Qed.

Lemma follow_told hops target note σ note' σ' : follow io request hops target note σ = (GotNone note', σ') →
  ∃ more, note' = note ++ more ∧ told hops target more.
Proof.
  revert target note σ. induction hops as [|hops IH]; intros target note σ; cbn [follow].
  { intros [= <- <-]. exists []. split; [by rewrite app_nil_r|constructor]. }
  destruct (gi_exchange io target request σ) as [[d line] σ1] eqn:E. case_bool_decide as Hd; cbn [negb].
  2: { intros [= <- <-]. eexists. split; [reflexivity|by econstructor]. }
  subst d. destruct (starts_with (lit "REDIRECT ") line) eqn:Er.
  - apply starts_with_Some in Er. change (length (lit "REDIRECT ")) with 9 in Er. set (w := drop 9 line) in *. clearbody w. subst line.
    destruct (parse_address_list w) as [err|[|to [|to2 rest]]] eqn:Ep; try (intros [= <- <-]; eexists; split;
      [reflexivity|eapply told_lost; [exact E|intros to'; congruence]]).
    intros Hf. destruct (IH _ _ _ Hf) as (more & -> & Hm). eexists. split; [|eapply told_on; [exact E|exact Ep|exact Hm]].
    by rewrite <- !app_assoc.
  - destruct (starts_with (lit "UNAVAILABLE") line) eqn:Eu; [|done]. intros [= <- <-].
    eexists. split; [reflexivity|by eapply told_unavailable].
Qed.

(** Each place holds its replica's account, or nothing if it was never reached. *)
Definition accounts (g : GroupClient) (said : list bytes) : Prop :=
  length said = length (gc_replicas g) ∧
  ∀ i s, said !! i = Some s → s = [] ∨ told (S (length (gc_replicas g))) (gc_replicas g !!! i) s.
Definition spoken (i : nat) (said : list bytes) : Prop := ∃ s, said !! i = Some s ∧ s ≠ [].

Lemma accounts_insert g said i note : accounts g said → told (S (length (gc_replicas g))) (gc_replicas g !!! i) note →
  accounts g (<[i := note]> said) ∧ (i < length (gc_replicas g) → spoken i (<[i := note]> said)) ∧
  ∀ j, spoken j said → spoken j (<[i := note]> said).
Proof.
  intros [Hl Ha] Ht. pose proof (told_something _ _ _ Ht) as Hne. split_and!.
  - split; [by rewrite length_insert|]. intros j s Hj. apply list_lookup_insert_Some in Hj as [(<- & -> & _)|[_ Hj]]; [by right|by apply Ha].
  - intros Hi. exists note. split; [|done]. apply list_lookup_insert_eq. lia.
  - intros j (s & Hj & Hs). destruct (decide (i = j)) as [<-|Hij].
    + exists note. split; [|done]. apply list_lookup_insert_eq. by eapply lookup_lt_Some.
    + exists s. by rewrite list_lookup_insert_ne.
Qed.

Lemma ask_round_says g deadline ks said σ said' σ' : ask_round io request g deadline ks said σ = (None, said', σ') →
  accounts g said → accounts g said' ∧ (∀ j, spoken j said → spoken j said') ∧
  ∀ k, head ks = Some k → 0 < length (gc_replicas g) → spoken ((gc_preferred g + k) mod length (gc_replicas g)) said'.
Proof.
  revert said σ. induction ks as [|k ks IH]; intros said σ; cbn [ask_round]; [by intros [= <- <-]|].
  destruct (follow _ _ _ _ _ _) as [f σ1] eqn:Hf. destruct f as [a line|note]; [done|].
  apply follow_told in Hf as (more & -> & Ht). cbn [app]. intros H Ha.
  destruct (accounts_insert g said _ more Ha Ht) as (Ha1 & Hs1 & Hk1). set (i := _ mod _) in *.
  destruct (gi_now io σ1) as [t σ2]. destruct (_ <=? _)%Z.
  - injection H as <- <-. split_and!; [done..|]. intros ? [= <-] Hn. apply Hs1, Nat.mod_upper_bound. lia.
  - destruct (IH _ _ H Ha1) as (Ha2 & Hk2 & _). split_and!; [done|by auto|]. intros ? [= <-] Hn.
    apply Hk2, Hs1, Nat.mod_upper_bound. lia.
Qed.

(** The accounts, one after another. *)
Fixpoint listing (l : list bytes) : bytes :=
  match l with [] => [] | [s] => s | s :: l => s ++ lit "; " ++ listing l end.

Lemma sayings_listing said : sayings said = listing (filter (λ s, s ≠ []) said).
Proof.
  unfold sayings. set (f := λ (reply s : bytes), if bool_decide (s = []) then reply else _).
  assert (H : ∀ said acc, acc ≠ [] → foldl f acc said = listing (acc :: filter (λ s, s ≠ []) said)).
  { clear said. induction said as [|s said IH]; intros acc Hacc; [done|]. cbn [foldl]. unfold f at 2. case_bool_decide as Es.
    - subst s. rewrite filter_cons_False by tauto. by apply IH.
    - rewrite filter_cons_True by done. rewrite (bool_decide_false (acc = [])) by done. rewrite IH.
      + destruct (filter _ said) as [|x l]; cbn [listing]; [done|]. by rewrite <- !app_assoc.
      + by destruct acc. }
  induction said as [|s said IH]; [done|]. cbn [foldl]. unfold f at 2. case_bool_decide as Es.
  - subst s. rewrite filter_cons_False by tauto. apply IH.
  - rewrite filter_cons_True, bool_decide_true by done. cbn [app]. by apply H.
Qed.

(** A request that failed says how every replica it reached answered, the preferred one
    among them. *)
Lemma ask_rounds_says fuel g deadline said σ reply g' σ' :
  ask_rounds io request fuel g deadline said σ = Some (false, reply, g', σ') → accounts g said →
  ∃ said', reply = listing (filter (λ s, s ≠ []) said') ∧ accounts g said' ∧
    (0 < length (gc_replicas g) → spoken (gc_preferred g mod length (gc_replicas g)) said').
Proof.
  revert said σ. induction fuel as [|fuel IH]; intros said σ; cbn [ask_rounds]; [done|].
  destruct (ask_round _ _ _ _ _ _ _) as [[r said1] σ1] eqn:Hr. destruct r as [[a line]|]; [done|]. intros H Ha.
  destruct (ask_round_says _ _ _ _ _ _ _ Hr Ha) as (Ha1 & _ & Hs).
  destruct (gi_now io σ1) as [t σ2]. destruct (_ <=? _)%Z; [|by eapply IH].
  injection H as <- <- <-. exists said1. split; [apply sayings_listing|]. split; [done|]. intros Hn.
  specialize (Hs 0). rewrite Nat.add_0_r in Hs. apply Hs; [|done]. by destruct (length (gc_replicas g)); [lia|].
Qed.

(** Some step of the round reaches every listed replica. *)
Lemma round_reaches g a : a ∈ gc_replicas g →
  ∃ k, k ∈ seq 0 (length (gc_replicas g)) ∧
    gc_replicas g !!! ((gc_preferred g + k) mod length (gc_replicas g)) = a.
Proof.
  intros Ha. apply list_elem_of_lookup in Ha as (i & Hi). pose proof (lookup_lt_Some _ _ _ Hi) as Hlt.
  set (n := length (gc_replicas g)) in *. set (p := gc_preferred g).
  exists ((i + n - p mod n) mod n). split.
  - apply elem_of_seq. pose proof (Nat.mod_upper_bound (i + n - p mod n) n ltac:(lia)). lia.
  - replace ((p + (i + n - p mod n) mod n) mod n) with i; [by apply list_lookup_total_correct|].
    pose proof (Nat.mod_upper_bound p n ltac:(lia)) as Hp. rewrite Nat.Div0.add_mod_idemp_r.
    pose proof (Nat.div_mod_eq p n) as Hdm.
    replace (p + (i + n - p mod n)) with (i + (1 + p / n) * n) by nia.
    rewrite Nat.Div0.mod_add. symmetry. by apply Nat.mod_small.
Qed.
End asking.

Lemma prefer_listed replicas p a : a ∈ replicas → replicas !! prefer replicas p a = Some a.
Proof.
  intros Ha. unfold prefer. assert (H : ∀ ids q,
    replicas !! q = Some a ∨ (∃ i, i ∈ ids ∧ replicas !! i = Some a) →
    replicas !! foldl (λ q i, if bool_decide (replicas !! i = Some a) then i else q) q ids = Some a).
  { induction ids as [|i ids IH]; intros q [Hq|(j & Hj & Hja)]; [done|by apply elem_of_nil in Hj| |]; cbn [foldl].
    - apply IH. case_bool_decide; by left.
    - apply IH. apply elem_of_cons in Hj as [->|Hj]; [left; by rewrite bool_decide_true|right; eauto]. }
  apply H. right. apply list_elem_of_lookup in Ha as (i & Hi). exists i. split; [|done].
  apply elem_of_seq. apply lookup_lt_Some in Hi. lia.
Qed.

Section claims.
Context {SH : Sha1} {SHok : Sha1Ok SH} {IN : Inet} {IOk : InetOk IN}.

(** C35. Asking a group ends with an honest outcome, whatever the replicas answer:
    redirects that name each other cannot loop, and with a steady clock the client
    returns after at most one round per millisecond of its wait. If it fails, the whole
    wait has passed, and the reply is the list of what the replicas said: for each that
    was reached - the preferred one always is - how the exchange with it, and with each
    replica it redirected to, went. If it succeeds, the reply is one a replica gave,
    neither a redirect nor a refusal. And if one listed replica answers while every
    other one fails, refuses or redirects anywhere, the client has that replica's answer
    in the first round. *)
Theorem group_client_answers {St} (io : GroupIO St) clock request fuel g σ :
  steady io clock → (0 < gc_pause_ms g)%Z → (gc_wait_ms g < Z.of_nat fuel)%Z → 0 < fuel →
  ∃ b reply g' σ', ask_group io request fuel g σ = Some (b, reply, g', σ') ∧
    (b = false → (clock σ + gc_wait_ms g <= clock σ')%Z ∧
       ∃ said, reply = listing (filter (λ s, s ≠ []) said) ∧ length said = length (gc_replicas g) ∧
         (∀ i a, gc_replicas g !! i = Some a →
            said !! i = Some [] ∨ ∃ s, said !! i = Some s ∧ told io request (S (length (gc_replicas g))) a s) ∧
         (0 < length (gc_replicas g) → ∃ s, said !! (gc_preferred g mod length (gc_replicas g)) = Some s ∧ s ≠ [])) ∧
    (b = true → is_answer reply ∧ ∃ a σ0 σ1, gi_exchange io a request σ0 = ((Ok, reply), σ1)) ∧
    ∀ (I : St → Prop) leader ans, leader ∈ gc_replicas g → is_answer ans → I σ →
      (∀ a σ, I σ → I (gi_exchange io a request σ).2) →
      (∀ σ', I σ' → I (gi_now io σ').2 ∧ (clock σ' < clock σ + gc_wait_ms g)%Z) →
      (∀ σ, I σ → (gi_exchange io leader request σ).1 = (Ok, ans)) →
      (∀ a σ line, I σ → a ≠ leader → (gi_exchange io a request σ).1 = (Ok, line) → ¬ is_answer line) →
      b = true ∧ reply = ans ∧ gc_replicas g' !! gc_preferred g' = Some leader.
Proof.
  intros Hc Hp Hf Hz. unfold ask_group. destruct (st_now _ _ Hc σ) as [Et Hle].
  destruct (gi_now io σ) as [t σ1] eqn:En. cbn in Et, Hle. subst t.
  set (said := replicate _ _). destruct fuel as [|fuel]; [lia|].
  destruct (ask_rounds_spec io request clock Hc (S fuel) g (clock σ + gc_wait_ms g) said σ1 Hp ltac:(lia) Hz)
    as (b & reply & g' & σ' & E & Hno & Hyes).
  exists b, reply, g', σ'. split_and!; [done|..].
  - intros ->. split; [by apply Hno|].
    destruct (ask_rounds_says io request _ _ _ _ _ _ _ _ E) as (said' & Er & [Hl Ha] & Hs).
    { subst said. split; [by rewrite length_replicate|]. intros i s Hi. apply lookup_replicate_1 in Hi as [-> _]. by left. }
    exists said'. split_and!; [done..| |done]. intros i a Hi.
    destruct (lookup_lt_is_Some_2 said' i) as [s E']; [rewrite Hl; by eapply lookup_lt_Some|].
    destruct (Ha i s E') as [->|Ht]; [by left|]. right. exists s. rewrite (list_lookup_total_correct _ _ _ Hi) in Ht. done.
  - intros Hb. destruct (Hyes Hb) as (? & a & σ0 & σ2 & ? & _). eauto.
  - intros I leader ans Hin Ha HI Hx Hn Hl Hr. destruct (Hn σ HI) as [HI1 _]. rewrite En in HI1. cbn in HI1.
    pose proof (ask_round_finds io request clock Hc I leader ans _ Hx Hn Hl Ha Hr g _ said σ1 HI1 (round_reaches g leader Hin)) as Hround.
    cbn [ask_rounds] in E. destruct (ask_round _ _ _ _ _ _ _) as [[r said1] σ2]. cbn in Hround. subst r.
    injection E as <- <- <- <-. cbn [gc_replicas gc_preferred]. split_and!; [done|done|by apply prefer_listed].
Qed.
End claims.

(** A group of two in which the first redirects to the second. *)
Definition demo_addresses : list Address := [mkAddress "10.0.0.1" 7001; mkAddress "10.0.0.2" 7002].
Definition demo_exchange (a : Address) (request : bytes) (t : Z) : (Delivery * bytes) * Z :=
  ((Ok, if bool_decide (a = mkAddress "10.0.0.2" 7002) then lit "PONG" else lit "REDIRECT 10.0.0.2:7002"), t).
Definition demo_io : GroupIO Z := mkGroupIO demo_exchange (λ t, (t, t)) (λ d t, (t + d)%Z).

Lemma group_client_answers_witness :
  ∃ g' σ', ask_group (H := demo_sha1) (H0 := quad_inet) demo_io (lit "PING") 10 (mkGroupClient demo_addresses 5 1 0) 0%Z =
    Some (true, lit "PONG", g', σ') ∧ gc_replicas g' !! gc_preferred g' = Some (mkAddress "10.0.0.2" 7002).
Proof.
  destruct (group_client_answers (SH := demo_sha1) (IN := quad_inet) demo_io (λ t, t) (lit "PING") 10
    (mkGroupClient demo_addresses 5 1 0) 0%Z) as (b & reply & g' & σ' & E & _ & _ & Hlead).
  - split; intros; cbn; lia.
  - cbn. lia.
  - cbn. lia.
  - lia.
  - destruct (Hlead (λ t, t = 0%Z) (mkAddress "10.0.0.2" 7002) (lit "PONG")) as (-> & -> & Hp).
    + by right; left.
    + by split.
    + done.
    + done.
    + intros t ->. cbn. lia.
    + done.
    + intros a t line _ Ha. cbn. rewrite bool_decide_false by done. intros [= <-] [Hr _]. by discriminate Hr.
    + exists g', σ'. split; [exact E|exact Hp].
Defined.
