(* ===== verification/Manifest.v ===== *)
(** * Manifest: the manifests of a file (transfer.h, transfer.cpp)

    A file is a list of chunks, named by manifests: a data manifest lists
    chunks, an index manifest lists other manifests. Here are their text form,
    the tree an upload builds and the walk a reader makes over it. A read of one
    chunk, [GetFn], is state passing, like a transport. *)
From S2P Require Import Prelude Text Net Chord OrdMap Store Stabilize Chunk.

Definition MANIFEST_FANOUT : nat := 8192.
Definition MAX_MANIFEST_DEPTH : nat := 4.
Definition CHUNK_ATTEMPTS : nat := 3.
Definition U64_MAX : N := (W64N - 1)%N.
#[global] Arguments MANIFEST_FANOUT : simpl never.

(** ** Numbers *)

Definition u64_step (acc : option N) (c : Ascii.ascii) : option N :=
  v ← acc; d ← digit_val c; if ((U64_MAX - d) / 10 <? v)%N then None else Some (v * 10 + d)%N.

Definition parse_u64 (s : bytes) : option N :=
  if bool_decide (s = []) || (20 <? length s) then None
  else if (1 <? length s) && bool_decide (head s = Some (digit_char 0)) then None
  else foldl u64_step (Some 0%N) s.

Definition header_number (line name : bytes) : option N :=
  if negb (bool_decide (take (length name + 1) line = name ++ lit " ")) then None
  else parse_u64 (drop (length name + 1) line).

(** ** Data *)

Inductive ManifestKind := Data | Index.
#[export] Instance ManifestKind_eq_dec : EqDecision ManifestKind.
Proof. solve_decision. Defined.

Record ManifestEntry := mkManifestEntry { me_key : bytes; me_bytes : N }.
#[export] Instance ManifestEntry_eq_dec : EqDecision ManifestEntry.
Proof. solve_decision. Defined.

Record Manifest := mkManifest {
  mf_size : N; mf_chunk : N; mf_kind : ManifestKind; mf_entries : list ManifestEntry }.

Definition kind_name (k : ManifestKind) : bytes := match k with Data => lit "data" | Index => lit "index" end.

(** ** The text form *)

Definition entry_line (e : ManifestEntry) : bytes := me_key e ++ lit " " ++ dec (me_bytes e).

Definition manifest_lines (m : Manifest) : list bytes :=
  [lit "chordfs-manifest 1";
   lit "size " ++ dec (mf_size m);
   lit "chunk " ++ dec (mf_chunk m);
   lit "kind " ++ kind_name (mf_kind m);
   lit "entries " ++ dec (N.of_nat (length (mf_entries m)))] ++ (entry_line <$> mf_entries m).

Definition text_of (lines : list bytes) : bytes := concat ((λ l, l ++ [NL]) <$> lines).

Definition format_manifest (m : Manifest) : bytes := text_of (manifest_lines m).

(** A text that ends in a newline: its pieces but the last, empty one. *)
Definition count_lines (text : bytes) : nat := length (filter (λ c, c = NL) text).
Definition lines_of (text : bytes) : list bytes := take (count_lines text) (split_on NL text).

Definition parse_entry (l : bytes) : option ManifestEntry :=
  if (length l <? 42) || negb (bool_decide (l !! 40 = Some SPACE)) || negb (valid_key (take 40 l)) then None
  else b ← parse_u64 (drop 41 l); Some (mkManifestEntry (take 40 l) b).

(** The entries from line [i] on, summed onto [sum]. *)
Fixpoint parse_entry_lines (i : nat) (lines : list bytes) (sum : N) : bytes + (list ManifestEntry * N) :=
  match lines with
  | [] => inr ([], sum)
  | l :: lines =>
      match parse_entry l with
      | None => inl (lit "bad entry on line " ++ dec (N.of_nat (i + 1)))
      | Some e =>
          if (U64_MAX - sum <? me_bytes e)%N then inl (lit "the entries' byte counts overflow")
          else match parse_entry_lines (i + 1) lines (sum + me_bytes e)%N with
               | inl why => inl why
               | inr (es, total) => inr (e :: es, total)
               end
      end
  end.

(** The shape rule, for one entry and for the rest of them; the entry that breaks it. *)
Definition fits (kind : ManifestKind) (chunk : N) (last : bool) (b : N) : bool :=
  match kind with
  | Data => if last then (1 <=? b)%N && (b <=? chunk)%N else (b =? chunk)%N
  | Index => (1 <=? b)%N && (last || (b mod chunk =? 0)%N)
  end.
Fixpoint misfit (kind : ManifestKind) (chunk : N) (i : nat) (es : list ManifestEntry) : option nat :=
  match es with
  | [] => None
  | e :: es => if fits kind chunk (bool_decide (es = [])) (me_bytes e) then misfit kind chunk (i + 1) es else Some i
  end.

Definition parse_kind (line : bytes) : option ManifestKind :=
  if bool_decide (line = lit "kind data") then Some Data
  else if bool_decide (line = lit "kind index") then Some Index else None.

Definition NOT_A_MANIFEST : bytes := "not a manifest: the first line is not 'chordfs-manifest 1'".

Definition parse_manifest (text : bytes) : bytes + Manifest :=
  if negb (bool_decide (take 19 text = lit "chordfs-manifest 1" ++ [NL])) then inl NOT_A_MANIFEST
  else if negb (bool_decide (last text = Some NL)) then inl (lit "the manifest does not end with a newline")
  else
    let lines_total := count_lines text in
    if lines_total <? 5 then inl (lit "the manifest header is incomplete")
    else if MANIFEST_FANOUT <? lines_total - 5
         then inl (lit "the manifest has more than " ++ dec (N.of_nat MANIFEST_FANOUT) ++ lit " entries")
    else match lines_of text with
         | l0 :: l1 :: l2 :: l3 :: l4 :: rest =>
             if negb (bool_decide (l0 = lit "chordfs-manifest 1")) then inl NOT_A_MANIFEST
             else match header_number l1 (lit "size") with
             | None => inl (lit "bad size line")
             | Some size =>
             match header_number l2 (lit "chunk") with
             | None => inl (lit "bad chunk line (the chunk size must be 1 to " ++ dec MAX_CHUNK ++ lit ")")
             | Some chunk =>
             if (chunk =? 0)%N || (MAX_CHUNK <? chunk)%N
             then inl (lit "bad chunk line (the chunk size must be 1 to " ++ dec MAX_CHUNK ++ lit ")")
             else match parse_kind l3 with
             | None => inl (lit "bad kind line")
             | Some kind =>
             if negb (bool_decide (header_number l4 (lit "entries") = Some (N.of_nat (length rest))))
             then inl (lit "the entries line does not match the number of entries")
             else match parse_entry_lines 5 rest 0 with
             | inl why => inl why
             | inr (entries, sum) =>
             if negb (sum =? size)%N
             then inl (lit "the entries add up to " ++ dec sum ++ lit " bytes, not " ++ dec size)
             else match misfit kind chunk 0 entries with
             | Some i => inl (lit "entry " ++ dec (N.of_nat (i + 1)) ++ lit " has the wrong byte count for a " ++
                              kind_name kind ++ lit " manifest")
             | None =>
             if bool_decide (kind = Index) && bool_decide (entries = [])
             then inl (lit "an index manifest lists no manifests")
             else inr (mkManifest size chunk kind entries)
             end end end end end
         | _ => inl (lit "the manifest header is incomplete")      (* five newlines: not reached *)
         end.

(** ** The tree an upload builds *)

(** [l] in groups of [k], the last one shorter. *)
Fixpoint cut_go {A} (fuel k : nat) (l : list A) : list (list A) :=
  match fuel, l with
  | S fuel, _ :: _ => take k l :: cut_go fuel k (drop k l)
  | _, _ => []
  end.
Definition cut {A} (k : nat) (l : list A) : list (list A) := cut_go (length l) k l.

Section trees.
Context {SH : Sha1}.

Definition covered (es : list ManifestEntry) : N := foldl (λ n e, wrap64N (n + me_bytes e)) 0%N es.
(** One manifest of a level that is too long for the root. *)
Definition group_manifest (chunk : N) (kind : ManifestKind) (es : list ManifestEntry) : Manifest :=
  mkManifest (covered es) chunk kind es.
Definition manifest_entry (m : Manifest) : ManifestEntry := mkManifestEntry (chunk_key (format_manifest m)) (mf_size m).

Record ManifestTree := mkManifestTree { mt_blobs : list bytes; mt_root_key : bytes; mt_depth : nat }.

(** [None]: out of fuel, which the number of chunks rules out. *)
Fixpoint build_levels (fuel : nat) (size chunk : N) (fanout : nat) (kind : ManifestKind) (level : list ManifestEntry)
    (blobs : list bytes) (depth : nat) : option ManifestTree :=
  match fuel with
  | 0 => None
  | S fuel =>
      if length level <=? fanout
      then let root := format_manifest (mkManifest size chunk kind level) in
           Some (mkManifestTree (blobs ++ [root]) (chunk_key root) (S depth))
      else let ms := group_manifest chunk kind <$> cut fanout level in
           build_levels fuel size chunk fanout Index (manifest_entry <$> ms) (blobs ++ (format_manifest <$> ms)) (S depth)
  end.

Definition build_manifests (chunks : list ManifestEntry) (size chunk : N) (fanout : nat) : option ManifestTree :=
  build_levels (S (length chunks)) size chunk (Nat.max 2 (Nat.min fanout MANIFEST_FANOUT)) Data chunks [] 0.

(** ** A reader's walk *)

Record ChunkRef := mkChunkRef { cr_key : bytes; cr_offset : N; cr_bytes : N }.

Record Resolved := mkResolved {
  rs_ok : bool; rs_message : bytes; rs_size : N; rs_chunk : N; rs_chunks : list ChunkRef; rs_depth : nat;
  rs_manifests : nat; rs_manifest_keys : list bytes }.
#[export] Instance Resolved_eta : Eta Resolved := λ r,
  mkResolved (rs_ok r) (rs_message r) (rs_size r) (rs_chunk r) (rs_chunks r) (rs_depth r) (rs_manifests r) (rs_manifest_keys r).
Definition unresolved : Resolved := mkResolved false [] 0 0 [] 0 0 [].

Record Pending := mkPending { pd_key : bytes; pd_offset : N; pd_bytes : N; pd_depth : nat }.

(** Where each entry's bytes start, from [offset]. *)
Fixpoint at_offsets (offset : N) (es : list ManifestEntry) : list (ManifestEntry * N) :=
  match es with
  | [] => []
  | e :: es => (e, offset) :: at_offsets (wrap64N (offset + me_bytes e)) es
  end.
Definition chunk_ref (x : ManifestEntry * N) : ChunkRef := mkChunkRef (me_key x.1) x.2 (me_bytes x.1).
Definition pending (depth : nat) (x : ManifestEntry * N) : Pending := mkPending (me_key x.1) x.2 (me_bytes x.1) depth.

Context {St : Type}.
Definition GetFn : Type := bytes → St → GetOutcome * St.
Variable get : GetFn.

(** At most [more] tries after the first; [stop k]: what the flag says after the
    [k]-th failure. The outcome, with the number of tries. *)
Fixpoint get_attempts (key : bytes) (used more : nat) (stop : nat → bool) (σ : St) : GetOutcome * nat * St :=
  let '(g, σ) := get key σ in
  match more with
  | S more' => if go_ok g || stop used then (g, used, σ) else get_attempts key (S used) more' stop σ
  | 0 => (g, used, σ)
  end.

(** What one manifest, read and parsed, adds to the result and to the next level. *)
Definition take_manifest (p : Pending) (m : Manifest) (r : Resolved) (next : list Pending) : Resolved * list Pending * bool :=
  let r := r <| rs_manifests := S (rs_manifests r) |> <| rs_manifest_keys := rs_manifest_keys r ++ [pd_key p] |> in
  let '(r, ok) :=
    if pd_depth p =? 1 then (r <| rs_size := mf_size m |> <| rs_chunk := mf_chunk m |>, true)
    else if negb (mf_size m =? pd_bytes p)%N
         then (r <| rs_message := lit "manifest " ++ pd_key p ++ lit " covers " ++ dec (mf_size m) ++
                      lit " bytes; its parent says " ++ dec (pd_bytes p) |>, false)
    else if negb (mf_chunk m =? rs_chunk r)%N
         then (r <| rs_message := lit "manifest " ++ pd_key p ++ lit " uses a different chunk size from the root's" |>, false)
    else (r, true) in
  if negb ok then (r, next, false)
  else
    let r := r <| rs_depth := Nat.max (rs_depth r) (pd_depth p) |> in
    let placed := at_offsets (pd_offset p) (mf_entries m) in
    match mf_kind m with
    | Data => (r <| rs_chunks := rs_chunks r ++ (chunk_ref <$> placed) |>, next, true)
    | Index => (r, next ++ (pending (S (pd_depth p)) <$> placed), true)
    end.

Definition resolve_one (attempts : nat) (p : Pending) (r : Resolved) (next : list Pending) (σ : St)
    : Resolved * list Pending * bool * St :=
  if MAX_MANIFEST_DEPTH <? pd_depth p
  then (r <| rs_message := lit "manifest " ++ pd_key p ++ lit " is deeper than " ++
               dec (N.of_nat MAX_MANIFEST_DEPTH) ++ lit " levels" |>, next, false, σ)
  else
    let '(g, _, σ) := get_attempts (pd_key p) 1 (attempts - 1) (λ _, false) σ in
    if negb (go_ok g) then (r <| rs_message := lit "manifest " ++ pd_key p ++ lit ": " ++ go_message g |>, next, false, σ)
    else match parse_manifest (go_body g) with
         | inl why => (r <| rs_message := lit "manifest " ++ pd_key p ++ lit ": " ++ why |>, next, false, σ)
         | inr m => (take_manifest p m r next, σ)
         end.

Fixpoint resolve_level (attempts : nat) (level : list Pending) (r : Resolved) (next : list Pending) (σ : St)
    : Resolved * list Pending * bool * St :=
  match level with
  | [] => (r, next, true, σ)
  | p :: level =>
      let '(r, next, ok, σ) := resolve_one attempts p r next σ in
      if ok then resolve_level attempts level r next σ else (r, next, false, σ)
  end.

(** [None]: out of fuel, which the limit on the depth rules out. *)
Fixpoint resolve_levels (fuel attempts : nat) (level : list Pending) (r : Resolved) (σ : St) : option (Resolved * St) :=
  match level with
  | [] => Some (r <| rs_ok := true |>, σ)
  | _ =>
      match fuel with
      | 0 => None
      | S fuel =>
          let '(r, next, ok, σ) := resolve_level attempts level r [] σ in
          if ok then resolve_levels fuel attempts next r σ else Some (r, σ)
      end
  end.

Definition resolve_manifest (root_key : bytes) (attempts : nat) (σ : St) : option (Resolved * St) :=
  if negb (valid_key root_key)
  then Some (unresolved <| rs_message := lit "the root key is not 40 lowercase hexadecimal characters" |>, σ)
  else resolve_levels (S MAX_MANIFEST_DEPTH) attempts [mkPending root_key 0 0 1] unresolved σ.
End trees.
#[global] Arguments GetFn : clear implicits.

(** ** Numbers *)

Lemma u64_digit_step s v w : (v < W64N)%N →
  foldl u64_step (Some v) s = Some w ↔ foldl digit_step (Some v) s = Some w ∧ (w < W64N)%N.
Proof.
  assert (HN1 : ∀ s, foldl u64_step None s = None) by (by induction s0).
  assert (HN2 : ∀ s, foldl digit_step None s = None) by (by induction s0).
  assert (Hge : ∀ s v w, foldl digit_step (Some v) s = Some w → (v <= w)%N).
  { induction s0 as [|c s0 IH]; cbn; intros v0 w0; [intros [= ->]; lia|]. destruct (digit_val c); cbn; [|by rewrite HN2].
    intros H%IH. lia. }
  revert v. induction s as [|c s IH]; intros v Hv; cbn [foldl].
  { split; [intros [= ->]; done|by intros [[= ->] _]]. }
  unfold u64_step at 2, digit_step at 2. cbn. destruct (digit_val c) as [d|] eqn:Ed; cbn; [|rewrite HN1, HN2; naive_solver].
  apply digit_val_Some in Ed as [_ Hd]. unfold U64_MAX. destruct (N.ltb_spec ((W64N - 1 - d) / 10) v) as [Hlt|Hle].
  - rewrite HN1. split; [done|]. intros [H%Hge Hw]. exfalso.
    assert ((W64N - 1 - d) < 10 * v)%N by (apply N.div_lt_upper_bound in Hlt || (pose proof (N.div_mod (W64N - 1 - d) 10); pose proof (N.mod_lt (W64N - 1 - d) 10); lia)). lia.
  - apply IH. pose proof (N.Div0.mul_div_le (W64N - 1 - d) 10). unfold W64N in *. lia.
Qed.

Lemma parse_u64_spec s n : parse_u64 s = Some n ↔ s = dec n ∧ (n < W64N)%N.
Proof.
  assert (E : parse_u64 s = Some n ↔ parse_canonical 20 s = Some n ∧ (n < W64N)%N).
  { unfold parse_u64, parse_canonical. destruct (_ || _); [naive_solver|]. destruct (_ && _); [naive_solver|].
    by apply u64_digit_step. }
  rewrite E. split.
  - intros [H Hn]. split; [|done]. by apply parse_canonical_inv in H.
  - intros [-> Hn]. split; [|done]. apply parse_canonical_dec; [lia| |lia]. unfold W64N in Hn. change (N.of_nat 20) with 20%N. lia.
Qed.

Lemma header_number_spec line name n :
  header_number line name = Some n ↔ line = name ++ lit " " ++ dec n ∧ (n < W64N)%N.
Proof.
  unfold header_number. case_bool_decide as Et; cbn [negb].
  - rewrite parse_u64_spec. split; intros [H Hn]; (split; [|done]).
    + rewrite <- (take_drop (length name + 1) line) at 1. by rewrite Et, H, <- app_assoc.
    + rewrite H, app_assoc, drop_app_length'; [done|]. rewrite length_app. done.
  - split; [done|]. intros [-> _]. exfalso. apply Et. rewrite app_assoc, take_app_length'; [done|]. by rewrite length_app.
Qed.

(** ** Lines *)

Lemma text_of_cons l ls : text_of (l :: ls) = l ++ NL :: text_of ls.
Proof. unfold text_of. cbn. by rewrite <- app_assoc. Qed.

Lemma split_text_of ls : Forall (λ l, NL ∉ l) ls → split_on NL (text_of ls) = ls ++ [[]].
Proof. induction 1 as [|l ls Hl Hls IH]; [done|]. by rewrite text_of_cons, split_on_app, IH. Qed.

Lemma count_lines_app a b : count_lines (a ++ b) = count_lines a + count_lines b.
Proof. unfold count_lines. by rewrite filter_app, length_app. Qed.
Lemma count_lines_none a : NL ∉ a → count_lines a = 0.
Proof.
  unfold count_lines. induction a as [|c a IH]; [done|]. intros [Hc Ha]%not_elem_of_cons.
  rewrite filter_cons_False by congruence. by apply IH.
Qed.
Lemma count_lines_text_of ls : Forall (λ l, NL ∉ l) ls → count_lines (text_of ls) = length ls.
Proof.
  induction 1 as [|l ls Hl Hls IH]; [done|]. rewrite text_of_cons, count_lines_app, count_lines_none by done.
  change (NL :: text_of ls) with ([NL] ++ text_of ls). by rewrite count_lines_app, IH.
Qed.

Lemma lines_text_of ls : Forall (λ l, NL ∉ l) ls → lines_of (text_of ls) = ls.
Proof.
  intros H. unfold lines_of. by rewrite count_lines_text_of, split_text_of, take_app_length by done.
Qed.

Lemma text_lines_of text : last text = Some NL → text = text_of (lines_of text) ∧ Forall (λ l, NL ∉ l) (lines_of text).
Proof.
  intros Hl. apply last_Some in Hl as [t ->].
  assert (Hw := split_on_words NL t). assert (Hj := join_split_on NL t).
  assert (Ht : ∀ ws, ws ≠ [] → join NL ws ++ [NL] = text_of ws).
  { induction ws as [|w [|w' ws] IH]; intros Hne; [done| |].
    - by rewrite text_of_cons.
    - rewrite text_of_cons, <- IH by done. cbn [join]. by rewrite <- app_assoc. }
  rewrite <- Hj, Ht by apply split_on_not_nil. by rewrite lines_text_of.
Qed.

(** ** Well-formed manifests *)

Fixpoint bytes_of (es : list ManifestEntry) : N :=
  match es with [] => 0 | e :: es => me_bytes e + bytes_of es end%N.

Record manifest_ok (m : Manifest) : Prop := {
  mo_size : mf_size m = bytes_of (mf_entries m);
  mo_u64 : (mf_size m < W64N)%N;
  mo_chunk : (1 <= mf_chunk m <= MAX_CHUNK)%N;
  mo_fanout : length (mf_entries m) ≤ MANIFEST_FANOUT;
  mo_keys : Forall (λ e, valid_key (me_key e) = true) (mf_entries m);
  mo_shape : misfit (mf_kind m) (mf_chunk m) 0 (mf_entries m) = None;
  mo_index : mf_kind m = Index → mf_entries m ≠ [];
}.

Lemma bytes_of_app a b : bytes_of (a ++ b) = (bytes_of a + bytes_of b)%N.
Proof. induction a as [|e a IH]; cbn; [done|]. rewrite IH. lia. Qed.

Lemma key_no_nl key : valid_key key = true → NL ∉ key.
Proof. intros Hv Hin. by pose proof (valid_key_hex _ _ Hv Hin). Qed.

Lemma entry_line_spec l e :
  parse_entry l = Some e ↔ l = entry_line e ∧ valid_key (me_key e) = true ∧ (me_bytes e < W64N)%N.
Proof.
  unfold parse_entry, entry_line. split.
  - destruct (Nat.ltb_spec (length l) 42); [done|]. case_bool_decide as E40; [|done].
    destruct (valid_key (take 40 l)) eqn:Hv; [|done]. cbn [negb orb].
    destruct (parse_u64 (drop 41 l)) as [b|] eqn:Eb; [|done]. intros [= <-]. cbn [me_key me_bytes].
    apply parse_u64_spec in Eb as [Eb Hb]. split; [|done].
    rewrite <- (take_drop 40 l) at 1. f_equal. rewrite (drop_S _ SPACE) by done. by rewrite Eb.
  - intros (-> & Hv & Hb). pose proof (valid_key_length _ Hv) as Hlen.
    assert (Hd : parse_u64 (dec (me_bytes e)) = Some (me_bytes e)) by (by apply parse_u64_spec).
    assert (Hn : dec (me_bytes e) ≠ []) by apply dec_not_nil.
    rewrite !length_app, Hlen. destruct (dec (me_bytes e)) as [|c r] eqn:Edec; [done|].
    replace (40 + (length (lit " ") + length (c :: r)) <? 42) with false by (symmetry; apply Nat.ltb_ge; cbn; lia).
    rewrite bool_decide_true by (by rewrite lookup_app_r, Hlen by lia).
    rewrite take_app_length' by done. rewrite Hv. cbn [negb orb].
    rewrite app_assoc, drop_app_length' by (by rewrite length_app, Hlen). rewrite Hd. by destruct e.
Qed.

Lemma parse_entry_lines_sound i lines sum es total : (sum < W64N)%N → parse_entry_lines i lines sum = inr (es, total) →
  lines = entry_line <$> es ∧ Forall (λ e, valid_key (me_key e) = true) es ∧ total = (sum + bytes_of es)%N ∧ (total < W64N)%N.
Proof.
  revert i sum es. induction lines as [|l lines IH]; intros i sum es Hs; cbn [parse_entry_lines].
  { intros [= <- <-]. cbn. rewrite N.add_0_r. by split_and!. }
  destruct (parse_entry l) as [e|] eqn:El; [|done]. apply entry_line_spec in El as (-> & Hv & Hb).
  unfold U64_MAX. destruct (N.ltb_spec (W64N - 1 - sum) (me_bytes e)); [done|].
  specialize (IH (i + 1) (sum + me_bytes e)%N). destruct (parse_entry_lines _ lines _) as [why|[es' total']]; [done|].
  intros [= <- <-]. destruct (IH es') as (-> & Hf & -> & Ht); [lia|done|]. cbn. split_and!; [done|by constructor|lia|lia].
Qed.

Lemma parse_entry_lines_complete i es sum : Forall (λ e, valid_key (me_key e) = true) es → (sum + bytes_of es < W64N)%N →
  parse_entry_lines i (entry_line <$> es) sum = inr (es, (sum + bytes_of es)%N).
Proof.
  intros Hf. revert i sum. induction Hf as [|e es Hv Hf IH]; intros i sum Hs; cbn in *; [by rewrite N.add_0_r|].
  rewrite (proj2 (entry_line_spec _ e)) by (split_and!; [done..|lia]).
  destruct (N.ltb_spec (U64_MAX - sum) (me_bytes e)); [unfold U64_MAX in *; lia|].
  rewrite IH by lia. by rewrite N.add_assoc.
Qed.

Lemma parse_kind_spec l k : parse_kind l = Some k ↔ l = lit "kind " ++ kind_name k.
Proof.
  unfold parse_kind. case_bool_decide; [subst; by destruct k; split|]. case_bool_decide; [subst; by destruct k; split|].
  split; [done|]. by destruct k.
Qed.

Lemma manifest_lines_no_nl m : manifest_ok m → Forall (λ l, NL ∉ l) (manifest_lines m).
Proof.
  intros Hm. assert (Hd : ∀ a n, NL ∉ a → NL ∉ a ++ dec n) by (intros a n Ha; apply not_elem_of_app; split; [done|apply dec_no_nl]).
  unfold manifest_lines. repeat constructor.
  - apply (bool_decide_unpack _). vm_compute. exact I.
  - apply Hd. apply (bool_decide_unpack _). vm_compute. exact I.
  - apply Hd. apply (bool_decide_unpack _). vm_compute. exact I.
  - destruct (mf_kind m); apply (bool_decide_unpack _); vm_compute; exact I.
  - apply Hd. apply (bool_decide_unpack _). vm_compute. exact I.
  - apply Forall_fmap. eapply Forall_impl; [apply Hm|]. intros e He. unfold compose, entry_line. rewrite app_assoc.
    apply Hd, not_elem_of_app. split; [by apply key_no_nl|]. by intros ?%list_elem_of_singleton.
Qed.

Lemma parse_manifest_sound text m : parse_manifest text = inr m → manifest_ok m ∧ text = format_manifest m.
Proof.
  unfold parse_manifest. case_bool_decide as E0; cbn [negb]; [|done]. case_bool_decide as El; cbn [negb]; [|done].
  destruct (text_lines_of text El) as [Etext Hnl]. cbv zeta. destruct (Nat.ltb_spec (count_lines text) 5) as [|H5]; [done|].
  destruct (Nat.ltb_spec MANIFEST_FANOUT (count_lines text - 5)) as [|Hfan]; [done|].
  rewrite Etext, count_lines_text_of in Hfan by done.
  destruct (lines_of text) as [|l0 [|l1 [|l2 [|l3 [|l4 rest]]]]]; [done..|].
  case_bool_decide as H0; cbn [negb]; [|done]. destruct (header_number l1 _) as [size|] eqn:H1; [|done].
  destruct (header_number l2 _) as [chunk|] eqn:H2; [|done]. destruct (_ || _) eqn:Hc; [done|].
  destruct (parse_kind l3) as [kind|] eqn:H3; [|done]. case_bool_decide as H4; cbn [negb]; [|done].
  destruct (parse_entry_lines 5 rest 0) as [|[es sum]] eqn:Hes; [done|]. destruct (N.eqb_spec sum size) as [->|]; cbn [negb]; [|done].
  destruct (misfit kind chunk 0 es) eqn:Hmis; [done|]. destruct (bool_decide (kind = Index) && _) eqn:Hix; [done|].
  intros [= <-]. apply header_number_spec in H1 as [-> Hsz], H2 as [-> _], H4 as [-> _]. apply parse_kind_spec in H3 as ->.
  apply parse_entry_lines_sound in Hes as (-> & Hk & Hsum & _); [|done]. rewrite length_fmap in *. cbn [length] in Hfan.
  rewrite length_fmap in Hfan. split.
  - split; cbn [mf_size mf_chunk mf_kind mf_entries]; [lia|done|blia|lia|done|done|].
    intros -> ->. by rewrite bool_decide_true in Hix by done.
  - rewrite Etext, H0. reflexivity.
Qed.

Lemma parse_manifest_format m : manifest_ok m → parse_manifest (format_manifest m) = inr m.
Proof.
  intros Hm. pose proof (manifest_lines_no_nl m Hm) as Hnl. unfold parse_manifest.
  rewrite bool_decide_true by (change (format_manifest m) with (text_of (manifest_lines m)); unfold manifest_lines; cbn [app]; rewrite text_of_cons; reflexivity).
  assert (Hlast : last (format_manifest m) = Some NL).
  { unfold format_manifest. assert (Hl : ∀ ls, ls ≠ [] → last (text_of ls) = Some NL); [|by apply Hl].
    induction ls as [|l [|l' ls] IH]; intros Hne; [done|by rewrite text_of_cons; apply (last_snoc NL l)|].
    rewrite text_of_cons, last_app_cons, last_cons. by rewrite IH. }
  rewrite bool_decide_true by done. cbn [negb]. unfold format_manifest. rewrite count_lines_text_of, lines_text_of by done.
  pose proof (mo_fanout _ Hm) as Hfan. pose proof (mo_size _ Hm) as Hsize. pose proof (mo_u64 _ Hm) as Hu.
  destruct (mo_chunk _ Hm) as [Hc1 Hc2]. cbn [manifest_lines app length]. rewrite !length_fmap.
  destruct (Nat.ltb_spec (S (S (S (S (S (length (mf_entries m))))))) 5); [lia|].
  destruct (Nat.ltb_spec MANIFEST_FANOUT (S (S (S (S (S (length (mf_entries m)))))) - 5)); [lia|].
  rewrite bool_decide_true by done. cbn [negb].
  rewrite (proj2 (header_number_spec _ (lit "size") (mf_size m))) by done.
  assert (Hck : (mf_chunk m < W64N)%N) by (unfold MAX_CHUNK, W64N in *; lia).
  rewrite (proj2 (header_number_spec _ (lit "chunk") (mf_chunk m))) by done.
  destruct (N.eqb_spec (mf_chunk m) 0); [lia|]. destruct (N.ltb_spec MAX_CHUNK (mf_chunk m)); [lia|]. cbn [orb].
  rewrite (proj2 (parse_kind_spec _ (mf_kind m))) by done.
  assert (Hlen : (N.of_nat (length (mf_entries m)) < W64N)%N).
  { apply N.le_lt_trans with (N.of_nat MANIFEST_FANOUT); [lia|]. by vm_compute. }
  rewrite bool_decide_true by (by apply header_number_spec). cbn [negb].
  rewrite parse_entry_lines_complete; [|apply Hm|lia]. rewrite N.add_0_l, <- Hsize, N.eqb_refl. cbn [negb].
  rewrite (mo_shape _ Hm). destruct (bool_decide (mf_kind m = Index) && _) eqn:Hix; [|by destruct m].
  apply andb_true_iff in Hix as [Hi%bool_decide_eq_true He%bool_decide_eq_true]. by apply (mo_index _ Hm) in Hi.
Qed.

(** The text of a manifest and the manifest determine each other: [parse_manifest]
    accepts exactly the texts that [format_manifest] gives for a well-formed manifest -
    sizes that add up without wrapping, at most [MANIFEST_FANOUT] entries, the shape of
    its kind - and returns that manifest. No two texts mean the same. *)
Theorem manifest_text_roundtrip text m : parse_manifest text = inr m ↔ manifest_ok m ∧ text = format_manifest m.
Proof.
  split; [apply parse_manifest_sound|]. intros [Hm ->]. by apply parse_manifest_format.
Qed.
