(* ===== verification/ManifestTree.v ===== *)
(** * ManifestTree: trees of manifests, built and walked

    The claims about [build_manifests] and [resolve_manifest] of transfer.cpp: a
    reader accepts only chunks that tile the file, and a tree reads back as the
    chunks it was built from. *)
From S2P Require Import Prelude Text Net Chord OrdMap Store Stabilize Chunk Manifest.

(** ** Groups *)

Section groups.
Context {A : Type}.
Implicit Types l : list A.

Lemma cut_go_concat fuel k l : length l ≤ fuel → 0 < k → concat (cut_go fuel k l) = l.
Proof.
  revert l. induction fuel as [|fuel IH]; intros [|x l] Hl Hk; [done|cbn in Hl; lia|done|].
  cbn [cut_go concat]. rewrite IH; [by rewrite take_drop| |done]. rewrite length_drop. cbn in *. lia.
Qed.
Lemma cut_concat k l : 0 < k → concat (cut k l) = l.
Proof. by apply cut_go_concat. Qed.

Lemma cut_go_length fuel k l : 2 ≤ k → 2 * length (cut_go fuel k l) ≤ length l + 1.
Proof.
  intros Hk. revert l. induction fuel as [|fuel IH]; intros [|x l]; [cbn; lia..|]. cbn [cut_go length].
  specialize (IH (drop k (x :: l))). rewrite length_drop in IH. cbn [length] in IH.
  destruct (decide (length l < k)); [|lia]. rewrite drop_ge in *; [|cbn; lia..]. destruct fuel; cbn in *; lia.
Qed.

Lemma cut_nonempty k l : 0 < k → l ≠ [] → cut k l ≠ [].
Proof. by destruct l. Qed.

Lemma cut_go_sizes fuel k l : 1 ≤ k → Forall (λ g, 1 ≤ length g ≤ k ∧ ∀ x, x ∈ g → x ∈ l) (cut_go fuel k l).
Proof.
  intros Hk. revert l. induction fuel as [|fuel IH]; intros [|x l]; cbn [cut_go]; [constructor..|]. constructor.
  - split; [rewrite length_take; cbn; lia|]. intros y Hy. by apply elem_of_take in Hy as (i & Hi%list_elem_of_lookup_2 & _).
  - eapply Forall_impl; [apply IH|]. intros g [H1 H2]. split; [done|]. intros y Hy%H2.
    rewrite <- (take_drop k (x :: l)). apply elem_of_app. by right.
Qed.
End groups.

(** ** The shape rule *)

Fixpoint shaped (kind : ManifestKind) (chunk : N) (es : list ManifestEntry) : Prop :=
  match es with
  | [] => True
  | e :: es => fits kind chunk (bool_decide (es = [])) (me_bytes e) = true ∧ shaped kind chunk es
  end.
Definition full (kind : ManifestKind) (chunk : N) (e : ManifestEntry) : Prop := fits kind chunk false (me_bytes e) = true.

Lemma misfit_shaped kind chunk i es : misfit kind chunk i es = None ↔ shaped kind chunk es.
Proof.
  revert i. induction es as [|e es IH]; intros i; [done|]. cbn [misfit shaped]. rewrite <- (IH (i + 1)).
  destruct (fits _ _ _ _); [tauto|]. split; [done|by intros []].
Qed.

Lemma shaped_app kind chunk a b : b ≠ [] → shaped kind chunk (a ++ b) ↔ Forall (full kind chunk) a ∧ shaped kind chunk b.
Proof.
  intros Hb. induction a as [|e a IH]; cbn [app shaped]; [by split; [intros ?; split; [constructor|]|intros []]|].
  rewrite IH, Forall_cons, bool_decide_false by (by destruct a). unfold full. tauto.
Qed.

Lemma full_last kind chunk e : (1 <= chunk)%N → full kind chunk e → fits kind chunk true (me_bytes e) = true.
Proof.
  unfold full, fits. intros Hc. destruct kind.
  - intros ->%N.eqb_eq. apply andb_true_iff. rewrite !N.leb_le. lia.
  - intros [H _]%andb_true_iff. by rewrite H.
Qed.

Lemma full_shaped kind chunk es : (1 <= chunk)%N → Forall (full kind chunk) es → shaped kind chunk es.
Proof.
  intros Hc. induction 1 as [|e es He Hes IH]; [done|]. split; [|done]. case_bool_decide; [by eapply full_last|done].
Qed.

Lemma shaped_positive kind chunk es e : (1 <= chunk)%N → shaped kind chunk es → e ∈ es → (1 <= me_bytes e)%N.
Proof.
  intros Hc. induction es as [|x es IH]; [by intros _ ?%elem_of_nil|]. intros [Hx Hes] [->|He]%elem_of_cons; [|by apply IH].
  unfold fits in Hx. destruct kind; [destruct (bool_decide _)|]; bool_to_prop; lia.
Qed.

(** A group of full entries is itself a full entry of an index. *)
Lemma full_group kind chunk es : (1 <= chunk)%N → es ≠ [] → Forall (full kind chunk) es →
  (1 <= bytes_of es)%N ∧ (bytes_of es mod chunk = 0)%N.
Proof.
  intros Hc Hne Hf. assert (Hone : ∀ e, full kind chunk e → (1 <= me_bytes e)%N ∧ (me_bytes e mod chunk = 0)%N).
  { intros e He. unfold full, fits in He. destruct kind.
    - apply N.eqb_eq in He. rewrite He. split; [done|]. apply N.Div0.mod_same.
    - apply andb_true_iff in He as [H1%N.leb_le H2]. by apply N.eqb_eq in H2. }
  assert (Hm : (bytes_of es mod chunk = 0)%N).
  { clear Hne. induction Hf as [|e es He Hf IH]; [by apply N.Div0.mod_0_l|]. cbn [bytes_of].
    rewrite N.Div0.add_mod, IH, (proj2 (Hone e He)). by apply N.Div0.mod_0_l. }
  split; [|done]. destruct Hf as [|e es He Hf]; [done|]. cbn [bytes_of]. destruct (Hone e He). lia.
Qed.

Lemma shaped_group kind chunk es : (1 <= chunk)%N → es ≠ [] → shaped kind chunk es → (1 <= bytes_of es)%N.
Proof.
  intros Hc Hne Hs. destruct es as [|e es]; [done|]. cbn [bytes_of].
  pose proof (shaped_positive kind chunk (e :: es) e Hc Hs ltac:(apply elem_of_cons; by left)). lia.
Qed.

(** ** The levels of a tree *)
Section levels.
Context {SH : Sha1} {SHok : Sha1Ok SH}.

Lemma covered_bytes es : (bytes_of es < W64N)%N → covered es = bytes_of es.
Proof.
  unfold covered. assert (H : ∀ n, (n + bytes_of es < W64N)%N → foldl (λ n e, wrap64N (n + me_bytes e)) n es = (n + bytes_of es)%N).
  { induction es as [|e es IH]; intros n Hn; cbn [foldl bytes_of] in *; [lia|].
    unfold wrap64N. rewrite N.mod_small by lia. rewrite IH by lia. lia. }
  intros Hes. rewrite H; lia.
Qed.

Lemma bytes_of_concat gs g : g ∈ gs → (bytes_of g <= bytes_of (concat gs))%N.
Proof.
  induction gs as [|x gs IH]; [by intros ?%elem_of_nil|]. cbn [concat]. rewrite bytes_of_app.
  intros [->|Hg]%elem_of_cons; [lia|]. specialize (IH Hg). lia.
Qed.

Lemma bytes_of_entries chunk kind gs : (bytes_of (concat gs) < W64N)%N →
  bytes_of (manifest_entry <$> (group_manifest chunk kind <$> gs)) = bytes_of (concat gs).
Proof.
  induction gs as [|g gs IH]; intros Hw; [done|]. cbn [fmap list_fmap concat bytes_of] in *. rewrite bytes_of_app in *.
  rewrite IH by lia. cbn. rewrite covered_bytes by lia. done.
Qed.

Lemma sha1_is_key s : valid_key (sha1 s) = true.
Proof. unfold valid_key. rewrite sha1_length. cbn [Nat.eqb andb]. apply forallb_Forall, sha1_lower_hex. Qed.

Lemma cut_go_shaped fuel f kind chunk l : length l ≤ fuel → 0 < f → (1 <= chunk)%N → (bytes_of l < W64N)%N → shaped kind chunk l →
  let gs := cut_go fuel f l in
  Forall (λ g, g ≠ [] ∧ length g ≤ f ∧ shaped kind chunk g) gs ∧
  shaped Index chunk (manifest_entry <$> (group_manifest chunk kind <$> gs)).
Proof.
  intros Hl Hf Hc. revert l Hl. induction fuel as [|fuel IH]; intros [|x l] Hl Hw Hs; [done|cbn in Hl; lia|done|].
  cbn [cut_go]. set (a := take f (x :: l)). set (b := drop f (x :: l)).
  assert (Eab : x :: l = a ++ b) by (symmetry; apply take_drop). rewrite Eab in Hs, Hw. rewrite bytes_of_app in Hw.
  assert (Ha : a ≠ []) by (subst a; destruct f; [lia|done]). assert (Hlb : length b ≤ fuel) by (subst b; rewrite length_drop; cbn in *; lia).
  assert (Hla : length a ≤ f) by (subst a; rewrite length_take; lia). clearbody a b. clear Eab.
  cbn [fmap list_fmap shaped]. change (me_bytes (manifest_entry (group_manifest chunk kind a))) with (covered a).
  rewrite covered_bytes by lia. destruct b as [|y b].
  - assert (Eg : cut_go fuel f ([] : list ManifestEntry) = []) by (by destruct fuel). rewrite Eg. rewrite app_nil_r in Hs.
    split; [by repeat constructor|]. cbn. split; [|done]. apply andb_true_iff. split; [|done]. apply N.leb_le. by eapply shaped_group.
  - apply shaped_app in Hs as [Hfa Hb]; [|done]. destruct (IH (y :: b) Hlb ltac:(lia) Hb) as [IH1 IH2]. cbv zeta in *.
    split; [constructor; [split_and!; [done..|by apply full_shaped]|done]|]. split; [|done].
    destruct (full_group kind chunk a Hc Ha Hfa) as [H1 H2].
    rewrite bool_decide_false by (destruct fuel; [cbn in Hlb; lia|done]). cbn. rewrite H2.
    apply andb_true_iff. split; [by apply N.leb_le|done].
Qed.

(** A level that can be cut into manifests. *)
Record level_ok (size chunk : N) (kind : ManifestKind) (level : list ManifestEntry) : Prop := {
  lv_size : bytes_of level = size;
  lv_u64 : (size < W64N)%N;
  lv_chunk : (1 <= chunk <= MAX_CHUNK)%N;
  lv_keys : Forall (λ e, valid_key (me_key e) = true) level;
  lv_shape : shaped kind chunk level;
  lv_index : kind = Index → level ≠ [];
}.

Lemma level_root size chunk kind level f : level_ok size chunk kind level → length level ≤ f → f ≤ MANIFEST_FANOUT →
  manifest_ok (mkManifest size chunk kind level).
Proof. intros [] Hl Hf. split; cbn; [done..|lia|done|by apply misfit_shaped|done]. Qed.

Lemma level_groups size chunk kind level f : level_ok size chunk kind level → 2 ≤ f → f ≤ MANIFEST_FANOUT → f < length level →
  let gs := cut f level in let ms := group_manifest chunk kind <$> gs in
  Forall manifest_ok ms ∧ concat gs = level ∧ level_ok size chunk Index (manifest_entry <$> ms).
Proof.
  intros [Hsz Hu Hc Hk Hs Hi] Hf2 Hf Hlen gs ms.
  assert (Egs : concat gs = level) by (apply cut_concat; lia).
  destruct (cut_go_shaped (length level) f kind chunk level) as [Hg1 Hg2]; [done|lia|lia|lia|done|]. cbv zeta in *.
  fold (cut f level) in Hg1, Hg2. fold gs in Hg1, Hg2. fold ms in Hg2. split; [|split; [done|]].
  - subst ms. apply Forall_fmap, Forall_forall. intros g Hg. rewrite Forall_forall in Hg1. destruct (Hg1 g Hg) as (Hne & Hl & Hsh).
    pose proof (bytes_of_concat gs g Hg) as Hb. rewrite Egs in Hb. unfold compose, group_manifest.
    split; cbn; [by apply covered_bytes; lia|rewrite covered_bytes; lia|done|lia| |by apply misfit_shaped|done].
    apply Forall_forall. intros e He. rewrite Forall_forall in Hk. apply Hk. rewrite <- Egs. apply list_elem_of_In, in_concat. exists g. by split; apply list_elem_of_In.
  - split; [|done..| | |].
    + subst ms. rewrite bytes_of_entries; rewrite Egs; lia.
    + subst ms. apply Forall_fmap, Forall_fmap, Forall_forall. intros g _. cbn. apply sha1_is_key.
    + done.
    + intros _ E. subst ms. apply fmap_nil_inv, fmap_nil_inv in E. subst gs. apply (cut_nonempty f level); [lia|by destruct level; cbn in Hlen; [lia|]|done].
Qed.
End levels.

(** ** Tilings *)

Fixpoint contiguous (a : N) (l : list (N * N)) (b : N) : Prop :=
  match l with [] => a = b | (o, n) :: l => o = a ∧ contiguous (a + n) l b end.
(** The spans, in some order, cover [a, b) without gap or overlap. *)
Definition tiles (a : N) (l : list (N * N)) (b : N) : Prop := ∃ l', l ≡ₚ l' ∧ contiguous a l' b.

Lemma contiguous_app a l l' b : contiguous a (l ++ l') b ↔ ∃ c, contiguous a l c ∧ contiguous c l' b.
Proof.
  revert a. induction l as [|[o n] l IH]; intros a; cbn [app contiguous]; [naive_solver|]. rewrite IH. naive_solver.
Qed.
Lemma contiguous_le a l b : contiguous a l b → (a <= b)%N.
Proof. revert a. induction l as [|[o n] l IH]; intros a; cbn; [lia|]. intros [-> H%IH]. lia. Qed.

Lemma tiles_bound a l b o n : tiles a l b → (o, n) ∈ l → (a <= o)%N ∧ (o + n <= b)%N.
Proof.
  intros (l' & Hp & Hc) Hin. rewrite Hp in Hin. apply list_elem_of_split in Hin as (l1 & l2 & ->).
  apply contiguous_app in Hc as (c & H1 & -> & H2). apply contiguous_le in H1, H2. lia.
Qed.

(** One span replaced by a tiling of it. *)
Lemma tiles_replace a o n sub rest b : tiles a ((o, n) :: rest) b → contiguous o sub (o + n) → tiles a (sub ++ rest) b.
Proof.
  intros (l' & Hp & Hc) Hs. assert (Hin : (o, n) ∈ l') by (rewrite <- Hp; apply elem_of_cons; by left).
  apply list_elem_of_split in Hin as (l1 & l2 & ->). exists (l1 ++ sub ++ l2). split.
  - rewrite <- Permutation_middle in Hp. apply Permutation_cons_inv in Hp. rewrite Hp. apply Permutation_app_swap_app.
  - apply contiguous_app in Hc as (c & H1 & -> & H2). apply contiguous_app. exists c. split; [done|].
    apply contiguous_app. by exists (c + n)%N.
Qed.

#[export] Instance tiles_proper a : Proper ((≡ₚ) ==> (=) ==> iff) (tiles a).
Proof. intros l l' Hp b ? <-. split; intros (k & Hk & Hc); exists k; (split; [|done]); by rewrite <- Hk, Hp. Qed.

(** ** What a reader finds *)

Definition span (x : ManifestEntry * N) : N * N := (x.2, me_bytes x.1).
Definition ref_span (c : ChunkRef) : N * N := (cr_offset c, cr_bytes c).
Definition pending_span (p : Pending) : N * N := (pd_offset p, pd_bytes p).

Lemma ref_spans (x : list (ManifestEntry * N)) : ref_span <$> (chunk_ref <$> x) = span <$> x.
Proof. by rewrite <- list_fmap_compose. Qed.
Lemma pending_spans d (x : list (ManifestEntry * N)) : pending_span <$> (pending d <$> x) = span <$> x.
Proof. by rewrite <- list_fmap_compose. Qed.

Lemma at_offsets_contiguous o es : (o + bytes_of es < W64N)%N → contiguous o (span <$> at_offsets o es) (o + bytes_of es).
Proof.
  revert o. induction es as [|e es IH]; intros o Ho; cbn [at_offsets fmap list_fmap contiguous bytes_of] in *; [cbn; lia|].
  split; [done|]. unfold wrap64N. rewrite N.mod_small by lia. rewrite N.add_assoc. apply IH. lia.
Qed.

Section walk.
Context {SH : Sha1} {St : Type} (get : GetFn St).

(** What holds of the result between two manifests, while [todo] are still to be read. *)
Record walk_ok (r : Resolved) (todo : list Pending) : Prop := {
  wk_tiles : tiles 0 ((ref_span <$> rs_chunks r) ++ (pending_span <$> todo)) (rs_size r);
  wk_u64 : (rs_size r < W64N)%N;
  wk_chunk : (1 <= rs_chunk r <= MAX_CHUNK)%N;
  wk_refs : Forall (λ c, valid_key (cr_key c) = true ∧ (1 <= cr_bytes c <= rs_chunk r)%N) (rs_chunks r);
  wk_depth : rs_depth r ≤ MAX_MANIFEST_DEPTH;
  wk_count : rs_manifests r = length (rs_manifest_keys r);
}.

Lemma shaped_data_bytes chunk es : (1 <= chunk)%N → shaped Data chunk es → Forall (λ e, (1 <= me_bytes e <= chunk)%N) es.
Proof.
  intros Hc. induction es as [|e es IH]; [done|]. intros [He Hes]. constructor; [|by apply IH].
  unfold fits in He. destruct (bool_decide _); bool_to_prop; lia.
Qed.

Lemma at_offsets_fst o es : (at_offsets o es).*1 = es.
Proof. revert o. induction es as [|e es IH]; intros o; cbn; [done|]. by rewrite IH. Qed.

Lemma data_refs m o : manifest_ok m → mf_kind m = Data →
  Forall (λ c, valid_key (cr_key c) = true ∧ (1 <= cr_bytes c <= mf_chunk m)%N) (chunk_ref <$> at_offsets o (mf_entries m)).
Proof.
  intros Hm Hk. destruct (mo_chunk _ Hm) as [Hc _]. pose proof (mo_keys _ Hm) as Hkeys.
  pose proof (mo_shape _ Hm) as Hs. rewrite Hk in Hs. apply misfit_shaped, shaped_data_bytes in Hs; [|done].
  assert (Hall : Forall (λ e, valid_key (me_key e) = true ∧ (1 <= me_bytes e <= mf_chunk m)%N) (mf_entries m)).
  { apply Forall_forall. intros e He. rewrite Forall_forall in Hkeys, Hs. split; [by apply Hkeys|by apply Hs]. }
  rewrite <- (at_offsets_fst o (mf_entries m)) in Hall. apply Forall_fmap. by apply Forall_fmap in Hall.
Qed.

(** The root: its entries tile the file. *)
Lemma take_root p m : manifest_ok m → pd_depth p = 1 → pd_offset p = 0%N →
  let '(r', next', ok) := take_manifest p m unresolved [] in
  ok = true ∧ walk_ok r' next' ∧ Forall (λ q, pd_depth q = 2) next' ∧ rs_ok r' = false.
Proof.
  intros Hm Hd Ho. unfold take_manifest. rewrite Hd, Ho. cbn [Nat.eqb negb]. upd.
  pose proof (mo_size _ Hm) as Hsz. pose proof (mo_u64 _ Hm) as Hu.
  pose proof (at_offsets_contiguous 0 (mf_entries m) ltac:(lia)) as Hct. rewrite N.add_0_l, <- Hsz in Hct.
  destruct (mf_kind m) eqn:Hk; (split; [done|split; [|split; [|done]]]).
  - split; upd; [|done|apply Hm|by apply data_refs|cbn; unfold MAX_MANIFEST_DEPTH; lia|done].
    change (rs_chunks unresolved) with ([] : list ChunkRef). rewrite app_nil_l, app_nil_r, ref_spans. by eexists.
  - constructor.
  - split; upd; [|done|apply Hm|constructor|cbn; unfold MAX_MANIFEST_DEPTH; lia|done].
    cbn [rs_chunks unresolved fmap list_fmap app]. rewrite pending_spans. by eexists.
  - rewrite app_nil_l. apply Forall_fmap, Forall_forall. done.
Qed.

Lemma take_inner p m r todo next : manifest_ok m → pd_depth p ≠ 1 → pd_depth p ≤ MAX_MANIFEST_DEPTH → walk_ok r (p :: todo ++ next) →
  let '(r', next', ok) := take_manifest p m r next in
  rs_ok r' = rs_ok r ∧ (ok = true → walk_ok r' (todo ++ next')) ∧
  ∃ more, next' = next ++ more ∧ Forall (λ q, pd_depth q = S (pd_depth p)) more.
Proof.
  intros Hm Hd Hd4 Hw. unfold take_manifest. destruct (Nat.eqb_spec (pd_depth p) 1); [done|].
  destruct (N.eqb_spec (mf_size m) (pd_bytes p)) as [Hsz|]; cbn [negb]; [|split_and!; [done..|exists []; by rewrite app_nil_r]].
  upd. destruct (N.eqb_spec (mf_chunk m) (rs_chunk r)) as [Hck|]; cbn [negb]; [|split_and!; [done..|exists []; by rewrite app_nil_r]].
  destruct Hw as [Ht Hu Hc Hrefs Hdp Hcnt]. rewrite mo_size in Hsz by done.
  assert (Hb : (pd_offset p + pd_bytes p <= rs_size r)%N).
  { eapply tiles_bound; [exact Ht|]. apply elem_of_app. right. apply elem_of_cons. by left. }
  pose proof (at_offsets_contiguous (pd_offset p) (mf_entries m) ltac:(lia)) as Hct. rewrite Hsz in Hct.
  cbn [fmap list_fmap] in Ht. rewrite <- Permutation_middle in Ht. unfold pending_span in Ht at 1.
  pose proof (tiles_replace _ _ _ _ _ _ Ht Hct) as Ht'. rewrite fmap_app in Ht'.
  destruct (mf_kind m) eqn:Hk; (split; [done|split]); upd.
  - intros _. split; upd; [|done|done| |lia|rewrite length_app; cbn; lia].
    + rewrite !fmap_app, ref_spans. eapply tiles_proper; [|done|exact Ht']. solve_Permutation.
    + apply Forall_app. split; [done|]. rewrite <- Hck. by apply data_refs.
  - exists []. by rewrite app_nil_r.
  - intros _. split; upd; [|done|done|done|lia|rewrite length_app; cbn; lia].
    rewrite !fmap_app, pending_spans. eapply tiles_proper; [|done|exact Ht']. solve_Permutation.
  - eexists. split; [done|]. apply Forall_fmap, Forall_forall. done.
Qed.

Lemma resolve_one_ok attempts p r todo next σ : pd_depth p ≠ 1 → walk_ok r (p :: todo ++ next) → rs_ok r = false →
  let '(r', next', ok, _) := resolve_one get attempts p r next σ in
  rs_ok r' = false ∧ (ok = true → pd_depth p ≤ MAX_MANIFEST_DEPTH ∧ walk_ok r' (todo ++ next')) ∧
  ∃ more, next' = next ++ more ∧ Forall (λ q, pd_depth q = S (pd_depth p)) more.
Proof.
  intros Hd Hw Hr. assert (Hno : ∃ more, next = next ++ more ∧ Forall (λ q, pd_depth q = S (pd_depth p)) more)
    by (exists []; by rewrite app_nil_r).
  unfold resolve_one. destruct (Nat.ltb_spec MAX_MANIFEST_DEPTH (pd_depth p)); [done|].
  destruct (get_attempts get _ _ _ _ σ) as [[g used] σ']. destruct (go_ok g); cbn [negb]; [|done].
  destruct (parse_manifest (go_body g)) as [why|m] eqn:Em; [done|]. apply parse_manifest_sound in Em as [Hm _].
  pose proof (take_inner p m r todo next Hm Hd ltac:(lia) Hw) as Ht. destruct (take_manifest p m r next) as [[r' next'] ok].
  destruct Ht as (E & H1 & H2). rewrite E. naive_solver.
Qed.

Lemma resolve_level_ok attempts d level r next σ : d ≠ 1 → Forall (λ p, pd_depth p = d) level → Forall (λ p, pd_depth p = S d) next →
  walk_ok r (level ++ next) → rs_ok r = false →
  let '(r', next', ok, _) := resolve_level get attempts level r next σ in
  rs_ok r' = false ∧ (ok = true → (level ≠ [] → d ≤ MAX_MANIFEST_DEPTH) ∧ walk_ok r' next' ∧ Forall (λ p, pd_depth p = S d) next').
Proof.
  intros Hd1. revert r next σ. induction level as [|p level IH]; intros r next σ Hl Hn Hw Hr; cbn [resolve_level]; [done|].
  apply Forall_cons in Hl as [Hd Hl]. pose proof (resolve_one_ok attempts p r level next σ ltac:(congruence) Hw Hr) as H1.
  destruct (resolve_one get attempts p r next σ) as [[[r1 next1] ok] σ1]. destruct H1 as (Hr1 & Hok & more & -> & Hmore).
  destruct ok; [|done]. destruct (Hok eq_refl) as [Hd4 Hw1].
  specialize (IH r1 (next ++ more) σ1 Hl). rewrite Hd in *.
  specialize (IH ltac:(by apply Forall_app) Hw1 Hr1). destruct (resolve_level get attempts level r1 _ σ1) as [[[r2 next2] ok2] σ2].
  naive_solver.
Qed.

Lemma resolve_levels_ok fuel attempts d level r σ : 2 ≤ d ≤ MAX_MANIFEST_DEPTH + 1 → MAX_MANIFEST_DEPTH + 2 - d ≤ fuel →
  Forall (λ p, pd_depth p = d) level → walk_ok r level → rs_ok r = false →
  ∃ r' σ', resolve_levels get fuel attempts level r σ = Some (r', σ') ∧ (rs_ok r' = true → walk_ok r' []).
Proof.
  intros Hd. revert d level r σ Hd. induction fuel as [|fuel IH]; intros d level r σ Hd Hf Hl Hw Hr.
  { lia. }
  destruct level as [|p level]; cbn [resolve_levels].
  { eexists _, σ. split; [done|]. intros _. by destruct Hw; split. }
  pose proof (resolve_level_ok attempts d (p :: level) r [] σ ltac:(lia) Hl ltac:(constructor) ltac:(by rewrite app_nil_r) Hr) as H1.
  destruct (resolve_level get attempts (p :: level) r [] σ) as [[[r1 next1] ok] σ1]. destruct H1 as [Hr1 Hok].
  destruct ok; [|by exists r1, σ1; split; [|intros E; congruence]]. destruct (Hok eq_refl) as (Hd4 & Hw1 & Hn1).
  specialize (Hd4 ltac:(done)). apply (IH (S d)); [lia..|done|done|done].
Qed.

Lemma resolve_tiles root attempts σ :
  ∃ r σ', resolve_manifest get root attempts σ = Some (r, σ') ∧
    (rs_ok r = true → tiles 0 (ref_span <$> rs_chunks r) (rs_size r) ∧ (rs_size r < W64N)%N ∧
       Forall (λ c, valid_key (cr_key c) = true ∧ (1 <= cr_bytes c <= rs_chunk r)%N) (rs_chunks r) ∧
       (1 <= rs_chunk r <= MAX_CHUNK)%N ∧ rs_depth r ≤ MAX_MANIFEST_DEPTH).
Proof.
  unfold resolve_manifest. destruct (valid_key root); cbn [negb]; [|by eexists _, _].
  cbn [resolve_levels]. unfold resolve_level at 1, resolve_one. cbn [pd_depth pd_key].
  destruct (Nat.ltb_spec MAX_MANIFEST_DEPTH 1); [by eexists _, _|]. destruct (get_attempts get _ _ _ _ σ) as [[g used] σ1].
  destruct (go_ok g); cbn [negb]; [|by eexists _, _]. destruct (parse_manifest (go_body g)) as [why|m] eqn:Em; [by eexists _, _|].
  apply parse_manifest_sound in Em as [Hm _].
  pose proof (take_root (mkPending root 0 0 1) m Hm eq_refl eq_refl) as Ht. destruct (take_manifest _ m _ _) as [[r1 next] ok].
  destruct Ht as (-> & Hw & Hn & Hr). fold (resolve_levels get).
  destruct (resolve_levels_ok MAX_MANIFEST_DEPTH attempts 2 next r1 σ1) as (r & σ' & E & Hok);
    [unfold MAX_MANIFEST_DEPTH; lia..|done|done|done|]. exists r, σ'. split; [done|]. intros Hrok. destruct (Hok Hrok) as [Ht ?????].
  by rewrite app_nil_r in Ht.
Qed.

(** Whatever the ring answers, a reader ends with an answer, and an answer it accepts
    describes a file: the chunks, in some order, tile [0, size) without gap or overlap,
    each has a valid key and holds 1 to [rs_chunk] bytes, at most [MAX_CHUNK], and no
    manifest was deeper than [MAX_MANIFEST_DEPTH]. *)
Theorem resolved_chunks_tile root attempts σ :
  ∃ r σ', resolve_manifest get root attempts σ = Some (r, σ') ∧
    (rs_ok r = true → tiles 0 (ref_span <$> rs_chunks r) (rs_size r) ∧ (rs_size r < W64N)%N ∧
       Forall (λ c, valid_key (cr_key c) = true ∧ (1 <= cr_bytes c <= rs_chunk r)%N) (rs_chunks r) ∧
       (1 <= rs_chunk r <= MAX_CHUNK)%N ∧ rs_depth r ≤ MAX_MANIFEST_DEPTH).
Proof. apply resolve_tiles. Qed.
End walk.

(** ** Reading back what an upload built *)

Lemma at_offsets_app o a b : (o < W64N)%N → at_offsets o (a ++ b) = at_offsets o a ++ at_offsets (wrap64N (o + bytes_of a)) b.
Proof.
  revert o. induction a as [|e a IH]; intros o Ho; cbn [app at_offsets bytes_of].
  { rewrite N.add_0_r. unfold wrap64N. by rewrite N.mod_small. }
  f_equal. rewrite IH by (apply N.mod_lt; unfold W64N; lia). f_equal. f_equal.
  unfold wrap64N. rewrite N.Div0.add_mod_idemp_l. f_equal. lia.
Qed.

Section reading.
Context {SH : Sha1} {SHok : Sha1Ok SH} {St : Type} (get : GetFn St) (attempts : nat).
(** What every read keeps true of the ring. *)
Context (I : St → Prop).
Definition reads_keep : Prop := ∀ key σ, I σ → I (get key σ).2.
Context (Hkeep : reads_keep).

(** A read of the blob's key: never other bytes, and always answered. *)
Definition serves (b : bytes) : Prop :=
  ∀ σ, I σ → go_ok (get (chunk_key b) σ).1 = true → go_body (get (chunk_key b) σ).1 = b.
Definition answers (b : bytes) : Prop := ∀ σ, I σ → go_ok (get (chunk_key b) σ).1 = true.

Lemma get_attempts_keep key used more stop σ : I σ → I (get_attempts get key used more stop σ).2.
Proof using Hkeep.
  revert used σ. induction more as [|more IH]; intros used σ Hi; cbn [get_attempts]; pose proof (Hkeep key σ Hi) as H1;
    destruct (get key σ) as [g σ1]; [done|]. destruct (go_ok g || stop used); [done|]. by apply IH.
Qed.

Lemma resolve_level_keep level r next σ : I σ → I (resolve_level get attempts level r next σ).2.
Proof using Hkeep.
  revert r next σ. induction level as [|p level IH]; intros r next σ Hi; cbn [resolve_level]; [done|].
  assert (H1 : I (resolve_one get attempts p r next σ).2).
  { unfold resolve_one. destruct (_ <? _); [done|].
    pose proof (get_attempts_keep (pd_key p) 1 (attempts - 1) (λ _, false) σ Hi) as H1.
    destruct (get_attempts get _ _ _ _ _) as [[g u] σ1]. destruct (negb _); [done|]. by destruct (parse_manifest _). }
  destruct (resolve_one get attempts p r next σ) as [[[r1 next1] ok] σ1]. destruct ok; [by apply IH|done].
Qed.

Lemma resolve_keep root σ r σ' : I σ → resolve_manifest get root attempts σ = Some (r, σ') → I σ'.
Proof using Hkeep.
  intros Hi. unfold resolve_manifest. destruct (negb _); [by intros [= _ <-]|].
  generalize (S MAX_MANIFEST_DEPTH), ([mkPending root 0 0 1] : list Pending), unresolved. intros fuel. revert σ Hi.
  induction fuel as [|fuel IH]; intros σ Hi level r0; cbn [resolve_levels]; [by destruct level; [intros [= _ <-]|]|].
  destruct level as [|p level]; [by intros [= _ <-]|]. pose proof (resolve_level_keep (p :: level) r0 [] σ Hi) as H1.
  destruct (resolve_level get attempts (p :: level) r0 [] σ) as [[[r1 next1] ok] σ1]. destruct ok; [by apply IH|by intros [= _ <-]].
Qed.

Lemma get_attempts_serves b used more stop σ : serves b → I σ →
  let g := (get_attempts get (chunk_key b) used more stop σ).1.1 in (go_ok g = true → go_body g = b) ∧ (answers b → go_ok g = true).
Proof using Hkeep.
  intros Hs. revert used σ. induction more as [|more IH]; intros used σ Hi; cbn [get_attempts];
    specialize (Hs σ Hi); pose proof (λ H : answers b, H σ Hi) as Ha; pose proof (Hkeep (chunk_key b) σ Hi) as Hi1;
    destruct (get (chunk_key b) σ) as [g σ1]; cbn [fst snd] in *; [done|].
  destruct (go_ok g || stop used); [done|]. by apply IH.
Qed.

(** The manifests [ms] of one level were read into [r'] and [next']. *)
Record level_read (d : nat) (o : N) (kind : ManifestKind) (ms : list Manifest) (r : Resolved) (next : list Pending)
    (r' : Resolved) (next' : list Pending) : Prop := {
  lr_ok : rs_ok r' = rs_ok r;
  lr_size : rs_size r' = rs_size r;
  lr_chunk : rs_chunk r' = rs_chunk r;
  lr_keys : rs_manifest_keys r' = rs_manifest_keys r ++ ((λ m, chunk_key (format_manifest m)) <$> ms);
  lr_chunks : rs_chunks r' = rs_chunks r ++
    (if decide (kind = Data) then chunk_ref <$> at_offsets o (concat (mf_entries <$> ms)) else []);
  lr_next : next' = next ++
    (if decide (kind = Data) then [] else pending (S d) <$> at_offsets o (concat (mf_entries <$> ms)));
}.

Lemma resolve_one_read p m r next σ : manifest_ok m → serves (format_manifest m) → pd_key p = chunk_key (format_manifest m) →
  pd_depth p ≤ MAX_MANIFEST_DEPTH → I σ →
  (∃ σ', resolve_one get attempts p r next σ = (take_manifest p m r next, σ') ∧ I σ') ∨
  (¬ answers (format_manifest m) ∧ ∃ r' σ', resolve_one get attempts p r next σ = (r', next, false, σ') ∧ rs_ok r' = rs_ok r).
Proof.
  intros Hm Hs Hk Hd Hi. unfold resolve_one. destruct (Nat.ltb_spec MAX_MANIFEST_DEPTH (pd_depth p)); [lia|]. rewrite Hk.
  destruct (get_attempts_serves _ 1 (attempts - 1) (λ _, false) σ Hs Hi) as [Hb Ha].
  pose proof (get_attempts_keep (chunk_key (format_manifest m)) 1 (attempts - 1) (λ _, false) σ Hi) as Hi'.
  destruct (get_attempts get _ _ _ _ σ) as [[g used] σ']. cbn [fst snd] in *. destruct (go_ok g); cbn [negb].
  - left. rewrite Hb, parse_manifest_format by done. eauto.
  - right. split; [by intros Hans%Ha|]. eauto.
Qed.

Lemma take_known p m r next : pd_depth p ≠ 1 → mf_size m = pd_bytes p → mf_chunk m = rs_chunk r →
  pd_key p = chunk_key (format_manifest m) →
  ∃ r' next', take_manifest p m r next = (r', next', true) ∧ level_read (pd_depth p) (pd_offset p) (mf_kind m) [m] r next r' next'.
Proof.
  intros Hd Hsz Hck Hk. unfold take_manifest. destruct (Nat.eqb_spec (pd_depth p) 1); [done|]. rewrite Hsz, N.eqb_refl. upd.
  rewrite Hck, N.eqb_refl. cbn [negb]. destruct (mf_kind m); eexists _, _; (split; [done|]);
    split; upd; cbn [fmap list_fmap concat]; rewrite ?app_nil_r, ?Hk; done.
Qed.

Lemma resolve_level_read d o kind chunk ms r next σ :
  d ≠ 1 → d ≤ MAX_MANIFEST_DEPTH → (o < W64N)%N → rs_chunk r = chunk → I σ →
  Forall (λ m, manifest_ok m ∧ mf_kind m = kind ∧ mf_chunk m = chunk ∧ serves (format_manifest m)) ms →
  let level := pending d <$> at_offsets o (manifest_entry <$> ms) in
  (∃ r' next' σ', resolve_level get attempts level r next σ = (r', next', true, σ') ∧ I σ' ∧ level_read d o kind ms r next r' next') ∨
  (¬ Forall (λ m, answers (format_manifest m)) ms ∧
   ∃ r' next' σ', resolve_level get attempts level r next σ = (r', next', false, σ') ∧ rs_ok r' = rs_ok r).
Proof.
  intros Hd1 Hd4 Ho Hck Hi Hms. revert o r next σ Ho Hck Hi.
  induction Hms as [|m ms (Hm & Hk & Hc & Hs) Hms IH]; intros o r next σ Ho Hck Hi level.
  { left. eexists _, _, _. split; [done|]. split; [done|]. split; cbn; rewrite ?app_nil_r; try done; by case_decide; rewrite app_nil_r. }
  subst level. cbn [fmap list_fmap at_offsets resolve_level]. set (p := pending d (manifest_entry m, o)).
  destruct (resolve_one_read p m r next σ Hm Hs eq_refl Hd4 Hi) as [(σ1 & E & Hi1)|(Hno & r1 & σ1 & E & Er)]; rewrite E.
  - destruct (take_known p m r next Hd1 eq_refl ltac:(congruence) eq_refl) as (r1 & next1 & E1 & [L1 L2 L3 L4 L5 L6]). rewrite E1.
    change (me_bytes (manifest_entry m)) with (mf_size m). change (pd_depth p) with d in *. change (pd_offset p) with o in *.
    destruct (IH (wrap64N (o + mf_size m)) r1 next1 σ1) as [(r2 & next2 & σ2 & E2 & Hi2 & [M1 M2 M3 M4 M5 M6])|(Hno & r2 & next2 & σ2 & E2 & Er)].
    { apply N.mod_lt. unfold W64N. lia. } { congruence. } { done. }
    + left. exists r2, next2, σ2. split; [exact E2|]. split; [done|]. split; [congruence..| | |].
      * rewrite M4, L4. cbn. by rewrite <- app_assoc.
      * rewrite M5, L5, Hk. cbn [fmap list_fmap concat]. rewrite app_nil_r, at_offsets_app by done. rewrite <- mo_size by done.
        case_decide; [by rewrite fmap_app, <- app_assoc|by rewrite !app_nil_r].
      * rewrite M6, L6, Hk. cbn [fmap list_fmap concat]. rewrite app_nil_r, at_offsets_app by done. rewrite <- mo_size by done.
        case_decide; [by rewrite !app_nil_r|by rewrite fmap_app, <- app_assoc].
    + right. split; [by intros [_ H]%Forall_cons|]. exists r2, next2, σ2. split; [exact E2|]. congruence.
  - right. split; [by intros [H _]%Forall_cons|]. eauto.
Qed.

Lemma build_levels_total fuel size chunk f kind level blobs depth : 2 ≤ f → length level < fuel →
  ∃ tree, build_levels fuel size chunk f kind level blobs depth = Some tree.
Proof.
  intros Hf. revert kind level blobs depth. induction fuel as [|fuel IH]; intros kind level blobs depth Hl; [lia|]. cbn [build_levels].
  destruct (Nat.leb_spec (length level) f); [eauto|]. apply IH. rewrite !length_fmap.
  pose proof (cut_go_length (length level) f level Hf) as Hc. fold (cut f level) in Hc. lia.
Qed.

(** The walk has listed [level], [n] levels down: its chunks, or the manifests to read next. *)
Record listed (n : nat) (size chunk : N) (kind : ManifestKind) (level : list ManifestEntry) (blobs : list bytes)
    (r : Resolved) (todo : list Pending) : Prop := {
  ls_ok : rs_ok r = false;
  ls_size : rs_size r = size;
  ls_chunk : rs_chunk r = chunk;
  ls_keys : ∀ b, b ∈ blobs → chunk_key b ∈ rs_manifest_keys r;
  ls_chunks : rs_chunks r = if decide (kind = Data) then chunk_ref <$> at_offsets 0 level else [];
  ls_todo : todo = if decide (kind = Data) then [] else pending (S n) <$> at_offsets 0 level;
}.

Lemma take_root_read key m :
  ∃ r next, take_manifest (mkPending key 0 0 1) m unresolved [] = (r, next, true) ∧
    rs_ok r = false ∧ rs_size r = mf_size m ∧ rs_chunk r = mf_chunk m ∧ rs_manifest_keys r = [key] ∧
    rs_chunks r = (if decide (mf_kind m = Data) then chunk_ref <$> at_offsets 0 (mf_entries m) else []) ∧
    next = if decide (mf_kind m = Data) then [] else pending 2 <$> at_offsets 0 (mf_entries m).
Proof.
  unfold take_manifest. cbn [pd_depth Nat.eqb negb pd_offset pd_key]. destruct (mf_kind m); eexists _, _; (split; [done|]); by upd.
Qed.

Definition reads_tree (tree : ManifestTree) (n : nat) (size chunk : N) (kind : ManifestKind) (level : list ManifestEntry)
    (new : list bytes) : Prop := ∀ F σ, I σ →
  let run := resolve_levels get (n + F) attempts [mkPending (mt_root_key tree) 0 0 1] unresolved σ in
  (∃ r todo σ', run = resolve_levels get F attempts todo r σ' ∧ I σ' ∧ listed n size chunk kind level new r todo) ∨
  (¬ Forall answers new ∧ ∃ r σ', run = Some (r, σ') ∧ rs_ok r = false).

Lemma reads_root size chunk kind level f tree : level_ok size chunk kind level → length level ≤ f → f ≤ MANIFEST_FANOUT →
  let root := format_manifest (mkManifest size chunk kind level) in
  serves root → mt_root_key tree = chunk_key root → reads_tree tree 1 size chunk kind level [root].
Proof.
  intros Hl Hlen Hf root Hs Ek F σ Hi. cbv zeta. rewrite Ek. set (k := chunk_key root). cbn [Nat.add resolve_levels resolve_level].
  set (m := mkManifest size chunk kind level). pose proof (level_root _ _ _ _ _ Hl Hlen Hf) as Hm.
  destruct (resolve_one_read (mkPending k 0 0 1) m unresolved [] σ Hm Hs eq_refl) as [(σ1 & E & Hi1)|(Hno & r1 & σ1 & E & Er)].
  { unfold MAX_MANIFEST_DEPTH. cbn. lia. } { done. }
  - left. rewrite E. destruct (take_root_read k m) as (r & next & E1 & H1 & H2 & H3 & H4 & H5 & H6). rewrite E1.
    exists r, next, σ1. split; [done|]. split; [done|]. split; try done. intros b ->%list_elem_of_singleton. rewrite H4. by apply list_elem_of_singleton.
  - right. rewrite E. split; [by intros [H _]%Forall_cons|]. eauto.
Qed.

Lemma reads_below tree n size chunk kind level f new : level_ok size chunk kind level → 2 ≤ f → f ≤ MANIFEST_FANOUT → f < length level →
  let ms := group_manifest chunk kind <$> cut f level in
  1 ≤ n → S n ≤ MAX_MANIFEST_DEPTH → Forall serves (format_manifest <$> ms) →
  reads_tree tree n size chunk Index (manifest_entry <$> ms) new →
  reads_tree tree (S n) size chunk kind level ((format_manifest <$> ms) ++ new).
Proof.
  intros Hl Hf2 Hf Hlen ms Hn Hn4 Hs Hr F σ Hi. destruct (level_groups _ _ _ _ _ Hl Hf2 Hf Hlen) as (Hms & Egs & Hlv). cbv zeta in *.
  cbv zeta. replace (S n + F) with (n + S F) by lia. destruct (Hr (S F) σ Hi) as [(r & todo & σ1 & -> & Hi1 & Hls)|(Hno & r & σ1 & -> & Er)].
  2:{ right. split; [by intros [_ H]%Forall_app|]. eauto. }
  destruct Hls as [L1 L2 L3 L4 L5 L6]. rewrite decide_False in L5 by done. rewrite decide_False in L6 by done. subst todo. fold ms in Hms, Hlv.
  assert (Hall : Forall (λ m, manifest_ok m ∧ mf_kind m = kind ∧ mf_chunk m = chunk ∧ serves (format_manifest m)) ms).
  { apply Forall_forall. intros m Hm. rewrite Forall_fmap in Hs. rewrite Forall_forall in Hs, Hms. split; [by apply Hms|].
    specialize (Hs m Hm). subst ms. apply list_elem_of_fmap in Hm as (g & -> & _). done. }
  assert (Ent : concat (mf_entries <$> ms) = level).
  { subst ms. rewrite <- list_fmap_compose. change (mf_entries ∘ group_manifest chunk kind) with (λ g : list ManifestEntry, g).
    by rewrite list_fmap_id. }
  assert (Hne : pending (S n) <$> at_offsets 0 (manifest_entry <$> ms) ≠ []).
  { destruct Hlv as [_ _ _ _ _ Hne]. specialize (Hne eq_refl). by destruct ms. }
  pose proof (resolve_level_read (S n) 0 kind chunk ms r [] σ1 ltac:(lia) Hn4 ltac:(done) L3 Hi1 Hall) as Hlr. cbv zeta in Hlr.
  set (level' := pending (S n) <$> at_offsets 0 (manifest_entry <$> ms)) in *. clearbody level'.
  destruct level' as [|p0 level']; [done|]. cbn [resolve_levels].
  destruct Hlr as [(r2 & next2 & σ2 & -> & Hi2 & [M1 M2 M3 M4 M5 M6])|(Hno & r2 & next2 & σ2 & -> & Er)].
  - left. exists r2, next2, σ2. split; [done|]. split; [done|]. rewrite Ent, L5, app_nil_l in *. split; try congruence.
    intros b [Hb|Hb]%elem_of_app; rewrite M4; apply elem_of_app; [right|left; by apply L4].
    apply list_elem_of_fmap in Hb as (m & -> & Hm). apply list_elem_of_fmap. eauto.
  - right. split; [|exists r2, σ2; split; [done|congruence]]. intros [H _]%Forall_app. apply Hno. by rewrite Forall_fmap in H.
Qed.

Lemma build_levels_reads fuel size chunk f kind level blobs depth tree :
  build_levels fuel size chunk f kind level blobs depth = Some tree → level_ok size chunk kind level → 2 ≤ f → f ≤ MANIFEST_FANOUT →
  ∃ new n, mt_blobs tree = blobs ++ new ∧ mt_depth tree = depth + n ∧ 1 ≤ n ∧ valid_key (mt_root_key tree) = true ∧
    (n ≤ MAX_MANIFEST_DEPTH → Forall serves new → reads_tree tree n size chunk kind level new).
Proof.
  intros Hb Hl Hf2 Hf. revert kind level blobs depth Hb Hl.
  induction fuel as [|fuel IH]; intros kind level blobs depth Hb Hl; [done|]. cbn [build_levels] in Hb.
  destruct (Nat.leb_spec (length level) f) as [Hle|Hgt].
  - injection Hb as <-. eexists _, 1. cbn [mt_blobs mt_depth mt_root_key]. split_and!; [done|lia|lia|apply sha1_is_key|].
    intros _ [Hs _]%Forall_cons. by eapply reads_root.
  - set (ms := group_manifest chunk kind <$> cut f level) in *.
    destruct (level_groups _ _ _ _ _ Hl Hf2 Hf Hgt) as (_ & _ & Hlv). destruct (IH _ _ _ _ Hb Hlv) as (new & n & E1 & E2 & Hn & Hk & IHr).
    exists ((format_manifest <$> ms) ++ new), (S n). rewrite E1, E2. split_and!; [by rewrite app_assoc|lia|lia|done|].
    intros HnM [Hs1 Hs2]%Forall_app. eapply reads_below; try done. apply IHr; [lia|done].
Qed.
End reading.

Lemma build_resolves {SH : Sha1} {SHok : Sha1Ok SH} {St} (get : GetFn St) (I : St → Prop) attempts chunks size chunk fanout :
  reads_keep get I → level_ok size chunk Data chunks → 2 ≤ fanout ≤ MANIFEST_FANOUT →
  ∃ tree, build_manifests chunks size chunk fanout = Some tree ∧
    (mt_depth tree ≤ MAX_MANIFEST_DEPTH → Forall (serves get I) (mt_blobs tree) → ∀ σ, I σ →
     ∃ r σ', resolve_manifest get (mt_root_key tree) attempts σ = Some (r, σ') ∧
       (rs_ok r = true → rs_size r = size ∧ rs_chunk r = chunk ∧ rs_chunks r = chunk_ref <$> at_offsets 0 chunks ∧
          ∀ b, b ∈ mt_blobs tree → chunk_key b ∈ rs_manifest_keys r) ∧
       (Forall (answers get I) (mt_blobs tree) → rs_ok r = true)).
Proof.
  intros Hkeep Hl [Hf2 Hf]. unfold build_manifests. rewrite Nat.min_l, Nat.max_r by lia.
  destruct (build_levels_total (S (length chunks)) size chunk fanout Data chunks [] 0 Hf2 ltac:(lia)) as [tree E].
  exists tree. split; [done|]. intros Hd Hs σ Hi.
  destruct (build_levels_reads get attempts I Hkeep _ _ _ _ _ _ _ _ _ E Hl Hf2 Hf) as (new & n & E1 & E2 & Hn & Hk & Hr).
  rewrite app_nil_l in E1. rewrite E1 in *. rewrite Nat.add_0_l in E2. rewrite E2 in Hd. specialize (Hr Hd Hs).
  unfold resolve_manifest. rewrite Hk. cbn [negb].
  replace (S MAX_MANIFEST_DEPTH) with (n + (S MAX_MANIFEST_DEPTH - n)) by lia.
  destruct (Hr (S MAX_MANIFEST_DEPTH - n) σ Hi) as [(r & todo & σ' & -> & _ & [L1 L2 L3 L4 L5 L6])|(Hno & r & σ' & -> & Er)].
  - rewrite decide_True in L5 by done. rewrite decide_True in L6 by done. subst todo.
    eexists _, σ'. split; [by destruct (S MAX_MANIFEST_DEPTH - n)|]. by upd.
  - exists r, σ'. split; [done|]. split; [congruence|done].
Qed.

(** C29. A tree of manifests reads back as the list of chunks it was built from. For any
    chunks of a file and any fan-out, the tree is built; and if it is no deeper than a
    reader accepts and, while the ring stays in a state that reads keep, no read returns
    other bytes than were stored, a reader that
    succeeds has exactly those chunks, in order, each at the sum of the sizes before
    it, and has read every manifest of the tree; with every read answered it succeeds. *)
Theorem tree_reads_back {SH : Sha1} {SHok : Sha1Ok SH} {St} (get : GetFn St) (I : St → Prop) attempts chunks size chunk fanout :
  reads_keep get I → level_ok size chunk Data chunks → 2 ≤ fanout ≤ MANIFEST_FANOUT →
  ∃ tree, build_manifests chunks size chunk fanout = Some tree ∧
    (mt_depth tree ≤ MAX_MANIFEST_DEPTH → Forall (serves get I) (mt_blobs tree) → ∀ σ, I σ →
     ∃ r σ', resolve_manifest get (mt_root_key tree) attempts σ = Some (r, σ') ∧
       (rs_ok r = true → rs_size r = size ∧ rs_chunk r = chunk ∧ rs_chunks r = chunk_ref <$> at_offsets 0 chunks ∧
          ∀ b, b ∈ mt_blobs tree → chunk_key b ∈ rs_manifest_keys r) ∧
       (Forall (answers get I) (mt_blobs tree) → rs_ok r = true)).
Proof. apply build_resolves. Qed.

(** ** Witnesses *)
#[local] Existing Instances demo_sha1 demo_sha1_ok.

(** Five chunks of at most 4 bytes with a fan-out of 2: three levels of manifests. *)
Definition demo_entries : list ManifestEntry :=
  (λ n, mkManifestEntry (chunk_key (dec n)) (if (n =? 5)%N then 3 else 4)%N) <$> [1; 2; 3; 4; 5]%N.
Definition demo_tree : ManifestTree := default (mkManifestTree [] [] 0) (build_manifests demo_entries 19 4 2).
(** A ring that holds the manifests. *)
Definition demo_get : GetFn unit := λ key σ,
  (match list_find (λ b, chunk_key b = key) (mt_blobs demo_tree) with
   | Some (_, b) => mkGetOutcome true b [] no_peer []
   | None => mkGetOutcome false [] (lit "missing") no_peer []
   end, σ).

Lemma demo_level_ok : level_ok 19 4 Data demo_entries.
Proof.
  split; [reflexivity|reflexivity|unfold MAX_CHUNK; lia| |repeat split|done].
  repeat constructor; vm_compute; reflexivity.
Qed.

Lemma demo_tree_served : Forall (serves demo_get (λ _, True)) (mt_blobs demo_tree) ∧ Forall (answers demo_get (λ _, True)) (mt_blobs demo_tree).
Proof.
  assert (H : Forall (λ b, (demo_get (chunk_key b) tt).1 = mkGetOutcome true b [] no_peer []) (mt_blobs demo_tree)).
  { unfold demo_get. cbn [fst]. repeat (apply Forall_cons; split; [vm_compute; reflexivity|]). constructor. }
  split; (eapply Forall_impl; [exact H|]); intros b E [] _; rewrite E; done.
Qed.

Lemma tree_reads_back_witness :
  mt_depth demo_tree = 3 ∧ ∃ r σ', resolve_manifest demo_get (mt_root_key demo_tree) 3 tt = Some (r, σ') ∧
    rs_ok r = true ∧ rs_chunks r = chunk_ref <$> at_offsets 0 demo_entries.
Proof.
  split; [vm_compute; reflexivity|].
  destruct (tree_reads_back demo_get (λ _, True) 3 demo_entries 19 4 2) as (tree & E & H).
  - done.
  - apply demo_level_ok.
  - split; [lia|]. apply Nat.leb_le. vm_compute. reflexivity.
  - assert (Et : tree = demo_tree) by (unfold demo_tree; rewrite E; reflexivity). subst tree.
    destruct demo_tree_served as [Hs Ha]. destruct (H ltac:(apply Nat.leb_le; vm_compute; reflexivity) Hs tt ltac:(done)) as (r & σ' & Er & H1 & H2).
    exists r, σ'. specialize (H2 Ha). split; [exact Er|]. split; [exact H2|]. by apply H1.
Defined.
