(* ===== verification/Repair.v ===== *)
(** * Repair: getting every chunk back to its replicas (repair.h, repair.cpp)

    One repair round of a process: the scrub, the offers of each owned arc to its
    replicas, the hand-off of foreign chunks. The other threads of the process
    keep serving requests and maintaining the ring while a round runs: between
    any two steps of the round they may change the store, the disk and the
    members, as [ar_other] says. What the operating system answers at each step
    is [ar_os]. Counters of the report are numbers: a round counts the exchanges
    it made. *)
From S2P Require Import Prelude Text Net Chord Lookup Routing OrdMap Store Stabilize StabilizeInv Ring Chunk Replication Manifest ManifestTree.

(** ** State *)

Record ArcCheck := mkArcCheck { ac_pred : Id; ac_holders : list bytes }.
#[export] Instance ArcCheck_eq_dec : EqDecision ArcCheck.
Proof. solve_decision. Defined.

Record RepairState := mkRepairState { rs_checked : gmap Z ArcCheck; rs_round : Z }.

Record RepairReport := mkRepairReport {
  rr_arcs_checked : nat; rr_chunks_sent : nat; rr_send_failures : nat; rr_handed_off : nat; rr_scrubbed : nat;
  rr_digests_sent : nat; rr_digests_matched : nat; rr_have_sent : nat; rr_restored : nat; rr_full_scan : bool }.
#[export] Instance RepairReport_eta : Eta RepairReport := λ r,
  mkRepairReport (rr_arcs_checked r) (rr_chunks_sent r) (rr_send_failures r) (rr_handed_off r) (rr_scrubbed r)
    (rr_digests_sent r) (rr_digests_matched r) (rr_have_sent r) (rr_restored r) (rr_full_scan r).
Definition empty_report : RepairReport := mkRepairReport 0 0 0 0 0 0 0 0 0 false.

(** What the round shares with the other threads. *)
Record Local := mkLocal { lc_store : ChunkStore; lc_disk : list (bytes * bytes); lc_members : list NodeState }.
#[export] Instance Local_eta : Eta Local := λ l, mkLocal (lc_store l) (lc_disk l) (lc_members l).

Record Around := mkAround { ar_os : nat → Os; ar_other : nat → Local → Local }.

Record Round (St : Type) := mkRound { rd_local : Local; rd_rep : RepairReport; rd_clock : nat; rd_net : St }.
Arguments mkRound {St}. Arguments rd_local {St}. Arguments rd_rep {St}. Arguments rd_clock {St}. Arguments rd_net {St}.
#[export] Instance Round_eta {St} : Eta (Round St) := λ r, mkRound (rd_local r) (rd_rep r) (rd_clock r) (rd_net r).

Definition GET_RETRIES : nat := 2.

Section repair.
Context {SH : Sha1} {IN : Inet} {St : Type} (route : Transport St) (send : FrameTransport St) (ar : Around) (start : Peer).
Implicit Types r : Round St.

(** ** Steps *)

(** The other threads act. *)
Definition turn r : Round St :=
  r <| rd_local := ar_other ar (rd_clock r) (rd_local r) |> <| rd_clock := rd_clock r + 1 |>.
Definition os r : Os := ar_os ar (rd_clock r).
Definition put_back r (s : ChunkStore) (d : list (bytes * bytes)) : Round St :=
  turn (r <| rd_local := (rd_local r) <| lc_store := s |> <| lc_disk := d |> |>).
Definition tell r (rep : RepairReport) : Round St := r <| rd_rep := rep |>.

(** [store_remove]: the other threads act between the index and the disk. *)
Definition local_remove (key : bytes) r : Round St :=
  if negb (valid_key key) then r
  else
    let l := rd_local r in
    let r := put_back r (remove_index (lc_store l) (lc_disk l) key (os_stats (os r))) (lc_disk l) in
    let l := rd_local r in
    put_back r (lc_store l) (remove_unlink (lc_store l) (lc_disk l) key (os_unlinks (os r))).2.
Definition local_put (key body : bytes) r : PutResult * Round St :=
  let '(p, s, d) := store_put (lc_store (rd_local r)) (lc_disk (rd_local r)) key body (os_put (os r)) (os_now (os r)) in
  (p, put_back r s d).
Definition local_get (key : bytes) r : GetResult * Round St :=
  (store_get (lc_store (rd_local r)) (lc_disk (rd_local r)) key (os_readable (os r)), turn r).
Definition exchange (to : Peer) (line body : bytes) r : (Delivery * Frame) * Round St :=
  let '(x, σ) := send to line body (rd_net r) in (x, turn (r <| rd_net := σ |>)).

(** ** Replacing a corrupt copy *)

Definition replace_corrupt (key : bytes) r : Round St :=
  let r := local_remove key r in
  let r := tell r ((rd_rep r) <| rr_scrubbed := rr_scrubbed (rd_rep r) + 1 |>) in
  let '(good, σ) := get_chunk route send start key GET_RETRIES (rd_net r) in
  let r := turn (r <| rd_net := σ |>) in
  if go_ok good then
    let '(p, r) := local_put key (go_body good) r in
    if bool_decide (p = Stored) then tell r ((rd_rep r) <| rr_restored := rr_restored (rd_rep r) + 1 |>) else r
  else r.

(** ** Offering keys to another process *)

Definition failed r : Round St := tell r ((rd_rep r) <| rr_send_failures := rr_send_failures (rd_rep r) + 1 |>).

Definition store_line (as_put : bool) (key body : bytes) : bytes :=
  let size := dec (N.of_nat (length body)) in
  if as_put then lit "PUT " ++ key ++ lit " 1 " ++ size else lit "STORE " ++ key ++ lit " " ++ size.
Definition said_ok (line : bytes) : bool := bool_decide (line = lit "OK") || starts_with (lit "OK ") line.

(** One key, and the digit it was answered with. *)
Definition offer_key (to : Peer) (as_put : bool) '((ok, r) : bool * Round St) '((key, digit) : bytes * Ascii.ascii)
    : bool * Round St :=
  if negb (bool_decide (digit = chr 48)) then (ok, r)
  else
    let '(g, r) := local_get key r in
    match g with
    | Found body =>
        if negb (bool_decide (chunk_key body = key)) then (false, replace_corrupt key r)
        else
          let '((d, stored), r) := exchange to (store_line as_put key body) body r in
          if bool_decide (d = Ok) && said_ok stored.1
          then (ok, tell r ((rd_rep r) <| rr_chunks_sent := rr_chunks_sent (rd_rep r) + 1 |>))
          else (false, failed r)
    | _ => (ok, r)
    end.

Definition have_line (batch : list bytes) : bytes := lit "HAVE" ++ concat ((λ k, lit " " ++ k) <$> batch).

(** The digits of an answer that has exactly one per key. *)
Definition have_digits (d : Delivery) (line : bytes) (count : nat) : option bytes :=
  if negb (bool_decide (d = Ok)) || negb (starts_with (lit "HAVE ") line) || negb (length line =? 5 + count)
  then None else Some (drop 5 line).

Definition offer_batch (to : Peer) (as_put : bool) '((ok, r) : bool * Round St) (batch : list bytes) : bool * Round St :=
  let r := tell r ((rd_rep r) <| rr_have_sent := rr_have_sent (rd_rep r) + 1 |>) in
  let '((d, answer), r) := exchange to (have_line batch) [] r in
  match have_digits d answer.1 (length batch) with
  | None => (false, failed r)
  | Some digits => foldl (offer_key to as_put) (ok, r) (zip batch digits)
  end.

Definition digest_line (arc : Id * Id) : bytes := lit "DIGEST " ++ id_to_hex arc.1 ++ lit " " ++ id_to_hex arc.2.

(** Whether the process holds exactly what this one holds in the arc. *)
Definition ask_digest (to : Peer) (arc : Id * Id) r : bool * Round St :=
  let held := store_keys_in_arc (lc_store (rd_local r)) arc.1 arc.2 in
  let r := tell (turn r) ((rd_rep (turn r)) <| rr_digests_sent := rr_digests_sent (rd_rep (turn r)) + 1 |>) in
  let '((d, answer), r) := exchange to (digest_line arc) [] r in
  if bool_decide (d = Ok) && bool_decide (answer.1 = lit "DIGEST " ++ keys_digest held)
  then (true, tell r ((rd_rep r) <| rr_digests_matched := rr_digests_matched (rd_rep r) + 1 |>))
  else (false, r).

Definition offer (to : Peer) (keys : list bytes) (as_put : bool) (arc : Id * Id) r : bool * Round St :=
  let '(matched, r) := ask_digest to arc r in
  if matched then (true, r) else foldl (offer_batch to as_put) (true, r) (cut MAX_HAVE_KEYS keys).

(** ** The scrub *)

Definition scrub_key r (key : bytes) : Round St :=
  let '(g, r) := local_get key r in
  match g with
  | Found body => if bool_decide (chunk_key body = key) then r else replace_corrupt key r
  | _ => replace_corrupt key r
  end.
Definition scrub r : Round St := foldl scrub_key (turn r) (store_keys (lc_store (rd_local r))).

(** ** The hand-off *)

Definition key_id (key : bytes) : Id := default 0%Z (id_from_key key).
Definition foreign_keys (owned : list (Id * Id)) (keys : list bytes) : list bytes :=
  filter (λ key, existsb (λ arc, in_range_oc (key_id key) arc.1 arc.2) owned = false) keys.

(** The leading keys of [(from, owner]], and the rest. *)
Fixpoint take_arc (from owner : Id) (keys : list bytes) : list bytes * list bytes :=
  match keys with
  | [] => ([], [])
  | key :: more =>
      if in_range_oc (key_id key) from owner then let '(a, b) := take_arc from owner more in (key :: a, b) else ([], keys)
  end.

Fixpoint hand_off_loop (fuel : nat) (foreign : list bytes) r : Round St :=
  match fuel, foreign with
  | S fuel, key :: foreign =>
      let '(l, σ) := lookup route start (key_id key) (rd_net r) in
      let r := turn (r <| rd_net := σ |>) in
      if negb (result_ok l) then hand_off_loop fuel foreign (failed r)
      else
        let from := peer_id (default no_peer (last (path l))) in
        let '(more, foreign) := take_arc from (peer_id (found l)) foreign in
        if same_process (found l) start then hand_off_loop fuel foreign r
        else
          let before := rr_chunks_sent (rd_rep r) in
          let '(_, r) := offer (found l) (key :: more) true (from, peer_id (found l)) r in
          hand_off_loop fuel foreign
            (tell r ((rd_rep r) <| rr_handed_off := rr_handed_off (rd_rep r) + (rr_chunks_sent (rd_rep r) - before) |>))
  | _, _ => r
  end.
Definition hand_off (owned : list (Id * Id)) r : Round St :=
  let foreign := foreign_keys owned (store_keys (lc_store (rd_local r))) in
  hand_off_loop (length foreign) foreign (turn r).

(** ** The round *)

Definition offer_all (set : list Peer) (keys : list bytes) (arc : Id * Id) r : bool * Round St :=
  foldl (λ '(ok, r) to, let '(o, r) := offer to keys false arc r in (o && ok, r)) (true, r) set.

(** One member: the arcs owned so far, what has been checked, and the round.
    [full]: whether this is a full scan, as the report says from the start. *)
Definition repair_member (full : bool) '((owned, checked, r) : list (Id * Id) * gmap Z ArcCheck * Round St) (i : nat)
    : list (Id * Id) * gmap Z ArcCheck * Round St :=
  match lc_members (rd_local r) !! i with
  | None => (owned, checked, r)
  | Some m =>
      let r := turn r in
      if negb (ns_has_pred m) || ns_orphaned m then (owned, checked, r)
      else
        let self := peer_id (ns_self m) in
        let arc := (peer_id (ns_pred m), self) in
        let owned := owned ++ [arc] in
        let set : list Peer := match lc_members (rd_local r) !! i with Some m => replica_set m RF | None => [] end in
        let r := turn r in
        let now := mkArcCheck arc.1 (fmap (M:=list) address (drop 1 set)) in
        if bool_decide (checked !! self = Some now) && negb full then (owned, checked, r)
        else
          let keys := store_keys_in_arc (lc_store (rd_local r)) arc.1 arc.2 in
          let '(ok, r) := offer_all (drop 1 set) keys arc (turn r) in
          let r := tell r ((rd_rep r) <| rr_arcs_checked := rr_arcs_checked (rd_rep r) + 1 |>) in
          (owned, if ok then <[self := now]> checked else delete self checked, r)
  end.

Definition full_scan_due (round scan_every : Z) : bool := (0 <? scan_every)%Z && (Z.rem round scan_every =? 0)%Z.

Definition run_round (l : Local) (st : RepairState) (scan_every : Z) (σ : St) : RepairState * Round St :=
  let round := (rs_round st + 1)%Z in
  let full := full_scan_due round scan_every in
  let r := mkRound l (empty_report <| rr_full_scan := full |>) 0 σ in
  let r := if full then scrub r else r in
  let '(owned, checked, r) := foldl (repair_member full) ([], rs_checked st, r) (seq 0 (length (lc_members l))) in
  let r := if full then hand_off owned r else r in
  (mkRepairState checked round, r).
End repair.

Definition report_line (rep : RepairReport) : bytes :=
  let n x := dec (N.of_nat x) in
  lit "repair: " ++ n (rr_arcs_checked rep) ++ lit " arcs checked, " ++ n (rr_chunks_sent rep) ++ lit " chunks sent (" ++
  n (rr_handed_off rep) ++ lit " handed off), " ++ n (rr_send_failures rep) ++ lit " failures, " ++ n (rr_scrubbed rep) ++
  lit " scrubbed, " ++ n (rr_restored rep) ++ lit " restored" ++ (if rr_full_scan rep then lit ", full scan" else []).

Definition log_round (n : ChunkNode) (rep : RepairReport) : ChunkNode :=
  if (0 <? rr_chunks_sent rep) || (0 <? rr_send_failures rep) || (0 <? rr_scrubbed rep)
  then n <| cn_log := (λ l, l ++ [report_line rep]) <$> cn_log n |> else n.

Definition repair_round {SH : Sha1} {IN : Inet} {St} (route : Transport St) (send : FrameTransport St) (ar : Around)
    (n : ChunkNode) (st : RepairState) (scan_every : Z) (σ : St) : RepairReport * ChunkNode * RepairState * St :=
  match cn_store n, cn_members n with
  | Some s, m :: _ =>
      let '(st, r) := run_round route send ar (ns_self m) (mkLocal s (cn_disk n) (cn_members n)) st scan_every σ in
      let l := rd_local r in
      (rd_rep r,
       log_round (n <| cn_store := Some (lc_store l) |> <| cn_disk := lc_disk l |> <| cn_members := lc_members l |>) (rd_rep r),
       st, rd_net r)
  | _, _ => (empty_report, n, st, σ)
  end.
