(* ===== verification/RepairSpec.v ===== *)
(** * RepairSpec: what repair promises

    [preserved] lists what a round does to the world, one rule per kind of step;
    whatever keeps each of them is kept by a scrub, an offer and a whole round
    ([round_keeps]). The theorems: repair never sends bytes that are not what
    their key says, the scrub leaves no corrupt chunk listed, lists nothing it has
    destroyed unless another thread listed it meanwhile, and destroys no good one, an arc recorded as checked is on its replicas, and a ring at rest is
    left alone. *)
From S2P Require Import Prelude Text Net Chord Lookup Routing OrdMap Store Stabilize StabilizeInv Ring Chunk Replication Manifest ManifestTree Repair.

(** ** One step of the store *)
Section steps.
Context {SH : Sha1}.

(** The index and the disk are maps, and the index holds keys. *)
Record shaped (l : Local) : Prop := {
  sh_keys : om_ok (st_keys (lc_store l));
  sh_disk : om_ok (lc_disk l);
  sh_valid : ∀ key, held_key (lc_store l) key = true → valid_key key = true;
}.

Definition on_disk (l : Local) (key : bytes) : option bytes := om_find (store_path (lc_store l) key) (lc_disk l).

(** If the store lists the key, no other bytes are behind it. *)
Definition clean (key : bytes) (l : Local) : Prop :=
  held_key (lc_store l) key = true → ∀ c, on_disk l key = Some c → chunk_key c = key.

(** If the store lists the key, its bytes are behind it. *)
Definition whole (key : bytes) (l : Local) : Prop :=
  held_key (lc_store l) key = true → ∃ c, on_disk l key = Some c ∧ chunk_key c = key.

(** The store lists the key and has its bytes. *)
Definition good (key : bytes) (l : Local) : Prop :=
  held_key (lc_store l) key = true ∧
  ∃ c, on_disk l key = Some c ∧ chunk_key c = key ∧ (N.of_nat (length c) <= MAX_CHUNK)%N.

Definition with_store (l : Local) (s : ChunkStore) (d : list (bytes * bytes)) : Local :=
  l <| lc_store := s |> <| lc_disk := d |>.

Lemma held_set s (key k : bytes) :
  held_key s k = match om_find k (st_keys s) with Some _ => true | None => false end.
Proof. done. Qed.

(** What a write changes: at most its own key, which it stores whole or leaves unlisted. *)
Lemma store_put_step l key body env now p s d :
  shaped l → chunk_key body = key → store_put (lc_store l) (lc_disk l) key body env now = (p, s, d) →
  shaped (with_store l s d) ∧
  (∀ k, valid_key k = true → k ≠ key → held_key s k = held_key (lc_store l) k ∧ on_disk (with_store l s d) k = on_disk l k) ∧
  (held_key (lc_store l) key = true → held_key s key = true ∧ on_disk (with_store l s d) key = on_disk l key) ∧
  (held_key (lc_store l) key = false → held_key s key = true → on_disk (with_store l s d) key = Some body).
Proof.
  intros Hsh Hkey. pose proof Hsh as [Hk Hd Hv]. unfold store_put.
  assert (Hsame : shaped (with_store l (lc_store l) (lc_disk l))) by (by split).
  destruct (valid_key key) eqn:Hvk; cbn [negb]; [|by intros [= _ <- <-]; split_and!; try done; congruence].
  destruct (_ <? _)%N; [by intros [= _ <- <-]; split_and!; try done; congruence|].
  rewrite bool_decide_true by done. cbn [negb].
  destruct (held_key (lc_store l) key) eqn:Hh; [by intros [= _ <- <-]; split_and!; [by split|done..]|].
  destruct (put_write (lc_store l) (lc_disk l) key body env) as [[ok s1] d1] eqn:Ew.
  apply put_write_disk in Ew as (Hd1 & -> & Hw); [|done..].
  set (s1 := (lc_store l) <| st_next_tmp := _ |>).
  assert (Hfar : ∀ k, valid_key k = true → k ≠ key → om_find (store_path (lc_store l) k) d1 = om_find (store_path (lc_store l) k) (lc_disk l)).
  { intros k Hvk' Hne. destruct Hw as [[_ Hw]|Hw]; rewrite Hw by done; [done|]. by rewrite decide_False. }
  destruct ok; cbn [negb]; intros [= _ <- <-].
  - destruct Hw as [[? _]|Hw]; [done|]. unfold put_commit. change (held_key s1 key) with (held_key (lc_store l) key). rewrite Hh.
    assert (Hheld : ∀ k, held_key (store_touch (s1 <| st_keys := om_set key () (st_keys s1) |>
      <| st_bytes := (st_bytes s1 + N.of_nat (length body))%N |>) key now) k = if decide (k = key) then true else held_key (lc_store l) k).
    { intros k. unfold held_key, store_touch. upd. rewrite om_find_set. by case_decide. }
    split_and!; try done.
    + split; [unfold store_touch; upd; by apply om_set_ok|done|]. intros k. unfold with_store. upd. rewrite Hheld.
      case_decide as E; [by subst k|apply Hv].
    + intros k Hvk' Hne. rewrite Hheld, decide_False by done. split; [done|]. by apply Hfar.
    + intros _ _. specialize (Hw key Hvk). rewrite decide_True in Hw by done. exact Hw.
  - split_and!; [by split|by intros k Hvk' Hne; split; [|by apply Hfar]|congruence|].
    intros _ Hno. change (held_key s1 key) with (held_key (lc_store l) key) in Hno. congruence.
Qed.

(** What the first step of a removal changes: its own key is no longer listed. *)
Lemma remove_index_step l key stats : shaped l →
  let l' := with_store l (remove_index (lc_store l) (lc_disk l) key stats) (lc_disk l) in
  shaped l' ∧ (∀ k, on_disk l' k = on_disk l k) ∧
  ∀ k, held_key (lc_store l') k = if decide (k = key) then false else held_key (lc_store l) k.
Proof.
  intros [Hk Hd Hv] l'.
  assert (Hheld : ∀ k, held_key (lc_store l') k = if decide (k = key) then false else held_key (lc_store l) k).
  { intros k. subst l'. unfold with_store. upd. unfold remove_index. destruct (held_key (lc_store l) key) eqn:Hh.
    - unfold held_key, forget_key. upd. rewrite om_find_erase. by case_decide.
    - case_decide; [by subst k|done]. }
  split_and!; [split; [| done|]|..|done].
  - subst l'. unfold with_store. upd. unfold remove_index. destruct (held_key _ key); [by apply om_erase_ok|done].
  - intros k. rewrite Hheld. case_decide; [done|apply Hv].
  - intros k. unfold on_disk, store_path. subst l'. unfold with_store. upd. by rewrite remove_index_dir.
Qed.

(** What the second changes: at most its own file, which goes. *)
Lemma remove_unlink_step l key unlinks : shaped l → valid_key key = true →
  let l' := with_store l (lc_store l) (remove_unlink (lc_store l) (lc_disk l) key unlinks).2 in
  shaped l' ∧ (∀ k, held_key (lc_store l') k = held_key (lc_store l) k) ∧
  ∀ k, valid_key k = true → on_disk l' k = on_disk l k ∨ k = key ∧ on_disk l' k = None.
Proof.
  intros [Hk Hd Hv] Hvk l'. subst l'. unfold with_store, on_disk. upd. unfold remove_unlink.
  destruct (om_find _ (lc_disk l)); [destruct unlinks|]; cbn [snd].
  - split_and!; [split; upd; [done|by apply om_erase_ok|done]|done|]. intros k Hvk'. by apply erase_final.
  - split_and!; [by split|done|by left].
  - split_and!; [by split|done|by left].
Qed.

Lemma put_clean l key body env now p s d k :
  shaped l → chunk_key body = key → store_put (lc_store l) (lc_disk l) key body env now = (p, s, d) →
  clean k l → clean k (with_store l s d).
Proof.
  intros Hsh Hkey E Hc. destruct (store_put_step _ _ _ _ _ _ _ _ Hsh Hkey E) as (Hsh' & Hfar & Hold & Hnew).
  intros Hh. change (held_key s k = true) in Hh. pose proof (sh_valid _ Hsh' k Hh) as Hvk.
  destruct (decide (k = key)) as [->|Hne]; [|destruct (Hfar k Hvk Hne) as [E1 ->]; apply Hc; by rewrite <- E1].
  destruct (held_key (lc_store l) key) eqn:Ho; [destruct (Hold eq_refl) as [_ ->]; by apply Hc|].
  rewrite Hnew by done. by intros c [= <-].
Qed.

Lemma put_whole l key body env now p s d k :
  shaped l → chunk_key body = key → store_put (lc_store l) (lc_disk l) key body env now = (p, s, d) →
  whole k l → whole k (with_store l s d).
Proof.
  intros Hsh Hkey E Hc. destruct (store_put_step _ _ _ _ _ _ _ _ Hsh Hkey E) as (Hsh' & Hfar & Hold & Hnew).
  intros Hh. change (held_key s k = true) in Hh. pose proof (sh_valid _ Hsh' k Hh) as Hvk.
  destruct (decide (k = key)) as [->|Hne]; [|destruct (Hfar k Hvk Hne) as [E1 ->]; apply Hc; by rewrite <- E1].
  destruct (held_key (lc_store l) key) eqn:Ho; [destruct (Hold eq_refl) as [_ ->]; by apply Hc|]. exists body. by rewrite Hnew.
Qed.

Lemma put_good l key body env now p s d k :
  shaped l → chunk_key body = key → store_put (lc_store l) (lc_disk l) key body env now = (p, s, d) →
  good k l → good k (with_store l s d).
Proof.
  intros Hsh Hkey E [Hh Hg]. destruct (store_put_step _ _ _ _ _ _ _ _ Hsh Hkey E) as (Hsh' & Hfar & Hold & _).
  pose proof (sh_valid _ Hsh k Hh) as Hvk. unfold good. change (lc_store (with_store l s d)) with s.
  destruct (decide (k = key)) as [->|Hne]; [by destruct (Hold Hh) as [-> ->]|]. by destruct (Hfar k Hvk Hne) as [-> ->].
Qed.

(** Another key does not notice a removal. *)
Lemma remove_index_far l key stats k : shaped l → k ≠ key →
  let l' := with_store l (remove_index (lc_store l) (lc_disk l) key stats) (lc_disk l) in
  held_key (lc_store l') k = held_key (lc_store l) k ∧ on_disk l' k = on_disk l k.
Proof.
  intros Hsh Hne l'. destruct (remove_index_step l key stats Hsh) as (_ & Hd & Hh). split; [|apply Hd].
  etrans; [apply Hh|]. by rewrite decide_False.
Qed.

Lemma remove_unlink_far l key unlinks k : shaped l → valid_key key = true → k ≠ key → held_key (lc_store l) k = true →
  let l' := with_store l (lc_store l) (remove_unlink (lc_store l) (lc_disk l) key unlinks).2 in on_disk l' k = on_disk l k.
Proof.
  intros Hsh Hv Hne Hh l'. destruct (remove_unlink_step l key unlinks Hsh Hv) as (_ & _ & Hd).
  by destruct (Hd k (sh_valid _ Hsh k Hh)) as [|[? _]].
Qed.

(** A good chunk reads back, when the system reads. *)
Lemma good_get l key : shaped l → good key l →
  ∃ c, store_get (lc_store l) (lc_disk l) key true = Found c ∧ chunk_key c = key.
Proof.
  intros Hsh (Hh & c & Hc & Hk & Hlen). exists c. split; [|done]. unfold store_get.
  rewrite (sh_valid _ Hsh key Hh). cbn [negb]. unfold on_disk in Hc. rewrite Hc. cbn [negb].
  by rewrite (proj2 (N.ltb_ge _ _)).
Qed.
End steps.

(** ** What a round does to the world *)

(** The frames a round sends: a question, or a chunk with the bytes of its key. *)
Definition asks (line : bytes) : Prop :=
  starts_with (lit "GET ") line = true ∨ starts_with (lit "HAVE") line = true ∨ starts_with (lit "DIGEST ") line = true.
(** [K]: the keys the round may come across. *)
Definition honest `{Sha1} (K : bytes → Prop) (line body : bytes) : Prop :=
  (asks line ∧ body = []) ∨ ∃ as_put key, K key ∧ chunk_key body = key ∧ line = store_line as_put key body.

(** A removal, step by step. *)
Section removal.
Context {SH : Sha1} {St : Type} (ar : Around) (key : bytes).
Implicit Types r : Round St.

Lemma local_remove_net r : rd_net (local_remove ar key r) = rd_net r.
Proof. unfold local_remove. by destruct (negb _). Qed.

Definition unlisted (t : nat) (l : Local) : Local :=
  with_store l (remove_index (lc_store l) (lc_disk l) key (os_stats (ar_os ar t))) (lc_disk l).
Definition unlinked (t : nat) (l : Local) : Local :=
  with_store l (lc_store l) (remove_unlink (lc_store l) (lc_disk l) key (os_unlinks (ar_os ar t))).2.

Lemma local_remove_eq r : rd_local (local_remove ar key r) =
  if valid_key key then
    let t := rd_clock r in
    ar_other ar (t + 1) (unlinked (t + 1) (ar_other ar t (unlisted t (rd_local r))))
  else rd_local r.
Proof. unfold local_remove. by destruct (valid_key key). Qed.

Lemma local_remove_keeps (P : Local → Prop) r :
  (∀ t l, P l → P (ar_other ar t l)) → (∀ t l, P l → P (unlisted t l)) →
  (∀ t l, valid_key key = true → P l → P (unlinked t l)) → P (rd_local r) → P (rd_local (local_remove ar key r)).
Proof. intros H1 H2 H3 Hr. rewrite local_remove_eq. destruct (valid_key key) eqn:Hv; [|done]. by apply H1, H3, H1, H2. Qed.
End removal.

Section rules.
Context {SH : Sha1} {IN : Inet} {St : Type} (route : Transport St) (send : FrameTransport St) (ar : Around) (start : Peer).
Context (K : bytes → Prop) (J : Local → St → Prop).
Implicit Types r : Round St.

(** A read that did not give the key's own bytes. *)
Definition bad_read (key : bytes) (g : GetResult) : Prop := ∀ c, g = Found c → chunk_key c ≠ key.

Record preserved : Prop := {
  pv_other t l σ : J l σ → J (ar_other ar t l) σ;
  pv_route p line l σ : J l σ → J l (route p line σ).2;
  pv_send to line body l σ : honest K line body → J l σ → J l (send to line body σ).2;
  pv_listed key l σ : J l σ → held_key (lc_store l) key = true → K key;
  pv_put t key body l σ p s d : K key → chunk_key body = key → J l σ →
    store_put (lc_store l) (lc_disk l) key body (os_put (ar_os ar t)) (os_now (ar_os ar t)) = (p, s, d) → J (with_store l s d) σ;
  pv_remove t0 l0 σ0 key r : J l0 σ0 →
    bad_read key (store_get (lc_store l0) (lc_disk l0) key (os_readable (ar_os ar t0))) → J (rd_local r) (rd_net r) →
    J (rd_local (local_remove ar key r)) (rd_net r);
}.
Context (HJ : preserved).

Definition holds r : Prop := J (rd_local r) (rd_net r).

Lemma turn_keeps r : holds r → holds (turn ar r).
Proof using HJ. apply (pv_other HJ). Qed.

Lemma exchange_keeps to line body r : honest K line body → holds r → holds (exchange send ar to line body r).2.
Proof using HJ.
  intros Hh Hr. unfold exchange. pose proof (pv_send HJ to line body (rd_local r) (rd_net r) Hh Hr) as H.
  destruct (send to line body (rd_net r)) as [x σ]. by apply turn_keeps.
Qed.

Lemma lookup_loop_keeps n k current pth l σ : J l σ → J l (lookup_loop route n k current pth σ).2.
Proof using HJ.
  revert current pth σ. induction n as [|n IH]; intros current pth σ H; cbn [lookup_loop]; [done|].
  pose proof (pv_route HJ current (lit "FIND_SUCCESSOR " ++ id_to_hex k) l σ H) as H1.
  destruct (route current _ σ) as [[d reply] σ1]. cbn in H1. repeat case_match; simplify_eq; try done. by apply IH.
Qed.

Lemma lookup_keeps k l σ : J l σ → J l (lookup route start k σ).2.
Proof using HJ. apply lookup_loop_keeps. Qed.

Lemma recovery_loop_keeps n k lr l σ : J l σ → J l (recovery_loop route n start k lr σ).2.
Proof using HJ.
  revert lr σ. induction n as [|n IH]; intros lr σ H; cbn [recovery_loop]; [done|].
  destruct (result_ok lr); [done|]. destruct (_ || _); [done|].
  destruct (path lr !! _) as [dead|]; [|done]. destruct (path lr !! _) as [namer|]; [|done].
  pose proof (pv_route HJ namer (lit "SUSPECT " ++ peer_ip dead ++ lit " " ++ to_string (peer_port dead)) l σ H) as H1.
  destruct (route namer _ σ) as [x σ1]. cbn in H1. pose proof (lookup_keeps k l σ1 H1) as H2.
  destruct (lookup route start k σ1) as [lr' σ2]. by apply IH.
Qed.

Lemma fallbacks_keeps lr b l σ : J l σ → J l (fallbacks route lr b σ).2.
Proof using HJ.
  intros H. unfold fallbacks. cbv zeta. set (σ1 := if b then _ else σ).
  assert (H1 : J l σ1) by (subst σ1; destruct b; [by apply (pv_route HJ)|done]). clearbody σ1.
  pose proof (pv_route HJ (default no_peer (last (path lr))) (lit "NEIGHBOURS") l σ1 H1) as H2.
  destruct (route _ (lit "NEIGHBOURS") σ1) as [[d line] σ2]. cbn in H2. by repeat case_match.
Qed.

Lemma try_get_keeps key from out l σ : J l σ → J l (try_get send key from out σ).2.
Proof using HJ.
  intros H. unfold try_get.
  assert (Hh : honest K (lit "GET " ++ key) []) by (left; split; [by left|done]).
  pose proof (pv_send HJ from _ [] l σ Hh H) as H1. destruct (send from _ [] σ) as [[d a] σ1]. cbn in H1.
  cbv zeta. repeat case_match; simplify_eq; done.
Qed.

Lemma get_rest_keeps key candidates out l σ : J l σ → J l (get_rest send key candidates out σ).2.
Proof using HJ.
  revert out σ. induction candidates as [|p c IH]; intros out σ H; cbn [get_rest]; [done|].
  pose proof (try_get_keeps key p out l σ H) as H1. destruct (try_get send key p out σ) as [[[o fin] d] σ1].
  destruct fin; [done|by apply IH].
Qed.

Lemma get_chunk_keeps key n l σ : J l σ → J l (get_chunk route send start key n σ).2.
Proof using HJ.
  intros H. unfold get_chunk. cbv zeta. destruct (negb (valid_key key)); [done|]. destruct (id_from_key key) as [k|]; [|done].
  assert (H1 : J l (lookup_with_recovery route start k n σ).2).
  { unfold lookup_with_recovery. pose proof (lookup_keeps k l σ H) as H1. destruct (lookup route start k σ) as [lr σ1].
    by apply recovery_loop_keeps. }
  destruct (lookup_with_recovery route start k n σ) as [lr σ1]. destruct (negb (result_ok lr)); [done|].
  pose proof (try_get_keeps key (found lr) (mkGetOutcome false [] [] no_peer []) l σ1 H1) as H2.
  destruct (try_get send key (found lr) _ σ1) as [[[o fin] d] σ2]. destruct fin; [done|].
  pose proof (fallbacks_keeps lr (unreachable d) l σ2 H2) as H3. destruct (fallbacks route lr (unreachable d) σ2) as [more σ3].
  by apply get_rest_keeps.
Qed.

Lemma local_put_keeps key body r : K key → chunk_key body = key → holds r → holds (local_put ar key body r).2.
Proof using HJ.
  intros Hin Hk Hr. unfold local_put, os. destruct (store_put _ _ key body _ _) as [[p s] d] eqn:E. apply turn_keeps.
  by apply (pv_put HJ _ _ _ _ _ _ _ _ Hin Hk Hr E).
Qed.

Lemma reads_are_true key σ : let o := (get_chunk route send start key GET_RETRIES σ).1 in
  go_ok o = true → chunk_key (go_body o) = key.
Proof.
  unfold get_chunk. cbv zeta. destruct (negb (valid_key key)); [done|]. destruct (id_from_key key) as [k|]; [|done].
  destruct (lookup_with_recovery route start k GET_RETRIES σ) as [lr σ1]. destruct (negb (result_ok lr)); [done|].
  pose proof (try_get_verified send key (found lr) (mkGetOutcome false [] [] no_peer []) σ1 ltac:(done)) as [H1 _].
  destruct (try_get send key (found lr) _ σ1) as [[[o fin] d] σ2]. cbn [fst snd] in *. destruct fin; [done|].
  destruct (fallbacks route lr (unreachable d) σ2) as [more σ3].
  by apply get_rest_verified.
Qed.

(** A key that was read and found bad may be replaced. *)
Definition condemned (key : bytes) : Prop := ∃ t l σ, J l σ ∧
  bad_read key (store_get (lc_store l) (lc_disk l) key (os_readable (ar_os ar t))).

Lemma replace_corrupt_keeps key r : K key → condemned key → holds r → holds (replace_corrupt route send ar start key r).
Proof using HJ.
  intros Hin (t0 & l0 & σ0 & H0 & Hbad) Hr. unfold replace_corrupt. cbv zeta.
  assert (H1 : holds (local_remove ar key r)).
  { unfold holds. rewrite local_remove_net. by apply (pv_remove HJ t0 l0 σ0). }
  generalize dependent (local_remove ar key r). clear r Hr. intros r H1.
  set (r1 := tell r _). assert (H2 : holds r1) by done. clearbody r1. clear r H1.
  pose proof (reads_are_true key (rd_net r1)) as Hv. pose proof (get_chunk_keeps key GET_RETRIES (rd_local r1) (rd_net r1) H2) as H3.
  destruct (get_chunk route send start key GET_RETRIES (rd_net r1)) as [g σ]. cbn [snd fst] in *.
  set (r2 := turn ar _). assert (H4 : holds r2) by (by apply turn_keeps). clearbody r2. clear r1 H2 H3.
  destruct (go_ok g) eqn:Hg; [|done]. pose proof (local_put_keeps key (go_body g) r2 Hin (Hv eq_refl) H4) as H5.
  destruct (local_put ar key (go_body g) r2) as [p r']. by case_bool_decide.
Qed.

Lemma local_get_keeps key r : holds r → holds (local_get ar key r).2.
Proof using HJ. apply turn_keeps. Qed.

(** A read of the store, and what it shows if it is not the key's own bytes. *)
Lemma local_get_condemns key r : holds r → bad_read key (local_get ar key r).1 → condemned key.
Proof using. intros Hr Hb. by exists (rd_clock r), (rd_local r), (rd_net r). Qed.

Lemma offer_key_keeps to as_put a x : K x.1 → holds a.2 → holds (offer_key route send ar start to as_put a x).2.
Proof using HJ.
  destruct a as [ok r], x as [key digit]. cbn [fst snd]. intros Hin Hr. unfold offer_key. destruct (negb _); [done|].
  pose proof (local_get_condemns key r Hr) as Hc. pose proof (local_get_keeps key r Hr) as H1.
  destruct (local_get ar key r) as [g r1]. cbn [fst snd] in *. clear r Hr. destruct g as [body| | |]; try done.
  case_bool_decide as Hk; cbn [negb]; cbn [snd].
  - assert (Hh : honest K (store_line as_put key body) body) by (right; by exists as_put, key).
    pose proof (exchange_keeps to _ _ r1 Hh H1) as H2. destruct (exchange send ar to _ body r1) as [[d stored] r2].
    by destruct (_ && _).
  - apply replace_corrupt_keeps; [done|apply Hc; by intros c [= <-]|done].
Qed.

Lemma offer_batch_keeps to as_put a batch : Forall K batch → holds a.2 → holds (offer_batch route send ar start to as_put a batch).2.
Proof using HJ.
  destruct a as [ok r]. cbn [snd]. intros HK Hr. unfold offer_batch. cbv zeta. set (r1 := tell r _).
  assert (H1 : holds r1) by done. clearbody r1. clear r Hr.
  assert (Hh : honest K (have_line batch) []) by (left; split; [right; left; reflexivity|done]).
  pose proof (exchange_keeps to _ _ r1 Hh H1) as H2. destruct (exchange send ar to _ [] r1) as [[d answer] r2]. cbn [snd] in H2.
  destruct (have_digits _ _ _) as [digits|]; [|done].
  apply (foldl_keeps (λ a, holds a.2)); [|done]. intros a [key digit] Hx. apply offer_key_keeps.
  apply elem_of_zip_l in Hx. rewrite Forall_forall in HK. by apply HK.
Qed.

Lemma ask_digest_keeps to arc r : holds r → holds (ask_digest send ar to arc r).2.
Proof using HJ.
  intros Hr. unfold ask_digest. cbv zeta. set (r1 := tell _ _). assert (H1 : holds r1) by (by apply (turn_keeps r)). clearbody r1.
  assert (Hh : honest K (digest_line arc) []) by (left; split; [right; right; reflexivity|done]).
  pose proof (exchange_keeps to _ _ r1 Hh H1) as H2. destruct (exchange send ar to _ [] r1) as [[d answer] r2].
  by destruct (_ && _).
Qed.

Lemma offer_keeps to keys as_put arc r : Forall K keys → holds r → holds (offer route send ar start to keys as_put arc r).2.
Proof using HJ.
  intros HK Hr. unfold offer. pose proof (ask_digest_keeps to arc r Hr) as H1. destruct (ask_digest send ar to arc r) as [m r1].
  destruct m; [done|]. apply (foldl_keeps (λ a, holds a.2)); [|done]. intros a x Hx. apply offer_batch_keeps.
  apply Forall_forall. intros key Hin. rewrite Forall_forall in HK. apply HK.
  rewrite <- (cut_concat MAX_HAVE_KEYS keys) by (unfold MAX_HAVE_KEYS; lia). apply list_elem_of_In, in_concat.
  exists x. by rewrite <- !list_elem_of_In.
Qed.

Lemma scrub_key_keeps r key : K key → holds r → holds (scrub_key route send ar start r key).
Proof using HJ.
  intros HK Hr. unfold scrub_key. pose proof (local_get_condemns key r Hr) as Hc. pose proof (local_get_keeps key r Hr) as H1.
  destruct (local_get ar key r) as [g r1]. cbn [fst snd] in *.
  destruct g as [body| | |]; [case_bool_decide; [done|]|..]; (apply replace_corrupt_keeps; [done|apply Hc; by intros c [= <-]|done]).
Qed.

Lemma scrub_keeps r : holds r → holds (scrub route send ar start r).
Proof using HJ. intros Hr. unfold scrub. apply (foldl_keeps holds); [|by apply turn_keeps]. intros a x Hx.
  apply scrub_key_keeps, (pv_listed HJ x (rd_local r) (rd_net r) Hr). by apply held_key_true. Qed.

Lemma take_arc_split from owner keys : keys = (take_arc from owner keys).1 ++ (take_arc from owner keys).2.
Proof. induction keys as [|key keys IH]; [done|]. cbn [take_arc]. destruct (in_range_oc _ _ _); [|done]. destruct (take_arc from owner keys). cbn in *. by rewrite IH at 1. Qed.

Lemma listed_in_arc r a b : holds r → Forall K (store_keys_in_arc (lc_store (rd_local r)) a b).
Proof using HJ.
  intros Hr. apply Forall_forall. intros key Hin. apply list_elem_of_filter in Hin as [_ Hin].
  apply (pv_listed HJ key _ _ Hr). by apply held_key_true.
Qed.

Lemma hand_off_loop_keeps fuel foreign r : Forall K foreign → holds r → holds (hand_off_loop route send ar start fuel foreign r).
Proof using HJ.
  revert foreign r. induction fuel as [|fuel IH]; intros foreign r HK Hr; [done|]. destruct foreign as [|key foreign]; [done|].
  apply Forall_cons in HK as [Hkey HK].
  cbn [hand_off_loop]. pose proof (lookup_keeps (key_id key) (rd_local r) (rd_net r) Hr) as H1.
  destruct (lookup route start (key_id key) (rd_net r)) as [lr σ]. cbn [snd] in H1. cbv zeta.
  set (r1 := turn ar _). assert (H2 : holds r1) by (by apply turn_keeps). clearbody r1. clear r Hr H1.
  destruct (negb (result_ok lr)); [by apply IH|]. pose proof (take_arc_split (peer_id (default no_peer (last (path lr)))) (peer_id (found lr)) foreign) as Hsplit.
  destruct (take_arc _ _ foreign) as [more rest]. cbn in Hsplit. subst foreign. apply Forall_app in HK as [Hmore HK].
  destruct (same_process _ start); [by apply IH|].
  pose proof (offer_keeps (found lr) (key :: more) true (peer_id (default no_peer (last (path lr))), peer_id (found lr)) r1
    ltac:(by constructor) H2) as H3.
  destruct (offer route send ar start _ _ _ _ r1) as [o r2]. by apply IH.
Qed.

Lemma offer_all_keeps set keys arc r : Forall K keys → holds r → holds (offer_all route send ar start set keys arc r).2.
Proof using HJ.
  intros HK Hr. unfold offer_all. apply (foldl_keeps (λ a, holds a.2)); [|done]. intros [ok a] to _ Ha. cbn [snd] in Ha.
  pose proof (offer_keeps to keys false arc a HK Ha) as H1. by destruct (offer route send ar start to keys false arc a).
Qed.

Lemma repair_member_keeps full a i : holds a.2 → holds (repair_member route send ar start full a i).2.
Proof using HJ.
  destruct a as [[owned checked] r]. cbn [snd]. intros Hr. unfold repair_member.
  destruct (lc_members (rd_local r) !! i) as [m|]; [|done]. cbv zeta.
  pose proof (turn_keeps r Hr) as H1. destruct (_ || _); [done|].
  set (set := match lc_members _ !! i with Some _ => _ | None => _ end). clearbody set.
  pose proof (turn_keeps _ H1) as H2. destruct (_ && _); [done|].
  set (keys := store_keys_in_arc _ _ _).
  assert (HK : Forall K keys) by (by eapply listed_in_arc). clearbody keys.
  pose proof (offer_all_keeps (drop 1 set) keys (peer_id (ns_pred m), peer_id (ns_self m)) _ HK (turn_keeps _ H2)) as H3.
  destruct (offer_all route send ar start _ _ _ _) as [ok r']. done.
Qed.

Lemma round_keeps l st scan_every σ : J l σ → holds (run_round route send ar start l st scan_every σ).2.
Proof using HJ.
  intros H. unfold run_round. cbv zeta. set (full := full_scan_due _ _). clearbody full.
  set (r0 := mkRound _ _ _ _). assert (H0 : holds r0) by done. clearbody r0.
  set (r1 := if full then _ else r0). assert (H1 : holds r1) by (subst r1; destruct full; [by apply scrub_keeps|done]). clearbody r1.
  pose proof (foldl_keeps (λ a, holds a.2) (repair_member route send ar start full) (seq 0 (length (lc_members l)))
    ([], rs_checked st, r1) (λ a x _, repair_member_keeps full a x) H1) as H2.
  destruct (foldl _ _ _) as [[owned checked] r2]. cbn [snd] in *. destruct full; [|done].
  apply hand_off_loop_keeps; [|by apply turn_keeps]. apply Forall_forall. intros key Hin.
  apply list_elem_of_filter in Hin as [_ Hin]. apply (pv_listed HJ key _ _ H2). by apply held_key_true.
Qed.
End rules.

(** ** Repair never spreads a corrupt chunk *)
Section watching.
Context {SH : Sha1} {IN : Inet} {St : Type} (route : Transport St) (send : FrameTransport St) (ar : Around).

(** The same transports, with a record of every frame sent. *)
Definition Watched : Type := St * list (Peer * bytes * bytes).
Definition watched_route : Transport Watched := λ to line x,
  let '(answer, σ) := route to line x.1 in (answer, (σ, x.2)).
Definition watched_send : FrameTransport Watched := λ to line body x,
  let '(answer, σ) := send to line body x.1 in (answer, (σ, x.2 ++ [(to, line, body)])).

Definition all_honest (x : Watched) : Prop := Forall (λ f : Peer * bytes * bytes, honest (λ _, True) f.1.2 f.2) x.2.

Lemma watched_preserved : preserved watched_route watched_send ar (λ _, True) (λ _, all_honest).
Proof.
  split; try done.
  - intros p line l x H. unfold watched_route. by destruct (route p line x.1).
  - intros to line body l x Hh H. unfold watched_send, all_honest. destruct (send to line body x.1). cbn [snd].
    apply Forall_app. split; [done|]. by constructor.
Qed.

(** C12. Repair never spreads a corrupt chunk. Every frame a round sends either only
    asks (GET, HAVE, DIGEST, without a body) or is a STORE or PUT of a key together
    with bytes that hash to that key and the length they have - whatever is on the
    disk, whatever the other nodes, the operating system and the other threads do. *)
Theorem repair_sends_true_chunks n st scan_every σ :
  all_honest (repair_round watched_route watched_send ar n st scan_every (σ, [])).2.
Proof.
  unfold repair_round. destruct (cn_store n) as [s|]; [|by constructor]. destruct (cn_members n) as [|m ms]; [by constructor|].
  set (l := mkLocal _ _ _).
  pose proof (round_keeps watched_route watched_send ar (ns_self m) _ _ watched_preserved l st scan_every (σ, []) ltac:(by constructor)) as H.
  destruct (run_round watched_route watched_send ar (ns_self m) l st scan_every (σ, [])) as [st' r]. exact H.
Qed.
End watching.

(** ** The scrub heals the store *)
Section scrubbing.
Context {SH : Sha1} {IN : Inet} {St : Type} (route : Transport St) (send : FrameTransport St) (ar : Around) (start : Peer).
Implicit Types r : Round St.

(** What the round relies on of the other threads: the store they leave is one,
    and they put no wrong bytes behind a listed key. *)
Record others_careful : Prop := {
  oc_shaped t l : shaped l → shaped (ar_other ar t l);
  oc_clean t l k : shaped l → clean k l → clean k (ar_other ar t l);
}.
(** A chunk the other threads keep, on a disk that reads. *)
Record undisturbed (k : bytes) : Prop := {
  ud_good t l : shaped l → good k l → good k (ar_other ar t l);
  ud_reads t : os_readable (ar_os ar t) = true;
}.
(** A key whose place in the index and on the disk the other threads leave as it is. *)
Definition left_alone (k : bytes) : Prop := ∀ t l,
  held_key (lc_store (ar_other ar t l)) k = held_key (lc_store l) k ∧ on_disk (ar_other ar t l) k = on_disk l k.

Lemma shaped_removed key r : others_careful → shaped (rd_local r) → shaped (rd_local (local_remove ar key r)).
Proof.
  intros Ho. apply local_remove_keeps; [by apply oc_shaped|..]; intros t l.
  - intros H. by apply remove_index_step.
  - intros Hv H. by apply remove_unlink_step.
Qed.

Lemma shaped_preserved : others_careful → preserved route send ar (λ _, True) (λ l _, shaped l).
Proof.
  intros Ho. split; try done.
  - intros t l _ H. by apply oc_shaped.
  - intros t key body l _ p s d _ Hk H E. by destruct (store_put_step _ _ _ _ _ _ _ _ H Hk E).
  - intros t0 l0 _ key r _ _ H. by apply shaped_removed.
Qed.

Lemma clean_removed k key r : others_careful → shaped (rd_local r) → k = key ∨ clean k (rd_local r) →
  clean k (rd_local (local_remove ar key r)).
Proof.
  intros Ho Hr Hc. rewrite local_remove_eq. destruct (valid_key key) eqn:Hv.
  2: { destruct Hc as [->|Hc]; [|done]. intros Hh. by rewrite (sh_valid _ Hr key Hh) in Hv. }
  cbv zeta. set (l1 := unlisted _ _ _ _).
  assert (H1 : shaped l1 ∧ clean k l1).
  { destruct (remove_index_step (rd_local r) key (os_stats (ar_os ar (rd_clock r))) Hr) as (Hs & Hd & Hh). split; [done|].
    intros Hk c. subst l1. unfold unlisted in *. rewrite Hh in Hk. case_decide; [done|]. rewrite Hd. destruct Hc; [done|]. by auto. }
  clearbody l1. set (l2 := ar_other ar _ l1).
  assert (H2 : shaped l2 ∧ clean k l2) by (destruct H1; split; [by apply oc_shaped|by apply oc_clean]). clearbody l2.
  destruct H2 as [H2 H2'].
  destruct (remove_unlink_step l2 key (os_unlinks (ar_os ar (rd_clock r + 1))) H2 Hv) as (Hs & Hh & Hd).
  apply oc_clean; [done..|]. intros Hk c. unfold unlinked in *. rewrite Hh in Hk.
  destruct (Hd k (sh_valid _ H2 k Hk)) as [->|[_ ->]]; [|done]. by apply H2'.
Qed.

Lemma clean_preserved k : others_careful → preserved route send ar (λ _, True) (λ l _, shaped l ∧ clean k l).
Proof.
  intros Ho. pose proof (shaped_preserved Ho) as HS. split; try done.
  - intros t l σ [H1 H2]. split; [by apply (pv_other _ _ _ _ _ HS)|by apply oc_clean].
  - intros t key body l σ p s d HK Hk [H1 H2] E. split; [by eapply (pv_put _ _ _ _ _ HS t key body l σ)|by eapply put_clean].
  - intros t0 l0 σ0 key r _ _ [H1 H2]. split; [by apply shaped_removed|]. apply clean_removed; [done..|]. by right.
Qed.

(** A key the other threads leave alone goes from the index before it goes from the disk. *)
Lemma left_alone_whole k t l : left_alone k → whole k l → whole k (ar_other ar t l).
Proof. intros Ha Hw. destruct (Ha t l) as [E1 E2]. unfold whole. by rewrite E1, E2. Qed.

Lemma whole_removed k key r : others_careful → left_alone k → shaped (rd_local r) → k = key ∨ whole k (rd_local r) →
  whole k (rd_local (local_remove ar key r)).
Proof.
  intros Ho Ha Hr Hc. rewrite local_remove_eq. destruct (valid_key key) eqn:Hv.
  2: { destruct Hc as [->|Hc]; [|done]. intros Hh. by rewrite (sh_valid _ Hr key Hh) in Hv. }
  cbv zeta. unfold unlisted. set (st := os_stats (ar_os ar (rd_clock r))).
  destruct (remove_index_step (rd_local r) key st Hr) as (Hs & Hd & Hh).
  set (l1 := with_store _ _ _) in *. clearbody l1.
  set (l2 := ar_other ar _ l1). destruct (Ha (rd_clock r) l1) as [E1 E2]. fold l2 in E1, E2.
  assert (H2 : shaped l2) by (by apply oc_shaped). clearbody l2.
  apply left_alone_whole; [done|]. unfold unlinked. set (u := os_unlinks _).
  destruct (remove_unlink_step l2 key u H2 Hv) as (_ & Hh3 & _). intros Hk. rewrite Hh3, E1, Hh in Hk. case_decide as Hne; [done|].
  rewrite (remove_unlink_far l2 key u k H2 Hv Hne) by (by rewrite E1, Hh, decide_False).
  rewrite E2, Hd. destruct Hc; [done|]. by auto.
Qed.

Lemma whole_preserved k : others_careful → left_alone k → preserved route send ar (λ _, True) (λ l _, shaped l ∧ whole k l).
Proof.
  intros Ho Ha. pose proof (shaped_preserved Ho) as HS. split; try done.
  - intros t l σ [H1 H2]. split; [by apply (pv_other _ _ _ _ _ HS)|by apply left_alone_whole].
  - intros t key body l σ p s d HK Hk [H1 H2] E. split; [by eapply (pv_put _ _ _ _ _ HS t key body l σ)|by eapply put_whole].
  - intros t0 l0 σ0 key r _ _ [H1 H2]. split; [by apply shaped_removed|]. apply whole_removed; [done..|]. by right.
Qed.

Lemma good_preserved k : others_careful → undisturbed k → preserved route send ar (λ _, True) (λ l _, shaped l ∧ good k l).
Proof.
  intros Ho Hu. pose proof (shaped_preserved Ho) as HS. split; try done.
  - intros t l σ [H1 H2]. split; [by apply (pv_other _ _ _ _ _ HS)|by apply ud_good].
  - intros t key body l σ p s d HK Hk [H1 H2] E. split; [by eapply (pv_put _ _ _ _ _ HS t key body l σ)|by eapply put_good].
  - intros t0 l0 σ0 key r [H0 Hg0] Hb. assert (Hne : k ≠ key).
    { intros ->. rewrite (ud_reads _ Hu) in Hb. destruct (good_get l0 key H0 Hg0) as (c & Ec & Hc). by apply (Hb c). }
    apply (local_remove_keeps ar key (λ l, shaped l ∧ good k l)).
    + intros t l [H1 H2]. split; [by apply oc_shaped|by apply ud_good].
    + intros t l [H1 H2]. split; [by apply remove_index_step|]. unfold good, unlisted.
      by destruct (remove_index_far l key (os_stats (ar_os ar t)) k H1 Hne) as [-> ->].
    + intros t l Hv [H1 [Hh Hg]]. split; [by apply remove_unlink_step|]. split; [done|]. unfold unlinked.
      by rewrite (remove_unlink_far l key (os_unlinks (ar_os ar t)) k H1 Hv Hne Hh).
Qed.

Lemma bad_read_dec key g : bad_read key g ∨ ∃ c, g = Found c ∧ chunk_key c = key.
Proof.
  destruct g as [c| | |]; [|by left..]. destruct (decide (chunk_key c = key)) as [E|E]; [right; by exists c|left; by intros ? [= <-]].
Qed.

(** What a scrub leaves of a key: whatever the steps keep, a key not listed has, a
    key that reads well has and a removal establishes. *)
Section leaving.
Context (k : bytes) (P : Local → Prop).
Context (Hcareful : others_careful) (HP : preserved route send ar (λ _, True) (λ l _, shaped l ∧ P l)).
Context (Hnot : ∀ l, held_key (lc_store l) k = false → P l).
Context (Hread : ∀ l c, on_disk l k = Some c → chunk_key c = k → P l).
Context (Hremoved : ∀ r, shaped (rd_local r) → P (rd_local (local_remove ar k r))).

(** After its turn. *)
Lemma replace_corrupt_leaves r : shaped (rd_local r) → P (rd_local (replace_corrupt route send ar start k r)).
Proof using Hcareful HP Hremoved.
  intros Hr. unfold replace_corrupt. cbv zeta.
  assert (H1 : shaped (rd_local (local_remove ar k r)) ∧ P (rd_local (local_remove ar k r))).
  { split; [by apply shaped_removed|by apply Hremoved]. }
  generalize dependent (local_remove ar k r). clear r Hr. intros r H1.
  set (r1 := tell r _). assert (H2 : shaped (rd_local r1) ∧ P (rd_local r1)) by done. clearbody r1. clear r H1.
  pose proof (reads_are_true route send start k (rd_net r1)) as Hv.
  destruct (get_chunk route send start k GET_RETRIES (rd_net r1)) as [g σ]. cbn [fst] in *.
  set (r2 := turn ar _). assert (H3 : shaped (rd_local r2) ∧ P (rd_local r2)).
  { by apply (turn_keeps route send ar _ _ HP (r1 <| rd_net := σ |>)). }
  clearbody r2. clear r1 H2. destruct (go_ok g) eqn:Hg; [|apply H3].
  pose proof (local_put_keeps route send ar _ _ HP k (go_body g) r2 Logic.I (Hv eq_refl) H3) as H4.
  destruct (local_put ar k (go_body g) r2) as [p r']. destruct H4 as [_ H4]. by case_bool_decide.
Qed.

Lemma scrub_key_leaves r : shaped (rd_local r) → P (rd_local (scrub_key route send ar start r k)).
Proof using Hcareful HP Hread Hremoved.
  intros Hr. unfold scrub_key, local_get. set (r1 := turn ar r).
  assert (Hs1 : shaped (rd_local r1)) by (by apply (turn_keeps route send ar _ _ (shaped_preserved Hcareful) r)).
  destruct (bad_read_dec k (store_get (lc_store (rd_local r)) (lc_disk (rd_local r)) k (os_readable (os ar r)))) as [Hb|(c & E & Hc)].
  - destruct (store_get _ _ _ _) as [c| | |]; [rewrite bool_decide_false by (by apply Hb)|..]; by apply replace_corrupt_leaves.
  - rewrite E, bool_decide_true by done.
    assert (Hclean : P (rd_local r)).
    { apply (Hread _ c); [|done]. revert E. unfold store_get, on_disk.
      destruct (negb _); [done|]. destruct (om_find _ _); [|done]. destruct (negb _); [done|]. destruct (_ <? _)%N; [done|]. by intros [= <-]. }
    by apply (turn_keeps route send ar _ _ HP r).
Qed.

Lemma scrub_leaves r : shaped (rd_local r) → P (rd_local (scrub route send ar start r)).
Proof using Hcareful HP Hnot Hread Hremoved.
  intros Hr. unfold scrub. set (ks := store_keys (lc_store (rd_local r))). set (r1 := turn ar r).
  assert (Hs1 : shaped (rd_local r1)) by (by apply (turn_keeps route send ar _ _ (shaped_preserved Hcareful) r)).
  assert (H1 : k ∉ ks → P (rd_local r1)).
  { intros Hk. apply (turn_keeps route send ar _ _ HP r). split; [done|]. apply Hnot, not_true_is_false.
    intros Hh%held_key_true. done. }
  clearbody r1. clearbody ks. clear r Hr. revert r1 Hs1 H1. induction ks as [|key ks IH]; intros r Hr H1; cbn [foldl].
  { apply H1, not_elem_of_nil. }
  apply IH; [by apply (scrub_key_keeps route send ar start _ _ (shaped_preserved Hcareful) _ _ Logic.I)|].
  intros Hk. destruct (decide (k = key)) as [<-|Hne]; [by apply scrub_key_leaves|].
  apply (scrub_key_keeps route send ar start _ _ HP _ _ Logic.I). split; [done|]. apply H1.
  intros [?|?]%elem_of_cons; done.
Qed.
End leaving.

Lemma scrub_cleans k r : others_careful → shaped (rd_local r) → clean k (rd_local (scrub route send ar start r)).
Proof.
  intros Ho. apply (scrub_leaves k (clean k) Ho (clean_preserved k Ho)).
  - intros l Hn Hh. congruence.
  - intros l c E Hc _ c' E'. congruence.
  - intros r' Hr. apply clean_removed; [done..|]. by left.
Qed.

Lemma scrub_completes k r : others_careful → left_alone k → shaped (rd_local r) →
  whole k (rd_local (scrub route send ar start r)).
Proof.
  intros Ho Ha. apply (scrub_leaves k (whole k) Ho (whole_preserved k Ho Ha)).
  - intros l Hn Hh. congruence.
  - intros l c E Hc _. by exists c.
  - intros r' Hr. apply whole_removed; [done..|]. by left.
Qed.
End scrubbing.

(** ** What the other nodes promise *)
Section promises.
Context {SH : Sha1} {IN : Inet} {St : Type} (route : Transport St) (send : FrameTransport St).

(** [stored p k]: the process of [p] holds [k]. The interface between repair and
    the nodes it talks to, in worlds that satisfy [I]; [RepairNodes] discharges it
    for nodes that answer with [handle_chunk_request]. *)
Record replica_promises (K : bytes → Prop) (I : St → Prop) (stored : Peer → bytes → St → Prop) : Prop := {
  rp_world_route p line σ : I σ → I (route p line σ).2;
  rp_world_send to line body σ : honest K line body → I σ → I (send to line body σ).2;
  rp_keep_route p k q line σ : I σ → stored p k σ → stored p k (route q line σ).2;
  rp_keep_send p k to line body σ : honest K line body → I σ → stored p k σ → stored p k (send to line body σ).2;
  rp_have to batch σ d answer σ' digits i k : I σ → Forall (λ k, K k ∧ valid_key k = true) batch → 1 ≤ length batch ≤ MAX_HAVE_KEYS →
    send to (have_line batch) [] σ = ((d, answer), σ') → have_digits d answer.1 (length batch) = Some digits →
    batch !! i = Some k → digits !! i ≠ Some (chr 48) → stored to k σ';
  rp_store to key body σ answer σ' : I σ → K key → valid_key key = true → chunk_key body = key →
    send to (store_line false key body) body σ = ((Ok, answer), σ') → said_ok answer.1 = true → stored to key σ';
  rp_digest to arc held σ answer σ' k : I σ → NoDup held → Forall (λ k, K k ∧ valid_key k = true) held → is_u64 arc.1 → is_u64 arc.2 →
    send to (digest_line arc) [] σ = ((Ok, answer), σ') → answer.1 = lit "DIGEST " ++ keys_digest held →
    k ∈ held → stored to k σ';
}.
End promises.

Definition listed_in `{Sha1} (K : bytes → Prop) (l : Local) : Prop := ∀ key, held_key (lc_store l) key = true → K key.
Definition others_list `{Sha1} (ar : Around) (K : bytes → Prop) : Prop := ∀ t l, listed_in K l → listed_in K (ar_other ar t l).

Section checking.
Context {SH : Sha1} {IN : Inet} {St : Type} (route : Transport St) (send : FrameTransport St) (ar : Around) (start : Peer).
Context (K : bytes → Prop) (I : St → Prop) (stored : Peer → bytes → St → Prop) (HP : replica_promises route send K I stored).
Context (Hcareful : others_careful ar) (Hlist : others_list ar K) (k : bytes) (Hk : undisturbed ar k).
Implicit Types r : Round St.

(** A store that lists keys of [K] only. *)
Definition based (l : Local) : Prop := shaped l ∧ listed_in K l.

Lemma based_preserved : preserved route send ar K (λ l _, based l).
Proof using Hcareful Hlist.
  pose proof (shaped_preserved route send ar Hcareful) as HS. split; try done.
  - intros t l σ [H1 H2]. split; [by apply (oc_shaped _ Hcareful)|by apply Hlist].
  - intros key l σ [_ H]. apply H.
  - intros t key body l σ p s d HK Hkey [H1 H2] E. destruct (store_put_step _ _ _ _ _ _ _ _ H1 Hkey E) as (Hs & Hfar & _).
    split; [done|]. intros x Hx. destruct (decide (x = key)) as [->|Hne]; [done|].
    apply H2. rewrite <- (proj1 (Hfar x (sh_valid _ Hs x Hx) Hne)). exact Hx.
  - intros t0 l0 σ0 key r _ _. apply (local_remove_keeps ar key based).
    + intros t l [H1 H2]. split; [by apply (oc_shaped _ Hcareful)|by apply Hlist].
    + intros t l [H1 H2]. destruct (remove_index_step l key (os_stats (ar_os ar t)) H1) as (Hs & _ & Hh). split; [done|].
      intros x Hx. unfold unlisted in Hx. rewrite Hh in Hx. case_decide; [done|by apply H2].
    + intros t l Hv [H1 H2]. destruct (remove_unlink_step l key (os_unlinks (ar_os ar t)) H1 Hv) as (Hs & Hh & _).
      split; [done|]. intros x Hx. by apply H2.
Qed.

(** What is known of [k] while the round runs. *)
Definition tracked (l : Local) (σ : St) : Prop := I σ ∧ based l ∧ good k l.

Lemma tracked_preserved : preserved route send ar K tracked.
Proof using HP Hcareful Hlist Hk.
  pose proof (good_preserved route send ar k Hcareful Hk) as HG. pose proof based_preserved as HB. split.
  - intros t l σ (H1 & H2 & H3). split; [done|]. split; [by apply (pv_other _ _ _ _ _ HB t l σ)|]. by apply (ud_good _ _ Hk); [apply H2|].
  - intros p line l σ (H1 & H2). split; [by apply (rp_world_route _ _ _ _ _ HP)|done].
  - intros to line body l σ Hh (H1 & H2). split; [by apply (rp_world_send _ _ _ _ _ HP)|done].
  - intros key l σ (_ & [_ H] & _). apply H.
  - intros t key body l σ p s d HK Hkey (H1 & H2 & H3) E.
    split; [done|]. split; [by eapply (pv_put _ _ _ _ _ HB t key body l σ)|by eapply put_good; [apply H2|..]].
  - intros t0 l0 σ0 key r (_ & [H0 Hl0] & Hg) Hb (H1 & H2 & H3).
    split; [done|]. split; [by apply (pv_remove _ _ _ _ _ HB t0 l0 σ0 key r (conj H0 Hl0) Hb H2)|].
    apply (pv_remove _ _ _ _ _ HG t0 l0 σ0 key r (conj H0 Hg) Hb (conj (proj1 H2) H3)).
Qed.

Definition kept_at (p : Peer) (l : Local) (σ : St) : Prop := (I σ ∧ stored p k σ) ∧ based l.

Lemma kept_preserved p : preserved route send ar K (kept_at p).
Proof using HP Hcareful Hlist.
  pose proof based_preserved as HB. split.
  - intros t l σ [H1 H2]. split; [done|by apply (pv_other _ _ _ _ _ HB)].
  - intros q line l σ [[H1 H2] H3]. split; [split|done]; [by apply (rp_world_route _ _ _ _ _ HP)|by apply (rp_keep_route _ _ _ _ _ HP)].
  - intros to line body l σ Hh [[H1 H2] H3]. split; [split|done]; [by apply (rp_world_send _ _ _ _ _ HP)|by apply (rp_keep_send _ _ _ _ _ HP)].
  - intros key l σ [_ [_ H]]. apply H.
  - intros t key body l σ p' s d HK Hkey [H1 H2] E. split; [done|by eapply (pv_put _ _ _ _ _ HB t key body l σ)].
  - intros t0 l0 σ0 key r [_ H0] Hb [H1 H2]. split; [done|by apply (pv_remove _ _ _ _ _ HB t0 l0 σ0 key r)].
Qed.

Abbreviation Holds r := (tracked (rd_local r) (rd_net r)).
Abbreviation At p r := (kept_at p (rd_local r) (rd_net r)).

Lemma in_K keys : Forall (λ k, K k ∧ valid_key k = true) keys → Forall K keys.
Proof. intros H. eapply Forall_impl; [exact H|]. by intros x [? _]. Qed.

Lemma offer_key_true to as_put a x : (offer_key route send ar start to as_put a x).1 = true → a.1 = true.
Proof.
  destruct a as [ok r], x as [key digit]. unfold offer_key. destruct (negb _); [done|].
  destruct (local_get ar key r) as [g r1]. destruct g; try done. destruct (negb _); [done|].
  destruct (exchange send ar to _ out r1) as [[d s] r2]. by destruct (_ && _).
Qed.

Lemma fold_true {A B} (f : bool * A → B → bool * A) l a :
  (∀ a x, (f a x).1 = true → a.1 = true) → (foldl f a l).1 = true → a.1 = true.
Proof. intros Hf. revert a. induction l as [|x l IH]; intros a; [done|]. cbn [foldl]. intros H%IH. by eapply Hf. Qed.

Lemma offer_key_stores to a : Holds a.2 →
  (offer_key route send ar start to false a (k, chr 48)).1 = true → At to (offer_key route send ar start to false a (k, chr 48)).2.
Proof using HP Hcareful Hlist Hk.
  destruct a as [ok r]. cbn [snd]. intros Hr. unfold offer_key. rewrite bool_decide_true by done. cbn [negb].
  pose proof (local_get_keeps route send ar _ _ tracked_preserved k r Hr) as H1. unfold local_get in *.
  destruct Hr as (_ & [Hs Hli] & Hg). destruct (good_get _ _ Hs Hg) as (c & E & Hc). unfold os. rewrite (ud_reads _ _ Hk), E.
  cbn [snd] in H1. set (r1 := turn ar r) in *. clearbody r1.
  rewrite bool_decide_true by done. cbn [negb]. unfold exchange.
  destruct (send to (store_line false k c) c (rd_net r1)) as [[d answer] σ] eqn:Es.
  destruct (bool_decide (d = Ok) && said_ok answer.1) eqn:Ea; [|done].
  apply andb_true_iff in Ea as [->%bool_decide_eq_true Ha]. intros _.
  destruct H1 as (Hi & Hb1 & Hg1). assert (HKk : K k) by (apply Hli, Hg).
  assert (Hh : honest K (store_line false k c) c) by (right; by exists false, k).
  split; [split|exact (pv_other _ _ _ _ _ based_preserved _ _ σ Hb1)].
  - pose proof (rp_world_send _ _ _ _ _ HP to _ c _ Hh Hi) as X. rewrite Es in X. exact X.
  - by eapply (rp_store _ _ _ _ _ HP to k c (rd_net r1)); [done|done|apply (sh_valid _ Hs), Hg|..].
Qed.

(** One answered batch: every key answered with a zero is sent. *)
Lemma offer_keys_store to l a : Holds a.2 → Forall (λ x, K x.1) l → (k, chr 48) ∈ l →
  (foldl (offer_key route send ar start to false) a l).1 = true →
  At to (foldl (offer_key route send ar start to false) a l).2.
Proof using HP Hcareful Hlist Hk.
  revert a. induction l as [|x l IH]; intros a Ha HK Hin; [by apply elem_of_nil in Hin|]. cbn [foldl]. intros Ht.
  apply Forall_cons in HK as [Hx HK]. destruct (decide (x = (k, chr 48))) as [->|Hne].
  - pose proof (fold_true _ l _ (offer_key_true to false) Ht) as H1. pose proof (offer_key_stores to a Ha H1) as H2.
    apply (foldl_keeps (λ a, At to a.2)); [|done]. intros b y Hy. rewrite Forall_forall in HK.
    apply (offer_key_keeps route send ar start _ _ (kept_preserved to)). by apply HK.
  - apply elem_of_cons in Hin as [?|Hin]; [done|]. apply IH; [|done..].
    by apply (offer_key_keeps route send ar start _ _ tracked_preserved).
Qed.

Lemma offer_batch_true to as_put a b : (offer_batch route send ar start to as_put a b).1 = true → a.1 = true.
Proof.
  destruct a as [ok r]. unfold offer_batch. cbv zeta. destruct (exchange send ar to _ [] _) as [[d s] r2].
  destruct (have_digits _ _ _) as [digits|]; [|done]. intros H%fold_true; [done|]. apply offer_key_true.
Qed.

Lemma have_digits_length d line n digits : have_digits d line n = Some digits → length digits = n.
Proof.
  unfold have_digits. destruct (negb (bool_decide _)); [done|]. destruct (negb (starts_with _ _)); [done|]. cbn [orb].
  destruct (Nat.eqb_spec (length line) (5 + n)); [|done]. cbn [negb]. intros [= <-]. rewrite length_drop. lia.
Qed.

Lemma offer_batch_stores to a batch : Holds a.2 → k ∈ batch → Forall (λ k, K k ∧ valid_key k = true) batch →
  length batch ≤ MAX_HAVE_KEYS → (offer_batch route send ar start to false a batch).1 = true →
  At to (offer_batch route send ar start to false a batch).2.
Proof using HP Hcareful Hlist Hk.
  destruct a as [ok r]. cbn [snd]. intros Hr Hin Hv Hlen. unfold offer_batch. cbv zeta. set (r1 := tell r _).
  assert (H1 : Holds r1) by done. clearbody r1. clear r Hr.
  assert (Hh : honest K (have_line batch) []) by (left; split; [right; left; reflexivity|done]).
  pose proof (exchange_keeps route send ar _ _ tracked_preserved to _ _ r1 Hh H1) as H2. unfold exchange in *.
  destruct (send to (have_line batch) [] (rd_net r1)) as [[d answer] σ] eqn:Es. cbn [snd] in H2.
  set (r2 := turn ar _) in *. destruct (have_digits d answer.1 (length batch)) as [digits|] eqn:Ed; [|done].
  apply list_elem_of_lookup in Hin as [i Hi]. pose proof (lookup_lt_Some _ _ _ Hi) as Hlt.
  assert (Hd : i < length digits) by (by rewrite (have_digits_length _ _ _ _ Ed)).
  destruct (lookup_lt_is_Some_2 digits i Hd) as [c Hc].
  assert (Hz : (k, c) ∈ zip batch digits).
  { apply list_elem_of_lookup. exists i. apply lookup_zip_with_Some. by exists k, c. }
  assert (HKz : Forall (λ x : bytes * Ascii.ascii, K x.1) (zip batch digits)).
  { apply Forall_forall. intros [x y] Hx. apply elem_of_zip_l in Hx. rewrite Forall_forall in Hv. by apply Hv. }
  intros Ht. destruct (decide (c = chr 48)) as [->|Hne]; [by apply offer_keys_store|].
  assert (H3 : At to r2).
  { split; [|apply H2]. split; [apply H2|]. change (stored to k σ).
    apply (rp_have _ _ _ _ _ HP to batch (rd_net r1) d answer σ digits i k); try done; [apply H1|lia|congruence]. }
  apply (foldl_keeps (λ a, At to a.2)); [|done]. intros b y Hy. rewrite Forall_forall in HKz.
  apply (offer_key_keeps route send ar start _ _ (kept_preserved to)). by apply HKz.
Qed.

Lemma offer_batches_store to a batches : Holds a.2 → k ∈ concat batches →
  Forall (λ b, Forall (λ k, K k ∧ valid_key k = true) b ∧ length b ≤ MAX_HAVE_KEYS) batches →
  (foldl (offer_batch route send ar start to false) a batches).1 = true →
  At to (foldl (offer_batch route send ar start to false) a batches).2.
Proof using HP Hcareful Hlist Hk.
  intros Ha Hin Hall. revert a Ha Hin. induction Hall as [|b batches [Hv Hlen] Hall IH]; intros a Ha Hin; cbn [concat foldl] in *.
  { by apply elem_of_nil in Hin. }
  intros Ht. apply elem_of_app in Hin as [Hin|Hin].
  - pose proof (fold_true _ batches _ (offer_batch_true to false) Ht) as H1.
    pose proof (offer_batch_stores to a b Ha Hin Hv Hlen H1) as H2.
    apply (foldl_keeps (λ a, At to a.2)); [|done]. intros c y Hy.
    apply (offer_batch_keeps route send ar start _ _ (kept_preserved to)). rewrite Forall_forall in Hall.
    by apply in_K, Hall.
  - apply IH; [|done|done]. apply (offer_batch_keeps route send ar start _ _ tracked_preserved); [by apply in_K|done].
Qed.

Lemma keys_in_arc_valid l arc : based l → Forall (λ k, K k ∧ valid_key k = true) (store_keys_in_arc (lc_store l) arc.1 arc.2).
Proof.
  intros [Hs Hl]. apply Forall_forall. intros key Hin. apply list_elem_of_filter in Hin as [_ Hin%held_key_true].
  split; [by apply Hl|by apply (sh_valid _ Hs)].
Qed.

Lemma keys_in_arc_NoDup l a b : shaped l → NoDup (store_keys_in_arc (lc_store l) a b).
Proof. intros [Hs _ _]. apply NoDup_filter. by apply om_ok_nodup. Qed.

Definition in_arc (arc : Id * Id) : Prop := match id_from_key k with Some id => in_range_oc id arc.1 arc.2 = true | None => False end.

Lemma good_in_arc l arc : good k l → in_arc arc → k ∈ store_keys_in_arc (lc_store l) arc.1 arc.2.
Proof.
  intros [Hh _] Ha. apply list_elem_of_filter. unfold in_arc in Ha. destruct (id_from_key k); [|done].
  split; [done|by apply held_key_true].
Qed.

Lemma ask_digest_stores to arc r : Holds r → in_arc arc → is_u64 arc.1 → is_u64 arc.2 →
  (ask_digest send ar to arc r).1 = true → At to (ask_digest send ar to arc r).2.
Proof using HP Hcareful Hlist Hk.
  intros Hr Ha H1 H2. unfold ask_digest. cbv zeta. set (held := store_keys_in_arc _ _ _). set (r1 := tell _ _).
  assert (Hr1 : Holds r1) by (by apply (turn_keeps route send ar _ _ tracked_preserved r)). clearbody r1.
  assert (Hh : honest K (digest_line arc) []) by (left; split; [right; right; reflexivity|done]).
  unfold exchange. destruct (send to (digest_line arc) [] (rd_net r1)) as [[d answer] σ] eqn:Es.
  destruct (bool_decide (d = Ok) && _) eqn:E; [|done].
  apply andb_true_iff in E as [->%bool_decide_eq_true E%bool_decide_eq_true]. intros _.
  destruct Hr1 as (Hi & Hb & _). destruct Hr as (_ & Hs & Hg).
  split; [split|exact (pv_other _ _ _ _ _ based_preserved _ _ σ Hb)].
  - pose proof (rp_world_send _ _ _ _ _ HP to _ [] _ Hh Hi) as X. rewrite Es in X. exact X.
  - by eapply (rp_digest _ _ _ _ _ HP to arc held (rd_net r1)); [done|by apply keys_in_arc_NoDup; apply Hs|by apply keys_in_arc_valid|done..|by apply good_in_arc].
Qed.

(** An offer that succeeded left the key with the process it was made to. *)
Lemma offer_stores to keys arc r : Holds r → in_arc arc → is_u64 arc.1 → is_u64 arc.2 → k ∈ keys →
  Forall (λ k, K k ∧ valid_key k = true) keys →
  (offer route send ar start to keys false arc r).1 = true → At to (offer route send ar start to keys false arc r).2.
Proof using HP Hcareful Hlist Hk.
  intros Hr Ha H1 H2 Hin Hv. unfold offer. pose proof (ask_digest_stores to arc r Hr Ha H1 H2) as Hd.
  pose proof (ask_digest_keeps route send ar _ _ tracked_preserved to arc r Hr) as Hr1.
  destruct (ask_digest send ar to arc r) as [m r1]. cbn [fst snd] in *. destruct m; [done|]. intros Ht.
  apply offer_batches_store; [done| | |done].
  - by rewrite cut_concat by (unfold MAX_HAVE_KEYS; lia).
  - eapply Forall_impl; [apply cut_go_sizes; unfold MAX_HAVE_KEYS; lia|]. intros b [Hb Hsub].
    split; [|lia]. apply Forall_forall. intros x Hx. rewrite Forall_forall in Hv. by apply Hv, Hsub.
Qed.

Lemma offer_all_stores set keys arc r : Holds r → in_arc arc → is_u64 arc.1 → is_u64 arc.2 → k ∈ keys →
  Forall (λ k, K k ∧ valid_key k = true) keys →
  (offer_all route send ar start set keys arc r).1 = true →
  ∀ p, p ∈ set → At p (offer_all route send ar start set keys arc r).2.
Proof using HP Hcareful Hlist Hk.
  intros Hr Ha H1 H2 Hin Hv. unfold offer_all.
  set (f := λ '(ok, r) to, let '(o, r) := offer route send ar start to keys false arc r in (o && ok, r)).
  assert (Hf : ∀ a x, (f a x).1 = true → a.1 = true ∧ (offer route send ar start x keys false arc a.2).1 = true).
  { intros [ok a] x. unfold f. destruct (offer route send ar start x keys false arc a) as [o b] eqn:E. cbn. rewrite E.
    by intros [? ?]%andb_true_iff. }
  assert (Hsnd : ∀ a x, (f a x).2 = (offer route send ar start x keys false arc a.2).2).
  { intros [ok a] x. unfold f. cbn. by destruct (offer route send ar start x keys false arc a). }
  change (Holds (true, r).2) in Hr. generalize dependent (true, r). clear r. clearbody f.
  induction set as [|to set IH]; intros a Ha' Ht p Hp; [by apply elem_of_nil in Hp|]. cbn [foldl] in *.
  assert (Hnext : Holds (f a to).2) by (rewrite Hsnd; by apply (offer_keeps route send ar start _ _ tracked_preserved); [by apply in_K|]).
  apply elem_of_cons in Hp as [->|Hp]; [|by apply IH].
  apply (foldl_keeps (λ a, At to a.2)).
  - intros b y _. rewrite Hsnd. apply (offer_keeps route send ar start _ _ (kept_preserved to)). by apply in_K.
  - assert (Hft : (f a to).1 = true) by (apply (fold_true f set _ (λ a x H, proj1 (Hf a x H))), Ht).
    rewrite Hsnd. by apply offer_stores, Hf.
Qed.
End checking.

(** ** A whole round, while the ring is still *)
Section rounds.
Context {SH : Sha1} {IN : Inet} {St : Type} (route : Transport St) (send : FrameTransport St) (ar : Around) (start : Peer).
Implicit Types r : Round St.

Definition others_still : Prop := ∀ t l, lc_members (ar_other ar t l) = lc_members l.
Context (Hstill : others_still).

Definition member_arc (m : NodeState) : Id * Id := (peer_id (ns_pred m), peer_id (ns_self m)).
Definition member_id (m : NodeState) : Id := peer_id (ns_self m).
Definition knows_arc (m : NodeState) : Prop := ns_has_pred m = true ∧ ns_orphaned m = false.
(** What a check of the member's arc records. *)
Definition check_of (m : NodeState) : ArcCheck := mkArcCheck (peer_id (ns_pred m)) (address <$> drop 1 (replica_set m RF)).

(** One member's turn. *)
Lemma repair_member_eq full owned checked r i m :
  lc_members (rd_local r) !! i = Some m →
  repair_member route send ar start full (owned, checked, r) i =
  if negb (ns_has_pred m) || ns_orphaned m then (owned, checked, turn ar r)
  else if bool_decide (checked !! member_id m = Some (check_of m)) && negb full
  then (owned ++ [member_arc m], checked, turn ar (turn ar r))
  else
    let r2 := turn ar (turn ar r) in
    let keys := store_keys_in_arc (lc_store (rd_local r2)) (member_arc m).1 (member_arc m).2 in
    let '(ok, r3) := offer_all route send ar start (drop 1 (replica_set m RF)) keys (member_arc m) (turn ar r2) in
    (owned ++ [member_arc m], if ok then <[member_id m := check_of m]> checked else delete (member_id m) checked,
     tell r3 ((rd_rep r3) <| rr_arcs_checked := rr_arcs_checked (rd_rep r3) + 1 |>)).
Proof using Hstill.
  intros Hm. unfold repair_member. rewrite Hm. cbv zeta.
  assert (E : lc_members (rd_local (turn ar r)) !! i = Some m) by (unfold turn; upd; by rewrite Hstill).
  rewrite E. done.
Qed.

Lemma repair_member_checked full owned checked r i m j mj :
  lc_members (rd_local r) !! i = Some m → lc_members (rd_local r) !! j = Some mj → member_id mj ≠ member_id m →
  (repair_member route send ar start full (owned, checked, r) i).1.2 !! member_id mj = checked !! member_id mj.
Proof using Hstill.
  intros Hm Hj Hne. rewrite (repair_member_eq _ _ _ _ _ _ Hm). destruct (_ || _); [done|]. destruct (_ && _); [done|]. cbv zeta.
  destruct (offer_all _ _ _ _ _ _ _ _) as [ok r']. cbn [fst snd]. destruct ok; [by rewrite lookup_insert_ne|by rewrite lookup_delete_ne].
Qed.

Section tracking.
Context (K : bytes → Prop) (I : St → Prop) (stored : Peer → bytes → St → Prop) (HP : replica_promises route send K I stored).
Context (Hcareful : others_careful ar) (Hlist : others_list ar K) (k : bytes) (Hk : undisturbed ar k).
Context (ms : list NodeState) (Hids : NoDup (member_id <$> ms)) (i : nat) (m : NodeState) (Hm : ms !! i = Some m).
Context (Hknows : knows_arc m) (Harc : in_arc k (member_arc m)) (Hu1 : is_u64 (peer_id (ns_pred m))) (Hu2 : is_u64 (member_id m)).

Definition tracked_ms (l : Local) (σ : St) : Prop := tracked K I k l σ ∧ lc_members l = ms.
Lemma tracked_ms_preserved : preserved route send ar K tracked_ms.
Proof using HP Hcareful Hlist Hk Hstill.
  pose proof (tracked_preserved route send ar K I stored HP Hcareful Hlist k Hk) as HT. split.
  - intros t l σ [H1 H2]. split; [by apply (pv_other _ _ _ _ _ HT)|by rewrite Hstill].
  - intros p line l σ [H1 H2]. split; [by apply (pv_route _ _ _ _ _ HT)|done].
  - intros to line body l σ Hh [H1 H2]. split; [by apply (pv_send _ _ _ _ _ HT)|done].
  - intros key l σ [H _]. by apply (pv_listed _ _ _ _ _ HT key l σ).
  - intros t key body l σ p s d HK Hkey [H1 H2] E. split; [by eapply (pv_put _ _ _ _ _ HT)|done].
  - intros t0 l0 σ0 key r [H0 _] Hb [H1 H2]. split; [by apply (pv_remove _ _ _ _ _ HT t0 l0 σ0)|].
    rewrite <- H2. apply (local_remove_keeps ar key (λ l, lc_members l = lc_members (rd_local r))); [|done..].
    intros t l <-. apply Hstill.
Qed.

Definition full_kept r : Prop := tracked_ms (rd_local r) (rd_net r).
Definition safe_at r : Prop := ∀ p, p ∈ drop 1 (replica_set m RF) → kept_at K I stored k p (rd_local r) (rd_net r).

Lemma my_turn full a : full_kept a.2 → full = true ∨ a.1.2 !! member_id m ≠ Some (check_of m) →
  (repair_member route send ar start full a i).1.2 !! member_id m = Some (check_of m) →
  safe_at (repair_member route send ar start full a i).2.
Proof using HP Hcareful Hlist Hk Hstill Hm Hknows Harc Hu1 Hu2.
  destruct a as [[owned checked] r]. cbn [fst snd]. intros [Hr Hms] Hdue.
  assert (Hmi : lc_members (rd_local r) !! i = Some m) by (by rewrite Hms).
  rewrite (repair_member_eq _ _ _ _ _ _ Hmi). destruct Hknows as [-> ->]. cbn [negb orb].
  destruct (bool_decide _ && _) eqn:E.
  { apply andb_true_iff in E as [E1%bool_decide_eq_true E2%negb_true_iff]. destruct Hdue; congruence. }
  cbv zeta. set (r2 := turn ar (turn ar r)).
  pose proof (tracked_preserved route send ar K I stored HP Hcareful Hlist k Hk) as HT.
  assert (H2 : tracked K I k (rd_local r2) (rd_net r2)) by (by do 2 apply (turn_keeps route send ar _ _ HT)).
  clearbody r2. set (keys := store_keys_in_arc _ _ _).
  pose proof (offer_all_stores route send ar start K I stored HP Hcareful Hlist k Hk (drop 1 (replica_set m RF)) keys (member_arc m) (turn ar r2)
    (turn_keeps route send ar _ _ HT r2 H2) Harc Hu1 Hu2 (good_in_arc k _ _ (proj2 (proj2 H2)) Harc)
    (keys_in_arc_valid K _ _ (proj1 (proj2 H2)))) as H3.
  destruct (offer_all _ _ _ _ _ _ _ _) as [ok r3]. cbn [fst snd] in *. destruct ok; [|by rewrite lookup_delete_eq].
  intros _ p Hp. exact (H3 eq_refl p Hp).
Qed.


Lemma members_before full js a : Forall (λ j, j ≠ i ∧ j < length ms) js → full_kept a.2 →
  let a' := foldl (repair_member route send ar start full) a js in
  full_kept a'.2 ∧ a'.1.2 !! member_id m = a.1.2 !! member_id m.
Proof using HP Hcareful Hlist Hk Hstill Hm Hids.
  revert a. induction js as [|j js IH]; intros a Hall Ha; cbv zeta; [done|]. cbn [foldl].
  apply Forall_cons in Hall as [[Hji Hj] Hall]. destruct (lookup_lt_is_Some_2 ms j Hj) as [mj Hmj].
  assert (Hne : member_id m ≠ member_id mj).
  { intros E. apply Hji. eapply (NoDup_lookup _ j i (member_id m) Hids); rewrite list_lookup_fmap; [by rewrite Hmj, E|by rewrite Hm]. }
  assert (H1 : full_kept (repair_member route send ar start full a j).2).
  { by apply (repair_member_keeps route send ar start _ _ tracked_ms_preserved). }
  destruct (IH _ Hall H1) as [H2 E]. split; [done|]. rewrite E. destruct a as [[owned checked] r]. destruct Ha as [_ Hms].
  apply (repair_member_checked _ _ _ _ _ mj i m); cbn [snd] in Hms; rewrite ?Hms; done.
Qed.

(** The member's arc is on its replicas once the round has recorded its check. *)
Lemma members_safe full a : full_kept a.2 → full = true ∨ a.1.2 !! member_id m ≠ Some (check_of m) →
  let a' := foldl (repair_member route send ar start full) a (seq 0 (length ms)) in
  a'.1.2 !! member_id m = Some (check_of m) → safe_at a'.2.
Proof using HP Hcareful Hlist Hk Hstill Hm Hids Hknows Harc Hu1 Hu2.
  intros Ha Hdue. pose proof (lookup_lt_Some _ _ _ Hm) as Hlt.
  replace (length ms) with (i + Datatypes.S (length ms - i - 1)) by lia. rewrite seq_app. cbn [seq plus]. rewrite foldl_app. cbv zeta. cbn [foldl].
  assert (Hbefore : Forall (λ j, j ≠ i ∧ j < length ms) (seq 0 i)) by (apply Forall_seq; lia).
  assert (Hafter : Forall (λ j, j ≠ i ∧ j < length ms) (seq (Datatypes.S i) (length ms - i - 1))) by (apply Forall_seq; lia).
  destruct (members_before full (seq 0 i) a Hbefore Ha) as [H1 E1]. cbv zeta in *.
  set (a1 := foldl _ a (seq 0 i)) in *. clearbody a1. rewrite <- E1 in Hdue.
  assert (H2 : full_kept (repair_member route send ar start full a1 i).2).
  { by apply (repair_member_keeps route send ar start _ _ tracked_ms_preserved). }
  pose proof (my_turn full a1 H1 Hdue) as Hturn. set (a2 := repair_member route send ar start full a1 i) in *. clearbody a2.
  destruct (members_before full _ a2 Hafter H2) as [H3 E3]. cbv zeta in *. intros E. rewrite E3 in E. specialize (Hturn E).
  intros p Hp. apply (foldl_keeps (λ a, kept_at K I stored k p (rd_local a.2) (rd_net a.2))); [|by apply Hturn].
  intros b y _. apply (repair_member_keeps route send ar start _ _ (kept_preserved route send ar K I stored HP Hcareful Hlist k p)).
Qed.

Lemma round_safe st scan_every l σ : tracked_ms l σ →
  full_scan_due (rs_round st + 1) scan_every = true ∨ rs_checked st !! member_id m ≠ Some (check_of m) →
  let '(st', r) := run_round route send ar start l st scan_every σ in
  rs_checked st' !! member_id m = Some (check_of m) → safe_at r.
Proof using HP Hcareful Hlist Hk Hstill Hm Hids Hknows Harc Hu1 Hu2.
  intros Hl Hdue. unfold run_round. cbv zeta. set (full := full_scan_due _ _) in *. clearbody full.
  set (r0 := mkRound l _ _ _). assert (H0 : full_kept r0) by done. clearbody r0.
  set (r1 := if full then scrub route send ar start r0 else r0).
  assert (H1 : full_kept r1).
  { subst r1. destruct full; [|done]. by apply (scrub_keeps route send ar start _ _ tracked_ms_preserved). }
  clearbody r1. pose proof (members_safe full ([], rs_checked st, r1) H1 Hdue) as Hs. destruct Hl as [_ ->]. cbv zeta in Hs.
  destruct (foldl _ _ _) as [[owned checked] r2]. cbn [fst snd] in *. intros E. specialize (Hs E). destruct full; [|done].
  intros p Hp. specialize (Hs p Hp). pose proof (kept_preserved route send ar K I stored HP Hcareful Hlist k p) as HKp.
  unfold hand_off. apply (hand_off_loop_keeps route send ar start _ _ HKp); [|by apply (turn_keeps route send ar _ _ HKp)].
  apply Forall_forall. intros key Hin. apply list_elem_of_filter in Hin as [_ Hin%held_key_true].
  by apply (pv_listed _ _ _ _ _ HKp key _ _ Hs).
Qed.
End tracking.

(** A member whose arc and replicas are as they were recorded. *)
Definition settled_member (checked : gmap Z ArcCheck) (m : NodeState) : Prop :=
  knows_arc m → checked !! member_id m = Some (check_of m).

Lemma members_at_rest checked js owned r : (∀ m, m ∈ lc_members (rd_local r) → settled_member checked m) →
  let a := foldl (repair_member route send ar start false) (owned, checked, r) js in
  a.1.2 = checked ∧ rd_net a.2 = rd_net r ∧ rd_rep a.2 = rd_rep r.
Proof using Hstill.
  revert owned r. induction js as [|i js IH]; intros owned r Hset; cbv zeta; [done|]. cbn [foldl].
  assert (H1 : ∃ owned' r', repair_member route send ar start false (owned, checked, r) i = (owned', checked, r') ∧
    rd_net r' = rd_net r ∧ rd_rep r' = rd_rep r ∧ lc_members (rd_local r') = lc_members (rd_local r)).
  { destruct (lc_members (rd_local r) !! i) as [m|] eqn:Hm; [|by exists owned, r; unfold repair_member; rewrite Hm].
    assert (Ht : ∀ r, lc_members (rd_local (turn ar r)) = lc_members (rd_local r)) by (intros; unfold turn; upd; apply Hstill).
    rewrite (repair_member_eq _ _ _ _ _ _ Hm). destruct (negb (ns_has_pred m) || ns_orphaned m) eqn:E.
    - exists owned, (turn ar r). by rewrite Ht.
    - apply orb_false_iff in E as [E1%negb_false_iff E2].
      rewrite bool_decide_true by (apply Hset; [by eapply list_elem_of_lookup_2|by split]). cbn [negb andb].
      exists (owned ++ [member_arc m]), (turn ar (turn ar r)). by rewrite !Ht. }
  destruct H1 as (owned' & r' & -> & En & Er & Em). destruct (IH owned' r') as (? & -> & ->); [by rewrite Em|].
  by rewrite En, Er.
Qed.
End rounds.

(** ** Theorems *)
Section claims.
Context {SH : Sha1} {IN : Inet} {St : Type} (route : Transport St) (send : FrameTransport St) (ar : Around) (start : Peer).
Implicit Types r : Round St.

(** C13. The scrub heals the store. Whatever the disk held before - rotten bytes, files
    that are gone, files that cannot be read or removed - and whatever the other
    threads do, short of putting wrong bytes behind a listed key: after a scrub no
    key the store lists has other bytes than its own behind it. A key whose entry
    and file they leave alone is listed only with its bytes there; another may be
    listed without a file, where a write came between the two steps of its removal.
    And every chunk that was good and that the other threads kept good is still
    there, if the disk's reads do not fail. *)
Theorem scrub_heals r : others_careful ar → shaped (rd_local r) →
  let l' := rd_local (scrub route send ar start r) in
  shaped l' ∧ (∀ k, clean k l') ∧ (∀ k, left_alone ar k → whole k l') ∧
  (∀ k, undisturbed ar k → good k (rd_local r) → good k l').
Proof.
  intros Ho Hr. split_and!.
  - by apply (scrub_keeps route send ar start _ _ (shaped_preserved route send ar Ho) r).
  - intros k. by apply scrub_cleans.
  - intros k Ha. by apply scrub_completes.
  - intros k Hk Hg. by apply (scrub_keeps route send ar start _ _ (good_preserved route send ar k Ho Hk)).
Qed.

(** Repair is driven by what is, not by what it was told: while the members' arcs
    and replicas are as recorded, a round between full scans sends nothing, does
    nothing and records nothing new. *)
Theorem ring_at_rest_is_left_alone l st scan_every σ :
  others_still ar → full_scan_due (rs_round st + 1) scan_every = false →
  (∀ m, m ∈ lc_members l → settled_member (rs_checked st) m) →
  let '(st', r) := run_round route send ar start l st scan_every σ in
  rd_net r = σ ∧ rd_rep r = empty_report ∧ rs_checked st' = rs_checked st.
Proof.
  intros Hstill Hfull Hset. unfold run_round. cbv zeta. rewrite Hfull. set (r0 := mkRound l _ _ _).
  destruct (members_at_rest route send ar start Hstill (rs_checked st) (seq 0 (length (lc_members l))) [] r0 Hset) as (H1 & H2 & H3).
  destruct (foldl _ _ _) as [[owned checked] r]. cbn [fst snd] in *. by rewrite H1, H2, H3.
Qed.
End claims.
