(* ===== verification/RepairNodes.v ===== *)
(** * RepairNodes: repair between nodes

    The world repair works in: processes that answer with [handle_chunk_request],
    calls that may fail before or after the other side has acted. Such a world keeps
    the promises repair relies on ([nodes_promise]), so an arc recorded as checked
    really is on its replicas. *)
From S2P Require Import Prelude Text Net Chord Lookup Routing OrdMap Store Stabilize StabilizeInv Ring Chunk Replication Manifest ManifestTree Repair RepairSpec.

(** ** The digest of a list of keys *)

Lemma concat_same_length {A} (k : nat) (l l' : list (list A)) :
  0 < k → Forall (λ x, length x = k) l → Forall (λ x, length x = k) l' → concat l = concat l' → l = l'.
Proof.
  intros Hk Hl. revert l'. induction Hl as [|x l Hx Hl IH]; intros l' Hl' E; destruct Hl' as [|y l' Hy Hl']; cbn [concat] in E.
  - done.
  - destruct y; [cbn in Hy; lia|done].
  - destruct x; [cbn in Hx; lia|done].
  - apply app_inj_1 in E as [-> E]; [|lia]. f_equal. by apply IH.
Qed.

Section digests.
Context {SH : Sha1}.

(** No two different lists of keys of [U] have one digest. *)
Definition listing_of (U a : list bytes) : Prop := NoDup a ∧ Forall (λ k, k ∈ U ∧ valid_key k = true) a.
Definition digests_apart (U : list bytes) : Prop := ∀ a b, listing_of U a → listing_of U b → keys_digest a = keys_digest b → a = b.
End digests.

(** ** The world *)
Section nodes.
Context {SH : Sha1}.

(** The process at each address. *)
Definition Nodes : Type := bytes → ChunkNode.

(** How calls go: lost before the other side acts, or its answer lost after. [away]
    carries the copies a coordinator makes. *)
Record Calls := mkCalls {
  ca_lost : Peer → bytes → Nodes → option Delivery;
  ca_late : Peer → bytes → Nodes → option Delivery;
  ca_os : Peer → bytes → Nodes → Os;
  ca_schedule : Peer → bytes → Nodes → Schedule;
  ca_away : FrameTransport unit;
  ca_route : Peer → bytes → Nodes → Delivery * bytes;
}.

Definition nodes_route (c : Calls) : Transport Nodes := λ to line w, (ca_route c to line w, w).
Definition nodes_send (c : Calls) : FrameTransport Nodes := λ to line body w,
  match ca_lost c to line w with
  | Some d => ((d, ([], [])), w)
  | None =>
      let '(h, n, _) := handle_chunk_request (w (address to)) (ca_away c) line body (ca_os c to line w) (ca_schedule c to line w) tt in
      (match ca_late c to line w with Some d => (d, ([], [])) | None => (Ok, (h_reply h, h_body h)) end,
       λ a, if bool_decide (a = address to) then n else w a)
  end.

(** Every process is sound and lists keys of [U] only. *)
Definition nodes_ok (U : list bytes) (w : Nodes) : Prop := ∀ a,
  process_ok (w a) ∧ ∀ s, cn_store (w a) = Some s → ∀ k, store_has s k = true → k ∈ U.
Definition holds_chunk (p : Peer) (k : bytes) (w : Nodes) : Prop :=
  ∃ s, cn_store (w (address p)) = Some s ∧ store_has s k = true.

(** ** Requests, word by word *)

Lemma have_words batch : Forall (λ k, valid_key k = true) batch → split_single_spaces (have_line batch) = lit "HAVE" :: batch.
Proof.
  intros Hv. apply split_verb_words; [apply (bool_decide_unpack _); by vm_compute|].
  eapply Forall_impl; [exact Hv|]. intros k. apply valid_key_no_space.
Qed.

Lemma store_words key body : valid_key key = true →
  split_single_spaces (store_line false key body) = [lit "STORE"; key; dec (N.of_nat (length body))].
Proof.
  intros Hv. assert (E : store_line false key body = join SPACE [lit "STORE"; key; dec (N.of_nat (length body))]) by done.
  rewrite E. apply split_on_join; [done|]. repeat constructor; [apply (bool_decide_unpack _); by vm_compute|by apply valid_key_no_space|].
  apply dec_no_space.
Qed.

Lemma digest_words arc : split_single_spaces (digest_line arc) = [lit "DIGEST"; id_to_hex arc.1; id_to_hex arc.2].
Proof.
  assert (E : digest_line arc = join SPACE [lit "DIGEST"; id_to_hex arc.1; id_to_hex arc.2]) by done.
  rewrite E. apply split_on_join; [done|]. repeat constructor; [apply (bool_decide_unpack _); by vm_compute|apply id_to_hex_no_space..].
Qed.

Lemma split_head_starts line w ws : split_single_spaces line = w :: ws → starts_with w line = true.
Proof.
  intros E. assert (Ej : line = join SPACE (w :: ws)) by (rewrite <- E; symmetry; apply join_split_on).
  rewrite Ej. destruct ws as [|w' ws]; [cbn; rewrite <- (app_nil_r w) at 2; apply starts_with_app|].
  change (join SPACE (w :: w' :: ws)) with (w ++ SPACE :: join SPACE (w' :: ws)). apply starts_with_app.
Qed.

(** A round's frames are no DROPs. *)
Lemma honest_not_drop K line body ws : honest K line body → split_single_spaces line ≠ lit "DROP" :: ws.
Proof.
  intros Hh E%split_head_starts. apply starts_with_Some in E. rewrite E in Hh. clear E.
  destruct Hh as [[[H|[H|H]] _]|(as_put & key & _ & _ & H)]; [done..|]. by destruct as_put.
Qed.

(** ** Requests and the index *)

Lemma put_lists s d key body env now r s' d' k :
  store_put s d key body env now = (r, s', d') → store_has s' k = true → k = key ∨ store_has s k = true.
Proof.
  unfold store_put. destruct (negb _); [by intros [= _ <- _]; right|]. destruct (_ <? _)%N; [by intros [= _ <- _]; right|].
  destruct (negb _); [by intros [= _ <- _]; right|]. destruct (held_key s key) eqn:Hh; [by intros [= _ <- _]; right|].
  destruct (put_write s d key body env) as [[ok s1] d1] eqn:Ew.
  assert (Hk1 : ∀ x, held_key s1 x = held_key s x).
  { intros x. revert Ew. unfold put_write. repeat case_match; by intros [= _ <- _]. }
  destruct (negb ok); intros [= _ <- _]; unfold store_has; [rewrite Hk1; by right|].
  unfold put_commit. rewrite Hk1, Hh. unfold held_key at 1, store_touch. upd. rewrite om_find_set.
  case_decide as E; [by left|]. intros H. right. rewrite <- Hk1. exact H.
Qed.

Lemma put_lists_key s d key body env now r s' d' :
  store_put s d key body env now = (r, s', d') → put_held r = true → store_has s' key = true.
Proof.
  unfold store_put. destruct (negb _); [by intros [= <- _ _]|]. destruct (_ <? _)%N; [by intros [= <- _ _]|].
  destruct (negb _); [by intros [= <- _ _]|]. destruct (held_key s key) eqn:Hh; [by intros [= _ <- _]|].
  destruct (put_write s d key body env) as [[ok s1] d1]. destruct (negb ok); [by intros [= <- _ _]|]. intros [= _ <- _] _.
  unfold store_has, put_commit. destruct (held_key s1 key) eqn:E; unfold held_key, store_touch; upd; [exact E|].
  by rewrite om_find_set, decide_True.
Qed.

(** A question leaves the store as it is. *)
Lemma asks_same_store {St} n (send : FrameTransport St) line body os sch σ :
  asks line → cn_store (handle_chunk_request n send line body os sch σ).1.2 = cn_store n.
Proof.
  intros Ha. unfold handle_chunk_request. destruct (split_single_spaces line) as [|[|v0 v] args] eqn:E; [done..|].
  assert (Hv : ∀ verb, v0 :: v = verb → starts_with verb line = true) by (intros verb <-; by apply (split_head_starts _ _ args)).
  assert (Hno : ∀ verb, (starts_with (lit "GET ") (verb ++ drop (length verb) line) = false) →
    (starts_with (lit "HAVE") (verb ++ drop (length verb) line) = false) →
    (starts_with (lit "DIGEST ") (verb ++ drop (length verb) line) = false) → v0 :: v ≠ verb).
  { intros verb H1 H2 H3 Hw. apply Hv, starts_with_Some in Hw. rewrite <- Hw in H1, H2, H3. destruct Ha as [?|[?|?]]; congruence. }
  rewrite (bool_decide_false (v0 :: v = lit "PUT")) by (by apply Hno).
  rewrite (bool_decide_false (v0 :: v = lit "STORE")) by (by apply Hno).
  rewrite (bool_decide_false (v0 :: v = lit "KEYS")) by (by apply Hno).
  rewrite (bool_decide_false (v0 :: v = lit "DROP")) by (by apply Hno). cbn [andb].
  destruct (cn_store n) as [s|] eqn:Es; [|done]. cbv zeta.
  destruct (_ && (length args =? 1)).
  { unfold handle_get, hold_body. destruct (MAX_BODIES <=? cn_bodies n); cbn [negb]; [done|]. by destruct (store_get _ _ _ _). }
  destruct (_ && _); [done|]. by destruct (_ && _).
Qed.

Section keeping.
Context (U : list bytes) (HU : Forall (λ k, valid_key k = true) U) (c : Calls).
Abbreviation InU := (λ k : bytes, k ∈ U).

Lemma request_lists {St} n (send : FrameTransport St) line body os sch σ s s' k :
  honest InU line body → cn_store n = Some s → (∀ k, store_has s k = true → k ∈ U) →
  cn_store (handle_chunk_request n send line body os sch σ).1.2 = Some s' → store_has s' k = true → k ∈ U.
Proof using HU.
  intros [[Ha _]|(as_put & key & Hin & Hkey & ->)] Hs Hall.
  { rewrite asks_same_store, Hs by done. intros [= <-]. apply Hall. }
  assert (Hvk : valid_key key = true) by (by apply (proj1 (Forall_forall _ U) HU)).
  assert (Hput : ∀ env now r s1 d1, store_put s (cn_disk n) key body env now = (r, s1, d1) → store_has s1 k = true → k ∈ U).
  { intros env now r s1 d1 E Hk. by destruct (put_lists _ _ _ _ _ _ _ _ _ k E Hk) as [->|?]; [|apply Hall]. }
  destruct as_put.
  - assert (E : split_single_spaces (store_line true key body) = [lit "PUT"; key; lit "1"; dec (N.of_nat (length body))]).
    { assert (E : store_line true key body = join SPACE [lit "PUT"; key; lit "1"; dec (N.of_nat (length body))]) by done.
      rewrite E. apply split_on_join; [done|].
      repeat constructor; [apply (bool_decide_unpack _); by vm_compute|by apply valid_key_no_space|
        apply (bool_decide_unpack _); by vm_compute|apply dec_no_space]. }
    destruct (lit "PUT") as [|v0 v] eqn:Ev in E; [done|]. unfold handle_chunk_request. rewrite E, Hs. cbv iota beta zeta. rewrite <- Ev.
    change (length [key; lit "1"; dec (N.of_nat (length body))]) with 3. rewrite bool_decide_true by done. cbn [andb Nat.eqb].
    change (default [] ([key; lit "1"; dec (N.of_nat (length body))] !! 0)) with key. rewrite Hvk. cbn [negb].
    change (parse_w (default [] ([key; lit "1"; dec (N.of_nat (length body))] !! 1))) with (Some 1). cbv iota.
    unfold coordinate. destruct (store_put s (cn_disk n) key body (os_put os) (os_now os)) as [[r s1] d1] eqn:Ep. cbv zeta.
    specialize (Hput _ _ _ _ _ Ep). destruct (put_refused r); [by cbn [fst snd]; upd; intros [= <-]|].
    destruct (replicate_copies _ _ _ _ _ _ _ _) as [[[t f]|] σ']; cbn [fst snd]; upd; by intros [= <-].
  - pose proof (store_words key body Hvk) as E. destruct (lit "STORE") as [|v0 v] eqn:Ev in E; [done|].
    unfold handle_chunk_request. rewrite E, Hs. cbv iota beta zeta. rewrite <- Ev.
    change (length [key; dec (N.of_nat (length body))]) with 2. rewrite bool_decide_false by done. cbn [andb].
    rewrite bool_decide_true by done. cbn [andb Nat.eqb].
    change (default [] ([key; dec (N.of_nat (length body))] !! 0)) with key. unfold handle_store.
    destruct (store_put s (cn_disk n) key body (os_put os) (os_now os)) as [[r s1] d1] eqn:Ep.
    specialize (Hput _ _ _ _ _ Ep). unfold simple_reply, plain. cbn [fst snd]. upd. by intros [= <-].
Qed.


Lemma no_store_same {St} n (send : FrameTransport St) line body os sch σ :
  cn_store n = None → (handle_chunk_request n send line body os sch σ).1.2 = n.
Proof. intros Hs. unfold handle_chunk_request. destruct (split_single_spaces line) as [|[|v0 v] args]; [done..|]. by rewrite Hs. Qed.

Lemma nodes_send_keeps to line body w : honest InU line body → nodes_ok U w →
  nodes_ok U (nodes_send c to line body w).2 ∧ ∀ p k, holds_chunk p k w → holds_chunk p k (nodes_send c to line body w).2.
Proof using HU.
  intros Hh Hw. unfold nodes_send. destruct (ca_lost c to line w) as [d|]; [done|].
  destruct (Hw (address to)) as [Hp Hl].
  pose proof (request_keeps (w (address to)) (ca_away c) line body (ca_os c to line w) (ca_schedule c to line w) tt Hp) as [Hok Hkeep].
  specialize (Hkeep ltac:(intros secret keys E; by apply (honest_not_drop _ _ _ _ Hh) in E)).
  pose proof (request_lists (w (address to)) (ca_away c) line body (ca_os c to line w) (ca_schedule c to line w) tt) as Hlist.
  pose proof (no_store_same (w (address to)) (ca_away c) line body (ca_os c to line w) (ca_schedule c to line w) tt) as Hnone.
  destruct (handle_chunk_request _ _ _ _ _ _ _) as [[h n] u]. cbn [fst snd] in *. split.
  - intros a. case_bool_decide as Ea; [|apply Hw]. split; [done|]. intros s' Hs' k.
    destruct (cn_store (w (address to))) as [s|] eqn:Es; [by apply (Hlist s s' k Hh eq_refl (Hl s eq_refl) Hs')|].
    rewrite Hnone, Es in Hs'; done.
  - intros p k (s & Hs & Hk). unfold holds_chunk. case_bool_decide as Ea; [|by exists s]. rewrite Ea in Hs.
    destruct (Hkeep s Hs) as (s' & Hs' & Hc). exists s'. split; [done|]. by apply Hc.
Qed.

(** The node behind an answer that was not lost. *)
Lemma nodes_send_answer to line body w d answer w' : nodes_send c to line body w = ((d, answer), w') →
  answer = ([], []) ∨
  let '(h, n, _) := handle_chunk_request (w (address to)) (ca_away c) line body (ca_os c to line w) (ca_schedule c to line w) tt in
  answer = (h_reply h, h_body h) ∧ w' (address to) = n.
Proof.
  unfold nodes_send. destruct (ca_lost c to line w) as [e|]; [intros [= <- <- <-]; by left|].
  destruct (handle_chunk_request _ _ _ _ _ _ _) as [[h n] u]. destruct (ca_late c to line w) as [e|]; intros [= <- <- <-]; [by left|right].
  split; [done|]. by rewrite bool_decide_true.
Qed.

(** A question to a node with a store. *)
Lemma asked_have n (send : FrameTransport unit) batch os sch : Forall (λ k, valid_key k = true) batch → 1 ≤ length batch ≤ MAX_HAVE_KEYS →
  let '(h, n', _) := handle_chunk_request n send (have_line batch) [] os sch tt in
  n' = n ∧ h_reply h = match cn_store n with Some s => handle_have s batch | None => lit "ERR this node keeps no chunks" end.
Proof.
  intros Hv Hlen. pose proof (have_words batch Hv) as E. destruct (lit "HAVE") as [|v0 v] eqn:Ev in E; [done|].
  unfold handle_chunk_request. rewrite E. cbv iota beta zeta. destruct (cn_store n) as [s|]; [|done]. rewrite <- Ev.
  rewrite 3!(bool_decide_false) by done. rewrite bool_decide_true by done. cbn [andb].
  rewrite (proj2 (Nat.leb_le 1 _)), (proj2 (Nat.leb_le _ MAX_HAVE_KEYS)) by lia. done.
Qed.

Lemma asked_digest n (send : FrameTransport unit) arc os sch :
  let '(h, n', _) := handle_chunk_request n send (digest_line arc) [] os sch tt in
  n' = n ∧ h_reply h = match cn_store n with Some s => handle_digest s (id_to_hex arc.1) (id_to_hex arc.2) | None => lit "ERR this node keeps no chunks" end.
Proof.
  pose proof (digest_words arc) as E. destruct (lit "DIGEST") as [|v0 v] eqn:Ev in E; [done|].
  unfold handle_chunk_request. rewrite E. cbv iota beta zeta. destruct (cn_store n) as [s|]; [|done]. rewrite <- Ev.
  rewrite 4!(bool_decide_false) by done. rewrite bool_decide_true by done. done.
Qed.

Lemma asked_store n (send : FrameTransport unit) key body os sch s : valid_key key = true → cn_store n = Some s →
  let '(h, n', _) := handle_chunk_request n send (store_line false key body) body os sch tt in
  n' = (handle_store n s key body os).2 ∧ h_reply h = (handle_store n s key body os).1.1.1.
Proof.
  intros Hv Hs. pose proof (store_words key body Hv) as E. destruct (lit "STORE") as [|v0 v] eqn:Ev in E; [done|].
  unfold handle_chunk_request. rewrite E, Hs. cbv iota beta zeta. rewrite <- Ev.
  rewrite bool_decide_false by done. rewrite bool_decide_true by done. cbn [andb length Nat.eqb].
  change (default [] ([key; dec (N.of_nat (length body))] !! 0)) with key.
  unfold handle_store. by destruct (store_put _ _ _ _ _ _) as [[r s'] d'].
Qed.

Context (Hapart : digests_apart U).

(** Nodes that answer requests as they do keep what repair relies on. *)
Lemma nodes_promise : replica_promises (nodes_route c) (nodes_send c) InU (nodes_ok U) holds_chunk.
Proof using HU Hapart.
  split; try done.
  - intros to line body w Hh Hw. by apply nodes_send_keeps.
  - intros p k to line body w Hh Hw. by apply nodes_send_keeps.
  - intros to batch w d answer w' digits i k Hw Hb Hlen Es Hd Hi Hdig.
    assert (Hv : Forall (λ k, valid_key k = true) batch) by (eapply Forall_impl; [exact Hb|]; by intros x [_ ?]).
    apply nodes_send_answer in Es as [->|Ha].
    { unfold have_digits in Hd. cbn in Hd. by rewrite orb_true_r in Hd. }
    pose proof (asked_have (w (address to)) (ca_away c) batch (ca_os c to (have_line batch) w)
      (ca_schedule c to (have_line batch) w) Hv Hlen) as Hh.
    destruct (handle_chunk_request _ _ _ _ _ _ _) as [[h n] u]. destruct Ha as [-> En], Hh as [-> Hr]. cbn [fst] in Hd.
    destruct (cn_store (w (address to))) as [s|] eqn:Es.
    2: { rewrite Hr in Hd. unfold have_digits in Hd. by destruct (bool_decide (d = Ok)). }
    assert (Er : h_reply h = lit "HAVE " ++ ((λ k, if store_has s k then chr 49 else chr 48) <$> batch)).
    { rewrite Hr. unfold handle_have. by rewrite (proj2 (forallb_Forall _ _) Hv). }
    rewrite Er in Hd. unfold have_digits in Hd. destruct (negb _ || _ || _); [done|].
    assert (Ed : ∀ x, drop 5 (lit "HAVE " ++ x) = x) by done. rewrite Ed in Hd. apply (inj Some) in Hd. subst digits.
    rewrite list_lookup_fmap, Hi in Hdig. cbn [fmap option_fmap option_map] in Hdig.
    exists s. rewrite En. split; [done|]. by destruct (store_has s k).
  - intros to key body w answer w' Hw HK Hv Hkey Es Hok.
    apply nodes_send_answer in Es as [->|Ha]; [done|].
    destruct (cn_store (w (address to))) as [s|] eqn:Hs.
    2: { unfold handle_chunk_request in Ha. rewrite (store_words key body Hv) in Ha.
         destruct (lit "STORE") as [|v0 v] eqn:Ev in Ha; [done|]. cbv iota beta zeta in Ha. rewrite Hs in Ha.
         destruct Ha as [-> _]. done. }
    pose proof (asked_store _ (ca_away c) key body (ca_os c to (store_line false key body) w)
      (ca_schedule c to (store_line false key body) w) s Hv Hs) as Hh.
    destruct (handle_chunk_request _ _ _ _ _ _ _) as [[h n] u]. destruct Ha as [-> En], Hh as [-> Hr]. cbn [fst] in Hok.
    rewrite Hr in Hok. unfold holds_chunk. rewrite En. revert Hok. unfold handle_store.
    destruct (store_put s _ key body _ _) as [[r s'] d'] eqn:Ep. unfold simple_reply. cbn [fst snd]. upd.
    destruct (put_held r) eqn:Hh; [|by destruct r]. intros _. exists s'. split; [done|]. by eapply put_lists_key.
  - intros to arc held w answer w' k Hw Hnd Hheld H1 H2 Es Heq Hin.
    apply nodes_send_answer in Es as [->|Ha]; [done|].
    pose proof (asked_digest (w (address to)) (ca_away c) arc (ca_os c to (digest_line arc) w) (ca_schedule c to (digest_line arc) w)) as Hh.
    destruct (handle_chunk_request _ _ _ _ _ _ _) as [[h n] u]. destruct Ha as [-> En], Hh as [-> Hr]. cbn [fst] in Heq.
    destruct (Hw (address to)) as [[_ Hok] Hl]. destruct (cn_store (w (address to))) as [s|] eqn:Hs; [|by rewrite Hr in Heq].
    assert (Er : h_reply h = lit "DIGEST " ++ keys_digest (store_keys_in_arc s arc.1 arc.2)).
    { rewrite Hr. unfold handle_digest. by rewrite !id_from_hex_to_hex. }
    rewrite Er in Heq. apply app_inv_head in Heq. apply Hapart in Heq; [|split|done].
    + exists s. rewrite En. split; [done|]. rewrite <- Heq in Hin. apply list_elem_of_filter in Hin as [_ Hin]. by apply held_key_true.
    + apply NoDup_filter, om_ok_nodup, (so_keys _ _ (Hok s eq_refl)).
    + apply Forall_forall. intros x Hx. apply list_elem_of_filter in Hx as [_ Hx].
      split; [by apply (Hl s eq_refl), held_key_true|by apply (so_valid _ _ (Hok s eq_refl))].
Qed.
End keeping.
End nodes.

(** ** The claim *)
Section claims.
Context {SH : Sha1} {IN : Inet}.

(** The other threads of a process while a round runs: they keep a store a store,
    spoil nothing, list keys of [U] only, and the ring is still. *)
Definition quiet_process (ar : Around) (U : list bytes) : Prop :=
  others_careful ar ∧ others_list ar (λ k, k ∈ U) ∧ others_still ar.

End claims.

(** ** Witnesses *)
#[local] Existing Instances demo_sha1 demo_sha1_ok quad_inet.

Definition demo_keys : list bytes := [demo_chunk].
Definition demo_alone : Around := mkAround (λ _, demo_os) (λ _ l, l).
(** A member that knows its predecessor: itself, so its arc is the whole ring. *)
Definition demo_owner : NodeState := demo_member <| ns_has_pred := true |> <| ns_pred := demo_a |>.
Definition demo_holder : ChunkNode := demo_node <| cn_store := Some demo_put.1.2 |> <| cn_disk := demo_put.2 |> <| cn_members := [demo_owner] |>.
Definition demo_nodes : Nodes := λ _, demo_node.
Definition demo_calls : Calls := mkCalls (λ _ _ _, None) (λ _ _ _, None) (λ _ _ _, demo_os) (λ _ _ _, demo_schedule)
  (λ _ _ _ σ, ((Refused, ([], [])), σ)) (λ _ _ _, (Refused, [])).
Definition demo_state : RepairState := mkRepairState ∅ 0.
Definition demo_local : Local := mkLocal demo_put.1.2 demo_put.2 [demo_owner].

Lemma demo_careful : others_careful demo_alone.
Proof. by split. Qed.
Lemma demo_undisturbed k : undisturbed demo_alone k.
Proof. by split. Qed.
Lemma store_shaped s d ms : store_ok s d → shaped (mkLocal s d ms).
Proof. intros Hok. split; [apply Hok|apply Hok|]. intros key Hk. by apply (so_valid _ _ Hok), held_key_true. Qed.

Lemma demo_keys_apart : digests_apart demo_keys.
Proof.
  assert (H : ∀ a, listing_of demo_keys a → a = [] ∨ a = [demo_chunk]).
  { intros a [Hnd Ha]. destruct a as [|x [|y a]]; [by left|..]; apply Forall_cons in Ha as [[Hx _] Ha];
      apply list_elem_of_singleton in Hx as ->; [by right|].
    apply Forall_cons in Ha as [[Hy _] _]. apply list_elem_of_singleton in Hy as ->.
    apply NoDup_cons in Hnd as [Hn _]. exfalso. apply Hn, elem_of_cons. by left. }
  intros a b [->| ->]%H [->| ->]%H; try done; intros E; exfalso; revert E; vm_compute; discriminate.
Qed.

Lemma demo_holds_only k : store_has demo_put.1.2 k = true → k ∈ demo_keys.
Proof.
  intros Hk%held_key_true. assert (E : store_keys demo_put.1.2 = [demo_chunk]) by (vm_compute; reflexivity).
  by rewrite E in Hk.
Qed.

Lemma demo_good : good demo_chunk demo_local.
Proof.
  split; [vm_compute; reflexivity|]. exists demo_body. split; [vm_compute; reflexivity|]. split; [done|]. vm_compute. discriminate.
Qed.

Lemma demo_nodes_ok : nodes_ok demo_keys demo_nodes.
Proof.
  intros a. split; [split; [cbn; lia|intros s [= <-]; apply demo_opened_ok]|]. intros s [= <-] k Hk.
  exfalso. revert Hk. assert (E : st_keys demo_opened = []) by (vm_compute; reflexivity). unfold store_has, held_key. by rewrite E.
Qed.


(** The same store with rotten bytes under the chunk's name. *)
Definition demo_rotten : Local := mkLocal demo_put.1.2 [(store_path demo_put.1.2 demo_chunk, lit "rotten")] [demo_owner].
Definition demo_round {St} (l : Local) (σ : St) : Round St := mkRound l empty_report 0 σ.

Lemma scrub_heals_witness :
  let l' := rd_local (scrub (nodes_route demo_calls) (nodes_send demo_calls) demo_alone demo_a (demo_round demo_rotten demo_nodes)) in
  shaped l' ∧ (∀ k, clean k l') ∧ (∀ k, left_alone demo_alone k → whole k l') ∧
  (∀ k, undisturbed demo_alone k → good k demo_rotten → good k l').
Proof.
  apply (scrub_heals (nodes_route demo_calls) (nodes_send demo_calls) demo_alone demo_a (demo_round demo_rotten demo_nodes)).
  - apply demo_careful.
  - split; [apply demo_put_ok|repeat constructor|]. intros key Hk%held_key_true. by apply (so_valid _ _ demo_put_ok).
Defined.

Lemma ring_at_rest_is_left_alone_witness :
  let st := mkRepairState {[ member_id demo_owner := check_of demo_owner ]} 4 in
  let '(st', r) := run_round (nodes_route demo_calls) (nodes_send demo_calls) demo_alone demo_a demo_local st 60 demo_nodes in
  rd_net r = demo_nodes ∧ rd_rep r = empty_report ∧ rs_checked st' = rs_checked st.
Proof.
  apply (ring_at_rest_is_left_alone (nodes_route demo_calls) (nodes_send demo_calls) demo_alone demo_a demo_local
    (mkRepairState {[ member_id demo_owner := check_of demo_owner ]} 4) 60 demo_nodes).
  - done.
  - reflexivity.
  - intros m Hm%list_elem_of_singleton _. subst m. apply lookup_singleton_eq.
Defined.

(** What the scrub does when a read fails for another reason: the good copy goes. *)
Definition demo_unreadable : Around := mkAround (λ _, mkOs 200 demo_env false true true) (λ _ l, l).
Lemma failed_read_destroys :
  good demo_chunk demo_local ∧
  let l' := rd_local (scrub (nodes_route demo_calls) (nodes_send demo_calls) demo_unreadable demo_a (demo_round demo_local demo_nodes)) in
  store_has (lc_store l') demo_chunk = false ∧ lc_disk l' = [].
Proof. split; [apply demo_good|]. vm_compute. done. Qed.
