(* ===== verification/NodeMain.v ===== *)
(** * NodeMain: a node process (node.cpp)

    The command line, the members a process is made of and the state each starts
    from, the chunk store and the collection key, one turn of the maintenance
    thread and of the repair thread. What a start ends with is [StartExit] or the
    process; NodeStart.v composes these into the whole program. *)
From stdpp Require Import sorting.
From S2P Require Import Prelude Text OrdMap Net Log Serve Chord Lookup Names Options Store Stabilize Chunk Repair NodeServe.

Definition DEFAULT_PERIOD_MS : Z := 1000.
Definition DEFAULT_TIMEOUT_MS : Z := 200.
Definition DEFAULT_VNODES : Z := 8.
Definition MAX_VNODES : Z := 64.
Definition DEFAULT_SCAN_ROUNDS : Z := 60.
Definition DEFAULT_READ_DEADLINE_MS : Z := 10000.
Definition JOIN_ATTEMPTS : nat := 30.

(** ** The command line *)

Inductive Mode := Fixed | Create | Join | Wired.
#[export] Instance Mode_eq_dec : EqDecision Mode.
Proof. solve_decision. Defined.

Record NodeOptions := mkNodeOptions {
  no_mode : Mode; no_file : bytes; no_known : bytes; no_store : bytes; no_gc_key_file : bytes;
  no_period : Z; no_timeout : Z; no_successors : Z; no_vnodes : Z; no_read_deadline : Z; no_scan : Z; no_metrics : Z;
  no_gc_grace : Z; no_level : Level }.
#[export] Instance NodeOptions_eta : Eta NodeOptions := λ o,
  mkNodeOptions (no_mode o) (no_file o) (no_known o) (no_store o) (no_gc_key_file o) (no_period o) (no_timeout o)
    (no_successors o) (no_vnodes o) (no_read_deadline o) (no_scan o) (no_metrics o) (no_gc_grace o) (no_level o).
Definition default_options : NodeOptions :=
  mkNodeOptions Fixed [] [] [] [] DEFAULT_PERIOD_MS DEFAULT_TIMEOUT_MS (Z.of_nat DEFAULT_SUCCESSORS) DEFAULT_VNODES
    DEFAULT_READ_DEADLINE_MS DEFAULT_SCAN_ROUNDS 0 DEFAULT_GC_GRACE_S Info.

(** One option with its value. [None]: a usage error. *)
Definition value_option (a v : bytes) (chosen : bool) (o : NodeOptions) : option (NodeOptions * bool) :=
  let opt x := bool_decide (a = x) in
  let int lo hi f := n ← parse_int v lo hi; Some (f n, chosen) in
  if opt (lit "--join") && negb chosen then Some (o <| no_mode := Join |> <| no_known := v |>, true)
  else if opt (lit "--wired") && negb chosen then Some (o <| no_mode := Wired |> <| no_file := v |>, true)
  else if opt (lit "--period") then int 10%Z 600000%Z (λ n, o <| no_period := n |>)
  else if opt (lit "--timeout") then int 10%Z 600000%Z (λ n, o <| no_timeout := n |>)
  else if opt (lit "--succ") then int 1%Z (Z.of_nat MAX_SUCCESSORS) (λ n, o <| no_successors := n |>)
  else if opt (lit "--vnodes") then int 1%Z MAX_VNODES (λ n, o <| no_vnodes := n |>)
  else if opt (lit "--read-deadline") then int 10%Z 600000%Z (λ n, o <| no_read_deadline := n |>)
  else if opt (lit "--scan") then int 0%Z 1000000%Z (λ n, o <| no_scan := n |>)
  else if opt (lit "--store") && bool_decide (no_store o = [])
  then if bool_decide (v = []) then None else Some (o <| no_store := v |>, chosen)
  else if opt (lit "--metrics") then int 1%Z 65535%Z (λ n, o <| no_metrics := n |>)
  else if opt (lit "--log-level") then l ← parse_level v; Some (o <| no_level := l |>, chosen)
  else if opt (lit "--gc-key") then Some (o <| no_gc_key_file := v |>, chosen)
  else if opt (lit "--gc-grace") then int 0%Z 9999999%Z (λ n, o <| no_gc_grace := n |>)
  else None.

Fixpoint parse_args (args : list bytes) (chosen : bool) (o : NodeOptions) : option NodeOptions :=
  match args with
  | [] => if chosen then Some o else None
  | a :: rest =>
      if bool_decide (a = lit "--create") && negb chosen then parse_args rest true (o <| no_mode := Create |>)
      else match rest with
           | [] => None
           | v :: rest => '(o, chosen) ← value_option a v chosen o; parse_args rest chosen o
           end
  end.

(** The arguments after the address. *)
Definition node_options (args : list bytes) : option NodeOptions :=
  match args with
  | [file] => if bool_decide (head file = Some (chr 45)) then parse_args args false default_options
              else Some (default_options <| no_file := file |> <| no_vnodes := 1%Z |>)
  | _ => parse_args args false default_options
  end.

(** ** The members *)

Inductive StartExit := Usage | Exits (status : Z) (message : bytes).

Definition member_peer `{Sha1} (me : Peer) (i : nat) : Peer :=
  mkPeer (default 0%Z (id_of_member (peer_ip me) (peer_port me) (Z.of_nat i))) (peer_ip me) (peer_port me).

Fixpoint make_members `{Sha1} (me : Peer) (successors : nat) (indices : list nat) (made : list NodeState) : StartExit + list NodeState :=
  match indices with
  | [] => inr made
  | i :: indices =>
      let member := member_peer me i in
      if existsb (λ m, (peer_id (ns_self m) =? peer_id member)%Z) made
      then inl (Exits 1 (lit "members " ++ dec (N.of_nat i) ++ lit " and another share identifier " ++ id_to_hex (peer_id member) ++
                         lit "; use fewer --vnodes"))
      else make_members me successors indices (made ++ [new_node member successors (Some [])])
  end.

Definition read_members `{Sha1, Inet} (path : bytes) (content : option bytes) : bytes + list Peer :=
  match content with
  | None => inl (lit "cannot open membership file " ++ path)
  | Some text => parse_members text
  end.

(** Every member of every process. *)
Definition expand_members `{Sha1} (processes : list Peer) (v : nat) : bytes + list Peer :=
  validate_ring (p ← processes; member_peer p <$> seq 0 v).

(** ** Starting states *)

Section start.
Context {SH : Sha1} {IN : Inet} {W : Type} (transport : Transport (NodeState * W)).

(** Attempts to join, until one succeeds: the member joined, or why not. *)
Fixpoint join_attempts (attempts : nat) (known : Peer) (m : NodeState) (w : W) : option NodeState * bool * W :=
  match attempts with
  | 0 => (None, false, w)
  | S attempts =>
      let '(st, (m, w)) := join_ring transport known (m, w) in
      match st with
      | Joined => (Some m, false, w)
      | Collision _ => (None, true, w)
      | Retry _ => join_attempts attempts known m w
      end
  end.

Fixpoint join_members (known_text : bytes) (known : Peer) (ms joined : list NodeState) (w : W) : (StartExit + list NodeState) * W :=
  match ms with
  | [] => (inr joined, w)
  | m :: ms =>
      match join_attempts JOIN_ATTEMPTS known m w with
      | (Some m, _, w) => join_members known_text known ms (joined ++ [m]) w
      | (None, true, w) => (inl (Exits 1 []), w)
      | (None, false, w) => (inl (Exits 1 (lit "giving up: could not join through " ++ known_text)), w)
      end
  end.

(** [init_wired] of each; its failure is ruled out by the ring. *)
Definition wire_all (ms : list NodeState) (ring : list Peer) : list NodeState := (λ m, default m (init_wired m ring)) <$> ms.

Definition start_members (o : NodeOptions) (me : Peer) (files : bytes → option bytes) (w : W) : (StartExit + list NodeState) * W :=
  match make_members me (Z.to_nat (no_successors o)) (seq 0 (Z.to_nat (no_vnodes o))) [] with
  | inl e => (inl e, w)
  | inr ms =>
      let mode := no_mode o in
      if bool_decide (mode = Fixed) && negb (no_vnodes o =? 1)%Z then (inl Usage, w)
      else if bool_decide (mode = Fixed) || bool_decide (mode = Wired) then
        match read_members (no_file o) (files (no_file o)) with
        | inl err => (inl (Exits 1 err), w)
        | inr processes =>
            match expand_members processes (Z.to_nat (no_vnodes o)) with
            | inl err => (inl (Exits 1 err), w)
            | inr ring =>
                if negb (existsb (λ p, same_process p me) processes)
                then (inl (Exits 1 (peer_ip me ++ lit ":" ++ to_string (peer_port me) ++ lit " is not in " ++ no_file o)), w)
                else (inr (wire_all ms ring), w)
            end
        end
      else if bool_decide (mode = Create) then
        let own := merge_sort by_id (ns_self <$> ms) in
        (inr (if length own =? 1 then init_alone <$> ms else wire_all ms own), w)
      else
        match parse_address (no_known o) with
        | None => (inl (Exits 2 (lit "invalid --join address " ++ no_known o)), w)
        | Some known => join_members (no_known o) known ms [] w
        end
  end.

(** The chunk side of the process. [opened]: what opening the store gives. *)
Definition start_chunks (o : NodeOptions) (ms : list NodeState) (files : bytes → option bytes) (disk : list (bytes * bytes))
    (fresh : ChunkStore) (env : StoreOpenEnv) (now : Z) : StartExit + ChunkNode :=
  let secret := if bool_decide (no_gc_key_file o = []) then Some [] else read_secret (files (no_gc_key_file o)) in
  match secret with
  | None => inl (Exits 1 (no_gc_key_file o ++ lit " must hold one key of 32 to 64 lowercase hexadecimal characters"))
  | Some key =>
      let n := mkChunkNode None disk ms 0 0 key (no_gc_grace o * 1000) 0 0 0 (Some []) in
      if bool_decide (no_store o = []) then inr n
      else
        let '(ok, s, disk, report) := store_open fresh disk (no_store o) env now in
        if ok then inr (n <| cn_store := Some s |> <| cn_disk := disk |>) else inl (Exits 1 report)
  end.

(** What runs besides the connections: maintenance, and repair where there is a store. *)
Definition background (o : NodeOptions) (n : ChunkNode) : bool * bool :=
  let moving := negb (bool_decide (no_mode o = Fixed)) in
  (moving, moving && bool_decide (is_Some (cn_store n))).
End start.

(** ** The background threads *)
Section background.
Context {SH : Sha1} {IN : Inet} {W : Type} (logger : Logger).
Context (exchange_line : bytes → Transport (NodeState * (ChunkNode * W))) (exchange_frame : bytes → FrameTransport W)
  (now : NodeState * (ChunkNode * W) → Z).

(** One turn of [maintain]: a round for every member, in order. *)
Definition maintain_turn (x : ChunkNode * W) : ChunkNode * W :=
  foldl (λ x i, match at_member i (λ σ, (tt, maintenance_round (node_transport logger exchange_line []) now σ)) x with
                | Some (_, x) => x | None => x end) x (seq 0 (length (cn_members x.1))).

(** The arcs this process owns that its last check left unchecked. *)
Definition repair_pending (st : RepairState) (members : list NodeState) : nat :=
  length (filter (λ m, ns_has_pred m && negb (ns_orphaned m) && bool_decide (rs_checked st !! peer_id (ns_self m) = None)) members).

Definition REPAIR_COUNTERS : list bytes :=
  [lit "rounds"; lit "full_scans"; lit "chunks_sent"; lit "failures"; lit "handed_off"; lit "scrubbed"; lit "digests_sent";
   lit "digests_matched"; lit "have_sent"].
Definition count_round (r : RepairReport) (f : Family) : Family :=
  let n x := N.of_nat x in
  let f := count (lit "rounds") 1 f in
  let f := count (lit "chunks_sent") (n (rr_chunks_sent r)) f in
  let f := count (lit "failures") (n (rr_send_failures r)) f in
  let f := count (lit "handed_off") (n (rr_handed_off r)) f in
  let f := count (lit "scrubbed") (n (rr_scrubbed r)) f in
  let f := if rr_full_scan r then count (lit "full_scans") 1 f else f in
  let f := count (lit "digests_sent") (n (rr_digests_sent r)) f in
  let f := count (lit "digests_matched") (n (rr_digests_matched r)) f in
  count (lit "have_sent") (n (rr_have_sent r)) f.

(** One turn of [repair]: a round under a fresh request id, its counters, the gauge. *)
Definition repair_turn (route : bytes → Transport W) (ar : Around) (rid : bytes) (scan_every : Z) (n : ChunkNode) (st : RepairState)
    (f : Family) (w : W) : ChunkNode * RepairState * Family * nat * W :=
  let '(rep, n, st, w) := repair_round (route rid) (frame_transport logger exchange_frame rid) ar n st scan_every w in
  (n, st, count_round rep f, repair_pending st (cn_members n), w).
End background.
