(* ===== verification/NodeMainSpec.v ===== *)
(** * NodeMainSpec: a ring started from one membership file

    Processes that are started from one membership file agree on the ring: each
    member's tables are the ones chord.cpp builds for it, and lookups among the
    started processes - addressed to a member, taken off the prefix, handed to that
    member of the process - find the true owner ([started_ring_routes]). *)
From stdpp Require Import sorting.
From S2P Require Import Prelude Text OrdMap Net Log Serve Chord Lookup Routing Names Options Group Store Stabilize StabilizeInv Ring Chunk Replication Repair NodeServe NodeServeSpec NodeMain.

(** ** The ring of a membership file *)
Section ring.
Context {SH : Sha1} {IN : Inet} {IOk : InetOk IN}.

Lemma member_peer_u64 p i : is_u64 (peer_id (member_peer p i)).
Proof.
  unfold member_peer. cbn [peer_id]. unfold id_of_member, id_of_address. destruct (_ <? 0)%Z; [done|].
  destruct (Z.of_nat i =? 0)%Z; (destruct (id_from_key _) eqn:E; cbn; [by eapply id_from_key_u64|done]).
Qed.

Lemma expand_members_ring processes v ring : expand_members processes v = inr ring →
  ring_ok ring ∧ ∀ q, q ∈ ring ↔ ∃ p i, p ∈ processes ∧ i < v ∧ q = member_peer p i.
Proof.
  intros H. apply validate_ring_inr in H as [Hr Hp].
  - split; [done|]. intros q. rewrite Hp, list_elem_of_bind. split.
    + intros (p & (i & -> & Hi)%list_elem_of_fmap & Hp'). apply elem_of_seq in Hi. exists p, i. split_and!; [done|lia|done].
    + intros (p & i & Hp' & Hi & ->). exists p. split; [|done]. apply list_elem_of_fmap. exists i. split; [done|]. apply elem_of_seq. lia.
  - apply Forall_forall. intros q (p & (i & -> & _)%list_elem_of_fmap & _)%list_elem_of_bind. apply member_peer_u64.
Qed.

Lemma read_members_ok path content processes : read_members path content = inr processes →
  Forall (λ p, address_ok (peer_address p)) processes.
Proof. unfold read_members. destruct content; [|done]. apply parse_members_ok. Qed.

Lemma ring_peers_ok processes v ring : Forall (λ p, address_ok (peer_address p)) processes → expand_members processes v = inr ring →
  Forall peer_ok ring.
Proof.
  intros Ha H. apply expand_members_ring in H as [_ H]. apply Forall_forall. intros q (p & i & Hp & _ & ->)%H.
  rewrite Forall_forall in Ha. destruct (Ha p Hp) as [H1 H2]. split; [apply member_peer_u64|]. by split.
Qed.

(** The members of one process, before they are wired. *)
Definition made (p : Peer) (r v : nat) : list NodeState := (λ i, new_node (member_peer p i) r (Some [])) <$> seq 0 v.

Lemma member_peer_same processes v ring p i q j : expand_members processes v = inr ring → p ∈ processes → q ∈ processes → i < v → j < v →
  peer_id (member_peer p i) = peer_id (member_peer q j) → member_peer p i = member_peer q j.
Proof.
  intros H Hp Hq Hi Hj E. apply expand_members_ring in H as [Hr H]. apply (ring_inj ring); [done|apply H|apply H|done]; eauto.
Qed.

Lemma member_ids_apart processes v ring p : expand_members processes v = inr ring → p ∈ processes →
  NoDup (peer_id <$> (member_peer p <$> seq 0 v)).
Proof.
  intros H Hp. assert (Hnd : NoDup (peer_id <$> (p ← processes; member_peer p <$> seq 0 v))).
  { unfold expand_members in H. apply validate_ring_inr in H as [(_ & Hs & _) Hperm].
    - rewrite <- Hperm. apply NoDup_fmap_2_strong.
      + intros x y Hx Hy E. assert (Hr : ∀ l, StronglySorted (λ a b, (peer_id a < peer_id b)%Z) l → x ∈ l → y ∈ l → peer_id x = peer_id y → x = y).
        { intros l Hl. induction Hl as [|z l Hl IH Hz]; [by intros ?%elem_of_nil|]. rewrite Forall_forall in Hz.
          intros [->|Hx']%elem_of_cons [->|Hy']%elem_of_cons E'; [done|specialize (Hz _ Hy'); lia|specialize (Hz _ Hx'); lia|by apply IH]. }
        by eapply Hr.
      + clear -Hs. induction Hs as [|z l Hl IH Hz]; constructor; [|done]. intros Hin. rewrite Forall_forall in Hz. specialize (Hz z Hin). lia.
    - apply Forall_forall. intros q (p' & (i & -> & _)%list_elem_of_fmap & _)%list_elem_of_bind. apply member_peer_u64. }
  apply list_elem_of_split in Hp as (l1 & l2 & ->). rewrite bind_app, fmap_app in Hnd. apply NoDup_app in Hnd as (_ & _ & Hnd).
  rewrite bind_cons, fmap_app in Hnd. by apply NoDup_app in Hnd as [? _].
Qed.

Lemma make_members_made p r idx acc :
  NoDup ((λ m, peer_id (ns_self m)) <$> acc ++ ((λ i, new_node (member_peer p i) r (Some [])) <$> idx)) →
  make_members p r idx acc = inr (acc ++ ((λ i, new_node (member_peer p i) r (Some [])) <$> idx)).
Proof.
  revert acc. induction idx as [|i idx IH]; intros acc Hnd; cbn [make_members]; [cbn; by rewrite app_nil_r|].
  assert (Hno : existsb (λ m, (peer_id (ns_self m) =? peer_id (member_peer p i))%Z) acc = false).
  { apply existsb_false_Forall, Forall_forall. intros m Hm. apply Z.eqb_neq. intros E. rewrite fmap_app in Hnd.
    apply NoDup_app in Hnd as (_ & Hnd & _). apply (Hnd (peer_id (ns_self m))); [apply list_elem_of_fmap; by exists m|].
    rewrite E, !fmap_cons. by left. }
  rewrite Hno, IH; [by rewrite <- app_assoc|]. by rewrite <- app_assoc.
Qed.

Lemma wired_member ring r p i v processes : expand_members processes v = inr ring → p ∈ processes → i < v → 1 ≤ r →
  ∃ s fs, default (new_node (member_peer p i) r (Some [])) (init_wired (new_node (member_peer p i) r (Some [])) ring) = s ∧
    build_fingers (peer_id (member_peer p i)) ring = Some fs ∧ ns_self s = member_peer p i ∧ ns_fingers s = fs ∧
    successor_of (finger_start (peer_id (member_peer p i)) 0) ring = Some (succ0 s) ∧ ns_orphaned s = false.
Proof.
  intros H Hp Hi Hr. pose proof H as [Hring Hin]%expand_members_ring.
  destruct (init_wired_tables ring Hring (new_node (member_peer p i) r (Some []))) as (s & fs & E & Efs & E1 & _ & _ & E4 & E5 & E6).
  - apply Hin. by exists p, i.
  - exact Hr.
  - exists s, fs. rewrite E. done.
Qed.
End ring.

(** ** Processes started from one file *)
Section cluster.
Context {SH : Sha1} {SHok : Sha1Ok SH} {IN : Inet} {IOk : InetOk IN} (logger : Logger).
Context (o : NodeOptions) (files : bytes → option bytes).

(** What the process at [p] starts with, whatever the network does: a wired start makes no calls. *)
Definition started (p : Peer) : StartExit + list NodeState :=
  (start_members (λ _ _ σ, ((Closed, []), σ)) o p files tt).1.

(** The processes running, by address. *)
Context (running : bytes → option ChunkNode).

(** A member asked by its address and identifier, as every ring request is sent. *)
Definition cluster_transport : Transport unit := λ to request σ,
  match running (address to) with
  | None => ((Refused, []), σ)
  | Some n => ((Ok, (answer_ring logger (λ _ _ _ σ, ((Closed, []), σ)) (addressed to request) [] (n, tt)).1.1), σ)
  end.

Context (processes ring : list Peer).
Context (Hmode : no_mode o = Wired) (Hv : (1 <= no_vnodes o)%Z) (Hr : (1 <= no_successors o)%Z).
Context (Hread : read_members (no_file o) (files (no_file o)) = inr processes).
Context (Hexp : expand_members processes (Z.to_nat (no_vnodes o)) = inr ring).
Let v := Z.to_nat (no_vnodes o).
Let r := Z.to_nat (no_successors o).

Lemma started_wired p : p ∈ processes → started p = inr (wire_all (made p r v) ring).
Proof using Hmode Hread Hexp.
  intros Hp. unfold started, start_members. rewrite make_members_made.
  2:{ rewrite app_nil_l, <- list_fmap_compose. pose proof (member_ids_apart _ _ _ _ Hexp Hp) as H. rewrite <- list_fmap_compose in H. exact H. }
  rewrite Hmode. rewrite bool_decide_false by done. cbn [andb orb]. rewrite bool_decide_true by done. rewrite Hread, Hexp.
  assert (Hl : existsb (λ q, same_process q p) processes = true).
  { apply existsb_exists. exists p. split; [by apply list_elem_of_In|]. by apply same_process_true. }
  by rewrite Hl.
Qed.

Lemma cluster_answers : (∀ p, p ∈ processes → ∃ n, running (address p) = Some n ∧ started p = inr (cn_members n)) →
  answers_for ring cluster_transport.
Proof using Hmode Hv Hr Hread Hexp.
  intros Hrun m k σ Hm Hk. pose proof (expand_members_ring _ _ _ Hexp) as [Hring Hin]. apply Hin in Hm as (p & i & Hp & Hi & ->).
  destruct (Hrun p Hp) as (n & En & Es). rewrite started_wired in Es by done. injection Es as Es.
  destruct (wired_member ring r p i v processes Hexp Hp Hi ltac:(subst r; lia)) as (s & fs & Ews & Efs & E1 & E2 & E3 & E4).
  exists (render_step (route_step (member_peer p i) (succ0 s) fs k)), σ. split.
  { unfold ring_answer. rewrite E3. cbn [mbind option_bind]. by rewrite Efs. }
  unfold cluster_transport. change (address (member_peer p i)) with (address p). rewrite En. do 2 f_equal.
  unfold answer_ring. rewrite split_target_addressed by (apply member_peer_u64 || done). cbn [target_member fst target_request].
  assert (Hfind : ∃ j, member_by_id (cn_members n) (peer_id (member_peer p i)) = Some j ∧ cn_members n !! j = Some s).
  { unfold member_by_id. rewrite <- Es. destruct (list_find _ _) as [[j m]|] eqn:Ef; cbn [fmap option_fmap option_map fst].
    - exists j. split; [done|]. apply list_find_Some in Ef as (Ej & Ep & _). unfold wire_all, made in Ej. rewrite !list_lookup_fmap in Ej.
      destruct (decide (j < v)) as [Hj|Hj]; [|rewrite (proj2 (lookup_ge_None _ _)) in Ej by (rewrite length_seq; lia); done].
      rewrite lookup_seq_lt in Ej by done. cbn [fmap option_fmap option_map Nat.add] in Ej. injection Ej as Ej.
      destruct (wired_member ring r p j v processes Hexp Hp Hj ltac:(subst r; lia)) as (s' & fs' & Ews' & _ & E1' & _).
      rewrite Ews' in Ej. subst s'. rewrite E1' in Ep. pose proof (member_peer_same _ _ _ p j p i Hexp Hp Hp Hj Hi Ep) as Eq.
      unfold wire_all, made. rewrite !list_lookup_fmap, lookup_seq_lt by done. cbn [fmap option_fmap option_map Nat.add]. rewrite Eq. by rewrite Ews.
    - exfalso. apply list_find_None in Ef. rewrite Forall_forall in Ef. apply (Ef s); [|by rewrite E1].
      unfold wire_all, made. apply list_elem_of_fmap. exists (new_node (member_peer p i) r (Some [])). split; [by rewrite Ews|].
      apply list_elem_of_fmap. exists i. split; [done|]. apply elem_of_seq. lia. }
  destruct Hfind as (j & -> & Ej). unfold at_member. cbn [fst]. rewrite Ej. cbn [mbind option_bind].
  pose proof (request_find_successor (node_transport logger (λ _ _ _ σ, ((Closed, []), σ)) []) (s, (n, tt)) k Hk) as Hreq.
  destruct (handle_request _ _ _) as [[reply after] [m' [n' w']]]. cbn [fst] in *. rewrite Hreq, E4, E1, E2. done.
Qed.
End cluster.

(** ** Theorems *)

(** C21. Processes started from one membership file route right from their first
    request. If the file is read and its processes expand to a ring without
    colliding identifiers, every listed process starts; and once they run, a lookup
    from any member - each hop addressed to a member, sent to its process, split from
    its prefix and handled by that member - finds the true owner of any identifier
    within [MAX_REQUESTS] requests. *)
Theorem started_ring_routes {SH : Sha1} {SHok : Sha1Ok SH} {IN : Inet} {IOk : InetOk IN} logger o files running processes ring start k σ :
  no_mode o = Wired → (1 <= no_vnodes o)%Z → (1 <= no_successors o)%Z →
  read_members (no_file o) (files (no_file o)) = inr processes →
  expand_members processes (Z.to_nat (no_vnodes o)) = inr ring →
  start ∈ ring → is_u64 k →
  (∀ p, p ∈ processes → ∃ ms, started o files p = inr ms) ∧
  ((∀ p, p ∈ processes → ∃ n, running (address p) = Some n ∧ started o files p = inr (cn_members n)) →
   ∃ res σ', lookup (cluster_transport logger running) start k σ = (res, σ') ∧ error res = LNone ∧
     successor_of k ring = Some (found res) ∧ requests res ≤ MAX_REQUESTS).
Proof.
  intros Hmode Hv Hr Hread Hexp Hs Hk. pose proof (expand_members_ring _ _ _ Hexp) as [Hring _]. split.
  { intros p Hp. eexists. by eapply started_wired. }
  intros Hrun. pose proof (cluster_answers logger o files running processes ring Hmode Hv Hr Hread Hexp Hrun) as Hans.
  pose proof (ring_peers_ok _ _ _ (read_members_ok _ _ _ Hread) Hexp) as Hok.
  destruct (predecessor_of_precedes ring k Hring Hk) as (p & _ & Hpre).
  destruct (lookup_loop_finds ring Hring Hok (cluster_transport logger running) Hans 64 start k p [] σ Hs Hk Hpre) as (w & pth & σ' & E & Ho & Hl);
    [by apply wrap64_is_u64|]. by exists (mkLookupResult LNone [] w pth 1), σ'.
Qed.

(** ** Witness *)
#[local] Existing Instances quad_inet quad_inet_ok.

(** A digest whose leading characters, the identifier's, are spread out. *)
#[local] Instance spread_sha1 : Sha1 := λ s, drop 24 (demo_sha1 s) ++ take 24 (demo_sha1 s).
#[local] Instance spread_sha1_ok : Sha1Ok spread_sha1.
Proof.
  split; intros s; cbv [sha1 spread_sha1].
  - rewrite length_app, length_drop, length_take, (@sha1_length _ demo_sha1_ok). reflexivity.
  - pose proof (@sha1_lower_hex _ demo_sha1_ok s) as H. apply Forall_app. split; [by apply Forall_drop|by apply Forall_take].
Qed.

Definition demo_members_file : bytes := lit "10.0.0.1:5000" ++ [NL] ++ lit "10.0.0.2:5000" ++ [NL].
Definition demo_wired : NodeOptions := default_options <| no_mode := Wired |> <| no_file := lit "members" |> <| no_vnodes := 3%Z |>.
Definition demo_files : bytes → option bytes := λ path, if bool_decide (path = lit "members") then Some demo_members_file else None.
Definition demo_processes : list Peer := match read_members (lit "members") (Some demo_members_file) with inr ps => ps | inl _ => [] end.
Definition demo_wide : list Peer := match expand_members demo_processes 3 with inr ring => ring | inl _ => [] end.
Definition demo_running : bytes → option ChunkNode := λ a,
  match list_find (λ p, address p = a) demo_processes with
  | Some (_, p) => match started demo_wired demo_files p with inr ms => Some (demo_node <| cn_members := ms |>) | inl _ => None end
  | None => None
  end.
Definition demo_start : Peer := default demo_a (demo_wide !! 4).

Lemma demo_process_found : ∀ p, p ∈ demo_processes → snd <$> list_find (λ q, address q = address p) demo_processes = Some p.
Proof. apply Forall_forall, (bool_decide_unpack _). vm_compute. exact Logic.I. Qed.

Lemma demo_running_found p ms : p ∈ demo_processes → started demo_wired demo_files p = inr ms →
  demo_running (address p) = Some (demo_node <| cn_members := ms |>).
Proof.
  intros Hp Ems. unfold demo_running. apply demo_process_found in Hp. revert Hp.
  generalize (list_find (λ q, address q = address p) demo_processes). intros [[j q]|] E; [|discriminate E].
  cbn [fmap option_fmap option_map snd] in E. injection E as ->. rewrite Ems. reflexivity.
Qed.

Lemma started_ring_routes_witness :
  (∀ p, p ∈ demo_processes → ∃ ms, started demo_wired demo_files p = inr ms) ∧
  ∃ res σ', lookup (cluster_transport demo_logger demo_running) demo_start 4000000000 tt = (res, σ') ∧ error res = LNone ∧
    successor_of 4000000000 demo_wide = Some (found res) ∧ requests res ≤ MAX_REQUESTS.
Proof.
  destruct (started_ring_routes demo_logger demo_wired demo_files demo_running demo_processes demo_wide demo_start 4000000000 tt) as [H1 H2].
  - reflexivity.
  - vm_compute. discriminate.
  - vm_compute. discriminate.
  - vm_compute. reflexivity.
  - vm_compute. reflexivity.
  - apply (bool_decide_unpack _). vm_compute. exact Logic.I.
  - by apply (bool_decide_unpack _).
  - split; [exact H1|]. apply H2. intros p Hp. destruct (H1 p Hp) as [ms Ems].
    exists (demo_node <| cn_members := ms |>). split; [by apply demo_running_found|exact Ems].
Defined.
