(* ===== verification/Http.v ===== *)
(** * Http: the metrics port's one request and one response (http.h, http.cpp)

    The parser of a request head, the answer to it, the reader that fetches the
    head from a socket and the service of one connection. The incoming side of a
    socket is the list of what its [recv] calls meet, as in Net; a deadline that
    passes is the error [EAGAIN]. [render] is what the registry renders, [None]
    when it throws. [read_response] is the reference reader of a response. *)
From S2P Require Import Prelude Text Net.

Definition MAX_HTTP_HEAD : nat := 4096.

(** ** Text *)

Definition CRLF : bytes := [CR; NL].
Definition BLANK_CRLF : bytes := CRLF ++ CRLF.
Definition BLANK_LF : bytes := [NL; NL].
Definition SLASH : Ascii.ascii := chr 47.
Definition QUESTION : Ascii.ascii := chr 63.

(** [s.find(p)] and [s.find(p, from)] for a text. *)
Fixpoint find_text (p s : bytes) : option nat :=
  if bool_decide (take (length p) s = p) then Some 0
  else match s with [] => None | _ :: s' => S <$> find_text p s' end.
Definition find_text_from (p : bytes) (from : nat) (s : bytes) : option nat :=
  (λ i, from + i) <$> find_text p (drop from s).

(** [s.find(c, from)]. *)
Definition find_char_from (c : Ascii.ascii) (from : nat) (s : bytes) : option nat :=
  (λ i, from + i) <$> find_char c (drop from s).

(** [s.substr(0, s.find(c))]: all of it when there is none. *)
Definition before_char (c : Ascii.ascii) (s : bytes) : bytes :=
  match find_char c s with Some i => take i s | None => s end.

(** ** Requests *)

Record HttpRequest := mkHttpRequest { hr_ok : bool; hr_method : bytes; hr_path : bytes }.
Definition no_request : HttpRequest := mkHttpRequest false [] [].

Definition is_upper (c : Ascii.ascii) : bool := (65 <=? code c)%N && (code c <=? 90)%N.

Definition parse_http_head (head : bytes) : HttpRequest :=
  let line := strip_cr (before_char NL head) in
  match find_char SPACE line with
  | None => no_request
  | Some a =>
      match find_char_from SPACE (a + 1) line with
      | None => no_request
      | Some b =>
          if bool_decide (is_Some (find_char_from SPACE (b + 1) line)) then no_request else
          let method := take a line in
          let target := substr (a + 1) (b - a - 1) line in
          let version := drop (b + 1) line in
          if bool_decide (method = []) || (16 <? length method) then no_request
          else if negb (forallb is_upper method) then no_request
          else if bool_decide (target = []) || negb (bool_decide (List.hd_error target = Some SLASH)) then no_request
          else if negb (forallb is_visible target) then no_request
          else if negb (bool_decide (version = lit "HTTP/1.0")) && negb (bool_decide (version = lit "HTTP/1.1")) then no_request
          else mkHttpRequest true method (before_char QUESTION target)
      end
  end.

(** ** Responses *)

Definition reason (status : N) : bytes :=
  if (status =? 200)%N then lit "OK"
  else if (status =? 400)%N then lit "Bad Request"
  else if (status =? 404)%N then lit "Not Found"
  else if (status =? 405)%N then lit "Method Not Allowed"
  else if (status =? 431)%N then lit "Request Header Fields Too Large"
  else if (status =? 500)%N then lit "Internal Server Error"
  else lit "Error".

Definition TEXT : bytes := lit "text/plain; charset=utf-8".
Definition EXPOSITION : bytes := lit "text/plain; version=0.0.4; charset=utf-8".

Definition http_response (status : N) (content_type body : bytes) : bytes :=
  lit "HTTP/1.0 " ++ dec status ++ lit " " ++ reason status ++ CRLF ++
  lit "Content-Type: " ++ content_type ++ CRLF ++
  lit "Content-Length: " ++ dec (N.of_nat (length body)) ++ CRLF ++
  lit "Connection: close" ++ CRLF ++ CRLF ++ body.

Definition METRICS_PATH : bytes := lit "/metrics".

(** [None]: [render] threw. *)
Definition metrics_answer (head : bytes) (render : option bytes) : option bytes :=
  let r := parse_http_head head in
  if negb (hr_ok r) then Some (http_response 400 TEXT (lit "bad request" ++ [NL]))
  else if negb (bool_decide (hr_method r = lit "GET")) then Some (http_response 405 TEXT (lit "only GET" ++ [NL]))
  else if negb (bool_decide (hr_path r = METRICS_PATH)) then Some (http_response 404 TEXT (lit "only /metrics" ++ [NL]))
  else http_response 200 EXPOSITION <$> render.

(** ** Reading a head *)

Inductive HeadRead := HeadComplete | HeadTooLarge | HeadFailed.
#[export] Instance HeadRead_eq_dec : EqDecision HeadRead.
Proof. solve_decision. Defined.

(** The search after an append, from three bytes before it. *)
Definition ends_head (from : nat) (head : bytes) : bool :=
  bool_decide (is_Some (find_text_from BLANK_CRLF from head)) || bool_decide (is_Some (find_text_from BLANK_LF from head)).

(** One [recv] of the loop: at most [min(room, 1024)] of the bytes that are there.
    [inl]: the loop goes on with this head; [inr]: it returns. *)
Definition head_step (head got : bytes) : bytes + HeadRead * bytes :=
  let from := if length head <? 3 then 0 else length head - 3 in
  let head' := head ++ got in
  if ends_head from head' then inr (HeadComplete, head')
  else if MAX_HTTP_HEAD <=? length head' then inr (HeadTooLarge, head')
  else inl head'.

Definition head_room (head : bytes) : nat :=
  let room := MAX_HTTP_HEAD - length head in if room <? 1024 then room else 1024.

(** The bytes of one segment, [fuel] at least their number; [k] is the rest of the
    stream. *)
Fixpoint read_segment (fuel : nat) (bs head : bytes) (st : list RecvEvent)
    (k : bytes → option (HeadRead * bytes * list RecvEvent)) : option (HeadRead * bytes * list RecvEvent) :=
  match fuel, bs with
  | _, [] | 0, _ => k head
  | S fuel, _ =>
      let n := head_room head in
      match head_step head (take n bs) with
      | inl head' => read_segment fuel (drop n bs) head' st k
      | inr (r, head') => Some (r, head', RecvData (drop n bs) :: st)
      end
  end.

(** [None] while the last call has not returned. *)
Fixpoint read_http_head_go (st : list RecvEvent) (head : bytes) : option (HeadRead * bytes * list RecvEvent) :=
  match st with
  | [] => None
  | RecvIntr :: st => read_http_head_go st head
  | RecvClosed :: st | RecvError _ :: st => Some (HeadFailed, head, st)
  | RecvData bs :: st => read_segment (length bs) bs head st (read_http_head_go st)
  end.
Definition read_http_head (st : list RecvEvent) : option (HeadRead * bytes * list RecvEvent) := read_http_head_go st [].

(** ** One connection *)

(** After the response: what is left is read and dropped, 4096 bytes at a time, up
    to 65536. Gives the number dropped. *)
Fixpoint drain_segment (fuel : nat) (n dropped : N) (k : N → option N) : option N :=
  match fuel with
  | 0 => k dropped
  | S fuel =>
      if (n =? 0)%N then k dropped
      else if (65536 <=? dropped)%N then Some dropped
      else drain_segment fuel (n - 4096)%N (dropped + N.min n 4096)%N k
  end.
Fixpoint drain (st : list RecvEvent) (dropped : N) : option N :=
  if (65536 <=? dropped)%N then Some dropped
  else match st with
  | [] => None
  | RecvIntr :: st => drain st dropped
  | RecvClosed :: _ | RecvError _ :: _ => Some dropped
  | RecvData bs :: st => drain_segment (length bs) (N.of_nat (length bs)) dropped (drain st)
  end.

(** What the connection is answered, the catch of every exception included. *)
Definition connection_answer (got : HeadRead) (head : bytes) (render : option bytes) : bytes :=
  let answer := if bool_decide (got = HeadTooLarge) then Some (http_response 431 TEXT (lit "request head too large" ++ [NL]))
                else metrics_answer head render in
  match answer with Some a => a | None => http_response 500 TEXT (lit "could not render the metrics" ++ [NL]) end.

(** The bytes put on the wire and the number dropped before the close; [None] while
    a call has not returned. *)
Definition serve_metrics_connection (render : option bytes) (recvs : list RecvEvent) (sends : list SendEvent) : option (bytes * N) :=
  '(got, head, rest) ← read_http_head recvs;
  if bool_decide (got = HeadFailed) then Some ([], 0%N) else
  '(sent, _) ← send_all (connection_answer got head render) sends;
  dropped ← drain rest 0;
  Some (sent, dropped).

(** Opening the port: the error, or nothing once a thread serves it, one accepted
    connection after another. *)
Definition serve_metrics (strerror : Errno → bytes) (ip : bytes) (port : Z) (c : ListenCalls) (thread : option bytes) : option bytes :=
  match listen_on c with
  | Some e => Some (lit "cannot listen on " ++ ip ++ lit ":" ++ to_string port ++ lit " for metrics: " ++ strerror e)
  | None => (λ what, lit "cannot start the metrics thread: " ++ what) <$> thread
  end.

(** ** Reading a response *)

Definition after_text (p s : bytes) : option bytes := if starts_with p s then Some (drop (length p) s) else None.

(** Up to the first carriage return and line feed, and what follows them. *)
Definition cut_line (s : bytes) : option (bytes * bytes) :=
  i ← find_text CRLF s; Some (take i s, drop (i + 2) s).

(** Status, content type and the body of the declared length; the stream holds
    nothing more. *)
Definition read_response (s : bytes) : option (N * bytes * bytes) :=
  '(status_line, s) ← cut_line s;
  rest ← after_text (lit "HTTP/1.0 ") status_line;
  i ← find_char SPACE rest;
  status ← parse_canonical 3 (take i rest);
  '(type_line, s) ← cut_line s;
  content_type ← after_text (lit "Content-Type: ") type_line;
  '(length_line, s) ← cut_line s;
  len ← after_text (lit "Content-Length: ") length_line ≫= parse_canonical 20;
  '(close_line, s) ← cut_line s;
  '(blank, body) ← cut_line s;
  if bool_decide (close_line = lit "Connection: close" ∧ blank = []) && (N.of_nat (length body) =? len)%N
  then Some (status, content_type, body) else None.
