(* ===== verification/HttpSpec.v ===== *)
(** * HttpSpec: the metrics port reads one bounded head and gives one response

    The reader keeps the head under its cap and stops exactly when the head read so
    far holds a blank line, although it searches only from three bytes before each
    append; a response reads back as its status, type and body; a GET of /metrics,
    and nothing else, is answered with the registry's text, whatever the segments
    the request arrives in and the reply is accepted in. *)
From S2P Require Import Prelude Text Net Log Serve Http.

(** ** Searching for a text *)

Definition occurs (p s : bytes) : Prop := ∃ a b, s = a ++ p ++ b.

Lemma find_text_Some p s i : find_text p s = Some i → s = take i s ++ p ++ drop (i + length p) s.
Proof.
  revert i. induction s as [|c s IH]; intros i; cbn [find_text]; case_bool_decide as E.
  - intros [= <-]. rewrite take_nil in E. subst p. done.
  - done.
  - intros [= <-]. cbn [take app Nat.add]. rewrite <- E at 1. by rewrite take_drop.
  - intros (j & Hj & ->)%fmap_Some. cbn [take app Nat.add drop]. f_equal. by apply IH.
Qed.

Lemma find_text_occurs p s : is_Some (find_text p s) ↔ occurs p s.
Proof.
  split.
  - intros [i Hi]. apply find_text_Some in Hi. by exists (take i s), (drop (i + length p) s).
  - intros (a & b & ->). induction a as [|c a IH].
    + assert (E : take (length p) (p ++ b) = p) by apply take_app_length. cbn [app].
      destruct (p ++ b) as [|x s] eqn:Es; cbn [find_text]; rewrite bool_decide_true by done; by eexists.
    + cbn [app find_text]. case_bool_decide; [by eexists|]. apply fmap_is_Some, IH.
Qed.

Lemma find_text_from_occurs p from s : is_Some (find_text_from p from s) ↔ occurs p (drop from s).
Proof. unfold find_text_from. rewrite fmap_is_Some. apply find_text_occurs. Qed.

(** The search after an append need not look further back than one byte less than
    the text. *)
Lemma occurs_append p head got : length p ≤ 4 → ¬ occurs p head →
  occurs p (drop (length head - 3) (head ++ got)) ↔ occurs p (head ++ got).
Proof.
  intros Hp Hn. split.
  - intros (a & b & E). exists (take (length head - 3) (head ++ got) ++ a), b.
    by rewrite <- app_assoc, <- E, take_drop.
  - intros (a & b & E). destruct (decide (length a + length p ≤ length head)) as [Hle|Hgt].
    + destruct Hn. exists a, (drop (length a + length p) head).
      assert (Et : take (length a + length p) head = a ++ p).
      { rewrite <- (take_app_le head got) by lia. rewrite E, app_assoc.
        rewrite <- length_app. apply take_app_length. }
      rewrite app_assoc, <- Et. by rewrite take_drop.
    + exists (drop (length head - 3) a), b. rewrite E. apply drop_app_le. lia.
Qed.

(** A head that holds a blank line, in either form. *)
Definition has_blank_line (head : bytes) : Prop := occurs BLANK_CRLF head ∨ occurs BLANK_LF head.

Lemma ends_head_blank head got : ¬ has_blank_line head →
  ends_head (if length head <? 3 then 0 else length head - 3) (head ++ got) = true ↔ has_blank_line (head ++ got).
Proof.
  intros Hn. replace (if length head <? 3 then 0 else length head - 3) with (length head - 3) by (destruct (Nat.ltb_spec (length head) 3); lia).
  unfold ends_head, has_blank_line. rewrite orb_true_iff, !bool_decide_eq_true, !find_text_from_occurs.
  rewrite !occurs_append; [done|simpl; lia|by intros ?; apply Hn; right|simpl; lia|by intros ?; apply Hn; left].
Qed.

Lemma occurs_app p s t : occurs p s → occurs p (s ++ t).
Proof. intros (a & b & ->). exists a, (b ++ t). by rewrite <- !app_assoc. Qed.
Lemma blank_line_app s t : has_blank_line s → has_blank_line (s ++ t).
Proof. intros [H|H]; [left|right]; by apply occurs_app. Qed.
Lemma no_blank_line_nil : ¬ has_blank_line [].
Proof. intros [(a & b & E)|(a & b & E)]; by destruct a. Qed.

(** ** Reading a head *)

(** The loop's invariant, and what it returns. *)
Definition head_open (head : bytes) : Prop := length head < MAX_HTTP_HEAD ∧ ¬ has_blank_line head.
Definition head_done (r : HeadRead) (head : bytes) : Prop :=
  length head ≤ MAX_HTTP_HEAD ∧
  ((r = HeadComplete ∧ has_blank_line head) ∨ (r = HeadTooLarge ∧ ¬ has_blank_line head ∧ length head = MAX_HTTP_HEAD)).

Lemma head_room_fits head : length head + head_room head ≤ MAX_HTTP_HEAD ∨ MAX_HTTP_HEAD ≤ length head.
Proof. unfold head_room. destruct (Nat.ltb_spec (MAX_HTTP_HEAD - length head) 1024); lia. Qed.
Lemma head_room_pos head : length head < MAX_HTTP_HEAD → 0 < head_room head.
Proof. unfold head_room. destruct (Nat.ltb_spec (MAX_HTTP_HEAD - length head) 1024); lia. Qed.

Lemma head_step_spec head got : head_open head → length got ≤ head_room head →
  match head_step head got with
  | inl h => h = head ++ got ∧ head_open h
  | inr (r, h) => h = head ++ got ∧ head_done r h
  end.
Proof.
  intros [Hl Hb] Hg. unfold head_step, head_open, head_done. pose proof (ends_head_blank head got Hb) as He.
  pose proof (head_room_fits head) as Hroom.
  assert (Hlen : length (head ++ got) ≤ MAX_HTTP_HEAD) by (rewrite length_app; lia).
  destruct (ends_head _ _) eqn:E.
  - split; [done|]. split; [done|]. left. split; [done|]. by apply He.
  - assert (Hn : ¬ has_blank_line (head ++ got)) by (intros H; by apply He in H).
    destruct (Nat.leb_spec MAX_HTTP_HEAD (length (head ++ got))).
    + split; [done|]. split; [done|]. right. split; [done|]. split; [done|lia].
    + done.
Qed.

Lemma read_segment_cases fuel bs head st k : head_open head → length bs ≤ fuel →
  (head_open (head ++ bs) ∧ read_segment fuel bs head st k = k (head ++ bs)) ∨
  (∃ r h more, read_segment fuel bs head st k = Some (r, h, RecvData more :: st) ∧ h ++ more = head ++ bs ∧ head_done r h).
Proof.
  revert bs head. induction fuel as [|fuel IH]; intros bs head Ho Hf.
  { destruct bs; [|simpl in Hf; lia]. left. rewrite app_nil_r. done. }
  destruct bs as [|c bs]; [left; rewrite app_nil_r; done|]. cbn [read_segment].
  pose proof (head_room_pos head (proj1 Ho)) as Hpos.
  pose proof (head_step_spec head (take (head_room head) (c :: bs)) Ho) as Hs.
  rewrite length_take in Hs. specialize (Hs (Nat.le_min_l _ _)).
  destruct (head_step head (take (head_room head) (c :: bs))) as [h|[r h]]; destruct Hs as [-> Hs].
  - destruct (IH (drop (head_room head) (c :: bs)) _ Hs) as [[H1 H2]|(r & h & more & H1 & H2 & H3)].
    + rewrite length_drop. simpl in Hf |- *. lia.
    + left. rewrite <- app_assoc, take_drop in H1, H2. done.
    + right. exists r, h, more. rewrite <- app_assoc, take_drop in H2. done.
  - right. eexists r, _, _. split; [done|]. split; [|done]. by rewrite <- app_assoc, take_drop.
Qed.

(** Whatever the stream, the head read is a prefix of it, within the cap; the
    reader says which of the two ends it met. *)
Lemma read_http_head_spec st head r h rest : head_open head → read_http_head_go st head = Some (r, h, rest) →
  h ++ stream_bytes rest = head ++ stream_bytes st ∧
  (head_done r h ∨ (r = HeadFailed ∧ head_open h)).
Proof.
  revert head. induction st as [|[bs| | |e] st IH]; intros head Ho; [done| |apply IH, Ho| |].
  - cbn [read_http_head_go].
    destruct (read_segment_cases (length bs) bs head st (read_http_head_go st) Ho (le_n _)) as [[H1 ->]|(r' & h' & more & -> & H2 & H3)].
    + intros E. change (stream_bytes (RecvData bs :: st)) with (bs ++ stream_bytes st). rewrite app_assoc. by apply IH.
    + intros [= <- <- <-]. split; [|by left]. change (h' ++ more ++ stream_bytes st = head ++ bs ++ stream_bytes st).
      by rewrite !app_assoc, H2.
  - intros [= <- <- <-]. split; [done|]. by right.
  - intros [= <- <- <-]. split; [done|]. by right.
Qed.

Lemma read_http_head_clean st head : clean st → head_open head →
  match read_http_head_go st head with
  | Some (r, h, rest) => head_done r h ∧ clean rest
  | None => head_open (head ++ stream_bytes st)
  end.
Proof.
  intros Hc. revert head. induction Hc as [|[bs| | |e] st He Hc IH]; intros head Ho; try done; [by rewrite app_nil_r| |by apply IH].
  cbn [read_http_head_go].
  destruct (read_segment_cases (length bs) bs head st (read_http_head_go st) Ho (le_n _)) as [[H1 ->]|(r' & h' & more & -> & H2 & H3)].
  - change (stream_bytes (RecvData bs :: st)) with (bs ++ stream_bytes st). rewrite app_assoc. by apply IH.
  - split; [done|]. by constructor.
Qed.

Lemma head_open_nil : head_open [].
Proof. split; [simpl; unfold MAX_HTTP_HEAD; lia|]. apply no_blank_line_nil. Qed.

(** A request head that fits is read, whatever its segments. *)
Lemma request_is_read st head more : clean st → stream_bytes st = head ++ more → has_blank_line head → length head ≤ MAX_HTTP_HEAD →
  ∃ h rest, read_http_head st = Some (HeadComplete, h, rest) ∧ h ++ stream_bytes rest = head ++ more ∧ clean rest.
Proof.
  intros Hc E Hb Hl. unfold read_http_head. pose proof (read_http_head_clean st [] Hc head_open_nil) as Hr.
  destruct (read_http_head_go st []) as [[[r h] rest]|] eqn:Er.
  - destruct Hr as [Hd Hc']. apply read_http_head_spec in Er as [Es _]; [|apply head_open_nil].
    rewrite E in Es. exists h, rest. destruct Hd as [Hlen [[-> _]|(-> & Hn & El)]]; [done|].
    destruct Hn. rewrite <- (take_drop (length head) h). apply (f_equal (take (length head))) in Es.
    cbn [app] in Es. rewrite take_app_length in Es.
    rewrite take_app_le in Es; [|lia]. rewrite Es.
    by apply blank_line_app.
  - destruct Hr as [_ Hn]. destruct Hn. rewrite E. cbn [app]. by apply blank_line_app.
Qed.

(** ** Reading a response back *)

Lemma find_crlf_line l s : CR ∉ l → find_text CRLF (l ++ CRLF ++ s) = Some (length l).
Proof.
  intros Hl. induction l as [|c l IH]; [done|]. apply not_elem_of_cons in Hl as [Hc Hl].
  cbn [app find_text]. rewrite bool_decide_false; [by rewrite IH|]. intros E. apply Hc. symmetry. exact (f_equal (λ l, default NUL (head l)) E).
Qed.
Lemma cut_line_line l s : CR ∉ l → cut_line (l ++ CRLF ++ s) = Some (l, s).
Proof.
  intros Hl. unfold cut_line. rewrite find_crlf_line by done. cbn [mbind option_bind]. rewrite take_app_length. do 2 f_equal.
  rewrite app_assoc. rewrite <- (length_app l CRLF : _ = length l + 2). apply drop_app_length.
Qed.
Lemma after_text_app p s : after_text p (p ++ s) = Some s.
Proof. unfold after_text. rewrite starts_with_app. by rewrite drop_app_length. Qed.

Lemma dec_no_cr n : CR ∉ dec n.
Proof. intros Hin. pose proof (dec_digits n) as H. rewrite Forall_forall in H. by specialize (H _ Hin). Qed.
Lemma reason_no_cr status : CR ∉ reason status.
Proof.
  apply (bool_decide_unpack (CR ∉ _)). unfold reason. by repeat case_match.
Qed.

(** A response is read back as the status, the type and the body it was made of. *)
Lemma http_response_reads_back status ct body :
  (status < 1000)%N → CR ∉ ct → (N.of_nat (length body) < W64N)%N →
  read_response (http_response status ct body) = Some (status, ct, body).
Proof.
  intros Hs Hct Hb. unfold read_response, http_response.
  set (line1 := lit "HTTP/1.0 " ++ dec status ++ lit " " ++ reason status).
  transitivity (read_response (line1 ++ CRLF ++ (lit "Content-Type: " ++ ct) ++ CRLF ++
    (lit "Content-Length: " ++ dec (N.of_nat (length body))) ++ CRLF ++ lit "Connection: close" ++ CRLF ++ [] ++ CRLF ++ body)).
  { unfold read_response, line1. by rewrite <- !app_assoc. }
  unfold read_response. rewrite cut_line_line. 2:{ unfold line1. rewrite !not_elem_of_app. repeat split; [by apply (bool_decide_unpack (CR ∉ _))|apply dec_no_cr|by apply (bool_decide_unpack (CR ∉ _))|apply reason_no_cr]. }
  cbn [mbind option_bind]. unfold line1. rewrite after_text_app. cbn [mbind option_bind].
  change (lit " " ++ reason status) with (SPACE :: reason status). rewrite find_char_app by apply dec_no_space.
  cbn [mbind option_bind]. rewrite take_app_length. rewrite parse_canonical_dec; [|lia|exact Hs|done].
  cbn [mbind option_bind]. rewrite cut_line_line. 2:{ rewrite not_elem_of_app. split; [by apply (bool_decide_unpack (CR ∉ _))|done]. }
  cbn [mbind option_bind]. rewrite after_text_app. cbn [mbind option_bind].
  rewrite cut_line_line. 2:{ rewrite not_elem_of_app. split; [by apply (bool_decide_unpack (CR ∉ _))|apply dec_no_cr]. }
  cbn [mbind option_bind]. rewrite after_text_app. cbn [mbind option_bind].
  rewrite parse_canonical_dec; [|lia| |done]. 2:{ eapply N.lt_trans; [exact Hb|done]. }
  cbn [mbind option_bind]. rewrite cut_line_line by by apply (bool_decide_unpack (CR ∉ _)).
  cbn [mbind option_bind]. rewrite cut_line_line by by apply (bool_decide_unpack (CR ∉ _)).
  cbn [mbind option_bind]. rewrite bool_decide_true by done. by rewrite N.eqb_refl.
Qed.

(** ** Requests *)

(** The three words of a request line the parser accepts. *)
Definition valid_request (method target version : bytes) : Prop :=
  (method ≠ [] ∧ length method ≤ 16 ∧ forallb is_upper method = true) ∧
  (List.hd_error target = Some SLASH ∧ forallb is_visible target = true) ∧
  (version = lit "HTTP/1.0" ∨ version = lit "HTTP/1.1").
Definition request_line (method target version : bytes) : bytes := method ++ SPACE :: target ++ SPACE :: version.

Lemma forallb_no (p : Ascii.ascii → bool) c s : p c = false → forallb p s = true → c ∉ s.
Proof. intros Hp H Hin. rewrite forallb_Forall, Forall_forall in H. specialize (H c Hin). cbv beta in H. congruence. Qed.

Lemma version_no_space v : v = lit "HTTP/1.0" ∨ v = lit "HTTP/1.1" → SPACE ∉ v.
Proof. intros [->| ->]; by apply (bool_decide_unpack (SPACE ∉ _)). Qed.

Lemma drop_past_char (c : Ascii.ascii) l s : drop (length l + 1) (l ++ c :: s) = s.
Proof. change (c :: s) with ([c] ++ s). rewrite app_assoc, <- (length_app l [c] : _ = length l + 1). apply drop_app_length. Qed.
Lemma find_char_from_past c l s : c ∉ s → ∀ t, find_char_from c (length l + 1) (l ++ c :: s ++ c :: t) = Some (length l + 1 + length s).
Proof. intros Hs t. unfold find_char_from. rewrite drop_past_char. by rewrite find_char_app. Qed.

Lemma parse_request_line head m t v : strip_cr (before_char NL head) = request_line m t v → valid_request m t v →
  parse_http_head head = mkHttpRequest true m (before_char QUESTION t).
Proof.
  intros El ((Hm0 & Hml & Hm) & (Hh & Ht) & Hv). unfold parse_http_head. rewrite El. unfold request_line.
  pose proof (forallb_no _ SPACE m eq_refl Hm) as Hms. pose proof (forallb_no _ SPACE t eq_refl Ht) as Hts.
  pose proof (version_no_space v Hv) as Hvs.
  rewrite find_char_app by done. rewrite find_char_from_past by done.
  assert (Ed : drop (length m + 1 + length t + 1) (m ++ SPACE :: t ++ SPACE :: v) = v).
  { replace (length m + 1 + length t + 1) with ((length m + 1) + (length t + 1)) by lia. by rewrite <- drop_drop, !drop_past_char. }
  rewrite bool_decide_false. 2:{ unfold find_char_from. rewrite Ed. apply find_char_None in Hvs as ->. by intros []. }
  rewrite Ed. rewrite take_app_length. unfold substr. rewrite drop_past_char.
  replace (length m + 1 + length t - length m - 1) with (length t) by lia. rewrite take_app_length.
  rewrite (bool_decide_false (m = [])) by done. destruct (Nat.ltb_spec 16 (length m)); [lia|]. rewrite Hm, Ht.
  rewrite (bool_decide_true (List.hd_error t = _)) by done. rewrite (bool_decide_false (t = [])) by (intros ->; done).
  cbn [orb negb]. destruct Hv as [->| ->]; [rewrite (bool_decide_true (lit "HTTP/1.0" = lit "HTTP/1.0")) by done|rewrite (bool_decide_true (lit "HTTP/1.1" = lit "HTTP/1.1")) by done; rewrite andb_false_r]; done.
Qed.

Lemma parse_http_head_ok head : hr_ok (parse_http_head head) = true →
  ∃ m t v, strip_cr (before_char NL head) = request_line m t v ∧ valid_request m t v.
Proof.
  unfold parse_http_head. set (line := strip_cr (before_char NL head)). clearbody line.
  destruct (find_char SPACE line) as [a|] eqn:Ea; [|done].
  destruct (find_char_from SPACE (a + 1) line) as [b|] eqn:Eb; [|done].
  case_bool_decide as Hn; [done|]. intros H. split_ifs; [done..|]. bool_to_prop.
  apply find_char_Some in Ea as [E1 Ha]. unfold find_char_from in Eb. apply fmap_Some in Eb as (i & Ei & ->).
  apply find_char_Some in Ei as [E2 Hi].
  assert (Eline : line = take a line ++ SPACE :: substr (a + 1) (a + 1 + i - a - 1) line ++ SPACE :: drop (a + 1 + i + 1) line).
  { rewrite E1 at 1. do 2 f_equal. replace (S a) with (a + 1) by lia. rewrite E2 at 1. unfold substr.
    replace (a + 1 + i - a - 1) with i by lia. do 2 f_equal. rewrite drop_drop. f_equal. lia. }
  exists (take a line), (substr (a + 1) (a + 1 + i - a - 1) line), (drop (a + 1 + i + 1) line). split; [exact Eline|].
  split; [|split]; [split; [done|split; [lia|done]]|done|].
  destruct (decide (drop (a + 1 + i + 1) line = lit "HTTP/1.0")) as [E|E]; [by left|right].
  rewrite (bool_decide_false _ E) in *. cbn [negb andb] in *. match goal with H : _ ∨ negb _ = false |- _ => destruct H as [H|H]; [done|] end. by bool_to_prop.
Qed.

(** ** The answer *)

(** A GET of /metrics, a query or not: the only request that is answered 200. *)
Definition asks_for_metrics (head : bytes) : Prop :=
  ∃ target version, strip_cr (before_char NL head) = request_line (lit "GET") target version ∧
    valid_request (lit "GET") target version ∧ before_char QUESTION target = METRICS_PATH.

Lemma metrics_answer_asks head render : asks_for_metrics head → metrics_answer head render = http_response 200 EXPOSITION <$> render.
Proof.
  intros (t & v & E & Hv & Ep). unfold metrics_answer. rewrite (parse_request_line _ _ _ _ E Hv). cbn [hr_ok hr_method hr_path negb].
  rewrite bool_decide_true by done. by rewrite Ep, bool_decide_true.
Qed.

Definition STATUSES : list N := [200; 400; 404; 405; 431; 500]%N.

(** What a connection is answered, by the request and the renderer. *)
Lemma connection_answer_cases got head render :
  ∃ status ct body, connection_answer got head render = http_response status ct body ∧ status ∈ STATUSES ∧ (CR ∉ ct) ∧
    (status = 200%N → got ≠ HeadTooLarge ∧ asks_for_metrics head ∧ render = Some body) ∧
    (status ≠ 200%N → length body ≤ 64).
Proof.
  assert (HT : CR ∉ TEXT) by by apply (bool_decide_unpack (CR ∉ _)).
  assert (HE : CR ∉ EXPOSITION) by by apply (bool_decide_unpack (CR ∉ _)).
  assert (Hfix : ∀ s b, s ∈ STATUSES → s ≠ 200%N → length b ≤ 64 → ∃ status ct body, http_response s TEXT b = http_response status ct body ∧
    status ∈ STATUSES ∧ (CR ∉ ct) ∧ (status = 200%N → got ≠ HeadTooLarge ∧ asks_for_metrics head ∧ render = Some body) ∧
    (status ≠ 200%N → length body ≤ 64)) by (intros s b Hs H2 Hb; by exists s, TEXT, b).
  assert (Hin : ∀ s, bool_decide (s ∈ STATUSES) = true → s ∈ STATUSES) by (intros s; apply bool_decide_eq_true).
  unfold connection_answer. case_bool_decide as Hg; [apply Hfix; [by apply Hin|done|apply Nat.leb_le; reflexivity]|].
  unfold metrics_answer.
  destruct (hr_ok (parse_http_head head)) eqn:Eok; cbn [negb]; [|apply Hfix; [by apply Hin|done|apply Nat.leb_le; reflexivity]].
  destruct (parse_http_head_ok head Eok) as (m & t & v & El & Hv). rewrite (parse_request_line head m t v El Hv). cbn [hr_method hr_path].
  case_bool_decide as Hm; cbn [negb]; [|apply Hfix; [by apply Hin|done|apply Nat.leb_le; reflexivity]]. subst m.
  case_bool_decide as Hp; cbn [negb]; [|apply Hfix; [by apply Hin|done|apply Nat.leb_le; reflexivity]].
  destruct render as [b|]; cbn [fmap option_fmap option_map]; [|apply Hfix; [by apply Hin|done|apply Nat.leb_le; reflexivity]].
  exists 200%N, EXPOSITION, b. split; [done|]. split; [by apply Hin|]. split; [done|]. split; [|done]. intros _.
  split; [done|]. split; [|done]. by exists t, v.
Qed.

(** ** The drain *)

Definition DRAIN_CAP : N := (65536 + 4096)%N.

Lemma drain_segment_bounded fuel n dropped k d : (dropped < DRAIN_CAP)%N → (∀ x d, (x < DRAIN_CAP)%N → k x = Some d → (d < DRAIN_CAP)%N) →
  drain_segment fuel n dropped k = Some d → (d < DRAIN_CAP)%N.
Proof.
  intros Hd Hk. revert n dropped Hd. induction fuel as [|fuel IH]; intros n dropped Hd; cbn [drain_segment]; [by apply Hk|].
  destruct (n =? 0)%N; [by apply Hk|]. destruct (N.leb_spec 65536 dropped); [by intros [= <-]|].
  apply IH. unfold DRAIN_CAP. lia.
Qed.
Lemma drain_bounded st dropped d : (dropped < DRAIN_CAP)%N → drain st dropped = Some d → (d < DRAIN_CAP)%N.
Proof.
  revert dropped d. induction st as [|e st IH]; intros dropped d Hd; cbn [drain];
    (destruct (N.leb_spec 65536 dropped); [by intros [= <-]|]); [done|].
  destruct e; [|by apply IH|by intros [= <-]..]. apply drain_segment_bounded; [done|]. intros x d'. apply IH.
Qed.

(** A peer that closes lets the drain end. *)
Lemma drain_segment_ends fuel n dropped k : (∀ x, is_Some (k x)) → is_Some (drain_segment fuel n dropped k).
Proof.
  intros Hk. revert n dropped. induction fuel as [|fuel IH]; intros n dropped; cbn [drain_segment]; [apply Hk|].
  destruct (n =? 0)%N; [apply Hk|]. destruct (65536 <=? dropped)%N; [by eexists|apply IH].
Qed.
Lemma drain_ends st tl dropped : is_Some (drain (st ++ RecvClosed :: tl) dropped).
Proof.
  revert dropped. induction st as [|e st IH]; intros dropped; cbn [app drain]; (destruct (65536 <=? dropped)%N; [by eexists|]); [by eexists|].
  destruct e; [|apply IH|by eexists..]. apply drain_segment_ends, IH.
Qed.

(** ** Connections *)

Lemma read_segment_app fuel bs head st tl k k' r h rest :
  (∀ h', k h' = Some (r, h, rest) → k' h' = Some (r, h, rest ++ tl)) →
  read_segment fuel bs head st k = Some (r, h, rest) → read_segment fuel bs head (st ++ tl) k' = Some (r, h, rest ++ tl).
Proof.
  intros Hk. revert bs head. induction fuel as [|fuel IH]; intros bs head; cbn [read_segment]; [by destruct bs; apply Hk|].
  destruct bs as [|c bs]; [apply Hk|]. destruct (head_step _ _) as [h'|[r' h']]; [apply IH|]. by intros [= -> -> <-].
Qed.
Lemma read_http_head_app st tl head r h rest :
  read_http_head_go st head = Some (r, h, rest) → read_http_head_go (st ++ tl) head = Some (r, h, rest ++ tl).
Proof.
  revert head. induction st as [|[bs| | |e] st IH]; intros head; [done| |apply IH|by intros [= <- <- <-]..].
  cbn [read_http_head_go app]. apply read_segment_app. intros h'. apply IH.
Qed.

(** A connection to the metrics port that is done with was sent nothing or (a part of) exactly one response,
    well formed and with one of six statuses; it is 200 only for a complete GET of /metrics, and then its body is
    what the registry rendered. At most 4096 bytes of head were kept and less than 68 KiB read after them, whatever
    the peer sent and however. *)
Theorem one_answer_per_connection render recvs sends sent dropped :
  (∀ text, render = Some text → (N.of_nat (length text) < W64N)%N) →
  serve_metrics_connection render recvs sends = Some (sent, dropped) →
  (dropped < DRAIN_CAP)%N ∧
  ∃ head more, head ++ more = stream_bytes recvs ∧ length head ≤ MAX_HTTP_HEAD ∧
    (sent = [] ∨ ∃ status ct body, sent `prefix_of` http_response status ct body ∧
      read_response (http_response status ct body) = Some (status, ct, body) ∧ status ∈ STATUSES ∧
      (status = 200%N → has_blank_line head ∧ asks_for_metrics head ∧ render = Some body)).
Proof.
  intros Hr. unfold serve_metrics_connection. destruct (read_http_head recvs) as [[[got head] rest]|] eqn:Eh; [|done].
  cbn [mbind option_bind]. apply read_http_head_spec in Eh as [Es Hd]; [|apply head_open_nil].
  assert (Hl : length head ≤ MAX_HTTP_HEAD) by (destruct Hd as [[? _]|[_ [? _]]]; lia).
  case_bool_decide as Hg; [intros [= <- <-]; split; [done|]; exists head, (stream_bytes rest); auto|].
  destruct (send_all _ sends) as [[s r]|] eqn:Esend; [|done]. cbn [mbind option_bind].
  destruct (drain rest 0) as [d|] eqn:Edrain; [|done]. cbn [mbind option_bind]. intros [= <- <-].
  split; [by apply drain_bounded in Edrain|]. exists head, (stream_bytes rest). split; [done|]. split; [done|]. right.
  destruct (connection_answer_cases got head render) as (status & ct & body & Ea & Hin & Hct & H200 & Hother).
  exists status, ct, body. rewrite <- Ea at 1. split; [by eapply send_all_prefix|]. split.
  - apply http_response_reads_back; [|done|].
    + clear -Hin. unfold STATUSES in Hin. repeat (apply elem_of_cons in Hin as [->|Hin]; [done|]). by apply not_elem_of_nil in Hin.
    + destruct (decide (status = 200%N)) as [E|E]; [by apply Hr, H200|]. specialize (Hother E). unfold W64N. lia.
  - split; [done|]. intros E. destruct (H200 E) as (Hg' & Ha & Hb). split; [|done].
    destruct Hd as [[_ [[_ Hblank]|[Hg'' _]]]|[Hf _]]; done.
Qed.

Lemma first_line_app s t : NL ∈ s → before_char NL (s ++ t) = before_char NL s.
Proof.
  intros Hn. unfold before_char. destruct (find_char NL s) as [i|] eqn:E; [|by apply find_char_None in E].
  pose proof (find_char_Some _ _ _ E) as [Es Hi].
  assert (Ei : length (take i s) = i).
  { apply length_take_le. apply (f_equal length) in Es. rewrite length_app, length_take in Es. cbn [length] in Es. lia. }
  rewrite Es at 1. rewrite <- app_assoc. cbn [app]. rewrite find_char_app by done. rewrite Ei.
  apply take_app_le. rewrite length_take in Ei. lia.
Qed.
Lemma blank_line_nl s : has_blank_line s → NL ∈ s.
Proof. intros [(a & b & ->)|(a & b & ->)]; rewrite !elem_of_app; right; left; by apply (bool_decide_unpack (NL ∈ _)). Qed.

(** C40. A scrape is answered: a GET of /metrics, with a query or not, in HTTP/1.0 or 1.1, whose head fits in 4096
    bytes, gets the registry's text as one complete 200 response and the connection is closed, in whatever segments
    the request arrives and whatever the peer sends after it, when the peer reads and in the end closes. *)
Theorem scrape_is_answered text st tl sends head more :
  asks_for_metrics head → has_blank_line head → length head ≤ MAX_HTTP_HEAD →
  clean st → stream_bytes st = head ++ more →
  (N.of_nat (length text) < W64N)%N → accepts (length (http_response 200 EXPOSITION text)) sends →
  ∃ sent dropped, serve_metrics_connection (Some text) (st ++ RecvClosed :: tl) sends = Some (sent, dropped) ∧
    read_response sent = Some (200%N, EXPOSITION, text).
Proof.
  intros Ha Hb Hl Hc E Ht Hs. destruct (request_is_read st head more Hc E Hb Hl) as (h & rest & Er & Es & _).
  assert (Hh : has_blank_line h).
  { apply read_http_head_spec in Er as [_ [[_ [[_ ?]|[? _]]]|[? _]]]; [done..|apply head_open_nil]. }
  assert (Ha' : asks_for_metrics h).
  { unfold asks_for_metrics. rewrite <- (first_line_app h (stream_bytes rest)) by by apply blank_line_nl.
    rewrite Es, first_line_app by by apply blank_line_nl. exact Ha. }
  unfold serve_metrics_connection, read_http_head in *. rewrite (read_http_head_app _ (RecvClosed :: tl) _ _ _ _ Er).
  cbn [mbind option_bind]. rewrite bool_decide_false by done.
  assert (Ean : connection_answer HeadComplete h (Some text) = http_response 200 EXPOSITION text).
  { unfold connection_answer. rewrite bool_decide_false by done. by rewrite metrics_answer_asks. }
  rewrite Ean. destruct (send_all_accepts _ _ Hs) as (calls & -> & _). cbn [mbind option_bind].
  destruct (drain_ends rest tl 0) as [d ->]. cbn [mbind option_bind]. eexists _, _. split; [done|].
  apply http_response_reads_back; [done|by apply (bool_decide_unpack (CR ∉ _))|done].
Qed.

Definition demo_request : bytes := lit "GET /metrics?x=1 HTTP/1.1" ++ CRLF ++ lit "Host: a" ++ CRLF ++ CRLF.

Lemma demo_request_asks : asks_for_metrics demo_request ∧ has_blank_line demo_request ∧ length demo_request ≤ MAX_HTTP_HEAD.
Proof.
  split; [|split].
  - exists (lit "/metrics?x=1"), (lit "HTTP/1.1"). split; [vm_compute; reflexivity|]. split; [|vm_compute; reflexivity].
    split; [split; [done|split; [apply Nat.leb_le; reflexivity|vm_compute; reflexivity]]|].
    split; [split; vm_compute; reflexivity|by right].
  - left. exists (lit "GET /metrics?x=1 HTTP/1.1" ++ CRLF ++ lit "Host: a"), []. vm_compute. reflexivity.
  - apply Nat.leb_le. vm_compute. reflexivity.
Qed.

(** A request in two segments, the second also holding the start of another. *)
Lemma scrape_is_answered_witness :
  ∃ sent dropped, serve_metrics_connection (Some (lit "up 1"))
      ([RecvData (take 20 demo_request); RecvIntr; RecvData (drop 20 demo_request ++ lit "GET")] ++ RecvClosed :: [])
      (replicate 200 (SendSome 0)) = Some (sent, dropped) ∧
    read_response sent = Some (200%N, EXPOSITION, lit "up 1").
Proof.
  destruct demo_request_asks as (Ha & Hb & Hl).
  apply (scrape_is_answered (lit "up 1") _ [] (replicate 200 (SendSome 0)) demo_request (lit "GET")); try done.
  - by repeat constructor.
  - split; [|apply Nat.leb_le; vm_compute; reflexivity]. by apply Forall_replicate.
Defined.

(** A POST, with a body after it. *)
Lemma one_answer_per_connection_witness :
  let recvs := [RecvData (lit "POST / HTTP/1.0" ++ CRLF ++ CRLF ++ lit "body"); RecvClosed] in
  ∃ sent dropped, serve_metrics_connection None recvs [SendSome 200] = Some (sent, dropped) ∧
  (dropped < DRAIN_CAP)%N ∧
  ∃ head more, head ++ more = stream_bytes recvs ∧ length head ≤ MAX_HTTP_HEAD ∧
    (sent = [] ∨ ∃ status ct body, sent `prefix_of` http_response status ct body ∧
      read_response (http_response status ct body) = Some (status, ct, body) ∧ status ∈ STATUSES ∧
      (status = 200%N → has_blank_line head ∧ asks_for_metrics head ∧ None = Some body)).
Proof.
  intros recvs.
  assert (E : serve_metrics_connection None recvs [SendSome 200] = Some (http_response 405 TEXT (lit "only GET" ++ [NL]), 0%N))
    by (vm_compute; reflexivity).
  eexists _, _. split; [exact E|]. apply (one_answer_per_connection None recvs _ _ _) with (2 := E). done.
Defined.
