(* ===== verification/Accept.v ===== *)
(** * Accept: the loops that accept connections (node.cpp, tracker.cpp, http.cpp)

    The node and the tracker give every connection a thread; the metrics port serves
    one connection after another. What [accept] returns, and whether a thread could
    be created, is in the arguments. No turn ends the loop, no descriptor is lost. *)
From S2P Require Import Prelude Text Net Log Http.

(** What [accept] gives: a descriptor, an interruption, an error. *)
Inductive AcceptCall := AcceptFd (fd : Z) | AcceptIntr | AcceptFail (e : Errno).

(** [at_thread]: what creating the thread throws, if it does. *)
Record AcceptTurn := mkAcceptTurn { at_call : AcceptCall; at_thread : option bytes }.

Record Listener := mkListener {
  ls_serving : list Z; ls_closed : list Z; ls_slept_ms : nat; ls_log : list (Level * bytes * list LogField) }.
#[export] Instance Listener_eta : Eta Listener := λ l, mkListener (ls_serving l) (ls_closed l) (ls_slept_ms l) (ls_log l).
Definition new_listener : Listener := mkListener [] [] 0 [].

Section loop.
Context (event : bytes) (strerror : Errno → bytes).

Definition accept_note (msg : bytes) (l : Listener) : Listener :=
  l <| ls_log := ls_log l ++ [(Error, event, [(lit "msg", msg)])] |>.

Definition accept_turn (l : Listener) (t : AcceptTurn) : Listener :=
  match at_call t with
  | AcceptIntr => l
  | AcceptFail e => (accept_note (strerror e) l) <| ls_slept_ms := ls_slept_ms l + 10 |>
  | AcceptFd fd =>
      match at_thread t with
      | None => l <| ls_serving := ls_serving l ++ [fd] |>
      | Some what => (accept_note (lit "cannot start a thread: " ++ what) l) <| ls_closed := ls_closed l ++ [fd] |>
      end
  end.

(** [while (true)], for the turns given. *)
Definition accept_loop (turns : list AcceptTurn) (l : Listener) : Listener := foldl accept_turn l turns.
End loop.

(** ** The metrics port *)

(** One turn of its thread: no thread per connection, nothing logged. *)
Record MetricsTurn := mkMetricsTurn { mt_call : AcceptCall; mt_render : option bytes; mt_recvs : list RecvEvent; mt_sends : list SendEvent }.

(** The answers sent and the time slept. [None]: a call that has not returned. *)
Definition metrics_turn (s : list (Z * bytes) * nat) (t : MetricsTurn) : option (list (Z * bytes) * nat) :=
  match mt_call t with
  | AcceptIntr => Some s
  | AcceptFail _ => Some (s.1, s.2 + 10)
  | AcceptFd fd =>
      '(sent, _) ← serve_metrics_connection (mt_render t) (mt_recvs t) (mt_sends t);
      Some (s.1 ++ [(fd, sent)], s.2)
  end.
Fixpoint metrics_loop (turns : list MetricsTurn) (s : list (Z * bytes) * nat) : option (list (Z * bytes) * nat) :=
  match turns with
  | [] => Some s
  | t :: turns => s ← metrics_turn s t; metrics_loop turns s
  end.

(** ** Nothing is lost *)

Definition accepted_fd (c : AcceptCall) : option Z := match c with AcceptFd fd => Some fd | _ => None end.
Definition accept_error (c : AcceptCall) : option Errno := match c with AcceptFail e => Some e | _ => None end.
Definition accepted_fds (turns : list AcceptTurn) : list Z := omap (λ t, accepted_fd (at_call t)) turns.
Definition accept_errors (turns : list AcceptTurn) : list Errno := omap (λ t, accept_error (at_call t)) turns.

(** Whatever [accept] and the creation of threads do: every descriptor accepted is
    served by a thread or closed, once; the loop sleeps once for every error, so that it
    cannot spin; and it writes one line for every error and every thread refused. *)
Theorem no_connection_lost event strerror turns l :
  let l' := accept_loop event strerror turns l in
  ls_serving l' ++ ls_closed l' ≡ₚ (ls_serving l ++ ls_closed l) ++ accepted_fds turns ∧
  ls_slept_ms l' = ls_slept_ms l + 10 * length (accept_errors turns) ∧
  length (ls_log l') + length (ls_closed l) = length (ls_log l) + length (ls_closed l') + length (accept_errors turns).
Proof.
  unfold accept_loop. revert l. induction turns as [|t turns IH]; intros l; cbn [foldl]; [unfold accepted_fds, accept_errors; cbn; rewrite app_nil_r; split; [done|lia]|].
  destruct (IH (accept_turn event strerror l t)) as (H1 & H2 & H3). cbv zeta in *. rewrite H1, H2. clear H1 H2. unfold accept_turn in *.
  unfold accepted_fds, accept_errors in *. cbn [omap list_omap]. destruct (at_call t) as [fd| |e]; cbn [accepted_fd accept_error].
  - destruct (at_thread t); unfold accept_note in *; revert H3; upd; rewrite ?length_app; cbn [length]; intros H3; (split; [|split; lia]).
    + rewrite (app_assoc (ls_serving l)), <- app_assoc. done.
    + rewrite <- !app_assoc. f_equiv. rewrite (Permutation_app_comm [fd]), <- app_assoc. f_equiv. by rewrite Permutation_app_comm.
  - split; [done|]. split; lia.
  - unfold accept_note in *. revert H3. upd. rewrite ?length_app. cbn [length]. intros H3. split; [done|]. split; lia.
Qed.

(** The metrics thread answers connections in the order they came, each as if it were
    the only one: a slow or malformed one cannot change another's answer. *)
Theorem metrics_answers_each turns s s' : metrics_loop turns s = Some s' →
  ∃ answers, s'.1 = s.1 ++ answers ∧
    Forall2 (λ t a, mt_call t = AcceptFd a.1 ∧ fst <$> serve_metrics_connection (mt_render t) (mt_recvs t) (mt_sends t) = Some a.2)
      (filter (λ t, is_Some (accepted_fd (mt_call t))) turns) answers.
Proof.
  revert s. induction turns as [|t turns IH]; intros s; cbn [metrics_loop]; [intros [= <-]; exists []; by rewrite app_nil_r|].
  destruct (metrics_turn s t) as [s1|] eqn:E; cbn [mbind option_bind]; [|done]. intros (answers & E' & H)%IH. rewrite filter_cons.
  unfold metrics_turn in E. destruct (mt_call t) as [fd| |e] eqn:Ec; cbn [accepted_fd].
  - destruct (serve_metrics_connection _ _ _) as [[sent n]|] eqn:Es; cbn [mbind option_bind] in E; [|done]. injection E as <-.
    exists ((fd, sent) :: answers). cbn [fst] in E'. rewrite E', <- app_assoc. split; [done|]. rewrite decide_True by eauto.
    constructor; [|done]. rewrite Ec, Es. done.
  - injection E as <-. exists answers. split; [done|]. rewrite decide_False; [done|]. by intros [? ?].
  - injection E as <-. exists answers. split; [done|]. rewrite decide_False; [done|]. by intros [? ?].
Qed.
