(* ===== verification/Metrics.v ===== *)
(** * Metrics: instruments, the registry and its text (metrics.h, metrics.cpp)

    Doubles are the binary64 numbers of the Standard Library's [SpecFloat] and
    every operation on them rounds as IEEE 754 says; [%.0f] and [%.15g] are computed
    exactly from the binary value, as the C library prints them. Counters and
    histograms the registry owns are cells it keeps, and a series refers to its cell
    by position; what lives elsewhere is read from the process at each render. *)
From Stdlib Require Import SpecFloat.
From S2P Require Import Prelude Text Log.

(** ** Doubles *)

Abbreviation double := spec_float.
Definition d_of_Z (z : Z) : double := binary_normalize 53 1024 z 0 false.
Definition d_mul : double → double → double := SFmul 53 1024.
Definition d_div : double → double → double := SFdiv 53 1024.
Definition d_lt (a b : double) : bool := SFltb a b.
Definition d_ge (a b : double) : bool := SFleb b a.

(** The literal [n/d]: the nearest double, when both are below 2^53. *)
Definition d_ratio (n d : Z) : double := d_div (d_of_Z n) (d_of_Z d).

(** The fraction a mantissa and an exponent stand for. *)
Definition fraction (m : positive) (e : Z) : Z * Z :=
  if (0 <=? e)%Z then (Z.pos m * 2 ^ e, 1)%Z else (Z.pos m, 2 ^ (- e))%Z.

(** [std::llround] of a number in range: to the nearest, halves away from zero. *)
Definition llround (x : double) : Z :=
  match x with
  | S754_finite s m e =>
      let '(num, den) := fraction m e in
      let r := ((2 * num + den) / (2 * den))%Z in if s then (- r)%Z else r
  | _ => 0%Z
  end.

(** ** Histograms *)

Record Histogram := mkHistogram { hg_bounds : list double; hg_counts : list N; hg_sum_millionths : N }.
#[export] Instance eta_Histogram : Eta Histogram := λ h, mkHistogram (hg_bounds h) (hg_counts h) (hg_sum_millionths h).

Definition new_histogram (bounds : list double) : Histogram :=
  mkHistogram bounds (replicate (length bounds + 1) 0%N) 0.

(** The first bound at or above [x]. *)
Fixpoint bucket (x : double) (bounds : list double) : nat :=
  match bounds with
  | [] => 0
  | b :: bounds => if d_lt b x then S (bucket x bounds) else 0
  end.

(** Negative numbers and NaN count as 0. *)
Definition clamp (x : double) : double := if negb (d_ge x (S754_zero false)) then S754_zero false else x.
Definition CAP : double := d_of_Z 1000000000000.
Definition MILLION : double := d_of_Z 1000000.
Definition millionths (x : double) : N :=
  Z.to_N (llround (d_mul (if d_lt x CAP then x else CAP) MILLION)).

Definition observe (x : double) (h : Histogram) : Histogram :=
  let x := clamp x in
  h <| hg_counts := alter (λ n, wrap64N (n + 1)) (bucket x (hg_bounds h)) (hg_counts h) |>
    <| hg_sum_millionths := wrap64N (hg_sum_millionths h + millionths x) |>.

(** A histogram made with these bounds and what it has observed, in order. *)
Definition observations (bounds xs : list double) : Histogram := foldl (λ h x, observe x h) (new_histogram bounds) xs.

Record Reading := mkReading { rd_counts : list N; rd_sum : double }.
Definition read_histogram (h : Histogram) : Reading :=
  mkReading (hg_counts h) (d_div (d_of_Z (Z.of_N (hg_sum_millionths h))) MILLION).

Definition latency_buckets : list double :=
  [d_ratio 5 10000; d_ratio 1 1000; d_ratio 2 1000; d_ratio 5 1000; d_ratio 1 100; d_ratio 2 100; d_ratio 5 100;
   d_ratio 1 10; d_ratio 2 10; d_ratio 5 10; d_of_Z 1; d_of_Z 2; d_of_Z 5; d_of_Z 10].
Definition hop_buckets : list double := d_of_Z <$> [0; 1; 2; 3; 4; 5; 6; 7; 8; 9; 10; 12; 16; 24; 32; 64]%Z.

(** ** Text *)

Definition label_char (c : Ascii.ascii) : bytes :=
  if bool_decide (c = BACKSLASH) then [BACKSLASH; BACKSLASH]
  else if bool_decide (c = QUOTE) then [BACKSLASH; QUOTE]
  else if bool_decide (c = NL) then BACKSLASH :: lit "n" else [c].
Definition escape_label (v : bytes) : bytes := concat (label_char <$> v).

Definition escape_help (v : bytes) : bytes :=
  concat ((λ c, if bool_decide (c = BACKSLASH) then [BACKSLASH; BACKSLASH]
                else if bool_decide (c = NL) then BACKSLASH :: lit "n" else [c]) <$> v).

Definition series_name (name label_text extra : bytes) : bytes :=
  let inside := if negb (bool_decide (extra = []))
                then label_text ++ (if bool_decide (label_text = []) then [] else lit ",") ++ extra else label_text in
  if bool_decide (inside = []) then name else name ++ lit "{" ++ inside ++ lit "}".

Definition label_pair (p : bytes * bytes) : bytes := p.1 ++ [EQUALS; QUOTE] ++ escape_label p.2 ++ [QUOTE].
Definition labels (pairs : list (bytes * bytes)) : bytes :=
  foldl (λ out p, out ++ (if bool_decide (out = []) then [] else lit ",") ++ label_pair p) [] pairs.

Definition is_letter (c : Ascii.ascii) : bool := ((97 <=? code c)%N && (code c <=? 122)%N) || ((65 <=? code c)%N && (code c <=? 90)%N).
Definition name_start (c : Ascii.ascii) : bool := is_letter c || bool_decide (c = chr 95) || bool_decide (c = COLON).
Definition valid_metric_name (name : bytes) : bool :=
  match name with
  | [] => false
  | c :: name => name_start c && forallb (λ c, name_start c || is_digit c) name
  end.

(** ** Numbers *)

(** Powers of ten the number is below: its decimal digits. *)
Fixpoint digits_of (fuel : nat) (n : Z) : Z :=
  match fuel with 0 => 0%Z | S f => if (n <? 10)%Z then 1%Z else (1 + digits_of f (n / 10))%Z end.

(** How many times a number below [den] is multiplied by ten to reach it. *)
Fixpoint tens_to (fuel : nat) (num den : Z) : Z :=
  match fuel with 0 => 0%Z | S f => if (den <=? num)%Z then 0%Z else (1 + tens_to f (num * 10) den)%Z end.

Definition decimal_exponent (num den : Z) : Z :=
  if (den <=? num)%Z then (digits_of 310 (num / den) - 1)%Z else (- tens_to 330 num den)%Z.

(** To the nearest, halves to even. *)
Definition round_even (num den : Z) : Z :=
  let q := (num / den)%Z in
  let r := (2 * (num mod den))%Z in
  if (r <? den)%Z then q else if (den <? r)%Z then (q + 1)%Z else if Z.even q then q else (q + 1)%Z.

(** Fifteen significant digits, and the power of ten of the first. *)
Definition significant (num den : Z) : Z * Z :=
  let x := decimal_exponent num den in
  let d := if (x <=? 14)%Z then round_even (num * 10 ^ (14 - x)) den else round_even num (den * 10 ^ (x - 14)) in
  if (d =? 10 ^ 15)%Z then ((10 ^ 14)%Z, (x + 1)%Z) else (d, x).

Definition ZERO : Ascii.ascii := chr 48.
Fixpoint drop_zeros (s : bytes) : bytes :=
  match s with [] => [] | c :: s' => if bool_decide (c = ZERO) then drop_zeros s' else s end.

(** What is after the point, its trailing zeros and a bare point dropped. *)
Definition point (digits : bytes) : bytes :=
  let kept := reverse (drop_zeros (reverse digits)) in if bool_decide (kept = []) then [] else DOT :: kept.

(** [%.15g] of a positive number. *)
Definition format_g15 (m : positive) (e : Z) : bytes :=
  let '(num, den) := fraction m e in
  let '(d, x) := significant num den in
  let digits := dec (Z.to_N d) in
  if (-4 <=? x)%Z && (x <? 15)%Z then
    if (x <? 0)%Z then lit "0" ++ point (replicate (Z.to_nat (- x - 1)) ZERO ++ digits)
    else take (Z.to_nat (x + 1)) digits ++ point (drop (Z.to_nat (x + 1)) digits)
  else take 1 digits ++ point (drop 1 digits) ++ lit "e" ++ (if (x <? 0)%Z then lit "-" else lit "+") ++
    (if (Z.abs x <? 10)%Z then lit "0" else []) ++ dec (Z.to_N (Z.abs x)).

Definition format_value (v : double) : bytes :=
  match v with
  | S754_nan => lit "NaN"
  | S754_infinity s => if s then lit "-Inf" else lit "+Inf"
  | S754_zero s => (if s then lit "-" else []) ++ lit "0"
  | S754_finite s m e =>
      let '(num, den) := fraction m e in
      (if s then lit "-" else []) ++
      (if ((num mod den =? 0)%Z && (num / den <? 9007199254740992)%Z) then dec (Z.to_N (num / den)) else format_g15 m e)
  end.

Example format_half_ms : format_value (d_ratio 5 10000) = lit "0.0005".
Proof. vm_compute. reflexivity. Qed.
Example format_tenths : format_value <$> [d_ratio 1 10; d_ratio 25 10; d_ratio 1 3; d_of_Z 1234; d_ratio (-7) 4] =
  [lit "0.1"; lit "2.5"; lit "0.333333333333333"; lit "1234"; lit "-1.75"].
Proof. vm_compute. reflexivity. Qed.
Example format_large : format_value <$> [d_of_Z (10 ^ 21); d_of_Z (2 ^ 53); d_ratio 1 100000; d_of_Z (10 ^ 300)] =
  [lit "1e+21"; lit "9.00719925474099e+15"; lit "1e-05"; lit "1e+300"].
Proof. vm_compute. reflexivity. Qed.

(** ** The registry *)

Inductive SeriesType := TCounter | TGauge | THistogram.
#[export] Instance SeriesType_eq_dec : EqDecision SeriesType.
Proof. solve_decision. Defined.

Definition type_name (t : SeriesType) : bytes :=
  match t with TCounter => lit "counter" | TGauge => lit "gauge" | THistogram => lit "histogram" end.

Section registry.
(** The rest of the process: what gauges read and where exposed instruments live. *)
Context {W : Type}.

(** Where a series' value is: a cell of the registry, an instrument elsewhere, or a
    function called at the render. *)
Inductive Source :=
  | OwnCounter (i : nat) | OwnHistogram (i : nat)
  | ExposedCounter (c : W → N) | ExposedHistogram (h : W → Histogram)
  | ReadValue (f : W → double).

Record Series := mkSeries { sr_name : bytes; sr_help : bytes; sr_label_text : bytes; sr_type : SeriesType; sr_source : Source }.
Record Registry := mkRegistry { rg_series : list Series; rg_counters : list N; rg_histograms : list Histogram }.
#[export] Instance eta_Registry : Eta Registry := λ r, mkRegistry (rg_series r) (rg_counters r) (rg_histograms r).

Definition empty_registry : Registry := mkRegistry [] [] [].

(** A call on the registry: its new state, and a result or the text of the
    exception it throws. *)
Definition Reg (A : Type) : Type := Registry → Registry * (bytes + A).
Definition reg_ret {A} (a : A) : Reg A := λ r, (r, inr a).
Definition reg_bind {A B} (m : Reg A) (k : A → Reg B) : Reg B :=
  λ r, let '(r, a) := m r in match a with inl e => (r, inl e) | inr a => k a r end.
Definition reg_throw {A} (e : bytes) : Reg A := λ r, (r, inl e).
Fixpoint reg_each {A B} (f : A → Reg B) (l : list A) : Reg (list B) :=
  match l with
  | [] => reg_ret []
  | a :: l => reg_bind (f a) (λ b, reg_bind (reg_each f l) (λ bs, reg_ret (b :: bs)))
  end.

(** The loop over the series already there. *)
Fixpoint clash (s : Series) (others : list Series) : option bytes :=
  match others with
  | [] => None
  | other :: others =>
      if negb (bool_decide (sr_name other = sr_name s)) then clash s others
      else if negb (bool_decide (sr_type other = sr_type s)) then Some (lit "metric " ++ sr_name s ++ lit " registered as two types")
      else if bool_decide (sr_label_text other = sr_label_text s) then Some (lit "metric " ++ sr_name s ++ lit " registered twice")
      else clash s others
  end.

Definition add (s : Series) : Reg unit := λ r,
  if negb (valid_metric_name (sr_name s)) then (r, inl (lit "invalid metric name: " ++ sr_name s))
  else match clash s (rg_series r) with
  | Some e => (r, inl e)
  | None => (r <| rg_series := rg_series r ++ [s] |>, inr tt)
  end.

Definition counter (name help label_text : bytes) : Reg nat := λ r,
  let i := length (rg_counters r) in
  reg_bind (add (mkSeries name help label_text TCounter (OwnCounter i))) (λ _, reg_ret i)
    (r <| rg_counters := rg_counters r ++ [0%N] |>).

Fixpoint increasing (bounds : list double) : bool :=
  match bounds with
  | a :: (b :: _) as bounds' => d_lt a b && increasing bounds'
  | _ => true
  end.

Definition histogram (name help : bytes) (bounds : list double) (label_text : bytes) : Reg nat := λ r,
  if bool_decide (bounds = []) then reg_throw (lit "histogram " ++ name ++ lit " has no buckets") r
  else if negb (increasing bounds) then reg_throw (lit "histogram " ++ name ++ lit ": bounds not increasing") r
  else
    let i := length (rg_histograms r) in
    reg_bind (add (mkSeries name help label_text THistogram (OwnHistogram i))) (λ _, reg_ret i)
      (r <| rg_histograms := rg_histograms r ++ [new_histogram bounds] |>).

Definition gauge (name help : bytes) (read : W → double) (label_text : bytes) : Reg unit :=
  add (mkSeries name help label_text TGauge (ReadValue read)).
Definition counter_fn (name help : bytes) (read : W → double) (label_text : bytes) : Reg unit :=
  add (mkSeries name help label_text TCounter (ReadValue read)).
Definition expose_counter (name help : bytes) (c : W → N) (label_text : bytes) : Reg unit :=
  add (mkSeries name help label_text TCounter (ExposedCounter c)).
Definition expose_histogram (name help : bytes) (h : W → Histogram) (label_text : bytes) : Reg unit :=
  add (mkSeries name help label_text THistogram (ExposedHistogram h)).

(** ** Instruments in use *)

Definition counter_add (i : nat) (n : N) (r : Registry) : Registry :=
  r <| rg_counters := alter (λ v, wrap64N (v + n)) i (rg_counters r) |>.
Definition observe_own (i : nat) (x : double) (r : Registry) : Registry :=
  r <| rg_histograms := alter (observe x) i (rg_histograms r) |>.

(** ** The exposition *)

(** The lines of one histogram from one reading of its buckets. *)
Fixpoint bucket_lines (name label_text : bytes) (bounds : list double) (counts : list N) (running : N) : bytes * N :=
  match bounds, counts with
  | b :: bounds, c :: counts =>
      let running := wrap64N (running + c) in
      let '(out, total) := bucket_lines name label_text bounds counts running in
      (series_name (name ++ lit "_bucket") label_text (lit "le=" ++ [QUOTE] ++ format_value b ++ [QUOTE]) ++ lit " " ++ dec running ++ [NL] ++ out, total)
  | _, _ => ([], running)
  end.

Definition histogram_lines (name label_text : bytes) (bounds : list double) (r : Reading) : bytes :=
  let '(out, running) := bucket_lines name label_text bounds (rd_counts r) 0 in
  let running := wrap64N (running + default 0%N (last (rd_counts r))) in
  out ++
  series_name (name ++ lit "_bucket") label_text (lit "le=" ++ [QUOTE] ++ lit "+Inf" ++ [QUOTE]) ++ lit " " ++ dec running ++ [NL] ++
  series_name (name ++ lit "_sum") label_text [] ++ lit " " ++ format_value (rd_sum r) ++ [NL] ++
  series_name (name ++ lit "_count") label_text [] ++ lit " " ++ dec running ++ [NL].

Definition value_line (name label_text value : bytes) : bytes := series_name name label_text [] ++ lit " " ++ value ++ [NL].

(** [None]: a null pointer or an empty function would be used. *)
Definition series_lines (r : Registry) (w : W) (s : Series) : option bytes :=
  if negb (bool_decide (sr_type s = THistogram)) then
    v ← match sr_source s with
        | OwnCounter i => dec <$> rg_counters r !! i
        | ExposedCounter c => Some (dec (c w))
        | ReadValue f => Some (format_value (f w))
        | _ => None
        end;
    Some (value_line (sr_name s) (sr_label_text s) v)
  else
    h ← match sr_source s with
        | OwnHistogram i => rg_histograms r !! i
        | ExposedHistogram h => Some (h w)
        | _ => None
        end;
    Some (histogram_lines (sr_name s) (sr_label_text s) (hg_bounds h) (read_histogram h)).

Definition family_head (first : Series) : bytes :=
  lit "# HELP " ++ sr_name first ++ lit " " ++ escape_help (sr_help first) ++ [NL] ++
  lit "# TYPE " ++ sr_name first ++ lit " " ++ type_name (sr_type first) ++ [NL].
Definition family_lines (r : Registry) (w : W) (first : Series) : option bytes :=
  ls ← mapM (series_lines r w) (filter (λ s, sr_name s = sr_name first) (rg_series r));
  Some (family_head first ++ concat ls).

(** The text so far and the families already written. *)
Definition render_step (r : Registry) (w : W) (acc : option (bytes * list bytes)) (first : Series) : option (bytes * list bytes) :=
  '(out, done) ← acc;
  if existsb (λ n, bool_decide (n = sr_name first)) done then Some (out, done)
  else family ← family_lines r w first; Some (out ++ family, done ++ [sr_name first]).
Definition render (r : Registry) (w : W) : option bytes :=
  fst <$> foldl (render_step r w) (Some ([], [])) (rg_series r).
End registry.
#[global] Arguments Series : clear implicits.
#[global] Arguments Registry : clear implicits.
#[global] Arguments Source : clear implicits.
#[global] Arguments Reg : clear implicits.

Declare Scope reg_scope.
Delimit Scope reg_scope with reg.
Notation "x ← m ; k" := (reg_bind m (λ x, k)) (at level 20, m at level 100, k at level 200, right associativity) : reg_scope.
Notation "m ;; k" := (reg_bind m (λ _, k)) (at level 100, k at level 200, right associativity) : reg_scope.
