(* ===== verification/MetricsSpec.v ===== *)
(** * MetricsSpec: the registry is well typed, and its text says what was observed

    Every program of registrations and observations leaves a registry in which each
    series has a value of its type and no two clash, so a render never meets a null
    pointer; the text holds every series once, under its family; a histogram's
    cumulative buckets count the observations at or below each bound, and its last
    bucket and its count are the number of observations; labels read back. *)
From Stdlib Require Import SpecFloat.
From S2P Require Import Prelude Text Log OrdMap Metrics.

(** ** The registry's invariant *)

Definition histogram_ok (h : Histogram) : Prop :=
  hg_bounds h ≠ [] ∧ increasing (hg_bounds h) = true ∧ length (hg_counts h) = length (hg_bounds h) + 1.

Section typing.
Context {W : Type}.
Implicit Types (r : Registry W) (s t : Series W).

(** The value a series points at exists and is of the series' type. *)
Definition source_typed (counters histograms : nat) s : Prop :=
  match sr_type s, sr_source s with
  | TCounter, OwnCounter i => i < counters
  | TCounter, ExposedCounter _ | TCounter, ReadValue _ | TGauge, ReadValue _ => True
  | THistogram, OwnHistogram i => i < histograms
  | THistogram, ExposedHistogram h => ∀ w, histogram_ok (h w)
  | _, _ => False
  end.

(** Two series of one name are of one type and differ in their labels. *)
Definition compatible s t : Prop := sr_name s = sr_name t → sr_type s = sr_type t ∧ sr_label_text s ≠ sr_label_text t.

Definition registry_ok r : Prop :=
  Forall (λ s, valid_metric_name (sr_name s) = true ∧ source_typed (length (rg_counters r)) (length (rg_histograms r)) s) (rg_series r) ∧
  (∀ i j s t, i < j → rg_series r !! i = Some s → rg_series r !! j = Some t → compatible s t) ∧
  Forall histogram_ok (rg_histograms r).

Lemma clash_None s others : clash s others = None ↔ Forall (λ other, compatible other s) others.
Proof.
  induction others as [|o others IH]; cbn [clash]; [done|]. rewrite Forall_cons, <- IH. unfold compatible.
  case_bool_decide as En; cbn [negb]; [|by split; [intros H; split|intros [_ H]]].
  case_bool_decide as Et; cbn [negb]; [|split; [done|intros [H _]; by destruct (H En)]].
  case_bool_decide as El; [split; [done|intros [H _]; by destruct (H En)]|]. by split; [intros H; split|intros [_ H]].
Qed.

Lemma source_typed_mono c h c' h' s : c ≤ c' → h ≤ h' → source_typed c h s → source_typed c' h' s.
Proof. intros Hc Hh. unfold source_typed. destruct (sr_type s), (sr_source s); try done; lia. Qed.

(** More cells: everything there still points at a cell. *)
Lemma registry_ok_cells r cs hs : length (rg_counters r) ≤ length cs → length (rg_histograms r) ≤ length hs →
  Forall histogram_ok hs → registry_ok r → registry_ok (mkRegistry (rg_series r) cs hs).
Proof.
  intros Hc Hh Hok (Hs & Hp & _). split; [|done]. eapply Forall_impl; [exact Hs|]. intros s [Hv Ht]. split; [done|].
  by eapply source_typed_mono.
Qed.

Lemma add_ok s r : registry_ok r → source_typed (length (rg_counters r)) (length (rg_histograms r)) s →
  registry_ok (fst (add s r)).
Proof.
  intros Hr Ht. unfold add. destruct (valid_metric_name (sr_name s)) eqn:Ev; cbn [negb]; [|done].
  destruct (clash s (rg_series r)) eqn:Ec; [done|]. apply clash_None in Ec. destruct Hr as (Hs & Hp & Hh). cbn [fst].
  split; [|split]; upd; [by apply Forall_app; split; [|constructor]| |done].
  intros i j a b Hij Ha Hb. apply lookup_app_Some in Hb as [Hb|[Hl Hb]].
  - rewrite lookup_app_l in Ha by (apply lookup_lt_Some in Hb; lia). by eapply Hp.
  - apply list_lookup_singleton_Some in Hb as [Hb <-]. rewrite lookup_app_l in Ha by lia.
    by eapply Forall_lookup_1 in Ec.
Qed.

Lemma new_histogram_ok bounds : bounds ≠ [] → increasing bounds = true → histogram_ok (new_histogram bounds).
Proof. intros Hn Hi. split; [done|]. split; [done|]. unfold new_histogram. cbn. by rewrite length_replicate. Qed.
Lemma observe_ok x h : histogram_ok h → histogram_ok (observe x h).
Proof. intros (Hb & Hi & Hl). unfold observe. split; [done|]. split; [done|]. upd. by rewrite length_alter. Qed.

(** ** Programs over a registry *)

Inductive RegistryOp :=
  | OpCounter (name help label_text : bytes) | OpHistogram (name help : bytes) (bounds : list double) (label_text : bytes)
  | OpGauge (name help : bytes) (f : W → double) (label_text : bytes) | OpCounterFn (name help : bytes) (f : W → double) (label_text : bytes)
  | OpExposeCounter (name help : bytes) (c : W → N) (label_text : bytes)
  | OpExposeHistogram (name help : bytes) (h : W → Histogram) (label_text : bytes)
  | OpAdd (i : nat) (n : N) | OpObserve (i : nat) (x : double).

(** The registry after a call, thrown or not. *)
Definition apply_op r (op : RegistryOp) : Registry W :=
  match op with
  | OpCounter n h l => fst (counter n h l r)
  | OpHistogram n h b l => fst (histogram n h b l r)
  | OpGauge n h f l => fst (gauge n h f l r)
  | OpCounterFn n h f l => fst (counter_fn n h f l r)
  | OpExposeCounter n h c l => fst (expose_counter n h c l r)
  | OpExposeHistogram n h f l => fst (expose_histogram n h f l r)
  | OpAdd i n => counter_add i n r
  | OpObserve i x => observe_own i x r
  end.

(** An exposed histogram is one its module made. *)
Definition op_ok (op : RegistryOp) : Prop :=
  match op with OpExposeHistogram _ _ h _ => ∀ w, histogram_ok (h w) | _ => True end.

Lemma reg_bind_ret_fst {A B} (m : Reg W A) (b : B) r : fst (reg_bind m (λ _, reg_ret b) r) = fst (m r).
Proof. unfold reg_bind. by destruct (m r) as [r' [e|a]]. Qed.

Lemma counter_ok n h l r : registry_ok r → registry_ok (fst (counter n h l r)).
Proof.
  intros Hr. unfold counter. rewrite reg_bind_ret_fst. apply add_ok.
  - apply registry_ok_cells; [rewrite length_app; lia|done|by apply Hr|done].
  - unfold source_typed. cbn [sr_type sr_source]. upd. rewrite length_app. simpl. lia.
Qed.
Lemma histogram_reg_ok n h b l r : registry_ok r → registry_ok (fst (histogram n h b l r)).
Proof.
  intros Hr. unfold histogram. case_bool_decide as Hb; [done|]. destruct (increasing b) eqn:Ei; cbn [negb]; [|done].
  rewrite reg_bind_ret_fst. apply add_ok.
  - apply registry_ok_cells; [done|rewrite length_app; lia| |done]. apply Forall_app. split; [by apply Hr|].
    constructor; [by apply new_histogram_ok|done].
  - unfold source_typed. cbn [sr_type sr_source]. upd. rewrite length_app. simpl. lia.
Qed.

Lemma apply_op_ok r op : op_ok op → registry_ok r → registry_ok (apply_op r op).
Proof.
  intros Ho Hr. destruct op; cbn [apply_op]; try (by apply add_ok).
  - by apply counter_ok.
  - by apply histogram_reg_ok.
  - apply registry_ok_cells; [by rewrite length_alter|done|by apply Hr|done].
  - apply registry_ok_cells; [done|by rewrite length_alter| |done]. destruct Hr as (_ & _ & Hh).
    apply Forall_alter; [done|]. intros h _. apply observe_ok.
Qed.

Lemma empty_registry_ok : registry_ok empty_registry.
Proof. split; [constructor|]. split; [done|constructor]. Qed.

Lemma series_lines_Some r w s : source_typed (length (rg_counters r)) (length (rg_histograms r)) s → is_Some (series_lines r w s).
Proof.
  unfold source_typed, series_lines. destruct (sr_type s), (sr_source s); try done; cbn; try by eexists.
  - intros H. apply lookup_lt_is_Some in H as [v ->]. by eexists.
  - intros H. apply lookup_lt_is_Some in H as [v ->]. by eexists.
Qed.

Lemma family_lines_Some r w first : registry_ok r → is_Some (family_lines r w first).
Proof.
  intros (Hs & _). unfold family_lines.
  assert (Hm : is_Some (mapM (series_lines r w) (filter (λ s, sr_name s = sr_name first) (rg_series r)))).
  { apply mapM_is_Some. rewrite Forall_forall in Hs |- *. intros s Hin. apply list_elem_of_filter in Hin as [_ Hin].
    by apply series_lines_Some, Hs. }
  destruct Hm as [ls ->]. by eexists.
Qed.

Lemma render_Some r w : registry_ok r → is_Some (render r w).
Proof.
  intros Hr. unfold render. apply fmap_is_Some.
  apply (foldl_keeps (λ a : option (bytes * list bytes), is_Some a)); [|by eexists].
  intros a s _ [[out done] ->]. unfold render_step. cbn [mbind option_bind].
  destruct (existsb _ done); [by eexists|]. destruct (family_lines_Some r w s Hr) as [f ->]. by eexists.
Qed.
End typing.
#[global] Arguments RegistryOp : clear implicits.

(** C38. Whatever a program registers, in whatever order, accepted or refused, and whatever it counts and observes in
    between, the registry stays well typed: names are valid, every series points at a value of its type, no two
    series of one name differ in type or agree in labels, and a render returns the text of every series. *)
Theorem registry_stays_typed {W} (ops : list (RegistryOp W)) :
  Forall op_ok ops →
  let r := foldl apply_op empty_registry ops in registry_ok r ∧ ∀ w, is_Some (render r w).
Proof.
  intros Hops r. assert (Hr : registry_ok r); [|split; [done|]; intros w; by apply render_Some].
  unfold r. apply (foldl_keeps registry_ok); [|apply empty_registry_ok].
  intros a op Hin. rewrite Forall_forall in Hops. by apply apply_op_ok, Hops.
Qed.

Lemma registry_stays_typed_witness :
  let ops := [OpCounter (lit "a_total") (lit "help") []; OpHistogram (lit "h") (lit "help") hop_buckets [];
              OpCounter (lit "a_total") (lit "again") []; OpExposeHistogram (lit "e") [] (λ u : unit, new_histogram hop_buckets) [];
              OpObserve 0 (d_of_Z 3); OpAdd 0 7] in
  let r := foldl apply_op empty_registry ops in registry_ok r ∧ ∀ w, is_Some (render r w).
Proof.
  intros ops. apply (registry_stays_typed ops). unfold ops.
  repeat (constructor; [first [exact I|intros w; apply new_histogram_ok; [done|vm_compute; reflexivity]]|]). constructor.
Defined.

(** ** The text *)

Section text.
Context {W : Type}.
Implicit Types (r : Registry W) (s : Series W).

(** The first series of each name not yet written. *)
Fixpoint firsts (done : list bytes) (l : list (Series W)) : list (Series W) :=
  match l with
  | [] => []
  | s :: l => if existsb (λ n, bool_decide (n = sr_name s)) done then firsts done l else s :: firsts (done ++ [sr_name s]) l
  end.

Lemma render_loop r w l out done text : foldl (render_step r w) (Some (out, done)) l = Some text →
  ∃ blocks, mapM (family_lines r w) (firsts done l) = Some blocks ∧ fst text = out ++ concat blocks.
Proof.
  revert out done. induction l as [|s l IH]; intros out done; cbn [foldl firsts].
  - intros [= <-]. exists []. split; [done|]. by rewrite app_nil_r.
  - unfold render_step at 2. cbn [mbind option_bind]. destruct (existsb _ done); [apply IH|].
    destruct (family_lines r w s) as [f|] eqn:Ef; cbn [mbind option_bind].
    + intros H. apply IH in H as (blocks & Hb & ->). exists (f :: blocks). cbn [mapM]. rewrite Ef. cbn [mbind option_bind].
      rewrite Hb. split; [done|]. cbn. by rewrite app_assoc.
    + intros H. exfalso. clear -H. induction l as [|x l IH]; [done|]. by apply IH.
Qed.

Lemma existsb_elem (n : bytes) done : existsb (λ m, bool_decide (m = n)) done = true ↔ n ∈ done.
Proof.
  rewrite List.existsb_exists. split; [intros (x & Hx & E)|intros Hn; exists n].
  - apply bool_decide_eq_true in E as <-. by apply list_elem_of_In.
  - by rewrite <- list_elem_of_In, bool_decide_true.
Qed.

Lemma firsts_names done l :
  NoDup (sr_name <$> firsts done l) ∧ ∀ n, n ∈ sr_name <$> firsts done l ↔ n ∈ sr_name <$> l ∧ n ∉ done.
Proof.
  revert done. induction l as [|s l IH]; intros done; cbn [firsts fmap list_fmap].
  { split; [constructor|]. intros n. by split; [intros ?%not_elem_of_nil|intros [?%not_elem_of_nil _]]. }
  destruct (existsb _ done) eqn:E.
  - apply existsb_elem in E. destruct (IH done) as [H1 H2]. split; [done|]. intros n. rewrite H2, elem_of_cons. split; [tauto|]. by intros [[->|?] ?].
  - assert (Hn : sr_name s ∉ done) by (intros H; apply existsb_elem in H; congruence).
    destruct (IH (done ++ [sr_name s])) as [H1 H2]. cbn [fmap list_fmap]. split.
    + constructor; [|done]. change (sr_name s ∉ sr_name <$> firsts (done ++ [sr_name s]) l). rewrite H2, elem_of_app, list_elem_of_singleton. tauto.
    + intros n. rewrite !elem_of_cons. change (list_fmap _ _ sr_name (firsts (done ++ [sr_name s]) l)) with (sr_name <$> firsts (done ++ [sr_name s]) l).
      rewrite H2, elem_of_app, list_elem_of_singleton.
      change (list_fmap _ _ sr_name l) with (sr_name <$> l).
      destruct (decide (n = sr_name s)) as [->|]; tauto.
Qed.

(** Splitting a list by a key keeps every element once. *)
Lemma split_by_key (ns : list bytes) (l : list (Series W)) : NoDup ns →
  concat ((λ n, filter (λ s, sr_name s = n) l) <$> ns) ≡ₚ filter (λ s, sr_name s ∈ ns) l.
Proof.
  induction 1 as [|n ns Hn Hns IH]; cbn [fmap list_fmap concat].
  { induction l as [|s l IHl]; [done|]. rewrite filter_cons_False; [done|apply not_elem_of_nil]. }
  change (list_fmap _ _ (λ n, filter (λ s, sr_name s = n) l) ns) with ((λ n, filter (λ s, sr_name s = n) l) <$> ns). rewrite IH. clear IH.
  induction l as [|s l IHl]; [done|]. rewrite !filter_cons. destruct (decide (sr_name s = n)) as [->|En].
  - rewrite (decide_False (P := _ ∈ ns)) by done. rewrite decide_True by by apply elem_of_cons; left. cbn [app]. by rewrite IHl.
  - destruct (decide (sr_name s ∈ ns)) as [Hs|Hs].
    + rewrite decide_True by by apply elem_of_cons; right. by rewrite <- Permutation_middle, IHl.
    + rewrite decide_False by (rewrite elem_of_cons; tauto). done.
Qed.

(** The families of a registry: the series of each name, the names in the order first registered. *)
Definition families r : list (list (Series W)) :=
  (λ n, filter (λ s, sr_name s = n) (rg_series r)) <$> (sr_name <$> firsts [] (rg_series r)).

Lemma families_permutation r : concat (families r) ≡ₚ rg_series r.
Proof.
  unfold families. destruct (firsts_names [] (rg_series r)) as [Hd Hn]. rewrite split_by_key by done.
  assert (H : ∀ s, s ∈ rg_series r → sr_name s ∈ sr_name <$> firsts [] (rg_series r)).
  { intros s Hs. apply Hn. split; [by apply list_elem_of_fmap_2|apply not_elem_of_nil]. }
  by rewrite filter_every by done.
Qed.

Definition family_text r (w : W) (family : list (Series W)) : option bytes :=
  first ← head family; ls ← mapM (series_lines r w) family; Some (family_head first ++ concat ls).

Lemma head_filter_first (f : Series W) done l : f ∈ firsts done l → head (filter (λ s, sr_name s = sr_name f) l) = Some f.
Proof.
  revert done. induction l as [|s l IH]; intros done; cbn [firsts]; [by intros ?%not_elem_of_nil|].
  destruct (existsb _ done) eqn:E.
  - intros Hf. rewrite filter_cons_False; [by eapply IH|]. intros En.
    assert (H : sr_name f ∈ sr_name <$> firsts done l) by by apply list_elem_of_fmap_2.
    apply firsts_names in H as [_ H]. rewrite <- En in H. by apply H, existsb_elem.
  - rewrite elem_of_cons. intros [->|Hf]; [by rewrite filter_cons_True|]. rewrite filter_cons_False; [by eapply IH|]. intros En.
    assert (H : sr_name f ∈ sr_name <$> firsts (done ++ [sr_name s]) l) by by apply list_elem_of_fmap_2.
    apply firsts_names in H as [_ H]. apply H. rewrite <- En. apply elem_of_app. right. by apply list_elem_of_singleton.
Qed.

Lemma mapM_fmap_ext {A B C} (f : A → option C) (g : B → option C) (h : A → B) l :
  (∀ x, x ∈ l → f x = g (h x)) → mapM f l = mapM g (h <$> l).
Proof.
  induction l as [|x l IH]; intros H; [done|]. cbn [mapM fmap list_fmap]. rewrite (H x) by (apply elem_of_cons; by left).
  destruct (g (h x)); [|done]. cbn [mbind option_bind]. change (list_fmap _ _ h l) with (h <$> l).
  rewrite IH; [done|]. intros y Hy. apply H, elem_of_cons. by right.
Qed.

Lemma family_texts r w : mapM (family_lines r w) (firsts [] (rg_series r)) = mapM (family_text r w) (families r).
Proof.
  unfold families. rewrite <- list_fmap_compose. apply mapM_fmap_ext. intros f Hf. cbn [compose].
  unfold family_lines, family_text. by rewrite (head_filter_first f [] _ Hf).
Qed.
End text.

(** The text a scrape gets is, family by family, one HELP and one TYPE line and then the lines of every series of
    that name: the families partition the registered series, so each series is rendered exactly once, no two families
    share a name, and they come in the order first registered. *)
Theorem render_shows_every_series_once {W} (r : Registry W) (w : W) text : render r w = Some text →
  ∃ blocks, mapM (family_text r w) (families r) = Some blocks ∧ text = concat blocks ∧
    concat (families r) ≡ₚ rg_series r ∧
    Forall (λ f, ∃ first, head f = Some first ∧ Forall (λ s, sr_name s = sr_name first) f) (families r) ∧
    NoDup ((λ f, sr_name <$> head f) <$> families r).
Proof.
  intros H. unfold render in H. apply fmap_Some in H as ([out done] & Hl & ->). apply render_loop in Hl as (blocks & Hb & Et).
  rewrite family_texts in Hb. exists blocks. split; [done|]. split; [done|]. split; [apply families_permutation|].
  pose proof (head_filter_first (W := W)) as Hh. split.
  - unfold families. rewrite <- list_fmap_compose. apply Forall_fmap, Forall_forall. intros f Hf. cbn [compose].
    exists f. split; [by eapply Hh|]. apply Forall_forall. by intros s [Hs _]%list_elem_of_filter.
  - unfold families. rewrite <- !list_fmap_compose.
    destruct (firsts_names [] (rg_series r)) as [Hd _]. apply (NoDup_fmap_2 Some) in Hd. rewrite <- list_fmap_compose in Hd.
    erewrite list_fmap_ext; [exact Hd|]. intros i f Hf. cbn [compose]. apply list_elem_of_lookup_2 in Hf. by rewrite (Hh f [] _ Hf).
Qed.

Lemma render_shows_every_series_once_witness :
  let r := foldl apply_op empty_registry
    [OpCounter (lit "a_total") (lit "help") (labels [(lit "k", lit "1")]); OpGauge (lit "g") (lit "level") (λ u : unit, d_of_Z 5) [];
     OpCounter (lit "a_total") (lit "help") (labels [(lit "k", lit "2")]); OpAdd 1 9] in
  ∃ text, render r tt = Some text ∧ ∃ blocks, mapM (family_text r tt) (families r) = Some blocks ∧ text = concat blocks ∧
    concat (families r) ≡ₚ rg_series r ∧
    Forall (λ f, ∃ first, head f = Some first ∧ Forall (λ s, sr_name s = sr_name first) f) (families r) ∧
    NoDup ((λ f, sr_name <$> head f) <$> families r).
Proof.
  intros r. destruct (render r tt) as [text|] eqn:E; [|by vm_compute in E]. exists text. split; [done|].
  by apply (render_shows_every_series_once r tt text).
Defined.

(** ** What a histogram's lines count *)

Lemma d_lt_trans a b c : d_lt a b = true → d_lt b c = true → d_lt a c = true.
Proof.
  unfold d_lt, SFltb. destruct a as [sa|sa| |sa ma ea], b as [sb|sb| |sb mb eb], c as [sc|sc| |sc mc ec]; cbn [SFcompare];
    repeat match goal with s : bool |- _ => destruct s end; try done.
  all: destruct (Z.compare_spec ea eb), (Z.compare_spec eb ec), (Z.compare_spec ea ec); try done; try lia.
  all: repeat match goal with |- context [Pos.compare_cont Eq ?a ?b] => change (Pos.compare_cont Eq a b) with (Pos.compare a b) end.
  all: destruct (Pos.compare_spec ma mb), (Pos.compare_spec mb mc), (Pos.compare_spec ma mc); cbn; try done; lia.
Qed.

Lemma increasing_above a bounds i b : increasing (a :: bounds) = true → bounds !! i = Some b → d_lt a b = true.
Proof.
  revert a i. induction bounds as [|x bounds IH]; intros a i; [done|]. cbn [increasing]. intros [H1 H2]%andb_true_iff.
  destruct i as [|i]; [by intros [= <-]|]. cbn. intros Hb. eapply d_lt_trans; [exact H1|]. by eapply IH.
Qed.

Lemma bucket_at_most x bounds i b : increasing bounds = true → bounds !! i = Some b → d_lt b x = false ↔ bucket x bounds ≤ i.
Proof.
  revert i. induction bounds as [|a bounds IH]; intros i Hi; [done|]. cbn [bucket].
  assert (Hi' : increasing bounds = true) by (destruct bounds; [done|]; by apply andb_true_iff in Hi as [_ ?]).
  destruct i as [|i]; cbn; [intros [= ->]; destruct (d_lt b x); split; done || lia|]. intros Hb.
  destruct (d_lt a x) eqn:E; [rewrite (IH i) by done; lia|]. split; [lia|]. intros _.
  destruct (d_lt b x) eqn:Eb; [|done]. pose proof (increasing_above a bounds i b Hi Hb) as Hab.
  by rewrite (d_lt_trans a b x) in E.
Qed.
Lemma bucket_bound x bounds : bucket x bounds ≤ length bounds.
Proof. induction bounds as [|b bounds IH]; cbn; [done|]. destruct (d_lt b x); lia. Qed.

(** How many observations fell in bucket [k], and below bucket [k]. *)
Definition in_bucket (bounds : list double) (k : nat) (xs : list double) : N :=
  N.of_nat (length (filter (λ x, bucket (clamp x) bounds = k) xs)).
Definition below_bucket (bounds : list double) (k : nat) (xs : list double) : N :=
  N.of_nat (length (filter (λ x, bucket (clamp x) bounds < k) xs)).
(** How many are at or below a bound. *)
Definition at_most (b : double) (xs : list double) : N := N.of_nat (length (filter (λ x, d_lt b (clamp x) = false) xs)).

Lemma below_bucket_S bounds k xs : below_bucket bounds (S k) xs = (below_bucket bounds k xs + in_bucket bounds k xs)%N.
Proof.
  unfold below_bucket, in_bucket. rewrite <- Nat2N.inj_add. f_equal. induction xs as [|x xs IH]; [done|].
  rewrite !filter_cons. repeat case_decide; cbn [length]; lia.
Qed.
Lemma below_bucket_le bounds k xs : (below_bucket bounds k xs <= N.of_nat (length xs))%N.
Proof. unfold below_bucket. pose proof (length_filter (λ x, bucket (clamp x) bounds < k) xs). lia. Qed.
Lemma below_bucket_all bounds xs : below_bucket bounds (S (length bounds)) xs = N.of_nat (length xs).
Proof.
  unfold below_bucket. f_equal. induction xs as [|x xs IH]; [done|]. rewrite filter_cons_True; [by cbn; rewrite IH|].
  pose proof (bucket_bound (clamp x) bounds). lia.
Qed.
Lemma below_bucket_at_most bounds i b xs : increasing bounds = true → bounds !! i = Some b → below_bucket bounds (S i) xs = at_most b xs.
Proof.
  intros Hi Hb. unfold below_bucket, at_most. do 2 f_equal. apply list_filter_iff. intros x.
  rewrite (bucket_at_most (clamp x) bounds i b Hi Hb). lia.
Qed.

Lemma observations_bounds bounds xs : hg_bounds (observations bounds xs) = bounds.
Proof. unfold observations. apply (foldl_keeps (λ h, hg_bounds h = bounds)); [|done]. intros h x _ Hh. exact Hh. Qed.

Lemma in_bucket_snoc bounds k xs x :
  in_bucket bounds k (xs ++ [x]) = (in_bucket bounds k xs + if decide (bucket (clamp x) bounds = k) then 1 else 0)%N.
Proof.
  unfold in_bucket. rewrite filter_app, length_app, filter_cons, Nat2N.inj_add. f_equal. by case_decide.
Qed.
Lemma in_bucket_le bounds k xs : (in_bucket bounds k xs <= N.of_nat (length xs))%N.
Proof. unfold in_bucket. pose proof (length_filter (λ x, bucket (clamp x) bounds = k) xs). lia. Qed.

Lemma observations_counts bounds xs : (N.of_nat (length xs) < W64N)%N →
  hg_counts (observations bounds xs) = (λ k, in_bucket bounds k xs) <$> seq 0 (length bounds + 1).
Proof.
  induction xs as [|x xs IH] using rev_ind; intros Hl.
  - apply list_eq. intros k. unfold observations, new_histogram. cbn [foldl hg_counts]. rewrite list_lookup_fmap.
    destruct (decide (k < length bounds + 1)); [rewrite lookup_replicate_2, lookup_seq_lt by done; done|].
    rewrite !lookup_ge_None_2; [done|rewrite length_seq; lia|rewrite length_replicate; lia].
  - unfold observations in *. rewrite foldl_app. cbn [foldl]. rewrite length_app in Hl. cbn [length] in Hl.
    pose proof (observations_bounds bounds xs) as Eb. unfold observations in Eb.
    set (h := foldl (λ h x, observe x h) (new_histogram bounds) xs) in *. clearbody h.
    unfold observe. upd. rewrite Eb, IH by lia. apply list_eq. intros k. rewrite list_lookup_fmap.
    destruct (decide (k < length bounds + 1)) as [Hk|Hk].
    + rewrite lookup_seq_lt by done. cbn [fmap option_fmap option_map Nat.add]. rewrite in_bucket_snoc.
      rewrite list_lookup_alter. case_decide as Ek; [subst k|]; rewrite list_lookup_fmap, lookup_seq_lt by done; cbn [fmap option_fmap option_map Nat.add]; f_equal; [|lia].
      unfold wrap64N. apply N.mod_small. pose proof (in_bucket_le bounds (bucket (clamp x) bounds) xs). lia.
    + rewrite !lookup_ge_None_2; [done|rewrite length_seq; lia|rewrite length_alter, length_fmap, length_seq; lia].
Qed.

Definition count_line (name label_text le : bytes) (n : N) : bytes :=
  series_name (name ++ lit "_bucket") label_text (lit "le=" ++ [QUOTE] ++ le ++ [QUOTE]) ++ lit " " ++ dec n ++ [NL].

Lemma bucket_lines_count name ls bounds xs j tail more : (N.of_nat (length xs) < W64N)%N →
  (∀ i b, tail !! i = Some b → below_bucket bounds (S (j + i)) xs = at_most b xs) →
  bucket_lines name ls tail (((λ k, in_bucket bounds k xs) <$> seq j (length tail)) ++ more) (below_bucket bounds j xs) =
  (concat ((λ b, count_line name ls (format_value b) (at_most b xs)) <$> tail), below_bucket bounds (j + length tail) xs).
Proof.
  intros Hl. revert j. induction tail as [|b tail IH]; intros j Ht.
  { cbn. rewrite Nat.add_0_r. destruct more; done. }
  cbn [length seq fmap list_fmap app bucket_lines concat].
  change (list_fmap _ _ (λ k, in_bucket bounds k xs) (seq (S j) (length tail))) with ((λ k, in_bucket bounds k xs) <$> seq (S j) (length tail)).
  rewrite <- below_bucket_S. unfold wrap64N at 1 2. rewrite N.mod_small.
  2:{ pose proof (below_bucket_le bounds (S j) xs). lia. }
  rewrite IH. 2:{ intros i b' Hb'. replace (S (S j + i)) with (S (j + S i)) by lia. by apply Ht. }
  replace (j + S (length tail)) with (S j + length tail) by lia. f_equal.
  rewrite <- (Ht 0 b eq_refl), Nat.add_0_r. unfold count_line. by rewrite <- !app_assoc.
Qed.

(** What a histogram renders is what was observed: after any observations on increasing bounds, each bucket's line
    counts exactly the observations at or below its bound (a negative number or NaN counting as 0), and the last
    bucket and the count are both the number of observations. *)
Theorem buckets_count_observations name ls bounds xs :
  increasing bounds = true → (N.of_nat (length xs) < W64N)%N →
  let h := observations bounds xs in
  histogram_lines name ls (hg_bounds h) (read_histogram h) =
    concat ((λ b, count_line name ls (format_value b) (at_most b xs)) <$> bounds) ++
    count_line name ls (lit "+Inf") (N.of_nat (length xs)) ++
    value_line (name ++ lit "_sum") ls (format_value (rd_sum (read_histogram h))) ++
    value_line (name ++ lit "_count") ls (dec (N.of_nat (length xs))).
Proof.
  intros Hi Hl h. unfold histogram_lines, h. rewrite observations_bounds.
  assert (E : rd_counts (read_histogram (observations bounds xs)) =
    ((λ k, in_bucket bounds k xs) <$> seq 0 (length bounds)) ++ [in_bucket bounds (length bounds) xs]).
  { unfold read_histogram. cbn [rd_counts]. rewrite observations_counts by done. by rewrite seq_app, fmap_app. }
  rewrite !E. clear E.
  replace 0%N with (below_bucket bounds 0 xs) at 1.
  2:{ unfold below_bucket. induction xs as [|x xs IH]; [done|]. rewrite filter_cons_False by lia. apply IH. cbn in Hl. lia. }
  rewrite bucket_lines_count; [|done|intros i b; by apply below_bucket_at_most].
  rewrite last_snoc. cbn [default Nat.add]. change (id ?x) with x. rewrite <- below_bucket_S, below_bucket_all.
  unfold wrap64N. rewrite N.mod_small by done. unfold count_line, value_line. by rewrite <- !app_assoc.
Qed.

Lemma buckets_count_observations_witness :
  let xs := [d_of_Z 3; d_of_Z (-1); S754_nan; d_ratio 1 2; S754_infinity false; d_of_Z 64] in
  let h := observations hop_buckets xs in
  histogram_lines (lit "hops") [] (hg_bounds h) (read_histogram h) =
    concat ((λ b, count_line (lit "hops") [] (format_value b) (at_most b xs)) <$> hop_buckets) ++
    count_line (lit "hops") [] (lit "+Inf") (N.of_nat (length xs)) ++
    value_line (lit "hops" ++ lit "_sum") [] (format_value (rd_sum (read_histogram h))) ++
    value_line (lit "hops" ++ lit "_count") [] (dec (N.of_nat (length xs))).
Proof. intros xs. apply (buckets_count_observations (lit "hops") [] hop_buckets xs); [vm_compute; reflexivity|done]. Defined.

(** ** Labels *)

Lemma unquote_label_char c rest : unquote (label_char c ++ rest) = ('(v, r) ← unquote rest; Some (c :: v, r)).
Proof. destruct c as [[] [] [] [] [] [] [] []]; reflexivity. Qed.
Lemma unquote_escape_label v rest : unquote (escape_label v ++ QUOTE :: rest) = Some (v, rest).
Proof.
  unfold escape_label. induction v as [|c v IH]; [done|]. rewrite fmap_cons. cbn [concat].
  by rewrite <- app_assoc, unquote_label_char, IH.
Qed.

(** A reader of label text: names up to the equals sign, values between quotes. *)
Fixpoint read_labels (fuel : nat) (s : bytes) : option (list (bytes * bytes)) :=
  match fuel with
  | 0 => None
  | S fuel =>
      i ← find_char EQUALS s;
      match drop (S i) s with
      | q :: body =>
          if negb (bool_decide (q = QUOTE)) then None else
          '(v, rest) ← unquote body;
          match rest with
          | [] => Some [(take i s, v)]
          | c :: rest => if bool_decide (c = COMMA) then (λ ps, (take i s, v) :: ps) <$> read_labels fuel rest else None
          end
      | [] => None
      end
  end.

Lemma labels_join pairs : labels pairs = join COMMA (label_pair <$> pairs).
Proof.
  unfold labels. destruct pairs as [|p pairs]; [done|]. cbn [foldl]. rewrite bool_decide_true by done. cbn [app].
  assert (H : ∀ out ps, out ≠ [] → foldl (λ out p, out ++ (if bool_decide (out = []) then [] else lit ",") ++ label_pair p) out ps =
    out ++ concat ((λ w, COMMA :: w) <$> (label_pair <$> ps))).
  { intros out ps. revert out. induction ps as [|q ps IH]; intros out Ho; [by rewrite app_nil_r|]. cbn [foldl].
    rewrite bool_decide_false by done. rewrite IH by (intros E; by apply app_nil in E as [? _]). by rewrite <- app_assoc. }
  rewrite H by (unfold label_pair; intros E; apply app_nil in E as [_ E]; done).
  cbn [fmap list_fmap]. generalize (label_pair p). clear. intros w. revert w.
  induction pairs as [|q pairs IH]; intros w; [by rewrite app_nil_r|].
  change (w ++ COMMA :: label_pair q ++ concat ((λ w, COMMA :: w) <$> (label_pair <$> pairs)) = w ++ COMMA :: join COMMA (label_pair q :: (label_pair <$> pairs))).
  do 2 f_equal. apply IH.
Qed.

(** Label text is one line and reads back as the labels, whatever their values hold. *)
Lemma labels_read_back pairs : pairs ≠ [] → Forall (λ p, EQUALS ∉ p.1) pairs → read_labels (length pairs) (labels pairs) = Some pairs.
Proof.
  intros Hn Hp. rewrite labels_join. induction Hp as [|[n v] pairs Hx Hp IH]; [done|]. clear Hn.
  cbn [length read_labels fst] in *.
  assert (Hj : ∃ tail, join COMMA (label_pair <$> (n, v) :: pairs) = n ++ EQUALS :: QUOTE :: escape_label v ++ QUOTE :: tail ∧
    (pairs = [] ∧ tail = [] ∨ pairs ≠ [] ∧ tail = COMMA :: join COMMA (label_pair <$> pairs))).
  { destruct pairs as [|q pairs].
    - exists []. split; [|by left]. cbn [fmap list_fmap join]. unfold label_pair. cbn [fst snd]. done.
    - eexists. split; [|right; split; [done|reflexivity]]. cbn [fmap list_fmap]. cbn [join]. unfold label_pair at 1. cbn [fst snd].
      by rewrite <- !app_assoc. }
  destruct Hj as (tail & -> & Ht). rewrite find_char_app by done. cbn [mbind option_bind].
  rewrite take_app_length. change (S (length n)) with (1 + length n). rewrite Nat.add_comm. change (EQUALS :: ?x) with ([EQUALS] ++ x).
  rewrite app_assoc, <- (length_app n [EQUALS] : _ = length n + 1), drop_app_length. cbv beta iota.
  rewrite bool_decide_true by done. cbn [negb]. rewrite unquote_escape_label. cbn [mbind option_bind].
  destruct Ht as [[-> ->]|[Hn ->]]; [done|]. rewrite bool_decide_true by done. by rewrite IH.
Qed.
