(* ===== verification/NodeMetrics.v ===== *)
(** * NodeMetrics: what a node exposes (node.cpp)

    [register_metrics] of node.cpp as a program over the registry: it registers, in
    order, what the process exposes and keeps the positions of the instruments the
    process will update. The readings gauges take are functions of the process's
    state. [count] of node.cpp on those instruments is [count_in]; on the labels
    alone it is Serve's [count], which NodeServe uses. *)
From Stdlib Require Import SpecFloat.
From S2P Require Import Prelude Text Net OrdMap Serve Chord Lookup Store Stabilize Chunk NodeServe NodeMain Metrics.

Definition d_add : double → double → double := SFadd 53 1024.
Definition d_of_N (n : N) : double := d_of_Z (Z.of_N n).
Definition d_of_nat (n : nat) : double := d_of_Z (Z.of_nat n).

(** A family of instruments found by label, as the program's maps are. *)
Definition Pointers : Type := list (bytes * nat).

(** The next instrument of a family, made and filed under [key]. *)
Definition counters_by {W A} (name help : bytes) (key label_text : A → bytes) (l : list A) : Reg W Pointers :=
  reg_each (λ a, reg_bind (counter name help (label_text a)) (λ i, reg_ret (key a, i))) l.

Definition count_in {W} (ps : Pointers) (which : bytes) (n : N) (r : Registry W) : Registry W :=
  match om_find which ps with Some i => counter_add i n r | None => r end.

(** What every long-running process registers first. *)
Section process.
Context {W : Type}.
Local Open Scope reg_scope.
Definition register_process (started : double) (connections : W → Z) : Reg W nat :=
  gauge (lit "process_start_time_seconds") (lit "When this process started, in seconds since the Unix epoch.") (λ _, started) [];;
  gauge (lit "chordfs_connections_open") (lit "Connections being served now, each on its own thread.") (λ w, d_of_Z (connections w)) [];;
  counter (lit "chordfs_connections_total") (lit "Connections accepted.") [].

Definition ERRORS_HELP : bytes := lit "Requests dropped or refused before they could be answered, by why.".
Definition register_errors (types : list bytes) : Reg W Pointers :=
  counters_by (lit "chordfs_request_errors_total") ERRORS_HELP (λ t, t) (λ t, labels [(lit "type", t)]) types.
End process.

Section node.
(** What a node's gauges read. *)
Record NodeReads := mkNodeReads {
  nr_connections : Z; nr_node : ChunkNode; nr_lags : list double; nr_repair_pending : Z }.
(** [ChunkNode::replication_lag]: the lags of the writes so far, on the latency buckets. *)
Definition replication_lag (w : NodeReads) : Histogram := observations latency_buckets (nr_lags w).

Definition sum_over (field : RingCounters → N) (w : NodeReads) : double :=
  foldl (λ total m, d_add total (d_of_N (field (ns_counters m)))) (S754_zero false) (cn_members (nr_node w)).
Definition successor_list_min (w : NodeReads) : double :=
  d_of_nat (foldl (λ shortest m, min shortest (length (ns_succs m))) MAX_SUCCESSORS (cn_members (nr_node w))).
Definition orphaned_members (w : NodeReads) : double :=
  d_of_nat (foldl (λ n m, n + if ns_orphaned m then 1 else 0) 0 (cn_members (nr_node w))).
Definition store_chunks (w : NodeReads) : double :=
  match cn_store (nr_node w) with Some st => d_of_nat (length (st_keys st)) | None => S754_zero false end.
Definition store_bytes (w : NodeReads) : double :=
  d_of_N (match cn_store (nr_node w) with Some st => st_bytes st | None => 0%N end).

Record NodeInstruments := mkNodeInstruments {
  ni_connections_total : nat; ni_errors : Pointers; ni_lookup_hops : nat; ni_lookup_seconds : nat;
  ni_lookup_failures : Pointers; ni_chunk_requests : Pointers; ni_chunk_seconds : Pointers;
  ni_bytes_in : nat; ni_bytes_out : nat; ni_repair : Pointers }.

Definition LOOKUP_ERRORS : list LookupError :=
  [LRefused; LTimeout; LClosed; LUnreachable; LErrReply; LMalformed; LNoProgress; LTooManyRequests].

Local Open Scope reg_scope.

(** The lookups this process makes itself. *)
Definition register_lookups : Reg NodeReads (nat * nat * Pointers) :=
  hops ← histogram (lit "chordfs_lookup_hops") (lit "Fingers followed per lookup (D-026).") hop_buckets [];
  seconds ← histogram (lit "chordfs_lookup_seconds") (lit "Time per successful lookup.") latency_buckets [];
  failures ← counters_by (lit "chordfs_lookup_failures_total") (lit "Lookups that failed, by why.") lookup_error_name
    (λ e, labels [(lit "error", lookup_error_name e)]) LOOKUP_ERRORS;
  reg_ret (hops, seconds, failures).

Definition EVICTIONS_HELP : bytes := lit "Members evicted, by the evidence (D-013).".
Definition register_eviction (evidence : bytes) (field : RingCounters → N) : Reg NodeReads unit :=
  counter_fn (lit "chordfs_ring_evictions_total") EVICTIONS_HELP (sum_over field) (labels [(lit "evidence", evidence)]).
Definition register_ring : Reg NodeReads unit :=
  gauge (lit "chordfs_ring_members") (lit "Ring members (virtual nodes) in this process.") (λ w, d_of_nat (length (cn_members (nr_node w)))) [];;
  counter_fn (lit "chordfs_ring_rounds_total") (lit "Maintenance rounds run, all members.") (sum_over c_rounds) [];;
  counter_fn (lit "chordfs_ring_strikes_total") (lit "Failed calls counted against a peer (D-035).") (sum_over c_strikes) [];;
  register_eviction (lit "refused") c_evicted_refused;;
  register_eviction (lit "strikes") c_evicted_strikes;;
  register_eviction (lit "orphan") c_evicted_orphan;;
  counter_fn (lit "chordfs_ring_successor_changes_total") (lit "Closer successors adopted (joins).") (sum_over c_new_successor) [];;
  counter_fn (lit "chordfs_ring_rejoins_total") (lit "Orphaned members that rejoined (D-040).") (sum_over c_rejoins) [];;
  gauge (lit "chordfs_ring_successor_list_min") (lit "The shortest successor list among this process's members.") successor_list_min [];;
  gauge (lit "chordfs_ring_orphaned_members") (lit "Members that lost every node they knew (D-040).") orphaned_members [].

(** The requests of one verb, by result, and their times. *)
Definition register_chunk_verb (verb : bytes) : Reg NodeReads (Pointers * (bytes * nat)) :=
  requests ← counters_by (lit "chordfs_chunk_requests_total") (lit "Chunk requests answered, by verb and result.")
    (λ result, verb ++ lit "/" ++ result) (λ result, labels [(lit "verb", verb); (lit "result", result)]) CHUNK_RESULTS;
  seconds ← histogram (lit "chordfs_chunk_request_seconds")
    (lit "From a chunk request read to its reply sent; a PUT is answered once W copies exist.")
    latency_buckets (labels [(lit "verb", verb)]);
  reg_ret (requests, (verb, seconds)).

Definition BYTES_HELP : bytes := lit "Chunk bytes received (PUT, STORE) and sent (GET).".
Definition register_chunks : Reg NodeReads (list (Pointers * (bytes * nat)) * nat * nat) :=
  gauge (lit "chordfs_store_chunks") (lit "Chunks held by this process.") store_chunks [];;
  gauge (lit "chordfs_store_bytes") (lit "Bytes of chunks held by this process.") store_bytes [];;
  gauge (lit "chordfs_body_slots_in_use") (lit "Chunk bodies held in memory now, of 32 (D-052).") (λ w, d_of_nat (cn_bodies (nr_node w))) [];;
  verbs ← reg_each register_chunk_verb CHUNK_VERBS;
  bytes_in ← counter (lit "chordfs_chunk_bytes_total") BYTES_HELP (labels [(lit "direction", lit "in")]);
  bytes_out ← counter (lit "chordfs_chunk_bytes_total") BYTES_HELP (labels [(lit "direction", lit "out")]);
  expose_histogram (lit "chordfs_put_replication_lag_seconds")
    (lit "From a write's acknowledgement to its last copy: the window with fewer than three copies.") replication_lag [];;
  expose_counter (lit "chordfs_put_copies_short_total") (lit "Coordinated writes whose copies ended below three.")
    (λ w, cn_copies_short (nr_node w)) [];;
  reg_ret (verbs, bytes_in, bytes_out).

Definition register_collection : Reg NodeReads unit :=
  expose_counter (lit "chordfs_gc_dropped_chunks_total") (lit "Chunks dropped at a collector's request.") (λ w, cn_dropped_chunks (nr_node w)) [];;
  expose_counter (lit "chordfs_gc_dropped_bytes_total") (lit "Bytes freed by dropping chunks.") (λ w, cn_dropped_bytes (nr_node w)) [];;
  expose_counter (lit "chordfs_gc_kept_young_total")
    (lit "Chunks a collector asked to drop, kept because they were written within the grace.") (λ w, cn_kept_young (nr_node w)) [];;
  gauge (lit "chordfs_gc_grace_seconds") (lit "How long a chunk must go unwritten before it may be dropped.")
    (λ w, d_div (d_of_Z (cn_gc_grace (nr_node w))) (d_of_Z 1000)) [].

Definition register_repair : Reg NodeReads Pointers :=
  repair ← reg_each (λ what,
    i ← counter (lit "chordfs_repair_" ++ what ++ lit "_total") (lit "Repair: " ++ what ++ lit ", summed over rounds (D-050).") [];
    reg_ret (what, i)) REPAIR_COUNTERS;
  gauge (lit "chordfs_repair_pending_arcs") (lit "Owned arcs to be checked again next round.") (λ w, d_of_Z (nr_repair_pending w)) [];;
  reg_ret repair.

Definition register_metrics (started : double) : Reg NodeReads NodeInstruments :=
  total ← register_process started nr_connections;
  errors ← register_errors ERROR_TYPES;
  lookups ← register_lookups;
  register_ring;;
  chunks ← register_chunks;
  register_collection;;
  repair ← register_repair;
  reg_ret (mkNodeInstruments total errors lookups.1.1 lookups.1.2 lookups.2
    (concat (fst <$> chunks.1.1)) (snd <$> chunks.1.1) chunks.1.2 chunks.2 repair).

(** Every lookup this process makes ends here. *)
Definition observe_lookup (ni : NodeInstruments) (r : LookupResult) (seconds : double) (rg : Registry NodeReads) : Registry NodeReads :=
  if negb (bool_decide (error r = LNone)) then count_in (ni_lookup_failures ni) (lookup_error_name (error r)) 1 rg
  else observe_own (ni_lookup_seconds ni) seconds (observe_own (ni_lookup_hops ni) (d_of_nat (hops r)) rg).
End node.
