(* ===== verification/SimBalance.v ===== *)
(** * SimBalance: how chunks spread over processes (sim_balance.cpp)

    Placement computed without a ring: every member of every process sorted, the
    owner of a key and the members after it, reduced to processes by the node's own
    function; the counts of a predicted ring and the statistics of generated ones, on
    binary64 numbers. The theorem is what the prediction rests on: the replica set is
    the one the owner of the key computes from its wired tables. Printing a double
    with four decimals is left out: the figures are the numbers printed. *)
From Stdlib Require Import SpecFloat.
From stdpp Require Import sorting.
From S2P Require Import Prelude Text OrdMap Net Chord Lookup Routing Stabilize StabilizeInv Ring Chunk Replication NodeMain Metrics NodeMetrics.

(** ** The ring *)

(** [members] sorted by identifier; the index of a process by its address. *)
Record SimRing := mkSimRing { sm_members : list Peer; sm_process : list (bytes * nat) }.

Section ring.
Context {SH : Sha1}.

Definition build (processes : list Peer) (v : nat) : SimRing :=
  mkSimRing (merge_sort by_id (p ← processes; member_peer p <$> seq 0 v))
    (foldl (λ m (ip : nat * Peer), om_set (address ip.2) ip.1 m) [] (zip (seq 0 (length processes)) processes)).

(** The owner, then its successor list. *)
Definition owner_list (r : SimRing) (k : Id) : list Peer :=
  let members := sm_members r in
  let i := if lower_bound k members =? length members then 0 else lower_bound k members in
  (λ s, default no_peer (members !! ((i + s) mod length members))) <$> seq 0 (min (length members) (DEFAULT_SUCCESSORS + 1)).
Definition replicas (r : SimRing) (k : Id) : list Peer := distinct_processes (owner_list r k) RF.

(** [++load[process.at(where(p))]]; [None] is the exception of [at]. *)
Definition count_at {A} (f : A → A) (r : SimRing) (load : list A) (p : Peer) : option (list A) :=
  i ← om_find (address p) (sm_process r); Some (alter f i load).
Fixpoint count_all {A} (f : A → A) (r : SimRing) (load : list A) (l : list Peer) : option (list A) :=
  match l with [] => Some load | p :: l => load ← count_at f r load p; count_all f r load l end.

(** ** The prediction *)

Fixpoint predict (r : SimRing) (stored : list nat) (keys : list bytes) : option (list nat) :=
  match keys with
  | [] => Some stored
  | key :: keys =>
      match id_from_key key with
      | None => predict r stored keys
      | Some k => stored ← count_all S r stored (replicas r k); predict r stored keys
      end
  end.

Definition predict_lines (processes : list Peer) (v : nat) (keys : list bytes) : option (list bytes) :=
  let r := build processes v in
  stored ← predict r (replicate (length processes) 0) keys;
  mapM (λ p, i ← om_find (address p) (sm_process r); n ← stored !! i; Some (address p ++ lit " " ++ dec (N.of_nat n))) processes.

(** ** Generated rings *)

Definition d_sub (a b : double) : double := SFsub 53 1024 a b.
Definition d_sqrt : double → double := SFsqrt 53 1024.
Definition d_zero : double := S754_zero false.
Definition d_max (a b : double) : double := if d_lt a b then b else a.

(** The largest load over the mean, and the coefficient of variation. *)
Definition summarise (load : list double) : double * double :=
  let sum := foldl d_add d_zero load in
  let mx := foldl d_max d_zero load in
  let mean := d_div sum (d_of_nat (length load)) in
  let var := foldl (λ var x, d_add var (d_mul (d_sub x mean) (d_sub x mean))) d_zero load in
  let var := d_div var (d_of_nat (length load)) in
  if d_lt d_zero mean then (d_div mx mean, d_div (d_sqrt var) mean) else (d_zero, d_zero).

(** The processes of address set [s]; C's remainder. *)
Definition set_processes (s : Z) (processes : nat) : list Peer :=
  (λ i, let ip := lit "127.2." ++ to_string (Z.rem s 250) ++ lit ".1" in
        let port := (21000 + Z.of_nat i)%Z in
        mkPeer (default 0%Z (id_of_address ip port)) ip port) <$> seq 0 processes.

Record Loads := mkLoads { ld_owned : list double; ld_stored : list double; ld_short : nat }.
Definition d_incr (x : double) : double := d_add x (d_of_Z 1).

(** One key: its owner, its copies, whether it has too few processes. *)
Definition place (r : SimRing) (s : Z) (processes : nat) (l : Loads) (k : nat) : option Loads :=
  let id := default 0%Z (id_from_key (sha1 (lit "key-" ++ to_string s ++ lit "-" ++ to_string (Z.of_nat k)))) in
  let set := replicas r id in
  owner ← head set;
  owned ← count_at d_incr r (ld_owned l) owner;
  stored ← count_all d_incr r (ld_stored l) set;
  Some (mkLoads owned stored (ld_short l + if length set <? min RF processes then 1 else 0)).
Fixpoint place_all (r : SimRing) (s : Z) (processes : nat) (l : Loads) (keys : list nat) : option Loads :=
  match keys with [] => Some l | k :: keys => l ← place r s processes l k; place_all r s processes l keys end.

(** The figures of a line: the set, the owned and the stored load summarised, the
    fraction of short sets. *)
Definition Figures : Type := Z * (double * double) * (double * double) * double.
Definition balance_set (processes v keys : nat) (s : Z) : option Figures :=
  let r := build (set_processes s processes) v in
  l ← place_all r s processes (mkLoads (replicate processes d_zero) (replicate processes d_zero) 0) (seq 0 keys);
  Some (s, summarise (ld_owned l), summarise (ld_stored l), d_div (d_of_nat (ld_short l)) (d_of_nat keys)).

(** ** The program *)

(** [std::atoi] into an [int]; out of its range it is undefined: [None]. *)
Definition int_arg (s : bytes) : option Z :=
  let v := atoi s in if (v <? -2147483648)%Z || (2147483647 <? v)%Z then None else Some v.
End ring.

(** What the program ends with: [BUnspecified] is an [int] out of range or an exception. *)
Inductive BalanceRun := BUsage | BBad (err : bytes) | BPredicted (lines : list bytes) | BFigures (lines : list Figures) | BUnspecified.

Definition sim_balance `{Sha1, Inet} (args : list bytes) (file : bytes) (input : bytes) : BalanceRun :=
  let figures p v k n first :=
    match int_arg p, int_arg v, int_arg k, int_arg n, first with
    | Some p, Some v, Some k, Some n, Some first =>
        if (p <? 1)%Z || (v <? 1)%Z || (k <? 1)%Z || (n <? 1)%Z then BUsage
        else from_option BFigures BUnspecified
               (mapM (balance_set (Z.to_nat p) (Z.to_nat v) (Z.to_nat k)) ((λ i, (first + Z.of_nat i)%Z) <$> seq 0 (Z.to_nat n)))
    | _, _, _, _, _ => BUnspecified
    end in
  match args with
  | [a; b; c] =>
      if bool_decide (a = lit "--predict") then
        match int_arg b with
        | None => BUnspecified
        | Some v =>
            if (v <? 1)%Z then BBad []
            else match parse_members file with
            | inl err => BBad err
            | inr processes => from_option BPredicted BUnspecified (predict_lines processes (Z.to_nat v) (stream_words input))
            end
        end
      else BUsage
  | [p; v; k; n] => figures p v k n (Some 0%Z)
  | [p; v; k; n; first] => figures p v k n (int_arg first)
  | _ => BUsage
  end.

(** ** The prediction is what a coordinator computes *)

Lemma owner_position k ring o : successor_of k ring = Some o →
  ring !! (if lower_bound k ring =? length ring then 0 else lower_bound k ring) = Some o.
Proof.
  unfold successor_of. pose proof (lower_bound_le k ring) as Hle. destruct (ring !! lower_bound k ring) as [p|] eqn:E.
  - apply lookup_lt_Some in E as Hlt. intros [= <-]. by destruct (Nat.eqb_spec (lower_bound k ring) (length ring)); [lia|].
  - apply lookup_ge_None in E. destruct (Nat.eqb_spec (lower_bound k ring) (length ring)); [|lia]. by destruct ring.
Qed.

Lemma owner_list_rot r k o : ring_ok (sm_members r) → successor_of k (sm_members r) = Some o →
  owner_list r k = o :: take DEFAULT_SUCCESSORS (rot (sm_members r) (find_self o (sm_members r))).
Proof.
  intros Hr Ho. set (ring := sm_members r) in *. pose proof (owner_position k ring o Ho) as Hi. unfold owner_list. fold ring. cbv zeta.
  set (i := if lower_bound k ring =? length ring then 0 else lower_bound k ring) in *. clearbody i. apply lookup_lt_Some in Hi as Hlt.
  rewrite (find_self_unique ring Hr o i Hi), <- (steps_rot ring i Hlt).
  replace (min (length ring) (DEFAULT_SUCCESSORS + 1)) with (S (min DEFAULT_SUCCESSORS (length ring - 1))) by lia.
  cbn [seq]. rewrite fmap_cons, Nat.add_0_r, Nat.mod_small, Hi by done. cbn [default from_option]. f_equal.
  rewrite <- fmap_take, take_seq. done.
Qed.

(** The replica set predicted for a key is the one the node that owns the key computes
    from its wired tables, on any valid ring. *)
Theorem predicted_as_coordinated {IN : Inet} r k o m : ring_ok (sm_members r) → successor_of k (sm_members r) = Some o →
  wired_node (sm_members r) DEFAULT_SUCCESSORS o = Some m → replicas r k = replica_set m RF.
Proof.
  intros Hr Ho Hm. set (ring := sm_members r) in *. pose proof (owner_position k ring o Ho) as Hi. apply list_elem_of_lookup_2 in Hi as Hin.
  destruct (init_wired_tables ring Hr (new_node o DEFAULT_SUCCESSORS None) Hin) as (m' & fs & E & _ & E1 & _ & E3 & _); [unfold DEFAULT_SUCCESSORS; cbn; lia|].
  unfold wired_node in Hm. rewrite Hm in E. injection E as <-. unfold replicas, replica_set. rewrite (owner_list_rot r k o Hr Ho), E1, E3.
  fold ring. rewrite wired_succs_rot by done. cbn [ns_self ns_r new_node].
  destruct (take DEFAULT_SUCCESSORS (rot ring (find_self o ring))); [|done].
  unfold distinct_processes, RF. cbn [distinct_loop length existsb app Nat.leb]. by rewrite (proj2 (same_process_true o o)).
Qed.

(** ** What is predicted *)
Section counts.
Context {SH : Sha1}.

(** The copies of [keys] that land on the process at an address. *)
Definition copies_at (r : SimRing) (at_ : bytes) (keys : list bytes) : nat :=
  sum_list ((λ key, match id_from_key key with
                    | Some k => length (filter (λ q, address q = at_) (replicas r k))
                    | None => 0 end) <$> keys).

(** The indices the ring's map gives are those of processes with that address. *)
Definition indexed (r : SimRing) (processes : list Peer) : Prop :=
  (∀ a i, om_find a (sm_process r) = Some i → address <$> processes !! i = Some a) ∧
  (∀ p, p ∈ processes → is_Some (om_find (address p) (sm_process r))).

Lemma build_indexed processes v : indexed (build processes v) processes.
Proof.
  unfold build, indexed. cbn [sm_process].
  set (step := λ m (ip : nat * Peer), om_set (address ip.2) ip.1 m).
  assert (Hgen : ∀ l n m, (∀ a i, om_find a m = Some i → address <$> (processes !! i) = Some a) → drop n processes = l →
    (∀ a i, om_find a (foldl step m (zip (seq n (length l)) l)) = Some i → address <$> (processes !! i) = Some a) ∧
    (∀ a, is_Some (om_find a m) ∨ a ∈ address <$> l → is_Some (om_find a (foldl step m (zip (seq n (length l)) l))))).
  { induction l as [|p l IH]; intros n m Hm Hd; cbn [length seq zip zip_with foldl]; [split; [done|]; intros a [?|Ha]; [done|by apply elem_of_nil in Ha]|].
    assert (Hp : processes !! n = Some p) by (rewrite <- (Nat.add_0_r n), <- lookup_drop, Hd; done).
    destruct (IH (S n) (step m (n, p))) as [I1 I2].
    - unfold step. intros a i. cbn [fst snd]. rewrite om_find_set. case_decide as Ea; [intros [= <-]; by rewrite Hp, Ea|apply Hm].
    - rewrite <- Nat.add_1_r, <- drop_drop, Hd. done.
    - split; [exact I1|]. intros a Ha. apply I2. unfold step. cbn [fst snd]. rewrite om_find_set. case_decide; [left; by eexists|].
      rewrite fmap_cons, elem_of_cons in Ha. tauto. }
  destruct (Hgen processes 0 []) as [H1 H2]; [done|done|]. split; [exact H1|]. intros p Hp. apply H2. right. by apply list_elem_of_fmap_2.
Qed.

Lemma count_all_spec r processes load l : indexed r processes → (∀ q, q ∈ l → address q ∈ address <$> processes) →
  ∃ load', count_all S r load l = Some load' ∧ ∀ i a, om_find a (sm_process r) = Some i →
    load' !! i = (λ n, n + length (filter (λ q, address q = a) l)) <$> load !! i.
Proof.
  intros [H1 H2] Hl. revert load. induction l as [|q l IH]; intros load; cbn [count_all].
  - exists load. split; [done|]. intros i a _. cbn. destruct (load !! i); cbn; [by rewrite Nat.add_0_r|done].
  - destruct (list_elem_of_fmap_1 _ _ _ (Hl q ltac:(by left))) as (p & Ep & Hp). destruct (H2 p Hp) as [j Ej]. rewrite <- Ep in Ej.
    unfold count_at. rewrite Ej. cbn [mbind option_bind]. destruct (IH ltac:(intros x Hx; apply Hl; by right) (alter S j load)) as (load' & E & Hload).
    exists load'. split; [done|]. intros i a Hi. rewrite (Hload i a Hi), list_lookup_alter, filter_cons.
    destruct (decide (address q = a)) as [Ea|Ea].
    + assert (j = i) as -> by congruence. rewrite decide_True by done. destruct (load !! i); cbn; [f_equal; lia|done].
    + rewrite decide_False; [done|]. intros ->. apply H1 in Ej, Hi. congruence.
Qed.

Lemma sim_member_address processes v q : q ∈ sm_members (build processes v) → address q ∈ address <$> processes.
Proof.
  cbn [sm_members build]. rewrite merge_sort_Permutation, list_elem_of_bind. intros (p & (i & -> & _)%list_elem_of_fmap & Hp).
  change (address (member_peer p i)) with (address p). by apply list_elem_of_fmap_2.
Qed.

Lemma replicas_address processes v k q : 1 ≤ v → processes ≠ [] → q ∈ replicas (build processes v) k → address q ∈ address <$> processes.
Proof.
  intros Hv Hp Hq. apply (sim_member_address processes v). unfold replicas, distinct_processes in Hq.
  destruct (distinct_loop_spec RF [] (owner_list (build processes v) k)) as (_ & _ & _ & Hin & _);
    [by intros i j x y Hi|cbn; lia|]. destruct (Hin q Hq) as [?%elem_of_nil|Hf]; [done|].
  apply list_elem_of_fmap in Hf as (s & -> & Hs). set (members := sm_members (build processes v)) in *.
  assert (Hlen : length members ≠ 0).
  { subst members. cbn [sm_members build]. rewrite merge_sort_Permutation. destruct processes as [|p ps]; [done|]. rewrite bind_cons, length_app, length_fmap, length_seq. lia. }
  destruct (lookup_lt_is_Some_2 members (((if lower_bound k members =? length members then 0 else lower_bound k members) + s) mod length members)) as [x Hx].
  { by apply Nat.mod_upper_bound. }
  rewrite Hx. by eapply list_elem_of_lookup_2.
Qed.

(** What [--predict] prints: for each process of the file, in order, the number of copies
    the replica sets of the valid keys put on it; no address is ever missing from the map. *)
Theorem prediction_counts_copies processes v keys : 1 ≤ v → processes ≠ [] →
  predict_lines processes v keys =
    Some ((λ p, address p ++ lit " " ++ dec (N.of_nat (copies_at (build processes v) (address p) keys))) <$> processes).
Proof.
  intros Hv Hp. unfold predict_lines. cbv zeta. set (r := build processes v). pose proof (build_indexed processes v) as Hix. fold r in Hix.
  assert (Hgen : ∀ ks load, ∃ load', predict r load ks = Some load' ∧ ∀ i a, om_find a (sm_process r) = Some i →
    load' !! i = (λ n, n + copies_at r a ks) <$> load !! i).
  { induction ks as [|key ks IH]; intros load; cbn [predict].
    - exists load. split; [done|]. intros i a _. cbn. destruct (load !! i); cbn; [by rewrite Nat.add_0_r|done].
    - unfold copies_at in *. cbn [fmap list_fmap sum_list_with id]. destruct (id_from_key key) as [k|]; [|by apply IH].
      destruct (count_all_spec r processes load (replicas r k) Hix) as (l1 & E1 & H1); [intros q Hq; by eapply replicas_address|].
      rewrite E1. cbn [mbind option_bind]. destruct (IH l1) as (l2 & E2 & H2). exists l2. split; [done|]. intros i a Hi.
      rewrite (H2 i a Hi), (H1 i a Hi). destruct (load !! i); cbn [fmap option_fmap option_map]; [f_equal; lia|done]. }
  destruct (Hgen keys (replicate (length processes) 0)) as (stored & E & Hs). rewrite E. cbn [mbind option_bind]. clear E Hgen.
  apply mapM_Some. apply Forall2_fmap_r, Forall_Forall2_diag, Forall_forall. intros p Hin.
  destruct Hix as [Hix1 Hix2]. destruct (Hix2 p Hin) as [i Hi]. rewrite Hi. cbn [mbind option_bind]. rewrite (Hs i (address p) Hi).
  apply Hix1 in Hi. destruct (processes !! i) eqn:Ei; [|done]. apply lookup_lt_Some in Ei.
  rewrite lookup_replicate_2 by done. done.
Qed.
End counts.

(** Two processes of two members each: both keep both keys; a malformed key counts for nothing. *)
Example predicted_lines :
  @predict_lines demo_sha1 [mkPeer 1 (lit "10.0.0.1") 9001; mkPeer 2 (lit "10.0.0.2") 9002] 2 [hex_go 40 7; lit "zz"; hex_go 40 (2 ^ 150)] =
    Some [lit "10.0.0.1:9001 2"; lit "10.0.0.2:9002 2"].
Proof. vm_compute. reflexivity. Qed.

(** Loads 1 and 3: the largest over the mean is 1.5, the coefficient of variation 0.5. *)
Example summarised : summarise [d_of_Z 1; d_of_Z 3] = (d_ratio 3 2, d_ratio 1 2).
Proof. vm_compute. reflexivity. Qed.
