(* ===== verification/Pool.v ===== *)
(** * Pool: the worker pool of a transfer (transfer.h, transfer.cpp)

    [run_pool] runs one job per index on several threads that share a counter
    and a flag. A schedule says which worker moves next; each move is one access
    to the shared counter or flag, or one whole job: jobs share nothing that the
    order of their own steps could matter to but the flag, and what a job reads of
    the flag while it runs, like everything else from outside, is in its
    environment [Env]. *)
From S2P Require Import Prelude.

Inductive Worker :=
  | WTop                (* about to read the flag *)
  | WTake               (* it was not set: about to take an index *)
  | WJob (i : nat)      (* running job [i] *)
  | WFail               (* its job failed: about to set the flag *)
  | WDone.              (* returned *)
#[export] Instance Worker_eq_dec : EqDecision Worker.
Proof. solve_decision. Defined.

Section pool.
Context {St Env : Type} (n : nat) (job : nat → Env → St → bool * St).

Record Pool := mkPool { pl_next : nat; pl_stop : bool; pl_workers : list Worker; pl_st : St }.

(** Worker [t] moves. *)
Definition pool_move (p : Pool) (m : nat * Env) : Pool :=
  let '(t, env) := m in
  let put w := <[t := w]> (pl_workers p) in
  match pl_workers p !! t with
  | Some WTop => mkPool (pl_next p) (pl_stop p) (put (if pl_stop p then WDone else WTake)) (pl_st p)
  | Some WTake => mkPool (S (pl_next p)) (pl_stop p) (put (if n <=? pl_next p then WDone else WJob (pl_next p))) (pl_st p)
  | Some (WJob i) =>
      let '(ok, st) := job i env (pl_st p) in
      mkPool (pl_next p) (pl_stop p) (put (if ok then WTop else WFail)) st
  | Some WFail => mkPool (pl_next p) true (put WTop) (pl_st p)
  | Some WDone | None => p
  end.

(** How many workers there are, if the system started [started] of the threads asked for. *)
Definition pool_size (workers started : nat) : nat :=
  let count := Nat.min (Nat.min n (Nat.max 1 workers)) started in
  if count =? 0 then 1 else count.

Definition pool_start (workers started : nat) (st : St) : Pool :=
  mkPool 0 false (replicate (pool_size workers started) WTop) st.

Definition pool_finished (p : Pool) : bool := forallb (λ w, bool_decide (w = WDone)) (pl_workers p).

(** [None]: the schedule ends before every thread has returned. *)
Definition run_pool (workers started : nat) (sched : list (nat * Env)) (st : St) : option (bool * St) :=
  let p := foldl pool_move (pool_start workers started st) sched in
  if pool_finished p then Some (negb (pl_stop p), pl_st p) else None.

(** ** The jobs that ran *)

(** Jobs in the order they ran, with the result of each. *)
Fixpoint replay (l : list (nat * Env * bool)) (st : St) : option St :=
  match l with
  | [] => Some st
  | (i, e, b) :: l => let '(b', st') := job i e st in if bool_decide (b = b') then replay l st' else None
  end.

Lemma replay_app l l' st : replay (l ++ l') st = replay l st ≫= replay l'.
Proof.
  revert st. induction l as [|[[i e] b] l IH]; intros st; cbn [app replay]; [done|].
  destruct (job i e st) as [b' st']. by case_bool_decide.
Qed.

Definition running (ws : list Worker) : list nat := omap (λ w, match w with WJob i => Some i | _ => None end) ws.

Lemma running_app a b : running (a ++ b) = running a ++ running b.
Proof. apply omap_app. Qed.
Lemma running_cons w ws : running (w :: ws) = running [w] ++ running ws.
Proof. by destruct w. Qed.

Lemma lookup_split {A} (l : list A) t x : l !! t = Some x →
  ∃ a b, l = a ++ x :: b ∧ ∀ y, <[t := y]> l = a ++ y :: b.
Proof.
  intros H. exists (take t l), (drop (S t) l). split; [by rewrite take_drop_middle|]. intros y.
  apply insert_take_drop. by eapply lookup_lt_Some.
Qed.

Record pool_inv (st0 : St) (p : Pool) (l : list (nat * Env * bool)) : Prop := {
  pi_replay : replay l st0 = Some (pl_st p);
  pi_taken : running (pl_workers p) ++ l.*1.*1 ≡ₚ seq 0 (Nat.min (pl_next p) n);
  pi_failed : false ∈ l.*2 ↔ pl_stop p = true ∨ WFail ∈ pl_workers p;
  pi_done : WDone ∈ pl_workers p → pl_stop p = true ∨ n ≤ pl_next p;
}.

Lemma pool_inv_start workers started st : pool_inv st (pool_start workers started st) [].
Proof.
  assert (Hrep : ∀ k, running (replicate k WTop) = []) by (by induction k).
  split; cbn; [done|by rewrite Hrep| |].
  - split; [by intros ?%elem_of_nil|]. intros [|[E _]%elem_of_replicate]; done.
  - by intros [E _]%elem_of_replicate.
Qed.

Ltac pool_swap H := 
  let a := fresh "a" in let b := fresh "b" in let E := fresh "E" in let Ei := fresh "Ei" in
  destruct (lookup_split _ _ _ H) as (a & b & E & Ei); rewrite ?Ei; rewrite ?E in *; clear E Ei.

Lemma pool_move_inv st0 p l m : pool_inv st0 p l → ∃ l', pool_inv st0 (pool_move p m) (l ++ l') ∧ Forall (λ x, x.1.2 = m.2) l'.
Proof.
  intros [Hr Ht Hf Hd]. destruct m as [t env]. unfold pool_move. cbv beta zeta iota.
  destruct (pl_workers p !! t) as [w|] eqn:Hw; [|exists []; by rewrite app_nil_r; split; [split|]].
  destruct p as [next stop ws st]. cbn [pl_next pl_stop pl_workers pl_st] in *.
  destruct w as [| |i| |]; [| |destruct (job i env st) as [ok st'] eqn:Ej|..]; pool_swap Hw;
    rewrite running_app, running_cons in Ht; cbn [running omap list_omap app] in Ht;
    rewrite elem_of_app, elem_of_cons in Hf; rewrite elem_of_app, elem_of_cons in Hd.
  - exists []. split; [|done]. rewrite app_nil_r. destruct stop; split; cbn [pl_next pl_stop pl_workers pl_st];
      rewrite ?running_app, ?elem_of_app, ?elem_of_cons; naive_solver.
  - exists []. split; [|done]. rewrite app_nil_r. split; cbn [pl_next pl_stop pl_workers pl_st]; [done| | |].
    + rewrite running_app, running_cons. destruct (Nat.leb_spec n next); cbn [running omap list_omap app].
      * rewrite Nat.min_r in * by lia. done.
      * rewrite Nat.min_l in * by lia. rewrite seq_S. cbn [Nat.add]. rewrite <- Ht. solve_Permutation.
    + destruct (n <=? next); rewrite elem_of_app, elem_of_cons; naive_solver.
    + destruct (Nat.leb_spec n next); rewrite elem_of_app, elem_of_cons; [lia|naive_solver lia].
  - exists [(i, env, ok)]. split; [|by repeat constructor].
    split; cbn [pl_next pl_stop pl_workers pl_st].
    + rewrite replay_app, Hr. cbn. rewrite Ej. by rewrite bool_decide_true.
    + rewrite <- Ht, running_app, running_cons, !fmap_app. destruct ok; cbn [running omap list_omap app fmap list_fmap fst snd]; solve_Permutation.
    + rewrite fmap_app, elem_of_app, elem_of_app, elem_of_cons. cbn. rewrite list_elem_of_singleton. destruct ok; naive_solver.
    + destruct ok; rewrite elem_of_app, elem_of_cons; naive_solver.
  - exists []. split; [|done]. rewrite app_nil_r. split; cbn [pl_next pl_stop pl_workers pl_st]; [done| | |].
    + by rewrite running_app, running_cons.
    + naive_solver.
    + naive_solver.
  - exists []. split; [|done]. rewrite app_nil_r. split; cbn; [done|by rewrite running_app, running_cons|by rewrite elem_of_app, elem_of_cons|].
    by rewrite elem_of_app, elem_of_cons.
Qed.

Lemma pool_moves_inv st0 p l sched : pool_inv st0 p l → ∃ l', pool_inv st0 (foldl pool_move p sched) (l ++ l') ∧ Forall (λ x, x.1.2 ∈ sched.*2) l'.
Proof.
  revert p l. induction sched as [|m sched IH]; intros p l Hp; cbn [foldl]; [exists []; by rewrite app_nil_r|].
  destruct (pool_move_inv st0 p l m Hp) as (l1 & H1 & F1). destruct (IH _ _ H1) as (l2 & H2 & F2). exists (l1 ++ l2).
  rewrite app_assoc. split; [done|]. apply Forall_app. split; (eapply Forall_impl; [eassumption|]); intros x Hx; cbn;
    apply elem_of_cons; [by left|by right].
Qed.

Lemma move_workers p m : length (pl_workers (pool_move p m)) = length (pl_workers p).
Proof.
  destruct m as [t env]. unfold pool_move. destruct (pl_workers p !! t) as [[| |i| |]|]; cbn; rewrite ?length_insert; try done.
  destruct (job i env (pl_st p)). cbn. by rewrite length_insert.
Qed.

Lemma moves_workers p sched : length (pl_workers (foldl pool_move p sched)) = length (pl_workers p).
Proof. revert p. induction sched as [|m sched IH]; intros p; [done|]. cbn [foldl]. by rewrite IH, move_workers. Qed.

Lemma pool_size_pos workers started : 1 ≤ pool_size workers started.
Proof. unfold pool_size. destruct (Nat.eqb_spec (Nat.min (Nat.min n (Nat.max 1 workers)) started) 0); lia. Qed.

Lemma pool_outcome workers started sched st b st' : run_pool workers started sched st = Some (b, st') →
  ∃ l, replay l st = Some st' ∧ Forall (λ x, x.1.2 ∈ sched.*2) l ∧ NoDup l.*1.*1 ∧ (∀ i, i ∈ l.*1.*1 → i < n) ∧
    if b then l.*1.*1 ≡ₚ seq 0 n ∧ Forall (λ x, x.2 = true) l else false ∈ l.*2.
Proof.
  unfold run_pool. cbv zeta. set (p := foldl pool_move (pool_start workers started st) sched).
  destruct (pool_moves_inv st _ [] sched (pool_inv_start workers started st)) as (l & [Hr Ht Hf Hd] & Henv). rewrite app_nil_l in *. fold p in Hr, Ht, Hf, Hd.
  assert (Hw : length (pl_workers p) = pool_size workers started).
  { subst p. rewrite moves_workers. apply length_replicate. }
  unfold pool_finished. destruct (forallb _ _) eqn:Hfin; [|done]. apply forallb_Forall in Hfin.
  assert (Hall : Forall (λ w, w = WDone) (pl_workers p)) by (eapply Forall_impl; [exact Hfin|]; intros w Hw'; by apply bool_decide_eq_true in Hw').
  clear Hfin. intros [= <- <-]. exists l. split; [done|]. split; [done|].
  assert (Hrun : running (pl_workers p) = []) by (clear -Hall; induction Hall as [|w ws ->]; [done|]; by cbn).
  rewrite Hrun, app_nil_l in Ht. assert (Hsub : ∀ i, i ∈ l.*1.*1 → i < n).
  { intros i Hi. rewrite Ht in Hi. apply elem_of_seq in Hi. lia. }
  split; [rewrite Ht; apply NoDup_seq|]. split; [done|]. destruct (pl_stop p) eqn:Es; cbn [negb]; [apply Hf; by left|].
  assert (Hnf : false ∉ l.*2).
  { intros [Hs|Hs]%Hf; [done|]. rewrite Forall_forall in Hall. by specialize (Hall _ Hs). }
  split.
  - destruct Hd as [|Hn]; [|done|by rewrite Nat.min_r in Ht].
    pose proof (pool_size_pos workers started). destruct Hall as [|w ws -> _]; [cbn in Hw; lia|]. apply elem_of_cons. by left.
  - apply Forall_forall. intros [x b] Hx. destruct b; [done|]. exfalso. apply Hnf, list_elem_of_fmap. by exists (x, false).
Qed.

(** What every job keeps, whatever it returns, the pool keeps. *)
Lemma pool_keeps (I : St → Prop) workers started sched st b st' :
  (∀ i e st, I st → I (job i e st).2) → I st → run_pool workers started sched st = Some (b, st') → I st'.
Proof.
  intros Hjob Hst. unfold run_pool. cbv zeta.
  assert (H : ∀ sched p, I (pl_st p) → I (pl_st (foldl pool_move p sched))).
  { clear -Hjob. induction sched as [|m sched IH]; intros p Hp; [done|]. cbn [foldl]. apply IH. unfold pool_move.
    destruct m as [t env]. destruct (pl_workers p !! t) as [[| |i| |]|]; [done|done| |done|done|done].
    pose proof (Hjob i env (pl_st p) Hp) as Hj. destruct (job i env (pl_st p)) as [[] st1]; done. }
  specialize (H sched (pool_start workers started st) Hst). destruct (pool_finished _); [|done]. by intros [= _ <-].
Qed.

(** What every job that returns true keeps true, of the indices run so far, holds at
    the end of all of them. *)
Lemma replay_rule (P : list nat → St → Prop) (Q : Env → Prop) l D st st' :
  (∀ D i e st st', P D st → i ∉ D → i < n → Q e → job i e st = (true, st') → P (i :: D) st') →
  replay l st = Some st' → NoDup (l.*1.*1 ++ D) → (∀ i, i ∈ l.*1.*1 → i < n) →
  Forall (λ x, x.2 = true) l → Forall (λ x, Q x.1.2) l → P D st →
  ∃ D', P D' st' ∧ ∀ i, i ∈ l.*1.*1 ∨ i ∈ D → i ∈ D'.
Proof.
  intros Hstep. revert D st. induction l as [|[[i e] b] l IH]; intros D st; cbn [replay fmap list_fmap app].
  { intros [= <-] _ _ _ _ HP. exists D. split; [done|]. intros i [?%elem_of_nil|]; done. }
  destruct (job i e st) as [b' st1] eqn:Ej. case_bool_decide; [subst b'|done].
  intros Hr [Hni Hnd]%NoDup_cons Hlt [Hb Hall]%Forall_cons [Hq Hqs]%Forall_cons HP. cbn in Hb, Hq. subst b.
  rewrite not_elem_of_app in Hni. destruct (IH (i :: D) st1) as (D' & HP' & HD'); [done| | |done|done| |].
  - rewrite <- Permutation_middle. constructor; [|done]. by apply not_elem_of_app.
  - intros j Hj. apply Hlt, elem_of_cons. by right.
  - apply (Hstep D i e st); [done|tauto| |done|done]. apply Hlt, elem_of_cons. by left.
  - exists D'. split; [done|]. intros j Hj. apply HD'. cbn in Hj. rewrite !elem_of_cons in *. tauto.
Qed.

Lemma pool_rule (P : list nat → St → Prop) (Q : Env → Prop) workers started sched st st' :
  (∀ D i e st st', P D st → i ∉ D → i < n → Q e → job i e st = (true, st') → P (i :: D) st') →
  Forall (λ m, Q m.2) sched → P [] st → run_pool workers started sched st = Some (true, st') →
  ∃ D, P D st' ∧ ∀ i, i < n → i ∈ D.
Proof.
  intros Hstep HQ HP (l & Hr & Henv & Hnd & Hlt & Hperm & Hall)%pool_outcome.
  destruct (replay_rule P Q l [] st st' Hstep Hr) as (D & HD & Hin); [by rewrite app_nil_r|done|done| |done|].
  - eapply Forall_impl; [exact Henv|]. intros x (m & Em & Hm)%list_elem_of_fmap. rewrite Forall_forall in HQ. rewrite Em. by apply HQ.
  - exists D. split; [done|]. intros i Hi. apply Hin. left. rewrite Hperm. apply elem_of_seq. lia.
Qed.

Lemma replay_succeeds (R : St → Prop) (Q : Env → Prop) l st st' :
  (∀ i e st, R st → i < n → Q e → (job i e st).1 = true ∧ R (job i e st).2) →
  replay l st = Some st' → (∀ i, i ∈ l.*1.*1 → i < n) → Forall (λ x, Q x.1.2) l → R st → false ∉ l.*2.
Proof.
  intros Hstep. revert st. induction l as [|[[i e] b] l IH]; intros st; cbn [replay fmap list_fmap]; [by intros _ _ _ _ ?%elem_of_nil|].
  intros Hr Hlt [Hq Hqs]%Forall_cons HR. destruct (Hstep i e st HR) as [Hb HR1]; [apply Hlt, elem_of_cons; by left|done|].
  destruct (job i e st) as [b' st1]. cbn [fst snd] in *. subst b'. case_bool_decide; [subst b|done].
  intros [E|Hin]%elem_of_cons; [done|]. eapply (IH st1); [done| |done|done|done]. intros j Hj. apply Hlt, elem_of_cons. by right.
Qed.

(** If no job can fail, the pool does not. *)
Lemma pool_succeeds (R : St → Prop) (Q : Env → Prop) workers started sched st b st' :
  (∀ i e st, R st → i < n → Q e → (job i e st).1 = true ∧ R (job i e st).2) →
  Forall (λ m, Q m.2) sched → R st → run_pool workers started sched st = Some (b, st') → b = true.
Proof.
  intros Hstep HQ HR (l & Hr & Henv & _ & Hlt & Hb)%pool_outcome. destruct b; [done|]. exfalso.
  eapply replay_succeeds; [exact Hstep|exact Hr|done| |done|done].
  eapply Forall_impl; [exact Henv|]. intros x (m & Em & Hm)%list_elem_of_fmap. rewrite Forall_forall in HQ. rewrite Em. by apply HQ.
Qed.

(** ** Termination *)

Definition weight (w : Worker) : nat :=
  match w with WDone => 0 | WTake => 1 | WTop => 2 | WFail => 3 | WJob _ => 4 end.
Definition pool_left (p : Pool) : nat := sum_list_with weight (pl_workers p) + 5 * (n - pl_next p).

Lemma sum_insert ws t w w' : ws !! t = Some w → sum_list_with weight (<[t := w']> ws) + weight w = sum_list_with weight ws + weight w'.
Proof.
  intros H. destruct (lookup_split ws t w H) as (a & b & -> & ->). rewrite !sum_list_with_app. cbn. lia.
Qed.

(** Every move of a worker that has not returned brings the pool nearer its end. *)
Lemma pool_move_left p t env w : pl_workers p !! t = Some w → w ≠ WDone → pool_left (pool_move p (t, env)) < pool_left p.
Proof.
  intros Hw Hd. unfold pool_move, pool_left. rewrite Hw.
  destruct w as [| |i| |]; [| |destruct (job i env (pl_st p)) as [ok st']| |done]; cbn [pl_workers pl_next].
  - pose proof (sum_insert _ _ _ (if pl_stop p then WDone else WTake) Hw). destruct (pl_stop p); cbn [weight] in *; lia.
  - pose proof (sum_insert _ _ _ (if n <=? pl_next p then WDone else WJob (pl_next p)) Hw).
    destruct (Nat.leb_spec n (pl_next p)); cbn [weight] in *; lia.
  - pose proof (sum_insert _ _ _ (if ok then WTop else WFail) Hw). destruct ok; cbn [weight] in *; lia.
  - pose proof (sum_insert _ _ _ WTop Hw). cbn [weight] in *; lia.
Qed.

(** A schedule that only moves workers that have not returned. *)
Fixpoint live (p : Pool) (sched : list (nat * Env)) : Prop :=
  match sched with
  | [] => True
  | m :: sched => (∃ w, pl_workers p !! m.1 = Some w ∧ w ≠ WDone) ∧ live (pool_move p m) sched
  end.

Lemma live_length p sched : live p sched → length sched + pool_left (foldl pool_move p sched) ≤ pool_left p.
Proof.
  revert p. induction sched as [|[t env] sched IH]; intros p; cbn [live foldl length]; [lia|].
  intros [(w & Hw & Hd) Hl]. specialize (IH _ Hl). pose proof (pool_move_left p t env w Hw Hd). lia.
Qed.

(** Every worker is given as many moves as there are in all. *)
Definition turns_enough (workers started : nat) (sched : list (nat * Env)) : Prop :=
  ∀ t, t < pool_size workers started → 2 * pool_size workers started + 5 * n ≤ length (filter (λ m, m.1 = t) sched).

Lemma pool_start_left workers started st : pool_left (pool_start workers started st) = 2 * pool_size workers started + 5 * n.
Proof.
  unfold pool_left. cbn [pl_workers pl_next pool_start]. rewrite Nat.sub_0_r. f_equal.
  induction (pool_size workers started) as [|k IH]; cbn in *; lia.
Qed.

Lemma pool_move_stays p m t : pl_workers p !! t = Some WDone → pl_workers (pool_move p m) !! t = Some WDone.
Proof.
  intros Ht. destruct m as [u env]. unfold pool_move. destruct (pl_workers p !! u) as [w|] eqn:Hu; [|done].
  destruct (decide (u = t)) as [->|Hne]; [rewrite Ht in Hu; by injection Hu as <-|].
  destruct w as [| |i| |]; [..|done]; [| |destruct (job i env (pl_st p)) as [ok st]|]; cbn [pl_workers]; by rewrite list_lookup_insert_ne.
Qed.

Lemma pool_moves_stay p sched t : pl_workers p !! t = Some WDone → pl_workers (foldl pool_move p sched) !! t = Some WDone.
Proof. revert p. induction sched as [|m sched IH]; intros p Hp; [done|]. by apply IH, pool_move_stays. Qed.

Lemma pool_move_le p m : pool_left (pool_move p m) ≤ pool_left p.
Proof.
  destruct m as [t env]. destruct (pl_workers p !! t) as [w|] eqn:Hw; [|unfold pool_move; by rewrite Hw].
  destruct (decide (w = WDone)) as [->|Hd]; [unfold pool_move; by rewrite Hw|]. pose proof (pool_move_left p t env w Hw Hd). lia.
Qed.

(** A worker that has moved as often as there are moves left has returned. *)
Lemma worker_returns p sched t : t < length (pl_workers p) →
  pl_workers (foldl pool_move p sched) !! t = Some WDone ∨
  length (filter (λ m, m.1 = t) sched) + pool_left (foldl pool_move p sched) ≤ pool_left p.
Proof.
  revert p. induction sched as [|[u env] sched IH]; intros p Ht; cbn [foldl]; [right; cbn; lia|].
  pose proof (pool_move_le p (u, env)) as Hle. destruct (IH (pool_move p (u, env))) as [?|IH']; [by rewrite move_workers|by left|].
  rewrite filter_cons. case_decide as Hu; [|right; lia]. cbn [fst] in Hu. subst u.
  destruct (lookup_lt_is_Some_2 _ _ Ht) as [w Hw]. destruct (decide (w = WDone)) as [->|Hd].
  - left. by apply pool_moves_stay, pool_move_stays.
  - right. pose proof (pool_move_left p t env w Hw Hd). cbn [length]. lia.
Qed.

Lemma pool_returns workers started sched st : turns_enough workers started sched →
  ∃ b st', run_pool workers started sched st = Some (b, st').
Proof.
  intros He. unfold run_pool. cbv zeta. set (p := foldl _ _ _).
  assert (Hl : length (pl_workers p) = pool_size workers started) by (subst p; rewrite moves_workers; apply length_replicate).
  assert (Hf : pool_finished p = true); [|rewrite Hf; eauto].
  unfold pool_finished. apply forallb_Forall, Forall_lookup_2. intros t w Hw. apply bool_decide_eq_true.
  assert (Ht : t < pool_size workers started) by (rewrite <- Hl; by eapply lookup_lt_Some).
  destruct (worker_returns (pool_start workers started st) sched t) as [Hd|Hn]; [cbn; by rewrite length_replicate|fold p in Hd; congruence|].
  fold p in Hn. rewrite pool_start_left in Hn. specialize (He t Ht). destruct w; [| | | |done];
    (pose proof (sum_insert _ _ _ WDone Hw); unfold pool_left in Hn; cbn [weight] in *; lia).
Qed.

(** C31. The worker pool runs every job exactly once, on any number of threads and in any
    interleaving. It ends: no schedule lets live workers move more than
    [2 * threads + 5 * n] times. When it has ended, it answers [true] only if every
    index was taken by exactly one worker and every job returned true, and [false]
    only if some job failed. *)
Theorem pool_runs_each_job_once workers started st :
  (∀ sched, live (pool_start workers started st) sched → length sched ≤ 2 * pool_size workers started + 5 * n) ∧
  ∀ sched b st', run_pool workers started sched st = Some (b, st') →
  ∃ l, replay l st = Some st' ∧ Forall (λ x, x.1.2 ∈ sched.*2) l ∧ NoDup l.*1.*1 ∧ (∀ i, i ∈ l.*1.*1 → i < n) ∧
    if b then l.*1.*1 ≡ₚ seq 0 n ∧ Forall (λ x, x.2 = true) l else false ∈ l.*2.
Proof.
  split; [|by intros sched b st'; apply pool_outcome]. intros sched Hl. pose proof (live_length _ _ Hl) as H.
  rewrite pool_start_left in H. lia.
Qed.
End pool.
#[global] Arguments pool_start {_} _ _ _ _.
