(* ===== verification/Transfer.v ===== *)
(** * Transfer: whole files through the ring (transfer.h, transfer.cpp)

    [upload_file] cuts a file into chunks, stores them with a pool of workers and
    then stores the manifests; [download_file] reads the manifests, writes every
    chunk into a part file and renames it over the destination. Storing and
    fetching one chunk are state passing functions of the ring. What the
    operating system answers, the schedule of the workers and the file as each
    worker finds it are the [Env] arguments. Times, progress messages and the
    signal handler are not modelled. *)
From S2P Require Import Prelude Text Net Chord OrdMap Store Stabilize Chunk Manifest ManifestTree Pool.

Definition DEFAULT_CHUNK_SIZE : N := (512 * 1024)%N.
Definition DEFAULT_WORKERS : nat := 8.
(** [sizeof g_part_path]: the room the signal handler has for a part path. *)
Definition PART_PATH_ROOM : nat := 4096.
Definition MAX_WORKERS : nat := 64.

(** [first.set(why)]: the first failure is the one reported. *)
Definition first_failure (message why : bytes) : bytes := if bool_decide (message = []) then why else message.

(** What [pread_all] gives of [content]: all of it, or as much as there is. *)
Definition pread_all (content : bytes) (len : nat) (offset : N) : bytes := take len (drop (N.to_nat offset) content).

(** [data] written at [offset]; a hole is zeros. *)
Definition write_at (offset : nat) (data file : bytes) : bytes :=
  let file := file ++ replicate (offset - length file) NUL in
  take offset file ++ data ++ drop (offset + length data) file.

(** The loop over short writes: all of [data], or [wrote] bytes and then an error. *)
Definition pwrite_all (wrote : N) (data : bytes) (offset : N) (file : bytes) : bool * bytes :=
  if (N.of_nat (length data) <=? wrote)%N then (true, write_at (N.to_nat offset) data file)
  else (false, write_at (N.to_nat offset) (take (N.to_nat wrote) data) file).

Section transfer.
Context {SH : Sha1} {St : Type}.

Definition PutFn : Type := bytes → St → PutOutcome * St.

(** ** Upload *)
Section upload.
Variable put : PutFn.

Fixpoint put_attempts (body : bytes) (used more : nat) (stop : nat → bool) (σ : St) : PutOutcome * nat * St :=
  let '(p, σ) := put body σ in
  match more with
  | S more' => if po_ok p || stop used then (p, used, σ) else put_attempts body (S used) more' stop σ
  | 0 => (p, used, σ)
  end.

Record UploadJob := mkUploadJob {
  uj_content : bytes;            (* the file when this worker reads it *)
  uj_error : option bytes;       (* the error a read ended with *)
  uj_stop : nat → bool;          (* what the flag says after each failed attempt *)
  uj_throws : bool }.

Record UploadState := mkUploadState { us_ring : St; us_keys : list bytes; us_failure : bytes }.
#[export] Instance UploadState_eta : Eta UploadState := λ s, mkUploadState (us_ring s) (us_keys s) (us_failure s).

Definition fail_upload (s : UploadState) (why : bytes) : bool * UploadState :=
  (false, s <| us_failure := first_failure (us_failure s) why |>).

Definition chunk_job (path : bytes) (size chunk : N) (i : nat) (env : UploadJob) (s : UploadState) : bool * UploadState :=
  if uj_throws env then (false, s)
  else
    let offset := wrap64N (N.of_nat i * chunk) in
    let len := N.to_nat (N.min chunk (size - offset)) in
    match uj_error env with
    | Some why => fail_upload s (lit "reading chunk " ++ dec (N.of_nat i) ++ lit ": " ++ why)
    | None =>
        let body := pread_all (uj_content env) len offset in
        if negb (length body =? len) then fail_upload s (path ++ lit " shrank while it was being read")
        else
          let '(p, used, σ) := put_attempts body 1 (CHUNK_ATTEMPTS - 1) (uj_stop env) (us_ring s) in
          let s := s <| us_ring := σ |> in
          if negb (po_ok p) then fail_upload s (lit "chunk " ++ dec (N.of_nat i) ++ lit ": " ++ po_message p)
          else (true, s <| us_keys := <[i := po_key p]> (us_keys s) |>)
    end.

Definition manifest_job (blobs : list bytes) (i : nat) (env : UploadJob) (s : UploadState) : bool * UploadState :=
  if uj_throws env then (false, s)
  else
    let '(p, used, σ) := put_attempts (default [] (blobs !! i)) 1 (CHUNK_ATTEMPTS - 1) (uj_stop env) (us_ring s) in
    let s := s <| us_ring := σ |> in
    if po_ok p then (true, s)
    else fail_upload s (lit "manifest " ++ dec (N.of_nat (i + 1)) ++ lit " of " ++ dec (N.of_nat (length blobs)) ++
                        lit ": " ++ po_message p).

Record UploadOptions := mkUploadOptions { uo_workers : nat; uo_chunk : N; uo_fanout : nat }.

Record UploadEnv := mkUploadEnv {
  ue_open : option bytes;                 (* the error [open] ended with *)
  ue_before : option (N * Z);             (* a regular file's size and time; [None]: not one *)
  ue_after : option (N * Z);
  ue_started : nat; ue_sched : list (nat * UploadJob);
  ue_started2 : nat; ue_sched2 : list (nat * UploadJob) }.

Record UploadOutcome := mkUploadOutcome {
  up_ok : bool; up_message : bytes; up_root_key : bytes; up_size : N; up_chunks : nat; up_manifests : nat; up_depth : nat }.
#[export] Instance UploadOutcome_eta : Eta UploadOutcome := λ o,
  mkUploadOutcome (up_ok o) (up_message o) (up_root_key o) (up_size o) (up_chunks o) (up_manifests o) (up_depth o).
Definition no_upload : UploadOutcome := mkUploadOutcome false [] [] 0 0 0 0.

Definition worker_failed (message : bytes) : bytes := if bool_decide (message = []) then lit "a worker failed" else message.

Definition chunk_entries (keys : list bytes) (size chunk : N) : list ManifestEntry :=
  imap (λ i key, mkManifestEntry key (N.min chunk (size - wrap64N (N.of_nat i * chunk)))) keys.

(** The manifests, once every chunk is stored. *)
Definition upload_manifests (opt : UploadOptions) (env : UploadEnv) (out : UploadOutcome) (s : UploadState) (size : N)
    : option (UploadOutcome * St) :=
  tree ← build_manifests (chunk_entries (us_keys s) size (uo_chunk opt)) size (uo_chunk opt) (uo_fanout opt);
  if MAX_MANIFEST_DEPTH <? mt_depth tree
  then Some (out <| up_message := lit "at a fan-out of " ++ dec (N.of_nat (uo_fanout opt)) ++ lit " this file needs " ++
               dec (N.of_nat (mt_depth tree)) ++ lit " levels of manifests; a reader accepts " ++
               dec (N.of_nat MAX_MANIFEST_DEPTH) |>, us_ring s)
  else
    '(ok, s) ← run_pool (length (mt_blobs tree)) (manifest_job (mt_blobs tree)) (uo_workers opt) (ue_started2 env)
                 (ue_sched2 env) s;
    if negb ok then Some (out <| up_message := worker_failed (us_failure s) |>, us_ring s)
    else Some (out <| up_ok := true |> <| up_root_key := mt_root_key tree |>
                   <| up_manifests := length (mt_blobs tree) |> <| up_depth := mt_depth tree |>, us_ring s).

(** [None]: a schedule ends before its pool does. *)
Definition upload_file (path : bytes) (opt : UploadOptions) (env : UploadEnv) (σ : St) : option (UploadOutcome * St) :=
  let refuse why := Some (no_upload <| up_message := why |>, σ) in
  if (uo_workers opt <? 1) || (MAX_WORKERS <? uo_workers opt)
  then refuse (lit "workers must be 1 to " ++ dec (N.of_nat MAX_WORKERS))
  else if (uo_chunk opt <? 1)%N || (MAX_CHUNK <? uo_chunk opt)%N
  then refuse (lit "the chunk size must be 1 to " ++ dec MAX_CHUNK)
  else if (uo_fanout opt <? 2) || (MANIFEST_FANOUT <? uo_fanout opt)
  then refuse (lit "the fan-out must be 2 to " ++ dec (N.of_nat MANIFEST_FANOUT))
  else match ue_open env with
  | Some why => refuse (lit "cannot open " ++ path ++ lit ": " ++ why)
  | None =>
  match ue_before env with
  | None => refuse (path ++ lit " is not a regular file")
  | Some (size, mtime) =>
    let chunk := uo_chunk opt in
    let n := N.to_nat (wrap64N (size + chunk - 1) / chunk) in
    let out := no_upload <| up_size := size |> <| up_chunks := n |> in
    '(chunks_ok, s) ← run_pool n (chunk_job path size chunk) (uo_workers opt) (ue_started env) (ue_sched env)
                        (mkUploadState σ (replicate n []) []);
    if negb chunks_ok then Some (out <| up_message := worker_failed (us_failure s) |>, us_ring s)
    else if negb (bool_decide (ue_after env = Some (size, mtime)))
    then Some (out <| up_message := path ++ lit " changed while it was being read" |>, us_ring s)
    else upload_manifests opt env out s size
  end end.
End upload.

(** ** Download *)
Section download.
Variable get : GetFn St.

Record DownloadJob := mkDownloadJob {
  dj_stop : nat → bool; dj_wrote : N; dj_error : bytes; dj_throws : bool }.

Record DownloadState := mkDownloadState { ds_ring : St; ds_part : bytes; ds_failure : bytes }.
#[export] Instance DownloadState_eta : Eta DownloadState := λ s, mkDownloadState (ds_ring s) (ds_part s) (ds_failure s).

Definition fail_download (s : DownloadState) (why : bytes) : bool * DownloadState :=
  (false, s <| ds_failure := first_failure (ds_failure s) why |>).

Definition fetch_job (chunks : list ChunkRef) (i : nat) (env : DownloadJob) (s : DownloadState) : bool * DownloadState :=
  if dj_throws env then (false, s)
  else match chunks !! i with
  | None => (false, s)
  | Some c =>
      let '(g, used, σ) := get_attempts get (cr_key c) 1 (CHUNK_ATTEMPTS - 1) (dj_stop env) (ds_ring s) in
      let s := s <| ds_ring := σ |> in
      if negb (go_ok g)
      then fail_download s (lit "chunk " ++ dec (N.of_nat i) ++ lit " (" ++ cr_key c ++ lit "): " ++ go_message g)
      else if negb (N.of_nat (length (go_body g)) =? cr_bytes c)%N
      then fail_download s (lit "chunk " ++ dec (N.of_nat i) ++ lit " is " ++ dec (N.of_nat (length (go_body g))) ++
                            lit " bytes; the manifest says " ++ dec (cr_bytes c))
      else
        let '(ok, part) := pwrite_all (dj_wrote env) (go_body g) (cr_offset c) (ds_part s) in
        let s := s <| ds_part := part |> in
        if ok then (true, s) else fail_download s (lit "writing chunk " ++ dec (N.of_nat i) ++ lit ": " ++ dj_error env)
  end.

(** Each [option bytes]: the error the call ended with, if it did. *)
Record DownloadEnv := mkDownloadEnv {
  de_signals : bool;   (* [for_signals]: Ctrl-C is to remove the part file *)
  de_dir : bool; de_pid : N; de_counter : N;
  de_create : option bytes; de_truncate : option bytes; de_flush : option bytes; de_close : option bytes;
  de_rename : option bytes;
  de_started : nat; de_sched : list (nat * DownloadJob) }.

Record DownloadOutcome := mkDownloadOutcome {
  dn_ok : bool; dn_message : bytes; dn_size : N; dn_chunks : nat; dn_manifests : nat; dn_depth : nat }.
#[export] Instance DownloadOutcome_eta : Eta DownloadOutcome := λ o,
  mkDownloadOutcome (dn_ok o) (dn_message o) (dn_size o) (dn_chunks o) (dn_manifests o) (dn_depth o).
Definition no_download : DownloadOutcome := mkDownloadOutcome false [] 0 0 0 0.

Definition part_path (dest : bytes) (env : DownloadEnv) : bytes :=
  dest ++ lit ".part-" ++ dec (de_pid env) ++ lit "-" ++ dec (de_counter env).

(** [O_EXCL]: a file that is already there is an error too. *)
Definition create_part (part : bytes) (env : DownloadEnv) (disk : list (bytes * bytes)) : option bytes :=
  match de_create env with
  | Some why => Some why
  | None => if bool_decide (om_find part disk = None) then None else Some (lit "File exists")
  end.

(** The handler cannot keep this path. *)
Definition part_too_long (part : bytes) (env : DownloadEnv) : bool := de_signals env && (PART_PATH_ROOM <=? length part).

(** From the part file on. [Disk]: contents by path, the part file's among them. *)
Definition fetch_file (dest : bytes) (workers : nat) (env : DownloadEnv) (r : Resolved) (out : DownloadOutcome)
    (disk : list (bytes * bytes)) (σ : St) : option (DownloadOutcome * list (bytes * bytes) * St) :=
  let part := part_path dest env in
  let abandon why σ := Some (out <| dn_message := why |>, om_erase part disk, σ) in
  if part_too_long part env then Some (out <| dn_message := lit "the destination path is too long" |>, disk, σ)
  else match create_part part env disk with
  | Some why => abandon (lit "cannot create " ++ part ++ lit ": " ++ why) σ
  | None =>
  match de_truncate env with
  | Some why => abandon (lit "cannot size " ++ part ++ lit ": " ++ why) σ
  | None =>
  '(ok, s) ← run_pool (length (rs_chunks r)) (fetch_job (rs_chunks r)) workers (de_started env) (de_sched env)
               (mkDownloadState σ (replicate (N.to_nat (rs_size r)) NUL) []);
  if negb ok then abandon (worker_failed (ds_failure s)) (ds_ring s)
  else match de_flush env with
  | Some why => abandon (lit "cannot flush " ++ part ++ lit ": " ++ why) (ds_ring s)
  | None =>
  match de_close env with
  | Some why => abandon (lit "cannot close " ++ part ++ lit ": " ++ why) (ds_ring s)
  | None =>
  match de_rename env with
  | Some why => abandon (lit "cannot rename " ++ part ++ lit " to " ++ dest ++ lit ": " ++ why) (ds_ring s)
  | None => Some (out <| dn_ok := true |>, om_set dest (ds_part s) (om_erase part disk), ds_ring s)
  end end end end end.

Definition download_file (root_key dest : bytes) (workers : nat) (env : DownloadEnv) (disk : list (bytes * bytes)) (σ : St)
    : option (DownloadOutcome * list (bytes * bytes) * St) :=
  if (workers <? 1) || (MAX_WORKERS <? workers)
  then Some (no_download <| dn_message := lit "workers must be 1 to " ++ dec (N.of_nat MAX_WORKERS) |>, disk, σ)
  else if de_dir env then Some (no_download <| dn_message := dest ++ lit " is a directory" |>, disk, σ)
  else
    '(r, σ) ← resolve_manifest get root_key CHUNK_ATTEMPTS σ;
    if negb (rs_ok r) then Some (no_download <| dn_message := rs_message r |>, disk, σ)
    else fetch_file dest workers env r
           (mkDownloadOutcome false [] (rs_size r) (length (rs_chunks r)) (rs_manifests r) (rs_depth r)) disk σ.
End download.
End transfer.
#[global] Arguments PutFn : clear implicits.
