(* ===== verification/TransferSpec.v ===== *)
(** * TransferSpec: what a transfer delivers

    The claims about [upload_file] and [download_file] of transfer.cpp: a finished
    download is the file its manifests describe, a failed one changes nothing, and
    downloading what was uploaded gives the file back, however the workers of
    either side are scheduled. *)
From S2P Require Import Prelude Text Net Chord OrdMap Store Stabilize Chunk Manifest ManifestTree Pool Transfer.

(** ** Pieces of a file *)

Definition piece (file : bytes) (x : N * N) : bytes := take (N.to_nat x.2) (drop (N.to_nat x.1) file).

Lemma piece_lookup file x k : piece file x !! k = if decide (k < N.to_nat x.2) then file !! (N.to_nat x.1 + k) else None.
Proof.
  unfold piece. case_decide.
  - by rewrite lookup_take_lt, lookup_drop by lia.
  - by rewrite lookup_take_ge by lia.
Qed.

Lemma piece_length file x : (x.1 + x.2 <= N.of_nat (length file))%N → length (piece file x) = N.to_nat x.2.
Proof. intros H. unfold piece. rewrite length_take, length_drop. lia. Qed.

Lemma write_at_length o data file : o + length data ≤ length file → length (write_at o data file) = length file.
Proof.
  intros H. unfold write_at. rewrite (proj2 (Nat.sub_0_le o (length file))) by lia. cbn [replicate].
  rewrite app_nil_r, !length_app, length_take, length_drop. lia.
Qed.

Lemma write_at_lookup o data file k : o + length data ≤ length file →
  write_at o data file !! k = if decide (o ≤ k < o + length data) then data !! (k - o) else file !! k.
Proof.
  intros H. unfold write_at. rewrite (proj2 (Nat.sub_0_le o (length file))) by lia. cbn [replicate]. rewrite app_nil_r.
  assert (Hl : length (take o file) = o) by (rewrite length_take; lia). destruct (decide (k < o)).
  - rewrite lookup_app_l by lia. rewrite lookup_take_lt by lia. rewrite decide_False by lia. done.
  - rewrite lookup_app_r by lia. rewrite Hl. destruct (decide (k < o + length data)).
    + rewrite lookup_app_l by lia. by rewrite decide_True by lia.
    + rewrite lookup_app_r by lia. rewrite lookup_drop, decide_False by lia. f_equal. lia.
Qed.

Definition apart_spans (x y : N * N) : Prop := (x.1 + x.2 <= y.1)%N ∨ (y.1 + y.2 <= x.1)%N.

Lemma piece_write_other o data file x : o + length data ≤ length file → (x.1 + x.2 <= N.of_nat (length file))%N →
  apart_spans (N.of_nat o, N.of_nat (length data)) x → piece (write_at o data file) x = piece file x.
Proof.
  intros H Hx Ha. apply list_eq. intros k. rewrite !piece_lookup. case_decide; [|done]. rewrite write_at_lookup by done.
  unfold apart_spans in Ha. cbn in Ha. rewrite decide_False by lia. done.
Qed.

Lemma piece_write_same o data file : o + length data ≤ length file →
  piece (write_at o data file) (N.of_nat o, N.of_nat (length data)) = data.
Proof.
  intros H. apply list_eq. intros k. rewrite piece_lookup. cbn [fst snd]. rewrite !Nat2N.id. case_decide.
  - rewrite write_at_lookup by done. rewrite decide_True by lia. f_equal. lia.
  - symmetry. apply lookup_ge_None. lia.
Qed.

(** ** Spans that tile are apart *)

Fixpoint pairwise {A} (R : A → A → Prop) (l : list A) : Prop :=
  match l with [] => True | x :: l => Forall (R x) l ∧ pairwise R l end.

Lemma pairwise_perm {A} (R : A → A → Prop) l l' : (∀ x y, R x y → R y x) → l ≡ₚ l' → pairwise R l → pairwise R l'.
Proof.
  intros Hsym. intros Hp. induction Hp as [|x l l' Hp IH|x y l|l l' l'' H1 IH1 H2 IH2]; cbn; [done| | |auto].
  - intros [Hx Hl]. split; [by rewrite <- Hp|auto].
  - intros [[Hyx Hy]%Forall_cons [Hx Hl]]. split_and!; [constructor; auto|done|done].
Qed.

Lemma pairwise_lookup {A} (R : A → A → Prop) l i j x y : (∀ x y, R x y → R y x) → pairwise R l →
  l !! i = Some x → l !! j = Some y → i ≠ j → R x y.
Proof.
  intros Hsym. revert i j. induction l as [|z l IH]; intros i j Hp Hi Hj Hne; [done|]. destruct Hp as [Hz Hl].
  rewrite Forall_forall in Hz. destruct i as [|i], j as [|j]; cbn in *; simplify_eq.
  - apply Hz. by eapply list_elem_of_lookup_2.
  - apply Hsym, Hz. by eapply list_elem_of_lookup_2.
  - eapply IH; [done..|]. congruence.
Qed.

Lemma contiguous_pairwise a l b : contiguous a l b → pairwise apart_spans l.
Proof.
  revert a. induction l as [|[o n] l IH]; intros a; cbn; [done|]. intros [-> Hc]. split; [|by eapply IH].
  apply Forall_forall. intros y Hy. left. cbn. assert (tiles (a + n) l b) as Ht by (by exists l). destruct y as [o' n'].
  by apply (tiles_bound _ _ _ _ _ Ht Hy).
Qed.

Lemma apart_sym x y : apart_spans x y → apart_spans y x.
Proof. unfold apart_spans. tauto. Qed.

Lemma tiles_apart a l b i j x y : tiles a l b → l !! i = Some x → l !! j = Some y → i ≠ j → apart_spans x y.
Proof.
  intros (l' & Hp & Hc). apply pairwise_lookup; [apply apart_sym|].
  eapply pairwise_perm; [apply apart_sym|by symmetry|by eapply contiguous_pairwise].
Qed.

(** A file is its pieces, one after the other. *)
Lemma contiguous_pieces file a l b : contiguous a l b → (b <= N.of_nat (length file))%N →
  piece file (a, b - a)%N = concat (piece file <$> l).
Proof.
  revert a. induction l as [|[o n] l IH]; intros a; cbn [contiguous fmap list_fmap concat].
  { intros <- _. unfold piece. cbn. by rewrite N.sub_diag. }
  intros [-> Hc] Hb. pose proof (contiguous_le _ _ _ Hc) as Hle. rewrite <- (IH _ Hc Hb). unfold piece. cbn [fst snd].
  replace (N.to_nat (b - a)) with (N.to_nat n + N.to_nat (b - (a + n))) by lia.
  rewrite N2Nat.inj_add, <- drop_drop. symmetry. apply take_take_drop.
Qed.

(** ** Download *)
Section download.
Context {SH : Sha1} {St : Type} (get : GetFn St) (I : St → Prop) (Hkeep : reads_keep get I).
(** What is known of the bytes a read of a chunk returns. *)
Context (chunks : list ChunkRef) (P : ChunkRef → bytes → Prop).
Context (Hget : ∀ c, c ∈ chunks → ∀ σ, I σ → go_ok (get (cr_key c) σ).1 = true → P c (go_body (get (cr_key c) σ).1)).

Lemma get_attempts_body c used more stop σ : c ∈ chunks → I σ →
  let g := (get_attempts get (cr_key c) used more stop σ).1.1 in go_ok g = true → P c (go_body g).
Proof using Hkeep Hget.
  intros Hc. revert used σ. induction more as [|more IH]; intros used σ Hi; cbn [get_attempts];
    specialize (Hget c Hc σ Hi); pose proof (Hkeep (cr_key c) σ Hi) as Hi1;
    destruct (get (cr_key c) σ) as [g σ1]; cbn [fst snd] in *; [done|].
  destruct (go_ok g || stop used); [done|]. by apply IH.
Qed.

Context (size : N) (Htiles : tiles 0 (ref_span <$> chunks) size).

(** The chunks of [done] have been written. *)
Record written (done : list nat) (s : DownloadState) : Prop := {
  wr_ring : I (ds_ring s);
  wr_length : length (ds_part s) = N.to_nat size;
  wr_pieces : ∀ i c, i ∈ done → chunks !! i = Some c → P c (piece (ds_part s) (ref_span c));
}.

Lemma ref_bound i c : chunks !! i = Some c → (cr_offset c + cr_bytes c <= size)%N.
Proof using Htiles.
  intros Hc. apply (tiles_bound _ _ _ (cr_offset c) (cr_bytes c) Htiles). apply list_elem_of_fmap. exists c. split; [done|].
  by eapply list_elem_of_lookup_2.
Qed.

Lemma fetch_job_written done i env s b s' : written done s → i ∉ done → fetch_job get chunks i env s = (b, s') →
  I (ds_ring s') ∧ (b = true → written (i :: done) s').
Proof using Hkeep Hget Htiles.
  intros [Hi Hlen Hp] Hnew. unfold fetch_job. destruct (dj_throws env); [by intros [= <- <-]|].
  destruct (chunks !! i) as [c|] eqn:Ec; [|by intros [= <- <-]].
  pose proof (get_attempts_body c 1 (CHUNK_ATTEMPTS - 1) (dj_stop env) (ds_ring s) ltac:(by eapply list_elem_of_lookup_2) Hi) as Hb.
  pose proof (get_attempts_keep get I Hkeep (cr_key c) 1 (CHUNK_ATTEMPTS - 1) (dj_stop env) (ds_ring s) Hi) as Hi'.
  destruct (get_attempts get _ _ _ _ _) as [[g used] σ']. cbn [fst snd] in *. unfold fail_download.
  destruct (go_ok g); cbn [negb]; [|by intros [= <- <-]]. specialize (Hb eq_refl).
  destruct (N.eqb_spec (N.of_nat (length (go_body g))) (cr_bytes c)) as [Hl|]; cbn [negb]; [|by intros [= <- <-]].
  unfold pwrite_all. upd. destruct (N.of_nat (length (go_body g)) <=? dj_wrote env)%N; [|by intros [= <- <-]].
  intros [= <- <-]. upd. split; [done|]. intros _. pose proof (ref_bound i c Ec) as Hbd.
  assert (Hw : N.to_nat (cr_offset c) + length (go_body g) ≤ length (ds_part s)) by lia. split; upd; [done|by rewrite write_at_length|].
  intros j d [->|Hj]%elem_of_cons Hd.
  - simplify_eq. replace (ref_span c) with (N.of_nat (N.to_nat (cr_offset c)), N.of_nat (length (go_body g)))
      by (by rewrite Hl, N2Nat.id). by rewrite piece_write_same.
  - rewrite piece_write_other; [by apply (Hp j)|done| |].
    + pose proof (ref_bound j d Hd). unfold ref_span. cbn. lia.
    + rewrite N2Nat.id, Hl. eapply (tiles_apart _ _ _ i j); [exact Htiles|by rewrite list_lookup_fmap, Ec|by rewrite list_lookup_fmap, Hd|].
      intros ->. done.
Qed.

(** Every chunk is written, whatever the schedule. *)
Lemma pool_written workers started sched σ s : I σ →
  run_pool (length chunks) (fetch_job get chunks) workers started sched
    (mkDownloadState σ (replicate (N.to_nat size) NUL) []) = Some (true, s) →
  I (ds_ring s) ∧ length (ds_part s) = N.to_nat size ∧ ∀ c, c ∈ chunks → P c (piece (ds_part s) (ref_span c)).
Proof using Hkeep Hget Htiles.
  intros Hi Hr. eapply (pool_rule _ _ written (λ _, True)) in Hr as (D & [H1 H2 H3] & Hd).
  2:{ intros D i e st st' H1 H2 _ _ E. by apply (fetch_job_written D i e st true st' H1 H2 E). }
  2:{ by apply Forall_forall. }
  2:{ split; cbn; [done|apply length_replicate|by intros ?? ?%elem_of_nil]. }
  split_and!; [done|done|]. intros c Hc. apply list_elem_of_lookup_1 in Hc as [i Hi']. apply (H3 i); [|done].
  apply Hd. by eapply lookup_lt_Some.
Qed.
End download.

Lemma part_path_not_dest dest env : dest ≠ part_path dest env.
Proof. intros E%(f_equal length). unfold part_path in E. rewrite length_app in E. cbn in E. lia. Qed.

Lemma fetch_file_cases {St} (get : GetFn St) dest workers env r out disk σ o disk' σ' :
  fetch_file get dest workers env r out disk σ = Some (o, disk', σ') → dn_ok out = false →
  let part := part_path dest env in
  (dn_ok o = false ∧ (disk' = disk ∨ disk' = om_erase part disk)) ∨
  (dn_ok o = true ∧ dn_size o = dn_size out ∧ ∃ s, disk' = om_set dest (ds_part s) (om_erase part disk) ∧
     run_pool (length (rs_chunks r)) (fetch_job get (rs_chunks r)) workers (de_started env) (de_sched env)
       (mkDownloadState σ (replicate (N.to_nat (rs_size r)) NUL) []) = Some (true, s)).
Proof.
  intros H Hout part. unfold fetch_file in H. cbv zeta in H. fold part in H.
  destruct (part_too_long part env); [left; simplify_eq; auto|].
  destruct (create_part part env disk); [left; simplify_eq; auto|]. destruct (de_truncate env); [left; simplify_eq; auto|].
  destruct (run_pool _ _ _ _ _ _) as [[[] s]|]; cbn [mbind option_bind negb] in H; [|left; simplify_eq; auto|done].
  destruct (de_flush env); [left; simplify_eq; auto|]. destruct (de_close env); [left; simplify_eq; auto|].
  destruct (de_rename env); [left; simplify_eq; auto|]. simplify_eq. right. upd. split_and!; [done|done|]. by exists s.
Qed.

(** C30. A download delivers the file its manifests describe, or leaves things as they were.
    With reads that never return bytes of another digest, whatever the ring, the
    operating system and the schedule of the workers do: a finished download has put
    at the destination a file of the size the manifests state, in which every chunk's
    place holds bytes whose digest is the chunk's key; a failed one leaves the
    destination untouched, and either every file as it was, or no file at its part
    path. The part path - the destination with the process number and a counter - is
    the one place where a file of another may be lost: whatever is there when the
    download gives up is removed, its own or not ([clash_removes_other_part]). Every
    file that is neither there nor at the destination stays as it was. *)
Theorem download_delivers {SH : Sha1} {St} (get : GetFn St) root dest workers env disk σ o disk' σ' :
  (∀ key σ, go_ok (get key σ).1 = true → chunk_key (go_body (get key σ).1) = key) →
  download_file get root dest workers env disk σ = Some (o, disk', σ') →
  (∀ path, path ≠ dest → path ≠ part_path dest env → om_find path disk' = om_find path disk) ∧
  (dn_ok o = false → om_find dest disk' = om_find dest disk ∧ (disk' = disk ∨ om_find (part_path dest env) disk' = None)) ∧
  (dn_ok o = true → om_find (part_path dest env) disk' = None ∧
     ∃ r σ1 file, resolve_manifest get root CHUNK_ATTEMPTS σ = Some (r, σ1) ∧ rs_ok r = true ∧
       om_find dest disk' = Some file ∧ N.of_nat (length file) = rs_size r ∧ dn_size o = rs_size r ∧
       ∀ c, c ∈ rs_chunks r → chunk_key (piece file (ref_span c)) = cr_key c).
Proof.
  intros Hget. unfold download_file. destruct (_ || _); [intros [= <- <- <-]; split_and!; [done|by auto|done]|]. destruct (de_dir env); [intros [= <- <- <-]; split_and!; [done|by auto|done]|].
  destruct (resolve_tiles get root CHUNK_ATTEMPTS σ) as (r & σ1 & Er & Hr). rewrite Er. cbn [mbind option_bind].
  destruct (rs_ok r) eqn:Hok; cbn [negb]; [|intros [= <- <- <-]; split_and!; [done|by auto|done]]. destruct (Hr eq_refl) as (Ht & _).
  intros [[Ho [->| ->]]|(Ho & Hsz & s & -> & Hrun)]%fetch_file_cases; [| | |done].
  - split_and!; [done|by auto|congruence].
  - split_and!; [|intros _|congruence].
    + intros path _ Hp. by rewrite om_find_erase, decide_False.
    + rewrite !om_find_erase, decide_False, decide_True by (done || apply part_path_not_dest). by auto.
  - destruct (pool_written get (λ _, True) ltac:(done) (rs_chunks r) (λ c b, chunk_key b = cr_key c)
      ltac:(intros c _ σ0 _; apply Hget) (rs_size r) Ht _ _ _ _ _ ltac:(done) Hrun) as (_ & Hl & Hp).
    split_and!; [|congruence|intros _].
    + intros path Hd Hp'. by rewrite om_find_set, decide_False, om_find_erase, decide_False by done.
    + split.
      * rewrite om_find_set, decide_False by (intros E; by eapply part_path_not_dest). by rewrite om_find_erase, decide_True.
      * exists r, σ1, (ds_part s). rewrite om_find_set, decide_True by done. split_and!; try done. lia.
Qed.

(** A download that cannot create its part file because one of that name exists - left
    by another process that had the same process number - removes that file: the
    [O_EXCL] that protects it from being opened does not protect it from the clean-up. *)
Theorem clash_removes_other_part {St} (get : GetFn St) root dest workers env disk σ o disk' σ' r σ1 other :
  1 ≤ workers ≤ MAX_WORKERS → de_dir env = false → part_too_long (part_path dest env) env = false →
  resolve_manifest get root CHUNK_ATTEMPTS σ = Some (r, σ1) → rs_ok r = true →
  om_find (part_path dest env) disk = Some other →
  download_file get root dest workers env disk σ = Some (o, disk', σ') →
  dn_ok o = false ∧ om_find (part_path dest env) disk' = None.
Proof.
  intros Hw Hd Hlong Er Hok Hp. unfold download_file. destruct (Nat.ltb_spec workers 1); [lia|].
  destruct (Nat.ltb_spec MAX_WORKERS workers); [lia|]. cbn [orb]. rewrite Hd, Er. cbn [mbind option_bind]. rewrite Hok. cbn [negb].
  unfold fetch_file, create_part. rewrite bool_decide_false by congruence. cbv zeta. rewrite Hlong.
  destruct (de_create env); intros [= <- <- <-]; upd; (split; [done|]); by rewrite om_find_erase, decide_True.
Qed.

(** ** Cutting a file *)
Section cutting.
Context {SH : Sha1} {SHok : Sha1Ok SH} (size chunk : N).
Context (Hc : (1 <= chunk <= MAX_CHUNK)%N) (Hu : (size < 2 ^ 63)%N).

Definition chunk_span (i : nat) : N * N := (N.of_nat i * chunk, N.min chunk (size - N.of_nat i * chunk))%N.
Definition chunk_count : nat := N.to_nat (wrap64N (size + chunk - 1) / chunk).

Lemma chunk_count_lt i : i < chunk_count ↔ (N.of_nat i * chunk < size)%N.
Proof using Hc Hu.
  unfold chunk_count, wrap64N. rewrite N.mod_small by (unfold MAX_CHUNK, W64N in *; lia).
  pose proof (N.div_mod (size + chunk - 1) chunk ltac:(lia)) as Hd. pose proof (N.mod_lt (size + chunk - 1) chunk ltac:(lia)) as Hm.
  set (q := ((size + chunk - 1) / chunk)%N) in *. set (m := ((size + chunk - 1) mod chunk)%N) in *. clearbody q m. split; intros H; nia.
Qed.

Lemma chunk_offset i : i < chunk_count → wrap64N (N.of_nat i * chunk) = (N.of_nat i * chunk)%N.
Proof using Hc Hu. intros Hi%chunk_count_lt. unfold wrap64N. apply N.mod_small. unfold W64N. lia. Qed.

Lemma chunk_inner i : S i < chunk_count → (chunk_span i).2 = chunk.
Proof using Hc Hu. intros Hi%chunk_count_lt. cbn. lia. Qed.

Context (key : nat → bytes) (Hkey : ∀ i, valid_key (key i) = true).
Definition chunk_entry (i : nat) : ManifestEntry := mkManifestEntry (key i) (chunk_span i).2.
Definition file_entries : list ManifestEntry := chunk_entry <$> seq 0 chunk_count.

Lemma entries_from k m : k + m = chunk_count →
  let es := chunk_entry <$> seq k m in
  bytes_of es = (size - N.of_nat k * chunk)%N ∧ shaped Data chunk es ∧
  at_offsets (N.of_nat k * chunk) es = (λ i, (chunk_entry i, N.of_nat i * chunk)%N) <$> seq k m.
Proof using Hc Hu.
  clear Hkey. revert k. induction m as [|m IH]; intros k Hk; cbn [seq fmap list_fmap bytes_of shaped at_offsets].
  { split_and!; [|done|done]. pose proof (chunk_count_lt k). destruct (N.lt_ge_cases (N.of_nat k * chunk) size); [|lia].
    assert (k < chunk_count) by tauto. lia. }
  assert (Hkc : k < chunk_count) by lia. pose proof (proj1 (chunk_count_lt k) Hkc) as Hlt.
  destruct m as [|m].
  - cbn [seq fmap list_fmap bytes_of shaped at_offsets]. assert (Hge : ¬ S k < chunk_count) by lia. rewrite chunk_count_lt in Hge.
    split_and!; [cbn; lia| |done|done]. rewrite bool_decide_true by done. cbn. apply andb_true_iff. rewrite !N.leb_le. lia.
  - destruct (IH (S k) ltac:(lia)) as (I1 & I2 & I3). cbv zeta in *.
    pose proof (chunk_inner k ltac:(lia)) as Hin. assert (Hlt' : S k < chunk_count) by lia. apply chunk_count_lt in Hlt'.
    split_and!.
    + rewrite I1. cbn. lia.
    + rewrite bool_decide_false by done. cbn [chunk_entry me_bytes]. rewrite Hin. cbn. apply N.eqb_refl.
    + done.
    + f_equal. cbn [chunk_entry me_bytes]. rewrite Hin. rewrite <- I3. f_equal. unfold wrap64N, W64N. rewrite N.mod_small; lia.
Qed.

Lemma file_entries_level : level_ok size chunk Data file_entries.
Proof using Hc Hu Hkey.
  destruct (entries_from 0 chunk_count eq_refl) as (H1 & H2 & _). cbv zeta in *.
  split; [unfold file_entries; rewrite H1; cbn; lia|unfold W64N; lia|done| |done|done].
  apply Forall_fmap, Forall_forall. intros i _. apply Hkey.
Qed.

Lemma file_entries_refs : chunk_ref <$> at_offsets 0 file_entries =
  (λ i, mkChunkRef (key i) (chunk_span i).1 (chunk_span i).2) <$> seq 0 chunk_count.
Proof using Hc Hu.
  destruct (entries_from 0 chunk_count eq_refl) as (_ & _ & H3). cbv zeta in *.
  change (N.of_nat 0 * chunk)%N with 0%N in H3. unfold file_entries. rewrite H3, <- list_fmap_compose. done.
Qed.
End cutting.

(** ** Upload *)
Section upload.
Context {SH : Sha1} {SHok : Sha1Ok SH} {St : Type} (put : PutFn St) (stored : bytes → St → Prop).

(** What a ring promises of one write: acknowledged bytes are stored under their
    digest, and nothing stored before is lost. *)
Definition put_stores : Prop := ∀ b σ,
  (po_ok (put b σ).1 = true → po_key (put b σ).1 = chunk_key b ∧ stored b (put b σ).2) ∧
  ∀ b', stored b' σ → stored b' (put b σ).2.
Context (Hput : put_stores).

Lemma put_attempts_stores b used more stop σ :
  let '(p, _, σ') := put_attempts put b used more stop σ in
  (po_ok p = true → po_key p = chunk_key b ∧ stored b σ') ∧ ∀ b', stored b' σ → stored b' σ'.
Proof using Hput.
  revert used σ. induction more as [|more IH]; intros used σ; cbn [put_attempts]; destruct (Hput b σ) as [H1 H2];
    destruct (put b σ) as [p σ1]; cbn [fst snd] in *; [done|]. destruct (po_ok p || stop used); [done|].
  specialize (IH (S used) σ1). destruct (put_attempts put b (S used) more stop σ1) as [[p' u'] σ']. naive_solver.
Qed.

Context (file path : bytes) (chunk : N).
Let size := N.of_nat (length file).
Let body i := piece file (chunk_span size chunk i).
Context (Hc : (1 <= chunk <= MAX_CHUNK)%N) (Hu : (size < 2 ^ 63)%N).

Record sent (done : list nat) (s : UploadState) : Prop := {
  se_length : length (us_keys s) = chunk_count size chunk;
  se_chunks : ∀ i, i ∈ done → us_keys s !! i = Some (chunk_key (body i)) ∧ stored (body i) (us_ring s);
}.

Lemma chunk_job_sent D i env s s' : sent D s → i ∉ D → i < chunk_count size chunk → uj_content env = file →
  chunk_job put path size chunk i env s = (true, s') → sent (i :: D) s'.
Proof using Hput Hc Hu.
  intros [Hl Hs] Hni Hi He. unfold chunk_job. destruct (uj_throws env); [done|]. rewrite (chunk_offset size chunk Hc Hu i Hi), He. cbv zeta.
  destruct (uj_error env); [done|]. destruct (negb _); [done|]. change (pread_all file _ _) with (body i).
  pose proof (put_attempts_stores (body i) 1 (CHUNK_ATTEMPTS - 1) (uj_stop env) (us_ring s)) as Hp.
  destruct (put_attempts put (body i) _ _ _ _) as [[p used] σ']. destruct Hp as [Hp1 Hp2].
  destruct (po_ok p); cbn [negb]; [|done]. destruct (Hp1 eq_refl) as [Ek Hst]. intros [= <-]. split; upd.
  - by rewrite length_insert.
  - intros j [->|Hj]%elem_of_cons.
    + rewrite list_lookup_insert_eq by lia. by rewrite Ek.
    + destruct (Hs j Hj) as [E1 E2]. rewrite list_lookup_insert_ne by congruence. split; [done|by apply Hp2].
Qed.

Lemma sent_all D s : sent D s → (∀ i, i < chunk_count size chunk → i ∈ D) →
  us_keys s = (λ i, chunk_key (body i)) <$> seq 0 (chunk_count size chunk).
Proof.
  intros [Hl Hs] Hall. apply list_eq. intros i. destruct (decide (i < chunk_count size chunk)) as [Hi|Hi].
  - rewrite list_lookup_fmap, lookup_seq_lt by done. cbn. by destruct (Hs i (Hall i Hi)) as [-> _].
  - rewrite !(proj2 (lookup_ge_None _ _)); [done|rewrite length_fmap, length_seq; lia|lia].
Qed.

Lemma sent_entries : chunk_entries ((λ i, chunk_key (body i)) <$> seq 0 (chunk_count size chunk)) size chunk =
  file_entries size chunk (λ i, chunk_key (body i)).
Proof using Hc Hu.
  unfold chunk_entries, file_entries. apply list_eq. intros i. rewrite list_lookup_imap, !list_lookup_fmap.
  destruct (decide (i < chunk_count size chunk)) as [Hi|Hi].
  - rewrite lookup_seq_lt by done. cbn. by rewrite (chunk_offset size chunk Hc Hu i Hi).
  - rewrite (proj2 (lookup_ge_None _ _)); [done|rewrite length_seq; lia].
Qed.

Lemma manifest_job_sent blobs D i env s s' :
  (∀ j, j ∈ D → stored (default [] (blobs !! j)) (us_ring s)) →
  manifest_job put blobs i env s = (true, s') →
  (∀ j, j ∈ i :: D → stored (default [] (blobs !! j)) (us_ring s')) ∧ ∀ b, stored b (us_ring s) → stored b (us_ring s').
Proof using Hput.
  intros Hs. unfold manifest_job. destruct (uj_throws env); [done|].
  pose proof (put_attempts_stores (default [] (blobs !! i)) 1 (CHUNK_ATTEMPTS - 1) (uj_stop env) (us_ring s)) as Hp.
  destruct (put_attempts put _ _ _ _ _) as [[p used] σ']. destruct Hp as [Hp1 Hp2]. destruct (po_ok p); [|done].
  intros [= <-]. upd. split; [|done]. intros j [->|Hj]%elem_of_cons; [by apply Hp1|by apply Hp2, Hs].
Qed.

(** What an upload that succeeded has stored. *)
Record uploaded (opt : UploadOptions) (o : UploadOutcome) (σ : St) : Prop := {
  ul_chunks : ∀ i, i < chunk_count size chunk → stored (body i) σ;
  ul_tree : ∃ tree, build_manifests (file_entries size chunk (λ i, chunk_key (body i))) size chunk (uo_fanout opt) = Some tree ∧
    mt_depth tree ≤ MAX_MANIFEST_DEPTH ∧ up_root_key o = mt_root_key tree ∧ Forall (λ b, stored b σ) (mt_blobs tree);
}.

Lemma upload_manifests_stores opt env out s o σ' : uo_chunk opt = chunk → up_ok out = false →
  us_keys s = (λ i, chunk_key (body i)) <$> seq 0 (chunk_count size chunk) →
  (∀ i, i < chunk_count size chunk → stored (body i) (us_ring s)) →
  upload_manifests put opt env out s size = Some (o, σ') → up_ok o = true → uploaded opt o σ'.
Proof using Hput Hc Hu.
  intros Ec Hout Ek Hst. unfold upload_manifests. rewrite Ec, Ek, sent_entries.
  destruct (build_manifests _ _ _ _) as [tree|] eqn:Et; cbn [mbind option_bind]; [|done].
  destruct (Nat.ltb_spec MAX_MANIFEST_DEPTH (mt_depth tree)) as [|Hd]; [intros [= <- <-]; upd; congruence|].
  destruct (run_pool _ _ _ _ _ _) as [[[] s2]|] eqn:Er; cbn [mbind option_bind negb]; [|intros [= <- <-]; upd; congruence|done].
  intros [= <- <-] _. eapply (pool_rule _ _ (λ D s, (∀ j, j ∈ D → stored (default [] (mt_blobs tree !! j)) (us_ring s)) ∧
    ∀ i, i < chunk_count size chunk → stored (body i) (us_ring s)) (λ _, True)) in Er as (D & [H1 H2] & Hall).
  2:{ intros D i e st st' [H1 H2] _ _ _ E. destruct (manifest_job_sent _ D i e st st' H1 E) as [H1' H2']. split; [done|]. auto. }
  2:{ by apply Forall_forall. }
  2:{ split; [by intros j ?%elem_of_nil|done]. }
  split; [done|]. exists tree. upd. split_and!; [done|lia|done|]. apply Forall_forall. intros b Hb.
  apply list_elem_of_lookup_1 in Hb as [j Hj]. specialize (H1 j). rewrite Hj in H1. apply H1, Hall. by eapply lookup_lt_Some.
Qed.
End upload.

Lemma upload_stores {SH : Sha1} {SHok : Sha1Ok SH} {St} (put : PutFn St) stored file path opt env mtime σ o σ' :
  put_stores put stored → (N.of_nat (length file) < 2 ^ 63)%N → ue_before env = Some (N.of_nat (length file), mtime) →
  Forall (λ m, uj_content m.2 = file) (ue_sched env) →
  upload_file put path opt env σ = Some (o, σ') → up_ok o = true →
  (1 <= uo_chunk opt <= MAX_CHUNK)%N ∧ 2 ≤ uo_fanout opt ≤ MANIFEST_FANOUT ∧ uploaded stored file (uo_chunk opt) opt o σ'.
Proof.
  intros Hput Hu Hb Hsched. unfold upload_file. cbv zeta. destruct (_ || _); [by intros [= <- <-]|].
  destruct (N.ltb_spec (uo_chunk opt) 1); [by intros [= <- <-]|]. destruct (N.ltb_spec MAX_CHUNK (uo_chunk opt)); [by intros [= <- <-]|]. cbn [orb].
  destruct (Nat.ltb_spec (uo_fanout opt) 2); [by intros [= <- <-]|]. destruct (Nat.ltb_spec MANIFEST_FANOUT (uo_fanout opt)); [by intros [= <- <-]|]. cbn [orb].
  destruct (ue_open env); [by intros [= <- <-]|]. rewrite Hb. assert (Hc : (1 <= uo_chunk opt <= MAX_CHUNK)%N) by lia.
  change (N.to_nat (wrap64N (N.of_nat (length file) + uo_chunk opt - 1) / uo_chunk opt)) with (chunk_count (N.of_nat (length file)) (uo_chunk opt)).
  destruct (run_pool _ _ _ _ _ _) as [[[] s]|] eqn:Er; cbn [mbind option_bind negb]; [|by intros [= <- <-]|done].
  destruct (negb _); [by intros [= <- <-]|]. intros Hm Hok. split; [done|]. split; [lia|].
  eapply (pool_rule _ _ (sent stored file (uo_chunk opt)) (λ e, uj_content e = file)) in Er as (D & HD & Hall).
  2:{ intros D i e st st' G1 G2 G3 G4 E. by eapply chunk_job_sent. }
  2:{ done. }
  2:{ split; cbn; [apply length_replicate|by intros i ?%elem_of_nil]. }
  eapply upload_manifests_stores; [exact Hput|exact Hc|exact Hu|reflexivity| | | |exact Hm|exact Hok].
  - by upd.
  - by eapply sent_all.
  - intros i Hi. by apply HD, Hall.
Qed.

(** ** Upload, then download *)
Section round_trip.
Context {SH : Sha1} {SHok : Sha1Ok SH} {St : Type} (put : PutFn St) (get : GetFn St) (stored : bytes → St → Prop).

(** What a ring promises of one read: what is stored is found, unchanged, and stays. *)
Definition get_finds : Prop := ∀ b σ, stored b σ →
  (go_ok (get (chunk_key b) σ).1 = true ∧ go_body (get (chunk_key b) σ).1 = b) ∧ ∀ key, stored b (get key σ).2.
Context (Hget : get_finds).

Lemma get_attempts_finds b used more stop σ : stored b σ →
  go_ok (get_attempts get (chunk_key b) used more stop σ).1.1 = true ∧ go_body (get_attempts get (chunk_key b) used more stop σ).1.1 = b.
Proof using Hget.
  intros Hs. destruct (Hget b σ Hs) as [[H1 H2] _].
  destruct more; cbn [get_attempts]; destruct (get (chunk_key b) σ) as [g σ1]; cbn [fst snd] in *; [done|]. by rewrite H1.
Qed.

(** What the operating system has to grant a download. *)
Record granted (dest : bytes) (workers : nat) (env : DownloadEnv) (disk : list (bytes * bytes)) : Prop := {
  gr_workers : 1 ≤ workers ≤ MAX_WORKERS;
  gr_dest : de_dir env = false;
  gr_room : part_too_long (part_path dest env) env = false;
  gr_part : om_find (part_path dest env) disk = None;
  gr_calls : (de_create env, de_truncate env, de_flush env, de_close env, de_rename env) = (None, None, None, None, None);
  gr_jobs : Forall (λ m, dj_throws m.2 = false ∧ (MAX_CHUNK <= dj_wrote m.2)%N) (de_sched env);
}.

Context (file : bytes) (chunk : N).
Let size := N.of_nat (length file).
Let body i := piece file (chunk_span size chunk i).
Let refs := (λ i, mkChunkRef (chunk_key (body i)) (chunk_span size chunk i).1 (chunk_span size chunk i).2) <$> seq 0 (chunk_count size chunk).
Context (Hc : (1 <= chunk <= MAX_CHUNK)%N) (Hu : (size < 2 ^ 63)%N).
Let held σ := ∀ i, i < chunk_count size chunk → stored (body i) σ.

Lemma ref_of_body c : c ∈ refs → ∃ i, i < chunk_count size chunk ∧ cr_key c = chunk_key (body i) ∧ ref_span c = chunk_span size chunk i ∧
  length (body i) = N.to_nat (cr_bytes c).
Proof using Hc Hu.
  intros (i & -> & Hi)%list_elem_of_fmap. apply elem_of_seq in Hi. exists i. split_and!; [lia|done|done|].
  apply (proj1 (chunk_count_lt size chunk Hc Hu i)) in Hi as Hlt || (assert (Hlt : (N.of_nat i * chunk < size)%N) by (apply chunk_count_lt; [done..|lia])).
  subst body. cbn beta. rewrite piece_length; [done|]. cbn. subst size. lia.
Qed.

Lemma fetch_job_succeeds i env s : held (ds_ring s) → i < length refs → dj_throws env = false ∧ (MAX_CHUNK <= dj_wrote env)%N →
  (fetch_job get refs i env s).1 = true ∧ held (ds_ring (fetch_job get refs i env s).2).
Proof using Hget Hc Hu.
  intros Hs Hi [Ht Hw]. unfold fetch_job. rewrite Ht. destruct (refs !! i) as [c|] eqn:Er; [|apply lookup_ge_None in Er; lia].
  destruct (ref_of_body c) as (j & Hj & Ek & Esp & Elen); [by eapply list_elem_of_lookup_2|]. rewrite Ek.
  destruct (get_attempts_finds (body j) 1 (CHUNK_ATTEMPTS - 1) (dj_stop env) (ds_ring s) (Hs j Hj)) as [H1 H2].
  assert (Hk : held (get_attempts get (chunk_key (body j)) 1 (CHUNK_ATTEMPTS - 1) (dj_stop env) (ds_ring s)).2).
  { apply get_attempts_keep; [|done]. intros key σ Hσ i' Hi'. by apply Hget, Hσ. }
  destruct (get_attempts get _ _ _ _ _) as [[g used] σ']. cbn [fst snd] in *. rewrite H1. cbn [negb]. rewrite H2, Elen, N2Nat.id, N.eqb_refl.
  cbn [negb]. unfold pwrite_all. destruct (N.leb_spec (N.of_nat (length (body j))) (dj_wrote env)) as [|Hlt]; [by upd|]. exfalso.
  rewrite Elen in Hlt. assert (cr_bytes c <= chunk)%N; [|lia]. change (cr_bytes c) with (ref_span c).2. rewrite Esp. cbn. lia.
Qed.

Lemma refs_tile : contiguous 0 (ref_span <$> refs) size.
Proof using Hc Hu SHok.
  assert (E : chunk_ref <$> at_offsets 0 (file_entries size chunk (λ i, chunk_key (body i))) = refs)
    by apply (file_entries_refs size chunk Hc Hu). rewrite <- E, ref_spans.
  destruct (file_entries_level size chunk Hc Hu (λ i, chunk_key (body i)) (λ i, sha1_is_key (body i))) as [Hb Hs _ _ _ _].
  rewrite <- Hb at 2. rewrite <- (N.add_0_l (bytes_of _)). apply at_offsets_contiguous. rewrite N.add_0_l, Hb. done.
Qed.

Lemma fetch_file_finds dest workers env r out disk σ o disk' σ' : granted dest workers env disk → held σ →
  rs_size r = size → rs_chunks r = refs → dn_ok out = false →
  fetch_file get dest workers env r out disk σ = Some (o, disk', σ') → dn_ok o = true ∧ om_find dest disk' = Some file.
Proof using Hget Hc Hu SHok.
  intros [_ _ Hroom Hpart Hcalls Hjobs] Hs Esz Ech Hout H. injection Hcalls as E1 E2 E3 E4 E5.
  assert (Ht : tiles 0 (ref_span <$> refs) size) by (exists (ref_span <$> refs); split; [done|apply refs_tile]).
  unfold fetch_file, create_part in H. cbv zeta in H. rewrite Hroom, E1, bool_decide_true, E2, E3, E4, E5, Ech, Esz in H by done.
  destruct (run_pool _ _ _ _ _ _) as [[b s]|] eqn:Er; cbn [mbind option_bind] in H; [|done].
  assert (b = true) as ->.
  { eapply (pool_succeeds _ _ (λ s, held (ds_ring s)) (λ e, dj_throws e = false ∧ (MAX_CHUNK <= dj_wrote e)%N)); [|exact Hjobs| |exact Er].
    - intros i e st. apply fetch_job_succeeds.
    - exact Hs. }
  cbn [negb] in H. injection H as <- <- <-. upd. split; [done|]. rewrite om_find_set, decide_True by done. f_equal.
  destruct (pool_written get held ltac:(intros key σ0 Hσ i Hi; by apply Hget, Hσ) refs (λ c b, b = piece file (ref_span c))
    ltac:(intros c (i & Hi & -> & -> & _)%ref_of_body σ0 Hσ _; by apply (Hget (body i) σ0 (Hσ i Hi))) size Ht _ _ _ _ _ Hs Er) as (_ & Hl & Hp).
  pose proof (contiguous_pieces (ds_part s) 0 _ size refs_tile ltac:(lia)) as P1.
  pose proof (contiguous_pieces file 0 _ size refs_tile ltac:(subst size; lia)) as P2.
  assert (Hw : ∀ f, length f = N.to_nat size → piece f (0, size - 0)%N = f).
  { intros f Hf. unfold piece. cbn. rewrite N.sub_0_r, drop_0. apply take_ge. lia. }
  rewrite Hw in P1 by done. rewrite Hw in P2 by (subst size; lia). rewrite P1, P2. f_equal.
  rewrite <- !list_fmap_compose. apply list_fmap_ext. intros i c Hi. apply Hp. by eapply list_elem_of_lookup_2.
Qed.
End round_trip.

(** ** What every exchange with the ring keeps, a transfer keeps *)
Section keeps.
Context {SH : Sha1} {St : Type} (I : St → Prop).

Lemma put_attempts_keep (put : PutFn St) body used more stop σ : (∀ b σ, I σ → I (put b σ).2) → I σ →
  I (put_attempts put body used more stop σ).2.
Proof.
  intros Hput. revert used σ. induction more as [|more IH]; intros used σ Hs; cbn [put_attempts]; pose proof (Hput body σ Hs) as H1;
    destruct (put body σ) as [p σ1]; [done|]. cbn [snd] in H1. destruct (_ || _); [done|]. by apply IH.
Qed.

Lemma upload_keeps (put : PutFn St) path opt env σ o σ' : (∀ b σ, I σ → I (put b σ).2) → I σ →
  upload_file put path opt env σ = Some (o, σ') → I σ'.
Proof.
  intros Hput Hs. unfold upload_file. cbv zeta. repeat (destruct (_ || _); [by intros [= _ <-]|]). destruct (ue_open env); [by intros [= _ <-]|].
  destruct (ue_before env) as [[size mtime]|]; [|by intros [= _ <-]].
  destruct (run_pool _ _ _ _ _ _) as [[ok s]|] eqn:E; cbn [mbind option_bind]; [|done]. apply (pool_keeps _ _ (λ s, I (us_ring s))) in E; [| |exact Hs].
  - destruct (negb ok); [by intros [= _ <-]|]. destruct (negb _); [by intros [= _ <-]|]. unfold upload_manifests.
    destruct (build_manifests _ _ _ _) as [tree|]; cbn [mbind option_bind]; [|done]. destruct (_ <? _); [by intros [= _ <-]|].
    destruct (run_pool _ _ _ _ _ _) as [[ok2 s2]|] eqn:E2; cbn [mbind option_bind]; [|done]. apply (pool_keeps _ _ (λ s, I (us_ring s))) in E2; [| |exact E].
    + destruct (negb ok2); by intros [= _ <-].
    + intros i e s0 H0. unfold manifest_job. destruct (uj_throws e); [done|].
      pose proof (put_attempts_keep put (default [] (mt_blobs tree !! i)) 1 (CHUNK_ATTEMPTS - 1) (uj_stop e) (us_ring s0) Hput H0) as H1.
      destruct (put_attempts _ _ _ _ _ _) as [[p used] σ1]. cbn [snd] in H1. destruct (po_ok p); [by upd|]. unfold fail_upload. by upd.
  - intros i e s0 H0. unfold chunk_job. destruct (uj_throws e); [done|]. cbv zeta. destruct (uj_error e); [unfold fail_upload; by upd|].
    destruct (negb _); [unfold fail_upload; by upd|].
    match goal with |- context [put_attempts put ?b ?u ?m ?st ?x] => pose proof (put_attempts_keep put b u m st x Hput H0) as H1 end.
    destruct (put_attempts _ _ _ _ _ _) as [[p used] σ1]. cbn [snd] in H1. destruct (po_ok p); cbn [negb]; unfold fail_upload; by upd.
Qed.

Lemma download_keeps (get : GetFn St) root dest workers env disk σ d disk' σ' : reads_keep get I → I σ →
  download_file get root dest workers env disk σ = Some (d, disk', σ') → I σ'.
Proof.
  intros Hget Hs. unfold download_file. destruct (_ || _); [by intros [= _ _ <-]|]. destruct (de_dir env); [by intros [= _ _ <-]|].
  destruct (resolve_manifest _ _ _ _) as [[r σ1]|] eqn:Er; cbn [mbind option_bind]; [|done]. eapply (resolve_keep _ _ _ Hget) in Er; [|exact Hs].
  destruct (negb _); [by intros [= _ _ <-]|]. unfold fetch_file. cbv zeta. destruct (part_too_long _ _); [by intros [= _ _ <-]|]. destruct (create_part _ _ _); [by intros [= _ _ <-]|].
  destruct (de_truncate env); [by intros [= _ _ <-]|]. destruct (run_pool _ _ _ _ _ _) as [[ok s]|] eqn:E; cbn [mbind option_bind]; [|done].
  apply (pool_keeps _ _ (λ s, I (ds_ring s))) in E; [repeat case_match; by intros [= _ _ <-]| |exact Er].
  intros i e s0 H0. unfold fetch_job. destruct (dj_throws e); [done|]. destruct (rs_chunks r !! i) as [c|]; [|done].
  pose proof (get_attempts_keep get I Hget (cr_key c) 1 (CHUNK_ATTEMPTS - 1) (dj_stop e) (ds_ring s0) H0) as H1.
  destruct (get_attempts _ _ _ _ _ _) as [[g used] σ2]. cbn [snd] in H1. unfold fail_download. repeat case_match; simplify_eq; by upd.
Qed.
End keeps.

Lemma uploaded_later {SH : Sha1} {St} (stored : bytes → St → Prop) file chunk opt o σ σ' :
  (∀ b, stored b σ → stored b σ') → uploaded stored file chunk opt o σ → uploaded stored file chunk opt o σ'.
Proof.
  intros Hst [Hc (tree & Et & Hd & Ek & Hb)]. split; [auto|]. exists tree. split_and!; [done..|]. eapply Forall_impl; [exact Hb|]. auto.
Qed.

Lemma build_root_key {SH : Sha1} {SHok : Sha1Ok SH} chunks size chunk fanout tree :
  build_manifests chunks size chunk fanout = Some tree → valid_key (mt_root_key tree) = true.
Proof.
  unfold build_manifests. generalize (S (length chunks)), (Nat.max 2 (Nat.min fanout MANIFEST_FANOUT)). intros fuel f.
  generalize Data, (@nil bytes), 0. intros kind blobs depth. revert kind chunks blobs depth. induction fuel as [|fuel IH]; intros kind chunks blobs depth; [done|]. cbn [build_levels].
  destruct (_ <=? _); [intros [= <-]; apply sha1_is_key|apply IH].
Qed.

(** A whole file resolves, whenever, and what is left is to fetch its chunks. *)
Lemma uploaded_resolves {SH : Sha1} {SHok : Sha1Ok SH} {St} (get : GetFn St) stored file opt o σ dest workers denv disk :
  get_finds get stored → (N.of_nat (length file) < 2 ^ 63)%N → (1 <= uo_chunk opt <= MAX_CHUNK)%N → 2 ≤ uo_fanout opt ≤ MANIFEST_FANOUT →
  uploaded stored file (uo_chunk opt) opt o σ → granted dest workers denv disk →
  let size := N.of_nat (length file) in let body i := piece file (chunk_span size (uo_chunk opt) i) in
  ∃ r σ1 out, download_file get (up_root_key o) dest workers denv disk σ = fetch_file get dest workers denv r out disk σ1 ∧
    (∀ i, i < chunk_count size (uo_chunk opt) → stored (body i) σ1) ∧ rs_size r = size ∧ dn_ok out = false ∧
    rs_chunks r = (λ i, mkChunkRef (chunk_key (body i)) (chunk_span size (uo_chunk opt) i).1 (chunk_span size (uo_chunk opt) i).2) <$>
      seq 0 (chunk_count size (uo_chunk opt)).
Proof.
  intros Hget Hu Hc Hf [Hchunks (tree & Et & Hd & Ek & Hblobs)] Hgr.
  set (size := N.of_nat (length file)) in *.
  set (I := λ σ, (∀ i, i < chunk_count size (uo_chunk opt) → stored (piece file (chunk_span size (uo_chunk opt) i)) σ) ∧
    Forall (λ b, stored b σ) (mt_blobs tree)).
  assert (Hkeep : reads_keep get I).
  { intros key σ0 [H1 H2]. split; [intros i Hi; by apply Hget, H1|]. eapply Forall_impl; [exact H2|]. intros b Hs. by apply Hget. }
  destruct (build_resolves get I CHUNK_ATTEMPTS (file_entries size (uo_chunk opt) (λ i, chunk_key (piece file (chunk_span size (uo_chunk opt) i))))
    size (uo_chunk opt) (uo_fanout opt) Hkeep) as (tree' & Et' & Hres).
  { apply file_entries_level; [done..|]. intros i. apply sha1_is_key. } { done. }
  rewrite Et in Et'. injection Et' as <-.
  assert (Hfinds : ∀ b, b ∈ mt_blobs tree → ∀ σ0, I σ0 → go_ok (get (chunk_key b) σ0).1 = true ∧ go_body (get (chunk_key b) σ0).1 = b).
  { intros b Hin σ0 [_ H2]. rewrite Forall_forall in H2. apply Hget. by apply H2. }
  destruct (Hres Hd ltac:(apply Forall_forall; intros b Hin σ0 H1 _; by apply Hfinds) σ ltac:(by split)) as (r & σ1' & Er & Hr1 & Hr2).
  specialize (Hr2 ltac:(apply Forall_forall; intros b Hin σ0 H1; by apply Hfinds)). destruct (Hr1 Hr2) as (R1 & R2 & R3 & _).
  rewrite file_entries_refs in R3 by done.
  assert (Hi' : I σ1') by (eapply resolve_keep; [exact Hkeep| |exact Er]; by split).
  unfold download_file. destruct Hgr as [Hw Hdir Hroom Hpart Hcalls Hjobs]. destruct (Nat.ltb_spec workers 1); [lia|].
  destruct (Nat.ltb_spec MAX_WORKERS workers); [lia|]. cbn [orb]. rewrite Hdir, Ek, Er. cbn [mbind option_bind]. rewrite Hr2. cbn [negb].
  eexists r, σ1', _. split; [reflexivity|]. split_and!; [apply Hi'|exact R1|done|exact R3].
Qed.

(** A whole file is read back, whenever. *)
Lemma download_uploaded {SH : Sha1} {SHok : Sha1Ok SH} {St} (get : GetFn St) stored file opt o σ dest workers denv disk d disk' σ' :
  get_finds get stored → (N.of_nat (length file) < 2 ^ 63)%N → (1 <= uo_chunk opt <= MAX_CHUNK)%N → 2 ≤ uo_fanout opt ≤ MANIFEST_FANOUT →
  uploaded stored file (uo_chunk opt) opt o σ → granted dest workers denv disk →
  download_file get (up_root_key o) dest workers denv disk σ = Some (d, disk', σ') →
  dn_ok d = true ∧ om_find dest disk' = Some file.
Proof.
  intros Hget Hu Hc Hf Hst Hgr.
  destruct (uploaded_resolves get stored file opt o σ dest workers denv disk Hget Hu Hc Hf Hst Hgr) as (r & σ1 & out & -> & Hheld & Hsz & Hout & Hch).
  intros Hrun. by eapply (fetch_file_finds get stored Hget file (uo_chunk opt) Hc Hu).
Qed.

(** The download of a whole file returns, if each of its workers is given enough turns. *)
Lemma uploaded_returns {SH : Sha1} {SHok : Sha1Ok SH} {St} (get : GetFn St) stored file opt o σ dest workers denv disk :
  get_finds get stored → (N.of_nat (length file) < 2 ^ 63)%N → (1 <= uo_chunk opt <= MAX_CHUNK)%N → 2 ≤ uo_fanout opt ≤ MANIFEST_FANOUT →
  uploaded stored file (uo_chunk opt) opt o σ → granted dest workers denv disk →
  turns_enough (chunk_count (N.of_nat (length file)) (uo_chunk opt)) workers (de_started denv) (de_sched denv) →
  is_Some (download_file get (up_root_key o) dest workers denv disk σ).
Proof.
  intros Hget Hu Hc Hf Hst Hgr Hturns.
  destruct (uploaded_resolves get stored file opt o σ dest workers denv disk Hget Hu Hc Hf Hst Hgr) as (r & σ1 & out & -> & _ & _ & _ & Hch).
  assert (El : length (rs_chunks r) = chunk_count (N.of_nat (length file)) (uo_chunk opt)) by (rewrite Hch; by rewrite length_fmap, length_seq).
  unfold fetch_file. cbv zeta. destruct (part_too_long _ _); [by eexists|]. destruct (create_part _ _ _); [by eexists|]. destruct (de_truncate denv); [by eexists|].
  match goal with |- context [run_pool ?n ?j ?w ?k ?s ?t] => destruct (pool_returns n j w k s t) as (b & s' & ->); [by rewrite El|] end.
  cbn [mbind option_bind]. repeat case_match; by eexists.
Qed.

(** C3. What was uploaded is what is downloaded. On a ring that keeps what it acknowledges
    and finds what it keeps, if the file did not change while it was read and the
    upload succeeded - with any chunk size, fan-out and number of workers, any failed
    attempts on the way and any schedule - then every download of the root key that
    the operating system grants, whatever its schedule, succeeds and leaves exactly
    the bytes of the file at the destination. *)
Theorem upload_then_download {SH : Sha1} {SHok : Sha1Ok SH} {St} (put : PutFn St) (get : GetFn St) stored
    file path opt uenv mtime σ o σ1 dest workers denv disk d disk' σ2 :
  put_stores put stored → get_finds get stored →
  (N.of_nat (length file) < 2 ^ 63)%N → ue_before uenv = Some (N.of_nat (length file), mtime) →
  Forall (λ m, uj_content m.2 = file) (ue_sched uenv) →
  upload_file put path opt uenv σ = Some (o, σ1) → up_ok o = true →
  granted dest workers denv disk →
  download_file get (up_root_key o) dest workers denv disk σ1 = Some (d, disk', σ2) →
  dn_ok d = true ∧ om_find dest disk' = Some file.
Proof.
  intros Hput Hget Hu Hb Hsched Hup Hok Hgr.
  destruct (upload_stores put stored file path opt uenv mtime σ o σ1 Hput Hu Hb Hsched Hup Hok) as (Hc & Hf & Hst).
  by eapply download_uploaded.
Qed.

(** ** Witnesses *)
#[local] Existing Instances demo_sha1 demo_sha1_ok.

(** A ring that keeps the bodies it acknowledges; a body that clashes with another is refused. *)
Definition demo_found (key : bytes) (σ : list bytes) : option bytes := snd <$> list_find (λ b, chunk_key b = key) σ.
Definition demo_put_fn : PutFn (list bytes) := λ b σ,
  match demo_found (chunk_key b) σ with
  | Some b' => (mkPutOutcome (bool_decide (b' = b)) 3 [] no_peer 1 (chunk_key b), σ)
  | None => (mkPutOutcome true 3 [] no_peer 1 (chunk_key b), b :: σ)
  end.
Definition demo_get_fn : GetFn (list bytes) := λ key σ,
  (match demo_found key σ with
   | Some b => mkGetOutcome true b [] no_peer []
   | None => mkGetOutcome false [] (lit "missing") no_peer []
   end, σ).
Definition demo_stored (b : bytes) (σ : list bytes) : Prop := demo_found (chunk_key b) σ = Some b.

Lemma demo_found_cons key b σ : demo_found key (b :: σ) = if decide (chunk_key b = key) then Some b else demo_found key σ.
Proof. unfold demo_found. cbn. case_decide; [done|]. by destruct (list_find _ σ) as [[]|]. Qed.

Lemma demo_put_stores : put_stores demo_put_fn demo_stored.
Proof.
  intros b σ. unfold demo_put_fn, demo_stored. destruct (demo_found (chunk_key b) σ) as [b'|] eqn:E; cbn [fst snd po_ok po_key].
  - split; [|done]. intros ->%bool_decide_eq_true. done.
  - split; [intros _; split; [done|]|].
    + by rewrite demo_found_cons, decide_True.
    + intros b' Hb'. rewrite demo_found_cons. case_decide as Ek; [rewrite <- Ek, E in Hb'; done|done].
Qed.
Lemma demo_get_finds : get_finds demo_get_fn demo_stored.
Proof. intros b σ Hb. unfold demo_get_fn. rewrite Hb. done. Qed.

Definition demo_text : bytes := "hello world".
Definition demo_opt : UploadOptions := mkUploadOptions 2 4 2.
Definition demo_turns {E} (e : E) : list (nat * E) := concat (replicate 20 [(0, e); (1, e); (1, e)]).
Lemma demo_turns_all {E} (P : nat * E → Prop) e : (∀ t, P (t, e)) → Forall P (demo_turns e).
Proof. intros H. unfold demo_turns. cbn [replicate concat app]. repeat (constructor; [apply H|]). constructor. Qed.
Definition demo_upload_env : UploadEnv :=
  let turns := demo_turns (mkUploadJob demo_text None (λ _, false) false) in
  mkUploadEnv None (Some (N.of_nat (length demo_text), 7%Z)) (Some (N.of_nat (length demo_text), 7%Z)) 2 turns 2 turns.
Definition demo_uploaded := default (no_upload, []) (upload_file demo_put_fn (lit "notes") demo_opt demo_upload_env []).
Definition demo_download_env : DownloadEnv :=
  mkDownloadEnv true false 17 0 None None None None None 2 (demo_turns (mkDownloadJob (λ _, false) MAX_CHUNK [] false)).
Definition demo_downloaded (disk : list (bytes * bytes)) :=
  default (no_download, [], []) (download_file demo_get_fn (up_root_key demo_uploaded.1) (lit "copy") 2 demo_download_env disk demo_uploaded.2).

Lemma upload_then_download_witness : dn_ok (demo_downloaded []).1.1 = true ∧ om_find (lit "copy") (demo_downloaded []).1.2 = Some demo_text.
Proof.
  apply (upload_then_download demo_put_fn demo_get_fn demo_stored demo_text (lit "notes") demo_opt demo_upload_env 7 []
    demo_uploaded.1 demo_uploaded.2 (lit "copy") 2 demo_download_env [] (demo_downloaded []).1.1 (demo_downloaded []).1.2 (demo_downloaded []).2).
  - apply demo_put_stores.
  - apply demo_get_finds.
  - apply N.ltb_lt. vm_compute. reflexivity.
  - reflexivity.
  - by apply demo_turns_all.
  - vm_compute. reflexivity.
  - vm_compute. reflexivity.
  - split; [unfold MAX_WORKERS; lia|reflexivity|vm_compute; reflexivity|reflexivity..|]. apply demo_turns_all. intros t. split; [reflexivity|apply N.le_refl].
  - vm_compute. reflexivity.
Defined.

(** The same ring, with every body checked against its key as [get_chunk] does. *)
Lemma demo_get_verified key σ : go_ok (demo_get_fn key σ).1 = true → chunk_key (go_body (demo_get_fn key σ).1) = key.
Proof.
  unfold demo_get_fn, demo_found. destruct (list_find _ σ) as [[i b]|] eqn:E; cbn; [|done].
  intros _. by apply list_find_Some in E as (_ & Ek & _).
Qed.

Lemma download_delivers_witness :
  dn_ok (demo_downloaded []).1.1 = true ∧
  (∀ path, path ≠ lit "copy" → path ≠ part_path (lit "copy") demo_download_env → om_find path (demo_downloaded []).1.2 = None) ∧
  om_find (part_path (lit "copy") demo_download_env) (demo_downloaded []).1.2 = None.
Proof.
  assert (Hok : dn_ok (demo_downloaded []).1.1 = true) by (vm_compute; reflexivity). split; [exact Hok|].
  destruct (download_delivers demo_get_fn (up_root_key demo_uploaded.1) (lit "copy") 2 demo_download_env [] demo_uploaded.2
    (demo_downloaded []).1.1 (demo_downloaded []).1.2 (demo_downloaded []).2) as (H1 & _ & H3).
  - apply demo_get_verified.
  - vm_compute. reflexivity.
  - split; [exact H1|]. by apply H3.
Defined.

Definition demo_other : list (bytes * bytes) := [(part_path (lit "copy") demo_download_env, lit "another process's part")].

Lemma clash_removes_other_part_witness :
  dn_ok (demo_downloaded demo_other).1.1 = false ∧
  om_find (part_path (lit "copy") demo_download_env) (demo_downloaded demo_other).1.2 = None.
Proof.
  apply (clash_removes_other_part demo_get_fn (up_root_key demo_uploaded.1) (lit "copy") 2 demo_download_env demo_other demo_uploaded.2
    (demo_downloaded demo_other).1.1 (demo_downloaded demo_other).1.2 (demo_downloaded demo_other).2
    (default (unresolved, []) (resolve_manifest demo_get_fn (up_root_key demo_uploaded.1) CHUNK_ATTEMPTS demo_uploaded.2)).1
    (default (unresolved, []) (resolve_manifest demo_get_fn (up_root_key demo_uploaded.1) CHUNK_ATTEMPTS demo_uploaded.2)).2
    (lit "another process's part")).
  - unfold MAX_WORKERS. lia.
  - reflexivity.
  - vm_compute. reflexivity.
  - vm_compute. reflexivity.
  - vm_compute. reflexivity.
  - vm_compute. reflexivity.
  - vm_compute. reflexivity.
Defined.
