(* ===== verification/Client.v ===== *)
(** * Client: the command-line client (client.cpp)

    The options, the ring's entry points with their fall-over, the exchange with
    the tracker group and the seven commands. A command's state is a [Client]; the
    exchanges of net.cpp, the clock and the sleep are parameters, and the other
    workers of a transfer act inside the ring's exchanges, whose state holds the
    preferred entry point beside the world. What the operating system answers and
    the times printed are the [ClientEnv]. The metrics are ClientMetrics.v's; the signal
    handler and the progress notes of a transfer are not modelled. *)
From S2P Require Import Prelude Text OrdMap Net Log Chord Lookup Names Options Group Store Stabilize Chunk Manifest ManifestTree Pool Transfer.

Definition LOOKUP_RETRIES : nat := 2.

(** ** The command line *)

Record ClientOptions := mkClientOptions {
  co_tracker : list Address; co_have_tracker : bool; co_wait : Z; co_seeds : list Peer; co_w : nat; co_transfer : UploadOptions;
  co_stats : bytes; co_quiet : bool; co_request_id : bytes; co_log : bytes; co_level : Level; co_metrics : Z;
  co_token_file : bytes; co_upload_limit : Z; co_register_delay : Z; co_words : list bytes }.
#[export] Instance ClientOptions_eta : Eta ClientOptions := λ o,
  mkClientOptions (co_tracker o) (co_have_tracker o) (co_wait o) (co_seeds o) (co_w o) (co_transfer o) (co_stats o) (co_quiet o)
    (co_request_id o) (co_log o) (co_level o) (co_metrics o) (co_token_file o) (co_upload_limit o) (co_register_delay o) (co_words o).
#[export] Instance UploadOptions_eta : Eta UploadOptions := λ o, mkUploadOptions (uo_workers o) (uo_chunk o) (uo_fanout o).
Definition default_options : ClientOptions :=
  mkClientOptions [] false 10000 [] DEFAULT_W (mkUploadOptions DEFAULT_WORKERS DEFAULT_CHUNK_SIZE MANIFEST_FANOUT)
    [] false [] [] Info 0 [] 3600 0 [].

(** An option that takes a value. [None]: a usage error. *)
Definition value_option `{Sha1, Inet} (a v : bytes) (o : ClientOptions) : option ClientOptions :=
  let opt x := bool_decide (a = x) in
  let number lo hi f := n ← parse_number v lo hi; Some (f n) in
  let t := co_transfer o in
  if opt (lit "--tracker") then
    match parse_address_list v with inr l => Some (o <| co_tracker := l |> <| co_have_tracker := true |>) | inl _ => None end
  else if opt (lit "--tracker-wait") then number 0%Z 600000%Z (λ n, o <| co_wait := n |>)
  else if opt (lit "--ring") then l ← parse_list v (co_seeds o); Some (o <| co_seeds := l |>)
  else if opt (lit "--workers") then number 1%Z (Z.of_nat MAX_WORKERS) (λ n, o <| co_transfer := t <| uo_workers := Z.to_nat n |> |>)
  else if opt (lit "--w") then number 1%Z 3%Z (λ n, o <| co_w := Z.to_nat n |>)
  else if opt (lit "--chunk-size") then number 1%Z (Z.of_N MAX_CHUNK) (λ n, o <| co_transfer := t <| uo_chunk := Z.to_N n |> |>)
  else if opt (lit "--fanout") then number 2%Z (Z.of_nat MANIFEST_FANOUT) (λ n, o <| co_transfer := t <| uo_fanout := Z.to_nat n |> |>)
  else if opt (lit "--stats") then Some (o <| co_stats := v |>)
  else if opt (lit "--request-id") then if valid_request_id v then Some (o <| co_request_id := v |>) else None
  else if opt (lit "--log") then Some (o <| co_log := v |>)
  else if opt (lit "--log-level") then l ← parse_level v; Some (o <| co_level := l |>)
  else if opt (lit "--metrics") then number 1%Z 65535%Z (λ n, o <| co_metrics := n |>)
  else if opt (lit "--token-file") then Some (o <| co_token_file := v |>)
  else if opt (lit "--upload-limit") then number 1%Z 100000000%Z (λ n, o <| co_upload_limit := n |>)
  else if opt (lit "--register-delay") then number 0%Z 100000000%Z (λ n, o <| co_register_delay := n |>)
  else None.

Definition VALUE_OPTIONS : list bytes :=
  [lit "--tracker"; lit "--tracker-wait"; lit "--ring"; lit "--workers"; lit "--w"; lit "--chunk-size"; lit "--fanout"; lit "--stats";
   lit "--request-id"; lit "--log"; lit "--log-level"; lit "--metrics"; lit "--token-file"; lit "--upload-limit"; lit "--register-delay"].

Fixpoint parse_args `{Sha1, Inet} (args : list bytes) (o : ClientOptions) : option ClientOptions :=
  match args with
  | [] => if bool_decide (co_words o = []) then None else Some o
  | a :: rest =>
      if bool_decide (a = lit "--quiet") then parse_args rest (o <| co_quiet := true |>)
      else if starts_with (lit "--") a then
        match rest with
        | v :: rest => if bool_decide (a ∈ VALUE_OPTIONS) then o ← value_option a v o; parse_args rest o else None
        | [] => None
        end
      else parse_args rest (o <| co_words := co_words o ++ [a] |>)
  end.

(** A fresh secret, from four 32-bit random words. *)
Definition new_secret (random : list Z) : bytes := concat (hex_go 8 <$> take 4 random).

(** ** The ring's entry points *)

Definition lookup_failed (message : bytes) : bool := starts_with (lit "lookup failed") message.

Section ring.
Context {SH : Sha1} {IN : Inet} {W : Type} (logger : Logger).
(** The preferred entry point, and the world; and the two exchanges of net.cpp over them. *)
Abbreviation RingState := (nat * W)%type (only parsing).
Context (exchange_line : Transport RingState) (exchange_frame : FrameTransport RingState).

Definition socket_transport : Transport RingState := λ (to : Peer) (request : bytes),
  exchange_line to (with_request_id logger [] (addressed to request)).
Definition client_frames : FrameTransport RingState := λ (to : Peer) (line body : bytes),
  exchange_frame to (with_request_id logger [] line) body.

(** From the [first] entry point on, until one gives an outcome that is final: it becomes the preferred one. *)
Fixpoint over_seeds {A} (ask : Peer → RingState → A * RingState) (final : A → bool) (seeds : list Peer) (first : nat) (ks : list nat)
    (out : A) (σ : RingState) : A * RingState :=
  match ks with
  | [] => (out, σ)
  | k :: ks =>
      let i := (first + k) mod length seeds in
      let '(out, σ) := ask (seeds !!! i) σ in
      if final out then (out, if 0 <? k then (i, σ.2) else σ) else over_seeds ask final seeds first ks out σ
  end.

Definition ring_put (seeds : list Peer) (w : nat) (body : bytes) (σ : RingState) : PutOutcome * RingState :=
  over_seeds (λ seed, put_chunk socket_transport client_frames seed body w LOOKUP_RETRIES)
    (λ p, po_ok p || negb (lookup_failed (po_message p))) seeds σ.1 (seq 0 (length seeds)) (mkPutOutcome false 0 [] no_peer 0 []) σ.
Definition ring_get (seeds : list Peer) (key : bytes) (σ : RingState) : GetOutcome * RingState :=
  over_seeds (λ seed, get_chunk socket_transport client_frames seed key LOOKUP_RETRIES)
    (λ g, go_ok g || negb (lookup_failed (go_message g))) seeds σ.1 (seq 0 (length seeds)) (mkGetOutcome false [] [] no_peer []) σ.
End ring.

(** ** Statistics *)

Record ChunkTiming := mkChunkTiming {
  ct_index : N; ct_bytes : N; ct_micros : Z; ct_attempts : nat; ct_tried : nat; ct_ok : bool }.

Definition stats_line (op : bytes) (t : ChunkTiming) : bytes :=
  op ++ lit "," ++ dec (ct_index t) ++ lit "," ++ dec (ct_bytes t) ++ lit "," ++ to_string (ct_micros t) ++ lit "," ++
  dec (N.of_nat (ct_attempts t)) ++ lit "," ++ dec (N.of_nat (ct_tried t)) ++ lit "," ++ (if ct_ok t then lit "1" else lit "0") ++ [NL].

(** Appended to the file. [wrote]: whether it opened, and how much was written if not all of it was. *)
Definition write_stats (path op : bytes) (timings : list ChunkTiming) (opened : bool) (wrote : option nat) (disk : list (bytes * bytes))
    : bool * list (bytes * bytes) :=
  if negb opened then (false, disk)
  else
    let text := concat (stats_line op <$> timings) in
    let there := default [] (om_find path disk) in
    match wrote with
    | None => (true, om_set path (there ++ text) disk)
    | Some n => (false, om_set path (there ++ take n text) disk)
    end.

(** ** Words of a stream *)

(** [in >> word]; [None]: nothing but spaces was left. *)
Fixpoint word_end (s : bytes) : nat :=
  match s with
  | [] => 0
  | c :: s => if is_space c then 0 else S (word_end s)
  end.
Definition take_word (s : bytes) : option (bytes * bytes) :=
  let s := drop_spaces s in
  match word_end s with 0 => None | n => Some (take n s, drop n s) end.

(** [in >> n] of an [int]; a value out of range fails. *)
Fixpoint digits_end (s : bytes) : nat :=
  match s with
  | [] => 0
  | c :: s => if is_digit c then S (digits_end s) else 0
  end.
Definition INT_MAX : Z := 2147483647.
Definition take_int (s : bytes) : option (Z * bytes) :=
  let s := drop_spaces s in
  let negative := bool_decide (head s = Some (chr 45)) in
  let s := if negative || bool_decide (head s = Some (chr 43)) then drop 1 s else s in
  match digits_end s with
  | 0 => None
  | n => let v := atoi_digits 0 (take n s) in
         let v := if negative then (- v)%Z else v in
         if (v <? - INT_MAX - 1)%Z || (INT_MAX <? v)%Z then None else Some (v, drop n s)
  end.

(** ** A command *)

Record Client (W : Type) := mkClient {
  cl_group : GroupClient; cl_preferred : nat; cl_world : W; cl_disk : list (bytes * bytes);
  cl_out : list bytes; cl_notes : list bytes; cl_log : list (Level * bytes * list LogField) }.
Arguments mkClient {W}. Arguments cl_group {W}. Arguments cl_preferred {W}. Arguments cl_world {W}. Arguments cl_disk {W}.
Arguments cl_out {W}. Arguments cl_notes {W}. Arguments cl_log {W}.
#[export] Instance Client_eta {W} : Eta (Client W) := λ c,
  mkClient (cl_group c) (cl_preferred c) (cl_world c) (cl_disk c) (cl_out c) (cl_notes c) (cl_log c).

Record ClientEnv := mkClientEnv {
  ce_upload : UploadEnv; ce_download : DownloadEnv; ce_timings : list ChunkTiming; ce_stats_opens : bool; ce_stats_wrote : option nat;
  ce_random : list Z; ce_elapsed_ns : Z; ce_ms : list bytes }.

Section commands.
Context {SH : Sha1} {IN : Inet} {W : Type} (logger : Logger) (o : ClientOptions) (env : ClientEnv) (files : bytes → option bytes).
Context (exchange_line : Transport (nat * W)) (exchange_frame : FrameTransport (nat * W)).
(** The tracker's exchanges, the clock and the sleep. *)
Context (tracker_exchange : Address → bytes → W → (Delivery * bytes) * W) (now : W → Z * W) (sleep : Z → W → W) (fuel : nat).
Implicit Types c : Client W.

Definition tracker_io : GroupIO W := mkGroupIO (λ to request, tracker_exchange to (with_request_id logger [] request)) now sleep.
Definition put : PutFn (nat * W) := ring_put logger exchange_line exchange_frame (co_seeds o) (co_w o).
Definition get : GetFn (nat * W) := ring_get logger exchange_line exchange_frame (co_seeds o).

Definition note_event (level : Level) (event : bytes) (fields : list LogField) c : Client W :=
  if log_enabled logger level then c <| cl_log := cl_log c ++ [(level, event, fields)] |> else c.
Definition say (what : bytes) c : Client W := note_event Warn (lit "client.note") [(lit "msg", what)] (c <| cl_notes := cl_notes c ++ [what] |>).
Definition print (line : bytes) c : Client W := c <| cl_out := cl_out c ++ [line] |>.
Definition over (σ : nat * W) c : Client W := c <| cl_preferred := σ.1 |> <| cl_world := σ.2 |>.
Definition ring_state c : nat * W := (cl_preferred c, cl_world c).
(** A command that ends, having said why. *)
Definition fails (status : Z) (why : bytes) c : option (Z * Client W) := Some (status, say why c).

Definition ask_tracker (request : bytes) c : option (bool * bytes * Client W) :=
  '(ok, reply, g, w) ← ask_group tracker_io request fuel (cl_group c) (cl_world c);
  let c := c <| cl_group := g |> <| cl_world := w |> in
  Some (ok, if (ok : bool) then reply
            else lit "the tracker could not be reached in " ++ to_string (gc_wait_ms g) ++ lit " ms (" ++ reply ++ lit ")", c).

Definition BAD_CLIENT_NAME : bytes := lit "a name is 1 to 200 visible ASCII characters, no spaces".

(** The key a name stands for, or why there is none. *)
Definition resolve (name : bytes) c : option ((bytes + bytes) * Client W) :=
  if negb (valid_name name) then Some (inl BAD_CLIENT_NAME, c)
  else
    '(ok, reply, c) ← ask_tracker (lit "RESOLVE " ++ name) c;
    Some (if negb ok then inl reply
          else if bool_decide (reply = lit "MISSING") then inl (lit "no file is named " ++ name)
          else if negb (starts_with (lit "FILE ") reply) || negb (valid_key (drop 5 reply)) then inl (lit "the tracker answered: " ++ reply)
          else inr (drop 5 reply), c).

Definition ms (i : nat) : bytes := default [] (ce_ms env !! i).

Definition record_stats (op : bytes) c : Client W :=
  if bool_decide (co_stats o = []) then c
  else
    let '(ok, disk) := write_stats (co_stats o) op (ce_timings env) (ce_stats_opens env) (ce_stats_wrote env) (cl_disk c) in
    let c := c <| cl_disk := disk |> in
    if ok then c else say (lit "could not write " ++ co_stats o) c.

(** ** put *)

Definition put_line (name : bytes) (u : UploadOutcome) (secret : bytes) : bytes :=
  lit "put " ++ name ++ lit " " ++ up_root_key u ++ lit " ok bytes " ++ dec (up_size u) ++ lit " chunks " ++ dec (N.of_nat (up_chunks u)) ++
  lit " manifests " ++ dec (N.of_nat (up_manifests u)) ++ lit " depth " ++ dec (N.of_nat (up_depth u)) ++ lit " chunk_ms " ++ ms 0 ++
  lit " manifest_ms " ++ ms 1 ++ lit " total_ms " ++ ms 2 ++ lit " token " ++ secret.
Definition put_fields (name : bytes) (u : UploadOutcome) : list LogField :=
  [(lit "name", name); (lit "key", up_root_key u); (lit "result", lit "ok"); (lit "bytes", dec (up_size u));
   (lit "chunks", dec (N.of_nat (up_chunks u))); (lit "manifests", dec (N.of_nat (up_manifests u))); (lit "ms", ms 2)].

(** Every chunk and manifest is stored: the name is registered, unless it is too late. *)
Definition register_upload (name secret : bytes) (u : UploadOutcome) c : option (Z * Client W) :=
  let c := if (0 <? co_register_delay o)%Z then c <| cl_world := sleep (co_register_delay o) (cl_world c) |> else c in
  if (co_upload_limit o * 1000000000 <? ce_elapsed_ns env)%Z
  then fails 1 (lit "the upload took longer than its limit of " ++ to_string (co_upload_limit o) ++ lit " s, so its chunks may " ++
                lit "already be collected; the name was not registered. Run the same put again.") c
  else
    '(ok, reply, c) ← ask_tracker (lit "REGISTER " ++ name ++ lit " " ++ up_root_key u ++ lit " " ++ owner_hash secret) c;
    if negb ok then fails 1 reply c
    else
      let done secret c :=
        Some (0%Z, print (put_line name u secret) (note_event Info (lit "client.put") (put_fields name u) c)) in
      if bool_decide (reply = lit "EXISTS " ++ up_root_key u)
      then done (lit "-") (say (name ++ lit " is already registered for this same content by an earlier upload; that upload's token owns it") c)
      else if starts_with (lit "EXISTS ") reply
      then fails 1 (name ++ lit " is already registered for another file (" ++ drop 7 reply ++ lit "). " ++
                    lit "This upload's chunks stay in the ring, unnamed, until a collection removes them.") c
      else if negb (bool_decide (reply = lit "OK")) then fails 1 (lit "the tracker answered: " ++ reply) c
      else done secret c.

Definition put_command (file name : bytes) c : option (Z * Client W) :=
  if negb (valid_name name) then fails 2 BAD_CLIENT_NAME c
  else
    match (if bool_decide (co_token_file o = []) then Some (new_secret (ce_random env)) else read_secret (files (co_token_file o))) with
    | None => fails 2 (co_token_file o ++ lit " must hold one token of 32 to 64 lowercase hexadecimal characters") c
    | Some secret =>
        '(u, σ) ← upload_file put file (co_transfer o) (ce_upload env) (ring_state c);
        let c := record_stats (lit "put") (over σ c) in
        if negb (up_ok u) then fails 1 (lit "upload failed: " ++ up_message u) c
        else register_upload name secret u c
    end.

(** ** get, get-key *)

Definition get_line (word key : bytes) (d : DownloadOutcome) : bytes :=
  lit "get " ++ word ++ lit " " ++ key ++ lit " ok bytes " ++ dec (dn_size d) ++ lit " chunks " ++ dec (N.of_nat (dn_chunks d)) ++
  lit " manifests " ++ dec (N.of_nat (dn_manifests d)) ++ lit " depth " ++ dec (N.of_nat (dn_depth d)) ++ lit " resolve_ms " ++ ms 0 ++
  lit " fetch_ms " ++ ms 1 ++ lit " sync_ms " ++ ms 2 ++ lit " ready_ms " ++ ms 3 ++ lit " total_ms " ++ ms 4.
Definition get_fields (word key : bytes) (d : DownloadOutcome) : list LogField :=
  [(lit "name", word); (lit "key", key); (lit "result", lit "ok"); (lit "bytes", dec (dn_size d));
   (lit "chunks", dec (N.of_nat (dn_chunks d))); (lit "manifests", dec (N.of_nat (dn_manifests d))); (lit "ms", ms 4)].

Definition fetch_command (word key dest : bytes) c : option (Z * Client W) :=
  '(d, disk, σ) ← download_file get key dest (uo_workers (co_transfer o)) (ce_download env) (cl_disk c) (ring_state c);
  let c := record_stats (lit "get") (over σ (c <| cl_disk := disk |>)) in
  if negb (dn_ok d) then fails 1 (lit "download failed: " ++ dn_message d) c
  else Some (0%Z, print (get_line word key d) (note_event Info (lit "client.get") (get_fields word key d) c)).

Definition get_command (name dest : bytes) c : option (Z * Client W) :=
  '(r, c) ← resolve name c;
  match r with
  | inl err => fails 1 err c
  | inr key => fetch_command name key dest c
  end.
Definition get_key_command (key dest : bytes) c : option (Z * Client W) :=
  if negb (valid_key key) then fails 2 (lit "a key is 40 lowercase hexadecimal characters") c else fetch_command key key dest c.

(** ** info, resolve, delete *)

Definition info_line (name key : bytes) (r : Resolved) : bytes :=
  lit "info " ++ name ++ lit " " ++ key ++ lit " bytes " ++ dec (rs_size r) ++ lit " chunk " ++ dec (rs_chunk r) ++ lit " chunks " ++
  dec (N.of_nat (length (rs_chunks r))) ++ lit " manifests " ++ dec (N.of_nat (rs_manifests r)) ++ lit " depth " ++ dec (N.of_nat (rs_depth r)).

Definition info_command (name : bytes) c : option (Z * Client W) :=
  '(r, c) ← resolve name c;
  match r with
  | inl err => fails 1 err c
  | inr key =>
      '(r, σ) ← resolve_manifest get key CHUNK_ATTEMPTS (ring_state c);
      let c := over σ c in
      if negb (rs_ok r) then fails 1 (lit "manifest check failed: " ++ rs_message r) c else Some (0%Z, print (info_line name key r) c)
  end.

Definition resolve_command (name : bytes) c : option (Z * Client W) :=
  '(r, c) ← resolve name c;
  match r with inl err => fails 1 err c | inr key => Some (0%Z, print key c) end.

(** The token is the word given, or else the line of the token file. *)
Definition delete_command (name : bytes) (token : option bytes) c : option (Z * Client W) :=
  match (match token with
         | Some secret => Some secret
         | None => if bool_decide (co_token_file o = []) then None else read_secret (files (co_token_file o))
         end) with
  | None => fails 2 (lit "delete needs the token: <token> or --token-file") c
  | Some secret =>
      if negb (valid_name name) || negb (valid_secret secret) then fails 2 (lit "a token is 32 to 64 lowercase hexadecimal characters") c
      else
        '(ok, reply, c) ← ask_tracker (lit "UNREGISTER " ++ name ++ lit " " ++ secret) c;
        if negb ok then fails 1 reply c
        else if bool_decide (reply = lit "MISSING")
        then fails 1 (lit "no file is named " ++ name ++ lit " (if a retry was needed, an earlier attempt may have deleted it)") c
        else if bool_decide (reply = lit "DENIED") then fails 1 (lit "that token does not own " ++ name) c
        else if negb (bool_decide (reply = lit "OK")) then fails 1 (lit "the tracker answered: " ++ reply) c
        else Some (0%Z, print (lit "delete " ++ name ++ lit " ok")
                          (note_event Info (lit "client.delete") [(lit "name", name); (lit "result", lit "ok")] c))
  end.

(** ** ls *)

(** Up to [n] words printed; the last one. *)
Fixpoint print_words (n : nat) (rest after : bytes) c : bytes * Client W :=
  match n with
  | 0 => (after, c)
  | S n => match take_word rest with
           | None => (after, c)
           | Some (word, rest) => print_words n rest word (print word c)
           end
  end.

Definition names_header (reply : bytes) : option (nat * bytes) :=
  '(tag, rest) ← take_word reply;
  '(n, rest) ← take_int rest;
  if negb (bool_decide (tag = lit "NAMES")) || (n <? 0)%Z then None else Some (Z.to_nat n, rest).

Fixpoint list_pages (pages : nat) (after : bytes) c : option (Z * Client W) :=
  match pages with
  | 0 => None
  | S pages =>
      '(ok, reply, c) ← ask_tracker (if bool_decide (after = []) then lit "LIST" else lit "LIST " ++ after) c;
      if negb ok then fails 1 reply c
      else match names_header reply with
      | None => fails 1 (lit "the tracker answered: " ++ reply) c
      | Some (0, _) => Some (0%Z, c)
      | Some (n, rest) => let '(after, c) := print_words n rest after c in list_pages pages after c
      end
  end.

(** ** The program *)

(** [None]: a usage error. *)
Definition dispatch (words : list bytes) c : option (option (Z * Client W)) :=
  match words with
  | [] => None
  | cmd :: args =>
      let cmd_is x := bool_decide (cmd = x) in
      match args with
      | [a; b] =>
          if cmd_is (lit "put") then Some (put_command a b c)
          else if cmd_is (lit "get") then Some (get_command a b c)
          else if cmd_is (lit "get-key") then Some (get_key_command a b c)
          else if cmd_is (lit "delete") then Some (delete_command a (Some b) c) else None
      | [a] =>
          if cmd_is (lit "info") then Some (info_command a c)
          else if cmd_is (lit "resolve") then Some (resolve_command a c)
          else if cmd_is (lit "delete") then Some (delete_command a None c) else None
      | [] => if cmd_is (lit "ls") then Some (list_pages fuel [] c) else None
      | _ => None
      end
  end.

Definition NEEDS_TRACKER : list bytes := [lit "put"; lit "get"; lit "info"; lit "resolve"; lit "ls"; lit "delete"].
Definition NEEDS_RING : list bytes := [lit "put"; lit "get"; lit "get-key"; lit "info"].

Definition spaced (words : list bytes) : bytes := foldl (λ all w, all ++ (if bool_decide (all = []) then [] else lit " ") ++ w) [] words.

(** The command of a parsed command line: its exit status. *)
Definition run_command c : option (Z * Client W) :=
  let c := note_event Info (lit "client.start") [(lit "command", spaced (co_words o))] c in
  let cmd := default [] (head (co_words o)) in
  if (bool_decide (cmd ∈ NEEDS_TRACKER) && negb (co_have_tracker o)) || (bool_decide (cmd ∈ NEEDS_RING) && bool_decide (co_seeds o = []))
  then Some (2%Z, c)
  else match dispatch (co_words o) c with Some r => r | None => Some (2%Z, c) end.
End commands.

(** The process: its options, then its log and its request id. [log_opens]: the
    descriptor of the log file, or none. *)
Definition client_group (o : ClientOptions) : GroupClient := mkGroupClient (co_tracker o) (co_wait o) 100 0.
Definition client_logger (o : ClientOptions) (log_opens : option Z) (fresh : bytes) : option Logger :=
  fd ← (if bool_decide (co_log o = []) then Some (-1)%Z else log_opens);
  Some (mkLogger (lit "client") (co_level o) fd (if bool_decide (co_request_id o = []) then fresh else co_request_id o)).
