(* ===== verification/ChunkMain.v ===== *)
(** * ChunkMain: the chunk program (chunk_main.cpp)

    Chunks written and read through a ring from the command line: one put or get,
    or a batch with one result line for each command. The pseudo-random chunks of a
    benchmark come from the Standard's 64-bit Mersenne Twister, modelled exactly.
    The exchanges, standard input, the files and the measured times are parameters.
    What is printed through [%s] ends at a NUL. *)
From S2P Require Import Prelude Text Net Chord Lookup Routing Stabilize Store Chunk Client.

(** ** [std::mt19937_64] *)

Definition MT_N : nat := 312.
Definition MT_M : nat := 156.
Definition MT_LOWER : Z := 0x7fffffff.
Definition MT_MATRIX : Z := 0xb5026f5aa96619e9.
Definition MT_FACTOR : Z := 6364136223846793005.

Fixpoint mt_seed_go (n : nat) (i x : Z) : list Z :=
  match n with
  | 0 => []
  | S n => let next := wrap64 (MT_FACTOR * Z.lxor x (Z.shiftr x 62) + i) in x :: mt_seed_go n (i + 1) next
  end.
Definition mt_seed (seed : Z) : list Z := mt_seed_go MT_N 1 (wrap64 seed).

Definition mt_temper (x : Z) : Z :=
  let x := Z.lxor x (Z.land (Z.shiftr x 29) 0x5555555555555555) in
  let x := Z.lxor x (Z.land (wrap64 (Z.shiftl x 17)) 0x71d67fffeda60000) in
  let x := Z.lxor x (Z.land (wrap64 (Z.shiftl x 37)) 0xfff7eee000000000) in
  Z.lxor x (Z.shiftr x 43).

(** The state is the last [MT_N] words, the oldest first. *)
Definition mt_next (s : list Z) : Z * list Z :=
  let x0 := default 0%Z (s !! 0) in
  let x1 := default 0%Z (s !! 1) in
  let y := Z.lor (x0 - Z.land x0 MT_LOWER) (Z.land x1 MT_LOWER) in
  let x := Z.lxor (default 0%Z (s !! MT_M)) (Z.lxor (Z.shiftr y 1) (if Z.odd y then MT_MATRIX else 0)) in
  (mt_temper x, drop 1 s ++ [x]).

Fixpoint mt_bytes (n : nat) (s : list Z) : bytes :=
  match n with
  | 0 => []
  | S n => let '(x, s) := mt_next s in chr (Z.to_N (Z.land x 255)) :: mt_bytes n s
  end.
Definition generated (n : nat) (seed : Z) : bytes := mt_bytes n (mt_seed seed).

(** The value the C++ Standard prescribes: the 10000th of the default seed. *)
Example mt_standard_value : (mt_next (Nat.iter 9999 (λ s, (mt_next s).2) (mt_seed 5489))).1 = 9981545732273789042%Z.
Proof. vm_compute. reflexivity. Qed.

(** ** One operation *)

Definition where_ (p : Peer) : bytes := address p.

(** [in >> n] of an unsigned 64-bit number: a sign is read, and minus wraps. *)
Definition take_unsigned (s : bytes) : option (Z * bytes) :=
  let s := drop_spaces s in
  let negative := bool_decide (head s = Some (chr 45)) in
  let s := if negative || bool_decide (head s = Some (chr 43)) then drop 1 s else s in
  match digits_end s with
  | 0 => None
  | n => v ← digits_val (take n s);
         let v := Z.of_N v in
         if (W64 <=? v)%Z then None else Some (if negative then wrap64 (- v) else v, drop n s)
  end.

(** A file's or standard input's content, unless it is larger than a chunk. *)
Definition read_file (content : bytes) : option bytes := if (MAX_CHUNK <? N.of_nat (length content))%N then None else Some content.

(** The text occurs in the line. *)
Fixpoint occurs_in (p s : bytes) : bool :=
  starts_with p s || match s with [] => false | _ :: s => occurs_in p s end.
Definition says_ok (line : bytes) : bool := occurs_in (lit " ok ") line.

Section operations.
Context {SH : Sha1} {IN : Inet} {W : Type} (socket_transport : Transport W) (client_frames : FrameTransport W).

Definition put_result (body : bytes) (us : Z) (p : PutOutcome) : bytes :=
  if po_ok p then lit "put " ++ chunk_key body ++ lit " ok " ++ to_string (po_copies p) ++ lit " " ++ to_string us ++ lit " " ++
    where_ (po_coordinator p) ++ lit " attempts " ++ dec (N.of_nat (po_attempts p))
  else lit "put " ++ chunk_key body ++ lit " fail " ++ to_string us ++ lit " : " ++ po_message p.
Definition put_line (body : bytes) (w : nat) (start : Peer) (us : Z) (σ : W) : bytes * W :=
  let '(p, σ) := put_chunk socket_transport client_frames start body w LOOKUP_RETRIES σ in (put_result body us p, σ).

Definition get_result (key : bytes) (us : Z) (g : GetOutcome) : bytes :=
  if go_ok g then lit "get " ++ key ++ lit " ok " ++ to_string us ++ lit " " ++ where_ (go_served_by g) ++ lit " tried " ++
    dec (N.of_nat (length (go_tried g)))
  else lit "get " ++ key ++ lit " fail " ++ to_string us ++ lit " : " ++ go_message g.
Definition get_line (key : bytes) (start : Peer) (us : Z) (σ : W) : bytes * W :=
  let '(g, σ) := get_chunk socket_transport client_frames start key LOOKUP_RETRIES σ in (get_result key us g, σ).

(** ** The batch *)

Definition copies_ok (w : Z) : bool := (1 <=? w)%Z && (w <=? 3)%Z.

(** A command's body: a file of the name, or [bytes] made from a seed. *)
Definition put_args (files : bytes → option bytes) (rest : bytes) : option (nat * bytes) :=
  '(w, rest) ← take_int rest; '(path, _) ← take_word rest;
  if negb (copies_ok w) then None else content ← files path; body ← read_file content; Some (Z.to_nat w, body).
Definition random_args (rest : bytes) : option bytes :=
  '(n, rest) ← take_unsigned rest; '(seed, _) ← take_unsigned rest;
  if (Z.of_N MAX_CHUNK <? n)%Z then None else Some (generated (Z.to_nat n) seed).
Definition putrand_args (rest : bytes) : option (nat * bytes) :=
  '(w, rest) ← take_int rest; '(n, rest) ← take_unsigned rest; '(seed, _) ← take_unsigned rest;
  if negb (copies_ok w) || (Z.of_N MAX_CHUNK <? n)%Z then None else Some (Z.to_nat w, generated (Z.to_nat n) seed).

(** One command's result line; [None]: the line held nothing. *)
Definition run_line (start : Peer) (files : bytes → option bytes) (line : bytes) (us : Z) (σ : W) : option (bytes * W) :=
  '(verb, rest) ← take_word line;
  Some
    (if bool_decide (verb = lit "put") then
       match put_args files rest with
       | Some (w, body) => put_line body w start us σ
       | None => (lit "put - fail 0 : bad command or unreadable file", σ)
       end
     else if bool_decide (verb = lit "putrand") then
       match putrand_args rest with
       | Some (w, body) => put_line body w start us σ
       | None => (lit "putrand - fail 0 : bad command", σ)
       end
     else if bool_decide (verb = lit "keyrand") then
       (match random_args rest with
        | Some body => lit "keyrand " ++ chunk_key body ++ lit " ok -"
        | None => lit "keyrand - fail 0 : bad command"
        end, σ)
     else if bool_decide (verb = lit "get") then
       match take_word rest with
       | Some (key, _) => get_line key start us σ
       | None => (lit "get - fail 0 : bad command", σ)
       end
     else (verb ++ lit " - fail 0 : unknown command", σ)).

(** [times]: what each operation is measured to take. *)
Fixpoint run_batch (start : Peer) (files : bytes → option bytes) (times : nat → Z) (i : nat) (lines : list bytes) (σ : W)
    : list bytes * bool * W :=
  match lines with
  | [] => ([], false, σ)
  | line :: lines =>
      match run_line start files line (times i) σ with
      | None => run_batch start files times (i + 1) lines σ
      | Some (out, σ) =>
          let '(outs, failed, σ) := run_batch start files times (i + 1) lines σ in
          (c_str out :: outs, negb (says_ok out) || failed, σ)
      end
  end.

(** ** The program *)

(** What a run leaves: its status, the lines and the bytes on standard output, the
    lines on standard error. *)
Record ChunkRun := mkChunkRun { ch_status : Z; ch_out : list bytes; ch_bytes : bytes; ch_err : list bytes }.
Definition usage : ChunkRun := mkChunkRun 2 [] [] [].

(** [--w]: one digit from 1 to 3. *)
Definition w_option (rest : list bytes) : option nat :=
  match rest with
  | [] => Some DEFAULT_W
  | [_; t] => match t with [c] => d ← digit_val c; if (1 <=? d)%N && (d <=? 3)%N then Some (N.to_nat d) else None | _ => None end
  | _ => None
  end.

Definition put_mode (start : Peer) (w : nat) (input : bytes) (us : Z) (σ : W) : ChunkRun * W :=
  match read_file input with
  | None => (mkChunkRun 1 [] [] [lit "chunk: input is larger than " ++ dec MAX_CHUNK ++ lit " bytes"], σ)
  | Some body => let '(out, σ) := put_line body w start us σ in (mkChunkRun (if says_ok out then 0 else 1) [c_str out] [] [], σ)
  end.
Definition get_mode (start : Peer) (key : bytes) (σ : W) : ChunkRun * W :=
  let '(g, σ) := get_chunk socket_transport client_frames start key LOOKUP_RETRIES σ in
  let notes := (λ t, lit "chunk: " ++ c_str t) <$> go_tried g in
  (if negb (go_ok g) then mkChunkRun 1 [] [] (notes ++ [lit "chunk: " ++ c_str (go_message g)]) else mkChunkRun 0 [] (go_body g) notes, σ).
Definition batch_mode (start : Peer) (files : bytes → option bytes) (times : nat → Z) (input : bytes) (σ : W) : ChunkRun * W :=
  let '(outs, failed, σ) := run_batch start files times 0 (getlines NL input) σ in
  (mkChunkRun (if (failed : bool) then 1 else 0) outs [] [], σ).

Definition chunk_main (args : list bytes) (input : bytes) (files : bytes → option bytes) (times : nat → Z) (σ : W) : ChunkRun * W :=
  match args with
  | mode :: node :: rest =>
      match parse_members node with
      | inr [start] =>
          if bool_decide (mode = lit "put") && ((length rest =? 0) || ((length rest =? 2) && bool_decide (head rest = Some (lit "--w")))) then
            match w_option rest with Some w => put_mode start w input (times 0) σ | None => (usage, σ) end
          else match rest with
          | [key] => if bool_decide (mode = lit "get") then get_mode start key σ else (usage, σ)
          | [] => if bool_decide (mode = lit "batch") then batch_mode start files times input σ else (usage, σ)
          | _ => (usage, σ)
          end
      | _ => (mkChunkRun 2 [] [] [lit "chunk: invalid start node " ++ node], σ)
      end
  | _ => (usage, σ)
  end.
End operations.

(** ** What a batch's status says *)

Section status.
Context {SH : Sha1} {IN : Inet} {W : Type} (tr : Transport W) (fr : FrameTransport W).

Lemma run_batch_status start files times i lines σ :
  let '(outs, failed, _) := run_batch tr fr start files times i lines σ in failed = false → Forall (λ o, ∃ out, o = c_str out ∧ says_ok out = true) outs.
Proof.
  revert i σ. induction lines as [|line lines IH]; intros i σ; cbn [run_batch]; [done|].
  destruct (run_line tr fr start files line (times i) σ) as [[out σ1]|]; [|apply IH].
  specialize (IH (i + 1) σ1). destruct (run_batch tr fr start files times (i + 1) lines σ1) as [[outs failed] σ2].
  intros [H1 H2]%orb_false_iff. apply negb_false_iff in H1. constructor; [by exists out|by apply IH].
Qed.

(** A get that ends well printed the digest of the bytes it read. *)
Lemma occurs_in_app p a b : occurs_in p (a ++ p ++ b) = true.
Proof.
  induction a as [|c a IH]; cbn [app]; [|cbn [occurs_in]; by rewrite IH, orb_true_r].
  destruct (p ++ b) as [|x s] eqn:E; cbn [occurs_in]; rewrite <- ?E, starts_with_app; done.
Qed.
Lemma get_result_ok key us g : go_ok g = true → says_ok (get_result key us g) = true.
Proof.
  intros H. unfold says_ok, get_result. rewrite H. rewrite (app_assoc (lit "get ") key). apply occurs_in_app.
Qed.
Lemma put_result_ok body us p : po_ok p = true → says_ok (put_result body us p) = true.
Proof.
  intros H. unfold says_ok, put_result. rewrite H. rewrite (app_assoc (lit "put ")). apply occurs_in_app.
Qed.
End status.

(** The converse fails: a get that failed is taken for a success when a node's answer,
    which the line quotes, holds " ok ". *)
Example batch_status_misled :
  let send : FrameTransport unit := λ _ _ _ σ, ((Ok, (lit "ERR ok then", [])), σ) in
  let key := hex_go 40 (Z.shiftl 255 96) in
  let start := mkPeer 10 "10.0.0.1" 9001 in
  go_ok (get_chunk (SH := demo_sha1) (ring_transport demo_ring) send start key LOOKUP_RETRIES tt).1 = false ∧
  (run_batch (SH := demo_sha1) (ring_transport demo_ring) send start (λ _, None) (λ _, 0%Z) 0 [lit "get " ++ key] tt).1.2 = false.
Proof. vm_compute. by split. Qed.
