(* ===== verification/ClientMetrics.v ===== *)
(** * ClientMetrics: what a client exposes while a command runs (client.cpp)

    [register_metrics] and the observers of client.cpp over the registry. *)
From Stdlib Require Import SpecFloat.
From S2P Require Import Prelude Text Log Chord Lookup Transfer Client Metrics NodeMetrics.

Section client.
Context {W : Type}.

(** The counters are indexed by put or get, and by failed or ok. *)
Record ClientInstruments := mkClientInstruments {
  ci_lookup_hops : nat; ci_lookup_seconds : nat; ci_lookup_failures : nat;
  ci_chunks : list (list nat); ci_bytes : list nat; ci_chunk_seconds : list nat }.

Local Open Scope reg_scope.

Definition OPS : list bytes := [lit "put"; lit "get"].
Definition register_op (op : bytes) : Reg W (list nat * nat * nat) :=
  chunks ← reg_each (λ ok : bool, counter (lit "chordfs_client_chunks_total") (lit "Chunks moved by this client, by result.")
    (labels [(lit "op", op); (lit "result", if ok then lit "ok" else lit "failed")])) [false; true];
  moved ← counter (lit "chordfs_client_bytes_total") (lit "Chunk bytes moved by this client.") (labels [(lit "op", op)]);
  seconds ← histogram (lit "chordfs_client_chunk_seconds")
    (lit "Per chunk, from its first attempt to stored (put) or verified and written (get).") latency_buckets (labels [(lit "op", op)]);
  reg_ret (chunks, moved, seconds).

Definition register_metrics (started : double) : Reg W ClientInstruments :=
  gauge (lit "process_start_time_seconds") (lit "When this process started, in seconds since the Unix epoch.") (λ _, started) [];;
  hops ← histogram (lit "chordfs_lookup_hops") (lit "Fingers followed per lookup (D-026).") hop_buckets [];
  seconds ← histogram (lit "chordfs_lookup_seconds") (lit "Time per successful lookup.") latency_buckets [];
  failures ← counter (lit "chordfs_lookup_failures_total") (lit "Lookups that failed.") [];
  ops ← reg_each register_op OPS;
  reg_ret (mkClientInstruments hops seconds failures (fst ∘ fst <$> ops) (snd ∘ fst <$> ops) (snd <$> ops)).

(** Every lookup of the command ends here. *)
Definition observe_lookup (ci : ClientInstruments) (r : LookupResult) (seconds : double) (rg : Registry W) : Registry W :=
  if negb (bool_decide (error r = LNone)) then counter_add (ci_lookup_failures ci) 1 rg
  else observe_own (ci_lookup_seconds ci) seconds (observe_own (ci_lookup_hops ci) (d_of_nat (hops r)) rg).

(** Told of each chunk as it finishes; [op] is 0 for a put, 1 for a get. The event
    is logged at the debug level. *)
Definition chunk_observer (ci : ClientInstruments) (op : nat) (t : ChunkTiming) (rg : Registry W) : Registry W :=
  let rg := counter_add (default 0 (default [] (ci_chunks ci !! op) !! (if ct_ok t then 1 else 0))) 1 rg in
  if negb (ct_ok t) then rg
  else observe_own (default 0 (ci_chunk_seconds ci !! op)) (d_div (d_of_Z (ct_micros t)) MILLION)
    (counter_add (default 0 (ci_bytes ci !! op)) (ct_bytes t) rg).
Definition observer_entry (op : nat) (t : ChunkTiming) (ms : bytes) : Level * bytes * list LogField :=
  (Debug, (if op =? 0 then lit "client.chunk.put" else lit "client.chunk.get"),
   [(lit "index", dec (ct_index t)); (lit "bytes", dec (ct_bytes t)); (lit "ms", ms); (lit "attempts", dec (N.of_nat (ct_attempts t)))]).
End client.
