(* ===== verification/Collect.v ===== *)
(** * Collect: the garbage collector (collect.h, collect.cpp)

    Mark and sweep over the whole system: list every name, read every manifest
    tree, and ask each node to drop what no tree refers to. The tracker, the ring,
    the nodes and the clock are passed in ([CollectIO]), each a state passing
    function. A time in seconds, a [double] in the source, is a whole number of
    microseconds here. *)
From S2P Require Import Prelude Text Net Chord Lookup OrdMap Store Names Stabilize Chunk Manifest.

(** ** Replies *)

Definition parse_count (w : bytes) : option N := parse_canonical 18 w.

Fixpoint parse_pairs (w : list bytes) : option (list (bytes * bytes)) :=
  match w with
  | [] => Some []
  | name :: key :: w =>
      if negb (valid_name name) || negb (valid_key key) then None
      else page ← parse_pairs w; Some ((name, key) :: page)
  | [_] => None
  end.

Definition parse_entries_reply (reply : bytes) : option (list (bytes * bytes)) :=
  match split_single_spaces reply with
  | verb :: count :: w =>
      if negb (bool_decide (verb = lit "ENTRIES")) then None
      else n ← parse_count count;
           if negb (N.of_nat (length w) =? 2 * n)%N then None else parse_pairs w
  | _ => None
  end.

(** The keys in order and without repeats, [last] before them. *)
Fixpoint parse_sorted_keys (last : option bytes) (w : list bytes) : option (list bytes) :=
  match w with
  | [] => Some []
  | k :: w =>
      if negb (valid_key k) || match last with Some l => negb (blt l k) | None => false end then None
      else keys ← parse_sorted_keys (Some k) w; Some (k :: keys)
  end.

Definition parse_keys_reply (reply : bytes) : option (list bytes * Z) :=
  match split_single_spaces reply with
  | verb :: count :: grace :: w =>
      if negb (bool_decide (verb = lit "KEYS")) then None
      else n ← parse_count count; g ← parse_count grace;
           if negb (N.of_nat (length w) =? n)%N then None
           else keys ← parse_sorted_keys None w; Some (keys, Z.of_N g)
  | _ => None
  end.

Definition parse_dropped_reply (reply : bytes) (asked : nat) : option (bytes * N) :=
  match split_single_spaces reply with
  | [verb; bits; count] =>
      if negb (bool_decide (verb = lit "DROPPED")) || negb (length bits =? asked) then None
      else freed ← parse_count count;
           if forallb (λ c, bool_decide (c = chr 48) || bool_decide (c = chr 49)) bits then Some (bits, freed) else None
  | _ => None
  end.

(** ** Finding every node *)

Definition add_process (processes : list Peer) (p : Peer) : list Peer :=
  if existsb (same_process p) processes then processes else processes ++ [p].

Section walk.
Context {SH : Sha1} {IN : Inet} {St : Type} (route : Transport St).

(** The processes found, and what went wrong if the walk did not close. *)
Fixpoint walk_steps (steps : nat) (start current : Peer) (processes : list Peer) (σ : St) : option bytes * list Peer * St :=
  match steps with
  | 0 => (Some [], processes, σ)
  | S steps =>
      let '((d, line), σ) := route current (lit "NEIGHBOURS") σ in
      let asked := if bool_decide (d = Ok) then parse_neighbours line else inl [] in
      match asked with
      | inl why =>
          (Some (lit "could not ask " ++ address current ++ lit " for its successors" ++
                 (if bool_decide (why = []) then [] else lit ": " ++ why)), processes, σ)
      | inr nb =>
          let processes := foldl add_process processes (nb_succs nb) in
          match last (nb_succs nb) with
          | None => (None, processes, σ)
          | Some far =>
              if existsb (λ p, same_node p start) (nb_succs nb) || same_node far current then (None, processes, σ)
              else walk_steps steps start far processes σ
          end
      end
  end.

Definition walk_ring (start : Peer) (max_steps : nat) (σ : St) : option bytes * list Peer * St :=
  let '(err, processes, σ) := walk_steps max_steps start start [start] σ in
  (match err with
   | Some [] => Some (lit "the ring walk did not close after " ++ dec (N.of_nat max_steps) ++ lit " steps")
   | _ => err
   end, processes, σ).
End walk.

(** ** The collection *)

Definition SECOND : Z := 1000000.

Record CollectSettings := mkCollectSettings {
  cs_gc_key : bytes; cs_dry_run : bool; cs_deadline : Z; cs_upload_limit : Z; cs_tracker_wait : Z }.

Record CollectIO (St : Type) := mkCollectIO {
  io_entries : bytes → St → (bytes + list (bytes * bytes)) * St;
  io_get : GetFn St;
  io_nodes : St → (list Peer * option bytes) * St;
  io_ask : Peer → bytes → St → (Delivery * bytes) * St;
  io_now : St → Z * St }.
#[global] Arguments mkCollectIO {_}.
#[global] Arguments io_entries {_}.
#[global] Arguments io_get {_}.
#[global] Arguments io_nodes {_}.
#[global] Arguments io_ask {_}.
#[global] Arguments io_now {_}.

Record NodeSweep := mkNodeSweep {
  sw_address : bytes; sw_grace : Z; sw_held : nat; sw_garbage : nat; sw_dropped : nat; sw_bytes : N; sw_skipped : bytes }.
#[export] Instance NodeSweep_eta : Eta NodeSweep := λ s,
  mkNodeSweep (sw_address s) (sw_grace s) (sw_held s) (sw_garbage s) (sw_dropped s) (sw_bytes s) (sw_skipped s).

Record CollectReport := mkCollectReport {
  cr_ok : bool; cr_message : bytes; cr_names : nat; cr_roots : nat; cr_live : nat; cr_nodes : list NodeSweep;
  cr_garbage : nat; cr_dropped : nat; cr_freed : N; cr_deadline_hit : bool; cr_mark : Z; cr_sweep : Z }.
#[export] Instance CollectReport_eta : Eta CollectReport := λ r,
  mkCollectReport (cr_ok r) (cr_message r) (cr_names r) (cr_roots r) (cr_live r) (cr_nodes r) (cr_garbage r)
    (cr_dropped r) (cr_freed r) (cr_deadline_hit r) (cr_mark r) (cr_sweep r).
Definition no_report : CollectReport := mkCollectReport false [] 0 0 0 [] 0 0 0 false 0 0.

(** [std::set<std::string>]. *)
Abbreviation KeySet := (list (bytes * unit)) (only parsing).
Definition set_insert (s : KeySet) (k : bytes) : KeySet := om_set k tt s.
Definition set_has (s : KeySet) (k : bytes) : bool := bool_decide (om_find k s ≠ None).

Section collect.
Context {St : Type} (io : CollectIO St).

(** Every name. [None]: out of fuel, the tracker still sending pages. *)
Fixpoint list_names (fuel : nat) (after : bytes) (all : list (bytes * bytes)) (σ : St)
    : option ((bytes + list (bytes * bytes)) * St) :=
  match fuel with
  | 0 => None
  | S fuel =>
      let '(r, σ) := io_entries io after σ in
      match r with
      | inl err => Some (inl (lit "could not list the names: " ++ err), σ)
      | inr page =>
          match last page with
          | None => Some (inr all, σ)
          | Some e => list_names fuel e.1 (all ++ page) σ
          end
      end
  end.

Definition names_of (all : list (bytes * bytes)) (root : bytes) : bytes :=
  foldl (λ named (e : bytes * bytes),
           if bool_decide (e.2 = root) then named ++ (if bool_decide (named = []) then [] else lit ", ") ++ e.1 else named) [] all.

Definition add_tree (live : KeySet) (r : Resolved) : KeySet :=
  foldl set_insert (foldl set_insert live (rs_manifest_keys r)) (cr_key <$> rs_chunks r).

(** Every tree, into the live set. *)
Fixpoint mark_roots (all : list (bytes * bytes)) (roots : list bytes) (live : KeySet) (σ : St) : option ((bytes + KeySet) * St) :=
  match roots with
  | [] => Some (inr live, σ)
  | root :: roots =>
      '(r, σ) ← resolve_manifest (io_get io) root CHUNK_ATTEMPTS σ;
      if negb (rs_ok r)
      then Some (inl (lit "the manifest tree of " ++ names_of all root ++ lit " could not be read (" ++ rs_message r ++
                      lit "); nothing was dropped"), σ)
      else mark_roots all roots (add_tree live r) σ
  end.

Definition could_not_list (reply : bytes) : bytes := lit "could not list its chunks (" ++ take 80 reply ++ lit ")".

(** What one node holds: the flag, the sweep so far and the garbage. *)
Fixpoint list_chunks (fuel : nat) (p : Peer) (live : KeySet) (cursor : bytes) (ns : NodeSweep) (garbage : list bytes) (σ : St)
    : option (bool * NodeSweep * list bytes * St) :=
  match fuel with
  | 0 => None
  | S fuel =>
      let '((d, reply), σ) := io_ask io p (lit "KEYS " ++ cursor) σ in
      match (if bool_decide (d = Ok) then parse_keys_reply reply else None) with
      | None => Some (false, ns <| sw_skipped := could_not_list reply |>, garbage, σ)
      | Some (keys, grace) =>
          let ns := ns <| sw_grace := grace |> in
          match last keys with
          | None => Some (true, ns, garbage, σ)
          | Some k =>
              list_chunks fuel p live k (ns <| sw_held := sw_held ns + length keys |>)
                (garbage ++ filter (λ k, set_has live k = false) keys) σ
          end
      end
  end.

Definition count_ones (bits : bytes) : nat := length (filter (λ b, b = chr 49) bits).

Definition drop_line (gc_key : bytes) (batch : list bytes) : bytes := lit "DROP " ++ gc_key ++ concat ((λ k, lit " " ++ k) <$> batch).

(** The DROP requests, in batches: whether the deadline passed, and the sweep. *)
Fixpoint drop_batches (s : CollectSettings) (t0 : Z) (p : Peer) (batches : list (list bytes)) (ns : NodeSweep) (σ : St)
    : bool * NodeSweep * St :=
  match batches with
  | [] => (false, ns, σ)
  | batch :: batches =>
      let '(now, σ) := io_now io σ in
      if (cs_deadline s <? now - t0)%Z then (true, ns, σ)
      else
        let '((d, reply), σ) := io_ask io p (drop_line (cs_gc_key s) batch) σ in
        match (if bool_decide (d = Ok) then parse_dropped_reply reply (length batch) else None) with
        | None => (false, ns <| sw_skipped := lit "DROP refused (" ++ take 80 reply ++ lit ")" |>, σ)
        | Some (bits, freed) =>
            drop_batches s t0 p batches
              (ns <| sw_dropped := sw_dropped ns + count_ones bits |> <| sw_bytes := wrap64N (sw_bytes ns + freed) |>) σ
        end
  end.

Definition needed (s : CollectSettings) : Z := cs_upload_limit s + cs_tracker_wait s + cs_deadline s.
Definition grace_too_short (s : CollectSettings) (grace : Z) : bytes :=
  lit "its grace (" ++ to_string grace ++ lit " s) is shorter than the upload limit, the tracker wait " ++
  lit "and this collection's deadline together (" ++ to_string (needed s ÷ SECOND) ++ lit " s)".

Definition sweep_node (fuel : nat) (s : CollectSettings) (t0 : Z) (live : KeySet) (p : Peer) (σ : St)
    : option (bool * NodeSweep * St) :=
  '(listed, ns, garbage, σ) ← list_chunks fuel p live (lit "-") (mkNodeSweep (address p) (-1) 0 0 0 0 []) [] σ;
  let ns := if listed && (sw_grace ns * SECOND <? needed s)%Z then ns <| sw_skipped := grace_too_short s (sw_grace ns) |> else ns in
  let ns := ns <| sw_garbage := length garbage |> in
  Some (if negb (bool_decide (sw_skipped ns = [])) || cs_dry_run s then (false, ns, σ)
        else drop_batches s t0 p (cut MAX_HAVE_KEYS garbage) ns σ).

Fixpoint sweep_nodes (fuel : nat) (s : CollectSettings) (t0 : Z) (live : KeySet) (processes : list Peer) (rep : CollectReport) (σ : St)
    : option (CollectReport * St) :=
  match processes with
  | [] => Some (rep, σ)
  | p :: processes =>
      '(hit, ns, σ) ← sweep_node fuel s t0 live p σ;
      let rep := rep <| cr_garbage := cr_garbage rep + sw_garbage ns |> <| cr_dropped := cr_dropped rep + sw_dropped ns |>
                     <| cr_freed := wrap64N (cr_freed rep + sw_bytes ns) |> <| cr_nodes := cr_nodes rep ++ [ns] |>
                     <| cr_deadline_hit := hit |> in
      if hit then Some (rep, σ) else sweep_nodes fuel s t0 live processes rep σ
  end.

(** [fuel] bounds the pages of one listing. *)
Definition collect (fuel : nat) (s : CollectSettings) (σ : St) : option (CollectReport * St) :=
  let '(t0, σ) := io_now io σ in
  '(listing, σ) ← list_names fuel [] [] σ;
  match listing with
  | inl err => Some (no_report <| cr_message := err |>, σ)
  | inr all =>
      let roots := foldl set_insert [] all.*2 in
      let rep := no_report <| cr_names := length all |> <| cr_roots := length roots |> in
      '(marked, σ) ← mark_roots all roots.*1 [] σ;
      match marked with
      | inl err => Some (rep <| cr_message := err |>, σ)
      | inr live =>
          let '(t1, σ) := io_now io σ in
          let rep := rep <| cr_live := length live |> <| cr_mark := (t1 - t0)%Z |> in
          let '((processes, err), σ) := io_nodes io σ in
          let rep := match err with
                     | Some e => rep <| cr_message := lit "the node list may be incomplete (" ++ e ++
                                          lit "); nodes missed keep their garbage" |>
                     | None => rep
                     end in
          '(rep, σ) ← sweep_nodes fuel s t0 live processes rep σ;
          let rep := if cr_deadline_hit rep
                     then rep <| cr_message := cr_message rep ++ (if bool_decide (cr_message rep = []) then [] else lit "; ") ++
                                  lit "the deadline passed: the rest was left for the next collection" |>
                     else rep in
          let '(t2, σ) := io_now io σ in
          Some (rep <| cr_sweep := (t2 - t0 - cr_mark rep)%Z |> <| cr_ok := true |>, σ)
      end
  end.
End collect.
