(* ===== verification/CollectSpec.v ===== *)
(** * CollectSpec: what the collector may and may not drop

    The claims about collect.cpp: a collection drops nothing that a listed file
    refers to, drops nothing at all if its mark fails, sends every DROP within its
    deadline, and sees every name and every chunk. What a collection leaves of an
    upload that is not yet registered is [UploadRace]. *)
From stdpp Require Import sorting.
From S2P Require Import Prelude Text Net Chord Lookup OrdMap Store Names Stabilize Chunk Manifest ManifestTree Collect.

(** ** What a collection does to the world *)

Inductive Event := Asked (p : Peer) (line : bytes) | Clock (t : Z).

(** The same system, with every request to a node and every reading of the clock written down. *)
Definition logged {St} (io : CollectIO St) : CollectIO (St * list Event) :=
  mkCollectIO
    (λ after σ, let '(r, σ1) := io_entries io after σ.1 in (r, (σ1, σ.2)))
    (λ key σ, let '(g, σ1) := io_get io key σ.1 in (g, (σ1, σ.2)))
    (λ σ, let '(r, σ1) := io_nodes io σ.1 in (r, (σ1, σ.2)))
    (λ p line σ, let '(r, σ1) := io_ask io p line σ.1 in (r, (σ1, σ.2 ++ [Asked p line])))
    (λ σ, let '(t, σ1) := io_now io σ.1 in (t, (σ1, σ.2 ++ [Clock t]))).

(** A request the collector may send: a listing, or a DROP of garbage sent right
    after a reading of the clock within the deadline. *)
Definition allowed (s : CollectSettings) (t0 : Z) (live : list (bytes * unit)) (pre : list Event) (line : bytes) : Prop :=
  (∃ cursor, line = lit "KEYS " ++ cursor) ∨
  (cs_dry_run s = false ∧ ∃ batch now pre', pre = pre' ++ [Clock now] ∧ (now - t0 <= cs_deadline s)%Z ∧
     line = drop_line (cs_gc_key s) batch ∧ 1 ≤ length batch ≤ MAX_HAVE_KEYS ∧ Forall (λ k, set_has live k = false) batch).

Definition all_allowed (s : CollectSettings) (t0 : Z) (live : list (bytes * unit)) (log : list Event) : Prop :=
  ∀ pre p line post, log = pre ++ Asked p line :: post → allowed s t0 live pre line.

Lemma all_allowed_snoc s t0 live log e : all_allowed s t0 live log →
  match e with Asked p line => allowed s t0 live log line | Clock _ => True end → all_allowed s t0 live (log ++ [e]).
Proof.
  intros Hl He pre p line post E. destruct post as [|e' post'] using rev_ind.
  - apply app_inj_tail in E as [-> ->]. done.
  - clear IHpost'. rewrite app_comm_cons, app_assoc in E. apply app_inj_tail in E as [-> _]. by eapply Hl.
Qed.

Section drops.
Context {St : Type} (io : CollectIO St) (s : CollectSettings) (t0 : Z) (live : list (bytes * unit)).
Abbreviation ok σ := (all_allowed s t0 live σ.2).

Lemma list_chunks_allowed fuel p cursor ns garbage σ r : ok σ → Forall (λ k, set_has live k = false) garbage →
  list_chunks (logged io) fuel p live cursor ns garbage σ = Some r →
  ok r.2 ∧ Forall (λ k, set_has live k = false) r.1.2.
Proof.
  revert cursor ns garbage σ. induction fuel as [|fuel IH]; intros cursor ns garbage [σ log] Hok Hg; [done|]. cbn [list_chunks logged io_ask].
  cbn [fst snd]. destruct (io_ask io p _ σ) as [[d reply] σ1]. cbn [fst snd].
  assert (Hok1 : ok (σ1, log ++ [Asked p (lit "KEYS " ++ cursor)])) by (apply all_allowed_snoc; [done|left; eauto]).
  destruct (if bool_decide _ then _ else _) as [[keys grace]|]; [|by intros [= <-]].
  destruct (last keys) as [k|]; [|by intros [= <-]]. apply IH; [done|]. apply Forall_app. split; [done|].
  apply Forall_forall. intros x Hx. by apply list_elem_of_filter in Hx as [? _].
Qed.

Lemma drop_batches_allowed p batches ns σ : ok σ → cs_dry_run s = false →
  Forall (λ b, 1 ≤ length b ≤ MAX_HAVE_KEYS ∧ Forall (λ k, set_has live k = false) b) batches →
  ok (drop_batches (logged io) s t0 p batches ns σ).2.
Proof.
  intros Hok Hdry Hb. revert ns σ Hok. induction Hb as [|batch batches [Hlen Hg] Hb IH]; intros ns [σ log] Hok; cbn [drop_batches]; [done|].
  cbn [logged io_now io_ask fst snd]. destruct (io_now io σ) as [now σ1].
  assert (Hok1 : ok (σ1, log ++ [Clock now])) by (by apply all_allowed_snoc).
  destruct (Z.ltb_spec (cs_deadline s) (now - t0)); [done|]. cbn [fst snd]. destruct (io_ask io p _ σ1) as [[d reply] σ2]. cbn [fst snd] in *.
  assert (Hok2 : ok (σ2, (log ++ [Clock now]) ++ [Asked p (drop_line (cs_gc_key s) batch)])).
  { apply all_allowed_snoc; [done|]. right. split; [done|]. by exists batch, now, log. }
  destruct (if bool_decide _ then _ else _) as [[bits freed]|]; [|done]. by apply IH.
Qed.

Lemma sweep_node_allowed fuel p σ r : ok σ → sweep_node (logged io) fuel s t0 live p σ = Some r → ok r.2.
Proof.
  intros Hok. unfold sweep_node. destruct (list_chunks _ _ _ _ _ _ _ _) as [[[[listed ns] garbage] σ1]|] eqn:E; cbn [mbind option_bind]; [|done].
  apply list_chunks_allowed in E as [Hok1 Hg]; [|done|constructor]. cbn [fst snd] in *. intros [= <-].
  destruct (negb _ || cs_dry_run s) eqn:Ed; [done|]. apply orb_false_iff in Ed as [_ Ed]. apply drop_batches_allowed; [done..|].
  eapply Forall_impl; [apply cut_go_sizes; unfold MAX_HAVE_KEYS; lia|]. intros g [H1 H2]. split; [done|].
  apply Forall_forall. intros k Hk. rewrite Forall_forall in Hg. by apply Hg, H2.
Qed.

Lemma sweep_nodes_allowed fuel processes rep σ r : ok σ →
  sweep_nodes (logged io) fuel s t0 live processes rep σ = Some r → ok r.2.
Proof.
  revert rep σ. induction processes as [|p processes IH]; intros rep σ Hok; cbn [sweep_nodes]; [by intros [= <-]|].
  destruct (sweep_node _ _ _ _ _ _ _) as [[[hit ns] σ1]|] eqn:E; cbn [mbind option_bind]; [|done].
  apply sweep_node_allowed in E; [|done]. cbn [snd] in E. destruct hit; [by intros [= <-]|by apply IH].
Qed.
End drops.

(** ** The mark *)

Lemma set_has_insert s k k' : set_has (set_insert s k) k' = bool_decide (k' = k) || set_has s k'.
Proof.
  unfold set_has, set_insert. rewrite om_find_set. destruct (decide (k' = k)) as [->|Hne].
  - by rewrite (bool_decide_true (k = k)).
  - by rewrite (bool_decide_false (k' = k)).
Qed.

Lemma set_has_fold ks s k : set_has (foldl set_insert s ks) k = true ↔ k ∈ ks ∨ set_has s k = true.
Proof.
  revert s. induction ks as [|x ks IH]; intros s; cbn [foldl]; [split; [by right|by intros [?%elem_of_nil|]]|].
  rewrite IH, set_has_insert, elem_of_cons, orb_true_iff, bool_decide_eq_true. tauto.
Qed.

Lemma set_has_keys s k : set_has s k = true ↔ k ∈ s.*1.
Proof.
  unfold set_has. rewrite bool_decide_eq_true, <- om_find_fst. split; [by intros H%not_eq_None_Some|by intros H%not_eq_None_Some].
Qed.

(** What reading a tree makes live. *)
Definition tree_keys (r : Resolved) : list bytes := rs_manifest_keys r ++ (cr_key <$> rs_chunks r).

Lemma add_tree_has live r k : set_has (add_tree live r) k = true ↔ k ∈ tree_keys r ∨ set_has live k = true.
Proof. unfold add_tree, tree_keys. rewrite !set_has_fold, elem_of_app. tauto. Qed.

Section mark.
Context {St : Type} (io : CollectIO St).

Definition read_tree (root : bytes) (r : Resolved) : Prop :=
  rs_ok r = true ∧ ∃ σ σ', resolve_manifest (io_get io) root CHUNK_ATTEMPTS σ = Some (r, σ').

Lemma mark_roots_live all roots live σ live' σ' : mark_roots io all roots live σ = Some (inr live', σ') →
  (∀ k, set_has live k = true → set_has live' k = true) ∧
  ∀ root, root ∈ roots → ∃ r, read_tree root r ∧ ∀ k, k ∈ tree_keys r → set_has live' k = true.
Proof.
  revert live σ. induction roots as [|root roots IH]; intros live σ; cbn [mark_roots].
  { intros [= <- <-]. split; [done|]. by intros root ?%elem_of_nil. }
  destruct (resolve_manifest _ root _ σ) as [[r σ1]|] eqn:E; cbn [mbind option_bind]; [|done].
  destruct (rs_ok r) eqn:Er; cbn [negb]; [|done]. intros [H1 H2]%IH. split.
  - intros k Hk. apply H1, add_tree_has. by right.
  - intros x [->|Hx]%elem_of_cons; [|by apply H2]. exists r. split; [split; [done|by exists σ, σ1]|].
    intros k Hk. apply H1, add_tree_has. by left.
Qed.
End mark.

Section before_sweep.
Context {St : Type} (io : CollectIO St) (log : list Event).

Lemma list_names_log fuel after all σ r : σ.2 = log → list_names (logged io) fuel after all σ = Some r → r.2.2 = log.
Proof.
  revert after all σ. induction fuel as [|fuel IH]; intros after all σ Hl; cbn [list_names logged io_entries]; [done|].
  destruct (io_entries io after σ.1) as [[err|page] σ1]; [by intros [= <-]|]. destruct (last page); [|by intros [= <-]]. by apply IH.
Qed.

Lemma mark_roots_log all roots live σ r : σ.2 = log → mark_roots (logged io) all roots live σ = Some r → r.2.2 = log.
Proof.
  revert live σ. induction roots as [|root roots IH]; intros live σ Hl; cbn [mark_roots]; [by intros [= <-]|].
  destruct (resolve_manifest _ root _ σ) as [[r1 σ1]|] eqn:E; cbn [mbind option_bind]; [|done].
  assert (H1 : σ1.2 = log).
  { revert E. apply (resolve_keep (io_get (logged io)) CHUNK_ATTEMPTS (λ σ, σ.2 = log)); [|done].
    intros key [σ0 l0] H0. cbn in *. destruct (io_get io key σ0). done. }
  destruct (negb _); [by intros [= <-]|]. by apply IH.
Qed.
End before_sweep.

(** The names a collection works from. *)
Definition listing_of {St} (io : CollectIO St) (fuel : nat) (σ : St) (all : list (bytes * bytes)) : Prop :=
  ∃ σ', list_names io fuel [] [] (io_now io σ).2 = Some (inr all, σ').

Lemma collect_log {St} (io : CollectIO St) fuel s σ rep σ' log : collect (logged io) fuel s (σ, []) = Some (rep, (σ', log)) →
  (cr_ok rep = false ∧ ∃ t0, log = [Clock t0]) ∨
  (cr_ok rep = true ∧ ∃ t0 live all, listing_of (logged io) fuel (σ, []) all ∧ all_allowed s t0 live log ∧
     t0 = (io_now io σ).1 ∧
     ∀ root, root ∈ all.*2 → ∃ r, read_tree (logged io) root r ∧ ∀ k, k ∈ tree_keys r → set_has live k = true).
Proof.
  unfold collect. cbn [logged io_now fst snd]. destruct (io_now io σ) as [t0 σ0] eqn:Enow. cbn [app].
  destruct (list_names (logged io) fuel [] [] (σ0, [Clock t0])) as [[listing [σ1 l1]]|] eqn:El; cbn [mbind option_bind]; [|done].
  pose proof (list_names_log io [Clock t0] _ _ _ (σ0, [Clock t0]) _ eq_refl El) as Hl1. cbn in Hl1. subst l1.
  destruct listing as [err|all]; [intros [= <- <- <-]; left; upd; split; [done|by exists t0]|].
  destruct (mark_roots (logged io) all _ [] (σ1, [Clock t0])) as [[marked [σ2 l2]]|] eqn:Em; cbn [mbind option_bind]; [|done].
  pose proof (mark_roots_log io [Clock t0] _ _ _ (σ1, [Clock t0]) _ eq_refl Em) as Hl2. cbn in Hl2. subst l2.
  destruct marked as [err|live]; [intros [= <- <- <-]; left; upd; split; [done|by exists t0]|].
  cbn [fst snd]. destruct (io_now io σ2) as [t1 σ3]. cbn [logged io_nodes fst snd]. destruct (io_nodes io σ3) as [[processes err] σ4]. cbn [fst snd].
  match goal with |- context [sweep_nodes _ _ _ _ _ _ ?r _] => generalize r; intros rep0 end.
  destruct (sweep_nodes (logged io) fuel s t0 live processes rep0 _) as [[rep1 [σ5 l5]]|] eqn:Es; cbn [mbind option_bind]; [|done].
  apply sweep_nodes_allowed in Es as Hall; [|intros pre p line post Hx; by destruct pre as [|? [|? [|]]]; simplify_eq/=].
  cbn [fst snd] in *. destruct (io_now io σ5) as [t2 σ6]. intros [= <- <- <-]. right. upd. split; [done|].
  exists t0, live, all. destruct (mark_roots_live _ _ _ _ _ _ _ Em) as [_ Hlive]. split_and!.
  - exists (σ1, [Clock t0]). cbn [logged io_now fst snd]. by rewrite Enow.
  - by apply all_allowed_snoc.
  - done.
  - intros root Hroot. apply Hlive. by apply set_has_keys, set_has_fold; left.
Qed.

(** C10. What a collection may drop. If the mark fails, no node is sent anything. Otherwise
    every request to a node is a listing or - never in a dry run - a DROP of 1 to
    [MAX_HAVE_KEYS] keys, sent right after a reading of the clock at most the
    deadline after the start, and none of those keys is live: every name listed had
    its whole manifest tree read, and every key of those trees is live. *)
Theorem drops_only_garbage {St} (io : CollectIO St) fuel s σ rep σ' log :
  collect (logged io) fuel s (σ, []) = Some (rep, (σ', log)) →
  (cr_ok rep = false → ∀ p line, Asked p line ∉ log) ∧
  (cr_ok rep = true → ∃ live all, listing_of (logged io) fuel (σ, []) all ∧ all_allowed s (io_now io σ).1 live log ∧
     ∀ root, root ∈ all.*2 → ∃ r, read_tree (logged io) root r ∧ ∀ k, k ∈ tree_keys r → set_has live k = true).
Proof.
  intros [(Hok & t0 & ->)|(Hok & t0 & live & all & H1 & H2 & -> & H3)]%collect_log; (split; [|intros; try congruence]).
  - intros _ p line. by intros ?%list_elem_of_singleton.
  - congruence.
  - eauto.
Qed.

(** A file that is listed keeps all of its chunks. Take any file's chunks, the manifest
    tree an upload built for them, and a collection during which the tree's root key
    was listed under some name. If the collector's reads check digests, and no other
    bytes share the digest of a manifest of the tree, then no DROP the collection
    sends to any node names a chunk or a manifest of that file. *)
Theorem listed_files_survive {SH : Sha1} {SHok : Sha1Ok SH} {St} (io : CollectIO St) fuel s σ rep σ' log chunks size chunk fanout tree all :
  (∀ key σ, go_ok (io_get io key σ).1 = true → chunk_key (go_body (io_get io key σ).1) = key) →
  level_ok size chunk Data chunks → 2 ≤ fanout ≤ MANIFEST_FANOUT →
  build_manifests chunks size chunk fanout = Some tree → mt_depth tree ≤ MAX_MANIFEST_DEPTH →
  (∀ b b', b ∈ mt_blobs tree → chunk_key b' = chunk_key b → b' = b) →
  collect (logged io) fuel s (σ, []) = Some (rep, (σ', log)) →
  listing_of (logged io) fuel (σ, []) all → mt_root_key tree ∈ all.*2 →
  ∀ p line, Asked p line ∈ log →
    (∃ cursor, line = lit "KEYS " ++ cursor) ∨
    ∃ batch, line = drop_line (cs_gc_key s) batch ∧
      ∀ k, k ∈ batch → k ∉ chunk_key <$> mt_blobs tree ∧ k ∉ me_key <$> chunks.
Proof.
  intros Hget Hl Hf Et Hd Hcol Hrun [σl Hlist] Hroot p line Hin.
  destruct (collect_log io fuel s σ rep σ' log Hrun) as [(_ & t0 & ->)|(_ & t0 & live & all' & [σl' Hlist'] & Hall & _ & Hlive)].
  { by apply list_elem_of_singleton in Hin. }
  rewrite Hlist in Hlist'. injection Hlist' as <- <-. destruct (Hlive _ Hroot) as (r & (Hok & σa & σb & Er) & Hkeys).
  destruct (build_resolves (io_get (logged io)) (λ _, True) CHUNK_ATTEMPTS chunks size chunk fanout) as (tree' & Et' & Hres); [done..|].
  rewrite Et in Et'. injection Et' as <-. destruct (Hres Hd) with (σ := σa) as (r' & σb' & Er' & Hr & _); [|done|].
  { apply Forall_forall. intros b Hb [σ0 l0] _. cbn. specialize (Hget (chunk_key b) σ0). destruct (io_get io (chunk_key b) σ0) as [g σ1].
    cbn in *. intros Hg. apply (Hcol b); [done|]. by apply Hget. }
  rewrite Er in Er'. injection Er' as <- <-. destruct (Hr Hok) as (_ & _ & Hch & Hmk).
  apply list_elem_of_split in Hin as (pre & post & Hlog).
  destruct (Hall _ _ _ _ Hlog) as [Hk|(_ & batch & now & pre' & _ & _ & -> & _ & Hb)]; [by left|]. right. exists batch. split; [done|].
  rewrite Forall_forall in Hb. intros k Hk. specialize (Hb k Hk).
  assert (Hno : k ∉ tree_keys r) by (intros Hin%Hkeys; congruence). unfold tree_keys in Hno. apply not_elem_of_app in Hno as [Hn1 Hn2].
  split; intros Hin; [apply Hn1|apply Hn2].
  - apply list_elem_of_fmap in Hin as (b & -> & Hb'). by apply Hmk.
  - rewrite Hch. rewrite <- list_fmap_compose. change (cr_key ∘ chunk_ref) with (λ x : ManifestEntry * N, me_key x.1).
    rewrite <- (at_offsets_fst 0 chunks) in Hin. rewrite <- list_fmap_compose in Hin. exact Hin.
Qed.

(** ** Every name is listed *)

(** One page, as the collector gets it from a replica with namespace [ns]. *)
Definition entries_request (after : bytes) : bytes := if bool_decide (after = []) then lit "ENTRIES" else lit "ENTRIES " ++ after.
Definition ask_entries (ns : Namespace) (after : bytes) : bytes + list (bytes * bytes) :=
  let reply := answer_read ns (parse_names_request (entries_request after)) in
  match parse_entries_reply reply with Some page => inr page | None => inl reply end.

Definition entry_pair (x : bytes * NameEntry) : bytes * bytes := (x.1, ne_key x.2).

Lemma parse_pairs_items (items : Namespace) : (∀ x, x ∈ items → valid_name x.1 = true ∧ valid_key (ne_key x.2) = true) →
  parse_pairs (concat ((λ x, [x.1; ne_key x.2]) <$> items)) = Some (entry_pair <$> items).
Proof.
  induction items as [|x items IH]; intros H; [done|]. cbn [fmap list_fmap concat app parse_pairs].
  destruct (H x ltac:(apply elem_of_cons; by left)) as [-> ->]. cbn [negb orb]. rewrite IH; [done|].
  intros y Hy. apply H, elem_of_cons. by right.
Qed.

Lemma parse_entries_page ns after from_start : names_ok ns →
  parse_entries_reply (page ns (lit "ENTRIES") after from_start entries_word) =
  Some (entry_pair <$> page_items ns (lit "ENTRIES") after from_start entries_word).
Proof.
  intros [_ Hns]. rewrite page_eq. set (items := page_items _ _ _ _ _).
  assert (Hit : ∀ x, x ∈ items → valid_name x.1 = true ∧ valid_key (ne_key x.2) = true).
  { intros [name e] Hx. apply page_items_elem in Hx. by apply (Hns name e). }
  assert (Hlen : length items ≤ 512).
  { apply page_fits; [cbn; lia|]. intros [name e] Hx. destruct (Hns name e Hx). by apply entries_word_length. }
  assert (E : lit "ENTRIES" ++ lit " " ++ dec (N.of_nat (length items)) ++ concat (entries_word <$> items) =
    lit "ENTRIES" ++ concat ((λ w, SPACE :: w) <$> (dec (N.of_nat (length items)) :: concat ((λ x, [x.1; ne_key x.2]) <$> items)))).
  { cbn [fmap list_fmap concat]. f_equal. change (lit " " ++ ?x) with (SPACE :: x). cbn [app]. f_equal. f_equal.
    clear Hlen Hit. induction items as [|x items IH]; [done|]. cbn [fmap list_fmap concat app]. rewrite <- IH.
    unfold entries_word. by rewrite <- !app_assoc. }
  unfold parse_entries_reply. rewrite E, split_verb_words; [|by apply (bool_decide_unpack _)|].
  2:{ constructor; [apply dec_no_space|]. apply Forall_forall. intros w Hw. apply list_elem_of_In, in_concat in Hw as (l & Hl & Hw).
      apply list_elem_of_In, list_elem_of_fmap in Hl as (x & -> & Hx). destruct (Hit x Hx) as [Hn Hk].
      destruct Hw as [<-|[<-|[]]]; [by apply valid_name_no_space|by apply valid_key_no_space]. }
  rewrite bool_decide_true by done. cbn [negb]. unfold parse_count. rewrite parse_canonical_dec; [|lia| |lia].
  2:{ change (10 ^ N.of_nat 18)%N with 1000000000000000000%N. lia. }
  cbn [mbind option_bind]. rewrite parse_pairs_items by done.
  replace (length (concat _)) with (2 * length items).
  - replace (N.of_nat (2 * length items) =? 2 * N.of_nat (length items))%N with true; [done|]. symmetry. apply N.eqb_eq. lia.
  - clear. induction items as [|x items IH]; cbn in *; lia.
Qed.

Lemma ask_entries_items ns after : names_ok ns → after = [] ∨ valid_name after = true →
  ask_entries ns after = inr (entry_pair <$> page_items ns (lit "ENTRIES") after (bool_decide (after = [])) entries_word).
Proof.
  intros Hns Ha. unfold ask_entries, entries_request.
  assert (Er : answer_read ns (parse_names_request (if bool_decide (after = []) then lit "ENTRIES" else lit "ENTRIES " ++ after)) =
    page ns (lit "ENTRIES") after (bool_decide (after = [])) entries_word).
  { destruct Ha as [->|Hv]; [reflexivity|]. rewrite bool_decide_false by (intros ->; done).
    assert (Hsp : split_single_spaces (lit "ENTRIES " ++ after) = [lit "ENTRIES"; after]).
    { pose proof (split_verb_words (lit "ENTRIES") [after]) as Hw. cbn [fmap list_fmap concat] in Hw. rewrite app_nil_r in Hw.
      change (lit "ENTRIES " ++ after) with (lit "ENTRIES" ++ SPACE :: after). apply Hw; [by apply (bool_decide_unpack _)|].
      constructor; [by apply valid_name_no_space|constructor]. }
    unfold parse_names_request. rewrite bool_decide_false by done. rewrite Hsp. cbn [head default]. cbn -[page lit].
    rewrite Hv. reflexivity. }
  rewrite Er, parse_entries_page by done. done.
Qed.

(** The tail of the namespace that comes after a name. *)
Lemma names_after ns (pre items tail : Namespace) x : om_ok ns → ns = pre ++ items ++ tail → last items = Some x → om_after x.1 ns = tail.
Proof.
  intros Hns E [items' ->]%last_Some. rewrite E in *. clear E. rewrite <- app_assoc, app_assoc in *. by apply om_after_last.
Qed.

Lemma list_names_from {St} (io : CollectIO St) ns : names_ok ns → (∀ after σ, io_entries io after σ = (ask_entries ns after, σ)) →
  ∀ fuel pre rest after σ, ns = pre ++ rest → length rest < fuel →
  (after = [] ∧ pre = []) ∨ (valid_name after = true ∧ om_after after ns = rest) →
  list_names io fuel after (entry_pair <$> pre) σ = Some (inr (entry_pair <$> ns), σ).
Proof.
  intros Hns Hio. induction fuel as [|fuel IH]; intros pre rest after σ E Hl Ha; [lia|]. cbn [list_names]. rewrite Hio, ask_entries_items; [|done|naive_solver].
  assert (Hrest : (if bool_decide (after = []) then ns else om_after after ns) = rest).
  { destruct Ha as [[-> ->]|[Hv Ha]]; [done|]. rewrite bool_decide_false by (intros ->; done). done. }
  pose proof (page_items_nonempty ns (lit "ENTRIES") after (bool_decide (after = [])) entries_word Hns ltac:(by right)) as Hne.
  pose proof (fill_prefix (λ x, length (entries_word x)) (page_budget (lit "ENTRIES")) (if bool_decide (after = []) then ns else om_after after ns)) as [tail Ht].
  change (fill _ _ _) with (page_items ns (lit "ENTRIES") after (bool_decide (after = [])) entries_word) in Ht. rewrite Hrest in Ht, Hne.
  set (items := page_items _ _ _ _ _) in *. clearbody items. rewrite fmap_last. destruct (last items) as [x|] eqn:El; cbn [fmap option_fmap option_map].
  - rewrite <- fmap_app. apply (IH _ tail).
    + by rewrite E, Ht, app_assoc.
    + rewrite Ht, length_app in Hl. destruct items; [done|]. cbn in Hl. lia.
    + right. split.
      * assert (Hx : x ∈ ns). { rewrite E, Ht. apply last_Some in El as [l' ->]. rewrite !elem_of_app, list_elem_of_singleton. tauto. }
        destruct Hns as [_ Hns]. destruct x as [name e]. by apply (Hns name e).
      * apply (names_after ns pre items tail x); [apply Hns|by rewrite E, Ht|done].
  - apply last_None in El. subst items. destruct rest; [by rewrite E, app_nil_r|]. by destruct Hne.
Qed.

(** The collector sees every name: against a replica that serves any reachable
    namespace, the listing loop ends - after at most one page per name, and one - with
    every name and key, each once, in order, whatever the names are: none is lost at a
    page boundary. *)
Theorem every_name_listed {St} (io : CollectIO St) texts fuel σ :
  let ns := apply_all [] texts in
  (∀ after σ, io_entries io after σ = (ask_entries ns after, σ)) → length ns < fuel →
  list_names io fuel [] [] σ = Some (inr (entry_pair <$> ns), σ).
Proof.
  intros ns Hio Hf. apply (list_names_from io ns (apply_all_ok texts [] names_ok_nil) Hio fuel [] ns); [done|done|by left].
Qed.

(** ** Every chunk is listed *)
Section node.
Context {SH : Sha1} (send : FrameTransport unit) (os : Os) (sch : Schedule).

(** A node's answer to the collector. *)
Definition node_ask (n : ChunkNode) (line : bytes) : (Delivery * bytes) * ChunkNode :=
  let '(h, n', _) := handle_chunk_request n send line [] os sch tt in ((Ok, h_reply h), n').

Definition cursor_ok (cursor : bytes) : Prop := cursor = lit "-" ∨ valid_key cursor = true.
Definition cursor_key (cursor : bytes) : bytes := if bool_decide (cursor = lit "-") then [] else cursor.

Lemma node_keys n s cursor : cn_store n = Some s → cursor_ok cursor →
  ∃ s', node_ask n (lit "KEYS " ++ cursor) =
    ((Ok, keys_line (store_keys_after s (cursor_key cursor) MAX_HAVE_KEYS) (cn_gc_grace n)), n <| cn_store := Some s' |>) ∧
    st_keys s' = st_keys s.
Proof.
  intros Hs Hc. assert (Hsp : split_single_spaces (lit "KEYS " ++ cursor) = [lit "KEYS"; cursor]).
  { pose proof (split_verb_words (lit "KEYS") [cursor]) as Hw. cbn [fmap list_fmap concat] in Hw. rewrite app_nil_r in Hw.
    change (lit "KEYS " ++ cursor) with (lit "KEYS" ++ SPACE :: cursor). apply Hw; [by apply (bool_decide_unpack _)|].
    constructor; [|constructor]. destruct Hc as [->|Hv]; [by apply (bool_decide_unpack _)|by apply valid_key_no_space]. }
  unfold node_ask, handle_chunk_request. rewrite Hsp. change (lit "KEYS") with (chr 75 :: lit "EYS"). cbv beta iota.
  change (chr 75 :: lit "EYS") with (lit "KEYS"). rewrite Hs. cbv zeta.
  assert (Hverb : ∀ v, v ≠ "KEYS" → bool_decide (lit "KEYS" = lit v) = false).
  { intros v Hv. apply bool_decide_eq_false. intros E. apply Hv. apply (f_equal String.string_of_list_ascii) in E.
    unfold lit in E. by rewrite !String.string_of_list_ascii_of_string in E. }
  rewrite !Hverb, (bool_decide_true (lit "KEYS" = lit "KEYS")) by done. cbn [andb length Nat.eqb].
  change (default [] ([cursor] !! 0)) with cursor. unfold handle_keys, cursor_key. destruct Hc as [->|Hv].
  - rewrite bool_decide_true by done. cbn [negb andb plain simple_reply h_reply]. eexists. split; [done|]. by upd.
  - rewrite Hv. rewrite bool_decide_false by (intros ->; done). cbn [negb andb plain simple_reply h_reply]. eexists. split; done.
Qed.

Definition sorted_keys (keys : list bytes) : Prop := StronglySorted (λ a b, blt a b = true) keys.

Lemma parse_sorted_keys_ok l keys : sorted_keys keys → Forall (λ k, valid_key k = true) keys →
  match l with Some x => Forall (λ k, blt x k = true) keys | None => True end → parse_sorted_keys l keys = Some keys.
Proof.
  revert l. induction keys as [|k keys IH]; intros l Hs Hv Hl; cbn [parse_sorted_keys]; [done|].
  apply StronglySorted_inv in Hs as [Hs Hk]. apply Forall_cons in Hv as [Hv Hvs]. rewrite Hv.
  replace (match l with Some _ => _ | None => _ end) with false.
  - cbn [negb orb]. by rewrite IH.
  - destruct l as [x|]; [|done]. apply Forall_cons in Hl as [-> _]. done.
Qed.

Lemma parse_keys_line page grace : sorted_keys page → Forall (λ k, valid_key k = true) page → length page ≤ MAX_HAVE_KEYS →
  (0 <= grace < 10 ^ 18)%Z → parse_keys_reply (keys_line page grace) = Some (page, grace ÷ 1000)%Z.
Proof.
  intros Hs Hv Hl Hg. assert (Hq : (0 <= grace ÷ 1000 < 10 ^ 18)%Z) by (rewrite Z.quot_div_nonneg by lia; split; [apply Z.div_pos; lia|apply Z.div_lt_upper_bound; lia]).
  unfold keys_line, to_string. destruct (Z.ltb_spec (grace ÷ 1000) 0); [lia|]. set (g := Z.to_N (grace ÷ 1000)).
  assert (E : lit "KEYS " ++ dec (N.of_nat (length page)) ++ lit " " ++ dec g ++ concat ((λ k, lit " " ++ k) <$> page) =
    lit "KEYS" ++ concat ((λ w, SPACE :: w) <$> (dec (N.of_nat (length page)) :: dec g :: page))).
  { cbn [fmap list_fmap concat]. change (lit "KEYS " ++ ?x) with (lit "KEYS" ++ SPACE :: x). done. }
  unfold parse_keys_reply. rewrite E, split_verb_words; [|by apply (bool_decide_unpack _)|].
  2:{ repeat constructor; [apply dec_no_space..|]. eapply Forall_impl; [exact Hv|]. apply valid_key_no_space. }
  rewrite bool_decide_true by done. cbn [negb]. unfold parse_count, MAX_HAVE_KEYS in *.
  rewrite !parse_canonical_dec; [|lia|change (10 ^ N.of_nat 18)%N with 1000000000000000000%N; lia|lia..|
                                  change (10 ^ N.of_nat 18)%N with 1000000000000000000%N; lia|lia].
  cbn [mbind option_bind]. rewrite N.eqb_refl. cbn [negb]. rewrite parse_sorted_keys_ok by done. cbn [mbind option_bind].
  f_equal. f_equal. subst g. apply Z2N.id. lia.
Qed.

Lemma om_keys_sorted {V} (m : list (bytes * V)) : om_ok m → sorted_keys m.*1.
Proof.
  induction 1 as [|x m Hm IH Hx]; cbn; constructor; [done|]. apply Forall_fmap. exact Hx.
Qed.

Lemma sorted_keys_take k keys : sorted_keys keys → sorted_keys (take k keys).
Proof.
  unfold sorted_keys. revert k. induction keys as [|x keys IH]; intros [|k] Hs; cbn [take]; [constructor..|].
  apply StronglySorted_inv in Hs as [Hs Hx]. constructor; [by apply IH|]. by apply Forall_take.
Qed.

Lemma keys_after_tail {V} (m : list (bytes * V)) pre page tail k : om_ok m → m.*1 = pre ++ page ++ tail → last page = Some k →
  (om_after k m).*1 = tail.
Proof.
  intros Hm E [page' ->]%last_Some. rewrite <- app_assoc, app_assoc in E.
  assert (Hsplit : ∃ a v b, m = a ++ (k, v) :: b ∧ b.*1 = tail).
  { apply fmap_app_inv in E as (a & b' & Ea & E' & ->). destruct b' as [|[k' v] b]; [done|].
    cbn in E'. injection E' as <- ->. by exists a, v, b. }
  destruct Hsplit as (a & v & b & -> & <-). change k with (k, v).1 at 1. by rewrite (om_after_last a (k, v) b).
Qed.

Lemma list_chunks_from (io : CollectIO ChunkNode) p live :
  (∀ line n, io_ask io p line n = node_ask n line) →
  ∀ fuel pre rest cursor ns n s, cn_store n = Some s → om_ok (st_keys s) → (∀ key, key ∈ store_keys s → valid_key key = true) →
  (0 <= cn_gc_grace n < 10 ^ 18)%Z → store_keys s = pre ++ rest → length rest < fuel →
  (cursor = lit "-" ∧ pre = []) ∨ (valid_key cursor = true ∧ (om_after cursor (st_keys s)).*1 = rest) →
  sw_held ns = length pre →
  ∃ ns' n', list_chunks io fuel p live cursor ns (filter (λ k, set_has live k = false) pre) n =
      Some (true, ns', filter (λ k, set_has live k = false) (store_keys s), n') ∧
    sw_grace ns' = (cn_gc_grace n ÷ 1000)%Z ∧ sw_held ns' = length (store_keys s) ∧ sw_skipped ns' = sw_skipped ns.
Proof.
  intros Hio. induction fuel as [|fuel IH]; intros pre rest cursor ns n s Hs Hok Hv Hg E Hl Hc Hh; [lia|].
  destruct (node_keys n s cursor Hs ltac:(unfold cursor_ok; naive_solver)) as (s' & Eq & Ek). cbn [list_chunks]. rewrite Hio, Eq.
  rewrite bool_decide_true by done.
  assert (Hpage : store_keys_after s (cursor_key cursor) MAX_HAVE_KEYS = take MAX_HAVE_KEYS rest).
  { unfold store_keys_after, cursor_key. destruct Hc as [[-> ->]|[Hcv Hca]].
    - rewrite (bool_decide_true (lit "-" = lit "-")), bool_decide_true by done. unfold store_keys in E. by rewrite E.
    - rewrite (bool_decide_false (cursor = lit "-")) by (intros ->; done). rewrite bool_decide_false by (intros ->; done). by rewrite Hca. }
  rewrite Hpage. set (page := take MAX_HAVE_KEYS rest). set (tail := drop MAX_HAVE_KEYS rest).
  assert (Er : rest = page ++ tail) by (symmetry; apply take_drop).
  assert (Hsorted : sorted_keys page).
  { apply sorted_keys_take. pose proof (om_keys_sorted _ Hok) as Ho. fold (store_keys s) in Ho. rewrite E in Ho. clear -Ho.
    unfold sorted_keys in *. induction pre; [done|]. apply StronglySorted_inv in Ho as [Ho _]. by apply IHpre. }
  assert (Hpv : Forall (λ k, valid_key k = true) page).
  { apply Forall_forall. intros k Hk. apply Hv. rewrite E, Er, !elem_of_app. tauto. }
  rewrite parse_keys_line; [|done|done|subst page; rewrite length_take; lia|done].
  assert (Hend : page = [] → rest = []) by (subst page; by destruct rest). clearbody page tail.
  destruct (last page) as [k|] eqn:El.
  - rewrite <- filter_app. assert (Hkp : k ∈ page) by (apply last_Some in El as [l ->]; apply elem_of_app; right; by apply list_elem_of_singleton).
    assert (Htail : (om_after k (st_keys s')).*1 = tail).
    { rewrite Ek. apply (keys_after_tail _ pre page tail k Hok); [|done]. fold (store_keys s). by rewrite E, Er. }
    assert (Esk : store_keys s' = store_keys s) by (unfold store_keys; by rewrite Ek).
    destruct (IH (pre ++ page) tail k ((ns <| sw_grace := (cn_gc_grace n ÷ 1000)%Z |>) <| sw_held := sw_held ns + length page |>)
      (n <| cn_store := Some s' |>) s') as (ns' & n' & E1 & E2 & E3 & E4).
    + done.
    + by rewrite Ek.
    + by rewrite Esk.
    + done.
    + by rewrite Esk, E, Er, app_assoc.
    + rewrite Er, length_app in Hl. destruct page; [done|]. cbn in Hl. lia.
    + right. split; [|done]. rewrite Forall_forall in Hpv. by apply Hpv.
    + upd. rewrite length_app. lia.
    + exists ns', n'. rewrite Esk in *. split_and!; [exact E1|done|done|done].
  - apply last_None in El. rewrite (Hend El), app_nil_r in E. rewrite E. eexists _, _. split; [done|]. by upd.
Qed.
End node.

(** The collector sees every chunk of a node: against a node whose store is
    well-formed, the listing loop ends with the node's grace and the number of its
    chunks, and the garbage it has collected is exactly the keys the node holds that
    are not live, in order: none is lost at a page boundary. *)
Theorem every_chunk_listed {SH : Sha1} (io : CollectIO ChunkNode) send os sch p live fuel n s d :
  (∀ line n, io_ask io p line n = node_ask send os sch n line) →
  cn_store n = Some s → store_ok s d → (0 <= cn_gc_grace n < 10 ^ 18)%Z → length (store_keys s) < fuel →
  ∃ ns n', list_chunks io fuel p live (lit "-") (mkNodeSweep (address p) (-1) 0 0 0 0 []) [] n =
      Some (true, ns, filter (λ k, set_has live k = false) (store_keys s), n') ∧
    sw_grace ns = (cn_gc_grace n ÷ 1000)%Z ∧ sw_held ns = length (store_keys s) ∧ sw_skipped ns = [].
Proof.
  intros Hio Hs [Hk _ Hv _ _ _] Hg Hf.
  destruct (list_chunks_from send os sch io p live Hio fuel [] (store_keys s) (lit "-") (mkNodeSweep (address p) (-1) 0 0 0 0 []) n s)
    as (ns & n' & H); [done..|by left|done|]. by exists ns, n'.
Qed.

(** ** Witnesses *)

Section nodes.
#[local] Existing Instances demo_sha1 demo_sha1_ok.

(** A node with one chunk. *)
Definition demo_send : FrameTransport unit := λ _ _ _ σ, ((Refused, ([], [])), σ).
Definition demo_os : Os := mkOs 400 demo_env true true true.
Definition demo_holder : ChunkNode :=
  mkChunkNode (Some demo_put.1.2) demo_put.2 [] 0 0 (lit "collection-key") 7200000 0 0 0 None.
Definition demo_node_io : CollectIO ChunkNode :=
  mkCollectIO (λ _ n, (inr [], n)) (λ _ n, (mkGetOutcome false [] [] no_peer [], n)) (λ n, (([], None), n))
    (λ _ line n, node_ask demo_send demo_os (mkSchedule [] 0 0) n line) (λ n, (0%Z, n)).

Lemma every_chunk_listed_witness :
  ∃ ns n', list_chunks demo_node_io 5 no_peer [] (lit "-") (mkNodeSweep (address no_peer) (-1) 0 0 0 0 []) [] demo_holder =
      Some (true, ns, filter (λ k, set_has [] k = false) (store_keys demo_put.1.2), n') ∧
    sw_grace ns = (cn_gc_grace demo_holder ÷ 1000)%Z ∧ sw_held ns = length (store_keys demo_put.1.2) ∧ sw_skipped ns = [].
Proof.
  apply (every_chunk_listed demo_node_io demo_send demo_os (mkSchedule [] 0 0) no_peer [] 5 demo_holder demo_put.1.2 demo_put.2).
  - intros line n. reflexivity.
  - reflexivity.
  - apply demo_put_ok.
  - change (cn_gc_grace demo_holder) with 7200000%Z. lia.
  - apply Nat.ltb_lt. vm_compute. reflexivity.
Defined.

End nodes.

(** A tracker with one file of one chunk, and a node that holds that chunk and one more. *)
Definition demo_live : bytes := hex_go 40 7.
Definition demo_garbage : bytes := hex_go 40 8.
Definition demo_level : list ManifestEntry := [mkManifestEntry demo_live 3].
Definition demo_manifest : bytes := format_manifest (mkManifest 3 4 Data demo_level).
(** A digest that only this manifest has. *)
#[local] Instance demo_hash : Sha1 := λ s, if bool_decide (s = demo_manifest) then hex_go 40 1 else hex_go 40 2.
#[local] Instance demo_hash_ok : Sha1Ok demo_hash.
Proof.
  split; intros s; unfold sha1, demo_hash; case_bool_decide; try apply length_hex_go; apply hex_go_lower.
Qed.
Definition demo_texts : list bytes := [register_command (lit "notes") (hex_go 40 1) []].

Definition demo_reply (line : bytes) : bytes :=
  if bool_decide (line = lit "KEYS -") then lit "KEYS 2 7200 " ++ demo_live ++ lit " " ++ demo_garbage
  else if starts_with (lit "KEYS ") line then lit "KEYS 0 7200" else lit "DROPPED 1 5".
Definition demo_io : CollectIO unit :=
  mkCollectIO (λ after σ, (ask_entries (apply_all [] demo_texts) after, σ))
    (λ key σ, (if bool_decide (key = hex_go 40 1) then mkGetOutcome true demo_manifest [] no_peer []
               else mkGetOutcome false [] (lit "missing") no_peer [], σ))
    (λ σ, (([mkPeer 10 "10.0.0.1" 9001], None), σ))
    (λ p line σ, ((Ok, demo_reply line), σ))
    (λ σ, (0%Z, σ)).
Definition demo_settings : CollectSettings :=
  mkCollectSettings (lit "collection-key") false (1800 * SECOND) (3600 * SECOND) (10 * SECOND).
Definition demo_run := default (no_report, (tt, [])) (collect (logged demo_io) 20 demo_settings (tt, [])).
Definition demo_tree1 : ManifestTree := default (mkManifestTree [] [] 0) (build_manifests demo_level 3 4 2).

Lemma drops_only_garbage_witness :
  cr_dropped demo_run.1 = 1 ∧
  ∃ live all, listing_of (logged demo_io) 20 (tt, []) all ∧ all_allowed demo_settings (io_now demo_io tt).1 live demo_run.2.2 ∧
     ∀ root, root ∈ all.*2 → ∃ r, read_tree (logged demo_io) root r ∧ ∀ k, k ∈ tree_keys r → set_has live k = true.
Proof.
  split; [vm_compute; reflexivity|].
  destruct (drops_only_garbage demo_io 20 demo_settings tt demo_run.1 demo_run.2.1 demo_run.2.2) as [_ H].
  - vm_compute. reflexivity.
  - apply H. vm_compute. reflexivity.
Defined.

Lemma listed_files_survive_witness :
  demo_run.2.2 ≠ [] ∧ ∀ p line, Asked p line ∈ demo_run.2.2 →
    (∃ cursor, line = lit "KEYS " ++ cursor) ∨
    ∃ batch, line = drop_line (cs_gc_key demo_settings) batch ∧
      ∀ k, k ∈ batch → k ∉ chunk_key <$> mt_blobs demo_tree1 ∧ k ∉ me_key <$> demo_level.
Proof.
  split; [vm_compute; discriminate|].
  apply (listed_files_survive demo_io 20 demo_settings tt demo_run.1 demo_run.2.1 demo_run.2.2 demo_level 3 4 2 demo_tree1
    [(lit "notes", hex_go 40 1)]).
  - intros key σ. cbn. case_bool_decide as E; [|done]. intros _. rewrite E. vm_compute. reflexivity.
  - split; [reflexivity|reflexivity|unfold MAX_CHUNK; lia| |by split|done]. repeat constructor.
  - split; [lia|]. apply Nat.leb_le. vm_compute. reflexivity.
  - vm_compute. reflexivity.
  - apply Nat.leb_le. vm_compute. reflexivity.
  - intros b b' Hb. assert (Eb : b = demo_manifest).
    { change (mt_blobs demo_tree1) with [demo_manifest] in Hb. by apply list_elem_of_singleton in Hb. }
    subst b. unfold chunk_key, sha1, demo_hash. rewrite (bool_decide_true (demo_manifest = demo_manifest)) by done.
    case_bool_decide as E; [done|]. intros H. exfalso. vm_compute in H. discriminate H.
  - vm_compute. reflexivity.
  - eexists. vm_compute. reflexivity.
  - apply (bool_decide_unpack _). vm_compute. exact I.
Defined.

Lemma every_name_listed_witness :
  list_names demo_io 5 [] [] tt = Some (inr (entry_pair <$> apply_all [] demo_texts), tt).
Proof.
  apply (every_name_listed demo_io demo_texts 5 tt).
  - intros after σ. reflexivity.
  - apply Nat.ltb_lt. vm_compute. reflexivity.
Defined.
