(* ===== verification/UploadRace.v ===== *)
(** * UploadRace: a collection while an upload is under way

    An upload stores its chunks first and registers its name last, so for a while
    no name reaches them. What keeps a collection off them is an inequality: the
    collector drops nothing on a node whose grace is shorter than the clients'
    limits and its own deadline together, and sends nothing after that deadline; the
    node drops nothing written within its grace. [collect_keeps] is what a collection
    does to the world, one rule per kind of call; [node_behind] is a node that
    answers the collector's requests while its other threads work; the theorem puts
    the two sides together. *)
From S2P Require Import Prelude Text Net Chord Lookup OrdMap Store Names Stabilize Chunk Replication Manifest ManifestTree Collect CollectSpec.

(** ** What a collection does to the world *)
Section rules.
Context {St : Type} (io : CollectIO St) (s : CollectSettings) (t0 : Z) (Q : St → Prop).

(** The node has told the collector its grace, in seconds, with the world in [Q]. *)
Definition announced (p : Peer) (g : Z) : Prop := ∃ cursor σ reply σ' keys,
  Q σ ∧ io_ask io p (lit "KEYS " ++ cursor) σ = ((Ok, reply), σ') ∧ parse_keys_reply reply = Some (keys, g).

Record collection_keeps : Prop := {
  ck_now σ : Q σ → Q (io_now io σ).2;
  ck_entries after σ : Q σ → Q (io_entries io after σ).2;
  ck_get key σ : Q σ → Q (io_get io key σ).2;
  ck_nodes σ : Q σ → Q (io_nodes io σ).2;
  ck_keys p cursor σ : Q σ → Q (io_ask io p (lit "KEYS " ++ cursor) σ).2;
  (* a DROP goes to a node whose grace is long enough, right after the clock was read
     within the deadline *)
  ck_drop p batch g now σ0 σ : Q σ → announced p g → (needed s <= g * SECOND)%Z →
    io_now io σ0 = (now, σ) → (now - t0 <= cs_deadline s)%Z → Q (io_ask io p (drop_line (cs_gc_key s) batch) σ).2;
}.
Context (HQ : collection_keeps).

Lemma list_names_keeps fuel after all σ r : Q σ → list_names io fuel after all σ = Some r → Q r.2.
Proof using HQ.
  revert after all σ. induction fuel as [|fuel IH]; intros after all σ Hq; cbn [list_names]; [done|].
  pose proof (ck_entries HQ after σ Hq) as H1. destruct (io_entries io after σ) as [[err|page] σ1]; cbn [snd] in H1; [by intros [= <-]|].
  destruct (last page); [by apply IH|by intros [= <-]].
Qed.

Lemma mark_roots_keeps all roots live σ r : Q σ → mark_roots io all roots live σ = Some r → Q r.2.
Proof using HQ.
  revert live σ. induction roots as [|root roots IH]; intros live σ Hq; cbn [mark_roots]; [by intros [= <-]|].
  destruct (resolve_manifest (io_get io) root CHUNK_ATTEMPTS σ) as [[r1 σ1]|] eqn:E; cbn [mbind option_bind]; [|done].
  assert (H1 : Q σ1) by (revert E; apply (resolve_keep (io_get io) CHUNK_ATTEMPTS Q); [intros key σ0; apply (ck_get HQ)|done]).
  destruct (negb _); [by intros [= <-]|]. by apply IH.
Qed.

Lemma list_chunks_keeps fuel p live cursor ns garbage σ listed ns' garbage' σ' : Q σ →
  list_chunks io fuel p live cursor ns garbage σ = Some (listed, ns', garbage', σ') →
  Q σ' ∧ (listed = true → announced p (sw_grace ns')) ∧ (listed = false → sw_skipped ns' ≠ []).
Proof using HQ.
  revert cursor ns garbage σ. induction fuel as [|fuel IH]; intros cursor ns garbage σ Hq; cbn [list_chunks]; [done|].
  pose proof (ck_keys HQ p cursor σ Hq) as H1. destruct (io_ask io p _ σ) as [[d reply] σ1] eqn:E. cbn [snd] in H1.
  case_bool_decide as Hd.
  - subst d. destruct (parse_keys_reply reply) as [[keys g]|] eqn:Ep.
    + destruct (last keys) as [k|]; [by apply IH|]. intros [= <- <- <- <-]. split; [done|]. split; [|done]. intros _. upd.
      by exists cursor, σ, reply, σ1, keys.
    + intros [= <- <- <- <-]. split; [done|]. split; [done|]. intros _. upd. by intros [? _]%app_eq_nil.
  - intros [= <- <- <- <-]. split; [done|]. split; [done|]. intros _. upd. by intros [? _]%app_eq_nil.
Qed.

Lemma drop_batches_keeps p g batches ns σ : Q σ → announced p g → (needed s <= g * SECOND)%Z →
  Q (drop_batches io s t0 p batches ns σ).2.
Proof using HQ.
  intros Hq Hann Hg. revert ns σ Hq. induction batches as [|batch batches IH]; intros ns σ Hq; cbn [drop_batches]; [done|].
  pose proof (ck_now HQ σ Hq) as H1. destruct (io_now io σ) as [now σ1] eqn:En. cbn [snd] in H1.
  destruct (Z.ltb_spec (cs_deadline s) (now - t0)); [done|].
  pose proof (ck_drop HQ p batch g now σ σ1 H1 Hann Hg En ltac:(lia)) as H2. destruct (io_ask io p _ σ1) as [[d reply] σ2]. cbn [snd] in H2.
  destruct (if bool_decide _ then _ else _) as [[bits freed]|]; [|done]. by apply IH.
Qed.

Lemma sweep_node_keeps fuel live p σ r : Q σ → sweep_node io fuel s t0 live p σ = Some r → Q r.2.
Proof using HQ.
  intros Hq. unfold sweep_node.
  destruct (list_chunks _ _ _ _ _ _ _ _) as [[[[listed ns] garbage] σ1]|] eqn:E; cbn [mbind option_bind]; [|done].
  apply list_chunks_keeps in E as (H1 & Hann & Hskip); [|done]. intros [= <-].
  set (ns1 := if listed && _ then _ else ns).
  destruct (bool_decide (sw_skipped ns1 = [])) eqn:Es; [|exact H1].
  cbn [negb orb]. destruct (cs_dry_run s); [done|]. apply bool_decide_eq_true in Es. upd.
  destruct listed; [|by specialize (Hskip eq_refl)]. specialize (Hann eq_refl). subst ns1. cbn [andb] in *.
  destruct (Z.ltb_spec (sw_grace ns * SECOND) (needed s)) as [Hlt|Hge]; [|by apply (drop_batches_keeps p (sw_grace ns))].
  exfalso. revert Es. upd. by intros [? _]%app_eq_nil.
Qed.

Lemma sweep_nodes_keeps fuel live processes rep σ r : Q σ → sweep_nodes io fuel s t0 live processes rep σ = Some r → Q r.2.
Proof using HQ.
  revert rep σ. induction processes as [|p processes IH]; intros rep σ Hq; cbn [sweep_nodes]; [by intros [= <-]|].
  destruct (sweep_node _ _ _ _ _ _ _) as [[[hit ns] σ1]|] eqn:E; cbn [mbind option_bind]; [|done].
  apply sweep_node_keeps in E; [|done]. cbn [snd] in E. destruct hit; [by intros [= <-]|by apply IH].
Qed.
End rules.

(** A collection, started at the reading [t0]. *)
Lemma collect_keeps {St} (io : CollectIO St) fuel s (Q : St → Prop) σ rep σ' :
  collection_keeps io s (io_now io σ).1 Q → Q σ → collect io fuel s σ = Some (rep, σ') → Q σ'.
Proof.
  intros HQ Hq. unfold collect. pose proof (ck_now _ _ _ _ HQ σ Hq) as H0. destruct (io_now io σ) as [t0 σ0]. cbn [fst snd] in *.
  destruct (list_names io fuel [] [] σ0) as [[listing σ1]|] eqn:El; cbn [mbind option_bind]; [|done].
  apply (list_names_keeps io s t0 Q HQ) in El; [|done]. cbn [snd] in El.
  destruct listing as [err|all]; [by intros [= _ <-]|].
  destruct (mark_roots io all _ [] σ1) as [[marked σ2]|] eqn:Em; cbn [mbind option_bind]; [|done].
  apply (mark_roots_keeps io s t0 Q HQ) in Em; [|done]. cbn [snd] in Em.
  destruct marked as [err|live]; [by intros [= _ <-]|].
  pose proof (ck_now _ _ _ _ HQ σ2 Em) as H3. destruct (io_now io σ2) as [t1 σ3]. cbn [snd] in H3.
  pose proof (ck_nodes _ _ _ _ HQ σ3 H3) as H4. destruct (io_nodes io σ3) as [[processes err] σ4]. cbn [snd] in H4.
  match goal with |- context [sweep_nodes _ _ _ _ _ _ ?r _] => generalize r; intros rep0 end.
  destruct (sweep_nodes io fuel s t0 live processes rep0 σ4) as [[rep1 σ5]|] eqn:Es; cbn [mbind option_bind]; [|done].
  apply (sweep_nodes_keeps io s t0 Q HQ) in Es; [|done]. cbn [snd] in Es.
  pose proof (ck_now _ _ _ _ HQ σ5 Es) as H6. destruct (io_now io σ5) as [t2 σ6]. cbn [snd] in H6. by intros [= _ <-].
Qed.

(** ** A node behind the collector's calls *)
Section node.
Context {SH : Sha1} (key : bytes).

(** The node lists the chunk [c] and has its file; it was written at [t] (in
    milliseconds) or later as far as a drop can tell, unless by [now] (in
    microseconds) a whole grace has passed since. *)
Definition kept (t : Z) (c : bytes) (n : ChunkNode) (now : Z) : Prop := ∃ s,
  cn_store n = Some s ∧ store_inv false false s (cn_disk n) ∧ present s (cn_disk n) key c ∧ (t * 1000 <= now)%Z ∧
  ((∃ w, om_find key (st_touched s) = Some w ∧ (t <= w)%Z) ∨ ((t + cn_gc_grace n) * 1000 <= now)%Z).

(** What the node's other threads do between two moments: any writes, the forgetting
    of write times, removals and drops of other chunks. *)
Definition drifts (n : ChunkNode) (now : Z) (n' : ChunkNode) (now' : Z) : Prop :=
  (now <= now')%Z ∧ cn_gc_grace n' = cn_gc_grace n ∧ ∀ s, cn_store n = Some s → ∃ ops s',
    Forall (λ '(at_ms, o), (now <= at_ms * 1000 <= now')%Z ∧ leaves_key key o ∧ ∀ g, o = OpForget g → g = cn_gc_grace n) ops ∧
    store_run (s, cn_disk n) ops = (s', cn_disk n') ∧ cn_store n' = Some s'.

Lemma drifts_keeps t c n now n' now' : drifts n now n' now' → kept t c n now → kept t c n' now'.
Proof.
  intros (Hle & Hg & Hops) (s & Hs & Hok & Hp & Ht & Hw). destruct (Hops s Hs) as (ops & s' & Hall & Hrun & Hs'). clear Hops.
  assert (Hend : ∀ ops s d, Forall (λ '(at_ms, o), (now <= at_ms * 1000 <= now')%Z ∧ leaves_key key o ∧ ∀ g, o = OpForget g → g = cn_gc_grace n) ops →
    store_inv false false s d → present s d key c →
    (∃ w, om_find key (st_touched s) = Some w ∧ (t <= w)%Z) ∨ ((t + cn_gc_grace n) * 1000 <= now')%Z →
    let '(s', d') := store_run (s, d) ops in store_inv false false s' d' ∧ present s' d' key c ∧
    ((∃ w, om_find key (st_touched s') = Some w ∧ (t <= w)%Z) ∨ ((t + cn_gc_grace n) * 1000 <= now')%Z)).
  { clear ops s s' Hs Hok Hp Hw Hall Hrun Hs'. induction ops as [|[at_ms o] ops IH]; intros s d Hall Hok Hp Hw; [done|].
    apply Forall_cons in Hall as [(Hat & Hl & Hf) Hall]. unfold store_run. cbn [foldl]. fold (store_run (store_op (s, d) at_ms o) ops).
    pose proof (op_present false false s d key c at_ms o Hok Hl Hp) as Hp'.
    pose proof (store_op_inv false false s d at_ms o ltac:(naive_solver) ltac:(done) Hok) as Hok'.
    assert (Hw' : (∃ w, om_find key (st_touched (store_op (s, d) at_ms o).1) = Some w ∧ (t <= w)%Z) ∨ ((t + cn_gc_grace n) * 1000 <= now')%Z).
    { destruct Hw as [(w & Hw & Htw)|]; [|by right].
      destruct (op_touched false false s d key at_ms o Hok Hl w Hw) as [H1|[H1|(g & -> & Hold)]].
      - left. by exists w.
      - left. exists at_ms. split; [done|lia].
      - right. rewrite (Hf g eq_refl) in Hold. lia. }
    destruct (store_op (s, d) at_ms o) as [s1 d1]. by apply IH. }
  specialize (Hend ops s (cn_disk n) Hall Hok Hp ltac:(destruct Hw; [by left|right; lia])). rewrite Hrun in Hend.
  destruct Hend as (H1 & H2 & H3). exists s'. rewrite Hg. split_and!; [done..|lia|done].
Qed.

(** *** Its answers to the collector *)

Lemma verb_is (v v' : string) : v ≠ v' → bool_decide (lit v = lit v') = false.
Proof.
  intros Hv. apply bool_decide_eq_false. intros E. apply Hv. apply (f_equal String.string_of_list_ascii) in E.
  unfold lit in E. by rewrite !String.string_of_list_ascii_of_string in E.
Qed.

Lemma keys_request {St} n (send : FrameTransport St) cursor os sch σ : 
  let '(h, n', _) := handle_chunk_request n send (lit "KEYS " ++ cursor) [] os sch σ in
  (n' = n ∨ ∃ s, cn_store n = Some s ∧ (n' = n <| cn_store := Some s |> ∨ n' = n <| cn_store := Some (store_forget_old s (cn_gc_grace n) (os_now os)) |>)) ∧
  ((∃ page, h_reply h = keys_line page (cn_gc_grace n)) ∨ starts_with (lit "ERR ") (h_reply h) = true).
Proof.
  assert (Hsp : split_single_spaces (lit "KEYS " ++ cursor) = lit "KEYS" :: split_single_spaces cursor).
  { change (lit "KEYS " ++ cursor) with (lit "KEYS" ++ SPACE :: cursor). apply split_on_app. by apply (bool_decide_unpack _). }
  unfold handle_chunk_request. rewrite Hsp. generalize (split_single_spaces cursor). intros args.
  change (lit "KEYS") with (chr 75 :: lit "EYS"). cbv beta iota. change (chr 75 :: lit "EYS") with (lit "KEYS").
  destruct (cn_store n) as [s|]; [|by split; [left|right]]. cbv zeta.
  rewrite !(verb_is "KEYS") by done. rewrite (bool_decide_true (lit "KEYS" = lit "KEYS")) by done. cbn [andb].
  destruct (length args =? 1); [|by split; [left|right]]. unfold handle_keys. cbv zeta.
  destruct (negb _ && negb _); [by split; [left|right]|]. cbn [plain simple_reply h_reply]. split; [|by left; eexists].
  right. exists s. split; [done|]. case_bool_decide; [by right|by left].
Qed.

Lemma keys_line_grace page grace keys g : (0 <= grace < 10 ^ 18)%Z →
  parse_keys_reply (keys_line page grace) = Some (keys, g) → g = (grace ÷ 1000)%Z.
Proof.
  intros Hg. assert (Hq : (0 <= grace ÷ 1000 < 10 ^ 18)%Z) by (rewrite Z.quot_div_nonneg by lia; split; [apply Z.div_pos; lia|apply Z.div_lt_upper_bound; lia]).
  unfold keys_line, to_string. destruct (Z.ltb_spec (grace ÷ 1000) 0); [lia|].
  set (count := dec (N.of_nat (length page))). set (d := Z.to_N (grace ÷ 1000)).
  assert (Hsp : ∃ w, split_single_spaces (lit "KEYS " ++ count ++ lit " " ++ dec d ++ concat ((λ k, lit " " ++ k) <$> page)) =
    lit "KEYS" :: count :: dec d :: w).
  { change (lit "KEYS " ++ ?x) with (lit "KEYS" ++ SPACE :: x). change (count ++ lit " " ++ ?x) with (count ++ SPACE :: x).
    unfold split_single_spaces. rewrite split_on_app by (by apply (bool_decide_unpack _)). rewrite split_on_app by apply dec_no_space.
    destruct page as [|k page]; cbn [fmap list_fmap concat].
    - rewrite app_nil_r. exists []. pose proof (split_on_join SPACE [dec d] ltac:(done) ltac:(constructor; [apply dec_no_space|constructor])) as E.
      cbn [join] in E. by rewrite E.
    - rewrite <- app_assoc. change (lit " " ++ ?x) with (SPACE :: x). rewrite split_on_app by apply dec_no_space. by eexists. }
  destruct Hsp as [w Hsp]. unfold parse_keys_reply. rewrite Hsp. rewrite bool_decide_true by done. cbn [negb].
  destruct (parse_count count) as [m|]; cbn [mbind option_bind]; [|done]. unfold parse_count at 1.
  rewrite parse_canonical_dec; [|lia|change (10 ^ N.of_nat 18)%N with 1000000000000000000%N; lia|lia]. cbn [mbind option_bind].
  destruct (negb _); [done|]. destruct (parse_sorted_keys _ _); cbn [mbind option_bind]; [|done]. intros [= _ <-]. subst d. lia.
Qed.

Lemma err_not_keys reply keys g : starts_with (lit "ERR ") reply = true → parse_keys_reply reply ≠ Some (keys, g).
Proof.
  intros H%starts_with_Some. rewrite H. change (lit "ERR " ++ ?x) with (lit "ERR" ++ SPACE :: x). unfold parse_keys_reply, split_single_spaces.
  rewrite split_on_app by (by apply (bool_decide_unpack _)). set (ws := split_on _ _). clearbody ws.
  destruct ws as [|count [|grace w]]; [done..|]. by rewrite (verb_is "ERR" "KEYS").
Qed.

Lemma keys_request_keeps {St} t c n (send : FrameTransport St) cursor os sch σ : kept t c n (os_now os * 1000) →
  kept t c (handle_chunk_request n send (lit "KEYS " ++ cursor) [] os sch σ).1.2 (os_now os * 1000).
Proof.
  intros Hk. pose proof (keys_request n send cursor os sch σ) as H. destruct (handle_chunk_request _ _ _ _ _ _ _) as [[h n'] u].
  destruct H as [[->|(s & Hs & Hn')] _]; [done|]. cbn [fst snd].
  destruct Hn' as [->| ->]; (eapply drifts_keeps; [|exact Hk]); (split; [lia|]; split; [done|]); intros s0 Hs0; rewrite Hs in Hs0; injection Hs0 as <-.
  - exists [], s. by split_and!.
  - exists [(os_now os, OpForget (cn_gc_grace n))], (store_forget_old s (cn_gc_grace n) (os_now os)). split_and!; [|done..].
    constructor; [|constructor]. split; [lia|]. split; [done|]. by intros g [= <-].
Qed.

(** A chunk within its grace is not dropped, whatever the DROP names. *)
Lemma drop_fold_keeps t c os keys acc : (t <= os_now os < t + cn_gc_grace acc.1.2)%Z →
  store_inv false false acc.2 (cn_disk acc.1.2) → fresh_chunk acc.2 (cn_disk acc.1.2) key t c →
  let r := foldl (drop_one os) acc keys in
  cn_gc_grace r.1.2 = cn_gc_grace acc.1.2 ∧ store_inv false false r.2 (cn_disk r.1.2) ∧ fresh_chunk r.2 (cn_disk r.1.2) key t c.
Proof.
  revert acc. induction keys as [|k keys IH]; intros [[[bits freed] n] s] Hnow Hok Hf; [done|]. cbn [foldl fst snd] in *.
  set (o := OpDrop k (cn_gc_grace n) (os_stats os) (os_unlinks os)).
  pose proof (store_op_inv false false s (cn_disk n) (os_now os) o ltac:(naive_solver) ltac:(done) Hok) as Hok1.
  pose proof (fresh_op false false s (cn_disk n) key t c (cn_gc_grace n) (os_now os) o Hok Hf Hnow eq_refl) as Hf1.
  assert (E : let a := drop_one os (bits, freed, n, s) k in
    (a.2, cn_disk a.1.2) = store_op (s, cn_disk n) (os_now os) o ∧ cn_gc_grace a.1.2 = cn_gc_grace n).
  { unfold drop_one, o. cbn [store_op]. destruct (store_drop _ _ _ _ _ _ _) as [[r s'] d']. by destruct r. }
  destruct (drop_one os (bits, freed, n, s) k) as [[[bits1 freed1] n1] s1]. cbn [fst snd] in E. destruct E as [E Eg].
  rewrite <- E in Hok1, Hf1. cbn [fst snd] in Hok1, Hf1.
  destruct (IH (bits1, freed1, n1, s1)) as (H1 & H2 & H3); cbn [fst snd]; [by rewrite Eg|done..|].
  split_and!; [etrans; [exact H1|done]|done..].
Qed.

Lemma drop_fold_grace os keys acc : cn_gc_grace (foldl (drop_one os) acc keys).1.2 = cn_gc_grace acc.1.2.
Proof.
  revert acc. induction keys as [|k keys IH]; intros acc; [done|]. cbn [foldl]. rewrite IH. clear IH.
  destruct acc as [[[bits freed] n] s]. unfold drop_one. destruct (store_drop _ _ _ _ _ _ _) as [[r s'] d']. by destruct r.
Qed.

Lemma drop_request_grace {St} n (send : FrameTransport St) rest os sch σ :
  cn_gc_grace (handle_chunk_request n send (lit "DROP " ++ rest) [] os sch σ).1.2 = cn_gc_grace n.
Proof.
  assert (Hsp : split_single_spaces (lit "DROP " ++ rest) = lit "DROP" :: split_single_spaces rest).
  { change (lit "DROP " ++ rest) with (lit "DROP" ++ SPACE :: rest). apply split_on_app. by apply (bool_decide_unpack _). }
  unfold handle_chunk_request. rewrite Hsp. generalize (split_single_spaces rest). intros args.
  change (lit "DROP") with (chr 68 :: lit "ROP"). cbv beta iota. change (chr 68 :: lit "ROP") with (lit "DROP").
  destruct (cn_store n) as [s|]; [|done]. cbv zeta.
  rewrite !(verb_is "DROP") by done. rewrite (bool_decide_true (lit "DROP" = lit "DROP")) by done. cbn [andb].
  destruct (_ && _); [|done]. unfold handle_drop. destruct (bool_decide _); [done|]. destruct (negb _); [done|]. destruct (negb _); [done|].
  pose proof (drop_fold_grace os (drop 1 args) ([], 0%N, n, s)) as Hg.
  destruct (foldl _ _ _) as [[[bits freed] n1] s1]. exact Hg.
Qed.

Lemma drop_request_keeps {St} t c n (send : FrameTransport St) rest os sch σ :
  (os_now os < t + cn_gc_grace n)%Z → kept t c n (os_now os * 1000) →
  kept t c (handle_chunk_request n send (lit "DROP " ++ rest) [] os sch σ).1.2 (os_now os * 1000).
Proof.
  intros Hyoung Hk. assert (Hsp : split_single_spaces (lit "DROP " ++ rest) = lit "DROP" :: split_single_spaces rest).
  { change (lit "DROP " ++ rest) with (lit "DROP" ++ SPACE :: rest). apply split_on_app. by apply (bool_decide_unpack _). }
  unfold handle_chunk_request. rewrite Hsp. generalize (split_single_spaces rest). intros args.
  change (lit "DROP") with (chr 68 :: lit "ROP"). cbv beta iota. change (chr 68 :: lit "ROP") with (lit "DROP").
  destruct (cn_store n) as [s|] eqn:Hs; [|done]. cbv zeta.
  rewrite !(verb_is "DROP") by done. rewrite (bool_decide_true (lit "DROP" = lit "DROP")) by done. cbn [andb].
  destruct (_ && _); [|done]. unfold handle_drop. destruct (bool_decide _); [done|]. destruct (negb _); [done|]. destruct (negb _); [done|].
  destruct Hk as (s0 & Hs0 & Hok & Hp & Ht & Hw). rewrite Hs in Hs0. injection Hs0 as <-.
  assert (Hf : fresh_chunk s (cn_disk n) key t c).
  { destruct Hw as [Hw|Hw]; [|lia]. destruct Hp. by split_and!. }
  pose proof (drop_fold_keeps t c os (drop 1 args) ([], 0%N, n, s) ltac:(cbn [fst snd]; lia) Hok Hf) as (Hg & Hok' & (Hin & Hc & Hw')).
  destruct (foldl _ _ _) as [[[bits freed] n1] s1]. cbn [fst snd plain simple_reply] in *.
  exists s1. upd. split_and!; [done|done|by split|done|by left].
Qed.
End node.

(** ** The race *)
Section race.
Context {SH : Sha1} {St : Type} (io : CollectIO St) (p : Peer) (clock : St → Z) (node : St → ChunkNode) (key : bytes) (lag : Z).

(** The same system, with every moment between two calls written down. *)
Definition visited : CollectIO (St * list St) :=
  let to {A} (x : A * St) (l : list St) := (x.1, (x.2, l ++ [x.2])) in
  mkCollectIO (λ after σ, to (io_entries io after σ.1) σ.2) (λ key σ, to (io_get io key σ.1) σ.2)
    (λ σ, to (io_nodes io σ.1) σ.2) (λ q line σ, to (io_ask io q line σ.1) σ.2) (λ σ, to (io_now io σ.1) σ.2).

Abbreviation goes_on σ σ' := (drifts key (node σ) (clock σ) (node σ') (clock σ')).

(** The request reaches the node, which answers it as [handle_chunk_request] does, at a
    time of its clock at most [lag] after the request was sent, with its other threads
    at work before and after. *)
Definition ask_answered (σ : St) (line : bytes) (d : Delivery) (reply : bytes) (σ' : St) : Prop :=
  ∃ n1 os sch h n2, drifts key (node σ) (clock σ) n1 (os_now os * 1000) ∧ (os_now os * 1000 <= clock σ + lag)%Z ∧
    handle_chunk_request n1 (λ _ _ _ u, ((Refused, ([], [])), u)) line [] os sch tt = (h, n2, tt) ∧
    drifts key n2 (os_now os * 1000) (node σ') (clock σ') ∧ (d = Ok → reply = h_reply h).

(** The node of [p], as the collector meets it: one steady clock, in microseconds; a
    request to [p] is lost, or answered. *)
Record node_behind : Prop := {
  nb_now σ : (io_now io σ).1 = clock (io_now io σ).2 ∧ goes_on σ (io_now io σ).2;
  nb_entries after σ : goes_on σ (io_entries io after σ).2;
  nb_get k σ : goes_on σ (io_get io k σ).2;
  nb_nodes σ : goes_on σ (io_nodes io σ).2;
  nb_ask q line σ d reply σ' : io_ask io q line σ = ((d, reply), σ') →
    (goes_on σ σ' ∧ (address q = address p → d ≠ Ok)) ∨ (address q = address p ∧ ask_answered σ line d reply σ');
}.

(** The node's store, sound, holds the chunk as written at [t] or later. *)
Definition written (t : Z) (c : bytes) (n : ChunkNode) : Prop := ∃ s,
  cn_store n = Some s ∧ store_ok s (cn_disk n) ∧ fresh_chunk s (cn_disk n) key t c.

Lemma written_kept t c n now : written t c n → (t * 1000 <= now)%Z → kept key t c n now.
Proof.
  intros (s & Hs & Hok & Hin & Hc & Hw) Ht. exists s. split_and!; [done| |by split|done|by left].
  by apply (store_inv_weaken true false).
Qed.

(** What a collection that began at [began] keeps: every chunk it may have met
    unregistered, from then on. *)
Definition spared (s : CollectSettings) (began grace : Z) (x : St * list St) : Prop :=
  cn_gc_grace (node x.1) = grace ∧ ∀ σm t c, σm ∈ x.2 → written t c (node σm) → (t * 1000 <= clock σm)%Z →
    (began + lag < t * 1000 + cs_upload_limit s + cs_tracker_wait s)%Z → kept key t c (node x.1) (clock x.1).

Lemma spared_step s began grace x (σ1 : St) : spared s began grace x → cn_gc_grace (node σ1) = cn_gc_grace (node x.1) →
  (∀ t c, (began + lag < t * 1000 + cs_upload_limit s + cs_tracker_wait s)%Z →
     kept key t c (node x.1) (clock x.1) → kept key t c (node σ1) (clock σ1)) →
  spared s began grace (σ1, x.2 ++ [σ1]).
Proof.
  intros [Hg Hs] Eg Hk. split; [cbn [fst]; congruence|]. cbn [fst snd]. intros σm t c [Hin|Hin%list_elem_of_singleton]%elem_of_app Hw Ht Hb.
  - apply Hk; [done|]. by eapply Hs.
  - subst σm. by apply written_kept.
Qed.

Lemma spared_drift s began grace x (σ1 : St) : spared s began grace x → goes_on x.1 σ1 → spared s began grace (σ1, x.2 ++ [σ1]).
Proof. intros Hs Hd. apply spared_step; [done|apply Hd|]. intros t c _. by apply drifts_keeps. Qed.

(** The node's answers, while they spare the chunk. *)
Lemma answered_keeps σ line d reply σ' t c : ask_answered σ line d reply σ' →
  (∀ n1 os (sch : Schedule) h n2, (clock σ <= os_now os * 1000 <= clock σ + lag)%Z → cn_gc_grace n1 = cn_gc_grace (node σ) →
     handle_chunk_request n1 (λ _ _ _ u, ((Refused, ([], [])), u)) line [] os sch tt = (h, n2, tt) →
     kept key t c n1 (os_now os * 1000) → kept key t c n2 (os_now os * 1000)) →
  kept key t c (node σ) (clock σ) → kept key t c (node σ') (clock σ').
Proof.
  intros (n1 & os & sch & h & n2 & H1 & Hlag & E & H2 & _) Hh Hk. eapply drifts_keeps; [exact H2|].
  eapply (Hh n1 os sch); [|apply H1|exact E|by eapply drifts_keeps]. split; [apply H1|done].
Qed.

Lemma answered_grace σ line d reply σ' : ask_answered σ line d reply σ' →
  (∀ n1 os sch, cn_gc_grace (handle_chunk_request n1 (λ _ _ _ u, ((Refused, ([], [])), u)) line [] os sch tt).1.2 = cn_gc_grace n1) →
  cn_gc_grace (node σ') = cn_gc_grace (node σ).
Proof.
  intros (n1 & os & sch & h & n2 & (_ & E1 & _) & _ & E & (_ & E2 & _) & _) Hg. specialize (Hg n1 os sch). rewrite E in Hg.
  cbn [fst snd] in Hg. congruence.
Qed.

Context (Hbehind : node_behind).

Lemma ask_keeps s began grace x q line : spared s began grace x →
  (∀ n1 os sch, cn_gc_grace (handle_chunk_request n1 (λ _ _ _ u, ((Refused, ([], [])), u)) line [] os sch tt).1.2 = cn_gc_grace n1) →
  (∀ t c n1 os (sch : Schedule), address q = address p →
     (began + lag < t * 1000 + cs_upload_limit s + cs_tracker_wait s)%Z →
     (clock x.1 <= os_now os * 1000 <= clock x.1 + lag)%Z → cn_gc_grace n1 = grace → kept key t c n1 (os_now os * 1000) →
     kept key t c (handle_chunk_request n1 (λ _ _ _ u, ((Refused, ([], [])), u)) line [] os sch tt).1.2 (os_now os * 1000)) →
  spared s began grace (io_ask visited q line x).2.
Proof using Hbehind.
  intros Hs Hg Hk. unfold visited. cbn [io_ask snd]. destruct (io_ask io q line x.1) as [[d reply] σ1] eqn:E. cbn [snd].
  destruct (nb_ask Hbehind _ _ _ _ _ _ E) as [[Hd _]|[Ea Ha]]; [by apply spared_drift|].
  apply spared_step; [done|by eapply answered_grace|]. intros t c Hb. eapply answered_keeps; [exact Ha|].
  intros n1 os sch h n2 Ht Eg Eh Hkept. pose proof (Hk t c n1 os sch Ea Hb Ht ltac:(destruct Hs; congruence) Hkept) as H. by rewrite Eh in H.
Qed.

(** A node says its own grace. *)
Lemma announced_grace s began grace q g : (0 <= grace < 10 ^ 18)%Z → address q = address p →
  announced visited (spared s began grace) q g → g = (grace ÷ 1000)%Z.
Proof using Hbehind.
  intros Hgr Ea (cursor & x & reply & x' & keys & [Hg _] & E & Hp). revert E. unfold visited. cbn [io_ask].
  destruct (io_ask io q _ x.1) as [[d reply'] σ1] eqn:E. cbn [fst snd]. intros [= -> -> <-].
  destruct (nb_ask Hbehind _ _ _ _ _ _ E) as [[_ Hd]|[_ (n1 & os & sch & h & n2 & (_ & E1 & _) & _ & Eh & _ & Hr)]]; [by destruct (Hd Ea)|].
  pose proof (keys_request n1 (λ _ _ _ u, ((Refused, ([], [])), u)) cursor os sch tt) as Hk. rewrite Eh in Hk. destruct Hk as [_ Hk].
  rewrite (Hr eq_refl) in Hp. destruct Hk as [[page Hpage]|Herr]; [|by apply err_not_keys in Hp].
  rewrite Hpage, E1, Hg in Hp. by apply keys_line_grace in Hp.
Qed.

(** The collector's side and the node's, together. *)
Lemma spared_keeps s began grace : (0 <= grace < 10 ^ 18)%Z → collection_keeps visited s began (spared s began grace).
Proof using Hbehind.
  intros Hgr. split.
  - intros x Hs. unfold visited. cbn [io_now snd]. by apply spared_drift, (nb_now Hbehind).
  - intros after x Hs. unfold visited. cbn [io_entries snd]. by apply spared_drift, (nb_entries Hbehind).
  - intros k x Hs. unfold visited. cbn [io_get snd]. by apply spared_drift, (nb_get Hbehind).
  - intros x Hs. unfold visited. cbn [io_nodes snd]. by apply spared_drift, (nb_nodes Hbehind).
  - intros q cursor x Hs. apply ask_keeps; [done|..].
    + intros n1 os sch. pose proof (keys_request n1 (λ _ _ _ u, ((Refused, ([], [])), u)) cursor os sch tt) as H.
      destruct (handle_chunk_request _ _ _ _ _ _ _) as [[h n'] u]. destruct H as [[->|(st & _ & [->| ->])] _]; done.
    + intros t c n1 os sch _ _ _ _. apply keys_request_keeps.
  - intros q batch g now x0 x Hs Hann Hneed En Hdead. unfold drop_line. rewrite <- ?app_assoc.
    change (lit "DROP " ++ ?a) with (lit "DROP " ++ a). apply ask_keeps; [done|intros; apply drop_request_grace|].
    intros t c n1 os sch Ea Hb Ht Eg Hk. apply drop_request_keeps; [|done]. rewrite Eg.
    pose proof (announced_grace s began grace q g Hgr Ea Hann) as Hg. rewrite Z.quot_div_nonneg in Hg by lia.
    assert (Hnow : now = clock x.1).
    { revert En. unfold visited. cbn [io_now]. intros [= <- <-]. apply (nb_now Hbehind). }
    unfold needed, SECOND in Hneed. pose proof (Z.mul_div_le grace 1000 ltac:(lia)). lia.
Qed.
End race.

(** C28. An upload that is under way loses nothing to a collection. Take any run of the
    collector and any node it meets - requests to it lost, or answered as
    [handle_chunk_request] answers; its other threads writing, forgetting, and
    removing or dropping other chunks - and any moment at which the node holds a chunk
    written at [t]. If the collection began before the
    chunk's file was registered, and the registration kept the clients' limits, then
    when the collection ends the chunk is still listed and reads back. The
    registration must leave [lag] of those limits unused, where a DROP is carried out
    at most [lag] after the collector's last look at its clock: the deadline bounds
    when a DROP is sent, not when a node carries it out. *)
Theorem upload_under_way_survives {SH : Sha1} {St} (io : CollectIO St) p clock node key lag fuel s σ rep σ' seen σm t c registered :
  node_behind io p clock node key lag → (0 <= cn_gc_grace (node σ) < 10 ^ 18)%Z →
  collect (visited io) fuel s (σ, [σ]) = Some (rep, (σ', seen)) →
  σm ∈ seen → written key t c (node σm) → (t * 1000 <= clock σm)%Z →
  ((io_now io σ).1 < registered)%Z → (registered + lag <= t * 1000 + cs_upload_limit s + cs_tracker_wait s)%Z →
  ∃ st, cn_store (node σ') = Some st ∧ store_has st key = true ∧
    store_get st (cn_disk (node σ')) key true = Found c ∧ chunk_key c = key.
Proof.
  intros Hb Hg Hrun Hin Hw Ht Hbegan Hreg.
  assert (Hspared : spared clock node key lag s (io_now io σ).1 (cn_gc_grace (node σ)) (σ', seen)).
  { apply (collect_keeps (visited io) fuel s _ (σ, [σ]) rep (σ', seen)); [| |exact Hrun].
    - by apply (spared_keeps io p).
    - split; [done|]. cbn [fst snd]. intros σ0 t0 c0 ->%list_elem_of_singleton Hw0 Ht0 _. by apply written_kept. }
  destruct Hspared as [_ Hs]. destruct (Hs σm t c Hin Hw Ht ltac:(lia)) as (st & Est & Hok & [Hk Hc] & _). exists st.
  cbn [fst] in Hc. pose proof (so_valid _ _ Hok _ Hk) as Hv. destruct (so_hash _ _ Hok _ _ Hv Hc) as [Hh Hl]. split_and!; [done|by apply held_key_true| |done].
  unfold store_get. rewrite Hv, Hc. cbn [negb]. by destruct (N.ltb_spec MAX_CHUNK (N.of_nat (length c))); [lia|].
Qed.

(** ** A run

    A node with one chunk that no name reaches, written at 200 ms; a collection
    that begins at 210 ms, finds it to be garbage and sends the DROP. *)
#[local] Existing Instances demo_sha1 demo_sha1_ok.

Definition race_node : Peer := mkPeer 10 "10.0.0.1" 9001.
Definition race_no_send : FrameTransport unit := λ _ _ _ u, ((Refused, ([], [])), u).
(** The node, and the time in milliseconds. *)
Definition race_io : CollectIO (ChunkNode * Z) :=
  mkCollectIO (λ _ x, (inr [], x)) (λ _ x, (mkGetOutcome false [] [] no_peer [], x)) (λ x, (([race_node], None), x))
    (λ q line x, if bool_decide (address q = address race_node)
                 then let '(h, n, _) := handle_chunk_request x.1 race_no_send line [] (mkOs x.2 demo_env true true true) (mkSchedule [] 0 0) tt in
                      ((Ok, h_reply h), (n, (x.2 + 1)%Z))
                 else ((Refused, []), x))
    (λ x, ((x.2 * 1000)%Z, x)).
Definition race_clock (x : ChunkNode * Z) : Z := (x.2 * 1000)%Z.
Definition race_start : ChunkNode * Z := (demo_holder, 210%Z).
Definition race_run := default (no_report, (race_start, [])) (collect (visited race_io) 20 demo_settings (race_start, [race_start])).

Lemma drifts_refl key n now : drifts key n now n now.
Proof. split; [lia|]. split; [done|]. intros s Hs. by exists [], s. Qed.
Lemma drifts_later key n now now' : (now <= now')%Z → drifts key n now n now'.
Proof. intros H. split; [done|]. split; [done|]. intros s Hs. by exists [], s. Qed.

Lemma race_behind : node_behind race_io race_node race_clock fst demo_chunk 0.
Proof.
  split; [by split; [|apply drifts_refl]|intros; apply drifts_refl..|].
  intros q line [n ms] d reply σ'. unfold race_io. cbn [io_ask fst snd].
  case_bool_decide as Ea; [|intros [= <- <- <-]; left; split; [apply drifts_refl|done]].
  destruct (handle_chunk_request n race_no_send line [] _ _ tt) as [[h n2] []] eqn:E. intros [= <- <- <-]. right. split; [done|].
  exists n, (mkOs ms demo_env true true true), (mkSchedule [] 0 0), h, n2. unfold race_clock. cbn [fst snd os_now].
  split_and!; [apply drifts_refl|lia|exact E|apply drifts_later; lia|done].
Qed.

(** The DROP was sent, and refused as too young. *)
Lemma race_was_on : cr_garbage race_run.1 = 1 ∧ cr_dropped race_run.1 = 0 ∧ cn_kept_young race_run.2.1.1 = 1%N.
Proof. vm_compute. done. Qed.

Lemma upload_under_way_survives_witness :
  ∃ st, cn_store race_run.2.1.1 = Some st ∧ store_has st demo_chunk = true ∧
    store_get st (cn_disk race_run.2.1.1) demo_chunk true = Found demo_body ∧ chunk_key demo_body = demo_chunk.
Proof.
  apply (upload_under_way_survives race_io race_node race_clock fst demo_chunk 0 20 demo_settings race_start race_run.1 race_run.2.1
    race_run.2.2 race_start 200 demo_body 250000).
  - apply race_behind.
  - cbn. lia.
  - vm_compute. reflexivity.
  - apply (list_elem_of_lookup_2 _ 0). vm_compute. reflexivity.
  - exists demo_put.1.2. split; [reflexivity|]. split; [apply demo_put_ok|].
    split; [apply (bool_decide_unpack _); vm_compute; exact I|]. split; [vm_compute; reflexivity|].
    exists 200%Z. split; [vm_compute; reflexivity|lia].
  - vm_compute. discriminate.
  - vm_compute. reflexivity.
  - vm_compute. discriminate.
Defined.
