(* ===== verification/GcMain.v ===== *)
(** * GcMain: the collector program (gc_main.cpp)

    The command line, the real network behind [CollectIO] and what the program
    prints, logs and exits with; the usage text is left out. The exchanges of net.cpp and the two clocks are
    parameters; the tracker's client, which remembers the replica that answered,
    is part of the state. Times printed are arguments. *)
From S2P Require Import Prelude Text Net Log Chord Lookup OrdMap Names Options Group Stabilize Store Chunk Manifest Collect Client.

(** ** The command line *)

Record GcOptions := mkGcOptions {
  go_tracker : list Address; go_have_tracker : bool; go_wait : Z; go_seeds : list Peer; go_key_file : bytes;
  go_dry_run : bool; go_deadline : Z; go_upload_limit : Z; go_request_id : bytes; go_log : bytes; go_quiet : bool }.
#[export] Instance GcOptions_eta : Eta GcOptions := λ o,
  mkGcOptions (go_tracker o) (go_have_tracker o) (go_wait o) (go_seeds o) (go_key_file o) (go_dry_run o) (go_deadline o)
    (go_upload_limit o) (go_request_id o) (go_log o) (go_quiet o).
Definition default_options : GcOptions := mkGcOptions [] false 10000 [] [] false (1800 * SECOND) (3600 * SECOND) [] [] false.

(** Whole seconds, at most seven digits. *)
Definition parse_seconds (s : bytes) : option Z :=
  if bool_decide (s = []) || (7 <? length s) then None else Z.of_N <$> digits_val s.

Definition parse_seed `{Sha1, Inet} (item : bytes) : option Peer :=
  if bool_decide (item = []) then None else match parse_members item with inr [p] => Some p | _ => None end.
Definition parse_list `{Sha1, Inet} (text : bytes) (out : list Peer) : option (list Peer) :=
  more ← mapM parse_seed (getlines COMMA text);
  if bool_decide (out ++ more = []) then None else Some (out ++ more).

Definition value_option `{Sha1, Inet} (a v : bytes) (o : GcOptions) : option GcOptions :=
  let opt x := bool_decide (a = x) in
  if opt (lit "--tracker") then
    match parse_address_list v with inr l => Some (o <| go_tracker := l |> <| go_have_tracker := true |>) | inl _ => None end
  else if opt (lit "--ring") then l ← parse_list v (go_seeds o); Some (o <| go_seeds := l |>)
  else if opt (lit "--gc-key") then Some (o <| go_key_file := v |>)
  else if opt (lit "--deadline") then n ← parse_seconds v; Some (o <| go_deadline := (n * SECOND)%Z |>)
  else if opt (lit "--assume-upload-limit") then n ← parse_seconds v; Some (o <| go_upload_limit := (n * SECOND)%Z |>)
  else if opt (lit "--tracker-wait") then n ← parse_seconds v; Some (o <| go_wait := n |>)
  else if opt (lit "--request-id") then if valid_request_id v then Some (o <| go_request_id := v |>) else None
  else if opt (lit "--log") then Some (o <| go_log := v |>)
  else None.

Fixpoint parse_args `{Sha1, Inet} (args : list bytes) (o : GcOptions) : option GcOptions :=
  match args with
  | [] => if negb (go_have_tracker o) || bool_decide (go_seeds o = []) || bool_decide (go_key_file o = []) then None else Some o
  | a :: rest =>
      if bool_decide (a = lit "--dry-run") then parse_args rest (o <| go_dry_run := true |>)
      else if bool_decide (a = lit "--quiet") then parse_args rest (o <| go_quiet := true |>)
      else match rest with
      | v :: rest => o ← value_option a v o; parse_args rest o
      | [] => None
      end
  end.

(** The settings of the collection; a time in milliseconds is 1000 microseconds. *)
Definition gc_settings (o : GcOptions) (key : bytes) : CollectSettings :=
  mkCollectSettings key (go_dry_run o) (go_deadline o) (go_upload_limit o) (go_wait o * 1000).

Definition gc_group (o : GcOptions) : GroupClient := mkGroupClient (go_tracker o) (go_wait o) 100 0.
Definition gc_logger (o : GcOptions) (fd : Z) (fresh : bytes) : Logger :=
  mkLogger (lit "gc") Info fd (if bool_decide (go_request_id o = []) then fresh else go_request_id o).

(** ** The real network *)

Section network.
Context {SH : Sha1} {IN : Inet} {W : Type} (logger : Logger) (o : GcOptions).
Abbreviation GcState := (GroupClient * W)%type (only parsing).
Context (exchange_line : Transport GcState) (exchange_frame : FrameTransport GcState)
  (tracker_exchange : Address → bytes → W → (Delivery * bytes) * W) (millis micros : W → Z * W) (sleep : Z → W → W).

Definition gc_tracker : GroupIO W := mkGroupIO (λ to request, tracker_exchange to (with_request_id logger [] request)) millis sleep.
Definition gc_route : Transport GcState := λ (to : Peer) (request : bytes), exchange_line to (with_request_id logger [] (addressed to request)).
Definition gc_frames : FrameTransport GcState := λ (to : Peer) (line body : bytes), exchange_frame to (with_request_id logger [] line) body.

(** [fuel] bounds the rounds of one question to the tracker. [CollectIO] has no place
    for a question that does not end, so running out is an error like another; a
    fuel above the client's wait never does ([entries_end]). *)
Definition entries (fuel : nat) (after : bytes) (σ : GcState) : (bytes + list (bytes * bytes)) * GcState :=
  match ask_group gc_tracker (if bool_decide (after = []) then lit "ENTRIES" else lit "ENTRIES " ++ after) fuel σ.1 σ.2 with
  | None => (inl [], σ)
  | Some (ok, reply, g, w) =>
      (if negb ok then inl reply
       else match parse_entries_reply reply with
            | Some page => inr page
            | None => inl (lit "the tracker answered: " ++ take 100 reply)
            end, (g, w))
  end.

(** The next seed only if a lookup could not start. *)
Fixpoint get_from (seeds : list Peer) (key : bytes) (g : GetOutcome) (σ : GcState) : GetOutcome * GcState :=
  match seeds with
  | [] => (g, σ)
  | seed :: seeds =>
      let '(g, σ) := get_chunk gc_route gc_frames seed key LOOKUP_RETRIES σ in
      if go_ok g || negb (lookup_failed (go_message g)) then (g, σ) else get_from seeds key g σ
  end.

Definition WALK_STEPS : nat := 100000.
(** The first walk that closes; the last one's list and error otherwise. *)
Fixpoint nodes_from (seeds : list Peer) (found : list Peer * option bytes) (σ : GcState) : (list Peer * option bytes) * GcState :=
  match seeds with
  | [] => (found, σ)
  | seed :: seeds =>
      let '(err, processes, σ) := walk_ring gc_route seed WALK_STEPS σ in
      match err with
      | None => ((processes, None), σ)
      | Some why => nodes_from seeds (processes, Some why) σ
      end
  end.

Definition gc_io (fuel : nat) : CollectIO GcState :=
  mkCollectIO (entries fuel) (λ key, get_from (go_seeds o) key (mkGetOutcome false [] [] no_peer []))
    (nodes_from (go_seeds o) ([], Some []))
    (λ to line, exchange_line to (with_request_id logger [] line))
    (λ σ, let '(t, w) := micros σ.2 in (t, (σ.1, w))).
End network.

(** ** What is printed and logged *)

Definition plural (n : nat) : bytes := dec (N.of_nat n).

Definition node_note (n : NodeSweep) : bytes :=
  lit "gc: " ++ sw_address n ++ lit " grace " ++ to_string (sw_grace n) ++ lit " s: " ++ plural (sw_held n) ++ lit " held, " ++
  plural (sw_garbage n) ++ lit " garbage, " ++ plural (sw_dropped n) ++ lit " dropped, " ++ dec (sw_bytes n) ++ lit " bytes" ++
  (if bool_decide (sw_skipped n = []) then [] else lit " -- not swept: ") ++ c_str (sw_skipped n).
Definition node_entry (n : NodeSweep) : Level * bytes * list LogField :=
  (Info, lit "gc.node", [(lit "node", sw_address n); (lit "held", plural (sw_held n)); (lit "garbage", plural (sw_garbage n));
    (lit "dropped", plural (sw_dropped n)); (lit "bytes", dec (sw_bytes n)); (lit "skipped", sw_skipped n)]).

Definition held_total (nodes : list NodeSweep) : nat := foldl (λ held n, held + sw_held n) 0 nodes.
Definition skipped_total (nodes : list NodeSweep) : nat := length (filter (λ n, sw_skipped n ≠ []) nodes).

(** [mark_ms], [sweep_ms]: the two times as printed. *)
Definition done_line (r : CollectReport) (dry_run : bool) (mark_ms sweep_ms : bytes) : bytes :=
  lit "gc ok names " ++ plural (cr_names r) ++ lit " roots " ++ plural (cr_roots r) ++ lit " live " ++ plural (cr_live r) ++
  lit " nodes " ++ plural (length (cr_nodes r)) ++ lit " skipped " ++ plural (skipped_total (cr_nodes r)) ++ lit " held " ++
  plural (held_total (cr_nodes r)) ++ lit " garbage " ++ plural (cr_garbage r) ++ lit " dropped " ++ plural (cr_dropped r) ++
  lit " bytes " ++ dec (cr_freed r) ++ lit " mark_ms " ++ mark_ms ++ lit " sweep_ms " ++ sweep_ms ++ (if dry_run then lit " dry-run" else []).
Definition done_entry (r : CollectReport) : Level * bytes * list LogField :=
  (Info, lit "gc.done", [(lit "garbage", plural (cr_garbage r)); (lit "dropped", plural (cr_dropped r)); (lit "bytes", dec (cr_freed r))]).

(** ** The program *)

Record GcRun := mkGcRun { gr_status : Z; gr_out : list bytes; gr_err : list bytes; gr_log : list (Level * bytes * list LogField) }.

Definition report_run (logger : Logger) (o : GcOptions) (r : CollectReport) (mark_ms sweep_ms : bytes) : GcRun :=
  let start := (Info, lit "gc.start", [(lit "dry_run", if go_dry_run o then lit "1" else lit "0")]) in
  let notes := (if go_quiet o then [] else node_note <$> cr_nodes r) ++
               (if bool_decide (cr_message r = []) then [] else [lit "gc: " ++ c_str (cr_message r)]) in
  let entries := start :: (node_entry <$> cr_nodes r) in
  let logged := filter (λ e, log_enabled logger e.1.1 = true) in
  if negb (cr_ok r) then mkGcRun 1 [] notes (logged (entries ++ [(Error, lit "gc.stopped", [(lit "msg", cr_message r)])]))
  else mkGcRun 0 [done_line r (go_dry_run o) mark_ms sweep_ms] notes (logged (entries ++ [done_entry r])).

Section program.
Context {SH : Sha1} {IN : Inet} {W : Type}.
Context (exchange_line : Transport (GroupClient * W)) (exchange_frame : FrameTransport (GroupClient * W))
  (tracker_exchange : Address → bytes → W → (Delivery * bytes) * W) (millis micros : W → Z * W) (sleep : Z → W → W).

(** What the operating system gives: the key file's content, the log file's
    descriptor or the error opening it, a fresh request id, the times printed. *)
Record GcEnv := mkGcEnv { gv_key : option bytes; gv_log : bytes + Z; gv_fresh : bytes; gv_mark_ms : bytes; gv_sweep_ms : bytes }.

(** [None]: more pages or rounds than [fuel]. *)
Definition gc_main (fuel : nat) (args : list bytes) (e : GcEnv) (w : W) : option (GcRun * W) :=
  match parse_args args default_options with
  | None => Some (mkGcRun 2 [] [] [], w)
  | Some o =>
      match read_secret (gv_key e) with
      | None => Some (mkGcRun 2 [] [lit "gc: " ++ go_key_file o ++ lit " must hold one key of 32 to 64 lowercase hexadecimal characters"] [], w)
      | Some key =>
          match (if bool_decide (go_log o = []) then inr (-1)%Z else gv_log e) with
          | inl why => Some (mkGcRun 2 [] [lit "gc: cannot open " ++ go_log o ++ lit ": " ++ why] [], w)
          | inr fd =>
              let logger := gc_logger o fd (gv_fresh e) in
              '(r, (g, w)) ← collect (gc_io logger o exchange_line exchange_frame tracker_exchange millis micros sleep fuel) fuel
                               (gc_settings o key) (gc_group o, w);
              Some (report_run logger o r (gv_mark_ms e) (gv_sweep_ms e), w)
          end
      end
  end.
End program.
