(* ===== verification/GcMainSpec.v ===== *)
(** * GcMainSpec: the collector on the network

    The collection of collect.cpp, run over what gc_main.cpp gives it: the tracker's
    group for the names, lookups and verified reads from the seeds for the manifests.
    What the collection assumes of its reads holds of these, so files survive
    whatever the tracker, the ring and the network answer. *)
From S2P Require Import Prelude Text Net Log Chord Lookup OrdMap Routing Names Options Group Stabilize Store Chunk Replication Manifest ManifestTree Collect Client CollectSpec GcMain.

Section network.
Context {SH : Sha1} {IN : Inet} {W : Type} (logger : Logger) (o : GcOptions).
Context (exchange_line : Transport (GroupClient * W)) (exchange_frame : FrameTransport (GroupClient * W))
  (tracker_exchange : Address → bytes → W → (Delivery * bytes) * W) (millis micros : W → Z * W) (sleep : Z → W → W).
Abbreviation reads := (get_from logger exchange_line exchange_frame) (only parsing).
Abbreviation io fuel := (gc_io logger o exchange_line exchange_frame tracker_exchange millis micros sleep fuel) (only parsing).

(** A read that falls over between seeds is as good as its last answer. *)
Lemma get_from_verified seeds key g σ : (go_ok g = true → chunk_key (go_body g) = key) →
  let '(r, _) := reads seeds key g σ in go_ok r = true → chunk_key (go_body r) = key.
Proof.
  revert g σ. induction seeds as [|seed seeds IH]; intros g σ Hg; cbn [get_from]; [done|].
  pose proof (reads_are_verified (gc_route logger exchange_line) (gc_frames logger exchange_frame) seed key LOOKUP_RETRIES σ) as H.
  destruct (get_chunk _ _ seed key LOOKUP_RETRIES σ) as [g' σ']. destruct H as [H _].
  destruct (go_ok g' || negb (lookup_failed (go_message g'))); [done|]. by apply IH.
Qed.

Lemma gc_reads_verified fuel key σ : go_ok (io_get (io fuel) key σ).1 = true → chunk_key (go_body (io_get (io fuel) key σ).1) = key.
Proof.
  cbn. pose proof (get_from_verified (go_seeds o) key (mkGetOutcome false [] [] no_peer []) σ ltac:(done)) as H.
  by destruct (reads _ _ _ _).
Qed.

(** With a steady clock every question to the tracker ends: the listing is what the
    tracker answered, or says that the wait has passed. *)
Lemma entries_end clock fuel after (σ : GroupClient * W) :
  steady (gc_tracker logger tracker_exchange millis sleep) clock →
  (0 < gc_pause_ms σ.1)%Z → (gc_wait_ms σ.1 < Z.of_nat fuel)%Z → 0 < fuel →
  ∃ ok reply g w,
    ask_group (gc_tracker logger tracker_exchange millis sleep)
      (if bool_decide (after = []) then lit "ENTRIES" else lit "ENTRIES " ++ after) fuel σ.1 σ.2 = Some (ok, reply, g, w) ∧
    (entries logger tracker_exchange millis sleep fuel after σ).2 = (g, w) ∧
    (ok = false → (entries logger tracker_exchange millis sleep fuel after σ).1 = inl reply ∧
       (clock σ.2 + gc_wait_ms σ.1 <= clock w)%Z).
Proof.
  intros Hc Hp Hw Hf.
  destruct (ask_group_returns _ (if bool_decide (after = []) then lit "ENTRIES" else lit "ENTRIES " ++ after) clock Hc fuel σ.1 σ.2 Hp Hw Hf)
    as (ok & reply & g & w & E & Hno).
  exists ok, reply, g, w. unfold entries. rewrite E. split_and!; [done|done|]. intros ->. split; [done|]. by apply Hno.
Qed.

(** The names the collector reads are pages the tracker sent. *)
Lemma entries_parsed fuel after σ page σ' :
  entries logger tracker_exchange millis sleep fuel after σ = (inr page, σ') → ∃ reply, parse_entries_reply reply = Some page.
Proof.
  unfold entries. destruct (ask_group _ _ _ _ _) as [[[[ok reply] g] w]|]; [|done].
  destruct (negb ok); [done|]. destruct (parse_entries_reply reply) eqn:E; [|done]. intros [= <- _]. by exists reply.
Qed.

(** C4. The collector program spares every listed file: take a file's chunks and the
    manifest tree an upload built for them, and a collection over the real network
    during which the tree's root was listed under some name. Whatever the tracker,
    the lookups, the nodes and the clocks answer, if no other bytes share the digest of
    a manifest of the tree, no DROP sent to a node names a chunk or a manifest of it. *)
Theorem collector_spares_listed_files {SHok : Sha1Ok SH} fuel pages gc_key w rep σ' log chunks size chunk fanout tree all :
  level_ok size chunk Data chunks → 2 ≤ fanout ≤ MANIFEST_FANOUT →
  build_manifests chunks size chunk fanout = Some tree → mt_depth tree ≤ MAX_MANIFEST_DEPTH →
  (∀ b b', b ∈ mt_blobs tree → chunk_key b' = chunk_key b → b' = b) →
  collect (logged (io fuel)) pages (gc_settings o gc_key) ((gc_group o, w), []) = Some (rep, (σ', log)) →
  listing_of (logged (io fuel)) pages ((gc_group o, w), []) all → mt_root_key tree ∈ all.*2 →
  ∀ p line, Asked p line ∈ log →
    (∃ cursor, line = lit "KEYS " ++ cursor) ∨
    ∃ batch, line = drop_line gc_key batch ∧ ∀ k, k ∈ batch → (k ∉ chunk_key <$> mt_blobs tree) ∧ k ∉ me_key <$> chunks.
Proof.
  intros Hl Hf Et Hd Hcol Hrun Hlist Hroot.
  exact (listed_files_survive (io fuel) pages (gc_settings o gc_key) (gc_group o, w) rep σ' log chunks size chunk fanout tree all
    (gc_reads_verified fuel) Hl Hf Et Hd Hcol Hrun Hlist Hroot).
Qed.
End network.

(** ** Witness: one tracker, one node that holds a live chunk and garbage *)
#[local] Existing Instances demo_hash demo_hash_ok quad_inet.

Definition demo_gc_node : Peer := mkPeer 10 (lit "10.0.0.1") 9001.
Definition demo_gc_line : Transport (GroupClient * unit) := λ to line σ,
  ((Ok, if bool_decide (line = lit "NEIGHBOURS") then lit "NEIGHBOURS NONE " ++ peer_words demo_gc_node
        else if starts_with (lit "KEYS ") line || starts_with (lit "DROP ") line then demo_reply line
        else lit "OWNER " ++ peer_words demo_gc_node), σ).
Definition demo_gc_frame : FrameTransport (GroupClient * unit) := λ to line body σ,
  ((Ok, if bool_decide (line = lit "GET " ++ hex_go 40 1) then (lit "CHUNK " ++ dec (N.of_nat (length demo_manifest)), demo_manifest)
        else (lit "MISSING", [])), σ).
Definition demo_gc_tracker (to : Address) (line : bytes) (w : unit) : (Delivery * bytes) * unit :=
  ((Ok, if bool_decide (line = lit "ENTRIES") then lit "ENTRIES 1 notes " ++ hex_go 40 1 else lit "ENTRIES 0"), w).
Definition demo_gc_options : GcOptions :=
  default_options <| go_tracker := [mkAddress (lit "10.0.0.9") 7000] |> <| go_have_tracker := true |> <| go_seeds := [demo_gc_node] |>
    <| go_key_file := lit "gc.key" |>.
Definition demo_gc_logger : Logger := mkLogger (lit "gc") Info 2 [].
Definition demo_gc_io : CollectIO (GroupClient * unit) :=
  gc_io demo_gc_logger demo_gc_options demo_gc_line demo_gc_frame demo_gc_tracker (λ w, (0%Z, w)) (λ w, (0%Z, w)) (λ _ w, w) 3.
Definition demo_gc_start : (GroupClient * unit) * list Event := ((gc_group demo_gc_options, tt), []).
Definition demo_gc_run := default (no_report, demo_gc_start)
  (collect (logged demo_gc_io) 20 (gc_settings demo_gc_options (lit "collection-key")) demo_gc_start).

(** No other text has the manifest's digest. *)
Lemma demo_hash_manifest b' : chunk_key b' = chunk_key demo_manifest → b' = demo_manifest.
Proof.
  unfold chunk_key, sha1, demo_hash. rewrite (bool_decide_true (demo_manifest = demo_manifest)) by done.
  case_bool_decide as E; [done|]. intros H. exfalso. vm_compute in H. discriminate H.
Qed.

Lemma collector_spares_listed_files_witness :
  demo_gc_run.2.2 !! 5 = Some (Asked demo_gc_node (drop_line (lit "collection-key") [demo_garbage])) ∧
  ∀ p line, Asked p line ∈ demo_gc_run.2.2 →
    (∃ cursor, line = lit "KEYS " ++ cursor) ∨
    ∃ batch, line = drop_line (lit "collection-key") batch ∧
      ∀ k, k ∈ batch → (k ∉ chunk_key <$> mt_blobs demo_tree1) ∧ k ∉ me_key <$> demo_level.
Proof.
  split; [vm_compute; reflexivity|].
  apply (collector_spares_listed_files demo_gc_logger demo_gc_options demo_gc_line demo_gc_frame demo_gc_tracker
    (λ w, (0%Z, w)) (λ w, (0%Z, w)) (λ _ w, w) 3 20 (lit "collection-key") tt demo_gc_run.1 demo_gc_run.2.1 demo_gc_run.2.2
    demo_level 3 4 2 demo_tree1 [(lit "notes", hex_go 40 1)]).
  - split; [reflexivity|reflexivity|unfold MAX_CHUNK; lia| |by split|done]. repeat constructor.
  - split; [lia|]. apply Nat.leb_le. vm_compute. reflexivity.
  - vm_compute. reflexivity.
  - apply Nat.leb_le. vm_compute. reflexivity.
  - intros b b' Hb. assert (Eb : b = demo_manifest).
    { change (mt_blobs demo_tree1) with [demo_manifest] in Hb. by apply list_elem_of_singleton in Hb. }
    subst b. apply demo_hash_manifest.
  - vm_compute. reflexivity.
  - eexists. vm_compute. reflexivity.
  - apply (bool_decide_unpack _). vm_compute. exact I.
Defined.
