(* ===== verification/ClientSpec.v ===== *)
(** * ClientSpec: the client against a ring and a tracker

    What the client needs of the tracker is [tracker_serves]: each exchange happens
    at one moment between those of others, and a reply that is neither a redirect
    nor UNAVAILABLE is the namespace's answer at that moment; any other outcome may
    or may not have done the request's work. Theorems: a file that was put is got
    back under its name ([put_then_get]), names are registered only for whole files
    ([registers_only_whole_files]) and [ls] prints every name. *)
From S2P Require Import Prelude Text OrdMap Net Log Chord Lookup Routing Names Options Group Store Stabilize Chunk Manifest ManifestTree Pool Transfer TransferSpec Collect CollectSpec Client.

(** ** The namespace moves by commands *)

Definition evolves (C : bytes → Prop) (ns ns' : list (bytes * NameEntry)) : Prop := ∃ ts, Forall C ts ∧ ns' = apply_all ns ts.

#[export] Instance evolves_preorder C : PreOrder (evolves C).
Proof.
  split; [intros ns; by exists []|]. intros a b c (ts & H1 & ->) (ts' & H2 & ->). exists (ts ++ ts'). split; [by apply Forall_app|].
  unfold apply_all. by rewrite foldl_app.
Qed.
Lemma evolves_mono (C C' : bytes → Prop) ns ns' : (∀ t, C t → C' t) → evolves C ns ns' → evolves C' ns ns'.
Proof. intros H (ts & Ht & E). exists ts. split; [|done]. by eapply Forall_impl. Qed.

(** No command of [C] deletes [name]. *)
Definition spares (C : bytes → Prop) (name : bytes) : Prop := ∀ t owner, C t → t ≠ unregister_command name owner.

Lemma evolves_keeps C ns ns' name e : spares C name → evolves C ns ns' → om_find name ns = Some e → om_find name ns' = Some e.
Proof.
  intros HC (ts & Ht & ->). revert ns. induction Ht as [|t ts Ht Hts IH]; intros ns Hf; [done|]. cbn. apply IH.
  apply apply_keeps; [done|]. right. by apply HC.
Qed.

(** The answer to a client's line, and what it does. *)
Definition namespace_answer {SH : Sha1} (ns : list (bytes * NameEntry)) (line : bytes) : bytes * list (bytes * NameEntry) :=
  match write_command line with
  | Some t => apply_command ns t
  | None => let r := parse_names_request line in
            (match r_kind r with KPing => lit "PONG" | KInvalid => r_error r | _ => answer_read ns r end, ns)
  end.

(** What the receiver handles: the line without its request id. *)
Definition unprefixed (line : bytes) : bytes :=
  match split_request_id line with RidPresent _ rest | RidNone rest => rest | RidMalformed => [] end.
Definition logger_ok (g : Logger) : Prop := lg_request_id g = [] ∨ valid_request_id (lg_request_id g) = true.

Lemma unprefixed_request g line : logger_ok g → line ≠ [] → starts_with (lit "RID ") line = false → unprefixed (with_request_id g [] line) = line.
Proof.
  intros Hg Hne Hrid. unfold unprefixed. destruct (decide (lg_request_id g = [])) as [E|E].
  - unfold with_request_id, current_request_id. cbv zeta. rewrite (bool_decide_true (@nil Ascii.ascii = [])) by done. rewrite bool_decide_true by done.
    unfold split_request_id. by rewrite Hrid.
  - destruct Hg as [?|Hg]; [done|]. by rewrite request_id_travels.
Qed.

(** ** The client's requests *)

Ltac parse_line Hw :=
  unfold parse_names_request; rewrite bool_decide_false by done; rewrite Hw; cbn [head default];
  repeat first [rewrite bool_decide_true by done | rewrite bool_decide_false by done]; cbn [andb Nat.eqb length].

Lemma register_parsed name key owner : valid_name name = true → valid_key key = true → valid_key owner = true →
  parse_names_request (lit "REGISTER " ++ name ++ lit " " ++ key ++ lit " " ++ owner) =
  no_request <| r_kind := KRegister |> <| r_name := name |> <| r_key := key |> <| r_owner := owner |>.
Proof.
  intros Hn Hk Ho. assert (Hne : owner ≠ []) by (intros ->; done).
  assert (E : lit "REGISTER " ++ name ++ lit " " ++ key ++ lit " " ++ owner = register_command name key owner).
  { unfold register_command. by rewrite bool_decide_false by done. }
  rewrite E. pose proof (register_words name key owner Hn Hk (or_intror Ho)) as Hw. rewrite (bool_decide_false (owner = [])) in Hw by done.
  parse_line Hw. unfold parse_register. cbn [app drop forallb]. rewrite Hn, Hk, Ho. reflexivity.
Qed.
Lemma register_request {SH : Sha1} name key owner : valid_name name = true → valid_key key = true → valid_key owner = true →
  write_command (lit "REGISTER " ++ name ++ lit " " ++ key ++ lit " " ++ owner) = Some (register_command name key owner).
Proof. intros Hn Hk Ho. unfold write_command. by rewrite register_parsed. Qed.

(** Only a line whose first word is REGISTER is read as a registration. *)
Lemma other_verb line : head (split_single_spaces line) ≠ Some (lit "REGISTER") → r_kind (parse_names_request line) ≠ KRegister.
Proof.
  intros Hv. unfold parse_names_request. case_bool_decide; [done|]. cbv zeta. destruct (split_single_spaces line) as [|v w]; [done|]. cbn [head default] in *.
  destruct (_ && _); [done|]. rewrite (bool_decide_false (v = lit "REGISTER")) by congruence.
  unfold parse_unregister, parse_resolve, parse_page. repeat case_match; done.
Qed.

Lemma verb_words verb name : SPACE ∉ lit verb → valid_name name = true → split_single_spaces (lit verb ++ SPACE :: name) = [lit verb; name].
Proof. intros Hv Hn. unfold split_single_spaces. rewrite split_on_app by done. by rewrite split_on_single by by apply valid_name_no_space. Qed.

Lemma unregister_request {SH : Sha1} name secret : valid_name name = true → valid_secret secret = true →
  write_command (lit "UNREGISTER " ++ name ++ lit " " ++ secret) = Some (unregister_command name (owner_hash secret)).
Proof.
  intros Hn Hs. assert (Hw : split_single_spaces (lit "UNREGISTER " ++ name ++ lit " " ++ secret) = [lit "UNREGISTER"; name; secret]).
  { change (lit "UNREGISTER " ++ ?x) with (lit "UNREGISTER" ++ SPACE :: x). change (lit " " ++ ?x) with (SPACE :: x).
    unfold split_single_spaces. rewrite !split_on_app by first [by apply valid_name_no_space | by apply (bool_decide_unpack _)].
    rewrite split_on_single; [done|]. intros Hin. unfold valid_secret in Hs. destruct (_ || _); [done|].
    apply forallb_Forall in Hs. rewrite Forall_forall in Hs. by specialize (Hs _ Hin). }
  unfold write_command. cbv zeta. parse_line Hw. unfold parse_unregister. rewrite Hn, Hs. reflexivity.
Qed.

Lemma resolve_request name : valid_name name = true →
  parse_names_request (lit "RESOLVE " ++ name) = no_request <| r_kind := KResolve |> <| r_name := name |>.
Proof.
  intros Hn. pose proof (verb_words "RESOLVE" name ltac:(by apply (bool_decide_unpack _)) Hn) as Hw. change (lit "RESOLVE" ++ SPACE :: name) with (lit "RESOLVE " ++ name) in Hw.
  parse_line Hw. unfold parse_resolve. by rewrite Hn.
Qed.

Lemma list_request after : after = [] ∨ valid_name after = true →
  parse_names_request (if bool_decide (after = []) then lit "LIST" else lit "LIST " ++ after) =
  if bool_decide (after = []) then no_request <| r_kind := KList |> <| r_from_start := true |>
  else no_request <| r_kind := KList |> <| r_from_start := false |> <| r_after := after |>.
Proof.
  case_bool_decide as Ea; intros Ha; [reflexivity|]. destruct Ha as [Ha|Ha]; [done|].
  pose proof (verb_words "LIST" after ltac:(by apply (bool_decide_unpack _)) Ha) as Hw. change (lit "LIST" ++ SPACE :: after) with (lit "LIST " ++ after) in Hw.
  parse_line Hw. unfold parse_page. by rewrite Ha.
Qed.

Lemma resolve_answer {SH : Sha1} ns name : valid_name name = true →
  namespace_answer ns (lit "RESOLVE " ++ name) = (match om_find name ns with None => lit "MISSING" | Some e => lit "FILE " ++ ne_key e end, ns).
Proof. intros Hn. unfold namespace_answer, write_command. by rewrite resolve_request. Qed.

(** ** The ring's entry points *)
Section seeds.
Context {SH : Sha1} {IN : Inet} {W : Type} (logger : Logger) (exchange_line : Transport (nat * W)) (exchange_frame : FrameTransport (nat * W)).
Context (stored : bytes → W → Prop).
Definition stored_in (b : bytes) (σ : nat * W) : Prop := stored b σ.2.
Abbreviation transport := (socket_transport logger exchange_line).
Abbreviation frames := (client_frames logger exchange_frame).

Lemma over_seeds_rule {A} (ask : Peer → nat * W → A * (nat * W)) final seeds first ks out σ (R : nat * W → Prop) (P : A → nat * W → Prop) :
  (∀ seed σ, seed ∈ seeds → R σ → R (ask seed σ).2 ∧ P (ask seed σ).1 (ask seed σ).2) → (∀ i σ, R σ → R (i, σ.2)) →
  (∀ a i σ, P a σ → P a (i, σ.2)) → seeds ≠ [] ∨ ks = [] → R σ → P out σ →
  R (over_seeds ask final seeds first ks out σ).2 ∧ P (over_seeds ask final seeds first ks out σ).1 (over_seeds ask final seeds first ks out σ).2.
Proof.
  intros Hask HR HP. revert out σ. induction ks as [|k ks IH]; intros out σ Hne Hr Hp; [done|]. destruct Hne as [Hne|?]; [|done]. cbn [over_seeds].
  assert (Hin : seeds !!! ((first + k) mod length seeds) ∈ seeds).
  { apply list_elem_of_lookup_total_2, Nat.mod_upper_bound. by destruct seeds. }
  destruct (Hask _ σ Hin Hr) as [H1 H2]. destruct (ask _ σ) as [a σ1]. cbn [fst snd] in *. destruct (final a); [|by apply IH; auto].
  destruct (0 <? k); cbn [fst snd]; by auto.
Qed.

(** Each entry point stores what it acknowledges. *)
Definition seeds_store (seeds : list Peer) (w : nat) : Prop :=
  ∀ seed, seed ∈ seeds → put_stores (λ body, put_chunk transport frames seed body w LOOKUP_RETRIES) stored_in.

Lemma ring_put_stores seeds w : seeds_store seeds w → put_stores (ring_put logger exchange_line exchange_frame seeds w) stored_in.
Proof.
  intros Hs b σ. unfold ring_put.
  pose proof (over_seeds_rule (λ seed, put_chunk transport frames seed b w LOOKUP_RETRIES) (λ p, po_ok p || negb (lookup_failed (po_message p)))
    seeds σ.1 (seq 0 (length seeds)) (mkPutOutcome false 0 [] no_peer 0 []) σ (λ σ', ∀ b', stored_in b' σ → stored_in b' σ')
    (λ p σ', po_ok p = true → po_key p = chunk_key b ∧ stored_in b σ')) as H.
  destruct H as [H1 H2]; [..|by split]; try done.
  - intros seed σ' Hin Hr. destruct (Hs seed Hin b σ') as [H1 H2]. split; [auto|done].
  - destruct seeds; [by right|by left].
Qed.

(** What is stored is kept by every read and found from every entry point whose
    lookup works; and from one of them it works. *)
Record seeds_find (seeds : list Peer) : Prop := {
  sf_keeps seed key σ b : seed ∈ seeds → stored_in b σ → stored_in b (get_chunk transport frames seed key LOOKUP_RETRIES σ).2;
  sf_each seed b σ : seed ∈ seeds → stored_in b σ →
    let g := (get_chunk transport frames seed (chunk_key b) LOOKUP_RETRIES σ).1 in
    go_ok g = true ∧ go_body g = b ∨ go_ok g = false ∧ lookup_failed (go_message g) = true;
  sf_some : ∃ seed, seed ∈ seeds ∧ ∀ b σ, stored_in b σ → go_ok (get_chunk transport frames seed (chunk_key b) LOOKUP_RETRIES σ).1 = true;
}.

Lemma every_seed_tried (seeds : list Peer) first seed : seed ∈ seeds → ∃ k, k ∈ seq 0 (length seeds) ∧ seeds !!! ((first + k) mod length seeds) = seed.
Proof.
  intros [i Hi]%list_elem_of_lookup_1. pose proof (lookup_lt_Some _ _ _ Hi) as Hlt. set (n := length seeds) in *.
  exists ((i + n - first mod n) mod n). pose proof (Nat.mod_upper_bound first n ltac:(lia)) as Hf. split.
  - apply elem_of_seq. pose proof (Nat.mod_upper_bound (i + n - first mod n) n ltac:(lia)). lia.
  - rewrite Nat.Div0.add_mod_idemp_r. replace (first + (i + n - first mod n)) with (i + (1 + first / n) * n).
    2:{ pose proof (Nat.div_mod_eq first n). lia. }
    rewrite Nat.Div0.mod_add, Nat.mod_small by done. by apply list_lookup_total_correct.
Qed.

Lemma over_seeds_finds {A} (ask : Peer → nat * W → A * (nat * W)) final seeds first ks out σ (R : nat * W → Prop) (found : A → Prop) target :
  (∀ seed σ, seed ∈ seeds → R σ → R (ask seed σ).2 ∧ (found (ask seed σ).1 ∨ final (ask seed σ).1 = false)) →
  (∀ σ, R σ → final (ask target σ).1 = true) → target ∈ seeds → (∃ k, k ∈ ks ∧ seeds !!! ((first + k) mod length seeds) = target) → R σ →
  found (over_seeds ask final seeds first ks out σ).1.
Proof.
  intros Hask Ht Hin. revert out σ. induction ks as [|j ks IH]; intros out σ (k & Hk & Ek) Hr; [by apply elem_of_nil in Hk|]. cbn [over_seeds].
  assert (Hj : seeds !!! ((first + j) mod length seeds) ∈ seeds).
  { apply list_elem_of_lookup_total_2, Nat.mod_upper_bound. intros E%length_zero_iff_nil. subst seeds. by apply elem_of_nil in Hin. }
  destruct (Hask _ σ Hj Hr) as [H1 H2]. pose proof (Ht σ Hr) as H3.
  assert (H4 : final (ask (seeds !!! ((first + j) mod length seeds)) σ).1 = false → k ∈ ks).
  { apply elem_of_cons in Hk as [->|Hk]; [rewrite Ek; congruence|done]. }
  destruct (ask _ σ) as [x σ1]. cbn [fst snd] in *. destruct (final x); [by destruct H2|]. apply IH; [by exists k; auto|done].
Qed.

Lemma ring_get_finds seeds : seeds_find seeds → get_finds (ring_get logger exchange_line exchange_frame seeds) stored_in.
Proof.
  intros [Hk He (good & Hgood & Hg)] b σ Hb. split.
  2:{ intros key. unfold ring_get. eapply (over_seeds_rule _ _ _ _ _ _ _ (stored_in b) (λ _ _, True)); try done.
      - intros seed σ' Hin Hr. split; [by apply Hk|done].
      - left. intros ->. by apply elem_of_nil in Hgood. }
  unfold ring_get. apply (over_seeds_finds _ _ _ _ _ _ _ (stored_in b) (λ g, go_ok g = true ∧ go_body g = b) good); [..|by apply every_seed_tried|done].
  - intros seed σ' Hin Hs. split; [by apply Hk|]. destruct (He seed b σ' Hin Hs) as [?|[E1 E2]]; [by left|right]. by rewrite E1, E2.
  - intros σ' Hs. by rewrite (Hg b σ' Hs).
  - done.
Qed.
End seeds.

Section tracker.
Context {SH : Sha1} {SHok : Sha1Ok SH} {IN : Inet} {W : Type}.
Context (exchange : Address → bytes → W → (Delivery * bytes) * W) (now : W → Z * W) (sleep : Z → W → W).
Context (names : W → list (bytes * NameEntry)) (others : bytes → Prop) (stored : bytes → W → Prop).

(** The commands that may have run while a request was under way. *)
Definition with_request (line : bytes) (t : bytes) : Prop := others t ∨ write_command line = Some t.

(** What others do in between: commands of theirs, and nothing stored is lost. *)
Definition meanwhile (C : bytes → Prop) (w w' : W) : Prop :=
  evolves C (names w) (names w') ∧ ∀ b, stored b w → stored b w'.
#[export] Instance meanwhile_preorder C : PreOrder (meanwhile C).
Proof.
  split; [intros w; by split|]. intros a b c [H1 H2] [H3 H4]. split; [by transitivity (names b)|auto].
Qed.
Lemma meanwhile_mono (C C' : bytes → Prop) w w' : (∀ t, C t → C' t) → meanwhile C w w' → meanwhile C' w w'.
Proof. intros H [H1 H2]. split; [by eapply evolves_mono|done]. Qed.

Record tracker_serves : Prop := {
  ts_answer to line w reply w' : exchange to line w = ((Ok, reply), w') → is_answer reply →
    (∃ ns, evolves others (names w) ns ∧ reply = (namespace_answer ns (unprefixed line)).1 ∧
           evolves others (namespace_answer ns (unprefixed line)).2 (names w')) ∧ ∀ b, stored b w → stored b w';
  ts_lost to line w d reply w' : exchange to line w = ((d, reply), w') → ¬ (d = Ok ∧ is_answer reply) →
    meanwhile (with_request (unprefixed line)) w w';
  ts_now w : meanwhile others w (now w).2;
  ts_sleep d w : meanwhile others w (sleep d w);
}.

Context (Hserves : tracker_serves).

(** A request to the group: answered by the namespace at some moment, after which others went on; or given up. *)
Lemma ask_tracker_serves g fuel request (c c' : Client W) ok reply :
  logger_ok g → request ≠ [] → starts_with (lit "RID ") request = false →
  ask_tracker g exchange now sleep fuel request c = Some (ok, reply, c') →
  c' = (c <| cl_group := cl_group c' |>) <| cl_world := cl_world c' |> ∧ gc_replicas (cl_group c') = gc_replicas (cl_group c) ∧
  (∀ b, stored b (cl_world c) → stored b (cl_world c')) ∧
  if ok then is_answer reply ∧ ∃ ns, evolves (with_request request) (names (cl_world c)) ns ∧ reply = (namespace_answer ns request).1 ∧
                    evolves others (namespace_answer ns request).2 (names (cl_world c'))
  else evolves (with_request request) (names (cl_world c)) (names (cl_world c')).
Proof using Hserves SHok.
  intros Hg Hne Hrid. unfold ask_tracker. destruct (ask_group _ _ _ _ _) as [[[[b r] g'] w]|] eqn:E; cbn [mbind option_bind]; [|done].
  intros [= -> <- <-]. upd. split; [by destruct c|].
  eapply (ask_group_rule _ _ (meanwhile (with_request request))) in E as [Hgr E].
  - split; [done|]. destruct ok; cbn [asked] in E.
    + destruct E as (a & w0 & [H1 H2] & Ha & Ex). cbn [tracker_io gi_exchange] in Ex. apply (ts_answer Hserves) in Ex as [(ns & N1 & N2 & N3) Hst]; [|done].
      rewrite unprefixed_request in N2, N3 by done. split; [by auto|]. split; [done|]. exists ns. split; [|done].
      transitivity (names w0); [done|]. eapply evolves_mono; [|exact N1]. by left.
    + destruct E as [H1 H2]. done.
  - intros a w0 d line w1 Ex Hna. cbn [tracker_io gi_exchange] in Ex. apply (ts_lost Hserves) in Ex; [|done]. by rewrite unprefixed_request in Ex.
  - intros w0. eapply meanwhile_mono; [|apply (ts_now Hserves)]. by left.
  - intros d w0. eapply meanwhile_mono; [|apply (ts_sleep Hserves)]. by left.
Qed.

(** *** resolve *)

(** A name that stays bound is resolved to its key, unless the tracker cannot be reached. *)
Lemma resolve_bound g fuel name e (c c' : Client W) r : logger_ok g → valid_name name = true → spares others name →
  om_find name (names (cl_world c)) = Some e → valid_key (ne_key e) = true →
  resolve g exchange now sleep fuel name c = Some (r, c') →
  c' = (c <| cl_group := cl_group c' |>) <| cl_world := cl_world c' |> ∧ meanwhile others (cl_world c) (cl_world c') ∧
  (r = inr (ne_key e) ∨ ∃ c1 reply, ask_tracker g exchange now sleep fuel (lit "RESOLVE " ++ name) c = Some (false, reply, c1)).
Proof using Hserves SHok.
  intros Hg Hn Ho He Hk. unfold resolve. rewrite Hn. cbn [negb].
  destruct (ask_tracker _ _ _ _ _ _ _) as [[[ok reply] c1]|] eqn:E; cbn [mbind option_bind]; [|done]. intros [= <- <-].
  assert (Hw : write_command (lit "RESOLVE " ++ name) = None) by (unfold write_command; by rewrite resolve_request).
  assert (Hmono : ∀ ns ns', evolves (with_request (lit "RESOLVE " ++ name)) ns ns' → evolves others ns ns').
  { intros ns ns'. apply evolves_mono. intros t [?|Ht]; [done|congruence]. }
  apply ask_tracker_serves in E as E'; [|done..|done]. destruct E' as (Ec & _ & Hst & E'). split; [done|]. destruct ok; cbn [negb].
  - destruct E' as (_ & ns & N1%Hmono & -> & N2). rewrite resolve_answer in N2 |- * by done. cbn [fst snd] in *.
    split; [split; [by transitivity ns|done]|]. left. rewrite (evolves_keeps others _ ns name e Ho N1 He).
    rewrite bool_decide_false by done. change (drop 5 (lit "FILE " ++ ne_key e)) with (ne_key e). rewrite Hk.
    rewrite starts_with_app. reflexivity.
  - split; [by split; [apply Hmono|]|]. right. by exists c1, reply.
Qed.

(** Resolving returns; without an answer of the tracker, after the whole wait and with the reason. *)
Lemma resolve_returns g clock : steady (tracker_io g exchange now sleep) clock →
  ∀ fuel name (c : Client W), valid_name name = true →
  (0 < gc_pause_ms (cl_group c))%Z → (gc_wait_ms (cl_group c) < Z.of_nat fuel)%Z → 0 < fuel →
  ∃ r c', resolve g exchange now sleep fuel name c = Some (r, c') ∧
    ∀ reply c1, ask_tracker g exchange now sleep fuel (lit "RESOLVE " ++ name) c = Some (false, reply, c1) →
      (clock (cl_world c) + gc_wait_ms (cl_group c) <= clock (cl_world c'))%Z ∧ r = inl reply.
Proof using.
  intros Hclock fuel name c Hn Hp Hw Hf.
  destruct (ask_group_returns (tracker_io g exchange now sleep) (lit "RESOLVE " ++ name) clock Hclock fuel (cl_group c) (cl_world c) Hp Hw Hf)
    as (b & reply & g' & w & E & Hno).
  unfold resolve, ask_tracker. rewrite Hn, E. cbn [negb mbind option_bind]. eexists _, _. split; [reflexivity|].
  intros reply' c1 [= -> <- <-]. cbn [negb]. upd. split; [by apply Hno|done].
Qed.

(** *** put *)

Lemma note_world g level event fields (c : Client W) : cl_world (note_event g level event fields c) = cl_world c.
Proof using. unfold note_event. by destruct (log_enabled _ _). Qed.
Lemma say_world g what (c : Client W) : cl_world (say g what c) = cl_world c.
Proof using. unfold say. by rewrite note_world. Qed.
Lemma note_disk g level event fields (c : Client W) : cl_disk (note_event g level event fields c) = cl_disk c.
Proof using. unfold note_event. by destruct (log_enabled _ _). Qed.
Lemma record_stats_file g o env op (c : Client W) path : co_stats o ≠ path →
  om_find path (cl_disk (record_stats g o env op c)) = om_find path (cl_disk c).
Proof using.
  intros Hne. unfold record_stats. case_bool_decide; [done|]. unfold write_stats. destruct (negb _); [by unfold say; rewrite note_disk|].
  destruct (ce_stats_wrote env); upd; [unfold say; rewrite note_disk; upd|]; by rewrite om_find_set, decide_False.
Qed.
Lemma print_world line (c : Client W) : cl_world (print line c) = cl_world c.
Proof using. done. Qed.
Lemma print_last line (c : Client W) : last (cl_out (print line c)) = Some line.
Proof using. apply last_snoc. Qed.

Lemma register_answer ns name key owner : valid_name name = true → valid_key key = true → valid_key owner = true →
  namespace_answer ns (lit "REGISTER " ++ name ++ lit " " ++ key ++ lit " " ++ owner) =
  match om_find name ns with
  | None => (lit "OK", om_set name (mkNameEntry key owner) ns)
  | Some e => (if decide (e = mkNameEntry key owner) then lit "OK" else lit "EXISTS " ++ ne_key e, ns)
  end.
Proof.
  intros Hn Hk Ho. unfold namespace_answer. rewrite register_request by done. apply apply_register. split_and!; auto.
Qed.

(** What a registration that ended with status 0 has left: the name, bound to the
    upload's root, by this client's token unless it printed "-". *)
Definition bound_as (name root owner : bytes) (ns : list (bytes * NameEntry)) : Prop :=
  ∃ e, om_find name ns = Some e ∧ ne_key e = root ∧ valid_key (ne_key e) = true ∧ ne_owner e = owner.

Lemma register_upload_binds g o env fuel name secret u (c c' : Client W) :
  logger_ok g → valid_name name = true → valid_key (up_root_key u) = true → spares others name →
  register_upload g o env exchange now sleep fuel name secret u c = Some (0%Z, c') →
  (∀ b, stored b (cl_world c) → stored b (cl_world c')) ∧
  ∃ token owner, last (cl_out c') = Some (put_line env name u token) ∧ bound_as name (up_root_key u) owner (names (cl_world c')) ∧
    (token = secret ∧ owner = owner_hash secret ∨ token = lit "-").
Proof using Hserves SHok.
  intros Hg Hn Hk Hsp. unfold register_upload, fails. cbv zeta. set (c0 := if (0 <? _)%Z then _ else c).
  assert (Hc0 : ∀ b, stored b (cl_world c) → stored b (cl_world c0)).
  { subst c0. destruct (0 <? _)%Z; [|done]. upd. apply (ts_sleep Hserves). }
  clearbody c0. destruct (_ <? _)%Z; [done|].
  destruct (ask_tracker _ _ _ _ _ _ _) as [[[ok reply] c1]|] eqn:E; cbn [mbind option_bind]; [|done].
  apply ask_tracker_serves in E; [|done..]. destruct E as (_ & _ & Hst & E). destruct ok; cbn [negb]; [|done].
  destruct E as (_ & ns & N1 & -> & N2). rewrite register_answer in N2 |- * by (done || apply sha1_valid_key).
  assert (Hafter : ∀ e ns', om_find name ns' = Some e → evolves others ns' (names (cl_world c1)) → om_find name (names (cl_world c1)) = Some e).
  { intros e ns' He Hev. by eapply evolves_keeps. }
  assert (Hst' : ∀ b, stored b (cl_world c) → stored b (cl_world c1)) by auto.
  destruct (om_find name ns) as [e|] eqn:Ee; cbn [fst snd] in *.
  - case_decide as Eq.
    + subst e. rewrite bool_decide_false by done. change (starts_with (lit "EXISTS ") (lit "OK")) with false. cbv iota.
      rewrite bool_decide_true by done. cbn [negb]. intros [= <-]. rewrite print_world, note_world. split; [exact Hst'|].
      exists secret, (owner_hash secret). rewrite print_last. split; [done|]. split; [|by left]. exists (mkNameEntry (up_root_key u) (owner_hash secret)). by eauto.
    + case_bool_decide as Er; cbn [negb].
      * intros [= <-]. rewrite print_world, note_world, say_world. split; [exact Hst'|].
        exists (lit "-"), (ne_owner e). rewrite print_last. split; [done|]. split; [|by right]. apply app_inv_head in Er. exists e. rewrite Er. split_and!; eauto.
      * rewrite starts_with_app. done.
  - rewrite bool_decide_false by done. change (starts_with (lit "EXISTS ") (lit "OK")) with false. cbv iota.
    rewrite bool_decide_true by done. cbn [negb]. intros [= <-]. rewrite print_world, note_world. split; [exact Hst'|].
    exists secret, (owner_hash secret). rewrite print_last. split; [done|]. split; [|by left]. exists (mkNameEntry (up_root_key u) (owner_hash secret)).
    split_and!; [|done..]. eapply Hafter; [|exact N2]. by rewrite om_find_set, decide_True.
Qed.
End tracker.

(** ** Only whole files are registered *)
Section whole.
Context {SH : Sha1} {SHok : Sha1Ok SH} {IN : Inet} {W : Type} (g : Logger) (o : ClientOptions) (env : ClientEnv) (files : bytes → option bytes).
Context (exchange_line : Transport (nat * W)) (exchange_frame : FrameTransport (nat * W)).
Context (exchange : Address → bytes → W → (Delivery * bytes) * W) (now : W → Z * W) (sleep : Z → W → W) (fuel : nat).
Context (stored : bytes → W → Prop) (I : W → Prop).

(** The key is the root of a file every chunk and manifest of which is stored. *)
Definition whole (key : bytes) (w : W) : Prop := ∃ file opt u,
  (N.of_nat (length file) < 2 ^ 63)%N ∧ (1 <= uo_chunk opt <= MAX_CHUNK)%N ∧ 2 ≤ uo_fanout opt ≤ MANIFEST_FANOUT ∧
  uploaded (stored_in stored) file (uo_chunk opt) opt u (0, w) ∧ up_root_key u = key.
(** A line the tracker may be sent in this world: if it registers, what it registers is whole. *)
Definition careful (line : bytes) (w : W) : Prop :=
  r_kind (parse_names_request line) = KRegister → whole (r_key (parse_names_request line)) w.

Record keeps_whole : Prop := {
  kw_exchange to line w : I w → careful (unprefixed line) w → I (exchange to line w).2;
  kw_now w : I w → I (now w).2;
  kw_sleep d w : I w → I (sleep d w);
  kw_put b σ : I σ.2 → I (put g o exchange_line exchange_frame b σ).2.2;
  kw_get key σ : I σ.2 → I (get g o exchange_line exchange_frame key σ).2.2;
}.
Record keeps_stored : Prop := {
  ks_exchange to line w b : stored b w → stored b (exchange to line w).2;
  ks_now w b : stored b w → stored b (now w).2;
  ks_sleep d w b : stored b w → stored b (sleep d w);
}.
Context (Hg : logger_ok g) (HI : keeps_whole) (Hst : keeps_stored) (Hput : seeds_store g exchange_line exchange_frame stored (co_seeds o) (co_w o)).

Lemma whole_later key w w' : (∀ b, stored b w → stored b w') → whole key w → whole key w'.
Proof using. intros H (file & opt & u & H1 & H2 & H3 & H4 & H5). exists file, opt, u. refine (conj H1 (conj H2 (conj H3 (conj _ H5)))). eapply uploaded_later; [|exact H4]. intros b. apply H. Qed.

Lemma ask_careful request (c c' : Client W) ok reply : request ≠ [] → starts_with (lit "RID ") request = false →
  careful request (cl_world c) → I (cl_world c) →
  ask_tracker g exchange now sleep fuel request c = Some (ok, reply, c') → I (cl_world c').
Proof using Hg HI Hst.
  intros Hne Hrid Hc Hi. unfold ask_tracker. destruct (ask_group _ _ _ _ _) as [[[[b r] g'] w]|] eqn:E; cbn [mbind option_bind]; [|done].
  intros [= <- _ <-]. upd. set (J := λ w, I w ∧ careful request w).
  assert (Hx : ∀ a w0, J w0 → J (exchange a (with_request_id g [] request) w0).2).
  { intros a w0 [H1 H2]. split; [apply (kw_exchange HI); [done|by rewrite unprefixed_request]|]. intros Hr. eapply whole_later; [|by apply H2].
    intros b0. apply (ks_exchange Hst). }
  eapply (ask_group_rule _ _ (λ w w', J w → J w')) in E as [_ E].
  - destruct b; cbn [asked] in E; [|apply E; by split]. destruct E as (a & w0 & H1 & _ & Ex). cbn [tracker_io gi_exchange] in Ex.
    specialize (Hx a w0 (H1 (conj Hi Hc))). rewrite Ex in Hx. apply Hx.
  - intros a w0 d line w1 Ex _ Hj. cbn [tracker_io gi_exchange] in Ex. specialize (Hx a w0 Hj). by rewrite Ex in Hx.
  - intros w0 [H1 H2]. split; [by apply (kw_now HI)|]. intros Hr. eapply whole_later; [|by apply H2]. intros b0. apply (ks_now Hst).
  - intros d w0 [H1 H2]. split; [by apply (kw_sleep HI)|]. intros Hr. eapply whole_later; [|by apply H2]. intros b0. apply (ks_sleep Hst).
  Unshelve. split; [by intros ?|]. intros a b0 c0 H1 H2 H3. auto.
Qed.

Lemma careless_verb line w : head (split_single_spaces line) ≠ Some (lit "REGISTER") → careful line w.
Proof using. intros Hv Hr. by apply other_verb in Hv. Qed.
Lemma verb_first verb rest : SPACE ∉ lit verb → head (split_single_spaces (lit verb ++ SPACE :: rest)) = Some (lit verb).
Proof using. intros Hv. unfold split_single_spaces. by rewrite split_on_app. Qed.

Lemma resolve_keeps name (c c' : Client W) r : I (cl_world c) → resolve g exchange now sleep fuel name c = Some (r, c') → I (cl_world c').
Proof using Hg HI Hst.
  intros Hi. unfold resolve. destruct (negb (valid_name name)); [by intros [= _ <-]|].
  destruct (ask_tracker _ _ _ _ _ _ _) as [[[ok reply] c1]|] eqn:E; cbn [mbind option_bind]; [|done]. intros [= _ <-].
  eapply ask_careful; [..|exact E]; [done|done| |done]. apply careless_verb. change (lit "RESOLVE " ++ name) with (lit "RESOLVE" ++ SPACE :: name).
  rewrite verb_first by by apply (bool_decide_unpack _). done.
Qed.

Lemma fails_world status why (c c' : Client W) st : fails g status why c = Some (st, c') → cl_world c' = cl_world c.
Proof using. unfold fails. intros [= _ <-]. apply say_world. Qed.
Lemma record_stats_world op (c : Client W) : cl_world (record_stats g o env op c) = cl_world c.
Proof using. unfold record_stats. case_bool_decide; [done|]. destruct (write_stats _ _ _ _ _ _) as [[] disk]; [done|]. by rewrite say_world. Qed.

Lemma fetch_keeps word key dest (c c' : Client W) st : I (cl_world c) →
  fetch_command g o env exchange_line exchange_frame word key dest c = Some (st, c') → I (cl_world c').
Proof using HI.
  intros Hi. unfold fetch_command. destruct (download_file _ _ _ _ _ _ _) as [[[d disk] σ]|] eqn:E; cbn [mbind option_bind]; [|done].
  eapply (download_keeps (λ σ, I σ.2)) in E; [|intros k σ0; apply (kw_get HI)|exact Hi]. cbv zeta. destruct (negb _).
  - intros ->%fails_world. by rewrite record_stats_world.
  - intros [= _ <-]. by rewrite print_world, note_world, record_stats_world.
Qed.

Context (Hfile : ∀ size mtime, ue_before (ce_upload env) = Some (size, mtime) → (size < 2 ^ 63)%N ∧
  ∃ file, N.of_nat (length file) = size ∧ Forall (λ m, uj_content m.2 = file) (ue_sched (ce_upload env))).

Lemma put_keeps file name (c c' : Client W) st : I (cl_world c) →
  put_command g o env files exchange_line exchange_frame exchange now sleep fuel file name c = Some (st, c') → I (cl_world c').
Proof using Hg HI Hst Hput Hfile SHok.
  intros Hi. unfold put_command. destruct (valid_name name) eqn:Hn; cbn [negb]; [|by intros ->%fails_world].
  match goal with |- match ?x with _ => _ end = _ → _ => destruct x as [secret|]; [|by intros ->%fails_world] end.
  destruct (upload_file _ _ _ _ _) as [[u σ]|] eqn:E; cbn [mbind option_bind]; [|done]. cbv zeta.
  pose proof E as Hi1. eapply (upload_keeps (λ σ, I σ.2)) in Hi1; [|intros b σ0; apply (kw_put HI)|exact Hi].
  set (c0 := record_stats _ _ _ _ _). assert (E0 : cl_world c0 = σ.2) by (subst c0; by rewrite record_stats_world). clearbody c0.
  destruct (up_ok u) eqn:Hok; cbn [negb]; [|intros ->%fails_world; by rewrite E0].
  assert (Hw : whole (up_root_key u) σ.2 ∧ valid_key (up_root_key u) = true).
  { destruct (ue_before (ce_upload env)) as [[size mtime]|] eqn:Eb.
    2:{ exfalso. revert E. unfold upload_file. cbv zeta. rewrite Eb. repeat case_match; intros [= <- _]; done. }
    destruct (Hfile size mtime eq_refl) as (Hu & content & Hl & Hs). subst size.
    destruct (upload_stores _ _ _ _ _ _ _ _ _ _ (ring_put_stores _ _ _ _ _ _ Hput) Hu Eb Hs E Hok) as (H1 & H2 & H3). split.
    - exists content, (co_transfer o), u. refine (conj Hu (conj H1 (conj H2 (conj _ eq_refl)))). eapply uploaded_later; [|exact H3]. by intros b.
    - destruct H3 as [_ (tree & Et & _ & -> & _)]. by eapply build_root_key. }
  destruct Hw as [Hw Hk]. unfold register_upload. cbv zeta. set (c1 := if (0 <? _)%Z then _ else c0).
  assert (Hc1 : I (cl_world c1) ∧ whole (up_root_key u) (cl_world c1)).
  { subst c1. destruct (0 <? _)%Z; upd; rewrite E0; [|done]. split; [by apply (kw_sleep HI)|]. eapply whole_later; [|exact Hw]. intros b. apply (ks_sleep Hst). }
  clearbody c1. destruct Hc1 as [Hi2 Hw2]. destruct (_ <? _)%Z; [by intros ->%fails_world|].
  destruct (ask_tracker _ _ _ _ _ _ _) as [[[ok reply] c2]|] eqn:E2; cbn [mbind option_bind]; [|done].
  eapply ask_careful in E2; [|done|done| |exact Hi2].
  2:{ intros _. rewrite register_parsed by (done || apply sha1_valid_key). exact Hw2. }
  destruct (negb ok); [by intros ->%fails_world|]. case_bool_decide; [intros [= _ <-]; by rewrite print_world, note_world, say_world|].
  destruct (starts_with _ _); [by intros ->%fails_world|]. destruct (negb _); [by intros ->%fails_world|].
  intros [= _ <-]. by rewrite print_world, note_world.
Qed.

Lemma print_words_world n rest after (c : Client W) : cl_world (print_words n rest after c).2 = cl_world c.
Proof using.
  revert rest after c. induction n as [|n IH]; intros rest after c; [done|]. cbn [print_words]. destruct (take_word rest) as [[word r]|]; [|done].
  by rewrite IH.
Qed.

Lemma list_keeps pages after (c c' : Client W) st : I (cl_world c) → list_pages g exchange now sleep fuel pages after c = Some (st, c') → I (cl_world c').
Proof using Hg HI Hst.
  revert after c. induction pages as [|pages IH]; intros after c Hi; cbn [list_pages]; [done|].
  destruct (ask_tracker _ _ _ _ _ _ _) as [[[ok reply] c1]|] eqn:E; cbn [mbind option_bind]; [|done].
  eapply ask_careful in E; [|by case_bool_decide|by case_bool_decide| |exact Hi].
  2:{ case_bool_decide; apply careless_verb; [done|]. change (lit "LIST " ++ after) with (lit "LIST" ++ SPACE :: after).
      rewrite verb_first by by apply (bool_decide_unpack _). done. }
  destruct (negb ok); [by intros ->%fails_world|]. destruct (names_header reply) as [[[|n] rest]|]; [by intros [= _ <-]| |by intros ->%fails_world].
  pose proof (print_words_world (S n) rest after c1) as H1. destruct (print_words (S n) rest after c1) as [after' c2]. cbn [snd] in H1. apply IH. by rewrite H1.
Qed.

Lemma delete_keeps name token (c c' : Client W) st : I (cl_world c) →
  delete_command g o files exchange now sleep fuel name token c = Some (st, c') → I (cl_world c').
Proof using Hg HI Hst.
  intros Hi. unfold delete_command. match goal with |- match ?x with _ => _ end = _ → _ => destruct x as [secret|]; [|by intros ->%fails_world] end.
  destruct (_ || _); [by intros ->%fails_world|]. destruct (ask_tracker _ _ _ _ _ _ _) as [[[ok reply] c1]|] eqn:E; cbn [mbind option_bind]; [|done].
  eapply ask_careful in E; [|done|done| |exact Hi].
  2:{ apply careless_verb. change (lit "UNREGISTER " ++ ?x) with (lit "UNREGISTER" ++ SPACE :: x). rewrite verb_first by by apply (bool_decide_unpack _). done. }
  repeat (match goal with |- (if ?b then _ else _) = _ → _ => destruct b end; [by intros ->%fails_world|]).
  intros [= _ <-]. by rewrite print_world, note_world.
Qed.

Lemma run_command_keeps (c c' : Client W) st : I (cl_world c) →
  run_command g o env files exchange_line exchange_frame exchange now sleep fuel c = Some (st, c') → I (cl_world c').
Proof using Hg HI Hst Hput Hfile SHok.
  intros Hi. unfold run_command. cbv zeta. set (c0 := note_event _ _ _ _ _). assert (E0 : I (cl_world c0)) by (subst c0; by rewrite note_world).
  clearbody c0. clear Hi. destruct (_ || _); [by intros [= _ <-]|]. unfold dispatch. destruct (co_words o) as [|cmd [|a [|b [|]]]]; try (by intros [= _ <-]).
  - destruct (bool_decide _); [by apply list_keeps|by intros [= _ <-]].
  - destruct (bool_decide _).
    { unfold info_command. destruct (resolve _ _ _ _ _ _ _) as [[[err|key] c1]|] eqn:E; cbn [mbind option_bind]; [| |done].
      - intros ->%fails_world. by eapply resolve_keeps.
      - apply resolve_keeps in E; [|done]. destruct (resolve_manifest _ _ _ _) as [[r σ]|] eqn:Er; cbn [mbind option_bind]; [|done].
        eapply (resolve_keep _ _ (λ σ, I σ.2)) in Er; [|intros k σ0; apply (kw_get HI)|exact E]. destruct (negb _); [intros ->%fails_world|intros [= _ <-]]; done. }
    destruct (bool_decide _).
    { unfold resolve_command. destruct (resolve _ _ _ _ _ _ _) as [[[err|key] c1]|] eqn:E; cbn [mbind option_bind]; [| |done].
      - intros ->%fails_world. by eapply resolve_keeps.
      - intros [= _ <-]. rewrite print_world. by eapply resolve_keeps. }
    destruct (bool_decide _); [by apply delete_keeps|by intros [= _ <-]].
  - destruct (bool_decide _); [by apply put_keeps|]. destruct (bool_decide _).
    { unfold get_command. destruct (resolve _ _ _ _ _ _ _) as [[[err|key] c1]|] eqn:E; cbn [mbind option_bind]; [| |done].
      - intros ->%fails_world. by eapply resolve_keeps.
      - apply fetch_keeps. by eapply resolve_keeps. }
    destruct (bool_decide _).
    { unfold get_key_command. destruct (negb _); [by intros ->%fails_world|]. by apply fetch_keeps. }
    destruct (bool_decide _); [by apply delete_keeps|by intros [= _ <-]].
Qed.
End whole.

(** ** A listing *)

Definition word_ends (rest : bytes) : Prop := match rest with [] => True | c :: _ => is_space c = true end.

Lemma digit_not_space c : is_digit c = true → is_space c = false.
Proof. intros Hd. destruct (is_space c) eqn:E; [|done]. unfold is_digit, is_space in *. apply orb_true_iff in E as [E|E]; blia. Qed.

Lemma drop_spaces_word s : match s with [] => True | c :: _ => is_space c = false end → drop_spaces s = s.
Proof. destruct s; cbn; [done|]. by intros ->. Qed.

Lemma word_end_app w rest : Forall (λ c, is_space c = false) w → word_ends rest → word_end (w ++ rest) = length w.
Proof.
  intros Hw Hr. induction Hw as [|c w Hc Hw IH]; cbn; [|by rewrite Hc, IH]. destruct rest; [done|]. cbn in *. by rewrite Hr.
Qed.

Lemma take_word_app w rest : w ≠ [] → Forall (λ c, is_space c = false) w → word_ends rest → take_word (SPACE :: w ++ rest) = Some (w, rest).
Proof.
  intros Hne Hw Hr. unfold take_word. change (drop_spaces (SPACE :: w ++ rest)) with (drop_spaces (w ++ rest)).
  rewrite drop_spaces_word by (destruct Hw; done). rewrite word_end_app by done. destruct w as [|c w]; [done|]. cbn [length].
  f_equal. f_equal; [by rewrite (take_app_length (c :: w))|by rewrite (drop_app_length (c :: w))].
Qed.

Lemma atoi_digits_val s v : digits_val s = Some v → atoi_digits 0 s = Z.of_N v.
Proof.
  intros H. assert (Hgo : ∀ s a v, foldl digit_step (Some a) s = Some v → atoi_digits (Z.of_N a) s = Z.of_N v).
  { clear. induction s as [|c s IH]; intros a v; cbn; [by intros [= ->]|]. destruct (digit_val c) as [d|]; cbn.
    - intros H. rewrite <- (IH _ _ H). f_equal. lia.
    - intros H. exfalso. revert H. clear. induction s; [done|]. done. }
  by apply (Hgo s 0%N).
Qed.

Lemma digits_end_app w rest : Forall (λ c, is_digit c = true) w → word_ends rest → digits_end (w ++ rest) = length w.
Proof.
  intros Hw Hr. induction Hw as [|c w Hc Hw IH]; cbn; [|by rewrite Hc, IH]. destruct rest as [|c r]; [done|]. cbn in *.
  destruct (is_digit c) eqn:E; [|done]. apply digit_not_space in E. congruence.
Qed.

Lemma take_int_dec n rest : (Z.of_N n <= INT_MAX)%Z → word_ends rest → take_int (SPACE :: dec n ++ rest) = Some (Z.of_N n, rest).
Proof.
  intros Hn Hr. unfold take_int. change (drop_spaces (SPACE :: dec n ++ rest)) with (drop_spaces (dec n ++ rest)).
  pose proof (dec_digits n) as Hd. pose proof (dec_not_nil n) as Hne. pose proof (dec_val n ltac:(unfold INT_MAX in Hn; lia)) as Hv.
  rewrite drop_spaces_word. 2:{ destruct Hd as [|c w Hc Hd]; [done|]. cbn. by apply digit_not_space. }
  assert (Hsign : ∀ k, (k = 43 ∨ k = 45)%N → bool_decide (head (dec n ++ rest) = Some (chr k)) = false).
  { intros k Hk. apply bool_decide_eq_false. destruct Hd as [|c w Hc Hd]; [done|]. cbn. intros [= ->]. by destruct Hk as [-> | ->]. }
  rewrite !Hsign by auto. cbn [orb]. cbv zeta. rewrite digits_end_app by done.
  destruct (length (dec n)) eqn:El; [by apply length_zero_iff_nil in El|]. rewrite <- El, take_app_length, drop_app_length, (atoi_digits_val _ n Hv).
  destruct (Z.ltb_spec (Z.of_N n) (- INT_MAX - 1)); [lia|]. destruct (Z.ltb_spec INT_MAX (Z.of_N n)); [lia|]. done.
Qed.

Lemma name_word name : valid_name name = true → name ≠ [] ∧ Forall (λ c, is_space c = false) name.
Proof.
  intros Hn. split; [by intros ->|]. apply Forall_forall. intros c Hc. pose proof (valid_name_visible _ _ Hn Hc) as Hv.
  destruct (is_space c) eqn:E; [|done]. unfold is_visible, is_space in *. apply orb_true_iff in E as [E|E]; blia.
Qed.

Lemma list_words_end (items : list (bytes * NameEntry)) : word_ends (concat (list_word <$> items)).
Proof. by destruct items. Qed.

Lemma names_header_page (items : list (bytes * NameEntry)) : length items ≤ 512 →
  names_header (lit "NAMES" ++ lit " " ++ dec (N.of_nat (length items)) ++ concat (list_word <$> items)) =
  Some (length items, concat (list_word <$> items)).
Proof.
  intros Hl. unfold names_header. set (rest := concat _). pose proof (list_words_end items) as He. fold rest in He. clearbody rest.
  change (take_word (lit "NAMES" ++ lit " " ++ ?x)) with (Some (lit "NAMES", SPACE :: x)). cbn [mbind option_bind].
  rewrite take_int_dec; [|unfold INT_MAX; lia|done]. cbn [mbind option_bind]. rewrite bool_decide_true by done. cbn [negb orb].
  destruct (Z.ltb_spec (Z.of_N (N.of_nat (length items))) 0); [lia|]. do 2 f_equal. lia.
Qed.

Lemma print_words_items {W} (items : list (bytes * NameEntry)) after (c : Client W) :
  (∀ x, x ∈ items → valid_name x.1 = true) →
  print_words (length items) (concat (list_word <$> items)) after c =
  (from_option fst after (last items), c <| cl_out := cl_out c ++ items.*1 |>).
Proof.
  revert after c. induction items as [|x items IH]; intros after c Hi; cbn [length print_words fmap list_fmap concat].
  - cbn. rewrite app_nil_r. by destruct c.
  - destruct (name_word x.1) as [Hne Hw]; [apply Hi; by left|]. unfold list_word at 1. change (lit " " ++ x.1) with (SPACE :: x.1). cbn [app].
    rewrite take_word_app by (done || apply list_words_end). rewrite IH by (intros y Hy; apply Hi; by right). f_equal.
    + destruct items as [|y items]; [done|]. change (last (x :: y :: items)) with (last (y :: items)).
      destruct (last (y :: items)) eqn:El; [done|by apply last_None in El].
    + unfold print. upd. by rewrite <- app_assoc.
Qed.

(** The group answers every listing from one namespace. *)
Definition lists {SH : Sha1} {IN : Inet} {W} (g : Logger) exchange now sleep fuel (ns : list (bytes * NameEntry)) (R : Client W → Prop) : Prop :=
  ∀ after c, R c → after = [] ∨ valid_name after = true →
  ∃ c', ask_tracker g exchange now sleep fuel (if bool_decide (after = []) then lit "LIST" else lit "LIST " ++ after) c =
    Some (true, page ns (lit "NAMES") after (bool_decide (after = [])) list_word, c') ∧ R c' ∧ cl_out c' = cl_out c.

Lemma list_pages_from {SH : Sha1} {IN : Inet} {W} g exchange now sleep fuel ns (R : Client W → Prop) : names_ok ns →
  lists g exchange now sleep fuel ns R → (∀ c out, R c → R (c <| cl_out := out |>)) →
  ∀ pages pre rest after c, R c → ns = pre ++ rest → length rest < pages → (after = [] ∧ pre = []) ∨ (valid_name after = true ∧ om_after after ns = rest) →
  ∃ c', list_pages g exchange now sleep fuel pages after c = Some (0%Z, c') ∧ cl_out c' = cl_out c ++ rest.*1.
Proof.
  intros Hns Hl HR. induction pages as [|pages IH]; intros pre rest after c Hc E Hlen Ha; [lia|]. cbn [list_pages].
  destruct (Hl after c Hc (match Ha with or_introl p => or_introl (proj1 p) | or_intror p => or_intror (proj1 p) end)) as (c1 & -> & Hc1 & Ho1). cbn [mbind option_bind negb].
  assert (Hrest : (if bool_decide (after = []) then ns else om_after after ns) = rest).
  { destruct Ha as [[-> ->]|[Hv Ha]]; [done|]. rewrite bool_decide_false by (intros ->; done). done. }
  pose proof (page_items_nonempty ns (lit "NAMES") after (bool_decide (after = [])) list_word Hns ltac:(by left)) as Hne.
  pose proof (fill_prefix (λ x, length (list_word x)) (page_budget (lit "NAMES")) (if bool_decide (after = []) then ns else om_after after ns)) as [tail Ht].
  change (fill _ _ _) with (page_items ns (lit "NAMES") after (bool_decide (after = [])) list_word) in Ht. rewrite Hrest in Ht, Hne.
  destruct (page_fits ns (lit "NAMES") after (bool_decide (after = [])) list_word) as [_ Hfit];
    [by apply Nat.leb_le|intros [name e] Hx; apply list_word_length; by apply (proj2 Hns name e)|].
  rewrite page_eq. set (items := page_items _ _ _ _ _) in *. clearbody items. rewrite names_header_page by done.
  assert (Hin : ∀ x, x ∈ items → x ∈ ns) by (intros x Hx; rewrite E, Ht, !elem_of_app; auto).
  assert (Hval : ∀ x, x ∈ items → valid_name x.1 = true) by (intros [name e] Hx; by apply (proj2 Hns name e), Hin).
  destruct items as [|x0 items0] eqn:Eit.
  { cbn [length]. destruct rest; [|by destruct Hne]. exists c1. split; [done|]. by rewrite app_nil_r. }
  rewrite <- Eit in *. destruct (length items) as [|n] eqn:El; [by rewrite Eit in El|]. rewrite <- El, print_words_items by done.
  destruct (last items) as [x|] eqn:Ex; [|apply last_None in Ex; by rewrite Ex in Eit]. cbn [from_option].
  assert (Hx : x ∈ items) by (apply last_Some in Ex as [l ->]; apply elem_of_app; right; by left).
  destruct (IH (pre ++ items) tail x.1 (c1 <| cl_out := cl_out c1 ++ items.*1 |>)) as (c' & -> & Ho).
  - by apply HR.
  - by rewrite E, Ht, app_assoc.
  - rewrite Ht, length_app in Hlen. lia.
  - right. split; [by apply Hval|]. apply (names_after ns pre items tail x); [apply Hns|by rewrite E, Ht|done].
  - exists c'. split; [done|]. rewrite Ho. upd. by rewrite Ho1, Ht, fmap_app, app_assoc.
Qed.

(** A put that ends with status 0 has stored its file and bound its name. *)
Lemma put_registers {SH : Sha1} {SHok : Sha1Ok SH} {IN : Inet} {W : Type} exchange now sleep (names : W → list (bytes * NameEntry)) others stored
    exchange_line exchange_frame g o env files fuel file path name mtime c c1 :
  tracker_serves exchange now sleep names others stored → spares others name → logger_ok g →
  seeds_store g exchange_line exchange_frame stored (co_seeds o) (co_w o) →
  (N.of_nat (length file) < 2 ^ 63)%N → ue_before (ce_upload env) = Some (N.of_nat (length file), mtime) →
  Forall (λ m, uj_content m.2 = file) (ue_sched (ce_upload env)) →
  put_command g o env files exchange_line exchange_frame exchange now sleep fuel path name c = Some (0%Z, c1) →
  (1 <= uo_chunk (co_transfer o) <= MAX_CHUNK)%N ∧ 2 ≤ uo_fanout (co_transfer o) ≤ MANIFEST_FANOUT ∧ ∃ u e,
    uploaded (stored_in stored) file (uo_chunk (co_transfer o)) (co_transfer o) u (ring_state c1) ∧
    valid_name name = true ∧ om_find name (names (cl_world c1)) = Some e ∧ ne_key e = up_root_key u ∧ valid_key (ne_key e) = true.
Proof.
  intros Ht Hsp Hg Hput Hu Hb Hsched Hp.
  unfold put_command, fails in Hp. destruct (valid_name name) eqn:Hn; cbn [negb] in Hp; [|done].
  match type of Hp with match ?x with _ => _ end = _ => destruct x as [secret|]; [|done] end.
  destruct (upload_file _ _ _ _ _) as [[u σ]|] eqn:Eu; cbn [mbind option_bind] in Hp; [|done]. cbv zeta in Hp.
  set (c0 := record_stats _ _ _ _ _) in Hp. assert (Ew : cl_world c0 = σ.2).
  { subst c0. unfold record_stats. case_bool_decide; [done|]. destruct (write_stats _ _ _ _ _ _) as [[] disk]; [done|]. by rewrite say_world. }
  clearbody c0. destruct (up_ok u) eqn:Hok; cbn [negb] in Hp; [|done].
  destruct (upload_stores _ _ _ _ _ _ _ _ _ _ (ring_put_stores _ _ _ _ _ _ Hput) Hu Hb Hsched Eu Hok) as (Hc & Hf & Hst).
  pose proof Hst as [_ (tree & Et & _ & Ek & _)]. assert (Hk : valid_key (up_root_key u) = true) by (rewrite Ek; by eapply build_root_key).
  eapply register_upload_binds in Hp as (Hst1 & token & owner & _ & (e & He & Eek & Hvk & _) & _); [|done..]. rewrite Ew in Hst1.
  split; [done|]. split; [done|]. exists u, e. split_and!; [|done..]. eapply uploaded_later; [|exact Hst]. intros b Hb'. by apply Hst1.
Qed.

(** ** Theorems *)

(** C16. What one client puts, another gets under its name - on a ring that keeps what it
    acknowledges and, from one entry point at least, finds whatever it keeps; with a
    tracker group that answers as one namespace from which nobody deletes the name;
    for a file that did not change while it was read. If the put ended with status 0,
    then whatever else others store and register in the meantime, a [get] of the name
    whose system calls are granted - from any entry points, with redirects, retries and
    dead replicas on the way, on any schedule that gives each of its workers enough
    turns - returns: with status 0 and the file's bytes at the destination, or, when
    the tracker gave no answer, with status 1 after the whole of its wait and with
    every file left alone. *)
Theorem put_then_get {SH : Sha1} {SHok : Sha1Ok SH} {IN : Inet} {W : Type} exchange now sleep (names : W → list (bytes * NameEntry)) others stored
    exchange_line exchange_frame g1 o1 env1 files fuel1 g2 o2 env2 fuel2 clock file path name dest mtime c c1 c2 :
  tracker_serves exchange now sleep names others stored → spares others name → logger_ok g1 → logger_ok g2 →
  steady (tracker_io g2 exchange now sleep) clock →
  seeds_store g1 exchange_line exchange_frame stored (co_seeds o1) (co_w o1) →
  seeds_find g2 exchange_line exchange_frame stored (co_seeds o2) →
  (N.of_nat (length file) < 2 ^ 63)%N → ue_before (ce_upload env1) = Some (N.of_nat (length file), mtime) →
  Forall (λ m, uj_content m.2 = file) (ue_sched (ce_upload env1)) →
  put_command g1 o1 env1 files exchange_line exchange_frame exchange now sleep fuel1 path name c = Some (0%Z, c1) →
  meanwhile names stored others (cl_world c1) (cl_world c2) →
  granted dest (uo_workers (co_transfer o2)) (ce_download env2) (cl_disk c2) → co_stats o2 ≠ dest →
  turns_enough (chunk_count (N.of_nat (length file)) (uo_chunk (co_transfer o1))) (uo_workers (co_transfer o2))
    (de_started (ce_download env2)) (de_sched (ce_download env2)) →
  (0 < gc_pause_ms (cl_group c2))%Z → (gc_wait_ms (cl_group c2) < Z.of_nat fuel2)%Z → 0 < fuel2 →
  ∃ st c3, get_command g2 o2 env2 exchange_line exchange_frame exchange now sleep fuel2 name dest c2 = Some (st, c3) ∧
    (st = 0%Z ∧ om_find dest (cl_disk c3) = Some file ∨
     (∃ reply c', ask_tracker g2 exchange now sleep fuel2 (lit "RESOLVE " ++ name) c2 = Some (false, reply, c')) ∧ st = 1%Z ∧
       cl_disk c3 = cl_disk c2 ∧ (clock (cl_world c2) + gc_wait_ms (cl_group c2) <= clock (cl_world c3))%Z).
Proof.
  intros Ht Hsp Hg1 Hg2 Hclock Hput Hget Hu Hb Hsched Hp Hmw Hgr Hstats Hturns Hpause Hwait Hfuel.
  eapply put_registers in Hp as (Hc & Hf & u & e & Hst & Hn & He & Hk & Hvk); [|done..].
  destruct Hmw as [Hev Hst2]. apply (evolves_keeps others _ _ name e Hsp Hev) in He.
  destruct (resolve_returns exchange now sleep g2 clock Hclock fuel2 name c2 Hn Hpause Hwait Hfuel) as (r & c2' & Er & Hlate).
  pose proof Er as Er'. eapply (resolve_bound _ _ _ _ _ _ Ht) in Er as (Ec & [_ Hst3] & Hr); [|done..].
  assert (Ed : cl_disk c2' = cl_disk c2) by (rewrite Ec; done). unfold get_command. rewrite Er'. cbn [mbind option_bind].
  destruct r as [err|key].
  { eexists _, _. split; [reflexivity|]. right. destruct Hr as [?|(c4 & reply & Hr)]; [done|]. destruct (Hlate reply c4 Hr) as [Hw _].
    split; [by exists reply, c4|]. split; [done|]. unfold say. rewrite note_disk, note_world. by split. }
  assert (key = ne_key e) as ->.
  { destruct Hr as [[= ->]|(c4 & reply & Hr)]; [done|]. by destruct (Hlate reply c4 Hr) as [_ [= <-]]. }
  unfold fetch_command. rewrite Hk, Ed. eapply (uploaded_later _ _ _ _ _ _ (ring_state c2')) in Hst; [|intros b Hb'; apply Hst3, Hst2, Hb'].
  pose proof (ring_get_finds _ _ _ _ _ Hget) as Hfinds.
  destruct (uploaded_returns _ _ _ _ _ _ _ _ _ _ Hfinds Hu Hc Hf Hst Hgr Hturns) as [[[d disk] σ'] Ed2]. unfold get. rewrite Ed2. cbn [mbind option_bind].
  destruct (download_uploaded _ _ _ _ _ _ _ _ _ _ _ _ _ Hfinds Hu Hc Hf Hst Hgr Ed2) as [Hdn Hfile].
  cbv zeta. rewrite Hdn. cbn [negb]. eexists _, _. split; [reflexivity|]. left. split; [done|].
  unfold print. cbn [cl_disk]. upd. rewrite note_disk, record_stats_file by done. upd. exact Hfile.
Qed.


(** C18. [ls] prints every name. Against a tracker group that answers each request from
    one reachable namespace, the paging loop ends - after at most one page per name,
    and one - with status 0, having printed every name once, in order, none lost or
    repeated at a page boundary. *)
Theorem ls_prints_every_name {SH : Sha1} {IN : Inet} {W : Type} g exchange now sleep fuel texts (R : Client W → Prop) pages c :
  lists g exchange now sleep fuel (apply_all [] texts) R → (∀ c out, R c → R (c <| cl_out := out |>)) → R c →
  length (apply_all [] texts) < pages →
  ∃ c', list_pages g exchange now sleep fuel pages [] c = Some (0%Z, c') ∧ cl_out c' = cl_out c ++ (apply_all [] texts).*1.
Proof.
  intros Hl HR Hc Hp. apply (list_pages_from g exchange now sleep fuel _ R (apply_all_ok texts [] names_ok_nil) Hl HR pages [] _ []); [done|done|done|by left].
Qed.

(** ** Witnesses *)
#[local] Existing Instances demo_sha1 demo_sha1_ok quad_inet.

(** A tracker that is its namespace, a ring of one node that is its bodies, and the time. *)
Abbreviation DemoWorld := (list (bytes * NameEntry) * (list bytes * Z))%type (only parsing).
Definition demo_tracker (to : Address) (line : bytes) (w : DemoWorld) : (Delivery * bytes) * DemoWorld :=
  let '(reply, ns) := namespace_answer w.1 (unprefixed line) in ((Ok, reply), (ns, w.2)).
Definition demo_clock (w : DemoWorld) : Z := w.2.2.
Definition demo_now (w : DemoWorld) : Z * DemoWorld := (demo_clock w, w).
Definition demo_sleep (d : Z) (w : DemoWorld) : DemoWorld := (w.1, (w.2.1, (demo_clock w + d)%Z)).
Definition demo_kept (b : bytes) (w : DemoWorld) : Prop := demo_stored b w.2.1.
Definition demo_node_a : Peer := mkPeer 1000 (lit "10.0.0.1") 5000.
Definition demo_route : Transport (nat * DemoWorld) := λ to line σ, ((Ok, lit "OWNER " ++ peer_words demo_node_a), σ).
Definition demo_frames : FrameTransport (nat * DemoWorld) := λ to line body σ,
  if starts_with (lit "PUT ") line then
    let '(p, bodies) := demo_put_fn body σ.2.2.1 in ((Ok, (if po_ok p then lit "OK 3" else lit "ERR clash", [])), (σ.1, (σ.2.1, (bodies, σ.2.2.2))))
  else match demo_found (drop 4 line) σ.2.2.1 with
       | Some b => ((Ok, (lit "CHUNK " ++ dec (N.of_nat (length b)), b)), σ)
       | None => ((Ok, (lit "MISSING", [])), σ)
       end.

Definition no_rest (t : bytes) : Prop := False.
Lemma demo_tracker_serves : tracker_serves demo_tracker demo_now demo_sleep fst no_rest demo_kept.
Proof.
  split.
  - intros to line w reply w'. unfold demo_tracker. destruct (namespace_answer w.1 (unprefixed line)) as [r ns] eqn:E. intros [= <- <-] _.
    split; [|done]. exists w.1. rewrite E. cbn. split_and!; reflexivity.
  - intros to line w d reply w'. unfold demo_tracker, namespace_answer, meanwhile, with_request.
    destruct (write_command (unprefixed line)) as [t|] eqn:Ew; [destruct (apply_command w.1 t) as [r ns] eqn:E|]; intros [= <- <- <-] _; (split; [|done]).
    + exists [t]. split; [constructor; [by right|constructor]|]. unfold apply_all. cbn. by rewrite E.
    + cbn. reflexivity.
  - intros w. cbn. reflexivity.
  - intros d w. split; cbn; [reflexivity|done].
Qed.

Definition demo_bare : Logger := mkLogger (lit "client") Info 2 [].
Lemma demo_steady : steady (tracker_io demo_bare demo_tracker demo_now demo_sleep) demo_clock.
Proof.
  split.
  - intros w. split; [done|cbn; lia].
  - intros to line w. cbn. unfold demo_tracker. by destruct (namespace_answer _ _).
  - intros d w Hd. cbn. lia.
Qed.
Definition demo_client_options : ClientOptions :=
  default_options <| co_seeds := [demo_node_a] |> <| co_transfer := demo_opt |> <| co_tracker := [mkAddress (lit "10.0.0.9") 7000] |>
    <| co_have_tracker := true |> <| co_wait := 2%Z |> <| co_words := [lit "put"; lit "notes"; lit "notes.txt"] |>.

Lemma demo_lookup k retries σ : lookup_with_recovery (socket_transport demo_bare demo_route) demo_node_a k retries σ =
  (mkLookupResult LNone [] demo_node_a [demo_node_a] 1, σ).
Proof.
  unfold lookup_with_recovery, lookup, MAX_REQUESTS. cbn [lookup_loop]. unfold socket_transport at 1, demo_route at 1. cbv beta iota.
  rewrite bool_decide_true by done. cbn [negb].
  replace (parse_reply (lit "OWNER " ++ peer_words demo_node_a)) with (inr (true, demo_node_a) : bytes + bool * Peer) by (vm_compute; reflexivity).
  rewrite (bool_decide_false (lit "OWNER " ++ peer_words demo_node_a = "ERR")) by done.
  replace (starts_with "ERR " (lit "OWNER " ++ peer_words demo_node_a)) with false by (vm_compute; reflexivity). cbn [orb].
  unfold in_range_oc. rewrite Z.ltb_irrefl. destruct (Z.ltb_spec (peer_id demo_node_a) k); cbn [orb negb].
  - by destruct retries.
  - destruct (Z.leb_spec k (peer_id demo_node_a)); [|lia]. by destruct retries.
Qed.

(** No node but the one is named: nothing to fall back on. *)
Lemma demo_fallbacks σ : fallbacks (socket_transport demo_bare demo_route) (mkLookupResult LNone [] demo_node_a [demo_node_a] 1) false σ = ([], σ).
Proof. reflexivity. Qed.

Lemma demo_seeds_store w : seeds_store demo_bare demo_route demo_frames demo_kept [demo_node_a] w.
Proof.
  intros seed ->%list_elem_of_singleton b σ. unfold put_chunk. cbv zeta. rewrite demo_lookup.
  change (result_ok (mkLookupResult LNone [] demo_node_a [demo_node_a] 1)) with true. cbn [negb found].
  unfold try_put, client_frames. change (with_request_id demo_bare [] ?l) with l. unfold demo_frames. rewrite starts_with_app.
  destruct (demo_put_stores b σ.2.2.1) as [H1 H2]. destruct (demo_put_fn b σ.2.2.1) as [p bodies] eqn:Ep. cbn [fst snd] in *.
  assert (Ek : po_key p = chunk_key b) by (unfold demo_put_fn in Ep; by destruct (demo_found _ _); injection Ep as <- _).
  destruct (po_ok p) eqn:Eok; rewrite (bool_decide_true (Ok = Ok)) by done; cbn [fst andb].
  - change (starts_with (lit "OK ") (lit "OK 3")) with true. cbn [fst snd]. upd. split; [by intros _; split; [|apply H1]|done].
  - change (starts_with (lit "OK ") (lit "ERR clash")) with false. rewrite (bool_decide_false (lit "ERR clash" = lit "ERR busy")) by done. cbn [negb].
    cbn [fst snd]. upd. by split.
Qed.

Definition no_found : GetOutcome := mkGetOutcome false [] [] no_peer [].

Lemma demo_get key σ : ∃ g, get_chunk (socket_transport demo_bare demo_route) (client_frames demo_bare demo_frames) demo_node_a key LOOKUP_RETRIES σ = (g, σ) ∧
  ∀ b, key = chunk_key b → demo_found key σ.2.2.1 = Some b → go_ok g = true ∧ go_body g = b.
Proof.
  unfold get_chunk. cbv zeta. destruct (valid_key key) eqn:Ev; cbn [negb].
  2:{ eexists. split; [reflexivity|]. intros b -> _. by rewrite sha1_is_key in Ev. }
  destruct (id_from_key key) as [k|] eqn:Ek.
  2:{ eexists. split; [reflexivity|]. intros b -> _. exfalso. destruct (id_from_key_sha1 b) as (? & E & _). unfold chunk_key in Ek. congruence. }
  rewrite demo_lookup. change (result_ok (mkLookupResult LNone [] demo_node_a [demo_node_a] 1)) with true. cbn [negb found].
  unfold try_get at 1, client_frames at 1. change (with_request_id demo_bare [] ?l) with l. unfold demo_frames at 1.
  change (starts_with (lit "PUT ") (lit "GET " ++ key)) with false. change (drop 4 (lit "GET " ++ key)) with key. cbv iota.
  destruct (demo_found key σ.2.2.1) as [b|] eqn:Ef.
  - change (bool_decide (Ok = Ok)) with true. cbn [negb fst snd]. rewrite starts_with_app. cbn [negb].
    case_bool_decide as Eb; cbn [negb]; cbv iota.
    + eexists. split; [reflexivity|]. intros b' -> [= ->]. by upd.
    + change (unreachable Ok) with false. rewrite demo_fallbacks. eexists. split; [reflexivity|]. intros b' -> [= ->]. done.
  - change (bool_decide (Ok = Ok)) with true. cbn [negb fst snd]. change (starts_with (lit "CHUNK ") (lit "MISSING")) with false. cbn [negb]. cbv iota.
    change (unreachable Ok) with false. rewrite demo_fallbacks. eexists. split; [reflexivity|]. done.
Qed.

Lemma demo_seeds_find : seeds_find demo_bare demo_route demo_frames demo_kept [demo_node_a].
Proof.
  split.
  - intros seed key σ b ->%list_elem_of_singleton Hb. by destruct (demo_get key σ) as (g & -> & _).
  - intros seed b σ ->%list_elem_of_singleton Hb. destruct (demo_get (chunk_key b) σ) as (g & -> & Hg). left. by apply Hg.
  - exists demo_node_a. split; [by left|]. intros b σ Hb. destruct (demo_get (chunk_key b) σ) as (g & -> & Hg). by destruct (Hg b eq_refl Hb).
Qed.

Definition demo_client_env : ClientEnv := mkClientEnv demo_upload_env demo_download_env [] true None [1; 2; 3; 4]%Z 0 [].
Definition demo_client : Client DemoWorld := mkClient (client_group demo_client_options) 0 ([], ([], 0%Z)) [] [] [] [].
Definition demo_put_done : Z * Client DemoWorld := default (2%Z, demo_client)
  (put_command demo_bare demo_client_options demo_client_env (λ _, None) demo_route demo_frames demo_tracker demo_now demo_sleep 3
     (lit "notes") (lit "notes.txt") demo_client).
Abbreviation demo_get_of dest := (get_command demo_bare demo_client_options demo_client_env demo_route demo_frames demo_tracker demo_now demo_sleep 3
  (lit "notes.txt") dest demo_put_done.2) (only parsing).

Lemma put_then_get_witness : ∃ st c3, demo_get_of (lit "copy") = Some (st, c3) ∧
  (st = 0%Z ∧ om_find (lit "copy") (cl_disk c3) = Some demo_text ∨
   (∃ reply c', ask_tracker demo_bare demo_tracker demo_now demo_sleep 3 (lit "RESOLVE " ++ lit "notes.txt") demo_put_done.2 = Some (false, reply, c')) ∧
     st = 1%Z ∧ cl_disk c3 = cl_disk demo_put_done.2 ∧
     (demo_clock (cl_world demo_put_done.2) + gc_wait_ms (cl_group demo_put_done.2) <= demo_clock (cl_world c3))%Z).
Proof.
  apply (put_then_get demo_tracker demo_now demo_sleep fst no_rest demo_kept demo_route demo_frames
    demo_bare demo_client_options demo_client_env (λ _, None) 3 demo_bare demo_client_options demo_client_env 3 demo_clock demo_text (lit "notes") (lit "notes.txt")
    (lit "copy") 7 demo_client demo_put_done.2 demo_put_done.2).
  - apply demo_tracker_serves.
  - by intros t owner ?.
  - by left.
  - by left.
  - apply demo_steady.
  - apply demo_seeds_store.
  - apply demo_seeds_find.
  - apply N.ltb_lt. vm_compute. reflexivity.
  - reflexivity.
  - by apply demo_turns_all.
  - vm_compute. reflexivity.
  - split; [reflexivity|done].
  - split; [split; apply Nat.leb_le; vm_compute; reflexivity|reflexivity|vm_compute; reflexivity|vm_compute; reflexivity|reflexivity|].
    apply demo_turns_all. intros t. split; [reflexivity|apply N.le_refl].
  - done.
  - intros t Ht. apply Nat.leb_le. destruct t as [|[|t]]; [vm_compute; reflexivity..|]. exfalso. apply Nat.ltb_lt in Ht. vm_compute in Ht. discriminate Ht.
  - vm_compute. reflexivity.
  - vm_compute. reflexivity.
  - lia.
Defined.

(** And it was found. *)
Lemma demo_get_found : fst <$> demo_get_of (lit "copy") = Some 0%Z.
Proof. vm_compute. reflexivity. Qed.

(** *** A tracker whose every name is whole *)
Definition demo_all_whole (w : DemoWorld) : Prop := ∀ name e, om_find name w.1 = Some e → whole demo_kept (ne_key e) w.

Lemma parsed_register line : r_kind (parse_names_request line) = KRegister →
  let r := parse_names_request line in command_ok (Register (r_name r) (r_key r) (r_owner r)).
Proof.
  cbv zeta. unfold parse_names_request. case_bool_decide; [done|]. cbv zeta. set (w := split_single_spaces line). clearbody w.
  destruct (_ && _); [done|]. repeat case_bool_decide; try (unfold parse_page, parse_unregister, parse_resolve; repeat case_match; done).
  unfold parse_register. destruct w as [|w0 [|name [|key [|owner [|w4 w]]]]]; try done;
    (destruct (valid_name name) eqn:Hn; [|done]); (destruct (valid_key key) eqn:Hk; [|done]); cbn [negb drop forallb].
  - intros _. upd. by split_and!; auto.
  - destruct (valid_key owner) eqn:Ho; [|done]. intros _. upd. by split_and!; auto.
Qed.
Lemma parsed_unregister line : r_kind (parse_names_request line) = KUnregister → valid_name (r_name (parse_names_request line)) = true.
Proof.
  unfold parse_names_request. case_bool_decide; [done|]. cbv zeta. set (w := split_single_spaces line). clearbody w.
  destruct (_ && _); [done|]. repeat case_bool_decide; try (unfold parse_page, parse_register, parse_resolve; repeat case_match; done).
  unfold parse_unregister. destruct w as [|w0 [|name [|secret [|w3 w]]]]; try done.
  destruct (valid_name name) eqn:Hn; [|done]. by destruct (valid_secret secret).
Qed.

Lemma demo_names_added line (w : DemoWorld) to name e : om_find name (demo_tracker to line w).2.1 = Some e →
  om_find name w.1 = Some e ∨ r_kind (parse_names_request (unprefixed line)) = KRegister ∧ ne_key e = r_key (parse_names_request (unprefixed line)).
Proof.
  unfold demo_tracker, namespace_answer, write_command. set (r := parse_names_request (unprefixed line)).
  destruct (r_kind r) eqn:Ek; cbn [fst snd]; try (by left).
  - rewrite apply_register by by apply parsed_register. destruct (om_find (r_name r) w.1) as [e0|]; cbn [fst snd]; [by left|].
    rewrite om_find_set. case_decide; [intros [= <-]; by right|by left].
  - rewrite apply_unregister by (split; [by apply parsed_unregister|apply sha1_valid_key]).
    destruct (om_find (r_name r) w.1) as [e0|]; cbn [fst snd]; [|by left]. case_decide; cbn [fst snd]; [|by left].
    rewrite om_find_erase. case_decide; [done|by left].
Qed.

(** Neither a put nor a get touches the names, and neither loses a body. *)
Lemma demo_put_names b σ : (put demo_bare demo_client_options demo_route demo_frames b σ).2.2.1 = σ.2.1.
Proof.
  unfold put, ring_put. eapply (over_seeds_rule _ _ _ _ _ _ _ (λ σ', σ'.2.1 = σ.2.1) (λ _ _, True)); try done; [|by left].
  intros seed σ' ->%list_elem_of_singleton Hs. split; [|done]. rewrite <- Hs. unfold put_chunk. cbv zeta. rewrite demo_lookup.
  change (result_ok (mkLookupResult LNone [] demo_node_a [demo_node_a] 1)) with true. cbn [negb found].
  unfold try_put, client_frames. change (with_request_id demo_bare [] ?l) with l. unfold demo_frames. rewrite starts_with_app.
  destruct (demo_put_fn b σ'.2.2.1) as [p bodies]. by destruct (po_ok p).
Qed.
Lemma demo_get_same key σ : (get demo_bare demo_client_options demo_route demo_frames key σ).2.2 = σ.2.
Proof.
  unfold get, ring_get. eapply (over_seeds_rule _ _ _ _ _ _ _ (λ σ', σ'.2 = σ.2) (λ _ _, True)); try done; [|by left].
  intros seed σ' ->%list_elem_of_singleton Hs. split; [|done]. by destruct (demo_get key σ') as (g & -> & _).
Qed.

Lemma demo_keeps_whole : keeps_whole demo_bare demo_client_options demo_route demo_frames demo_tracker demo_now demo_sleep demo_kept demo_all_whole.
Proof.
  assert (Hmono : ∀ w w' : DemoWorld, w'.1 = w.1 → (∀ b, demo_kept b w → demo_kept b w') → demo_all_whole w → demo_all_whole w').
  { intros w w' E Hb Hw name e He. rewrite E in He. eapply whole_later; [exact Hb|by eapply Hw]. }
  split.
  - intros to line w Hw Hc name e He. eapply whole_later; [|destruct (demo_names_added line w to name e He) as [He'|[Hk ->]]; [by eapply Hw|by apply Hc]].
    intros b. unfold demo_tracker. by destruct (namespace_answer w.1 _).
  - done.
  - intros d w. by apply Hmono.
  - intros b σ. apply Hmono; [apply demo_put_names|]. intros b' Hb'.
    destruct (ring_put_stores demo_bare demo_route demo_frames demo_kept _ _ (demo_seeds_store (co_w demo_client_options)) b σ) as [_ H]. exact (H b' Hb').
  - intros key σ. by rewrite demo_get_same.
Qed.

Definition demo_ran : Z * Client DemoWorld := default (2%Z, demo_client)
  (run_command demo_bare demo_client_options demo_client_env (λ _, None)
     demo_route demo_frames demo_tracker demo_now demo_sleep 3 demo_client).


Lemma ask_only_replica {St} (io : GroupIO St) request fuel a wait pause σ line σ' :
  gi_exchange io a request (gi_now io σ).2 = ((Ok, line), σ') → is_answer line →
  ask_group io request (S fuel) (mkGroupClient [a] wait pause 0) σ = Some (true, line, mkGroupClient [a] wait pause 0, σ').
Proof.
  intros E [H1 H2]. unfold ask_group. destruct (gi_now io σ) as [t σ1]. cbn [snd] in E. cbn [ask_rounds gc_replicas length seq ask_round gc_preferred].
  change ((0 + 0) mod 1) with 0. cbn [follow]. change ([a] !!! 0) with a. rewrite E, bool_decide_true by done. cbn [negb]. rewrite H1, H2.
  unfold prefer. cbn [length seq foldl]. by destruct (bool_decide _).
Qed.

(** A listing of the names put. *)
Definition demo_listed : list bytes :=
  [register_command (lit "a.txt") demo_key []; register_command (lit "notes.txt") demo_key []; lit "NOOP"].
Definition demo_at (c : Client DemoWorld) : Prop := (cl_world c).1 = apply_all [] demo_listed ∧ cl_group c = client_group demo_client_options.

Lemma demo_lists : lists demo_bare demo_tracker demo_now demo_sleep 3 (apply_all [] demo_listed) demo_at.
Proof.
  intros after c [Hw Hg] Ha. set (request := if bool_decide (after = []) then lit "LIST" else lit "LIST " ++ after).
  assert (Hans : demo_tracker (mkAddress (lit "10.0.0.9") 7000) (with_request_id demo_bare [] request) (cl_world c) =
    ((Ok, page (apply_all [] demo_listed) (lit "NAMES") after (bool_decide (after = [])) list_word), cl_world c)).
  { unfold demo_tracker. rewrite unprefixed_request; [|by left|subst request; by destruct (bool_decide (after = []))|subst request; by destruct (bool_decide (after = []))].
    unfold namespace_answer, write_command. subst request. rewrite list_request by done. rewrite Hw.
    case_bool_decide; subst; upd; rewrite <- Hw; by destruct (cl_world c). }
  eexists. split; [|split; [split; [exact Hw|exact Hg]|]].
  - pose proof (ask_only_replica (tracker_io demo_bare demo_tracker demo_now demo_sleep) request 2 _ 2 100 (cl_world c) _ _ Hans ltac:(by split)) as H.
    unfold ask_tracker. rewrite Hg.
    rewrite (H : ask_group _ request 3 (client_group demo_client_options) (cl_world c) = _).
    cbn [mbind option_bind]. do 2 f_equal. destruct c. cbn in *. by rewrite Hg.
  - done.
Qed.

Definition demo_named : Client DemoWorld := demo_client <| cl_world := (apply_all [] demo_listed, ([], 0%Z)) |>.

Lemma ls_prints_every_name_witness : (apply_all [] demo_listed).*1 = [lit "a.txt"; lit "notes.txt"] ∧ ∃ c',
  list_pages demo_bare demo_tracker demo_now demo_sleep 3 4 [] demo_named = Some (0%Z, c') ∧ cl_out c' = cl_out demo_named ++ (apply_all [] demo_listed).*1.
Proof.
  split; [vm_compute; reflexivity|].
  apply (ls_prints_every_name demo_bare demo_tracker demo_now demo_sleep 3 demo_listed demo_at 4 demo_named).
  - apply demo_lists.
  - intros c out H. exact H.
  - split; vm_compute; reflexivity.
  - apply Nat.ltb_lt. vm_compute. reflexivity.
Defined.
