(* ===== verification/Raft.v ===== *)
(** * Raft: the replicated-log core (raft.h, raft.cpp)

    The class [Raft] as a record and one function per method. A replica's
    identifier is a [nat] ([NOBODY] is [None]), an index a [nat] (an index never
    exceeds a log's length or an 18-digit number read from the wire), a term or
    call number an [N] that wraps at 2^64, a time in milliseconds a [Z]. The
    random generator is the stream of its future outputs; entries handed to the
    apply function are collected in [applied_out]. *)
From S2P Require Import Prelude Text.

Abbreviation Term := N (only parsing).
Abbreviation Index := nat (only parsing).
Abbreviation Millis := Z (only parsing).

(** ** Messages *)

Record Entry := mkEntry { e_term : Term; e_command : bytes }.
#[export] Instance Entry_eq_dec : EqDecision Entry.
Proof. solve_decision. Defined.
#[export] Instance Entry_inhabited : Inhabited Entry := populate (mkEntry 0 []).

Record VoteRequest := mkVoteRequest {
  vq_term : Term; vq_candidate : nat; vq_last_index : Index; vq_last_term : Term }.
Record VoteReply := mkVoteReply { vr_term : Term; vr_granted : bool }.

Record AppendRequest := mkAppendRequest {
  aq_term : Term; aq_leader : nat; aq_prev_index : Index; aq_prev_term : Term;
  aq_entries : list Entry; aq_commit : Index; aq_seq : N }.
Record AppendReply := mkAppendReply { ar_term : Term; ar_success : bool; ar_index : Index }.

#[export] Instance VoteRequest_eq_dec : EqDecision VoteRequest.
Proof. solve_decision. Defined.
#[export] Instance VoteReply_eq_dec : EqDecision VoteReply.
Proof. solve_decision. Defined.
#[export] Instance AppendRequest_eq_dec : EqDecision AppendRequest.
Proof. solve_decision. Defined.
#[export] Instance AppendReply_eq_dec : EqDecision AppendReply.
Proof. solve_decision. Defined.

(** One call the core wants made. *)
Inductive Outgoing := OutVote (to : nat) (vote : VoteRequest) | OutAppend (to : nat) (append : AppendRequest).
#[export] Instance Outgoing_eq_dec : EqDecision Outgoing.
Proof. solve_decision. Defined.

(** ** Durable state and where it goes *)

Record Durable := mkDurable { d_term : Term; d_voted_for : option nat; d_log : list Entry }.

(** [save] is told the whole state and the first index that changed; [false]
    means that what it was told may not be durable. *)
Class Storage (S : Type) := save : S → Term → option nat → Index → list Entry → bool * S.

(** raft.h, [MemoryStorage]. *)
Record MemoryStorage := mkMemoryStorage { durable : Durable; saves : nat; mem_fail : bool }.
#[export] Instance MemoryStorage_save : Storage MemoryStorage :=
  λ st term voted_for from log,
    if mem_fail st then (false, mkMemoryStorage (durable st) (saves st + 1) true)
    else
      let kept := take (if from - 1 <? length (d_log (durable st)) then from - 1
                        else length (d_log (durable st))) (d_log (durable st)) in
      (true, mkMemoryStorage (mkDurable term voted_for (kept ++ drop (from - 1) log)) (saves st + 1) false).

(** ** The replica *)

Record RaftConfig := mkRaftConfig {
  cfg_id : nat; cfg_size : nat; cfg_election : Millis; cfg_max_append_bytes : N }.

Inductive Role := Follower | Candidate | Leader.
#[export] Instance Role_eq_dec : EqDecision Role.
Proof. solve_decision. Defined.

Definition role_name (r : Role) : bytes :=
  match r with Follower => lit "follower" | Candidate => lit "candidate" | Leader => lit "leader" end.

Record PendingRead := mkPendingRead { pr_id : N; pr_seq : N; pr_index : Index; pr_acks : list bool }.
Record ReadResult := mkReadResult { rr_id : N; rr_ok : bool }.

Record Raft (S : Type) := mkRaft {
  cfg : RaftConfig;
  storage : S;
  applied_out : list (Index * Entry);
  term : Term;
  voted_for : option nat;
  log : list Entry;
  dirty : bool;
  dirty_from : Index;
  role : Role;
  leader : option nat;
  commit : Index;
  applied : Index;
  election_deadline : Millis;
  rng : nat → Z;
  stopped : bool;
  votes : list bool;
  next : list Index;
  matched : list Index;
  inflight : list bool;
  inflight_seq : list N;
  inflight_until : list Millis;
  heartbeat_due : list Millis;
  retry_after : list Millis;
  heard : list Millis;
  seqno : N;
  reads : list PendingRead;
  read_results : list ReadResult;
  out : list Outgoing;
}.
Arguments mkRaft {S}. Arguments cfg {S}. Arguments storage {S}. Arguments applied_out {S}.
Arguments term {S}. Arguments voted_for {S}. Arguments log {S}. Arguments dirty {S}.
Arguments dirty_from {S}. Arguments role {S}. Arguments leader {S}. Arguments commit {S}.
Arguments applied {S}. Arguments election_deadline {S}. Arguments rng {S}. Arguments stopped {S}.
Arguments votes {S}. Arguments next {S}. Arguments matched {S}. Arguments inflight {S}.
Arguments inflight_seq {S}. Arguments inflight_until {S}. Arguments heartbeat_due {S}.
Arguments retry_after {S}. Arguments heard {S}. Arguments seqno {S}. Arguments reads {S}.
Arguments read_results {S}. Arguments out {S}.

#[export] Instance Raft_eta {S} : Eta (Raft S) := λ r,
  mkRaft (cfg r) (storage r) (applied_out r) (term r) (voted_for r) (log r) (dirty r) (dirty_from r)
    (role r) (leader r) (commit r) (applied r) (election_deadline r) (rng r) (stopped r) (votes r)
    (next r) (matched r) (inflight r) (inflight_seq r) (inflight_until r) (heartbeat_due r)
    (retry_after r) (heard r) (seqno r) (reads r) (read_results r) (out r).

(** The term of the entry at index [i], 0 before the first and after the last. *)
Definition term_at_log (l : list Entry) (i : Index) : Term :=
  if (i =? 0) || (length l <? i) then 0%N else e_term (l !!! (i - 1)).

Section core.
Context {S : Type} `{Storage S}.
Implicit Types s : Raft S.

Definition last_index s : Index := length (log s).
Definition term_at s (i : Index) : Term := term_at_log (log s) i.
Definition majority s (count : nat) : bool := cfg_size (cfg s) <? 2 * count.
Definition count_true (l : list bool) : nat := length (filter (λ b, b = true) l).
(** Every replica but this one, in order. *)
Definition peers s : list nat := filter (λ p, p ≠ cfg_id (cfg s)) (seq 0 (cfg_size (cfg s))).

(** *** Timers and the end of every step *)

(** Uniform in [E, 2E): whatever the generator yields, reduced to [0, E). *)
Definition reset_election_timer s (now : Millis) : Raft S :=
  s <| election_deadline := (now + cfg_election (cfg s) + rng s 0 mod cfg_election (cfg s))%Z |>
    <| rng := λ i, rng s (i + 1) |>.

Definition changed_from s (i : Index) : Raft S :=
  s <| dirty := true |>
    <| dirty_from := if (dirty_from s =? 0) || (i <? dirty_from s) then i else dirty_from s |>.
Definition changed_meta s : Raft S := s <| dirty := true |>.

Definition fail_reads s : Raft S :=
  s <| read_results := read_results s ++ ((λ r, mkReadResult (pr_id r) false) <$> reads s) |>
    <| reads := [] |>.

(** The commit rule: from the end down to the commit index, the highest index
    of the leader's own term that a majority holds. *)
Fixpoint advance_commit_from s (n : nat) : option Index :=
  match n with
  | 0 => None
  | Datatypes.S n' =>
      if n <=? commit s then None
      else if negb (term_at s n =? term s)%N then None
      else if majority s (1 + length (filter (λ p, n ≤ matched s !!! p) (peers s))) then Some n
      else advance_commit_from s n'
  end.
Definition advance_commit s : Raft S :=
  match advance_commit_from s (last_index s) with
  | Some n => s <| commit := n |>
  | None => s
  end.

Definition apply_committed s : Raft S :=
  s <| applied_out := applied_out s
         ++ ((λ i, (i, log s !!! (i - 1))) <$> seq (applied s + 1) (commit s - applied s)) |>
    <| applied := Nat.max (applied s) (commit s) |>.

Definition resolve_read s (r : PendingRead) : PendingRead :=
  if (pr_index r =? 0) && (term_at s (commit s) =? term s)%N
  then mkPendingRead (pr_id r) (pr_seq r) (commit s) (pr_acks r) else r.
Definition read_ready s (r : PendingRead) : bool :=
  negb (pr_index r =? 0) && majority s (count_true (pr_acks r)) && (pr_index r <=? applied s).
Definition resolve_reads s : Raft S :=
  if bool_decide (reads s = []) then s
  else if negb (bool_decide (role s = Leader)) then fail_reads s
  else
    let rs := resolve_read s <$> reads s in
    s <| read_results := read_results s
           ++ ((λ r, mkReadResult (pr_id r) true) <$> filter (λ r, read_ready s r = true) rs) |>
      <| reads := filter (λ r, read_ready s r = false) rs |>.

(** The part of [finish] that follows the save. *)
Definition commit_and_apply s : Raft S :=
  resolve_reads (apply_committed (if bool_decide (role s = Leader) then advance_commit s else s)).

Definition finish s : Raft S :=
  if stopped s then s <| out := [] |> <| read_results := [] |>
  else if dirty s then
    let from := if dirty_from s =? 0 then last_index s + 1 else dirty_from s in
    let '(ok, st) := save (storage s) (term s) (voted_for s) from (log s) in
    let s := s <| storage := st |> <| dirty := false |> <| dirty_from := 0 |> in
    if negb ok then s <| stopped := true |> <| out := [] |> <| read_results := [] |>
    else commit_and_apply s
  else commit_and_apply s.

(** *** Transitions *)

Definition become_follower s (t : Term) (l : option nat) (now : Millis) : Raft S :=
  let s := if (term s <? t)%N then changed_meta (s <| term := t |> <| voted_for := None |>) else s in
  let s := if negb (bool_decide (role s = Follower))
           then reset_election_timer (fail_reads (s <| role := Follower |>)) now else s in
  s <| leader := l |>.

(** The entries of one APPEND: at least one, then as many as fit. *)
Fixpoint batch (budget bytes : N) (first : bool) (es : list Entry) : list Entry :=
  match es with
  | [] => []
  | e :: es' =>
      let cost := (N.of_nat (length (e_command e)) + 22)%N in
      if negb first && (budget <? bytes + cost)%N then []
      else e :: batch budget (bytes + cost) false es'
  end.

Definition heartbeat_gap s : Millis := Z.max (cfg_election (cfg s) ÷ 5) 1.

Definition send_append s (peer : nat) (now : Millis) : Raft S :=
  let nx := next s !!! peer in
  let seq := wrap64N (seqno s + 1) in
  let r := mkAppendRequest (term s) (cfg_id (cfg s)) (nx - 1) (term_at s (nx - 1))
             (batch (cfg_max_append_bytes (cfg s)) 0 true (drop (nx - 1) (log s))) (commit s) seq in
  s <| seqno := seq |>
    <| out := out s ++ [OutAppend peer r] |>
    <| inflight := <[peer := true]> (inflight s) |>
    <| inflight_seq := <[peer := seq]> (inflight_seq s) |>
    <| inflight_until := <[peer := (now + cfg_election (cfg s))%Z]> (inflight_until s) |>
    <| heartbeat_due := <[peer := (now + heartbeat_gap s)%Z]> (heartbeat_due s) |>.

Definition send_if_due s (peer : nat) (now : Millis) (force : bool) : Raft S :=
  if negb (bool_decide (role s = Leader)) || (inflight s !!! peer) || (now <? retry_after s !!! peer)%Z
  then if force then s <| heartbeat_due := <[peer := now]> (heartbeat_due s) |> else s
  else if force || (heartbeat_due s !!! peer <=? now)%Z || (next s !!! peer <=? last_index s)
  then send_append s peer now else s.

(** [log_.push_back(Entry{term_, command}); changed_from(last_index());] *)
Definition append_own s (command : bytes) : Raft S :=
  let s := s <| log := log s ++ [mkEntry (term s) command] |> in
  changed_from s (last_index s).

(** [become_leader] up to the calls it sends: the bookkeeping and the no-op. *)
Definition new_leader s (now : Millis) : Raft S :=
  let n := cfg_size (cfg s) in
  let s := s <| role := Leader |> <| leader := Some (cfg_id (cfg s)) |>
             <| next := replicate n (last_index s + 1) |>
             <| matched := replicate n 0 |>
             <| inflight := replicate n false |>
             <| heartbeat_due := replicate n now |>
             <| retry_after := replicate n now |>
             <| heard := replicate n now |> in
  append_own s "NOOP".
Definition become_leader s (now : Millis) : Raft S :=
  let s := new_leader s now in
  foldl (λ s p, send_append s p now) s (peers s).

(** [start_election] up to the calls it makes. *)
Definition standing s (now : Millis) : Raft S :=
  let s := changed_meta (s <| term := wrap64N (term s + 1) |> <| voted_for := Some (cfg_id (cfg s)) |>) in
  let s := fail_reads (s <| role := Candidate |> <| leader := None |>) in
  let s := reset_election_timer s now in
  s <| votes := <[cfg_id (cfg s) := true]> (replicate (length (votes s)) false) |>.
Definition vote_calls s : list Outgoing :=
  (λ p, OutVote p (mkVoteRequest (term s) (cfg_id (cfg s)) (last_index s) (term_at s (last_index s)))) <$> peers s.
(** A group of one has its majority already. *)
Definition call_votes s (now : Millis) : Raft S :=
  if majority s 1 then become_leader s now else s <| out := out s ++ vote_calls s |>.
Definition start_election s (now : Millis) : Raft S := call_votes (standing s now) now.

(** *** Inputs *)

(** The constructor: [recovered] is what the storage held. *)
Definition raft_fields (c : RaftConfig) (st : S) (recovered : Durable) (rs : nat → Z) : Raft S :=
  let n := cfg_size c in
  mkRaft c st [] (d_term recovered) (d_voted_for recovered) (d_log recovered) false 0
    Follower None 0 0 0 rs false (replicate n false) (replicate n 1) (replicate n 0)
    (replicate n false) (replicate n 0%N) (replicate n 0%Z) (replicate n 0%Z) (replicate n 0%Z)
    (replicate n 0%Z) 0 [] [] [].
Definition raft_init (c : RaftConfig) (st : S) (recovered : Durable) (rs : nat → Z) (now : Millis) : Raft S :=
  let s := reset_election_timer (raft_fields c st recovered rs) now in
  finish (if cfg_size c =? 1 then start_election s now else s).

(** One peer's turn in a leader's tick. *)
Definition tick_peer (now : Millis) s (p : nat) : Raft S :=
  let s := if inflight s !!! p && (inflight_until s !!! p <=? now)%Z
           then s <| inflight := <[p := false]> (inflight s) |> else s in
  send_if_due s p now false.

Definition tick s (now : Millis) : Raft S :=
  if stopped s then s
  else if negb (bool_decide (role s = Leader)) then
    finish (if (election_deadline s <=? now)%Z then start_election s now else s)
  else
    let recent := 1 + length (filter (λ p, (now - heard s !!! p < 2 * cfg_election (cfg s))%Z) (peers s)) in
    if negb (majority s recent) then finish (become_follower s (term s) None now)
    else finish (foldl (tick_peer now) s (peers s)).

Definition log_at_least_as_up_to_date s (lt : Term) (li : Index) : bool :=
  let mine := term_at s (last_index s) in
  (mine <? lt)%N || ((lt =? mine)%N && (last_index s <=? li)).

Definition handle_vote s (req : VoteRequest) (now : Millis) : VoteReply * Raft S :=
  if stopped s then (mkVoteReply (term s) false, s)
  else
    let s := if (term s <? vq_term req)%N then become_follower s (vq_term req) None now else s in
    let granted := (vq_term req =? term s)%N
      && (bool_decide (voted_for s = None) || bool_decide (voted_for s = Some (vq_candidate req)))
      && log_at_least_as_up_to_date s (vq_last_term req) (vq_last_index req) in
    let s := if granted
             then reset_election_timer (changed_meta (s <| voted_for := Some (vq_candidate req) |>)) now
             else s in
    let s := finish s in
    (mkVoteReply (term s) (granted && negb (stopped s)), s).

Definition handle_vote_reply s (from : nat) (sent : VoteRequest) (reply : VoteReply) (now : Millis) : Raft S :=
  if stopped s then s
  else finish
    (if (term s <? vr_term reply)%N then become_follower s (vr_term reply) None now
     else if bool_decide (role s = Candidate) && (vq_term sent =? term s)%N && (vr_term reply =? term s)%N
             && vr_granted reply
     then
       let s := s <| votes := <[from := true]> (votes s) |> in
       if majority s (count_true (votes s)) then become_leader s now else s
     else s).

(** The start of the term that conflicts: [while (i > 1 && term_at(i-1) == conflict) --i]. *)
Fixpoint conflict_start s (conflict : Term) (i : Index) : Index :=
  match i with
  | Datatypes.S (Datatypes.S _ as i') => if (term_at s i' =? conflict)%N then conflict_start s conflict i' else i
  | _ => i
  end.

(** The loop over an APPEND's entries, [i] the index before the first. [false]: it
    ended at an entry that would have cut a committed one. *)
Fixpoint append_entries s (i : Index) (es : list Entry) : bool * Raft S :=
  match es with
  | [] => (true, s)
  | e :: es' =>
      let i := i + 1 in
      if i <=? last_index s then
        if (term_at s i =? e_term e)%N then append_entries s i es'
        else if i <=? commit s then (false, s)
        else
          let s := changed_from (s <| log := take (i - 1) (log s) |>) i in
          append_entries (changed_from (s <| log := log s ++ [e] |>) i) i es'
      else append_entries (changed_from (s <| log := log s ++ [e] |>) i) i es'
  end.

(** [finish], then the reply if the replica still runs. *)
Definition answer_append s (reply : AppendReply) : AppendReply * Raft S :=
  let s := finish s in
  if stopped s then (mkAppendReply (term s) false 0, s) else (reply, s).

(** Commit no further than this call proved the logs match. *)
Definition learn_commit s (leader_commit last_new : Index) : Raft S :=
  if commit s <? leader_commit then s <| commit := Nat.min leader_commit last_new |> else s.

(** An APPEND from the leader of the replica's own term. *)
Definition append_current s (req : AppendRequest) : AppendReply * Raft S :=
  if last_index s <? aq_prev_index req then
    answer_append s (mkAppendReply (term s) false (last_index s + 1))
  else if negb (term_at s (aq_prev_index req) =? aq_prev_term req)%N then
    answer_append s (mkAppendReply (term s) false
              (conflict_start s (term_at s (aq_prev_index req)) (aq_prev_index req)))
  else
    match append_entries s (aq_prev_index req) (aq_entries req) with
    | (false, s') => (mkAppendReply (term s) false 0, s' <| stopped := true |>)
    | (true, s') =>
        let last_new := aq_prev_index req + length (aq_entries req) in
        answer_append (learn_commit s' (aq_commit req) last_new) (mkAppendReply (term s') true last_new)
    end.

Definition handle_append s (req : AppendRequest) (now : Millis) : AppendReply * Raft S :=
  if stopped s then (mkAppendReply (term s) false 0, s)
  else if (aq_term req <? term s)%N then
    let s := finish s in (mkAppendReply (term s) false 0, s)
  else
    append_current
      (reset_election_timer (become_follower s (aq_term req) (Some (aq_leader req)) now) now) req.

(** What a reply of this leadership means for the peer it came from. *)
Definition peer_heard s (from : nat) (sent : AppendRequest) (now : Millis) : Raft S :=
  let s := s <| heard := <[from := now]> (heard s) |> in
  if inflight s !!! from && (aq_seq sent =? inflight_seq s !!! from)%N
  then s <| inflight := <[from := false]> (inflight s) |> else s.
Definition peer_matched s (from : nat) (m : Index) : Raft S :=
  let s := if matched s !!! from <? m then s <| matched := <[from := m]> (matched s) |> else s in
  if next s !!! from <? m + 1 then s <| next := <[from := m + 1]> (next s) |> else s.
Definition peer_refused s (from : nat) (sent : AppendRequest) (reply : AppendReply) (now : Millis) : Raft S :=
  let hint := Nat.min (Nat.max (ar_index reply) 1) (aq_prev_index sent) in
  let back := Nat.max (matched s !!! from + 1) hint in
  let s := if back <? next s !!! from then s <| next := <[from := back]> (next s) |> else s in
  s <| retry_after := <[from := now]> (retry_after s) |>.
Definition ack_reads s (from : nat) (sent : AppendRequest) : Raft S :=
  s <| reads := (λ r, if (pr_seq r <=? aq_seq sent)%N
                      then mkPendingRead (pr_id r) (pr_seq r) (pr_index r) (<[from := true]> (pr_acks r))
                      else r) <$> reads s |>.

Definition handle_append_reply s (from : nat) (sent : AppendRequest) (reply : AppendReply) (now : Millis) : Raft S :=
  if stopped s then s
  else if (term s <? ar_term reply)%N then finish (become_follower s (ar_term reply) None now)
  else if negb (bool_decide (role s = Leader)) || negb (aq_term sent =? term s)%N
          || negb (ar_term reply =? term s)%N
  then finish s
  else
    let s := peer_heard s from sent now in
    let s := if ar_success reply then peer_matched s from (aq_prev_index sent + length (aq_entries sent))
             else peer_refused s from sent reply now in
    finish (send_if_due (ack_reads s from sent) from now false).

Definition call_failed s (to : nat) (sent : Outgoing) (now : Millis) : Raft S :=
  match sent with
  | OutVote _ _ => s
  | OutAppend _ a =>
      if stopped s || negb (bool_decide (role s = Leader)) then s
      else
        let s := if inflight s !!! to && (aq_seq a =? inflight_seq s !!! to)%N
                 then s <| inflight := <[to := false]> (inflight s) |> else s in
        s <| retry_after := <[to := (now + heartbeat_gap s)%Z]> (retry_after s) |>
  end.

(** The index and term are meaningful when the flag is set. *)
Definition propose s (command : bytes) (now : Millis) : (bool * Index * Term) * Raft S :=
  if stopped s || negb (bool_decide (role s = Leader)) then ((false, 0, 0%N), s)
  else
    let s := append_own s command in
    let index := last_index s in
    let t := term s in
    let s := finish (foldl (λ s p, send_if_due s p now false) s (peers s)) in
    ((negb (stopped s), index, t), s).

Definition read s (id : N) (now : Millis) : bool * Raft S :=
  if stopped s || negb (bool_decide (role s = Leader)) then (false, s)
  else
    let r := mkPendingRead id (wrap64N (seqno s + 1))
               (if (term_at s (commit s) =? term s)%N then commit s else 0)
               (<[cfg_id (cfg s) := true]> (replicate (cfg_size (cfg s)) false)) in
    let s := s <| reads := reads s ++ [r] |> in
    (true, finish (foldl (λ s p, send_if_due s p now true) s (peers s))).

(** *** Outputs *)

Definition take_outgoing s : list Outgoing * Raft S := (out s, s <| out := [] |>).
Definition take_reads s : list ReadResult * Raft S := (read_results s, s <| read_results := [] |>).
End core.
