(* ===== verification/RaftSpec.v ===== *)
(** * RaftSpec: the protocol a replica implements, and why it is safe

    An abstract transition system over the durable state of a group, with the
    history that Raft's argument needs: the log of the leader of each term, every
    candidacy, every vote with the voter's log when it was cast, every
    acknowledgement, every commit. Each step is one thing a replica does inside
    an input of raft.cpp. [Inv] is the inductive invariant; election safety, log
    matching, leader completeness and state-machine safety follow from it. *)
From S2P Require Import Prelude Text Raft.

(** ** States *)

Record ANode := mkANode {
  a_term : N; a_vote : option nat; a_log : list Entry; a_role : Role; a_commit : nat }.
#[export] Instance ANode_eta : Eta ANode := λ r,
  mkANode (a_term r) (a_vote r) (a_log r) (a_role r) (a_commit r).

Record AState := mkAState {
  nodes : nat → ANode;
  tlog : gmap N (list Entry);                       (* the log of the leader of a term *)
  tlead : gmap N nat;                               (* the leader of a term *)
  cands : list (N * nat * list Entry);              (* candidacies, with the log stood on *)
  grants : list (N * nat * nat * list Entry);       (* term, voter, candidate, the voter's log *)
  acks : list (N * nat * nat);                      (* term, replica, length it holds of the term's log *)
  comm : list (N * nat);                            (* term, length committed in it *)
  apps : list (nat * nat * Entry);                  (* applied: replica, index, entry *)
}.
#[export] Instance AState_eta : Eta AState := λ r,
  mkAState (nodes r) (tlog r) (tlead r) (cands r) (grants r) (acks r) (comm r) (apps r).

Definition set_node (A : AState) (v : nat) (x : ANode) : AState :=
  A <| nodes := λ u, if decide (u = v) then x else nodes A u |>.

(** Section 5.4.1 of the Raft paper, as [log_at_least_as_up_to_date] decides it. *)
Definition last_term (l : list Entry) : N := term_at_log l (length l).
Definition up_to_date (cand mine : list Entry) : Prop :=
  (last_term mine < last_term cand)%N ∨ last_term cand = last_term mine ∧ length mine ≤ length cand.

(** A majority of [size] replicas. *)
Definition quorum (size : nat) (Q : gset nat) : Prop :=
  (∀ q, q ∈ Q → q < size) ∧ size < 2 * base.size Q.

(** A commit index that some leader, of this term or an earlier one, has reached. *)
Definition known_commit (A : AState) (t : N) (c : nat) : Prop :=
  c = 0 ∨ ∃ t0 k, (t0, k) ∈ comm A ∧ (t0 <= t)%N ∧ c ≤ k.

(** How an APPEND may change a follower's log to agree with [m] entries of [L]:
    keep everything if it already agrees, otherwise become those [m] entries,
    having been shorter or having held a different entry [j]. With [j = m] the
    conflicting part is cut and nothing is added, which is what a save interrupted
    after the cut leaves behind. *)
Definition absorbs (old new L : list Entry) (m : nat) : Prop :=
  (new = old ∧ take m old = take m L)
  ∨ (new = take m L ∧
      (old `prefix_of` new
       ∨ ∃ j e e', old !! j = Some e ∧ L !! j = Some e' ∧ e ≠ e' ∧ take j old = take j L ∧ j ≤ m)).

Section protocol.
Context (size : nat).

Inductive astep (A : AState) : AState → Prop :=
| as_newterm v t :
    v < size → (a_term (nodes A v) < t)%N →
    astep A (set_node A v (mkANode t None (a_log (nodes A v)) Follower (a_commit (nodes A v))))
| as_stepdown v :
    v < size → astep A (set_node A v ((nodes A v) <| a_role := Follower |>))
| as_stand v :
    v < size →
    let x := nodes A v in
    let t := (a_term x + 1)%N in
    astep A ((set_node A v (mkANode t (Some v) (a_log x) Candidate (a_commit x)))
               <| cands := (t, v, a_log x) :: cands A |>
               <| grants := (t, v, v, a_log x) :: grants A |>)
| as_vote v c l :
    v < size →
    let x := nodes A v in
    (a_vote x = None ∨ a_vote x = Some c) →
    (a_term x, c, l) ∈ cands A → up_to_date l (a_log x) →
    astep A ((set_node A v (x <| a_vote := Some c |>))
               <| grants := (a_term x, v, c, a_log x) :: grants A |>)
| as_lead v Q cmd :
    v < size →
    let x := nodes A v in
    let L := a_log x ++ [mkEntry (a_term x) cmd] in
    a_role x = Candidate → quorum size Q →
    (∀ q, q ∈ Q → ∃ l, (a_term x, q, v, l) ∈ grants A) →
    astep A ((set_node A v (x <| a_role := Leader |> <| a_log := L |>))
               <| tlog := <[a_term x := L]> (tlog A) |>
               <| tlead := <[a_term x := v]> (tlead A) |>
               <| acks := (a_term x, v, length L) :: acks A |>)
| as_propose v cmd :
    v < size →
    let x := nodes A v in
    let L := a_log x ++ [mkEntry (a_term x) cmd] in
    a_role x = Leader →
    astep A ((set_node A v (x <| a_log := L |>))
               <| tlog := <[a_term x := L]> (tlog A) |>
               <| acks := (a_term x, v, length L) :: acks A |>)
| as_accept v L m l' :
    v < size →
    let x := nodes A v in
    a_role x = Follower → tlog A !! a_term x = Some L → m ≤ length L →
    absorbs (a_log x) l' L m →
    astep A ((set_node A v (x <| a_log := l' |>)) <| acks := (a_term x, v, m) :: acks A |>)
| as_commit v k Q :
    v < size →
    let x := nodes A v in
    a_role x = Leader → 1 ≤ k ≤ length (a_log x) → term_at_log (a_log x) k = a_term x →
    quorum size Q → (∀ q, q ∈ Q → ∃ m, k ≤ m ∧ (a_term x, q, m) ∈ acks A) →
    astep A ((set_node A v (x <| a_commit := k |>)) <| comm := (a_term x, k) :: comm A |>)
| as_learn v c L :
    v < size →
    let x := nodes A v in
    tlog A !! a_term x = Some L → take c (a_log x) = take c L → c ≤ length L →
    known_commit A (a_term x) c →
    astep A (set_node A v (x <| a_commit := c |>))
| as_apply v i e :
    v < size →
    1 ≤ i ≤ a_commit (nodes A v) → a_log (nodes A v) !! (i - 1) = Some e →
    astep A (A <| apps := (v, i, e) :: apps A |>)
| as_crash v :
    v < size →
    astep A (set_node A v ((nodes A v) <| a_role := Follower |> <| a_commit := 0 |>)).

Definition ainit : AState :=
  mkAState (λ _, mkANode 0 None [] Follower 0) ∅ ∅ [] [] [] [] [].

(** ** The invariant *)

(** Every entry of [l] is the entry the leader of its term created there, with
    everything before it: the strong form of log matching. *)
Definition matching (A : AState) (l : list Entry) : Prop :=
  ∀ i e, l !! i = Some e → ∃ L, tlog A !! e_term e = Some L ∧ take (S i) l = take (S i) L.

Definition bounded (t : N) (l : list Entry) : Prop := ∀ i e, l !! i = Some e → (e_term e <= t)%N.

(** The leader of [t2] holds another entry somewhere in the first [m] of [t]'s log. *)
Definition diverges (A : AState) (t2 t : N) (m : nat) : Prop :=
  ∃ L2 L i e2 e, tlog A !! t2 = Some L2 ∧ tlog A !! t = Some L ∧ i < m
    ∧ L2 !! i = Some e2 ∧ L !! i = Some e ∧ e2 ≠ e.

(** [l] still holds what was acknowledged of term [t], unless the leader of a
    later term, up to [bound], disagrees with it. *)
Definition keeps (A : AState) (l : list Entry) (t : N) (m : nat) (bound : N → Prop) : Prop :=
  ∃ L, tlog A !! t = Some L ∧ m ≤ length L
    ∧ ∀ k, k ≤ m → take k l = take k L ∨ ∃ t2, (t < t2)%N ∧ bound t2 ∧ diverges A t2 t k.

(** How a term's leader came to lead. *)
Definition elected (A : AState) (t : N) (L : list Entry) : Prop :=
  ∃ c lc Q, tlead A !! t = Some c ∧ (t, c, lc) ∈ cands A ∧ quorum size Q
    ∧ take (length lc) L = lc ∧ length lc < length L
    ∧ (∀ i e, length lc ≤ i → L !! i = Some e → e_term e = t)
    ∧ ∀ q, q ∈ Q → ∃ l, (t, q, c, l) ∈ grants A ∧ up_to_date lc l ∧ matching A l
         ∧ ∀ t0 m, (t0, q, m) ∈ acks A → (t0 < t)%N → keeps A l t0 m (λ t2, (t2 < t)%N).

Definition tlead_ok (A : AState) (t : N) (v : nat) : Prop :=
  is_Some (tlog A !! t) ∧ v < size ∧ (t <= a_term (nodes A v))%N
  ∧ (a_term (nodes A v) = t → a_role (nodes A v) ≠ Candidate).

Definition cand_ok (A : AState) (t : N) (c : nat) (l : list Entry) : Prop :=
  c < size ∧ (t <= a_term (nodes A c))%N ∧ matching A l
  ∧ (∀ i e, l !! i = Some e → (e_term e < t)%N)
  ∧ (∀ l', (t, c, l') ∈ cands A → l' = l).

Definition grant_ok (A : AState) (t : N) (v c : nat) (l : list Entry) : Prop :=
  v < size ∧ (t <= a_term (nodes A v))%N ∧ (a_term (nodes A v) = t → a_vote (nodes A v) = Some c)
  ∧ (∃ lc, (t, c, lc) ∈ cands A ∧ up_to_date lc l) ∧ matching A l
  ∧ (∀ c' l', (t, v, c', l') ∈ grants A → c' = c)
  ∧ ∀ t0 m, (t0, v, m) ∈ acks A → (t0 < t)%N → keeps A l t0 m (λ t2, (t2 <= t)%N).

Definition ack_ok (A : AState) (t : N) (v m : nat) : Prop :=
  v < size ∧ (t <= a_term (nodes A v))%N
  ∧ keeps A (a_log (nodes A v)) t m (λ t2, (t2 <= a_term (nodes A v))%N).

Definition comm_ok (A : AState) (t : N) (k : nat) : Prop :=
  ∃ L Q, tlog A !! t = Some L ∧ 1 ≤ k ≤ length L ∧ term_at_log L k = t ∧ quorum size Q
    ∧ ∀ q, q ∈ Q → ∃ m, k ≤ m ∧ (t, q, m) ∈ acks A.

(** What a replica applies was committed in a term it has reached. *)
Definition app_ok (A : AState) (v i : nat) (e : Entry) : Prop :=
  ∃ t k L, (t, k) ∈ comm A ∧ tlog A !! t = Some L ∧ 1 ≤ i ≤ k ∧ L !! (i - 1) = Some e
    ∧ v < size ∧ (t <= a_term (nodes A v))%N.

(** A replica's commit index lies within what some leader has committed, and
    its log agrees with that leader's up to it. *)
Definition commit_ok (A : AState) (x : ANode) : Prop :=
  a_commit x = 0 ∨ ∃ t0 k L, (t0, k) ∈ comm A ∧ tlog A !! t0 = Some L ∧ (t0 <= a_term x)%N
    ∧ a_commit x ≤ k ∧ take (a_commit x) (a_log x) = take (a_commit x) L.

Record node_ok (A : AState) (v : nat) (x : ANode) : Prop := {
  no_matching : matching A (a_log x);
  no_bounded : bounded (a_term x) (a_log x);
  no_candidate : a_role x = Candidate → (a_term x, v, a_log x) ∈ cands A ∧ a_vote x = Some v;
  no_leader : a_role x = Leader →
    tlog A !! a_term x = Some (a_log x) ∧ tlead A !! a_term x = Some v;
  no_commit : commit_ok A x;
}.

Record Inv (A : AState) : Prop := {
  inv_node v : v < size → node_ok A v (nodes A v);
  inv_tlog t L : tlog A !! t = Some L → matching A L ∧ bounded t L ∧ elected A t L;
  inv_tlead t v : tlead A !! t = Some v → tlead_ok A t v;
  inv_cand t c l : (t, c, l) ∈ cands A → cand_ok A t c l;
  inv_grant t v c l : (t, v, c, l) ∈ grants A → grant_ok A t v c l;
  inv_ack t v m : (t, v, m) ∈ acks A → ack_ok A t v m;
  inv_comm t k : (t, k) ∈ comm A → comm_ok A t k;
  inv_apps v i e : (v, i, e) ∈ apps A → app_ok A v i e;
}.
End protocol.

(** ** Quorums *)

Lemma quorum_intersect n Q1 Q2 : quorum n Q1 → quorum n Q2 → ∃ q, q ∈ Q1 ∧ q ∈ Q2.
Proof.
  intros [H1 S1] [H2 S2]. destruct (decide (Q1 ∩ Q2 = ∅)) as [E|E].
  - exfalso. assert (D : Q1 ## Q2) by set_solver. pose proof (size_union Q1 Q2 D) as Hu.
    assert (Hs : Q1 ∪ Q2 ⊆ (set_seq 0 n : gset nat)).
    { intros q Hq. apply elem_of_set_seq. apply elem_of_union in Hq as [Hq|Hq]; split; auto; lia. }
    apply subseteq_size in Hs. rewrite size_set_seq in Hs. lia.
  - apply set_choose_L in E as [q Hq]. exists q. set_solver.
Qed.

(** ** Logs *)

Lemma term_at_lookup l k : 1 ≤ k ≤ length l → ∃ e, l !! (k - 1) = Some e ∧ term_at_log l k = e_term e.
Proof.
  intros Hk. destruct (lookup_lt_is_Some_2 l (k - 1)) as [e He]; [lia|]. exists e. split; [done|].
  unfold term_at_log. destruct (Nat.eqb_spec k 0); [lia|]. destruct (Nat.ltb_spec (length l) k); [lia|].
  simpl. by rewrite (list_lookup_total_correct _ _ _ He).
Qed.

Lemma term_at_take l m k : k ≤ m → term_at_log (take m l) k = term_at_log l k.
Proof.
  intros Hk. unfold term_at_log. rewrite length_take.
  destruct (Nat.eqb_spec k 0); [done|]. destruct (decide (length l < k)).
  - destruct (Nat.ltb_spec (m `min` length l) k); [|lia]. destruct (Nat.ltb_spec (length l) k); [done|lia].
  - destruct (Nat.ltb_spec (m `min` length l) k); [lia|]. destruct (Nat.ltb_spec (length l) k); [lia|].
    simpl. by rewrite lookup_total_take_lt by lia.
Qed.

Lemma term_at_eq l l' m k : take m l = take m l' → k ≤ m → term_at_log l k = term_at_log l' k.
Proof. intros E Hk. by rewrite <- (term_at_take l m k Hk), <- (term_at_take l' m k Hk), E. Qed.

Section matching_facts.
Context (A : AState).

(** Two logs that agree with the leaders' logs and hold entries of one term at
    one index are the same up to it. *)
Lemma matching_same l l' i e e' :
  matching A l → matching A l' → l !! i = Some e → l' !! i = Some e' → e_term e = e_term e' →
  take (S i) l = take (S i) l'.
Proof.
  intros H H' Hi Hi' E. destruct (H i e Hi) as (L & HL & ->). destruct (H' i e' Hi') as (L' & HL' & ->).
  rewrite E in HL. by simplify_eq.
Qed.

Lemma matching_app_inv l l' : matching A (l ++ l') → matching A l.
Proof.
  intros H i e Hi. pose proof (lookup_lt_Some _ _ _ Hi) as Hlt.
  destruct (H i e) as (L & HL & E); [by apply lookup_app_l_Some|]. exists L. split; [done|].
  by rewrite take_app_le in E by lia.
Qed.

Lemma matching_take m l : matching A l → matching A (take m l).
Proof. intros H. rewrite <- (take_drop m l) in H. by eapply matching_app_inv. Qed.

(** Terms never fall along a log. *)
Lemma matching_sorted l i j e e' :
  (∀ t L, tlog A !! t = Some L → bounded t L) →
  matching A l → l !! i = Some e → l !! j = Some e' → i ≤ j → (e_term e <= e_term e')%N.
Proof.
  intros HB H Hi Hj Hij. destruct (H j e' Hj) as (L & HL & E).
  apply (HB _ _ HL i e). rewrite <- (lookup_take_eq (S j) i l L E) by lia. done.
Qed.
End matching_facts.

Lemma last_term_lookup l : l ≠ [] → ∃ e, l !! (length l - 1) = Some e ∧ last_term l = e_term e.
Proof. intros H. apply term_at_lookup. destruct l; [done|simpl; lia]. Qed.


(** ** History only grows *)

Record ext (A A' : AState) : Prop := {
  ext_tlog t L : tlog A !! t = Some L → ∃ L', tlog A' !! t = Some L' ∧ L `prefix_of` L';
  ext_tlead t c : tlead A !! t = Some c → tlead A' !! t = Some c;
  ext_cands : cands A ⊆ cands A';
  ext_grants : grants A ⊆ grants A';
  ext_acks : acks A ⊆ acks A';
  ext_comm : comm A ⊆ comm A';
  ext_old t v m : (t, v, m) ∈ acks A' → (t, v, m) ∈ acks A ∨ (a_term (nodes A v) <= t)%N;
}.

Lemma prefix_take {T} (l l' : list T) k : l `prefix_of` l' → k ≤ length l → take k l' = take k l.
Proof. intros [x ->] Hk. by rewrite take_app_le by lia. Qed.

Lemma take_eq_length {T} (l l' : list T) k : take k l = take k l' → k ≤ length l → k ≤ length l'.
Proof. intros E Hk. apply (f_equal length) in E. rewrite !length_take in E. lia. Qed.

Section growth.
Context (A A' : AState) (E : ext A A').

Lemma ext_take t L k : tlog A !! t = Some L → k ≤ length L →
  ∃ L', tlog A' !! t = Some L' ∧ take k L' = take k L ∧ k ≤ length L'.
Proof.
  intros HL Hk. destruct (ext_tlog _ _ E t L HL) as (L' & HL' & HP). exists L'.
  split; [done|]. split; [by apply prefix_take|]. apply prefix_length in HP. lia.
Qed.

Lemma matching_mono l : matching A l → matching A' l.
Proof.
  intros H i e Hi. destruct (H i e Hi) as (L & HL & HT). pose proof (lookup_lt_Some _ _ _ Hi) as Hlt.
  assert (S i ≤ length L) as Hle by (eapply take_eq_length; [exact HT|lia]).
  destruct (ext_take _ _ (S i) HL Hle) as (L' & HL' & HT' & _). exists L'. split; [done|]. congruence.
Qed.

Lemma diverges_mono t2 t m : diverges A t2 t m → diverges A' t2 t m.
Proof.
  intros (L2 & L & i & e2 & e & H2 & HL & Hi & He2 & He & Hne).
  destruct (ext_tlog _ _ E _ _ H2) as (L2' & H2' & P2). destruct (ext_tlog _ _ E _ _ HL) as (L' & HL' & P).
  exists L2', L', i, e2, e. split_and!; eauto using prefix_lookup_Some.
Qed.

Lemma keeps_mono l t m (b b' : N → Prop) :
  (∀ t2, b t2 → b' t2) → keeps A l t m b → keeps A' l t m b'.
Proof.
  intros Hb (L & HL & Hm & HK). destruct (ext_take _ _ m HL Hm) as (L' & HL' & HT & Hm').
  exists L'. split_and!; [done|done|]. intros k Hk. destruct (HK k Hk) as [Heq|(t2 & Ht & Hb2 & HD)].
  - left. rewrite Heq. symmetry. by eapply take_eq_mono.
  - right. exists t2. eauto using diverges_mono.
Qed.

Lemma elected_mono size t L L' :
  Inv size A → L `prefix_of` L' → (∀ i e, length L ≤ i → L' !! i = Some e → e_term e = t) →
  elected size A t L → elected size A' t L'.
Proof.
  intros I HP Hnew (c & lc & Q & Hc & Hcand & HQ & HT & Hlt & Hown & Hall).
  exists c, lc, Q. pose proof (prefix_length _ _ HP) as Hlen.
  split; [by apply (ext_tlead _ _ E)|]. split; [by apply (ext_cands _ _ E)|]. split; [done|].
  split; [rewrite <- HT at 2; apply prefix_take; [done|lia]|]. split; [lia|]. split.
  - intros i e Hi He. destruct (decide (i < length L)).
    + apply (Hown i e); [done|]. destruct HP as [r ->]. by rewrite lookup_app_l in He by lia.
    + apply (Hnew i e); [lia|done].
  - intros q Hq. destruct (Hall q Hq) as (l & Hg & Hup & Hm & Hk). exists l.
    split; [by apply (ext_grants _ _ E)|]. split; [done|]. split; [by apply matching_mono|].
    intros t0 m Ha Ht0. destruct (inv_grant _ _ I _ _ _ _ Hg) as (_ & Hle & _).
    destruct (ext_old _ _ E _ _ _ Ha) as [Ho|Ho]; [|lia]. eapply keeps_mono; [|by apply Hk]. done.
Qed.
End growth.

(** A log that keeps its acknowledged part through an append, or through being
    made to agree with the leader of a later term. *)
Lemma keeps_prefix A l l' t m b : l `prefix_of` l' → keeps A l t m b → keeps A l' t m b.
Proof.
  intros HP (L & HL & Hm & HK). exists L. split_and!; [done|done|]. intros k Hk.
  destruct (HK k Hk) as [Heq|HD]; [left|by right].
  rewrite (prefix_take l l') by (done || (eapply take_eq_length; [symmetry; exact Heq|lia])). done.
Qed.

Lemma keeps_absorbs A old new L m' tx t m :
  tlog A !! tx = Some L → m' ≤ length L → (t <= tx)%N → absorbs old new L m' →
  keeps A old t m (λ t2, (t2 <= tx)%N) → keeps A new t m (λ t2, (t2 <= tx)%N).
Proof.
  intros HLx Hm' Ht [[-> _]|[-> [HP|(j & e & e' & He & He' & Hne & HT & Hj0)]]] HK; [done|by eapply keeps_prefix|].
  destruct HK as (L0 & HL0 & Hm & HK). exists L0. split_and!; [done|done|]. intros k Hk.
  destruct (HK k Hk) as [Heq|HD]; [|by right]. destruct (decide (j < k)) as [Hj|Hj].
  - assert (HL0e : L0 !! j = Some e) by (rewrite <- He; symmetry; by eapply lookup_take_eq).
    assert (t ≠ tx) by (intros ->; simplify_eq). right. exists tx. split; [lia|]. split; [done|].
    exists L, L0, j, e', e. split_and!; auto.
  - left. rewrite <- Heq, take_take, Nat.min_l by lia. symmetry. apply (take_eq_mono k j); [lia|done].
Qed.

(** ** Leader completeness *)

Lemma leader_complete size A : Inv size A → ∀ t' t k L L',
  (t, k) ∈ comm A → (t < t')%N → tlog A !! t = Some L → tlog A !! t' = Some L' → take k L' = take k L.
Proof.
  intros I t'. induction (N.lt_wf_0 t') as [t' _ IH]. intros t k L L' Hc Ht HL HL'.
  destruct (inv_comm _ _ I _ _ Hc) as (L0 & Q & HL0 & Hk & Htk & HQ & Hack). simplify_eq.
  destruct (inv_tlog _ _ I _ _ HL') as (_ & _ & c & lc & Q' & _ & Hcand & HQ' & Htake & Hlt & _ & Hall).
  destruct (quorum_intersect _ _ _ HQ HQ') as (q & Hq & Hq').
  destruct (Hack q Hq) as (m & Hm & Ha). destruct (Hall q Hq') as (l & Hg & Hup & Hml & Hkeep).
  destruct (Hkeep _ _ Ha Ht) as (L0 & HL0' & HmL & HK). simplify_eq.
  assert (HB : ∀ t L, tlog A !! t = Some L → bounded t L) by (intros t1 L1 H1; by apply (inv_tlog _ _ I)).
  set (t := term_at_log L k) in *.
  (* the voter still held the committed prefix when it voted *)
  assert (Hl : take k l = take k L).
  { destruct (HK k Hm) as [?|(t2 & H1 & H2 & L2 & L1 & i & e2 & e & HL2 & HL1 & Hi & He2 & He & Hne)]; [done|].
    exfalso. simplify_eq. pose proof (IH t2 H2 t k _ _ Hc H1 HL HL2) as Eq.
    pose proof (lookup_take_eq k i _ _ Eq Hi). congruence. }
  assert (Hlen : k ≤ length l) by (eapply take_eq_length; [symmetry; exact Hl|lia]).
  destruct (term_at_lookup l k) as (ek & Hek & Htek); [lia|].
  assert (Hlt_l : (t <= last_term l)%N).
  { destruct (last_term_lookup l) as (el & Hel & ->); [by destruct l; simpl in *; [lia|]|].
    subst t. rewrite <- (term_at_eq _ _ k k Hl) by lia. rewrite Htek.
    eapply (matching_sorted A l); eauto. lia. }
  destruct (inv_cand _ _ I _ _ _ Hcand) as (_ & _ & Hmc & Hbc & _).
  assert (Hne : lc ≠ []).
  { intros ->. destruct Hup as [Hu|[Hu Hl2]]; [|simpl in Hl2; lia]. unfold last_term, term_at_log in Hu. simpl in Hu. lia. }
  destruct (last_term_lookup lc Hne) as (ec & Hec & Hlc).
  assert (Hpos : length lc ≠ 0) by (by destruct lc).
  destruct (Hmc _ _ Hec) as (L3 & HL3 & HT3). replace (S (length lc - 1)) with (length lc) in HT3 by lia.
  assert (Hcase : k ≤ length lc ∧ take k L3 = take k L).
  { destruct (decide (e_term ec = t)) as [Et|Et].
    - rewrite Et in HL3. simplify_eq. split; [|done]. destruct Hup as [Hu|[_ Hu]]; lia.
    - assert (Hgt : (t < e_term ec)%N) by (destruct Hup as [Hu|[Hu _]]; lia).
      pose proof (IH (e_term ec) (Hbc _ _ Hec) t k _ _ Hc Hgt HL HL3) as Eq. split; [|done].
      destruct (decide (k ≤ length lc)) as [|Hshort]; [done|]. exfalso.
      assert (HeL : L !! (length lc - 1) = Some ec).
      { rewrite <- (lookup_take_eq k _ _ _ Eq) by lia. rewrite <- Hec. symmetry.
        apply (lookup_take_eq (length lc)); [done|lia]. }
      pose proof (HB _ _ HL _ _ HeL). lia. }
  destruct Hcase as [Hkl E3].
  transitivity (take k lc); [rewrite <- Htake; symmetry; rewrite take_take; by rewrite Nat.min_l by lia|].
  rewrite <- E3. by apply (take_eq_mono k (length lc)).
Qed.

(** Commit points agree: the leader of a term at or after a commit holds it. *)
Lemma commit_agrees size A t k t' L L' : Inv size A →
  (t, k) ∈ comm A → (t <= t')%N → tlog A !! t = Some L → tlog A !! t' = Some L' → take k L' = take k L.
Proof.
  intros I Hc Ht HL HL'. destruct (decide (t = t')) as [->|]; [by simplify_eq|].
  eapply leader_complete; eauto. lia.
Qed.

(** A term has one log, so a candidate's quorum means its term has no leader yet. *)
Lemma no_second_leader size A v Q : Inv size A → v < size → a_role (nodes A v) = Candidate → quorum size Q →
  (∀ q, q ∈ Q → ∃ l, (a_term (nodes A v), q, v, l) ∈ grants A) → tlog A !! a_term (nodes A v) = None.
Proof.
  intros I Hv Hr HQ Hg. destruct (tlog A !! a_term (nodes A v)) as [L|] eqn:HL; [exfalso|done].
  destruct (inv_tlog _ _ I _ _ HL) as (_ & _ & c & lc & Q' & Hlead & _ & HQ' & _ & _ & _ & Hall).
  destruct (quorum_intersect _ _ _ HQ HQ') as (q & Hq & Hq').
  destruct (Hg q Hq) as (l & Hl). destruct (Hall q Hq') as (l' & Hl' & _).
  destruct (inv_grant _ _ I _ _ _ _ Hl) as (_ & _ & _ & _ & _ & Huniq & _).
  pose proof (Huniq _ _ Hl'). subst c.
  destruct (inv_tlead _ _ I _ _ Hlead) as (_ & _ & _ & Hnc). by apply Hnc.
Qed.

(** ** Every step keeps the invariant *)

(** What a step may do to the one replica it moves. *)
Record evolves (A A' : AState) (v : nat) (x x' : ANode) : Prop := {
  ev_term : (a_term x <= a_term x')%N;
  ev_vote c : a_term x = a_term x' → a_vote x = Some c → a_vote x' = Some c;
  ev_role : a_term x = a_term x' → a_role x ≠ Candidate → a_role x' ≠ Candidate;
  ev_keeps t m : (t, v, m) ∈ acks A → (t <= a_term x)%N →
    keeps A' (a_log x) t m (λ t2, (t2 <= a_term x)%N) → keeps A' (a_log x') t m (λ t2, (t2 <= a_term x')%N);
}.

Section frame.
Context (size : nat) (A A' : AState) (v : nat) (x' : ANode).
Hypothesis I : Inv size A.
Hypothesis Hv : v < size.
Hypothesis Hnodes : ∀ u, nodes A' u = if decide (u = v) then x' else nodes A u.
Hypothesis E : ext A A'.
Hypothesis EV : evolves A A' v (nodes A v) x'.

Lemma frame_term u : (a_term (nodes A u) <= a_term (nodes A' u))%N.
Proof. rewrite Hnodes. case_decide; [subst; apply EV|done]. Qed.

Lemma frame_commit_ok x : commit_ok A x → commit_ok A' x.
Proof.
  intros [H0|(t0 & k & L & Hc & HL & Ht & Hk & HT)]; [by left|right].
  destruct (inv_comm _ _ I _ _ Hc) as (L0 & Q & HL0 & Hkl & _). simplify_eq.
  destruct (ext_take _ _ E _ _ (a_commit x) HL) as (L' & HL' & HT' & _); [lia|].
  exists t0, k, L'. split_and!; [by apply (ext_comm _ _ E)|done..|congruence].
Qed.

Lemma frame_tlead_ok t u : tlead_ok size A t u → tlead_ok size A' t u.
Proof.
  intros ([L HL] & Hu & Ht & Hr). destruct (ext_tlog _ _ E _ _ HL) as (L' & HL' & _).
  split; [by eexists|]. split; [done|]. pose proof (frame_term u). split; [lia|].
  rewrite Hnodes in *. case_decide; [subst u|done]. intros Et. apply (ev_role _ _ _ _ _ EV); [lia|].
  apply Hr. lia.
Qed.

Lemma frame_cand_ok t c l :
  cand_ok size A t c l → (∀ l', (t, c, l') ∈ cands A' → l' = l) → cand_ok size A' t c l.
Proof.
  intros (Hc & Ht & Hm & Hb & _) Hu. pose proof (frame_term c).
  split_and!; [done|lia|by eapply matching_mono|done|done].
Qed.

Lemma frame_grant_ok t u c l :
  grant_ok size A t u c l → (∀ c' l', (t, u, c', l') ∈ grants A' → c' = c) → grant_ok size A' t u c l.
Proof.
  intros (Hu & Ht & Hvote & (lc & Hlc & Hup) & Hm & _ & HK) Huniq. pose proof (frame_term u).
  split_and!; [done|lia| | |by eapply matching_mono|done|].
  - rewrite Hnodes in *. case_decide; [subst u|done]. intros Et.
    apply (ev_vote _ _ _ _ _ EV); [lia|]. apply Hvote. lia.
  - exists lc. split; [by apply (ext_cands _ _ E)|done].
  - intros t0 m Ha Ht0. destruct (ext_old _ _ E _ _ _ Ha) as [Ho|Ho]; [|lia].
    eapply keeps_mono; [done| |by apply HK]. done.
Qed.

Lemma frame_ack_ok t u m : (t, u, m) ∈ acks A → ack_ok size A' t u m.
Proof.
  intros Ha. destruct (inv_ack _ _ I _ _ _ Ha) as (Hu & Ht & HK). pose proof (frame_term u).
  split_and!; [done|lia|]. apply (keeps_mono _ _ E _ _ _ _ _ (λ t2 H, H)) in HK.
  rewrite Hnodes in *. case_decide; [subst u|done]. by apply (ev_keeps _ _ _ _ _ EV).
Qed.

Lemma frame_comm_ok t k : comm_ok size A t k → comm_ok size A' t k.
Proof.
  intros (L & Q & HL & Hk & Ht & HQ & Ha). destruct (ext_take _ _ E _ _ k HL) as (L' & HL' & HT & Hk'); [lia|].
  exists L', Q. split_and!; [done|lia|lia|by rewrite (term_at_eq _ _ k k HT)|done|].
  intros q Hq. destruct (Ha q Hq) as (m & Hm & Hin). exists m. split; [done|by apply (ext_acks _ _ E)].
Qed.

Lemma frame_app_ok u i e : app_ok size A u i e → app_ok size A' u i e.
Proof.
  intros (t & k & L & Hc & HL & Hi & He & Hu & Ht). pose proof (frame_term u). destruct (ext_tlog _ _ E _ _ HL) as (L' & HL' & HP).
  exists t, k, L'. split_and!; [by apply (ext_comm _ _ E)|done|lia|lia|by eapply prefix_lookup_Some|done|lia].
Qed.

(** The obligations a step has to meet itself: what it adds. *)
Hypothesis Hown : node_ok A' v x'.
Hypothesis Hleaders : ∀ u, u < size → u ≠ v → a_role (nodes A u) = Leader →
  tlog A' !! a_term (nodes A u) = tlog A !! a_term (nodes A u).
Hypothesis Htlog : ∀ t L, tlog A' !! t = Some L →
  tlog A !! t = Some L ∨ matching A' L ∧ bounded t L ∧ elected size A' t L.
Hypothesis Htlead : ∀ t c, tlead A' !! t = Some c → tlead A !! t = Some c ∨ tlead_ok size A' t c.
Hypothesis Hcands : ∀ t c l, (t, c, l) ∈ cands A' → (t, c, l) ∈ cands A ∨ cand_ok size A' t c l.
Hypothesis Hgrants : ∀ t u c l, (t, u, c, l) ∈ grants A' → (t, u, c, l) ∈ grants A ∨ grant_ok size A' t u c l.
Hypothesis Hacks : ∀ t u m, (t, u, m) ∈ acks A' → (t, u, m) ∈ acks A ∨ ack_ok size A' t u m.
Hypothesis Hcomm : ∀ t k, (t, k) ∈ comm A' → (t, k) ∈ comm A ∨ comm_ok size A' t k.
Hypothesis Happs : ∀ u i e, (u, i, e) ∈ apps A' → (u, i, e) ∈ apps A ∨ app_ok size A' u i e.

Lemma Inv_frame : Inv size A'.
Proof.
  split.
  - intros u Hu. rewrite Hnodes. case_decide; [by subst|].
    destruct (inv_node _ _ I u Hu) as [Hm Hb Hc Hl Hk].
    split; [by eapply matching_mono|done| | |by apply frame_commit_ok].
    + intros Hr. destruct (Hc Hr). split; [by apply (ext_cands _ _ E)|done].
    + intros Hr. rewrite Hleaders by done. destruct (Hl Hr). split; [done|by apply (ext_tlead _ _ E)].
  - intros t L HL. destruct (Htlog t L HL) as [HL0|]; [|done]. destruct (inv_tlog _ _ I _ _ HL0) as (Hm & Hb & He).
    split_and!; [by eapply matching_mono|done|]. apply (elected_mono A A' E size t L L I); [done| |done].
    intros i e Hi He'. apply lookup_lt_Some in He'. lia.
  - intros t c Hc. destruct (Htlead t c Hc); [|done]. by apply frame_tlead_ok, (inv_tlead _ _ I).
  - intros t c l Hc. destruct (Hcands t c l Hc) as [H0|]; [|done].
    apply frame_cand_ok; [by apply (inv_cand _ _ I)|]. intros l' Hl'.
    destruct (Hcands t c l' Hl') as [H1|(_ & _ & _ & _ & Hu)]; [by apply (inv_cand _ _ I _ _ _ H0)|].
    symmetry. by apply Hu.
  - intros t u c l Hc. destruct (Hgrants t u c l Hc) as [H0|]; [|done].
    apply frame_grant_ok; [by apply (inv_grant _ _ I)|]. intros c' l' Hl'.
    destruct (Hgrants t u c' l' Hl') as [H1|(_ & _ & _ & _ & _ & Hu & _)].
    + by eapply (inv_grant _ _ I _ _ _ _ H0).
    + symmetry. by eapply Hu.
  - intros t u m Ha. destruct (Hacks t u m Ha); [by apply frame_ack_ok|done].
  - intros t k Ha. destruct (Hcomm t k Ha); [|done]. by apply frame_comm_ok, (inv_comm _ _ I).
  - intros u i e Ha. destruct (Happs u i e Ha); [|done]. by apply frame_app_ok, (inv_apps _ _ I).
Qed.
End frame.

Section preservation.
Context (size : nat).
Implicit Types A : AState.

Lemma prefix_self {T} (l : list T) t (m : gmap N (list T)) :
  m !! t = Some l → ∃ l', m !! t = Some l' ∧ l `prefix_of` l'.
Proof. eauto. Qed.

(** A step that only moves one replica. *)
Lemma Inv_move A v x' : Inv size A → v < size →
  evolves A (set_node A v x') v (nodes A v) x' → node_ok A v x' → Inv size (set_node A v x').
Proof.
  intros I Hv EV Hx.
  assert (E : ext A (set_node A v x')) by (split; [intros t L; apply prefix_self|done..|by left]).
  apply (Inv_frame size A (set_node A v x') v x'); try done; try by left.
  destruct Hx. by split.
Qed.

Lemma evolves_same_log A A' v x x' : a_log x' = a_log x → (a_term x <= a_term x')%N →
  (a_term x = a_term x' → ∀ c, a_vote x = Some c → a_vote x' = Some c) →
  (a_term x = a_term x' → a_role x ≠ Candidate → a_role x' ≠ Candidate) → evolves A A' v x x'.
Proof.
  intros El Ht Hvote Hr. split; [done|auto|done|]. rewrite El. intros t m _ _ (L & HL & Hm & HK).
  exists L. split_and!; [done|done|]. intros k Hk. destruct (HK k Hk) as [?|(t2 & ? & ? & ?)]; [by left|].
  right. exists t2. split_and!; [done|lia|done].
Qed.

Lemma bounded_mono t t' l : (t <= t')%N → bounded t l → bounded t' l.
Proof. intros Ht H i e He. pose proof (H i e He). lia. Qed.

Lemma commit_ok_mono A x x' : a_log x' = a_log x → a_commit x' = a_commit x → (a_term x <= a_term x')%N →
  commit_ok A x → commit_ok A x'.
Proof.
  intros El Ec Ht. unfold commit_ok. rewrite El, Ec. intros [?|(t0 & k & L & ? & ? & ? & ? & ?)]; [by left|right].
  exists t0, k, L. split_and!; done || lia.
Qed.

Lemma commit_ok_length A x : Inv size A → commit_ok A x → a_commit x ≤ length (a_log x).
Proof.
  intros I [?|(t0 & k & L & Hc & HL & _ & Hk & HT)]; [lia|].
  destruct (inv_comm _ _ I _ _ Hc) as (L0 & _ & HL0 & Hk0 & _). simplify_eq.
  eapply take_eq_length; [symmetry; exact HT|lia].
Qed.

Lemma commit_ok_take A x x' : Inv size A → a_term x' = a_term x → a_commit x' = a_commit x →
  take (a_commit x) (a_log x') = take (a_commit x) (a_log x) → commit_ok A x → commit_ok A x'.
Proof.
  intros I Et Ec HT. unfold commit_ok. rewrite Et, Ec.
  intros [?|(t0 & k & L & ? & ? & ? & ? & ?)]; [by left|right].
  exists t0, k, L. split_and!; done || congruence.
Qed.

Lemma commit_ok_prefix A x x' : Inv size A → a_term x' = a_term x → a_commit x' = a_commit x →
  a_log x `prefix_of` a_log x' → commit_ok A x → commit_ok A x'.
Proof.
  intros I Et Ec HP Hk. apply (commit_ok_take A x); [done..| |done].
  apply prefix_take; [done|by apply (commit_ok_length A)].
Qed.

Lemma newterm_inv A v t : Inv size A → v < size → (a_term (nodes A v) < t)%N →
  Inv size (set_node A v (mkANode t None (a_log (nodes A v)) Follower (a_commit (nodes A v)))).
Proof.
  intros I Hv Ht. destruct (inv_node _ _ I v Hv) as [Hm Hb _ _ Hk].
  apply Inv_move; [done|done|apply evolves_same_log; simpl; [done|lia|lia|lia]|].
  split; simpl; [done|eapply bounded_mono; [|done]; lia|done|done|].
  eapply commit_ok_mono; [..|exact Hk]; simpl; done || lia.
Qed.

Lemma stepdown_inv A v c : Inv size A → v < size → c = 0 ∨ c = a_commit (nodes A v) →
  Inv size (set_node A v ((nodes A v) <| a_role := Follower |> <| a_commit := c |>)).
Proof.
  intros I Hv Hc. destruct (inv_node _ _ I v Hv) as [Hm Hb _ _ Hk].
  apply Inv_move; [done|done|apply evolves_same_log; upd; done|].
  split; upd; [done|done|done|done|]. destruct Hc as [->| ->]; [by left|].
  eapply commit_ok_mono; [..|exact Hk]; upd; done.
Qed.

Lemma learn_inv A v c L : Inv size A → v < size → tlog A !! a_term (nodes A v) = Some L →
  take c (a_log (nodes A v)) = take c L → c ≤ length L → known_commit A (a_term (nodes A v)) c →
  Inv size (set_node A v ((nodes A v) <| a_commit := c |>)).
Proof.
  intros I Hv HL HT Hc Hknown. destruct (inv_node _ _ I v Hv) as [Hm Hb Hcand Hl Hk].
  apply Inv_move; [done|done|apply evolves_same_log; upd; done|].
  split; upd; [done|done|done|done|]. destruct Hknown as [->|(t0 & k & Hin & Ht & Hck)]; [by left|right].
  destruct (inv_comm _ _ I _ _ Hin) as (L0 & _ & HL0 & Hk0 & _). exists t0, k, L0. upd.
  split_and!; [done|done|done|done|]. rewrite HT. eapply take_eq_mono; [exact Hck|].
  by eapply commit_agrees.
Qed.

Lemma stand_inv A v : Inv size A → v < size →
  let x := nodes A v in let t := (a_term x + 1)%N in
  Inv size ((set_node A v (mkANode t (Some v) (a_log x) Candidate (a_commit x)))
               <| cands := (t, v, a_log x) :: cands A |>
               <| grants := (t, v, v, a_log x) :: grants A |>).
Proof.
  intros I Hv x t. set (x' := mkANode t _ _ _ _). set (A' := update _ _ _).
  destruct (inv_node _ _ I v Hv) as [Hm Hb _ _ Hk].
  assert (E : ext A A').
  { split; [intros t1 L1; apply prefix_self|done|by apply list_subseteq_cons|by apply list_subseteq_cons|done|done|by left]. }
  assert (Hold : ∀ l, (t, v, l) ∈ cands A → False).
  { intros l Hl. destruct (inv_cand _ _ I _ _ _ Hl) as (_ & Ht & _). fold x in Ht. lia. }
  assert (Holdg : ∀ c l, (t, v, c, l) ∈ grants A → False).
  { intros c l Hl. destruct (inv_grant _ _ I _ _ _ _ Hl) as (_ & Ht & _). fold x in Ht. lia. }
  assert (Hnv : nodes A' v = x') by (unfold A', set_node; upd; by rewrite decide_True).
  apply (Inv_frame size A A' v x'); try done; try by left.
  - apply evolves_same_log; simpl; fold x; [done|lia|lia|lia].
  - split; simpl; [by eapply matching_mono|eapply bounded_mono; [|exact Hb]; fold x; lia| |done|].
    + intros _. split; [|done]. apply elem_of_cons. by left.
    + eapply (commit_ok_mono _ x); [done|done|simpl; lia|exact Hk].
  - intros t1 c l Hin. apply elem_of_cons in Hin as [[= -> -> ->]|?]; [right|by left].
    split_and!; [done|rewrite Hnv; simpl; lia|by eapply matching_mono| |].
    + intros i e He. pose proof (Hb i e He) as Hle. fold x in Hle. lia.
    + intros l' Hl'. apply elem_of_cons in Hl' as [[= ->]|Hl']; [done|by apply Hold in Hl'].
  - intros t1 u c l Hin. apply elem_of_cons in Hin as [[= -> -> -> ->]|?]; [right|by left].
    split_and!; [done|rewrite Hnv; simpl; lia|by rewrite Hnv| |by eapply matching_mono| |].
    + exists (a_log x). split; [apply elem_of_cons; by left|]. by right.
    + intros c' l' Hl'. apply elem_of_cons in Hl' as [[= -> ->]|Hl']; [done|by apply Holdg in Hl'].
    + intros t0 m Ha Ht0. destruct (inv_ack _ _ I _ _ _ Ha) as (_ & _ & HK).
      eapply keeps_mono; [exact E| |exact HK]. intros t2 H2. simpl in H2. fold x in H2. lia.
Qed.

Lemma vote_inv A v c l : Inv size A → v < size → let x := nodes A v in
  (a_vote x = None ∨ a_vote x = Some c) → (a_term x, c, l) ∈ cands A → up_to_date l (a_log x) →
  Inv size ((set_node A v (x <| a_vote := Some c |>))
              <| grants := (a_term x, v, c, a_log x) :: grants A |>).
Proof.
  intros I Hv x Hvote Hc Hup. set (x' := x <| a_vote := Some c |>). set (A' := update _ _ _).
  destruct (inv_node _ _ I v Hv) as [Hm Hb Hcand Hl Hk]. fold x in Hm, Hb, Hcand, Hl, Hk.
  assert (E : ext A A').
  { split; [intros t1 L1; apply prefix_self|done|done|by apply list_subseteq_cons|done|done|by left]. }
  assert (Hnv : nodes A' v = x') by (unfold A', set_node; upd; by rewrite decide_True).
  assert (Hsame : ∀ c0, a_vote x = Some c0 → c0 = c) by (intros c0 H0; destruct Hvote; congruence).
  apply (Inv_frame size A A' v x'); try done; try by left.
  - apply evolves_same_log; unfold x'; upd; fold x; [done|lia| |done].
    intros _ c0 H0. f_equal. symmetry. auto.
  - split; unfold x'; upd; [by eapply matching_mono|done| |done|done].
    intros Hr. destruct (Hcand Hr) as [H1 H2]. split; [done|]. f_equal. symmetry. auto.
  - intros t1 u c1 l1 Hin. apply elem_of_cons in Hin as [[= -> -> -> ->]|?]; [right|by left].
    split_and!; [done|by rewrite Hnv|by rewrite Hnv|by exists l|by eapply matching_mono| |].
    + intros c' l' Hl'. apply elem_of_cons in Hl' as [[= -> ->]|Hl']; [done|].
      destruct (inv_grant _ _ I _ _ _ _ Hl') as (_ & _ & H1 & _). apply Hsame. by apply H1.
    + intros t0 m Ha Ht0. destruct (inv_ack _ _ I _ _ _ Ha) as (_ & _ & HK).
      eapply keeps_mono; [exact E| |exact HK]. done.
Qed.

(** A leader, new or established, adds an entry of its term to its log, which
    becomes its term's log. *)
Lemma own_append_inv A v cmd : Inv size A → v < size → let x := nodes A v in
  let L := a_log x ++ [mkEntry (a_term x) cmd] in
  let A' := (set_node A v (x <| a_role := Leader |> <| a_log := L |>))
               <| tlog := <[a_term x := L]> (tlog A) |>
               <| tlead := <[a_term x := v]> (tlead A) |>
               <| acks := (a_term x, v, length L) :: acks A |> in
  (∀ L0, tlog A !! a_term x = Some L0 → L0 = a_log x) →
  (∀ c, tlead A !! a_term x = Some c → c = v) →
  (ext A A' → elected size A' (a_term x) L) → Inv size A'.
Proof.
  intros I Hv x L A' Hlog Hlead Hel. set (x' := x <| a_role := Leader |> <| a_log := L |>) in A'.
  destruct (inv_node _ _ I v Hv) as [Hm Hb Hcand Hl Hk]. fold x in Hm, Hb, Hcand, Hl, Hk.
  assert (HLp : a_log x `prefix_of` L) by (by eexists).
  assert (HtL : tlog A' !! a_term x = Some L) by (unfold A'; upd; by rewrite lookup_insert_eq).
  assert (Htl : tlead A' !! a_term x = Some v) by (unfold A'; upd; by rewrite lookup_insert_eq).
  assert (Hother : ∀ t, t ≠ a_term x → tlog A' !! t = tlog A !! t).
  { intros t Ht. unfold A'. upd. by rewrite lookup_insert_ne by done. }
  assert (E : ext A A').
  { split; [| |done|done|by apply list_subseteq_cons|done|].
    - intros t1 L1 H1. destruct (decide (t1 = a_term x)) as [->|Hne]; [|rewrite Hother by done; eauto].
      exists L. split; [done|]. by rewrite (Hlog _ H1).
    - intros t1 c1 H1. destruct (decide (t1 = a_term x)) as [->|Hne]; [by rewrite (Hlead _ H1)|].
      unfold A'. upd. by rewrite lookup_insert_ne by done.
    - intros t1 u m Hin. apply elem_of_cons in Hin as [[= -> -> ->]|?]; [by right|by left]. }
  assert (Hnv : nodes A' v = x') by (unfold A', set_node; upd; by rewrite decide_True).
  assert (HmL : matching A' L).
  { intros i e Hi. destruct (decide (i < length (a_log x))) as [Hlt|Hge].
    - unfold L in Hi. rewrite lookup_app_l in Hi by done. apply (matching_mono _ _ E) in Hm.
      destruct (Hm i e Hi) as (L0 & HL0 & HT). exists L0. split; [done|]. rewrite <- HT. by apply prefix_take.
    - unfold L in Hi. rewrite lookup_app_r in Hi by lia. apply list_lookup_singleton_Some in Hi as [_ <-].
      by exists L. }
  assert (HbL : bounded (a_term x) L).
  { intros i e Hi. apply lookup_app_Some in Hi as [Hi|[_ Hi]]; [by apply (Hb i)|].
    by apply list_lookup_singleton_Some in Hi as [_ <-]. }
  apply (Inv_frame size A A' v x'); try done; try by left.
  - split; unfold x'; upd; fold x; [lia|done|done|]. intros t m _ _. by apply keeps_prefix.
  - split; unfold x'; upd; [done|done|done|done|].
    apply (frame_commit_ok size A A' v I Hv E). by apply (commit_ok_prefix A x).
  - intros u Hu Hne Hr. apply Hother. intros Ht. destruct (inv_node _ _ I u Hu) as [_ _ _ H1 _].
    destruct (H1 Hr) as [_ H2]. rewrite Ht in H2. by apply Hlead in H2.
  - intros t L1 H1. destruct (decide (t = a_term x)) as [->|Hne]; [right|left; by rewrite <- Hother].
    rewrite HtL in H1. simplify_eq. auto.
  - intros t c Hc. destruct (decide (t = a_term x)) as [->|Hne].
    + right. rewrite Htl in Hc. simplify_eq. split_and!; [by eexists|done|by rewrite Hnv|by rewrite Hnv].
    + left. unfold A' in Hc. upd. by rewrite lookup_insert_ne in Hc by done.
  - intros t u m Hin. apply elem_of_cons in Hin as [[= -> -> ->]|?]; [right|by left].
    split_and!; [done|by rewrite Hnv|]. rewrite Hnv. exists L. split_and!; [done|done|]. by left.
Qed.

Lemma lead_inv A v Q cmd : Inv size A → v < size → let x := nodes A v in
  let L := a_log x ++ [mkEntry (a_term x) cmd] in
  a_role x = Candidate → quorum size Q →
  (∀ q, q ∈ Q → ∃ l, (a_term x, q, v, l) ∈ grants A) →
  Inv size ((set_node A v (x <| a_role := Leader |> <| a_log := L |>))
               <| tlog := <[a_term x := L]> (tlog A) |>
               <| tlead := <[a_term x := v]> (tlead A) |>
               <| acks := (a_term x, v, length L) :: acks A |>).
Proof.
  intros I Hv x L Hr HQ Hg. pose proof (no_second_leader _ _ _ _ I Hv Hr HQ Hg) as Hnone. fold x in Hnone.
  destruct (inv_node _ _ I v Hv) as [_ _ Hc _ _]. destruct (Hc Hr) as [Hcand _]. fold x in Hcand.
  apply own_append_inv; [done|done|fold x; intros ? HL0; congruence| |]; fold x; fold L.
  { intros c Hc0. destruct (inv_tlead _ _ I _ _ Hc0) as ([L0 HL0] & _). congruence. }
  intros E. exists v, (a_log x), Q.
  split_and!; [upd; by rewrite lookup_insert_eq|done|done|by apply take_app_length|unfold L; rewrite length_app; simpl; lia| |].
  - intros i e Hi He. unfold L in He. rewrite lookup_app_r in He by done.
    by apply list_lookup_singleton_Some in He as [_ <-].
  - intros q Hq. destruct (Hg q Hq) as (l & Hl). exists l. fold x in Hl.
    destruct (inv_grant _ _ I _ _ _ _ Hl) as (_ & Hle & _ & (lc & Hlc & Hup) & Hm & _ & HK).
    destruct (inv_cand _ _ I _ _ _ Hcand) as (_ & _ & _ & _ & Huniq). rewrite (Huniq _ Hlc) in Hup.
    split_and!; [done|done|by apply (matching_mono _ _ E)|]. intros t0 m Ha Ht0.
    destruct (ext_old _ _ E _ _ _ Ha) as [Ho|Ho]; [|lia].
    destruct (HK t0 m Ho Ht0) as (L0 & HL0 & Hm0 & HK0). apply (keeps_mono _ _ E l t0 m (λ t2, (t2 < a_term x)%N)); [done|].
    exists L0. split_and!; [done|done|]. intros k Hk.
    destruct (HK0 k Hk) as [?|(t2 & H1 & H2 & HD)]; [by left|right]. exists t2. split_and!; [done| |done].
    assert (t2 ≠ a_term x); [|lia]. intros ->. destruct HD as (L2 & ? & ? & ? & ? & HL2 & _). congruence.
Qed.

Lemma propose_inv A v cmd : Inv size A → v < size → let x := nodes A v in
  let L := a_log x ++ [mkEntry (a_term x) cmd] in
  a_role x = Leader →
  Inv size ((set_node A v (x <| a_log := L |>))
               <| tlog := <[a_term x := L]> (tlog A) |>
               <| acks := (a_term x, v, length L) :: acks A |>).
Proof.
  intros I Hv x L Hr. destruct (inv_node _ _ I v Hv) as [_ _ _ Hl _]. destruct (Hl Hr) as [HL Hlead].
  fold x in HL, Hlead.
  assert (Heq : (set_node A v (x <| a_log := L |>))
               <| tlog := <[a_term x := L]> (tlog A) |>
               <| acks := (a_term x, v, length L) :: acks A |>
             = (set_node A v (x <| a_role := Leader |> <| a_log := L |>))
               <| tlog := <[a_term x := L]> (tlog A) |>
               <| tlead := <[a_term x := v]> (tlead A) |>
               <| acks := (a_term x, v, length L) :: acks A |>).
  { rewrite (insert_id _ _ _ Hlead). destruct x as [t vo lo r co]. simpl in Hr. by subst r. }
  rewrite Heq.
  apply own_append_inv; [done|done|fold x; intros ? ?; congruence|fold x; intros ? ?; congruence|].
  fold x; fold L. intros E.
  destruct (inv_tlog _ _ I _ _ HL) as (_ & _ & Hel).
  apply (elected_mono _ _ E size _ (a_log x)); [done|by eexists| |done].
  intros i e Hi He. unfold L in He. rewrite lookup_app_r in He by done.
  by apply list_lookup_singleton_Some in He as [_ <-].
Qed.

(** A follower's commit point is never touched by what its leader makes it hold. *)
Lemma absorbs_commit A v L m l' : Inv size A → v < size → let x := nodes A v in
  tlog A !! a_term x = Some L → absorbs (a_log x) l' L m →
  take (a_commit x) l' = take (a_commit x) (a_log x).
Proof.
  intros I Hv x HL Hab. destruct (inv_node _ _ I v Hv) as [_ _ _ _ Hk]. fold x in Hk.
  pose proof (commit_ok_length _ _ I Hk) as Hlen.
  destruct Hab as [[-> _]|[-> [HP|(j & e & e' & He & He' & Hne & HT & Hjm)]]]; [done|by apply prefix_take|].
  destruct (decide (j < a_commit x)) as [Hj|Hj].
  2: { rewrite take_take, Nat.min_l by lia. symmetry. by apply (take_eq_mono _ j); [lia|]. }
  destruct Hk as [H0|(t0 & k & L0 & Hc & HL0 & Ht & Hk & HT0)]; [lia|]. exfalso. apply Hne.
  pose proof (commit_agrees _ _ _ _ _ _ _ I Hc Ht HL0 HL) as Hag.
  rewrite (lookup_take_eq _ j _ _ HT0 Hj) in He. rewrite (lookup_take_eq k j _ _ Hag) in He' by lia. congruence.
Qed.

Lemma accept_inv A v L m l' : Inv size A → v < size → let x := nodes A v in
  a_role x = Follower → tlog A !! a_term x = Some L → m ≤ length L → absorbs (a_log x) l' L m →
  Inv size ((set_node A v (x <| a_log := l' |>)) <| acks := (a_term x, v, m) :: acks A |>).
Proof.
  intros I Hv x Hr HL Hm Hab. set (x' := x <| a_log := l' |>). set (A' := update _ _ _).
  destruct (inv_node _ _ I v Hv) as [Hmat Hb Hcand Hl Hk]. fold x in Hmat, Hb, Hcand, Hl, Hk.
  assert (E : ext A A').
  { split; [intros t1 L1; apply prefix_self|done|done|done|by apply list_subseteq_cons|done|].
    intros t1 u m1 Hin. apply elem_of_cons in Hin as [[= -> -> ->]|?]; [by right|by left]. }
  assert (Hnv : nodes A' v = x') by (unfold A', set_node; upd; by rewrite decide_True).
  destruct (inv_tlog _ _ I _ _ HL) as (HmL & HbL & _).
  assert (Hml' : matching A l' ∧ bounded (a_term x) l' ∧ take m l' = take m L).
  { destruct Hab as [[-> HT]|[-> _]]; [done|]. split_and!; [by apply matching_take| |].
    - intros i e He. apply lookup_take_Some in He as [He _]. by eapply HbL.
    - by rewrite take_take, Nat.min_id. }
  destruct Hml' as (Hml & Hbl & HTl).
  apply (Inv_frame size A A' v x'); try done; try by left.
  - split; unfold x'; upd; fold x; [lia|done|done|]. intros t m1 Ha Ht HK.
    by apply (keeps_absorbs A' (a_log x) l' L m).
  - split; unfold x'; upd; [by eapply matching_mono|done|congruence|congruence|].
    apply (frame_commit_ok size A A' v I Hv E). apply (commit_ok_take A x); [done..| |done].
    by eapply absorbs_commit.
  - intros t u m1 Hin. apply elem_of_cons in Hin as [[= -> -> ->]|?]; [right|by left].
    split_and!; [done|by rewrite Hnv|]. rewrite Hnv. exists L. split_and!; [done|done|].
    intros k Hk1. left. unfold x'. upd. by apply (take_eq_mono _ m).
Qed.

Lemma commit_inv A v k Q : Inv size A → v < size → let x := nodes A v in
  a_role x = Leader → 1 ≤ k ≤ length (a_log x) → term_at_log (a_log x) k = a_term x →
  quorum size Q → (∀ q, q ∈ Q → ∃ m, k ≤ m ∧ (a_term x, q, m) ∈ acks A) →
  Inv size ((set_node A v (x <| a_commit := k |>)) <| comm := (a_term x, k) :: comm A |>).
Proof.
  intros I Hv x Hr Hk Htk HQ Ha. set (x' := x <| a_commit := k |>). set (A' := update _ _ _).
  destruct (inv_node _ _ I v Hv) as [Hmat Hb Hcand Hl Hko]. fold x in Hmat, Hb, Hcand, Hl, Hko.
  destruct (Hl Hr) as [HL Hlead].
  assert (E : ext A A').
  { split; [intros t1 L1; apply prefix_self|done|done|done|done|by apply list_subseteq_cons|by left]. }
  apply (Inv_frame size A A' v x'); try done; try by left.
  - split; unfold x'; upd; [by eapply matching_mono|done|done|done|]. right.
    exists (a_term x), k, (a_log x). upd. split_and!; [apply elem_of_cons; by left|done|done|lia|done].
  - intros t k1 Hin. apply elem_of_cons in Hin as [[= -> ->]|?]; [right|by left].
    exists (a_log x), Q. split_and!; [done|lia|lia|done|done|done].
Qed.

Lemma apply_inv A v i e : Inv size A → v < size → 1 ≤ i ≤ a_commit (nodes A v) →
  a_log (nodes A v) !! (i - 1) = Some e → Inv size (A <| apps := (v, i, e) :: apps A |>).
Proof.
  intros I Hv Hi He. set (A' := update _ _ _).
  destruct (inv_node _ _ I v Hv) as [Hm Hb Hcand Hl Hk].
  assert (E : ext A A') by (split; [intros t L; apply prefix_self|done..|by left]).
  apply (Inv_frame size A A' v (nodes A v)); try done; try by left.
  - intros u. case_decide; [by subst|done].
  - intros u i1 e1 Hin. apply elem_of_cons in Hin as [[= -> -> ->]|?]; [right|by left].
    destruct Hk as [H0|(t0 & k & L & H1 & H2 & H3 & H4 & H5)]; [lia|]. exists t0, k, L.
    split_and!; [done|done|lia|lia| |done|done]. by rewrite <- (lookup_take_eq _ (i - 1) _ _ H5) by lia.
Qed.

Lemma astep_inv A A' : Inv size A → astep size A A' → Inv size A'.
Proof.
  intros I Hstep. destruct Hstep.
  - by apply newterm_inv.
  - pose proof (stepdown_inv A v (a_commit (nodes A v)) I H (or_intror eq_refl)) as H1.
    by destruct (nodes A v).
  - by apply stand_inv.
  - by eapply vote_inv.
  - by eapply lead_inv.
  - by apply propose_inv.
  - by eapply accept_inv.
  - by eapply commit_inv.
  - by eapply learn_inv.
  - by eapply apply_inv.
  - apply stepdown_inv; auto.
Qed.

Lemma ainit_inv : Inv size ainit.
Proof.
  split; unfold ainit; simpl; try (intros; by apply elem_of_nil in H || done).
  - intros v Hv. split; simpl; [done|done|done|done|by left].
Qed.

Lemma reachable_inv A : rtc (astep size) ainit A → Inv size A.
Proof.
  intros H. remember ainit as A0 eqn:EA.
  assert (HI : Inv size A0) by (subst; apply ainit_inv). clear EA.
  induction H; [done|]. eauto using astep_inv.
Qed.
End preservation.
