(* ===== verification/RaftCluster.v ===== *)
(** * RaftCluster: a group of replicas over a lossy network and fallible disks

    A world of [size] processes, each down or running the [Raft] of Raft.v on a
    storage, and every message ever sent. Any message may be delivered at any
    time, many times or never; a process may crash and restart at any moment; a
    save may fail, leaving part of what it was told on disk. Every step of the
    world is simulated by steps of RaftSpec.v, so its safety holds of the code. *)
From S2P Require Import Prelude Text Raft RaftSpec.

(** ** What the core relies on of a storage *)

(** A save is told the log and the first index that differs from what is held. *)
Definition can_save (D : Durable) (from : Index) (l : list Entry) : Prop :=
  1 ≤ from ∧ from - 1 ≤ length (d_log D) ∧ from - 1 ≤ length l ∧ take (from - 1) l = take (from - 1) (d_log D).

(** What a save that failed may have left: nothing of it, the term and vote, or
    those and the log cut at [from - 1] with some of the entries after it. *)
Definition partial_save (D : Durable) (t : Term) (vote : option nat) (from : Index) (l : list Entry)
    (D' : Durable) : Prop :=
  D' = D ∨ D' = mkDurable t vote (d_log D)
  ∨ ∃ n, from - 1 ≤ n ≤ length l ∧ D' = mkDurable t vote (take n l).

(** [held] is what opening the storage again gives back. *)
Class StorageOk (S : Type) `{Storage S} := {
  held : S → Durable;
  save_ok st st' t vote from l :
    can_save (held st) from l → save st t vote from l = (true, st') → held st' = mkDurable t vote l;
  save_failed st st' t vote from l :
    can_save (held st) from l → save st t vote from l = (false, st') →
    partial_save (held st) t vote from l (held st');
}.

#[export, refine] Instance MemoryStorage_ok : StorageOk MemoryStorage := {| held := durable |}.
Proof.
  - intros st st' t vote from l (H1 & H2 & H3 & H4). unfold save, MemoryStorage_save.
    destruct (mem_fail st); [done|]. intros [= <-]. cbn [durable]. f_equal.
    destruct (Nat.ltb_spec (from - 1) (length (d_log (durable st)))) as [?|?].
    + rewrite <- H4. apply take_drop.
    + rewrite <- (take_ge (d_log (durable st)) (from - 1)) by lia.
      rewrite <- H4, length_take, Nat.min_l by lia. rewrite take_take, Nat.min_id. apply take_drop.
  - intros st st' t vote from l _. unfold save, MemoryStorage_save.
    destruct (mem_fail st); [|done]. intros [= <-]. by left.
Defined.

(** ** Abstract steps of one replica *)

(** The history the messages and the other replicas rely on only grows. *)
Record grows (A A' : AState) : Prop := {
  gr_tlog t L : tlog A !! t = Some L → ∃ L', tlog A' !! t = Some L' ∧ L `prefix_of` L';
  gr_tlead t c : tlead A !! t = Some c → tlead A' !! t = Some c;
  gr_cands : cands A ⊆ cands A';
  gr_grants : grants A ⊆ grants A';
  gr_acks : acks A ⊆ acks A';
  gr_comm : comm A ⊆ comm A';
  gr_apps : apps A ⊆ apps A';
}.

#[export] Instance grows_preorder : PreOrder grows.
Proof.
  split.
  - intros A. split; eauto.
  - intros A B C [H1 H0 H2 H3 H4 H5 H6] [K1 K0 K2 K3 K4 K5 K6]. split; [|auto|set_solver..].
    intros t L HL. destruct (H1 t L HL) as (L' & HL' & P). destruct (K1 t L' HL') as (L'' & HL'' & P').
    exists L''. split; [done|]. by etrans.
Qed.

Section moves.
Context (size : nat).
Implicit Types A : AState.

Lemma astep_grows A A' : Inv size A → astep size A A' → grows A A'.
Proof.
  intros HI Hstep.
  destruct Hstep as [| |v Hv x t|v c l Hv x Hvo Hc Hup|v Q cmd Hv x L Hr HQ Hg|v cmd Hv x L Hr|v L m l' Hv x Hr HL Hm Hab
    |v k Q Hv x Hr Hk Ht HQ Ha| |v i e Hv Hi He|];
    (split; [intros t1 L1 HL1|intros t1 L1 HL1|by (done || apply list_subseteq_cons)..]); upd; eauto.
  - pose proof (no_second_leader _ _ _ _ HI Hv Hr HQ Hg) as Hnone.
    destruct (decide (t1 = a_term x)) as [->|Hne]; [by unfold x in *; congruence|].
    rewrite lookup_insert_ne by done. eauto.
  - pose proof (no_second_leader _ _ _ _ HI Hv Hr HQ Hg) as Hnone.
    destruct (inv_tlead _ _ HI _ _ HL1) as ([L0 HL0] & _).
    rewrite lookup_insert_ne; [done|]. intros <-. unfold x in *. congruence.
  - destruct (no_leader _ _ _ (inv_node _ _ HI v Hv) Hr) as [HL _].
    destruct (decide (t1 = a_term x)) as [->|Hne]; [|rewrite lookup_insert_ne by done; eauto].
    rewrite lookup_insert_eq. exists L. split; [done|]. unfold x in *. rewrite HL in HL1. simplify_eq.
    by eexists.
Qed.

(** [v] moves, possibly not at all, to state [x]; everyone else stays. *)
Record moves (v : nat) (A A' : AState) : Prop := {
  mv_steps : rtc (astep size) A A';
  mv_others u : u ≠ v → nodes A' u = nodes A u;
}.

#[export] Instance moves_preorder v : PreOrder (moves v).
Proof.
  split.
  - intros A. split; [apply rtc_refl|done].
  - intros A B C [H1 H2] [K1 K2]. split; [by eapply rtc_trans|]. intros u Hu. by rewrite K2, H2.
Qed.

Lemma moves_inv v A A' : Inv size A → moves v A A' → Inv size A' ∧ grows A A'.
Proof.
  intros HI [H _]. induction H as [A|A B C H1 H2 IH]; [done|].
  destruct IH as [HI' HG]; [by eapply astep_inv|]. split; [done|]. etrans; [by apply astep_grows|done].
Qed.

Lemma set_node_same A v x : nodes (set_node A v x) v = x.
Proof. unfold set_node. upd. by rewrite decide_True. Qed.

Lemma moves_step v A A' : astep size A A' → (∀ u, u ≠ v → nodes A' u = nodes A u) → moves v A A'.
Proof. intros H Hu. split; [by apply rtc_once|done]. Qed.

Lemma set_node_other A v x u : u ≠ v → nodes (set_node A v x) u = nodes A u.
Proof. intros Hu. unfold set_node. upd. by rewrite decide_False. Qed.

(** Each step with the state it leaves. *)
Ltac one c := eexists; split; [eapply moves_step; [eapply c; eauto|by intros; apply set_node_other]|].

Lemma move_newterm A v t : v < size → (a_term (nodes A v) < t)%N →
  ∃ A', moves v A A' ∧ nodes A' v = mkANode t None (a_log (nodes A v)) Follower (a_commit (nodes A v)).
Proof. intros. one as_newterm. apply set_node_same. Qed.

Lemma move_stepdown A v : v < size →
  ∃ A', moves v A A' ∧ nodes A' v = (nodes A v) <| a_role := Follower |>.
Proof. intros. one as_stepdown. apply set_node_same. Qed.

Lemma move_stand A v : v < size → let x := nodes A v in let t := (a_term x + 1)%N in
  ∃ A', moves v A A' ∧ nodes A' v = mkANode t (Some v) (a_log x) Candidate (a_commit x)
    ∧ (t, v, a_log x) ∈ cands A' ∧ (t, v, v, a_log x) ∈ grants A'.
Proof.
  intros. one as_stand. split; [apply set_node_same|]. split; apply elem_of_cons; by left.
Qed.

Lemma move_vote A v c l : v < size → let x := nodes A v in
  (a_vote x = None ∨ a_vote x = Some c) → (a_term x, c, l) ∈ cands A → up_to_date l (a_log x) →
  ∃ A', moves v A A' ∧ nodes A' v = x <| a_vote := Some c |> ∧ (a_term x, v, c, a_log x) ∈ grants A'.
Proof.
  intros. one as_vote. split; [apply set_node_same|]. apply elem_of_cons; by left.
Qed.

Lemma move_lead A v Q cmd : v < size → let x := nodes A v in
  let L := a_log x ++ [mkEntry (a_term x) cmd] in
  a_role x = Candidate → quorum size Q → (∀ q, q ∈ Q → ∃ l, (a_term x, q, v, l) ∈ grants A) →
  ∃ A', moves v A A' ∧ nodes A' v = x <| a_role := Leader |> <| a_log := L |>
    ∧ (a_term x, v, length L) ∈ acks A'.
Proof.
  intros. one as_lead. split; [apply set_node_same|]. apply elem_of_cons; by left.
Qed.

Lemma move_propose A v cmd : v < size → let x := nodes A v in
  let L := a_log x ++ [mkEntry (a_term x) cmd] in
  a_role x = Leader →
  ∃ A', moves v A A' ∧ nodes A' v = x <| a_log := L |> ∧ (a_term x, v, length L) ∈ acks A'.
Proof.
  intros. one as_propose. split; [apply set_node_same|]. apply elem_of_cons; by left.
Qed.

Lemma move_accept A v L m l' : v < size → let x := nodes A v in
  a_role x = Follower → tlog A !! a_term x = Some L → m ≤ length L → absorbs (a_log x) l' L m →
  ∃ A', moves v A A' ∧ nodes A' v = x <| a_log := l' |> ∧ (a_term x, v, m) ∈ acks A'
    ∧ tlog A' = tlog A ∧ comm A' = comm A.
Proof.
  intros. one as_accept. split; [apply set_node_same|]. split; [apply elem_of_cons; by left|done].
Qed.

Lemma move_commit A v k Q : v < size → let x := nodes A v in
  a_role x = Leader → 1 ≤ k ≤ length (a_log x) → term_at_log (a_log x) k = a_term x →
  quorum size Q → (∀ q, q ∈ Q → ∃ m, k ≤ m ∧ (a_term x, q, m) ∈ acks A) →
  ∃ A', moves v A A' ∧ nodes A' v = x <| a_commit := k |>.
Proof. intros. one as_commit. apply set_node_same. Qed.

Lemma move_learn A v c L : v < size → let x := nodes A v in
  tlog A !! a_term x = Some L → take c (a_log x) = take c L → c ≤ length L → known_commit A (a_term x) c →
  ∃ A', moves v A A' ∧ nodes A' v = x <| a_commit := c |>.
Proof. intros. one as_learn. apply set_node_same. Qed.

Lemma move_apply A v i e : v < size → 1 ≤ i ≤ a_commit (nodes A v) → a_log (nodes A v) !! (i - 1) = Some e →
  ∃ A', moves v A A' ∧ nodes A' v = nodes A v ∧ (v, i, e) ∈ apps A'.
Proof.
  intros. eexists. split; [eapply moves_step; [by eapply (as_apply size A v i e)|done]|].
  split; [done|]. apply elem_of_cons; by left.
Qed.

Lemma move_crash A v : v < size →
  ∃ A', moves v A A' ∧ nodes A' v = (nodes A v) <| a_role := Follower |> <| a_commit := 0 |>.
Proof. intros. one as_crash. apply set_node_same. Qed.
End moves.

(** ** The world *)

Inductive Process (S : Type) := Down (st : S) | Up (s : Raft S).
Arguments Down {S}. Arguments Up {S}.

Inductive Msg :=
  | MCall (from : nat) (o : Outgoing)
  | MVoteReply (from to : nat) (sent : VoteRequest) (reply : VoteReply)
  | MAppendReply (from to : nat) (sent : AppendRequest) (reply : AppendReply).

Record World (S : Type) := mkWorld {
  procs : nat → Process S;
  net : list Msg;                              (* every message sent so far *)
  handed : list (nat * Index * Entry);         (* what each replica handed to its state machine *)
}.
Arguments mkWorld {S}. Arguments procs {S}. Arguments net {S}. Arguments handed {S}.

(** The group's configuration: replica [v] is told its own number and the size. *)
Class GroupConfig (size : nat) := {
  conf : nat → RaftConfig;
  conf_id v : cfg_id (conf v) = v;
  conf_size v : cfg_size (conf v) = size;
}.

Section world.
Context {S : Type} `{StorageOk S} (size : nat) `{GroupConfig size}.
Implicit Types W : World S.

(** A replica has handled an input: its calls go out, its entries are applied. *)
Definition settle W (v : nat) (s : Raft S) (replies : list Msg) : World S :=
  mkWorld (λ u, if decide (u = v) then Up (s <| out := [] |> <| applied_out := [] |>) else procs W u)
    (net W ++ (MCall v <$> out s) ++ replies)
    (handed W ++ ((λ '(i, e), (v, i, e)) <$> applied_out s)).

Definition replace_proc W (v : nat) (p : Process S) : World S :=
  mkWorld (λ u, if decide (u = v) then p else procs W u) (net W) (handed W).

(** One event. [now] is any time: no clock is trusted. *)
Inductive wstep W : World S → Prop :=
| w_tick v s now :
    v < size → procs W v = Up s → (term s + 1 < W64N)%N →
    wstep W (settle W v (tick s now) [])
| w_vote v from req s now r s' :
    v < size → procs W v = Up s → MCall from (OutVote v req) ∈ net W →
    handle_vote s req now = (r, s') → wstep W (settle W v s' [MVoteReply v from req r])
| w_append v from req s now r s' :
    v < size → procs W v = Up s → MCall from (OutAppend v req) ∈ net W →
    handle_append s req now = (r, s') → wstep W (settle W v s' [MAppendReply v from req r])
| w_vote_reply v from sent r s now :
    v < size → procs W v = Up s → MVoteReply from v sent r ∈ net W →
    wstep W (settle W v (handle_vote_reply s from sent r now) [])
| w_append_reply v from sent r s now :
    v < size → procs W v = Up s → MAppendReply from v sent r ∈ net W →
    wstep W (settle W v (handle_append_reply s from sent r now) [])
| w_failed v to sent s now :
    v < size → procs W v = Up s →
    wstep W (settle W v (call_failed s to sent now) [])
| w_propose v command s now :
    v < size → procs W v = Up s → wstep W (settle W v (propose s command now).2 [])
| w_read v id s now :
    v < size → procs W v = Up s → wstep W (settle W v (read s id now).2 [])
| w_take_reads v s :
    v < size → procs W v = Up s → wstep W (settle W v (take_reads s).2 [])
| w_crash v s :
    v < size → procs W v = Up s → wstep W (replace_proc W v (Down (storage s)))
| w_start v st rs now :
    v < size → procs W v = Down st → (d_term (held st) + 1 < W64N)%N →
    wstep W (settle W v (raft_init (conf v) st (held st) rs now) [])
| w_disk v s st :
    (* the disk starts or stops failing; what it holds stays *)
    v < size → procs W v = Up s → held st = held (storage s) →
    wstep W (replace_proc W v (Up (s <| storage := st |>))).

(** Every process down, on an empty disk. *)
Definition winit W : Prop :=
  (∀ v, ∃ st, procs W v = Down st ∧ held st = mkDurable 0 None []) ∧ net W = [] ∧ handed W = [].

Definition wreach W : Prop := ∃ W0, winit W0 ∧ rtc wstep W0 W.

(** ** What a message means *)

Definition call_ok (A : AState) (from : nat) (o : Outgoing) : Prop :=
  match o with
  | OutVote _ r => vq_candidate r = from ∧ ∃ l, (vq_term r, from, l) ∈ cands A
      ∧ vq_last_index r = length l ∧ vq_last_term r = last_term l
  | OutAppend _ r => ∃ L, tlog A !! aq_term r = Some L
      ∧ aq_prev_index r + length (aq_entries r) ≤ length L
      ∧ aq_prev_term r = term_at_log L (aq_prev_index r)
      ∧ aq_entries r = take (length (aq_entries r)) (drop (aq_prev_index r) L)
      ∧ known_commit A (aq_term r) (aq_commit r)
  end.

Definition msg_ok (A : AState) (m : Msg) : Prop :=
  match m with
  | MCall from o => call_ok A from o
  | MVoteReply from to sent r => vr_granted r = true → from < size ∧
      vq_candidate sent = to ∧ ∃ l, (vq_term sent, from, to, l) ∈ grants A
  | MAppendReply from to sent r => from < size ∧ (ar_success r = true →
      (aq_term sent, from, aq_prev_index sent + length (aq_entries sent)) ∈ acks A)
  end.

(** ** A replica between inputs, and inside one *)

(** The highest index a replica has known committed since it started: its commit
    index may fall back behind what it has applied. *)
Definition reached (s : Raft S) : Index := Nat.max (commit s) (applied s).

(** Inside an input: the abstract state [A] already has what the replica has in
    memory, the disk still holds [D]. *)
Record live (A : AState) (v : nat) (s : Raft S) (D : Durable) : Prop := {
  lv_run : stopped s = false;
  lv_cfg : cfg s = conf v;
  lv_node : nodes A v = mkANode (term s) (voted_for s) (log s) (role s) (reached s);
  lv_votes p : role s = Candidate → votes s !! p = Some true → p < size ∧ ∃ l, (term s, p, v, l) ∈ grants A;
  lv_len : length (next s) = size ∧ length (matched s) = size ∧ length (votes s) = size;
  lv_next p : role s = Leader → p < size → 1 ≤ next s !!! p ≤ length (log s) + 1;
  lv_matched p : role s = Leader → p < size →
    matched s !!! p = 0 ∨ ∃ m, matched s !!! p ≤ m ∧ (term s, p, m) ∈ acks A;
  lv_self : role s = Leader → ∃ m, length (log s) ≤ m ∧ (term s, v, m) ∈ acks A;
  lv_out : Forall (call_ok A v) (out s);
  lv_held : held (storage s) = D;
  lv_clean : dirty s = false → dirty_from s = 0 ∧ D = mkDurable (term s) (voted_for s) (log s);
  lv_meta : dirty_from s = 0 → d_log D = log s;
  lv_from : dirty_from s ≠ 0 → can_save D (dirty_from s) (log s);
  lv_applied : applied_out s = [];
}.

Definition at_disk (x : ANode) (D : Durable) : Prop :=
  a_term x = d_term D ∧ a_vote x = d_voted_for D ∧ a_log x = d_log D.

(** Between inputs: running on what is on disk, or stopped, or down. *)
Definition proc_ok (A : AState) (v : nat) (p : Process S) : Prop :=
  match p with
  | Up s =>
      if stopped s then at_disk (nodes A v) (held (storage s)) ∧ out s = [] ∧ applied_out s = []
      else live A v s (held (storage s)) ∧ dirty s = false
  | Down st => at_disk (nodes A v) (held st)
  end.

Record sim (A : AState) W : Prop := {
  sim_procs v : v < size → proc_ok A v (procs W v);
  sim_net : Forall (msg_ok A) (net W);
  sim_handed : Forall (λ x, x ∈ apps A) (handed W);
}.

(** ** Growth of the history keeps everything true *)

Lemma known_commit_mono A A' t c : grows A A' → known_commit A t c → known_commit A' t c.
Proof.
  intros G [?|(t0 & k & Hin & ? & ?)]; [by left|right]. exists t0, k. split; [by apply (gr_comm _ _ G)|done].
Qed.

Lemma call_ok_mono A A' v o : grows A A' → call_ok A v o → call_ok A' v o.
Proof.
  intros G. destruct o as [to r|to r]; simpl.
  - intros (Hc & l & Hin & Hrest). split; [done|]. exists l. split; [by apply (gr_cands _ _ G)|done].
  - intros (L & HL & Hlen & Hpt & He & Hk). destruct (gr_tlog _ _ G _ _ HL) as (L' & HL' & HP).
    exists L'. pose proof (prefix_length _ _ HP). split_and!; [done|lia| | |by eapply known_commit_mono].
    + rewrite Hpt. apply (term_at_eq L L' (aq_prev_index r)); [|done]. symmetry. apply prefix_take; [done|lia].
    + rewrite He at 1. rewrite !take_drop_commute. f_equal. symmetry. apply prefix_take; [done|lia].
Qed.

Lemma msg_ok_mono A A' m : grows A A' → msg_ok A m → msg_ok A' m.
Proof.
  intros G. destruct m as [v o|from to sent r|from to sent r]; simpl.
  - by apply call_ok_mono.
  - intros Hm Hg. destruct (Hm Hg) as (Hf & Hto & l & Hl). split_and!; [done|done|]. exists l.
    by apply (gr_grants _ _ G).
  - intros [Hf Hm]. split; [done|]. intros Hs. by apply (gr_acks _ _ G), Hm.
Qed.

(** A replica whose abstract state follows a change of its commit index. *)
Lemma live_mono A A' v s D c : grows A A' → nodes A' v = (nodes A v) <| a_commit := Nat.max c (applied s) |> →
  live A v s D → live A' v (s <| commit := c |>) D.
Proof.
  intros G En [R1 R2 R3 R4 R5 R6 R7 R8 R9 R10 R11 R12 R13 R14]. split; upd; try done.
  - by rewrite En, R3.
  - intros p Hr Hp. destruct (R4 p Hr Hp) as (Hlt & l & Hl). split; [done|]. exists l. by apply (gr_grants _ _ G).
  - intros p Hr Hp. destruct (R7 p Hr Hp) as [?|(m & Hm & Ha)]; [by left|right]. exists m.
    split; [done|by apply (gr_acks _ _ G)].
  - intros Hr. destruct (R8 Hr) as (m & Hm & Ha). exists m. split; [done|by apply (gr_acks _ _ G)].
  - eapply Forall_impl; [exact R9|]. intros o. by apply call_ok_mono.
Qed.

Lemma live_mono_same A A' v s D : grows A A' → nodes A' v = nodes A v → live A v s D → live A' v s D.
Proof.
  intros G En HL. pose proof (lv_node _ _ _ _ HL) as Hn.
  replace s with (s <| commit := commit s |>) by (by destruct s).
  eapply live_mono; [exact G| |exact HL]. rewrite En, Hn. done.
Qed.

Lemma proc_ok_mono A A' v p : grows A A' → nodes A' v = nodes A v → proc_ok A v p → proc_ok A' v p.
Proof.
  intros G En. destruct p as [st|s]; simpl; rewrite ?En; [done|]. destruct (stopped s); [done|].
  intros [HL Hd]. split; [by eapply live_mono_same|done].
Qed.

(** What one input has to show of the replica it leaves. *)
Definition handled (A0 : AState) (v : nat) (s' : Raft S) (A' : AState) : Prop :=
  moves size v A0 A' ∧ proc_ok A' v (Up (s' <| out := [] |> <| applied_out := [] |>))
  ∧ Forall (call_ok A' v) (out s') ∧ Forall (λ '(i, e), (v, i, e) ∈ apps A') (applied_out s').

Lemma settle_sim A0 A' W v s' replies :
  Inv size A0 → sim A0 W → handled A0 v s' A' → Forall (msg_ok A') replies →
  sim A' (settle W v s' replies).
Proof.
  intros HI [K1 K2 K3] (Hmv & Hp & Ho & Ha) Hr. destruct (moves_inv _ _ _ _ HI Hmv) as [HI' G].
  split; unfold settle; cbn [procs net handed].
  - intros u Hu. case_decide as Hd; [by subst|]. eapply proc_ok_mono; [done|by apply (mv_others _ _ _ _ Hmv)|auto].
  - apply Forall_app. split; [eapply Forall_impl; [exact K2|intros m; by apply msg_ok_mono]|].
    apply Forall_app. split; [|done]. apply Forall_fmap. exact Ho.
  - apply Forall_app. split.
    + eapply Forall_impl; [exact K3|]. intros x. apply (gr_apps _ _ G).
    + apply Forall_fmap. eapply Forall_impl; [exact Ha|]. by intros [i e].
Qed.
End world.
