(* ===== verification/RaftRefine.v ===== *)
(** * RaftRefine: every input of a replica is steps of the protocol

    For each method of raft.cpp: if the replica, its disk and the protocol state
    correspond before the input, there are protocol steps after which they
    correspond again, whatever the disk did. *)
From S2P Require Import Prelude Text Raft RaftSpec RaftCluster.

Section refine.
Context {S : Type} `{StorageOk S} (size : nat) `{GroupConfig size}.
Implicit Types s : Raft S.

Abbreviation live := (live size) (only parsing).

(** ** Arithmetic of the log on disk *)

Definition save_from s : Index := if dirty_from s =? 0 then last_index s + 1 else dirty_from s.

Lemma live_can_save A v s D : live A v s D → can_save D (save_from s) (log s).
Proof.
  intros HL. unfold save_from, last_index, can_save. destruct (Nat.eqb_spec (dirty_from s) 0) as [E|E].
  - pose proof (lv_meta _ _ _ _ _ HL E) as ->. split_and!; [lia|lia|lia|done].
  - by apply (lv_from _ _ _ _ _ HL).
Qed.

(** Whatever a failing save leaves on disk is a protocol state [A0] can reach. *)
Definition recovers (A0 : AState) (v : nat) (D : Durable) s : Prop :=
  ∀ D', partial_save D (term s) (voted_for s) (save_from s) (log s) D' →
    ∃ A1, moves size v A0 A1 ∧ at_disk (nodes A1 v) D'.

(** The input changed at most the term and the vote. *)
Lemma recovers_meta A0 A v D s :
  at_disk (nodes A0 v) D → moves size v A0 A → live A v s D → dirty_from s = 0 → recovers A0 v D s.
Proof.
  intros HD Hm HL Hf D' Hp. pose proof (lv_node _ _ _ _ _ HL) as Hn. pose proof (lv_meta _ _ _ _ _ HL Hf) as HDl.
  destruct Hp as [->|[->|(n & Hlen & ->)]].
  - exists A0. split; [reflexivity|done].
  - exists A. split; [done|]. rewrite Hn, HDl. done.
  - exists A. split; [done|]. rewrite Hn. split_and!; [done|done|]. cbn [a_log d_log].
    unfold save_from in Hlen. rewrite Hf in Hlen. simpl in Hlen. unfold last_index in Hlen.
    by rewrite take_ge by lia.
Qed.

Lemma proc_ok_stopped A v s : stopped s = true → at_disk (nodes A v) (held (storage s)) → out s = [] →
  applied_out s = [] → proc_ok size A v (Up s).
Proof. intros E Hd Ho Ha. unfold proc_ok. by rewrite E. Qed.

(** ** The end of every step *)

Lemma length_matched s n : length (filter (λ p, n ≤ matched s !!! p) (peers s)) =
  base.size (list_to_set (filter (λ p, n ≤ matched s !!! p) (peers s)) : gset nat).
Proof.
  rewrite size_list_to_set; [done|]. apply NoDup_filter, NoDup_filter, NoDup_seq.
Qed.

Lemma advance_commit_from_spec s n k : advance_commit_from s n = Some k →
  commit s < k ≤ n ∧ term_at s k = term s
  ∧ majority s (1 + length (filter (λ p, k ≤ matched s !!! p) (peers s))) = true.
Proof.
  induction n as [|n IH]; cbn [advance_commit_from]; [done|].
  destruct (Nat.leb_spec (Datatypes.S n) (commit s)); [done|].
  destruct (N.eqb_spec (term_at s (Datatypes.S n)) (term s)) as [E|]; [|done]. cbn [negb].
  case_match eqn:Hmaj.
  - intros [= <-]. split_and!; [lia|lia|done|done].
  - intros Hk. destruct (IH Hk) as (? & ? & ?). split_and!; [lia|lia|done|done].
Qed.

Lemma advance_commit_sim A v s D : Inv size A → v < size → live A v s D → role s = Leader →
  ∃ A', moves size v A A' ∧ live A' v (advance_commit s) D.
Proof.
  intros HI Hv HL Hr. unfold advance_commit. destruct (advance_commit_from s (last_index s)) as [k|] eqn:Hk.
  2: { exists A. split; [reflexivity|done]. }
  destruct (advance_commit_from_spec _ _ _ Hk) as (Hlt & Ht & Hmaj). pose proof (lv_node _ _ _ _ _ HL) as Hn.
  pose proof (lv_cfg _ _ _ _ _ HL) as Hcfg.
  destruct (decide (k ≤ applied s)) as [Hka|Hka].
  { exists A. split; [reflexivity|]. eapply live_mono; [reflexivity| |done]. rewrite Hn. unfold reached. upd.
    by rewrite !Nat.max_r by lia. }
  set (P := filter (λ p, k ≤ matched s !!! p) (peers s)) in *.
  assert (HP : ∀ p, p ∈ P → k ≤ matched s !!! p ∧ p ≠ v ∧ p < size).
  { intros p Hp. apply list_elem_of_filter in Hp as [Hp1 Hp]. apply list_elem_of_filter in Hp as [Hp2 Hp].
    apply elem_of_seq in Hp. rewrite Hcfg, conf_id in Hp2. rewrite Hcfg, conf_size in Hp. split_and!; [done|done|lia]. }
  destruct (move_commit size A v k ({[v]} ∪ list_to_set P) Hv) as (A' & Hm & Hn'); rewrite ?Hn; cbn.
  - done.
  - unfold last_index in Hlt. lia.
  - done.
  - split.
    + intros q Hq. apply elem_of_union in Hq as [Hq|Hq]; [apply elem_of_singleton in Hq; by subst|].
      apply elem_of_list_to_set in Hq. by apply HP.
    + rewrite size_union, size_singleton.
      2: { apply disjoint_singleton_l. intros Hin. apply elem_of_list_to_set, HP in Hin. tauto. }
      pose proof (length_matched s k) as HlP. fold P in HlP. rewrite <- HlP. unfold majority in Hmaj. rewrite Hcfg, conf_size in Hmaj. blia.
  - intros q Hq. apply elem_of_union in Hq as [Hq|Hq].
    + apply elem_of_singleton in Hq. subst q. destruct (lv_self _ _ _ _ _ HL Hr) as (m & Hm & Ha).
      exists m. split; [unfold last_index in Hlt; lia|done].
    + apply elem_of_list_to_set, HP in Hq as (Hq1 & _ & Hq2).
      destruct (lv_matched _ _ _ _ _ HL q Hr Hq2) as [?|(m & Hm & Ha)]; [lia|]. exists m. split; [lia|done].
  - exists A'. split; [done|]. destruct (moves_inv _ _ _ _ HI Hm) as [_ G]. eapply live_mono; [exact G| |done].
    rewrite Hn', Hn, Nat.max_l by lia. done.
Qed.

(** Entries handed to the state machine are recorded one by one. *)
Lemma apply_sim A v (ix : list nat) : Inv size A → v < size →
  Forall (λ i, 1 ≤ i ≤ a_commit (nodes A v)) ix →
  ∃ A', moves size v A A' ∧ nodes A' v = nodes A v
    ∧ Forall (λ '(i, e), (v, i, e) ∈ apps A') ((λ i, (i, a_log (nodes A v) !!! (i - 1))) <$> ix).
Proof.
  intros HI Hv. revert A HI. induction ix as [|i ix IH]; intros A HI Hall.
  { exists A. split_and!; [reflexivity|done|constructor]. }
  apply Forall_cons in Hall as [Hi Hall].
  pose proof (commit_ok_length _ _ _ HI (no_commit _ _ _ (inv_node _ _ HI v Hv))) as Hlen.
  destruct (lookup_lt_is_Some_2 (a_log (nodes A v)) (i - 1)) as [e He]; [lia|].
  destruct (move_apply size A v i e Hv Hi He) as (A1 & Hm1 & Hn1 & Ha1).
  destruct (moves_inv _ _ _ _ HI Hm1) as [HI1 _].
  destruct (IH A1 HI1) as (A2 & Hm2 & Hn2 & Ha2); [by rewrite Hn1|].
  destruct (moves_inv _ _ _ _ HI1 Hm2) as [_ G2]. exists A2.
  split_and!; [by etrans|congruence|]. cbn. constructor; [|by rewrite Hn1 in Ha2].
  rewrite (list_lookup_total_correct _ _ _ He). by apply (gr_apps _ _ G2).
Qed.

Lemma apply_committed_sim A v s D : Inv size A → v < size → live A v s D →
  let s' := apply_committed s in
  ∃ A', moves size v A A' ∧ live A' v (s' <| applied_out := [] |>) D
    ∧ Forall (λ '(i, e), (v, i, e) ∈ apps A') (applied_out s').
Proof.
  intros HI Hv HL s'. pose proof (lv_node _ _ _ _ _ HL) as Hn.
  destruct (apply_sim A v (seq (applied s + 1) (commit s - applied s)) HI Hv) as (A' & Hm & Hn' & Ha).
  { apply Forall_forall. intros i Hi. apply elem_of_seq in Hi. rewrite Hn. cbn. unfold reached. lia. }
  destruct (moves_inv _ _ _ _ HI Hm) as [_ G]. exists A'. split; [done|]. split.
  - apply (live_mono_same _ _ _ _ _ _ G Hn') in HL. destruct HL. split; try assumption; [|done].
    rewrite lv_node. f_equal. unfold s', reached, apply_committed. upd. lia.
  - unfold s', apply_committed. upd. rewrite (lv_applied _ _ _ _ _ HL). cbn [app]. by rewrite Hn in Ha.
Qed.

Lemma resolve_reads_frame A v s D : live A v (s <| applied_out := [] |>) D →
  live A v ((resolve_reads s) <| applied_out := [] |>) D
  ∧ applied_out (resolve_reads s) = applied_out s ∧ dirty (resolve_reads s) = dirty s.
Proof.
  intros HL. unfold resolve_reads, fail_reads. split_ifs; [done|..];
    (split; [destruct HL; by split|done]).
Qed.

Lemma settled_ok A v s D : live A v (s <| applied_out := [] |>) D → dirty s = false →
  proc_ok size A v (Up (s <| out := [] |> <| applied_out := [] |>)).
Proof.
  intros HL Hd. unfold proc_ok. upd. pose proof (lv_run _ _ _ _ _ HL) as Hr. upd. rewrite Hr.
  split; [|done]. pose proof (lv_held _ _ _ _ _ HL) as Hh. upd. rewrite Hh. destruct HL. split; try assumption.
  upd. constructor.
Qed.

Lemma commit_and_apply_sim A v s D : Inv size A → v < size → live A v s D → dirty s = false →
  ∃ A', handled size A v (commit_and_apply s) A' ∧ stopped (commit_and_apply s) = false.
Proof.
  intros HI Hv HL Hd.
  assert (HC : ∃ A1, moves size v A A1 ∧ live A1 v (if bool_decide (role s = Leader) then advance_commit s else s) D).
  { case_bool_decide; [by apply advance_commit_sim|]. exists A. split; [reflexivity|done]. }
  destruct HC as (A1 & Hm1 & HL1). destruct (moves_inv _ _ _ _ HI Hm1) as [HI1 _].
  destruct (apply_committed_sim A1 v _ D HI1 Hv HL1) as (A2 & Hm2 & HL2 & Ha2).
  destruct (resolve_reads_frame _ _ _ _ HL2) as (HL3 & Ea & Ed). exists A2.
  fold (commit_and_apply s) in HL3, Ea, Ed.
  assert (Hdirty : dirty (commit_and_apply s) = false).
  { rewrite Ed. change (dirty (if bool_decide (role s = Leader) then advance_commit s else s) = false).
    unfold advance_commit. by repeat case_match. }
  split; [|exact (lv_run _ _ _ _ _ HL3)]. split; [by etrans|]. split; [by eapply settled_ok|].
  split; [exact (lv_out _ _ _ _ _ HL3)|]. by rewrite Ea.
Qed.

(** *** [finish], case by case *)

Definition saved s (st : S) : Raft S := s <| storage := st |> <| dirty := false |> <| dirty_from := 0 |>.

Lemma finish_clean s : stopped s = false → dirty s = false → finish s = commit_and_apply s.
Proof. intros E1 E2. unfold finish. by rewrite E1, E2. Qed.

Lemma finish_saved s st : stopped s = false → dirty s = true →
  save (storage s) (term s) (voted_for s) (save_from s) (log s) = (true, st) →
  finish s = commit_and_apply (saved s st).
Proof. intros E1 E2 E3. unfold finish. rewrite E1, E2. fold (save_from s). by rewrite E3. Qed.

Lemma finish_failed s st : stopped s = false → dirty s = true →
  save (storage s) (term s) (voted_for s) (save_from s) (log s) = (false, st) →
  storage (finish s) = st ∧ stopped (finish s) = true ∧ out (finish s) = []
  ∧ applied_out (finish s) = applied_out s.
Proof. intros E1 E2 E3. unfold finish. rewrite E1, E2. fold (save_from s). by rewrite E3. Qed.

Lemma live_saved A v s st D : live A v s D → held st = mkDurable (term s) (voted_for s) (log s) →
  live A v (saved s st) (held st).
Proof.
  intros HL Hheld. unfold saved. destruct HL. split; upd; try assumption; try done. by rewrite Hheld.
Qed.

Lemma finish_sim A0 A v s D :
  Inv size A0 → v < size → moves size v A0 A → live A v s D → recovers A0 v D s →
  ∃ A', handled size A0 v (finish s) A' ∧ (stopped (finish s) = false → moves size v A A').
Proof.
  intros HI Hv Hm HL HR. destruct (moves_inv _ _ _ _ HI Hm) as [HIA _].
  assert (HP : ∀ s1 D1, live A v s1 D1 → dirty s1 = false →
    ∃ A', handled size A0 v (commit_and_apply s1) A'
      ∧ (stopped (commit_and_apply s1) = false → moves size v A A')).
  { intros s1 D1 HL1 Hd1. destruct (commit_and_apply_sim A v s1 D1 HIA Hv HL1 Hd1) as (A' & (Hm' & Hrest) & _).
    exists A'. split; [|done]. split; [by etrans|done]. }
  pose proof (lv_run _ _ _ _ _ HL) as Hrun.
  destruct (dirty s) eqn:Hd; [|rewrite finish_clean by done; by apply (HP s D)].
  pose proof (live_can_save _ _ _ _ HL) as Hcan. rewrite <- (lv_held _ _ _ _ _ HL) in Hcan.
  destruct (save (storage s) (term s) (voted_for s) (save_from s) (log s)) as [[] st] eqn:Hsave.
  - rewrite (finish_saved s st) by done.
    pose proof (save_ok _ _ _ _ _ _ Hcan Hsave) as Hheld. apply (HP _ (held st)); [|done].
    by apply live_saved with D.
  - destruct (finish_failed s st Hrun Hd Hsave) as (Hst & Hstop & Ho & Ha).
    pose proof (save_failed _ _ _ _ _ _ Hcan Hsave) as Hpart. rewrite (lv_held _ _ _ _ _ HL) in Hpart.
    destruct (HR _ Hpart) as (A1 & Hm1 & Hd1). exists A1. split; [|congruence].
    rewrite (lv_applied _ _ _ _ _ HL) in Ha. split_and!; [done| |by rewrite Ho|by rewrite Ha].
    apply proc_ok_stopped; upd; [done| |done|done]. by rewrite Hst.
Qed.

(** ** Inputs that leave the log alone *)

Definition abs_of s : ANode := mkANode (term s) (voted_for s) (log s) (role s) (reached s).

(** [s'] differs from [s] in timers, in its term, vote and commit index, in
    having stepped down, in nothing else the protocol sees. *)
Record frame s s' : Prop := {
  fr_stopped : stopped s' = stopped s;
  fr_cfg : cfg s' = cfg s;
  fr_log : log s' = log s;
  fr_out : out s' = out s;
  fr_storage : storage s' = storage s;
  fr_from : dirty_from s' = dirty_from s;
  fr_applied : applied_out s' = applied_out s;
  fr_next : next s' = next s;
  fr_matched : matched s' = matched s;
  fr_votes : votes s' = votes s;
  fr_dirty : dirty s' = false → dirty s = false ∧ term s' = term s ∧ voted_for s' = voted_for s;
  fr_role : role s' = Follower ∨ role s' = role s ∧ term s' = term s;
}.

Lemma frame_refl s : frame s s.
Proof. split; auto. Qed.

Lemma frame_trans s1 s2 s3 : frame s1 s2 → frame s2 s3 → frame s1 s3.
Proof.
  intros [A1 A2 A3 A4 A5 A6 A7 A8 A9 A12 A10 A11] [B1 B2 B3 B4 B5 B6 B7 B8 B9 B12 B10 B11]. split; try congruence.
  - intros E. destruct (B10 E) as (E1 & ? & ?). destruct (A10 E1) as (? & ? & ?). split_and!; congruence.
  - destruct B11 as [?|(E1 & ?)]; [by left|]. destruct A11 as [?|(? & ?)]; [left; congruence|].
    right. split_and!; congruence.
Qed.

Lemma live_frame A A' v s s' D : grows A A' → nodes A' v = abs_of s' → frame s s' →
  live A v s D → live A' v s' D.
Proof.
  intros G Hn [F1 F2 F3 F4 F5 F6 F7 F8 F9 F12 F10 F11] [R1 R2 R3 R4 R5 R6 R7 R8 R9 R10 R11 R12 R13 R14].
  assert (HG : ∀ x, x ∈ grants A → x ∈ grants A') by (apply (gr_grants _ _ G)).
  assert (HA : ∀ x, x ∈ acks A → x ∈ acks A') by (apply (gr_acks _ _ G)).
  unfold abs_of in Hn. rewrite F3 in Hn.
  split; rewrite ?F1, ?F2, ?F3, ?F4, ?F5, ?F6, ?F7, ?F8, ?F9, ?F12; try done.
  - intros p Hr. destruct F11 as [?|(E1 & E2)]; [congruence|]. rewrite E2. rewrite Hr in E1.
    intros Hp. destruct (R4 p (eq_sym E1) Hp) as (? & l & ?). split; [done|]. exists l. by apply HG.
  - intros p Hr. destruct F11 as [?|(E1 & E2)]; [congruence|]. apply R6. congruence.
  - intros p Hr Hp. destruct F11 as [?|(E1 & E2)]; [congruence|]. rewrite E2.
    destruct (R7 p) as [?|(m & ? & ?)]; [congruence|done|by left|]. right. exists m. split; [done|by apply HA].
  - intros Hr. destruct F11 as [?|(E1 & E2)]; [congruence|]. rewrite E2.
    destruct R8 as (m & ? & ?); [congruence|]. exists m. split; [done|by apply HA].
  - eapply Forall_impl; [exact R9|]. intros o. by apply call_ok_mono.
  - intros Hd. destruct (F10 Hd) as (Hd0 & -> & ->). by apply R11.
Qed.

Lemma become_follower_frame s t l now : frame s (become_follower s t l now).
Proof.
  unfold become_follower. destruct (term s <? t)%N; case_bool_decide as Hr; cbn [negb];
    (split; try reflexivity; [discriminate || by intros ?|by left + (right; split_and!)]).
Qed.

Lemma become_follower_spec s t l now : let s' := become_follower s t l now in
  role s' = Follower ∧ term s' = (if (term s <? t)%N then t else term s) ∧ log s' = log s ∧ reached s' = reached s
  ∧ voted_for s' = (if (term s <? t)%N then None else voted_for s).
Proof.
  cbv zeta. unfold become_follower. destruct (term s <? t)%N; case_bool_decide as Hr; cbn [negb];
    (split; [reflexivity || exact Hr|split_and!; reflexivity]).
Qed.

Lemma become_follower_sim A v s D t l now : Inv size A → v < size → live A v s D →
  ∃ A', moves size v A A' ∧ nodes A' v = abs_of (become_follower s t l now).
Proof.
  intros HI Hv HL. destruct (become_follower_spec s t l now) as (E1 & E2 & E3 & E4 & E5).
  pose proof (lv_node _ _ _ _ _ HL) as Hn. unfold abs_of. rewrite E1, E2, E3, E4, E5.
  destruct (N.ltb_spec (term s) t) as [Ht|Ht].
  - destruct (move_newterm size A v t Hv) as (A' & Hm & Hn'); [by rewrite Hn|]. exists A'. split; [done|].
    by rewrite Hn', Hn.
  - destruct (move_stepdown size A v Hv) as (A' & Hm & Hn'). exists A'. split; [done|].
    by rewrite Hn', Hn.
Qed.

(** A replica between inputs is on disk as it is in memory. *)
Lemma clean_disk A v s D : live A v s D → dirty s = false → at_disk (nodes A v) D ∧ dirty_from s = 0.
Proof.
  intros HL Hd. destruct (lv_clean _ _ _ _ _ HL Hd) as [Hf HD]. split; [|done].
  rewrite (lv_node _ _ _ _ _ HL), HD. done.
Qed.

Lemma meta_input A0 A v s s' D : Inv size A0 → v < size → live A0 v s D → dirty s = false →
  moves size v A0 A → nodes A v = abs_of s' → frame s s' →
  ∃ A', handled size A0 v (finish s') A' ∧ (stopped (finish s') = false → moves size v A A').
Proof.
  intros HI Hv HL Hd Hm Hn F. destruct (clean_disk _ _ _ _ HL Hd) as [HD Hf].
  destruct (moves_inv _ _ _ _ HI Hm) as [_ G]. pose proof (live_frame _ _ _ _ _ _ G Hn F HL) as HL'.
  apply (finish_sim A0 A v s' D); [done..|]. apply (recovers_meta A0 A); [done..|].
  by rewrite (fr_from _ _ F).
Qed.

(** Nothing the protocol sees has changed. *)
Lemma idle_input A0 v s s' D : Inv size A0 → v < size → live A0 v s D → dirty s = false →
  frame s s' → abs_of s' = abs_of s → ∃ A', handled size A0 v (finish s') A'.
Proof.
  intros HI Hv HL Hd F E. pose proof (lv_node _ _ _ _ _ HL) as Hn.
  destruct (meta_input A0 A0 v s s' D) as (A' & Hh & _); [done|done|done|done|reflexivity|by rewrite E|done|eauto].
Qed.

Lemma follow_input A0 v s D t l now : Inv size A0 → v < size → live A0 v s D → dirty s = false →
  ∃ A', handled size A0 v (finish (become_follower s t l now)) A'.
Proof.
  intros HI Hv HL Hd. destruct (become_follower_sim _ _ _ _ t l now HI Hv HL) as (A1 & Hm1 & Hn1).
  destruct (meta_input A0 A1 v s (become_follower s t l now) D) as (A' & Hh & _);
    eauto using become_follower_frame.
Qed.

(** ** Votes *)

Lemma up_to_date_spec s l lt li : lt = last_term l → li = length l →
  log_at_least_as_up_to_date s lt li = true → up_to_date l (log s).
Proof.
  intros -> -> Hu. unfold log_at_least_as_up_to_date in Hu. unfold up_to_date.
  change (term_at s (last_index s)) with (last_term (log s)) in Hu. unfold last_index in Hu.
  apply orb_true_iff in Hu as [Hu|Hu]; [left; blia|right].
  apply andb_true_iff in Hu as [Hu1 Hu2]. split; [by apply N.eqb_eq|by apply Nat.leb_le].
Qed.

Definition cast_vote s (c : nat) (now : Millis) : Raft S :=
  reset_election_timer (changed_meta (s <| voted_for := Some c |>)) now.

Lemma cast_vote_frame s c now : frame s (cast_vote s c now).
Proof. split; try reflexivity; [discriminate|right; split_and!; reflexivity]. Qed.

Lemma handle_vote_sim A0 v s D from req now r s' :
  Inv size A0 → v < size → live A0 v s D → dirty s = false → call_ok A0 from (OutVote v req) →
  handle_vote s req now = (r, s') →
  ∃ A', handled size A0 v s' A' ∧ msg_ok size A' (MVoteReply v from req r).
Proof.
  intros HI Hv HL Hd (Hfrom & l & Hc & Hli & Hlt). unfold handle_vote. rewrite (lv_run _ _ _ _ _ HL). cbv zeta.
  set (s1 := if (term s <? vq_term req)%N then _ else s).
  assert (H1' : ∃ A1, moves size v A0 A1 ∧ nodes A1 v = abs_of s1 ∧ frame s s1).
  { subst s1. destruct (term s <? vq_term req)%N.
    - destruct (become_follower_sim _ _ _ _ (vq_term req) None now HI Hv HL) as (A1 & Hm & Hn).
      exists A1. split_and!; [done|done|apply become_follower_frame].
    - exists A0. split_and!; [reflexivity|apply (lv_node _ _ _ _ _ HL)|apply frame_refl]. }
  destruct H1' as (A1 & Hm1 & Hn1 & F1). clearbody s1.
  destruct (moves_inv _ _ _ _ HI Hm1) as [HI1 G1].
  destruct (_ && log_at_least_as_up_to_date _ _ _) eqn:Hgr; intros [= <- <-]; cbn [andb].
  - apply andb_true_iff in Hgr as [Hgr Hup]. apply andb_true_iff in Hgr as [Ht Hvo]. apply N.eqb_eq in Ht.
    destruct (move_vote size A1 v (vq_candidate req) l Hv) as (A2 & Hm2 & Hn2 & Hg); rewrite ?Hn1; cbn [abs_of a_vote a_term a_log].
    + apply orb_true_iff in Hvo as [Hvo|Hvo]; apply bool_decide_eq_true in Hvo; auto.
    + rewrite <- Ht, Hfrom. by apply (gr_cands _ _ G1).
    + by eapply up_to_date_spec.
    + fold (cast_vote s1 (vq_candidate req) now).
      destruct (meta_input A0 A2 v s (cast_vote s1 (vq_candidate req) now) D) as (A' & Hh & Hlive);
        [done|done|done|done|by etrans|by rewrite Hn2, Hn1| |].
      { eapply frame_trans; [done|apply cast_vote_frame]. }
      exists A'. split; [done|]. cbn. intros Hns. apply negb_true_iff in Hns. split; [done|]. split; [done|].
      exists (a_log (nodes A1 v)). destruct (moves_inv _ _ _ _ HI1 Hm2) as [HI2 _].
      destruct (moves_inv _ _ _ _ HI2 (Hlive Hns)) as [_ G2]. apply (gr_grants _ _ G2).
      rewrite Hn1 in *. cbn in Hg |- *. by rewrite Ht, <- Hfrom.
  - destruct (meta_input A0 A1 v s s1 D) as (A' & Hh & _); [done..|]. exists A'. split; [done|]. cbn. done.
Qed.

(** ** Sending *)

(** Equal in everything but timers, call bookkeeping, reads and messages out. *)
Record same s s' : Prop := {
  sm_stopped : stopped s' = stopped s; sm_cfg : cfg s' = cfg s; sm_term : term s' = term s;
  sm_vote : voted_for s' = voted_for s; sm_log : log s' = log s; sm_role : role s' = role s;
  sm_reached : reached s' = reached s; sm_votes : votes s' = votes s; sm_next : next s' = next s;
  sm_matched : matched s' = matched s; sm_storage : storage s' = storage s; sm_dirty : dirty s' = dirty s;
  sm_from : dirty_from s' = dirty_from s; sm_applied : applied_out s' = applied_out s;
}.

#[export] Instance same_preorder : PreOrder same.
Proof.
  split; [by split|]. intros s1 s2 s3 [] []. split; congruence.
Qed.

Lemma live_same A v s s' D : same s s' → Forall (call_ok A v) (out s') → live A v s D → live A v s' D.
Proof.
  intros [E1 E2 E3 E4 E5 E6 E7 E8 E9 E10 E11 E12 E13 E14] Ho [].
  split; rewrite ?E1, ?E2, ?E3, ?E4, ?E5, ?E6, ?E7, ?E8, ?E9, ?E10, ?E11, ?E12, ?E13, ?E14; assumption.
Qed.

Lemma recovers_same A0 v D s s' : same s s' → recovers A0 v D s → recovers A0 v D s'.
Proof.
  intros [] HR D'. unfold recovers, save_from, last_index in *.
  rewrite sm_term0, sm_vote0, sm_from0, sm_log0. apply HR.
Qed.

Lemma batch_prefix b n f es : batch b n f es `prefix_of` es.
Proof.
  revert n f. induction es as [|e es IH]; intros n f; cbn [batch]; [done|].
  destruct (_ && _); [apply prefix_nil|]. by apply prefix_cons.
Qed.

Lemma known_commit_le A t c c' : c ≤ c' → known_commit A t c' → known_commit A t c.
Proof. intros Hc [->|(t0 & k & ? & ? & ?)]; [left; lia|]. right. exists t0, k. split_and!; [done|done|lia]. Qed.

Lemma node_known_commit A v : Inv size A → v < size → known_commit A (a_term (nodes A v)) (a_commit (nodes A v)).
Proof.
  intros HI Hv. destruct (no_commit _ _ _ (inv_node _ _ HI v Hv)) as [?|(t0 & k & L & ? & _ & ? & ? & _)]; [by left|].
  right. eauto.
Qed.

Lemma send_append_same s p now : same s (send_append s p now).
Proof. split; reflexivity. Qed.

(** Whatever a leader sends describes the log of its term. *)
Lemma send_append_live A v s D p now : Inv size A → v < size → live A v s D → role s = Leader → p < size →
  live A v (send_append s p now) D.
Proof.
  intros HI Hv HL Hr Hp. apply (live_same A v s); [apply send_append_same| |done].
  change (out (send_append s p now)) with (out s ++ [OutAppend p (mkAppendRequest (term s) (cfg_id (cfg s))
    (next s !!! p - 1) (term_at s (next s !!! p - 1))
    (batch (cfg_max_append_bytes (cfg s)) 0 true (drop (next s !!! p - 1) (log s))) (commit s)
    (wrap64N (seqno s + 1)))]).
  apply Forall_app. split; [apply (lv_out _ _ _ _ _ HL)|]. apply Forall_singleton.
  pose proof (lv_node _ _ _ _ _ HL) as Hn. exists (log s). cbn [aq_term aq_prev_index aq_entries aq_prev_term aq_commit].
  pose proof (lv_next _ _ _ _ _ HL p Hr Hp) as Hnx.
  set (b := batch _ _ _ _). pose proof (batch_prefix (cfg_max_append_bytes (cfg s)) 0 true (drop (next s !!! p - 1) (log s))) as HP.
  fold b in HP. pose proof (prefix_length _ _ HP) as Hlen. rewrite length_drop in Hlen.
  split_and!.
  - destruct (no_leader _ _ _ (inv_node _ _ HI v Hv)) as [HLog _]; rewrite Hn in *; done.
  - lia.
  - done.
  - symmetry. rewrite (prefix_take _ _ _ HP) by done. by rewrite take_ge.
  - pose proof (node_known_commit A v HI Hv) as HK. rewrite Hn in HK. cbn in HK.
    eapply known_commit_le; [|exact HK]. unfold reached. lia.
Qed.

Lemma send_if_due_live A v s D p now force : Inv size A → v < size → live A v s D → role s = Leader → p < size →
  live A v (send_if_due s p now force) D ∧ same s (send_if_due s p now force).
Proof.
  intros HI Hv HL Hr Hp. unfold send_if_due.
  assert (Hbump : live A v (s <| heartbeat_due := <[p := now]> (heartbeat_due s) |>) D
            ∧ same s (s <| heartbeat_due := <[p := now]> (heartbeat_due s) |>)).
  { split; [|by split]. by apply (live_same A v s); [split|apply (lv_out _ _ _ _ _ HL)|]. }
  split_ifs; try done; split; auto using send_append_live, send_append_same; reflexivity.
Qed.

(** A leader's loop over its peers. *)
Lemma sends_live A v D (f : Raft S → nat → Raft S) ps s :
  (∀ s p, p < size → live A v s D → role s = Leader → live A v (f s p) D ∧ same s (f s p)) →
  Forall (λ p, p < size) ps → live A v s D → role s = Leader →
  live A v (foldl f s ps) D ∧ same s (foldl f s ps).
Proof.
  intros Hf. revert s. induction ps as [|p ps IH]; intros s Hps HL Hr; cbn [foldl]; [split; [done|reflexivity]|].
  apply Forall_cons in Hps as [Hp Hps]. destruct (Hf s p Hp HL Hr) as [HL1 E1].
  destruct (IH (f s p)) as [HL2 E2]; [done|done|by rewrite (sm_role _ _ E1)|]. split; [done|by etrans].
Qed.

Lemma peers_lt A v s D : live A v s D → Forall (λ p, p < size) (peers s).
Proof.
  intros HL. apply Forall_forall. intros p Hp. apply list_elem_of_filter in Hp as [_ Hp].
  apply elem_of_seq in Hp. rewrite (lv_cfg _ _ _ _ _ HL), conf_size in Hp. lia.
Qed.
End refine.
