(* ===== verification/RaftInputs.v ===== *)
(** * RaftInputs: elections, appends and clients refine the protocol

    The inputs that change a replica's log or role: elections, APPEND and its
    replies, proposals, reads and the constructor; then the simulation of the
    whole world and the safety theorems of a running group. *)
From S2P Require Import Prelude Text Raft RaftSpec RaftCluster RaftRefine.

Section inputs.
Context {S : Type} `{StorageOk S} (size : nat) `{GroupConfig size}.
Implicit Types s : Raft S.

Abbreviation live := (live size) (only parsing).

(** ** Becoming leader *)

(** The votes a candidate counts are distinct replicas. *)
Lemma count_true_set (l : list bool) :
  ∃ Q : gset nat, base.size Q = count_true l ∧ ∀ q, q ∈ Q → l !! q = Some true.
Proof.
  induction l as [|b l IH] using rev_ind; [by exists ∅|]. destruct IH as (Q & HQ & Hin).
  unfold count_true in *. rewrite filter_app, length_app, filter_cons, filter_nil.
  destruct b; [rewrite decide_True by done|rewrite decide_False by done]; cbn [length].
  - exists (Q ∪ {[length l]}). split.
    + rewrite size_union, size_singleton, HQ; [done|]. apply disjoint_singleton_r. intros Hq.
      apply Hin, lookup_lt_Some in Hq. lia.
    + intros q Hq. apply elem_of_union in Hq as [Hq|Hq].
      * apply lookup_app_l_Some. auto.
      * apply elem_of_singleton in Hq as ->. apply list_lookup_middle. done.
  - exists Q. split; [lia|]. intros q Hq. apply lookup_app_l_Some. auto.
Qed.

Lemma become_leader_eq s now :
  become_leader s now = foldl (λ s p, send_append s p now) (new_leader s now) (peers (new_leader s now)).
Proof. reflexivity. Qed.

Lemma append_own_from s cmd : dirty_from s = 0 → dirty_from (append_own s cmd) = length (log s) + 1.
Proof. intros E. unfold append_own, changed_from, last_index. upd. rewrite E. cbn. apply length_app. Qed.

Lemma new_leader_fields s now : let s' := new_leader s now in
  stopped s' = stopped s ∧ cfg s' = cfg s ∧ term s' = term s ∧ voted_for s' = voted_for s
  ∧ log s' = log s ++ [mkEntry (term s) "NOOP"] ∧ role s' = Leader ∧ reached s' = reached s
  ∧ next s' = replicate (cfg_size (cfg s)) (length (log s) + 1)
  ∧ matched s' = replicate (cfg_size (cfg s)) 0
  ∧ out s' = out s ∧ storage s' = storage s ∧ dirty s' = true ∧ applied_out s' = applied_out s
  ∧ votes s' = votes s ∧ (dirty_from s = 0 → dirty_from s' = length (log s) + 1).
Proof.
  cbv zeta. split_and!; try reflexivity. intros E.
  unfold new_leader. by rewrite append_own_from by exact E.
Qed.

(** The disk after a failed save of one new entry. *)
Lemma recovers_append A0 A1 A v D s :
  at_disk (nodes A0 v) D → moves size v A0 A1 →
  at_disk (nodes A1 v) (mkDurable (term s) (voted_for s) (d_log D)) →
  moves size v A0 A → live A v s D → save_from s = length (d_log D) + 1 →
  length (log s) = length (d_log D) + 1 → recovers size A0 v D s.
Proof.
  intros HD Hm1 Hd1 Hm HL Hf Hlen D' Hp. pose proof (live_can_save _ _ _ _ _ HL) as (_ & _ & _ & HT).
  rewrite Hf in HT. replace (length (d_log D) + 1 - 1) with (length (d_log D)) in HT by lia.
  rewrite (take_ge (d_log D)) in HT by lia.
  destruct Hp as [->|[->|(n & Hn & ->)]]; [by exists A0; split; [reflexivity|]|by exists A1|].
  rewrite Hf in Hn. destruct (decide (n = length (d_log D))) as [->|Hne].
  - rewrite HT. by exists A1.
  - exists A. split; [done|]. rewrite (lv_node _ _ _ _ _ HL). by rewrite take_ge by lia.
Qed.

Lemma become_leader_sim A v s D now : Inv size A → v < size → live A v s D → role s = Candidate →
  dirty_from s = 0 → majority s (count_true (votes s)) = true →
  ∃ A', moves size v A A' ∧ live A' v (become_leader s now) D
    ∧ save_from (become_leader s now) = length (d_log D) + 1
    ∧ length (log (become_leader s now)) = length (d_log D) + 1
    ∧ term (become_leader s now) = term s ∧ voted_for (become_leader s now) = voted_for s.
Proof.
  intros HI Hv HL Hr Hf Hmaj. pose proof (lv_node _ _ _ _ _ HL) as Hn. pose proof (lv_cfg _ _ _ _ _ HL) as Hcfg.
  destruct (count_true_set (votes s)) as (Q & HQ & Hin).
  destruct (move_lead size A v Q "NOOP" Hv) as (A' & Hm & Hn' & Ha); rewrite ?Hn; cbn [a_role a_term].
  { done. }
  { split; [intros q Hq; by apply (lv_votes _ _ _ _ _ HL q Hr), Hin|].
    unfold majority in Hmaj. rewrite Hcfg, conf_size in Hmaj. rewrite HQ. blia. }
  { intros q Hq. by apply (lv_votes _ _ _ _ _ HL q Hr), Hin. }
  rewrite Hn in Hn', Ha. cbn [a_term a_log] in Hn', Ha.
  destruct (moves_inv _ _ _ _ HI Hm) as [HI' G].
  destruct (new_leader_fields s now)
    as (F1 & F2 & F3 & F4 & F5 & F6 & F7 & F8 & F9 & F10 & F11 & F12 & F13 & F15 & F14).
  specialize (F14 Hf). pose proof (lv_meta _ _ _ _ _ HL Hf) as HD.
  set (s1 := new_leader s now) in *. rewrite Hcfg, conf_size in F8, F9.
  assert (HL1 : live A' v s1 D).
  { destruct HL. split; rewrite ?F1, ?F2, ?F3, ?F4, ?F5, ?F6, ?F7, ?F8, ?F9, ?F10, ?F11, ?F12, ?F13, ?F14, ?F15; try done.
    - destruct lv_len as (_ & _ & ?). rewrite !length_replicate. split_and!; [done|done|]. congruence.
    - intros p _ Hp. rewrite lookup_total_replicate_2 by done. rewrite length_app. cbn. lia.
    - intros p _ Hp. left. by rewrite lookup_total_replicate_2 by done.
    - intros _. eexists. split; [|exact Ha]. done.
    - eapply Forall_impl; [exact lv_out|]. intros o. by apply call_ok_mono.
    - lia.
    - intros _. rewrite <- HD. unfold can_save. rewrite length_app. cbn. split_and!; [lia..|].
      rewrite HD. apply take_app_le. lia. }
  rewrite become_leader_eq. fold s1.
  destruct (sends_live size A' v D (λ s p, send_append s p now) (peers s1) s1) as [HL2 E2]; [|by eapply peers_lt|done|done|].
  { intros s0 p Hp HL0 Hr0. split; [by apply send_append_live|apply send_append_same]. }
  exists A'. unfold save_from, last_index.
  rewrite (sm_from _ _ E2), (sm_log _ _ E2), (sm_term _ _ E2), (sm_vote _ _ E2), F3, F4, F5, F14, HD.
  split_and!; [done|done| |by rewrite length_app|done|done]. destruct (Nat.eqb_spec (length (log s) + 1) 0); lia.
Qed.

Lemma standing_fields s now : let s' := standing s now in
  stopped s' = stopped s ∧ cfg s' = cfg s ∧ term s' = wrap64N (term s + 1) ∧ voted_for s' = Some (cfg_id (cfg s))
  ∧ log s' = log s ∧ role s' = Candidate ∧ reached s' = reached s
  ∧ next s' = next s ∧ matched s' = matched s
  ∧ out s' = out s ∧ storage s' = storage s ∧ dirty s' = true ∧ applied_out s' = applied_out s
  ∧ dirty_from s' = dirty_from s
  ∧ votes s' = <[cfg_id (cfg s) := true]> (replicate (length (votes s)) false).
Proof. cbv zeta. split_and!; reflexivity. Qed.

Lemma only_own_vote (v n p : nat) : <[v := true]> (replicate n false) !! p = Some true → p = v.
Proof.
  intros Hp. apply list_lookup_insert_Some in Hp as [(-> & _)|(_ & Hp)]; [done|].
  by apply lookup_replicate in Hp as [? _].
Qed.

Lemma count_own_vote (v n : nat) : v < n → 1 ≤ count_true (<[v := true]> (replicate n false)).
Proof.
  intros Hv. unfold count_true.
  assert (Hin : true ∈ filter (λ b, b = true) (<[v := true]> (replicate n false))).
  { apply list_elem_of_filter. split; [done|]. apply list_elem_of_insert. by rewrite length_replicate. }
  destruct (filter _ _); [by apply elem_of_nil in Hin|cbn; lia].
Qed.

Lemma standing_sim A v s D now : Inv size A → v < size → live A v s D → dirty_from s = 0 →
  (term s + 1 < W64N)%N →
  ∃ A', moves size v A A' ∧ live A' v (standing s now) D
    ∧ (term (standing s now), v, log (standing s now)) ∈ cands A'.
Proof.
  intros HI Hv HL Hf Ht. pose proof (lv_node _ _ _ _ _ HL) as Hn. pose proof (lv_cfg _ _ _ _ _ HL) as Hcfg.
  destruct (standing_fields s now) as (F1 & F2 & F3 & F4 & F5 & F6 & F7 & F8 & F9 & F10 & F11 & F12 & F13 & F14 & F15).
  set (s1 := standing s now) in *. unfold wrap64N in F3. rewrite N.mod_small in F3 by done.
  destruct (move_stand size A v Hv) as (A' & Hm & Hn' & Hc & Hg).
  rewrite Hn in Hn', Hc, Hg. cbn [a_term a_log] in Hn', Hc, Hg.
  destruct (moves_inv _ _ _ _ HI Hm) as [HI' G]. exists A'. split_and!; [done| |by rewrite F3, F5].
  rewrite Hcfg, conf_id in F4, F15. pose proof (lv_meta _ _ _ _ _ HL Hf) as HD.
  destruct HL. split; rewrite ?F1, ?F2, ?F3, ?F4, ?F5, ?F6, ?F7, ?F8, ?F9, ?F10, ?F11, ?F12, ?F13, ?F14, ?F15; try done.
  - intros p _ Hp. apply only_own_vote in Hp as ->. split; [done|]. eauto.
  - rewrite length_insert, length_replicate. done.
  - eapply Forall_impl; [exact lv_out|]. intros o. by apply call_ok_mono.
Qed.

Lemma call_votes_sim A0 A1 v s D now : Inv size A0 → v < size → at_disk (nodes A0 v) D →
  moves size v A0 A1 → live A1 v s D → (term s, v, log s) ∈ cands A1 → role s = Candidate →
  dirty_from s = 0 → 1 ≤ count_true (votes s) →
  ∃ A, moves size v A0 A ∧ live A v (call_votes s now) D ∧ recovers size A0 v D (call_votes s now).
Proof.
  intros HI Hv HD Hm1 HL1 Hc1 Hr Hf Hone. destruct (moves_inv _ _ _ _ HI Hm1) as [HI1 _].
  unfold call_votes. destruct (majority s 1) eqn:Hmaj.
  - destruct (become_leader_sim A1 v s D now) as (A2 & Hm2 & HL2 & Hsf & Hlen & E1 & E2); [done..| |].
    { unfold majority in *. apply Nat.ltb_lt. apply Nat.ltb_lt in Hmaj. lia. }
    exists A2. split_and!; [by etrans|done|].
    apply (recovers_append A0 A1 A2 v D); [done..| |by etrans|done|done|done].
    rewrite E1, E2, (lv_node _ _ _ _ _ HL1). rewrite (lv_meta _ _ _ _ _ HL1 Hf). done.
  - exists A1. split; [done|].
    assert (HL2 : live A1 v (s <| out := out s ++ vote_calls s |>) D).
    { apply (live_same size A1 v s); [by split| |done]. upd. apply Forall_app. split; [apply (lv_out _ _ _ _ _ HL1)|].
      apply Forall_fmap, Forall_forall. intros p Hp. cbn. rewrite (lv_cfg _ _ _ _ _ HL1), conf_id.
      split; [done|]. exists (log s). done. }
    split; [done|]. by apply (recovers_meta size A0 A1).
Qed.

Lemma start_election_sim A0 v s D now : Inv size A0 → v < size → live A0 v s D → at_disk (nodes A0 v) D →
  dirty_from s = 0 → (term s + 1 < W64N)%N →
  ∃ A, moves size v A0 A ∧ live A v (start_election s now) D ∧ recovers size A0 v D (start_election s now).
Proof.
  intros HI Hv HL HD Hf Ht. destruct (standing_sim _ _ _ _ now HI Hv HL Hf Ht) as (A1 & Hm1 & HL1 & Hc1).
  destruct (standing_fields s now) as (_ & _ & _ & _ & _ & F6 & _ & _ & _ & _ & _ & _ & _ & F14 & F15).
  unfold start_election. apply (call_votes_sim A0 A1); try assumption.
  rewrite F15, (lv_cfg _ _ _ _ _ HL), conf_id. apply count_own_vote.
  destruct (lv_len _ _ _ _ _ HL) as (_ & _ & ->). done.
Qed.

(** A leader's input that changed nothing the protocol sees but sent calls. *)
Lemma sent_input A0 v s s' D : Inv size A0 → v < size → live A0 v s D → dirty s = false →
  live A0 v s' D ∧ same s s' → ∃ A', handled size A0 v (finish s') A'.
Proof.
  intros HI Hv HL Hd [HL' E]. destruct (clean_disk _ _ _ _ _ HL Hd) as [HD Hf].
  destruct (finish_sim size A0 A0 v s' D) as (A' & Hh & _); [done|done|reflexivity|done| |eauto].
  apply (recovers_meta size A0 A0); [done|reflexivity|done|]. by rewrite (sm_from _ _ E).
Qed.

Lemma tick_peer_live A v s D now p : Inv size A → v < size → p < size → live A v s D → role s = Leader →
  live A v (tick_peer now s p) D ∧ same s (tick_peer now s p).
Proof.
  intros HI Hv Hp HL Hr. unfold tick_peer. cbv zeta. set (s1 := if inflight s !!! p && (inflight_until s !!! p <=? now)%Z then _ else s).
  assert (E1 : same s s1) by (subst s1; destruct (_ && _); [by split|reflexivity]).
  assert (HL1 : live A v s1 D).
  { apply (live_same size A v s); [done| |done]. subst s1.
    destruct (_ && _); exact (lv_out _ _ _ _ _ HL). }
  clearbody s1. destruct (send_if_due_live size A v s1 D p now false) as [HL2 E2]; [done|done|done| |done|].
  { by rewrite (sm_role _ _ E1). }
  split; [done|by etrans].
Qed.

Lemma tick_sim A0 v s D now : Inv size A0 → v < size → live A0 v s D → dirty s = false →
  (term s + 1 < W64N)%N → ∃ A', handled size A0 v (tick s now) A'.
Proof.
  intros HI Hv HL Hd Ht. unfold tick. rewrite (lv_run _ _ _ _ _ HL). cbv zeta.
  case_bool_decide as Hr; cbn [negb].
  - destruct (negb (majority _ _)); [by eapply follow_input|].
    eapply sent_input; [done|done|exact HL|done|].
    apply sends_live; [|by eapply peers_lt|done|done]. intros. by apply tick_peer_live.
  - destruct (election_deadline s <=? now)%Z.
    + destruct (clean_disk _ _ _ _ _ HL Hd) as [HD Hf].
      destruct (start_election_sim A0 v s D now) as (A & Hm & HL' & HR); [done..|].
      destruct (finish_sim size A0 A v _ D HI Hv Hm HL' HR) as (A' & Hh & _). eauto.
    + eapply sent_input; [done|done|exact HL|done|]. split; [done|reflexivity].
Qed.

Lemma handle_vote_reply_sim A0 v s D from sent r now :
  Inv size A0 → v < size → live A0 v s D → dirty s = false → msg_ok size A0 (MVoteReply from v sent r) →
  ∃ A', handled size A0 v (handle_vote_reply s from sent r now) A'.
Proof.
  intros HI Hv HL Hd Hmsg. unfold handle_vote_reply. rewrite (lv_run _ _ _ _ _ HL).
  destruct (term s <? vr_term r)%N; [by eapply follow_input|].
  destruct (_ && _) eqn:Hc; [|by eapply sent_input; [..|split; [exact HL|reflexivity]]].
  bool_to_prop. destruct (Hmsg ltac:(done)) as (Hfrom & Hto & l & Hg). cbv zeta.
  set (s1 := s <| votes := <[from := true]> (votes s) |>).
  assert (HL1 : live A0 v s1 D).
  { destruct HL. split; try assumption.
    - intros p Hr. change (votes s1) with (<[from := true]> (votes s)). intros Hp.
      apply list_lookup_insert_Some in Hp as [(<- & _)|(_ & Hp)]; [|by apply lv_votes].
      split; [done|]. exists l. change (term s1) with (term s). congruence.
    - destruct lv_len as (? & ? & ?). split_and!; [done|done|].
      change (votes s1) with (<[from := true]> (votes s)). by rewrite length_insert. }
  destruct (clean_disk _ _ _ _ _ HL Hd) as [HD Hf]. change (dirty_from s) with (dirty_from s1) in Hf.
  destruct (lv_clean _ _ _ _ _ HL Hd) as [_ EqD]. change (role s) with (role s1) in *.
  change (voted_for s) with (voted_for s1) in EqD. change (term s) with (term s1) in EqD.
  change (log s) with (log s1) in EqD. change (dirty s) with (dirty s1) in Hd. clearbody s1.
  destruct (majority s1 (count_true (votes s1))) eqn:Hmaj.
  - destruct (become_leader_sim A0 v s1 D now) as (A & Hm & HL2 & Hsf & Hlen & E1 & E2); [done..|].
    destruct (finish_sim size A0 A v (become_leader s1 now) D HI Hv Hm HL2) as (A' & Hh & _); [|eauto].
    apply (recovers_append A0 A0 A v D); try done. by rewrite E1, E2, EqD in *.
  - destruct (finish_sim size A0 A0 v s1 D) as (A' & Hh & _); [done|done|reflexivity|done| |eauto].
    by apply (recovers_meta size A0 A0).
Qed.

(** ** Clients *)

Lemma append_own_fields s cmd : let s' := append_own s cmd in
  stopped s' = stopped s ∧ cfg s' = cfg s ∧ term s' = term s ∧ voted_for s' = voted_for s
  ∧ log s' = log s ++ [mkEntry (term s) cmd] ∧ role s' = role s ∧ reached s' = reached s
  ∧ next s' = next s ∧ matched s' = matched s ∧ votes s' = votes s
  ∧ out s' = out s ∧ storage s' = storage s ∧ dirty s' = true ∧ applied_out s' = applied_out s.
Proof. cbv zeta. split_and!; reflexivity. Qed.

Lemma propose_sim A0 v s D cmd now : Inv size A0 → v < size → live A0 v s D → dirty s = false → role s = Leader →
  ∃ A', handled size A0 v (propose s cmd now).2 A'.
Proof.
  intros HI Hv HL Hd Hr. unfold propose. rewrite (lv_run _ _ _ _ _ HL), bool_decide_true by done. cbn [orb negb].
  cbv zeta. cbn [snd]. pose proof (lv_node _ _ _ _ _ HL) as Hn.
  destruct (clean_disk _ _ _ _ _ HL Hd) as [HD Hf]. destruct (lv_clean _ _ _ _ _ HL Hd) as [_ EqD].
  pose proof (append_own_from s cmd Hf) as F0.
  destruct (append_own_fields s cmd) as (F1 & F2 & F3 & F4 & F5 & F6 & F7 & F8 & F9 & F10 & F11 & F12 & F13 & F14).
  set (s1 := append_own s cmd) in *. clearbody s1.
  destruct (move_propose size A0 v cmd Hv) as (A1 & Hm & Hn' & Ha); [by rewrite Hn|].
  rewrite Hn in Hn', Ha. cbn [a_term a_log] in Hn', Ha. destruct (moves_inv _ _ _ _ HI Hm) as [HI1 G].
  assert (HL1 : live A1 v s1 D).
  { apply (live_mono_same size A0 A0) in HL as HL0; [|reflexivity|done]. destruct HL0.
    split; rewrite ?F0, ?F1, ?F2, ?F3, ?F4, ?F5, ?F6, ?F7, ?F8, ?F9, ?F10, ?F11, ?F12, ?F13, ?F14; try done.
    - intros p Hc. congruence.
    - intros p _ Hp. pose proof (lv_next p Hr Hp). rewrite length_app. lia.
    - intros p _ Hp. destruct (lv_matched p Hr Hp) as [?|(m & ? & ?)]; [by left|right]. exists m.
      split; [done|by apply (gr_acks _ _ G)].
    - intros _. eexists. by split; [|exact Ha].
    - eapply Forall_impl; [exact lv_out|]. intros o. by apply call_ok_mono.
    - lia.
    - intros _. rewrite EqD. unfold can_save. cbn [d_log]. rewrite length_app. cbn. split_and!; [lia..|].
      apply take_app_le. lia. }
  destruct (sends_live size A1 v D (λ s p, send_if_due s p now false) (peers s1) s1) as [HL2 E2].
  { intros. by apply send_if_due_live. }
  { by eapply peers_lt. }
  { done. }
  { by rewrite F6. }
  destruct (finish_sim size A0 A1 v _ D HI Hv Hm HL2) as (A' & Hh & _); [|eauto].
  apply (recovers_append A0 A0 A1 v D); [done|reflexivity| |done|done| |].
  - by rewrite (sm_term _ _ E2), (sm_vote _ _ E2), F3, F4, EqD in *.
  - unfold save_from. rewrite (sm_from _ _ E2), F0, EqD. cbn. destruct (Nat.eqb_spec (length (log s) + 1) 0); lia.
  - rewrite (sm_log _ _ E2), F5, length_app, EqD. done.
Qed.

Lemma read_sim A0 v s D id now : Inv size A0 → v < size → live A0 v s D → dirty s = false → role s = Leader →
  ∃ A', handled size A0 v (read s id now).2 A'.
Proof.
  intros HI Hv HL Hd Hr. unfold read. rewrite (lv_run _ _ _ _ _ HL), bool_decide_true by done. cbn [orb negb].
  cbv zeta. cbn [snd]. set (r := mkPendingRead _ _ _ _). clearbody r. set (s1 := s <| reads := _ |>).
  assert (E1 : same s s1) by (by split).
  assert (HL1 : live A0 v s1 D) by (apply (live_same size A0 v s); [done|exact (lv_out _ _ _ _ _ HL)|done]).
  clearbody s1. destruct (sends_live size A0 v D (λ s p, send_if_due s p now true) (peers s1) s1) as [HL2 E2].
  { intros. by apply send_if_due_live. }
  { by eapply peers_lt. }
  { done. }
  { by rewrite (sm_role _ _ E1). }
  eapply sent_input; [done|done|exact HL|done|]. split; [done|by etrans].
Qed.

(** ** Replies to APPEND *)

Lemma peer_heard_live A v s D from sent now : live A v s D →
  live A v (peer_heard s from sent now) D ∧ same s (peer_heard s from sent now).
Proof.
  intros HL. assert (E : same s (peer_heard s from sent now)).
  { unfold peer_heard. cbv zeta. destruct (_ && _); by split. }
  split; [|done]. apply (live_same size A v s); [done| |done].
  replace (out (peer_heard s from sent now)) with (out s); [exact (lv_out _ _ _ _ _ HL)|].
  unfold peer_heard. cbv zeta. by destruct (_ && _).
Qed.

Lemma next_live A v s D from n : live A v s D → from < size → 1 ≤ n ≤ length (log s) + 1 →
  live A v (s <| next := <[from := n]> (next s) |>) D.
Proof.
  intros HL Hf Hn. destruct HL. split; upd; try assumption.
  - by rewrite length_insert.
  - intros p Hr Hp. destruct (decide (p = from)) as [->|Hne].
    + rewrite list_lookup_total_insert_eq by (destruct lv_len; lia). done.
    + rewrite list_lookup_total_insert_ne by done. by apply lv_next.
Qed.

Lemma matched_live A v s D from m : live A v s D → from < size → (term s, from, m) ∈ acks A →
  live A v (s <| matched := <[from := m]> (matched s) |>) D.
Proof.
  intros HL Hf Ha. destruct HL. split; upd; try assumption.
  - by rewrite length_insert.
  - intros p Hr Hp. destruct (decide (p = from)) as [->|Hne].
    + rewrite list_lookup_total_insert_eq by (destruct lv_len as (? & ? & ?); lia). right. by exists m.
    + rewrite list_lookup_total_insert_ne by done. by apply lv_matched.
Qed.

(** The fields the end of an input depends on. *)
Definition keeps_log s s' : Prop :=
  role s' = role s ∧ dirty_from s' = dirty_from s.

Lemma peer_matched_live A v s D from m : live A v s D → from < size → (term s, from, m) ∈ acks A →
  m ≤ length (log s) →
  live A v (peer_matched s from m) D ∧ keeps_log s (peer_matched s from m).
Proof.
  intros HL Hf Ha Hm. unfold peer_matched. cbv zeta. set (s1 := if matched s !!! from <? m then _ else s).
  assert (H1' : live A v s1 D ∧ keeps_log s s1 ∧ log s1 = log s).
  { subst s1. destruct (_ <? m); [|done]. split; [by apply matched_live|done]. }
  destruct H1' as (HL1 & K1 & E1). clearbody s1. destruct (_ <? m + 1); [|done].
  split; [|done]. apply next_live; [done|done|]. rewrite E1. lia.
Qed.

Lemma peer_refused_live A v s D from sent r now : live A v s D → from < size → role s = Leader →
  live A v (peer_refused s from sent r now) D ∧ keeps_log s (peer_refused s from sent r now).
Proof.
  intros HL Hf Hr. unfold peer_refused. cbv zeta. set (back := Nat.max _ _).
  set (s1 := if back <? next s !!! from then _ else s).
  assert (H1' : live A v s1 D ∧ keeps_log s s1).
  { subst s1. destruct (Nat.ltb_spec back (next s !!! from)); [|done]. split; [|done].
    apply next_live; [done|done|]. pose proof (lv_next _ _ _ _ _ HL from Hr Hf). subst back. lia. }
  destruct H1' as (HL1 & K1). clearbody s1. split; [|done].
  apply (live_same size A v s1); [by split|exact (lv_out _ _ _ _ _ HL1)|done].
Qed.

Lemma handle_append_reply_sim A0 v s D from sent r now :
  Inv size A0 → v < size → live A0 v s D → dirty s = false →
  msg_ok size A0 (MAppendReply from v sent r) →
  ∃ A', handled size A0 v (handle_append_reply s from sent r now) A'.
Proof.
  intros HI Hv HL Hd Hmsg. pose proof (proj1 Hmsg) as Hfrom. unfold handle_append_reply. rewrite (lv_run _ _ _ _ _ HL).
  destruct (term s <? ar_term r)%N; [by eapply follow_input|].
  destruct (_ || _) eqn:Hc; [by eapply sent_input; [..|split; [exact HL|reflexivity]]|].
  bool_to_prop. cbv zeta. destruct (clean_disk _ _ _ _ _ HL Hd) as [HD Hf].
  destruct (peer_heard_live A0 v s D from sent now HL) as [HL1 E1].
  set (s1 := peer_heard s from sent now) in *. clearbody s1.
  assert (Hr1 : role s1 = Leader) by (by rewrite (sm_role _ _ E1)).
  set (s2 := if ar_success r then _ else _).
  assert (H2' : live A0 v s2 D ∧ keeps_log s1 s2).
  { subst s2. destruct (ar_success r) eqn:Hs; [|by apply peer_refused_live].
    pose proof (proj2 Hmsg Hs) as Ha. assert (Ht : aq_term sent = term s1) by (rewrite (sm_term _ _ E1); done).
    rewrite Ht in Ha. apply peer_matched_live; [done..|].
    destruct (inv_ack _ _ HI _ _ _ Ha) as (_ & _ & L & HLg & Hlen & _).
    destruct (no_leader _ _ _ (inv_node _ _ HI v Hv)) as [HLg' _]; rewrite (lv_node _ _ _ _ _ HL1) in *; [done|].
    cbn in HLg'. by simplify_eq. }
  destruct H2' as (HL2 & Hr2 & Hf2). clearbody s2.
  assert (HL3 : live A0 v (ack_reads s2 from sent) D).
  { apply (live_same size A0 v s2); [by split|exact (lv_out _ _ _ _ _ HL2)|done]. }
  destruct (send_if_due_live size A0 v (ack_reads s2 from sent) D from now false) as [HL4 E4]; [done|done|done| |done|].
  { change (role s2 = Leader). congruence. }
  destruct (finish_sim size A0 A0 v _ D HI Hv ltac:(reflexivity) HL4) as (A' & Hh & _); [|eauto].
  apply (recovers_meta size A0 A0); [done|reflexivity|done|]. rewrite (sm_from _ _ E4).
  change (dirty_from s2 = 0). rewrite Hf2, (sm_from _ _ E1). done.
Qed.

(** ** APPEND *)

(** How far the loop over an APPEND's entries has come: the log is untouched and
    agrees with the leader's [L] up to [i], or it is the first [i] entries of [L],
    differing from what it was at or just after index [f]. *)
Definition first_change (old L : list Entry) (f : nat) : Prop :=
  1 ≤ f ∧ f - 1 ≤ length old ∧ take (f - 1) old = take (f - 1) L
  ∧ (f - 1 = length old ∨ ∃ e e', old !! (f - 1) = Some e ∧ L !! (f - 1) = Some e' ∧ e ≠ e').

Record appending s0 (L : list Entry) (i : nat) s : Prop := {
  ap_same : stopped s = stopped s0 ∧ cfg s = cfg s0 ∧ term s = term s0 ∧ voted_for s = voted_for s0
    ∧ role s = role s0 ∧ commit s = commit s0 ∧ next s = next s0 ∧ matched s = matched s0
    ∧ votes s = votes s0 ∧ out s = out s0 ∧ storage s = storage s0 ∧ applied_out s = applied_out s0
    ∧ reached s = reached s0;
  ap_log : (log s = log s0 ∧ take i (log s0) = take i L ∧ dirty_from s = 0 ∧ dirty s = dirty s0)
    ∨ (log s = take i L ∧ dirty s = true ∧ dirty_from s ≤ i ∧ first_change (log s0) L (dirty_from s));
}.

(** One entry pushed at index [i + 1], after a cut to [i] entries or none. *)
Lemma push_appending s0 s s1 L i e l : appending s0 L i s → L !! i = Some e → l = take i L →
  (dirty_from s = 0 → first_change (log s0) L (i + 1)) →
  (s1 = s ∧ log s = l ∨ s1 = changed_from (s <| log := l |>) (i + 1)) →
  appending s0 L (i + 1) (changed_from (s1 <| log := log s1 ++ [e] |>) (i + 1)).
Proof.
  intros [Hs Hl] He -> Hf Hs1.
  assert (Hdf : dirty_from (changed_from (s1 <| log := log s1 ++ [e] |>) (i + 1))
                = if dirty_from s =? 0 then i + 1 else dirty_from s).
  { assert (dirty_from s ≤ i) by (destruct Hl as [(_ & _ & -> & _)|(_ & _ & ? & _)]; lia).
    destruct Hs1 as [[-> _]| ->]; unfold changed_from; upd;
      destruct (Nat.eqb_spec (dirty_from s) 0) as [E|E]; cbn [orb]; rewrite ?E; cbn [Nat.eqb orb].
    - done.
    - destruct (Nat.ltb_spec (i + 1) (dirty_from s)); [lia|done].
    - replace (i + 1 =? 0) with false by (symmetry; apply Nat.eqb_neq; lia). by rewrite Nat.ltb_irrefl.
    - destruct (Nat.ltb_spec (i + 1) (dirty_from s)); [lia|].
      destruct (Nat.eqb_spec (dirty_from s) 0); [done|]. cbn [orb].
      destruct (Nat.ltb_spec (i + 1) (dirty_from s)); [lia|done]. }
  assert (Hlog : log (changed_from (s1 <| log := log s1 ++ [e] |>) (i + 1)) = take (i + 1) L).
  { rewrite Nat.add_1_r, (take_S_snoc _ _ _ He). destruct Hs1 as [[-> <-]| ->]; done. }
  split; [by destruct Hs1 as [[-> _]| ->]|]. right. rewrite Hdf. split; [done|]. split; [done|].
  destruct (Nat.eqb_spec (dirty_from s) 0) as [E|E]; [split; [done|by apply Hf]|].
  destruct Hl as [(_ & _ & ? & _)|(_ & _ & ? & Hfc)]; [done|]. split; [lia|done].
Qed.

Section loop.
Context (s0 : Raft S) (L : list Entry).
Hypothesis Hmatch : ∀ k e e', log s0 !! k = Some e → L !! k = Some e' → e_term e = e_term e' →
  take (Datatypes.S k) (log s0) = take (Datatypes.S k) L.
Hypothesis Hcommit : take (commit s0) (log s0) = take (commit s0) L.

Lemma append_entries_ok es : ∀ i s, appending s0 L i s → i + length es ≤ length L →
  es = take (length es) (drop i L) →
  ∃ s', append_entries s i es = (true, s') ∧ appending s0 L (i + length es) s'.
Proof.
  induction es as [|e es IH]; intros i s Hap Hlen Hes.
  { exists s. split; [done|]. by rewrite Nat.add_0_r. }
  assert (He : L !! i = Some e).
  { assert (Hin : drop i L !! 0 = Some e) by (destruct (drop i L); simplify_eq/=; done).
    by rewrite lookup_drop, Nat.add_0_r in Hin. }
  assert (Hes' : es = take (length es) (drop (i + 1) L)).
  { rewrite <- drop_drop. destruct (drop i L) as [|x l]; [done|]. cbn in Hes |- *. rewrite drop_0. congruence. }
  cbn [length] in Hlen |- *. replace (i + Datatypes.S (length es)) with (i + 1 + length es) by lia.
  assert (Hgo : ∀ s', appending s0 L (i + 1) s' →
    ∃ s'', append_entries s' (i + 1) es = (true, s'') ∧ appending s0 L (i + 1 + length es) s'').
  { intros s' Hs'. apply IH; [done|lia|done]. }
  cbn [append_entries]. unfold last_index. destruct (ap_log _ _ _ _ Hap) as [(El & ET & Ef & Ed)|(El & Ed & Hf & Hfc)].
  - rewrite (f_equal length El). assert (Hi : i ≤ length (log s0)) by (eapply take_eq_length; [symmetry; exact ET|lia]).
    destruct (Nat.leb_spec (i + 1) (length (log s0))) as [Hle|Hgt].
    + destruct (lookup_lt_is_Some_2 (log s0) i) as [x Hx]; [lia|].
      assert (Hterm : term_at s (i + 1) = e_term x).
      { unfold term_at. rewrite El. destruct (term_at_lookup (log s0) (i + 1)) as (y & Hy & ->); [lia|].
        replace (i + 1 - 1) with i in Hy by lia. by simplify_eq. }
      rewrite Hterm. destruct (N.eqb_spec (e_term x) (e_term e)) as [Et|Et].
      * apply Hgo. destruct Hap as [Hs _]. split; [done|]. left. split_and!; [done| |done|done].
        rewrite Nat.add_1_r. by eapply Hmatch.
      * destruct (ap_same _ _ _ _ Hap) as (_ & _ & _ & _ & _ & Ec & _). rewrite Ec.
        destruct (Nat.leb_spec (i + 1) (commit s0)) as [Hc|Hc].
        { exfalso. pose proof (lookup_take_eq _ i _ _ Hcommit ltac:(lia)). congruence. }
        apply Hgo. replace (i + 1 - 1) with i by lia. cbv zeta.
        eapply (push_appending s0 s _ L i e (take i (log s))); [done|done|congruence| |by right].
        intros _. split_and!; [lia| | |]; replace (i + 1 - 1) with i by lia; [done|done|right].
        exists x, e. split_and!; [done|done|congruence].
    + apply Hgo. eapply (push_appending s0 s s L i e (log s)); [done|done| | |by left].
      { rewrite El, <- ET. by rewrite take_ge by lia. }
      intros _. split_and!; [lia| | |]; replace (i + 1 - 1) with i by lia; [done|done|left; lia].
  - rewrite (f_equal length El), length_take. destruct (Nat.leb_spec (i + 1) (i `min` length L)); [lia|]. apply Hgo.
    eapply (push_appending s0 s s L i e (take i L)); [done|done|done| |by left].
    intros E. destruct Hfc as (? & _). lia.
Qed.
End loop.

Lemma take_prefix_le {T} a b (l : list T) : a ≤ b → take a l `prefix_of` take b l.
Proof.
  intros Hab. exists (drop a (take b l)). rewrite <- (take_drop a (take b l)) at 1.
  by rewrite take_take, Nat.min_l by lia.
Qed.

(** What the loop leaves, and what an interrupted save of it leaves, are both
    ways to agree with the leader. *)
Lemma appending_absorbs s0 L i s : appending s0 L i s → i ≤ length L → absorbs (log s0) (log s) L i.
Proof.
  intros [_ [(-> & ET & _)|(-> & _ & Hf & H1' & H2' & H3' & H4')]] Hi; [by left|right].
  split; [done|]. destruct H4' as [E|(e & e' & ? & ? & ?)].
  - left. rewrite E, (take_ge (log s0)) in H3' by lia. rewrite H3'. apply take_prefix_le. lia.
  - right. exists (dirty_from s - 1), e, e'. split_and!; [done..|lia].
Qed.

Lemma appending_partial s0 L i s n : appending s0 L i s → dirty_from s ≠ 0 → dirty_from s - 1 ≤ n ≤ i →
  absorbs (log s0) (take n L) L n.
Proof.
  intros [_ [(_ & _ & ? & _)|(_ & _ & Hf & H1' & H2' & H3' & H4')]] Hne Hn; [done|right].
  split; [done|]. destruct H4' as [E|(e & e' & ? & ? & ?)].
  - left. rewrite E, (take_ge (log s0)) in H3' by lia. rewrite H3'. apply take_prefix_le. lia.
  - right. exists (dirty_from s - 1), e, e'. split_and!; [done..|lia].
Qed.

(** A follower's committed entries are its leader's. *)
Lemma committed_agrees A v L : Inv size A → v < size → tlog A !! a_term (nodes A v) = Some L →
  take (a_commit (nodes A v)) (a_log (nodes A v)) = take (a_commit (nodes A v)) L.
Proof.
  intros HI Hv HL. destruct (no_commit _ _ _ (inv_node _ _ HI v Hv)) as [->|(t0 & k & L0 & Hc & HL0 & Ht & Hk & HT)]; [done|].
  rewrite HT. symmetry. eapply take_eq_mono; [exact Hk|]. by eapply (commit_agrees size A t0 k (a_term (nodes A v))).
Qed.

(** The loop of [append_current] on a call that describes the leader's log. *)
Lemma append_loop A v s D from req L : Inv size A → v < size → live A v s D → dirty_from s = 0 →
  aq_term req = term s → call_ok A from (OutAppend v req) → tlog A !! aq_term req = Some L →
  aq_prev_index req ≤ last_index s → term_at s (aq_prev_index req) = aq_prev_term req →
  let m := aq_prev_index req + length (aq_entries req) in
  m ≤ length L ∧ ∃ s', append_entries s (aq_prev_index req) (aq_entries req) = (true, s') ∧ appending s L m s'.
Proof.
  intros HI Hv HL Hf Ht (L' & HL' & Hlen & Hpt & Hes & _) HLg Hle Hterm m.
  assert (L' = L) as -> by congruence. split; [done|].
  pose proof (lv_node _ _ _ _ _ HL) as Hn. destruct (inv_node _ _ HI v Hv) as [Hmat _ _ _ _].
  rewrite Hn in Hmat. cbn in Hmat. destruct (inv_tlog _ _ HI _ _ HLg) as (HmL & _ & _).
  assert (Hmatch : ∀ k e e', log s !! k = Some e → L !! k = Some e' → e_term e = e_term e' →
    take (Datatypes.S k) (log s) = take (Datatypes.S k) L) by (intros; by eapply matching_same).
  apply append_entries_ok; [done| | |done|done].
  - pose proof (committed_agrees A v L HI Hv) as Hc. rewrite Hn in Hc. cbn in Hc.
    eapply take_eq_mono; [|apply Hc; by rewrite <- Ht]. unfold reached. lia.
  - split; [done|]. left. split_and!; [done| |done|done].
    destruct (aq_prev_index req) as [|k]; [done|]. unfold last_index in Hle. unfold term_at in Hterm.
    destruct (term_at_lookup (log s) (Datatypes.S k)) as (e & He & E1); [lia|].
    destruct (term_at_lookup L (Datatypes.S k)) as (e' & He' & E2); [lia|].
    replace (Datatypes.S k - 1) with k in * by lia. eapply Hmatch; [done|done|congruence].
Qed.

Lemma appending_live A A2 v s s2 D L m : Inv size A → live A v s D → dirty_from s = 0 → role s = Follower →
  appending s L m s2 → m ≤ length L → grows A A2 → nodes A2 v = (nodes A v) <| a_log := log s2 |> →
  live A2 v s2 D.
Proof.
  intros HI HL Hf Hr Hap Hm G Hn2. pose proof (lv_meta _ _ _ _ _ HL Hf) as HDl.
  destruct Hap as [(F1 & F2 & F3 & F4 & F5 & F13 & F7 & F8 & F9 & F10 & F11 & F12 & F6) Hlog].
  destruct HL as [R1 R2 R3 R4 R5 R6 R7 R8 R9 R10 R11 R12 R13 R14]. rewrite R3 in Hn2.
  split; rewrite ?F1, ?F2, ?F3, ?F4, ?F5, ?F6, ?F7, ?F8, ?F9, ?F10, ?F11, ?F12; try done; try congruence.
  - eapply Forall_impl; [exact R9|]. intros o. by apply call_ok_mono.
  - intros Hd. destruct Hlog as [(-> & _ & -> & Ed)|(_ & ? & _)]; [|congruence]. split; [done|].
    rewrite Ed in Hd. by apply R11.
  - intros E. destruct Hlog as [(-> & _)|(_ & _ & _ & ? & _)]; [done|lia].
  - intros E. destruct Hlog as [(_ & _ & ? & _)|(-> & _ & Hfi & H1' & H2' & H3' & _)]; [done|].
    unfold can_save. rewrite HDl. split_and!; [done|done|rewrite length_take; lia|].
    rewrite take_take, Nat.min_l by lia. done.
Qed.

Lemma appending_recovers A0 A1 A2 v s s2 s3 D L m : at_disk (nodes A0 v) D → v < size →
  moves size v A0 A1 → live A1 v s D → dirty_from s = 0 → role s = Follower → tlog A1 !! term s = Some L →
  appending s L m s2 → m ≤ length L → moves size v A1 A2 →
  nodes A2 v = (nodes A1 v) <| a_log := log s2 |> →
  term s3 = term s2 → voted_for s3 = voted_for s2 → log s3 = log s2 → dirty_from s3 = dirty_from s2 →
  recovers size A0 v D s3.
Proof.
  intros HD Hv Hm1 HL Hf Hr HLg Hap Hm Hm2 Hn2 E1 E2 E3 E4 D' Hp.
  pose proof (lv_meta _ _ _ _ _ HL Hf) as HDl. pose proof (lv_node _ _ _ _ _ HL) as Hn.
  unfold save_from, last_index in Hp. rewrite E1, E2, E3, E4 in Hp.
  destruct (ap_same _ _ _ _ Hap) as (_ & _ & F3 & F4 & _). rewrite F3, F4 in Hp.
  destruct Hp as [->|[->|(n & Hlen & ->)]].
  - exists A0. by split; [reflexivity|].
  - exists A1. split; [done|]. by rewrite Hn, HDl.
  - destruct (Nat.eqb_spec (dirty_from s2) 0) as [Hz|Hz].
    + exists A2. split; [by etrans|]. rewrite Hn2, Hn. split_and!; [done|done|]. upd. cbn. by rewrite take_ge by lia.
    + destruct (ap_log _ _ _ _ Hap) as [(_ & _ & ? & _)|(El & _)]; [done|]. rewrite El in Hlen |- *.
      rewrite length_take in Hlen. rewrite take_take, Nat.min_l by lia.
      destruct (move_accept size A1 v L n (take n L) Hv) as (A3 & Hm3 & Hn3 & _).
      { by rewrite Hn. } { by rewrite Hn. } { lia. }
      { rewrite Hn. eapply appending_partial; [done|done|lia]. }
      exists A3. split; [by etrans|]. rewrite Hn3, Hn. done.
Qed.

Lemma answer_sim A0 A v s D reply r s' :
  Inv size A0 → v < size → moves size v A0 A → live A v s D → recovers size A0 v D s →
  answer_append s reply = (r, s') →
  ∃ A', handled size A0 v s' A' ∧ (ar_success r = true → r = reply ∧ moves size v A A').
Proof.
  intros HI Hv Hm HL HR. destruct (finish_sim size A0 A v s D HI Hv Hm HL HR) as (A' & Hh & Hlive).
  unfold answer_append. cbv zeta. destruct (stopped (finish s)) eqn:Hst; intros [= <- <-]; exists A'; (split; [done|]).
  - done.
  - intros _. split; [done|by apply Hlive].
Qed.

(** A replica may forget how far it knew the log committed. *)
Lemma move_forget A v c L : Inv size A → v < size → tlog A !! a_term (nodes A v) = Some L → c ≤ a_commit (nodes A v) →
  ∃ A', moves size v A A' ∧ nodes A' v = (nodes A v) <| a_commit := c |>.
Proof.
  intros HI Hv HL Hc. pose proof (committed_agrees A v L HI Hv HL) as HT.
  pose proof (commit_ok_length _ _ _ HI (no_commit _ _ _ (inv_node _ _ HI v Hv))) as Hlen.
  apply (move_learn size A v c L Hv); [done|by eapply take_eq_mono| |].
  - pose proof (take_eq_length _ _ _ HT Hlen). lia.
  - eapply known_commit_le; [exact Hc|]. by apply (node_known_commit size).
Qed.

Lemma learn_commit_sim A v s D L lc m : Inv size A → v < size → live A v s D →
  tlog A !! term s = Some L → take m (log s) = take m L → m ≤ length L → known_commit A (term s) lc →
  ∃ A', moves size v A A' ∧ live A' v (learn_commit s lc m) D.
Proof.
  intros HI Hv HL HLg HT Hm Hk. unfold learn_commit. pose proof (lv_node _ _ _ _ _ HL) as Hn.
  destruct (commit s <? lc); [|exists A; split; [reflexivity|done]].
  set (c := Nat.max (Nat.min lc m) (applied s)).
  assert (HA : ∃ A', moves size v A A' ∧ nodes A' v = (nodes A v) <| a_commit := c |>).
  { destruct (decide (c ≤ reached s)) as [Hle|Hgt].
    - apply (move_forget A v c L HI Hv); rewrite Hn; done.
    - assert (Hc : c = Nat.min lc m) by (unfold reached in Hgt; lia).
      apply (move_learn size A v c L Hv); rewrite ?Hn; cbn.
      + done.
      + eapply take_eq_mono; [|exact HT]. lia.
      + lia.
      + eapply known_commit_le; [|exact Hk]. lia. }
  destruct HA as (A' & Hm' & Hn'). exists A'. split; [done|]. destruct (moves_inv _ _ _ _ HI Hm') as [_ G]. by eapply live_mono.
Qed.

Lemma append_current_sim A0 A1 v s D from req r s' :
  Inv size A0 → v < size → at_disk (nodes A0 v) D → moves size v A0 A1 → live A1 v s D →
  dirty_from s = 0 → role s = Follower → aq_term req = term s → call_ok A1 from (OutAppend v req) →
  append_current s req = (r, s') →
  ∃ A', handled size A0 v s' A'
    ∧ (ar_success r = true → (aq_term req, v, aq_prev_index req + length (aq_entries req)) ∈ acks A').
Proof.
  intros HI Hv HD Hm1 HL Hf Hr Ht Hcall. pose proof (recovers_meta size A0 A1 v D s HD Hm1 HL Hf) as HR.
  destruct (moves_inv _ _ _ _ HI Hm1) as [HI1 _]. unfold append_current. cbv zeta.
  destruct (Nat.ltb_spec (last_index s) (aq_prev_index req)) as [Hlt|Hge].
  { intros Ha. destruct (answer_sim A0 A1 v s D _ _ _ HI Hv Hm1 HL HR Ha) as (A' & Hh & Hs).
    exists A'. split; [done|]. intros E. by destruct (Hs E) as [-> _]. }
  destruct (N.eqb_spec (term_at s (aq_prev_index req)) (aq_prev_term req)) as [Hpt|Hpt]; cbn [negb].
  2: { intros Ha. destruct (answer_sim A0 A1 v s D _ _ _ HI Hv Hm1 HL HR Ha) as (A' & Hh & Hs).
    exists A'. split; [done|]. intros E. by destruct (Hs E) as [-> _]. }
  pose proof Hcall as (L & HLg & _ & _ & _ & Hkc).
  destruct (append_loop A1 v s D from req L HI1 Hv HL Hf Ht Hcall HLg Hge Hpt) as (Hm & s2 & -> & Hap).
  set (m := aq_prev_index req + length (aq_entries req)) in *. rewrite Ht in HLg, Hkc.
  pose proof (lv_node _ _ _ _ _ HL) as Hn.
  destruct (move_accept size A1 v L m (log s2) Hv) as (A2 & Hm2 & Hn2 & Hack & Etl & Ecm); rewrite ?Hn; cbn [a_role a_term a_log]; [done|done|done| |].
  { by apply appending_absorbs. }
  rewrite Hn in Hn2, Hack. cbn [a_term] in Hack. destruct (moves_inv _ _ _ _ HI1 Hm2) as [HI2 G2].
  assert (HL2 : live A2 v s2 D) by (eapply (appending_live A1 A2 v s); [..|by rewrite Hn]; done).
  destruct (ap_same _ _ _ _ Hap) as (_ & _ & F3 & F4 & _).
  destruct (learn_commit_sim A2 v s2 D L (aq_commit req) m) as (A3 & Hm3 & HL3); [done|done|done| | |done| |].
  { by rewrite F3, Etl. }
  { destruct (ap_log _ _ _ _ Hap) as [(-> & ? & _)|(-> & _)]; [done|]. by rewrite take_take, Nat.min_id. }
  { rewrite F3. by eapply known_commit_mono. }
  intros Ha.
  assert (HR3 : recovers size A0 v D (learn_commit s2 (aq_commit req) m)).
  { eapply (appending_recovers A0 A1 A2 v s s2 _ D L m); try done; [by rewrite Hn|..];
      unfold learn_commit; by destruct (_ <? _). }
  destruct (answer_sim A0 A3 v _ D _ _ _ HI Hv ltac:(etrans; [exact Hm1|]; by etrans) HL3 HR3 Ha) as (A' & Hh & Hs).
  exists A'. split; [done|]. intros E. destruct (Hs E) as [-> Hm4].
  destruct (moves_inv _ _ _ _ HI2 Hm3) as [HI3 G3]. destruct (moves_inv _ _ _ _ HI3 Hm4) as [_ G4].
  rewrite Ht. by apply (gr_acks _ _ G4), (gr_acks _ _ G3).
Qed.

(** The replica as it meets an APPEND of its own or a later term. *)
Definition met_leader s (req : AppendRequest) (now : Millis) : Raft S :=
  reset_election_timer (become_follower s (aq_term req) (Some (aq_leader req)) now) now.

Lemma met_leader_sim A0 v s D req now : Inv size A0 → v < size → live A0 v s D → dirty s = false →
  (term s <= aq_term req)%N → let s1 := met_leader s req now in
  ∃ A1, moves size v A0 A1 ∧ live A1 v s1 D ∧ dirty_from s1 = 0 ∧ role s1 = Follower ∧ aq_term req = term s1.
Proof.
  intros HI Hv HL Hd Ht s1. set (s0 := become_follower s (aq_term req) (Some (aq_leader req)) now) in *.
  destruct (become_follower_sim size A0 v s D (aq_term req) (Some (aq_leader req)) now HI Hv HL) as (A1 & Hm & Hn).
  pose proof (become_follower_frame s (aq_term req) (Some (aq_leader req)) now) as F.
  destruct (become_follower_spec s (aq_term req) (Some (aq_leader req)) now) as (E1 & E2 & _). fold s0 in Hn, F, E1, E2.
  destruct (moves_inv _ _ _ _ HI Hm) as [_ G]. pose proof (live_frame _ _ _ _ _ _ _ G Hn F HL) as HL1.
  destruct (clean_disk _ _ _ _ _ HL Hd) as [_ Hf]. exists A1. split; [done|].
  split; [apply (live_same size A1 v s0); [by split|exact (lv_out _ _ _ _ _ HL1)|done]|].
  change (dirty_from s1) with (dirty_from s0). change (role s1) with (role s0). change (term s1) with (term s0).
  rewrite (fr_from _ _ F), E1, E2. split_and!; [done|done|]. destruct (N.ltb_spec (term s) (aq_term req)); lia.
Qed.

Lemma handle_append_sim A0 v s D from req now r s' :
  Inv size A0 → v < size → live A0 v s D → dirty s = false → call_ok A0 from (OutAppend v req) →
  handle_append s req now = (r, s') →
  ∃ A', handled size A0 v s' A' ∧ msg_ok size A' (MAppendReply v from req r).
Proof.
  intros HI Hv HL Hd Hcall. unfold handle_append. rewrite (lv_run _ _ _ _ _ HL).
  destruct (N.ltb_spec (aq_term req) (term s)) as [Hlt|Hge].
  - intros [= <- <-]. destruct (sent_input A0 v s s D) as (A' & Hh); [done..|split; [done|reflexivity]|].
    exists A'. split; [done|]. done.
  - fold (met_leader s req now).
    destruct (met_leader_sim A0 v s D req now) as (A1 & Hm1 & HL1 & Hf1 & Hr1 & Ht1); [done..|].
    set (s1 := met_leader s req now) in *. clearbody s1. destruct (moves_inv _ _ _ _ HI Hm1) as [_ G1]. intros Ha.
    destruct (clean_disk _ _ _ _ _ HL Hd) as [HD _].
    destruct (append_current_sim A0 A1 v s1 D from req r s') as (A' & Hh & Hs); try done; [by eapply call_ok_mono|].
    exists A'. done.
Qed.

(** ** Starting *)

Lemma raft_init_sim A0 v st rs now : Inv size A0 → v < size → at_disk (nodes A0 v) (held st) →
  (d_term (held st) + 1 < W64N)%N → ∃ A', handled size A0 v (raft_init (conf v) st (held st) rs now) A'.
Proof.
  intros HI Hv HD Ht. unfold raft_init. cbv zeta.
  set (s0 := reset_election_timer (raft_fields (conf v) st (held st) rs) now).
  destruct (move_crash size A0 v Hv) as (A1 & Hm1 & Hn1). destruct (moves_inv _ _ _ _ HI Hm1) as [HI1 _].
  destruct HD as (E1 & E2 & E3).
  assert (HD1 : at_disk (nodes A1 v) (held st)) by (by rewrite Hn1).
  assert (HL : live A1 v s0 (held st)).
  { split; try done; cbn.
    - rewrite Hn1. upd. by destruct (nodes A0 v), (held st); simplify_eq/=.
    - change (length (replicate (cfg_size (conf v)) 1) = size ∧ length (replicate (cfg_size (conf v)) 0) = size
        ∧ length (replicate (cfg_size (conf v)) false) = size). by rewrite !length_replicate, conf_size.
    - split; [done|]. change (held st = mkDurable (d_term (held st)) (d_voted_for (held st)) (d_log (held st))).
      by destruct (held st). }
  assert (Hf : dirty_from s0 = 0) by done. assert (Hd : dirty s0 = false) by done.
  change (d_term (held st)) with (term s0) in Ht. clearbody s0.
  assert (HA : ∃ A, moves size v A1 A ∧ live A v (if cfg_size (conf v) =? 1 then start_election s0 now else s0) (held st)
      ∧ recovers size A1 v (held st) (if cfg_size (conf v) =? 1 then start_election s0 now else s0)).
  { destruct (_ =? 1); [by apply start_election_sim|]. exists A1. split_and!; [reflexivity|done|].
    by apply (recovers_meta size A1 A1). }
  destruct HA as (A & Hm & HL' & HR). destruct (finish_sim size A1 A v _ _ HI1 Hv Hm HL' HR) as (A' & (Hm' & Hrest) & _).
  exists A'. split; [by etrans|done].
Qed.
End inputs.
