(* ===== verification/RaftSafety.v ===== *)
(** * RaftSafety: a running group of replicas is safe

    The simulation of the world of RaftCluster.v by the protocol of RaftSpec.v,
    and what follows for every reachable world: election safety, log matching,
    leader completeness, state-machine safety, one vote per term, durability of
    everything a replica has said, and that the fail-stop of [handle_append] is
    never taken. *)
From S2P Require Import Prelude Text Raft RaftSpec RaftCluster RaftRefine RaftInputs.

Section safety.
Context {S : Type} `{StorageOk S} (size : nat) `{GroupConfig size}.
Implicit Types (s : Raft S) (W : World S).

(** ** The simulation *)

(** An input a replica ignores. *)
Lemma ignored A v s s' : proc_ok size A v (Up s) → same s s' → out s' = out s → handled size A v s' A.
Proof.
  intros Hp E Eo. split; [reflexivity|]. unfold proc_ok in Hp. destruct (stopped s) eqn:Hst.
  - destruct Hp as (Hd & Ho & Ha). rewrite Eo, (sm_applied _ _ E), Ho, Ha. split_and!; [|constructor..].
    apply proc_ok_stopped; upd; [|by rewrite (sm_storage _ _ E)|done|done]. by rewrite (sm_stopped _ _ E).
  - destruct Hp as [HL Hd]. rewrite Eo, (sm_applied _ _ E), (lv_applied _ _ _ _ _ HL).
    split_and!; [|exact (lv_out _ _ _ _ _ HL)|constructor].
    assert (HL' : live size A v s' (held (storage s))).
    { apply (live_same size A v s); [done| |done]. rewrite Eo. exact (lv_out _ _ _ _ _ HL). }
    apply (settled_ok size A v s' (held (storage s))); [|by rewrite (sm_dirty _ _ E)].
    apply (live_same size A v s'); [|exact (lv_out _ _ _ _ _ HL')|done].
    split; try done. upd. symmetry. apply (lv_applied _ _ _ _ _ HL').
Qed.

(** One input at a running replica, whatever it is. *)
Definition input_ok (A : AState) (v : nat) (s' : Raft S) (replies : list Msg) : Prop :=
  ∃ A', handled size A v s' A' ∧ Forall (msg_ok size A') replies.

Lemma input_settles A W v s' replies : Inv size A → sim size A W → input_ok A v s' replies →
  ∃ A', moves size v A A' ∧ sim size A' (settle W v s' replies).
Proof.
  intros HI Hsim (A' & Hh & Hr). exists A'. split; [apply Hh|]. by eapply settle_sim.
Qed.

Lemma replace_sim A W v p : sim size A W → proc_ok size A v p → sim size A (replace_proc W v p).
Proof.
  intros [K1 K2 K3] Hp. split; [|done|done]. intros u Hu. unfold replace_proc. cbn.
  case_decide; [by subst|auto].
Qed.

Lemma disk_swap A v s st : held st = held (storage s) → proc_ok size A v (Up s) →
  proc_ok size A v (Up (s <| storage := st |>)).
Proof.
  intros Eh. unfold proc_ok. change (stopped (s <| storage := st |>)) with (stopped s).
  change (storage (s <| storage := st |>)) with st. rewrite Eh.
  destruct (stopped s); [done|]. intros [HL Hd]. split; [|done]. destruct HL. by split.
Qed.

Lemma down_ok A v s : proc_ok size A v (Up s) → proc_ok size A v (Down (storage s)).
Proof.
  unfold proc_ok. destruct (stopped s); [by intros [? _]|]. intros [HL Hd]. by apply (clean_disk size A v s).
Qed.

Lemma sim_step A W W' : Inv size A → sim size A W → wstep size W W' →
  ∃ A' v, moves size v A A' ∧ sim size A' W'.
Proof.
  intros HI Hsim Hstep.
  assert (Hidle : ∀ v s s' replies, v < size → procs W v = Up s → same s s' → out s' = out s →
    Forall (msg_ok size A) replies → ∃ A' v0, moves size v0 A A' ∧ sim size A' (settle W v s' replies)).
  { intros v s s' replies Hv Hup E Eo Hrep. pose proof (sim_procs _ _ _ Hsim v Hv) as Hp. rewrite Hup in Hp.
    destruct (input_settles A W v s' replies HI Hsim) as (A' & ? & ?); [|by eexists _, _].
    exists A. split; [by eapply ignored|done]. }
  assert (Hlive : ∀ v s, v < size → procs W v = Up s → stopped s = false →
    live size A v s (held (storage s)) ∧ dirty s = false).
  { intros v s Hv Hup Hst. pose proof (sim_procs _ _ _ Hsim v Hv) as Hp. rewrite Hup in Hp. cbn in Hp. by rewrite Hst in Hp. }
  assert (Hgo : ∀ v s' replies, input_ok A v s' replies →
    ∃ A' v0, moves size v0 A A' ∧ sim size A' (settle W v s' replies)).
  { intros v s' replies Hin. destruct (input_settles A W v s' replies HI Hsim Hin) as (A' & ? & ?). by eexists _, _. }
  pose proof (sim_net _ _ _ Hsim) as Hnet. rewrite Forall_forall in Hnet.
  destruct Hstep as [v s now Hv Hup Ht|v from req s now r s' Hv Hup Hin Heq|v from req s now r s' Hv Hup Hin Heq
    |v from sent r s now Hv Hup Hin|v from sent r s now Hv Hup Hin|v to sent s now Hv Hup|v cmd s now Hv Hup
    |v id s now Hv Hup|v s Hv Hup|v s Hv Hup|v st rs now Hv Hdown Ht|v s st Hv Hup Hst].
  - destruct (stopped s) eqn:Hs.
    + unfold tick. rewrite Hs. by apply (Hidle v s).
    + destruct (Hlive v s Hv Hup Hs) as [HL Hd]. apply Hgo.
      destruct (tick_sim size A v s _ now HI Hv HL Hd Ht) as (A' & Hh). by exists A'.
  - destruct (stopped s) eqn:Hs.
    + unfold handle_vote in Heq. rewrite Hs in Heq. simplify_eq. apply (Hidle v s'); [done..|].
      apply Forall_singleton. done.
    + destruct (Hlive v s Hv Hup Hs) as [HL Hd]. apply Hgo.
      destruct (handle_vote_sim size A v s _ from req now r s' HI Hv HL Hd (Hnet _ Hin) Heq) as (A' & Hh & Hm).
      exists A'. split; [done|by apply Forall_singleton].
  - destruct (stopped s) eqn:Hs.
    + unfold handle_append in Heq. rewrite Hs in Heq. simplify_eq. apply (Hidle v s'); [done..|].
      apply Forall_singleton. done.
    + destruct (Hlive v s Hv Hup Hs) as [HL Hd]. apply Hgo.
      destruct (handle_append_sim size A v s _ from req now r s' HI Hv HL Hd (Hnet _ Hin) Heq) as (A' & Hh & Hm).
      exists A'. split; [done|by apply Forall_singleton].
  - destruct (stopped s) eqn:Hs.
    + unfold handle_vote_reply. rewrite Hs. by apply (Hidle v s).
    + destruct (Hlive v s Hv Hup Hs) as [HL Hd]. apply Hgo.
      destruct (handle_vote_reply_sim size A v s _ from sent r now HI Hv HL Hd (Hnet _ Hin)) as (A' & Hh). by exists A'.
  - destruct (stopped s) eqn:Hs.
    + unfold handle_append_reply. rewrite Hs. by apply (Hidle v s).
    + destruct (Hlive v s Hv Hup Hs) as [HL Hd]. apply Hgo.
      destruct (handle_append_reply_sim size A v s _ from sent r now HI Hv HL Hd (Hnet _ Hin)) as (A' & Hh). by exists A'.
  - apply (Hidle v s); [done|done| | |done].
    + unfold call_failed. destruct sent; [done|]. cbv zeta. destruct (stopped s || _); [done|].
      destruct (_ && _); by split.
    + unfold call_failed. destruct sent; [done|]. cbv zeta. destruct (stopped s || _); [done|].
      by destruct (_ && _).
  - destruct (stopped s || negb (bool_decide (role s = Leader))) eqn:Hs.
    + unfold propose. rewrite Hs. by apply (Hidle v s).
    + bool_to_prop. destruct (Hlive v s Hv Hup ltac:(done)) as [HL Hd]. apply Hgo.
      destruct (propose_sim size A v s _ cmd now HI Hv HL Hd ltac:(done)) as (A' & Hh). by exists A'.
  - destruct (stopped s || negb (bool_decide (role s = Leader))) eqn:Hs.
    + unfold read. rewrite Hs. by apply (Hidle v s).
    + bool_to_prop. destruct (Hlive v s Hv Hup ltac:(done)) as [HL Hd]. apply Hgo.
      destruct (read_sim size A v s _ id now HI Hv HL Hd ltac:(done)) as (A' & Hh). by exists A'.
  - by apply (Hidle v s).
  - exists A, v. split; [reflexivity|]. apply replace_sim; [done|]. apply down_ok.
    rewrite <- Hup. by apply (sim_procs _ _ _ Hsim).
  - apply Hgo. pose proof (sim_procs _ _ _ Hsim v Hv) as Hp. rewrite Hdown in Hp.
    destruct (raft_init_sim size A v st rs now HI Hv Hp Ht) as (A' & Hh). by exists A'.
  - exists A, v. split; [reflexivity|]. apply replace_sim; [done|]. apply disk_swap; [done|].
    rewrite <- Hup. by apply (sim_procs _ _ _ Hsim).
Qed.

Lemma sim_run A W W' : Inv size A → sim size A W → rtc (wstep size) W W' →
  ∃ A', Inv size A' ∧ grows A A' ∧ sim size A' W'.
Proof.
  intros HI Hsim Hrun. revert A HI Hsim. induction Hrun as [W|W W1 W2 Hstep Hrun IH]; intros A HI Hsim.
  - exists A. split_and!; [done|reflexivity|done].
  - destruct (sim_step A W W1 HI Hsim Hstep) as (A1 & v & Hm & Hsim1).
    destruct (moves_inv _ _ _ _ HI Hm) as [HI1 G1].
    destruct (IH A1 HI1 Hsim1) as (A2 & HI2 & G2 & Hsim2). exists A2. split_and!; [done|by etrans|done].
Qed.

Lemma sim_reach W : wreach size W → ∃ A, Inv size A ∧ sim size A W.
Proof.
  intros (W0 & (Hp & Hn & Hh) & Hrun).
  destruct (sim_run ainit W0 W) as (A & HI & _ & Hsim); [apply ainit_inv| |done|eauto].
  split; [|by rewrite Hn|by rewrite Hh]. intros v Hv. destruct (Hp v) as (st & -> & Hst). cbn. by rewrite Hst.
Qed.

(** ** What follows *)

(** The term a process has on disk or in memory. *)
Definition proc_term (p : Process S) : Term :=
  match p with
  | Down st => d_term (held st)
  | Up s => if stopped s then d_term (held (storage s)) else term s
  end.

Lemma proc_term_abs A v p : proc_ok size A v p → a_term (nodes A v) = proc_term p.
Proof.
  destruct p as [st|s]; cbn; [by intros [-> _]|]. destruct (stopped s); [by intros [[-> _] _]|].
  intros [HL _]. by rewrite (lv_node _ _ _ _ _ HL).
Qed.

Definition leads W (v : nat) s : Prop :=
  v < size ∧ procs W v = Up s ∧ stopped s = false ∧ role s = Leader.

Lemma leads_abs A W v s : Inv size A → sim size A W → leads W v s →
  tlog A !! term s = Some (log s) ∧ tlead A !! term s = Some v.
Proof.
  intros HI Hsim (Hv & Hup & Hst & Hr). pose proof (sim_procs _ _ _ Hsim v Hv) as Hp. rewrite Hup in Hp. cbn in Hp.
  rewrite Hst in Hp. destruct Hp as [HL _]. pose proof (lv_node _ _ _ _ _ HL) as Hn.
  pose proof (no_leader _ _ _ (inv_node _ _ HI v Hv)) as Hlead. rewrite Hn in Hlead. by apply Hlead.
Qed.

Definition runs W (v : nat) s : Prop := v < size ∧ procs W v = Up s ∧ stopped s = false.

Lemma runs_live A W v s : sim size A W → runs W v s → live size A v s (held (storage s)) ∧ dirty s = false.
Proof.
  intros Hsim (Hv & Hup & Hst). pose proof (sim_procs _ _ _ Hsim v Hv) as Hp. rewrite Hup in Hp. cbn in Hp.
  by rewrite Hst in Hp.
Qed.

(** C5. A term has at most one leader, ever: if a replica leads term [t] in a reachable world and a replica leads the same term in that world or any later one, they are the same replica, whatever was lost, repeated, reordered or crashed in between. *)
Theorem election_safety W W' u v s s' :
  wreach size W → rtc (wstep size) W W' → leads W u s → leads W' v s' → term s = term s' → u = v.
Proof.
  intros HW Hrun Hu Hv Ht. destruct (sim_reach W HW) as (A & HI & Hsim).
  destruct (sim_run A W W' HI Hsim Hrun) as (A' & HI' & G & Hsim').
  destruct (leads_abs A W u s HI Hsim Hu) as [_ Hlu]. destruct (leads_abs A' W' v s' HI' Hsim' Hv) as [_ Hlv].
  apply (gr_tlead _ _ G) in Hlu. rewrite Ht in Hlu. congruence.
Qed.

(** C6. If two running replicas hold entries of the same term at the same index, their logs are identical up to and including that index. *)
Theorem log_matching W u v s s' i e e' :
  wreach size W → runs W u s → runs W v s' → log s !! i = Some e → log s' !! i = Some e' →
  e_term e = e_term e' → take (i + 1) (log s) = take (i + 1) (log s').
Proof.
  intros HW Hu Hv Hi Hi' Ht. destruct (sim_reach W HW) as (A & HI & Hsim).
  destruct (runs_live A W u s Hsim Hu) as [HLu _]. destruct (runs_live A W v s' Hsim Hv) as [HLv _].
  pose proof (no_matching _ _ _ (inv_node _ _ HI u (proj1 Hu))) as Hmu.
  pose proof (no_matching _ _ _ (inv_node _ _ HI v (proj1 Hv))) as Hmv.
  rewrite (lv_node _ _ _ _ _ HLu) in Hmu. rewrite (lv_node _ _ _ _ _ HLv) in Hmv.
  rewrite Nat.add_1_r. by eapply (matching_same A).
Qed.

(** Entries handed over at one index are one entry. *)
Lemma handed_once W u v i e e' : wreach size W → (u, i, e) ∈ handed W → (v, i, e') ∈ handed W → e = e'.
Proof.
  intros HW Hu Hv. destruct (sim_reach W HW) as (A & HI & Hsim).
  pose proof (sim_handed _ _ _ Hsim) as Hh. rewrite Forall_forall in Hh.
  destruct (inv_apps _ _ HI _ _ _ (Hh _ Hu)) as (t & k & L & Hc & HL & Hi & He & _).
  destruct (inv_apps _ _ HI _ _ _ (Hh _ Hv)) as (t' & k' & L' & Hc' & HL' & Hi' & He' & _).
  destruct (N.le_ge_cases t t') as [Hle|Hle].
  - pose proof (commit_agrees _ _ _ _ _ _ _ HI Hc Hle HL HL') as HT.
    rewrite (lookup_take_eq k (i - 1) _ _ HT) in He' by lia. congruence.
  - pose proof (commit_agrees _ _ _ _ _ _ _ HI Hc' Hle HL' HL) as HT.
    rewrite (lookup_take_eq k' (i - 1) _ _ HT) in He by lia. congruence.
Qed.

(** C1. No two replicas, and no replica before and after a restart, are ever handed different entries for the same index. *)
Theorem state_machine_safety W u v i e e' :
  wreach size W → (u, i, e) ∈ handed W → (v, i, e') ∈ handed W → e = e'.
Proof. apply handed_once. Qed.

(** C2. An entry handed to any state machine is in the log of every later leader. It was
    committed in some term - no earlier than the one it was created in, no later than
    the one of the replica that applied it - and whoever leads in that term or a later
    one, in this world or any that follows, holds it at its index: a candidate that
    was already standing when it was applied included. *)
Theorem leader_completeness W u i e :
  wreach size W → (u, i, e) ∈ handed W →
  ∃ t, (e_term e <= t <= proc_term (procs W u))%N ∧
    ∀ W' v s', rtc (wstep size) W W' → leads W' v s' → (t <= term s')%N → log s' !! (i - 1) = Some e.
Proof.
  intros HW Hu. destruct (sim_reach W HW) as (A & HI & Hsim).
  pose proof (sim_handed _ _ _ Hsim) as Hh. rewrite Forall_forall in Hh.
  destruct (inv_apps _ _ HI _ _ _ (Hh _ Hu)) as (t & k & L & Hc & HL & Hi & He & Hus & Hle). exists t.
  rewrite (proc_term_abs A u (procs W u)) in Hle by (by apply (sim_procs _ _ _ Hsim)).
  destruct (inv_tlog _ _ HI _ _ HL) as (_ & Hb & _). split; [split; [by apply (Hb _ _ He)|done]|].
  intros W' v s' Hrun Hv Hlt. destruct (sim_run A W W' HI Hsim Hrun) as (A' & HI' & G & Hsim').
  destruct (leads_abs A' W' v s' HI' Hsim' Hv) as [HLv _].
  destruct (gr_tlog _ _ G _ _ HL) as (L' & HL' & HP).
  pose proof (commit_agrees size A' t k (term s') L' (log s') HI' (gr_comm _ _ G _ Hc) Hlt HL' HLv) as HT.
  rewrite (lookup_take_eq k (i - 1) _ _ HT) by lia. by eapply prefix_lookup_Some.
Qed.

(** Among all the granted votes ever sent, those of one replica in one term are for one candidate, across crashes and restarts of the voter. *)
Theorem one_vote_per_term W v c c' req req' r r' :
  wreach size W → MVoteReply v c req r ∈ net W → MVoteReply v c' req' r' ∈ net W →
  vr_granted r = true → vr_granted r' = true → vq_term req = vq_term req' → c = c'.
Proof.
  intros HW Hm Hm' Hg Hg' Ht. destruct (sim_reach W HW) as (A & HI & Hsim).
  pose proof (sim_net _ _ _ Hsim) as Hn. rewrite Forall_forall in Hn.
  destruct (Hn _ Hm Hg) as (_ & _ & l & Hl). destruct (Hn _ Hm' Hg') as (_ & _ & l' & Hl').
  rewrite <- Ht in Hl'. destruct (inv_grant _ _ HI _ _ _ _ Hl') as (_ & _ & _ & _ & _ & Hu & _). by eapply Hu.
Qed.

(** C7. Between inputs, a running replica's term, vote and log are exactly what its disk holds: [finish] leaves nothing that was said or counted unsaved, for every storage that keeps its contract. *)
Theorem durable_before_output W v s :
  wreach size W → runs W v s → held (storage s) = mkDurable (term s) (voted_for s) (log s).
Proof.
  intros HW Hv. destruct (sim_reach W HW) as (A & HI & Hsim).
  destruct (runs_live A W v s Hsim Hv) as [HL Hd]. by destruct (lv_clean _ _ _ _ _ HL Hd) as [_ ?].
Qed.

(** The loop of [handle_append] never reaches its fail-stop: for any APPEND in flight, at any running replica, the entries are taken without cutting a committed one. *)
Theorem fail_stop_unreachable W v s from req now :
  wreach size W → runs W v s → MCall from (OutAppend v req) ∈ net W → (term s <= aq_term req)%N →
  let s1 := met_leader s req now in
  aq_prev_index req ≤ last_index s1 → term_at s1 (aq_prev_index req) = aq_prev_term req →
  (append_entries s1 (aq_prev_index req) (aq_entries req)).1 = true.
Proof.
  intros HW Hv Hin Ht s1 Hle Hpt. destruct (sim_reach W HW) as (A & HI & Hsim).
  destruct (runs_live A W v s Hsim Hv) as [HL Hd]. pose proof (sim_net _ _ _ Hsim) as Hn. rewrite Forall_forall in Hn.
  pose proof (Hn _ Hin) as Hcall. destruct Hv as (Hv & _).
  destruct (met_leader_sim size A v s _ req now HI Hv HL Hd Ht) as (A1 & Hm1 & HL1 & Hf1 & Hr1 & Ht1).
  destruct (moves_inv _ _ _ _ HI Hm1) as [HI1 G1]. pose proof (call_ok_mono _ _ _ _ G1 Hcall) as Hcall1.
  pose proof Hcall1 as (L & HLg & _).
  destruct (append_loop size A1 v _ _ from req L HI1 Hv HL1 Hf1 Ht1 Hcall1 HLg Hle Hpt) as (_ & s2 & Hs2 & _).
  fold s1 in Hs2. by rewrite Hs2.
Qed.

(** What a running replica has applied is the first [applied] entries of its log, and
    agrees with every other's. *)
Lemma applied_agree W u v s s' n : wreach size W → runs W u s → runs W v s' →
  n ≤ applied s → n ≤ applied s' → n ≤ length (log s) ∧ take n (log s) = take n (log s').
Proof.
  intros HW Hu Hv Hn Hn'. destruct (sim_reach W HW) as (A & HI & Hsim).
  destruct (runs_live A W u s Hsim Hu) as [HLu _]. destruct (runs_live A W v s' Hsim Hv) as [HLv _].
  pose proof (no_commit _ _ _ (inv_node _ _ HI u (proj1 Hu))) as Hcu.
  pose proof (no_commit _ _ _ (inv_node _ _ HI v (proj1 Hv))) as Hcv.
  pose proof (commit_ok_length _ _ _ HI Hcu) as Hlu. rewrite (lv_node _ _ _ _ _ HLu) in Hcu, Hlu.
  rewrite (lv_node _ _ _ _ _ HLv) in Hcv. unfold commit_ok, reached in *. cbn in Hcu, Hcv, Hlu.
  split; [lia|]. destruct (decide (n = 0)) as [->|Hnz]; [done|].
  destruct Hcu as [?|(t & k & L & Hc & HL & _ & Hk & HT)]; [lia|].
  destruct Hcv as [?|(t' & k' & L' & Hc' & HL' & _ & Hk' & HT')]; [lia|].
  apply (take_eq_mono n) in HT; [|lia]. apply (take_eq_mono n) in HT'; [|lia]. rewrite HT, HT'.
  destruct (N.le_ge_cases t t') as [Hle|Hle].
  - symmetry. eapply take_eq_mono; [|exact (commit_agrees _ _ _ _ _ _ _ HI Hc Hle HL HL')]. lia.
  - eapply take_eq_mono; [|exact (commit_agrees _ _ _ _ _ _ _ HI Hc' Hle HL' HL)]. lia.
Qed.
End safety.

(** ** Running a group

    A schedule of events executed on [MemoryStorage]; an event that is not
    possible is skipped. *)

Inductive Event :=
  | EStart (v : nat) | ECrash (v : nat) | EDisk (v : nat) (fails : bool)
  | ETick (v : nat) (now : Millis)
  | EDeliver (k : nat) (now : Millis)          (* the [k]-th message sent *)
  | EPropose (v : nat) (command : bytes) (now : Millis)
  | ERead (v : nat) (id : N) (now : Millis).

Section execute.
Context (size : nat) `{GroupConfig size}.
Implicit Types W : World MemoryStorage.

Definition deliver W (now : Millis) (m : Msg) : World MemoryStorage :=
  match m with
  | MCall from (OutVote v req) =>
      match decide (v < size), procs W v with
      | left _, Up s => let '(r, s') := handle_vote s req now in settle W v s' [MVoteReply v from req r]
      | _, _ => W
      end
  | MCall from (OutAppend v req) =>
      match decide (v < size), procs W v with
      | left _, Up s => let '(r, s') := handle_append s req now in settle W v s' [MAppendReply v from req r]
      | _, _ => W
      end
  | MVoteReply from v sent r =>
      match decide (v < size), procs W v with
      | left _, Up s => settle W v (handle_vote_reply s from sent r now) []
      | _, _ => W
      end
  | MAppendReply from v sent r =>
      match decide (v < size), procs W v with
      | left _, Up s => settle W v (handle_append_reply s from sent r now) []
      | _, _ => W
      end
  end.

Definition exec W (ev : Event) : World MemoryStorage :=
  match ev with
  | EStart v =>
      match decide (v < size), procs W v with
      | left _, Down st => if decide (d_term (held st) + 1 < W64N)%N
                           then settle W v (raft_init (conf v) st (held st) (λ _, 0%Z) 0) [] else W
      | _, _ => W
      end
  | ECrash v =>
      match decide (v < size), procs W v with
      | left _, Up s => replace_proc W v (Down (storage s))
      | _, _ => W
      end
  | EDisk v fails =>
      match decide (v < size), procs W v with
      | left _, Up s => replace_proc W v
          (Up (s <| storage := mkMemoryStorage (durable (storage s)) (saves (storage s)) fails |>))
      | _, _ => W
      end
  | ETick v now =>
      match decide (v < size), procs W v with
      | left _, Up s => if decide (term s + 1 < W64N)%N then settle W v (tick s now) [] else W
      | _, _ => W
      end
  | EDeliver k now => match net W !! k with Some m => deliver W now m | None => W end
  | EPropose v command now =>
      match decide (v < size), procs W v with
      | left _, Up s => settle W v (propose s command now).2 []
      | _, _ => W
      end
  | ERead v id now =>
      match decide (v < size), procs W v with
      | left _, Up s => settle W v (read s id now).2 []
      | _, _ => W
      end
  end.

Lemma exec_steps W ev : rtc (wstep size) W (exec W ev).
Proof.
  destruct ev as [v|v|v f|v now|k now|v c now|v id now]; cbn [exec].
  5: destruct (net W !! k) as [m|] eqn:Hk; [apply list_elem_of_lookup_2 in Hk|done];
     destruct m as [from [v req|v req]|from v sent r|from v sent r]; cbn [deliver].
  all: destruct (decide (v < size)) as [Hv|]; [|done]; destruct (procs W v) as [st|s] eqn:Hp; try done.
  - case_decide; [|done]. apply rtc_once. by apply (w_start size W v st (λ _, 0%Z) 0).
  - apply rtc_once. by apply w_crash.
  - apply rtc_once. by apply w_disk.
  - case_decide; [|done]. apply rtc_once. by apply w_tick.
  - destruct (handle_vote s req now) as [r s'] eqn:E. apply rtc_once. by eapply w_vote.
  - destruct (handle_append s req now) as [r s'] eqn:E. apply rtc_once. by eapply w_append.
  - apply rtc_once. by apply w_vote_reply.
  - apply rtc_once. by apply w_append_reply.
  - apply rtc_once. by apply w_propose.
  - apply rtc_once. by apply w_read.
Qed.

Lemma execs_steps evs W : rtc (wstep size) W (foldl exec W evs).
Proof.
  revert W. induction evs as [|ev evs IH]; intros W; [done|]. eapply rtc_trans; [apply exec_steps|apply IH].
Qed.
End execute.

(** Three replicas: 0 is elected, commits a command, all apply it; then 1 is
    elected in the next term. *)
#[export, refine] Instance demo_group : GroupConfig 3 := {| conf v := mkRaftConfig v 3 1000 65536 |}.
Proof. - done. - done. Defined.

Definition demo_start : World MemoryStorage :=
  mkWorld (λ _, Down (mkMemoryStorage (mkDurable 0 None []) 0 false)) [] [].

Definition demo_elected : World MemoryStorage := foldl (exec 3) demo_start
  [EStart 0; EStart 1; EStart 2; ETick 0 5000; EDeliver 0 5001; EDeliver 2 5002; EDeliver 3 5003; EDeliver 5 5004].
Definition demo_applied : World MemoryStorage := foldl (exec 3) demo_elected
  [EPropose 0 "SET a 1" 5005; EDeliver 6 5006; EDeliver 7 5007; ETick 0 5300; EDeliver 8 5301; EDeliver 9 5302].
Definition demo_reelected : World MemoryStorage := foldl (exec 3) demo_applied
  [ETick 1 20000; EDeliver 11 20001; EDeliver 12 20001].

Lemma demo_elected_reach : wreach 3 demo_elected.
Proof.
  exists demo_start. split; [|apply execs_steps]. split; [|done]. intros v. by eexists.
Qed.
Lemma demo_applied_reach : wreach 3 demo_applied.
Proof.
  destruct demo_elected_reach as (W0 & HW & Hr). exists W0. split; [done|].
  eapply rtc_trans; [done|apply execs_steps].
Qed.

(** The replica of a process that is up. *)
Definition the_raft (W : World MemoryStorage) (v : nat) : Raft MemoryStorage :=
  match procs W v with Up s => s | Down st => raft_fields (conf v) st (durable st) (λ _, 0%Z) end.
Definition runs_check (W : World MemoryStorage) (v : nat) : bool :=
  (v <? 3) && match procs W v with Up s => negb (stopped s) | Down _ => false end.

Lemma runs_check_ok W v : runs_check W v = true → runs 3 W v (the_raft W v).
Proof.
  unfold runs_check, runs, the_raft. intros E. apply andb_true_iff in E as [E1 E2].
  split; [by apply Nat.ltb_lt|]. destruct (procs W v); [done|]. split; [done|by apply negb_true_iff].
Qed.

Lemma leads_check_ok W v : runs_check W v = true → role (the_raft W v) = Leader → leads 3 W v (the_raft W v).
Proof. intros E Hr. destruct (runs_check_ok W v E) as (? & ? & ?). by split_and!. Qed.

Lemma election_safety_witness :
  leads 3 demo_elected 0 (the_raft demo_elected 0) ∧ leads 3 demo_applied 0 (the_raft demo_applied 0) ∧ 0 = 0.
Proof.
  assert (H1 : leads 3 demo_elected 0 (the_raft demo_elected 0)) by (by apply leads_check_ok; vm_compute).
  assert (H2 : leads 3 demo_applied 0 (the_raft demo_applied 0)) by (by apply leads_check_ok; vm_compute).
  split; [done|]. split; [done|].
  apply (election_safety 3 demo_elected demo_applied 0 0 (the_raft demo_elected 0) (the_raft demo_applied 0)
    demo_elected_reach); [apply execs_steps|done|done|].
  by vm_compute.
Defined.

Definition set_entry : Entry := mkEntry 1 "SET a 1".

Lemma log_matching_witness :
  take 2 (log (the_raft demo_applied 0)) = take 2 (log (the_raft demo_applied 1)).
Proof.
  apply (log_matching 3 demo_applied 0 1 (the_raft demo_applied 0) (the_raft demo_applied 1) 1 set_entry set_entry
    demo_applied_reach);
    by (apply runs_check_ok; vm_compute) || by vm_compute.
Defined.

Lemma state_machine_safety_witness :
  (0, 2, set_entry) ∈ handed demo_applied ∧ (1, 2, set_entry) ∈ handed demo_applied ∧ set_entry = set_entry.
Proof.
  assert (H1 : (0, 2, set_entry) ∈ handed demo_applied) by (apply (list_elem_of_lookup_2 _ 2); by vm_compute).
  assert (H2 : (1, 2, set_entry) ∈ handed demo_applied) by (apply (list_elem_of_lookup_2 _ 3); by vm_compute).
  split; [done|]. split; [done|]. by apply (state_machine_safety 3 demo_applied 0 1 2 _ _ demo_applied_reach).
Defined.

(** The entry at index 2 was applied in term 1; the leader of term 2 holds it. *)
Lemma leader_completeness_witness :
  ∃ t, (e_term set_entry <= t <= proc_term (procs demo_applied 0))%N ∧
    ∀ W' v s', rtc (wstep 3) demo_applied W' → leads 3 W' v s' → (t <= term s')%N → log s' !! (2 - 1) = Some set_entry.
Proof.
  apply (leader_completeness 3 demo_applied 0 2 set_entry demo_applied_reach).
  apply (list_elem_of_lookup_2 _ 2). by vm_compute.
Defined.

Lemma reelected_leader_has_it :
  leads 3 demo_reelected 1 (the_raft demo_reelected 1) ∧ term (the_raft demo_reelected 1) = 2%N ∧
  proc_term (procs demo_applied 0) = 1%N ∧ log (the_raft demo_reelected 1) !! 1 = Some set_entry.
Proof. split; [by apply leads_check_ok; vm_compute|]. by vm_compute. Qed.

Lemma one_vote_per_term_witness : ∃ req r, MVoteReply 1 0 req r ∈ net demo_elected ∧ vr_granted r = true ∧ 0 = 0.
Proof.
  exists (mkVoteRequest 1 0 0 0), (mkVoteReply 1 true).
  assert (H1 : MVoteReply 1 0 (mkVoteRequest 1 0 0 0) (mkVoteReply 1 true) ∈ net demo_elected).
  { apply (list_elem_of_lookup_2 _ 2). by vm_compute. }
  split; [done|]. split; [done|].
  by apply (one_vote_per_term 3 demo_elected 1 0 0 _ _ _ _ demo_elected_reach H1 H1).
Defined.

Lemma durable_before_output_witness :
  let s := the_raft demo_applied 1 in
  held (storage s) = mkDurable (term s) (voted_for s) (log s)
  ∧ voted_for s = Some 0 ∧ log s = [mkEntry 1 "NOOP"; set_entry].
Proof.
  cbv zeta. split; [|by vm_compute].
  apply (durable_before_output 3 demo_applied 1 (the_raft demo_applied 1) demo_applied_reach).
  by apply runs_check_ok; vm_compute.
Defined.

Definition demo_call : AppendRequest :=
  mkAppendRequest 1 0 1 1 [set_entry] 1 3.
Lemma fail_stop_unreachable_witness :
  (append_entries (met_leader (the_raft demo_applied 1) demo_call 6000) 1 [set_entry]).1 = true.
Proof.
  apply (fail_stop_unreachable 3 demo_applied 1 (the_raft demo_applied 1) 0 demo_call 6000 demo_applied_reach).
  - by apply runs_check_ok; vm_compute.
  - apply (list_elem_of_lookup_2 _ 6). by vm_compute.
  - by vm_compute.
  - vm_compute. lia.
  - by vm_compute.
Defined.
