(* ===== verification/RaftWire.v ===== *)
(** * RaftWire: Raft's calls as lines (raft_wire.h, raft_wire.cpp)

    Encoders and strict parsers of VOTE, APPEND and their replies. A parser
    gives [None] where the source returns false. *)
From S2P Require Import Prelude Text Chord Raft RaftSpec RaftCluster RaftSafety.

(** "0", or at most 18 digits with no leading zero. *)
Definition parse_u64 (s : bytes) : option N := parse_canonical 18 s.

Definition group_fingerprint `{Sha1} (members : list bytes) : bytes := take 8 (sha1 (join COMMA members)).

Definition parse_id (s : bytes) : option nat :=
  v ← parse_u64 s; if (1000 <? v)%N then None else Some (N.to_nat v).

Definition parse_flag (s : bytes) : option bool :=
  if bool_decide (s = lit "0") then Some false
  else if bool_decide (s = lit "1") then Some true else None.

Definition flag (b : bool) : bytes := if b then lit "1" else lit "0".
Definition idx (i : Index) : bytes := dec (N.of_nat i).
Definition parse_index (s : bytes) : option Index := N.to_nat <$> parse_u64 s.

Definition words (ws : list bytes) : bytes := join SPACE ws.

(** ** Encoders *)

Definition encode_vote (group : bytes) (req : VoteRequest) : bytes :=
  words [lit "VOTE"; group; dec (vq_term req); idx (vq_candidate req); idx (vq_last_index req);
         dec (vq_last_term req)].

Definition encode_vote_reply (reply : VoteReply) : bytes :=
  words [lit "VOTED"; dec (vr_term reply); flag (vr_granted reply)].

Definition encode_entry (e : Entry) : bytes := dec (e_term e) ++ SPACE :: e_command e ++ [NL].
Definition encode_entries (es : list Entry) : bytes := concat (encode_entry <$> es).

Definition append_words (group : bytes) (req : AppendRequest) (len : nat) : list bytes :=
  [lit "APPEND"; group; dec (aq_term req); idx (aq_leader req); idx (aq_prev_index req);
   dec (aq_prev_term req); idx (aq_commit req); dec (aq_seq req); idx (length (aq_entries req)); idx len].

(** The line and the body. *)
Definition encode_append (group : bytes) (req : AppendRequest) : bytes * bytes :=
  let body := encode_entries (aq_entries req) in
  (words (append_words group req (length body)), body).

Definition encode_append_reply (reply : AppendReply) : bytes :=
  words [lit "APPENDED"; dec (ar_term reply); flag (ar_success reply); idx (ar_index reply)].

(** ** Parsers *)

Definition parse_vote (w : list bytes) : option (bytes * VoteRequest) :=
  match w with
  | [verb; group; t; c; li; lt] =>
      if bool_decide (verb = lit "VOTE") then
        t ← parse_u64 t; c ← parse_id c; li ← parse_index li; lt ← parse_u64 lt;
        Some (group, mkVoteRequest t c li lt)
      else None
  | _ => None
  end.

Definition parse_vote_reply (line : bytes) : option VoteReply :=
  match split_single_spaces line with
  | [verb; t; g] =>
      if bool_decide (verb = lit "VOTED") then t ← parse_u64 t; g ← parse_flag g; Some (mkVoteReply t g) else None
  | _ => None
  end.

Definition parse_append_reply (line : bytes) : option AppendReply :=
  match split_single_spaces line with
  | [verb; t; s; i] =>
      if bool_decide (verb = lit "APPENDED") then
        t ← parse_u64 t; s ← parse_flag s; i ← parse_index i; Some (mkAppendReply t s i)
      else None
  | _ => None
  end.

Section append.
Context (valid_command : bytes → bool).

(** One line of a body: "<term> <command>", of a term in [floor, term]. *)
Definition parse_entry (term floor : Term) (line : bytes) : option Entry :=
  space ← find_char SPACE line;
  t ← parse_u64 (take space line);
  let command := drop (space + 1) line in
  if negb (valid_command command) then None
  else if (t <? floor)%N || (term <? t)%N then None
  else Some (mkEntry t command).

(** The loop over the body; a byte at least goes with every line, so the body's
    length bounds the lines. *)
Fixpoint parse_entries (fuel : nat) (term prev_term : Term) (count : nat) (entries : list Entry) (body : bytes)
    : option (list Entry) :=
  match body, fuel with
  | [], _ => Some entries
  | _, 0 => None
  | _, S fuel =>
      nl ← find_char NL body;
      let floor := match last entries with Some e => e_term e | None => prev_term end in
      e ← parse_entry term floor (take nl body);
      let entries := entries ++ [e] in
      if count <? length entries then None
      else parse_entries fuel term prev_term count entries (drop (nl + 1) body)
  end.

Definition parse_append (w : list bytes) (body : bytes) : option (bytes * AppendRequest) :=
  match w with
  | [verb; group; t; l; pi; pt; cm; sq; cn; len] =>
      if bool_decide (verb = lit "APPEND") then
        t ← parse_u64 t; l ← parse_id l; pi ← parse_index pi; pt ← parse_u64 pt;
        cm ← parse_index cm; sq ← parse_u64 sq; cn ← parse_index cn; len ← parse_index len;
        if negb (len =? length body) then None
        else
          entries ← parse_entries (length body) t pt cn [] body;
          if length entries =? cn then Some (group, mkAppendRequest t l pi pt entries cm sq) else None
      else None
  | _ => None
  end.

(** ** What a body holds *)

(** Terms from [floor] on, never falling, none above [term]. *)
Fixpoint terms_ok (term floor : Term) (es : list Entry) : Prop :=
  match es with
  | [] => True
  | e :: es => (floor <= e_term e <= term)%N ∧ terms_ok term (e_term e) es
  end.

Definition wire_num (n : N) : Prop := (n < 10 ^ 18)%N.
Definition wire_entries (es : list Entry) : Prop :=
  Forall (λ e, wire_num (e_term e) ∧ valid_command (e_command e) = true ∧ NL ∉ e_command e) es.

Definition floor_of (prev_term : Term) (es : list Entry) : Term :=
  match last es with Some e => e_term e | None => prev_term end.
End append.

(** What follows a separator. *)
Lemma drop_past {A} (l r : list A) c : drop (length l + 1) (l ++ c :: r) = r.
Proof. rewrite drop_app_ge by lia. by replace (length l + 1 - length l) with 1 by lia. Qed.

(** ** Numbers *)

Lemma parse_u64_dec n : wire_num n → parse_u64 (dec n) = Some n.
Proof. intros Hn. apply parse_canonical_dec; [lia|exact Hn|lia]. Qed.

Lemma parse_u64_inv s n : parse_u64 s = Some n → s = dec n ∧ wire_num n.
Proof.
  intros E. split; [apply (parse_canonical_inv 18); [lia|exact E]|]. exact (parse_canonical_bound _ _ _ E).
Qed.

Lemma parse_index_dec i : wire_num (N.of_nat i) → parse_index (idx i) = Some i.
Proof. intros Hi. unfold parse_index, idx. rewrite parse_u64_dec by done. simpl. by rewrite Nat2N.id. Qed.

Lemma parse_index_inv s i : parse_index s = Some i → s = idx i ∧ wire_num (N.of_nat i).
Proof.
  unfold parse_index, idx. intros E. apply fmap_Some in E as (n & E & ->). apply parse_u64_inv in E as [-> Hn].
  by rewrite N2Nat.id.
Qed.

Lemma parse_id_dec i : i ≤ 1000 → parse_id (idx i) = Some i.
Proof.
  intros Hi. unfold parse_id, idx. rewrite parse_u64_dec by (unfold wire_num; lia). simpl.
  destruct (N.ltb_spec 1000 (N.of_nat i)); [lia|]. by rewrite Nat2N.id.
Qed.

Lemma parse_id_inv s i : parse_id s = Some i → s = idx i ∧ i ≤ 1000.
Proof.
  unfold parse_id, idx. intros E. apply bind_Some in E as (n & E & E2). apply parse_u64_inv in E as [-> _].
  destruct (N.ltb_spec 1000 n); simplify_eq. rewrite N2Nat.id. split; [done|lia].
Qed.

Lemma parse_flag_flag b : parse_flag (flag b) = Some b.
Proof. by destruct b. Qed.

Lemma parse_flag_inv s b : parse_flag s = Some b → s = flag b.
Proof. unfold parse_flag. repeat case_bool_decide; intros; by simplify_eq. Qed.

Lemma idx_no_space i : SPACE ∉ idx i.
Proof. apply dec_no_space. Qed.
Lemma flag_no_space b : SPACE ∉ flag b.
Proof. destruct b; apply (bool_decide_unpack _); by vm_compute. Qed.
Lemma lit_no_space s : bool_decide (SPACE ∉ lit s) = true → SPACE ∉ lit s.
Proof. by rewrite bool_decide_eq_true. Qed.

#[export] Hint Resolve dec_no_space idx_no_space flag_no_space : chordfs.

(** Words with no space in them come back from the line they were joined into. *)
Lemma split_words ws : ws ≠ [] → Forall (λ w, SPACE ∉ w) ws → split_single_spaces (words ws) = ws.
Proof. apply split_on_join. Qed.

Ltac no_spaces :=
  repeat (apply Forall_cons; split); try apply Forall_nil; trivial;
  auto with chordfs; try (apply lit_no_space; by vm_compute).

(** ** Round trips *)

Lemma parse_vote_encode group req : SPACE ∉ group →
  wire_num (vq_term req) → vq_candidate req ≤ 1000 → wire_num (N.of_nat (vq_last_index req)) →
  wire_num (vq_last_term req) → parse_vote (split_single_spaces (encode_vote group req)) = Some (group, req).
Proof.
  intros Hg Ht Hc Hi Hl. unfold encode_vote. rewrite split_words; [|done|no_spaces]. unfold parse_vote.
  rewrite bool_decide_true by done. rewrite parse_u64_dec by done. cbn [mbind option_bind].
  rewrite parse_id_dec by done. cbn [mbind option_bind]. rewrite parse_index_dec by done. cbn [mbind option_bind].
  rewrite parse_u64_dec by done. by destruct req.
Qed.

Lemma parse_vote_reply_encode reply : wire_num (vr_term reply) →
  parse_vote_reply (encode_vote_reply reply) = Some reply.
Proof.
  intros Ht. unfold parse_vote_reply, encode_vote_reply. rewrite split_words; [|done|no_spaces].
  rewrite bool_decide_true by done. rewrite parse_u64_dec by done. cbn [mbind option_bind].
  rewrite parse_flag_flag. by destruct reply.
Qed.

Lemma parse_append_reply_encode reply : wire_num (ar_term reply) → wire_num (N.of_nat (ar_index reply)) →
  parse_append_reply (encode_append_reply reply) = Some reply.
Proof.
  intros Ht Hi. unfold parse_append_reply, encode_append_reply. rewrite split_words; [|done|no_spaces].
  rewrite bool_decide_true by done. rewrite parse_u64_dec by done. cbn [mbind option_bind].
  rewrite parse_flag_flag. cbn [mbind option_bind]. rewrite parse_index_dec by done. by destruct reply.
Qed.

Section body.
Context (valid_command : bytes → bool).

Lemma parse_entry_encode term floor e : wire_num (e_term e) → valid_command (e_command e) = true →
  (floor <= e_term e <= term)%N →
  parse_entry valid_command term floor (dec (e_term e) ++ SPACE :: e_command e) = Some e.
Proof.
  intros Ht Hv Hb. unfold parse_entry. rewrite find_char_app by apply dec_no_space. cbn [mbind option_bind].
  rewrite take_app_length, parse_u64_dec by done. cbn [mbind option_bind].
  rewrite drop_past. rewrite Hv. cbn [negb].
  destruct (N.ltb_spec (e_term e) floor); [lia|]. destruct (N.ltb_spec term (e_term e)); [lia|]. by destruct e.
Qed.

Lemma parse_entry_inv term floor line e : parse_entry valid_command term floor line = Some e →
  line = dec (e_term e) ++ SPACE :: e_command e ∧ wire_num (e_term e) ∧ valid_command (e_command e) = true
  ∧ (floor <= e_term e <= term)%N.
Proof.
  unfold parse_entry. intros E. apply bind_Some in E as (sp & Hsp & E). apply bind_Some in E as (t & Ht & E).
  destruct (valid_command _) eqn:Hv; [|done]. cbn [negb] in E.
  destruct (N.ltb_spec t floor); [done|]. destruct (N.ltb_spec term t); [done|]. simplify_eq/=.
  apply find_char_Some in Hsp as [El _]. apply parse_u64_inv in Ht as [Et Hw]. rewrite Nat.add_1_r in *.
  split_and!; [|done|done|lia|lia]. by rewrite <- Et.
Qed.

Lemma parse_entries_encode term prev_term count es : ∀ fuel done_ ,
  length (encode_entries es) ≤ fuel → length (done_ ++ es) ≤ count →
  wire_entries valid_command es → terms_ok term (floor_of prev_term done_) es →
  parse_entries valid_command fuel term prev_term count done_ (encode_entries es) = Some (done_ ++ es).
Proof.
  induction es as [|e es IH]; intros fuel dn Hf Hc Hw Ht; cbn [encode_entries fmap list_fmap concat].
  { destruct fuel; cbn; by rewrite app_nil_r. }
  apply Forall_cons in Hw as [(Hn & Hv & Hnl) Hw]. destruct Ht as [Hb Ht].
  set (line := dec (e_term e) ++ SPACE :: e_command e).
  assert (Eb : encode_entry e ++ concat (encode_entry <$> es) = line ++ NL :: encode_entries es).
  { unfold encode_entry, line, encode_entries. rewrite <- !app_assoc. cbn. by rewrite <- !app_assoc. }
  assert (Hline : NL ∉ line).
  { unfold line. rewrite elem_of_app, elem_of_cons. intros [Hd|[Hs|Hc2]]; [by apply dec_no_nl in Hd|by vm_compute in Hs|done]. }
  unfold encode_entries in Hf. cbn [fmap list_fmap concat] in Hf. rewrite Eb in Hf |- *.
  rewrite length_app in Hf. cbn [length] in Hf. destruct fuel as [|fuel]; [lia|].
  assert (Hfind : find_char NL (line ++ NL :: encode_entries es) = Some (length line)) by (by apply find_char_app).
  destruct (line ++ NL :: encode_entries es) as [|x rest] eqn:Ex; [by destruct line|].
  cbn [parse_entries]. rewrite Hfind. cbn [mbind option_bind]. rewrite <- Ex. rewrite take_app_length.
  fold (floor_of prev_term dn).
  rewrite (parse_entry_encode term (floor_of prev_term dn) e Hn Hv Hb : parse_entry _ _ _ line = _).
  cbn [mbind option_bind].
  rewrite !length_app in Hc |- *. cbn [length] in Hc |- *. destruct (Nat.ltb_spec count (length dn + 1)); [lia|].
  rewrite drop_past. rewrite IH.
  - by rewrite <- app_assoc.
  - lia.
  - rewrite !length_app. cbn. lia.
  - done.
  - unfold floor_of. by rewrite last_snoc.
Qed.

Lemma parse_entries_inv term prev_term count fuel : ∀ dn body es,
  parse_entries valid_command fuel term prev_term count dn body = Some es →
  ∃ es', es = dn ++ es' ∧ body = encode_entries es' ∧ terms_ok term (floor_of prev_term dn) es'
    ∧ Forall (λ e, wire_num (e_term e) ∧ valid_command (e_command e) = true) es'.
Proof.
  induction fuel as [|fuel IH]; intros dn body es.
  { destruct body; [|done]. cbn. intros [= <-]. exists []. by rewrite app_nil_r. }
  destruct body as [|x body]; [cbn; intros [= <-]; exists []; by rewrite app_nil_r|].
  cbn [parse_entries]. set (b := x :: body). clearbody b. intros E.
  apply bind_Some in E as (nl & Hnl & E). apply bind_Some in E as (e & He & E).
  destruct (count <? _); [done|]. apply find_char_Some in Hnl as [Eb _]. rewrite Nat.add_1_r in E.
  apply IH in E as (es' & -> & Er & Ht & Hw). apply parse_entry_inv in He as (El & Hn & Hv & Hb).
  fold (floor_of prev_term dn) in Hb. exists (e :: es'). rewrite <- app_assoc. split; [done|]. split.
  - rewrite Eb, El, Er. unfold encode_entries. cbn. unfold encode_entry. rewrite <- !app_assoc. cbn.
    by rewrite <- !app_assoc.
  - split; [|by apply Forall_cons]. split; [done|]. unfold floor_of in Ht. by rewrite last_snoc in Ht.
Qed.

(** The numbers and commands of a request that fit the wire. *)
Record wire_append (req : AppendRequest) : Prop := {
  wa_term : wire_num (aq_term req);
  wa_leader : aq_leader req ≤ 1000;
  wa_prev : wire_num (N.of_nat (aq_prev_index req));
  wa_prev_term : wire_num (aq_prev_term req);
  wa_commit : wire_num (N.of_nat (aq_commit req));
  wa_seq : wire_num (aq_seq req);
  wa_count : wire_num (N.of_nat (length (aq_entries req)));
  wa_length : wire_num (N.of_nat (length (encode_entries (aq_entries req))));
  wa_entries : wire_entries valid_command (aq_entries req);
  wa_terms : terms_ok (aq_term req) (aq_prev_term req) (aq_entries req);
}.

Lemma append_wire_inv group req : SPACE ∉ group → wire_append req →
  let '(line, body) := encode_append group req in
  parse_append valid_command (split_single_spaces line) body = Some (group, req)
  ∧ ∀ w body' g req', parse_append valid_command w body' = Some (g, req') →
      w = append_words g req' (length body') ∧ body' = (encode_append g req').2.
Proof.
  intros Hg [H1 H2 H3 H4 H5 H6 H7 H8 H9 H10]. cbn [encode_append]. split.
  - unfold append_words. rewrite split_words; [|done|no_spaces]. unfold parse_append.
    rewrite bool_decide_true by done. rewrite parse_u64_dec by done. cbn [mbind option_bind].
    rewrite parse_id_dec by done. cbn [mbind option_bind]. rewrite parse_index_dec by done. cbn [mbind option_bind].
    rewrite parse_u64_dec by done. cbn [mbind option_bind]. rewrite parse_index_dec by done. cbn [mbind option_bind].
    rewrite parse_u64_dec by done. cbn [mbind option_bind]. rewrite parse_index_dec by done. cbn [mbind option_bind].
    rewrite parse_index_dec by done. cbn [mbind option_bind]. rewrite Nat.eqb_refl. cbn [negb].
    rewrite parse_entries_encode by done. cbn [mbind option_bind app]. rewrite Nat.eqb_refl. by destruct req.
  - intros w body' g req' E. unfold parse_append in E.
    do 10 (destruct w as [|? w]; [done|]). destruct w; [|done]. case_bool_decide; [|done]. subst.
    repeat (apply bind_Some in E as (? & ? & E)).
    destruct (Nat.eqb_spec x6 (length body')); [|done]. cbn [negb] in E.
    apply bind_Some in E as (es & Hes & E). destruct (Nat.eqb_spec (length es) x5); [|done]. simplify_eq/=.
    apply parse_entries_inv in Hes as (es' & -> & Eb & _ & _). cbn [app] in *.
    repeat match goal with
      | H : parse_u64 _ = Some _ |- _ => apply parse_u64_inv in H as [-> _]
      | H : parse_id _ = Some _ |- _ => apply parse_id_inv in H as [-> _]
      | H : parse_index _ = Some _ |- _ => apply parse_index_inv in H as [-> _]
      end. done.
Qed.

(** An APPEND survives the wire: the line and body a leader encodes parse back to the
    group and the request, and nothing else parses: whatever [parse_append] accepts is,
    byte for byte, the one encoding of the request it returns. *)
Theorem append_wire_roundtrip group req : SPACE ∉ group → wire_append req →
  let '(line, body) := encode_append group req in
  parse_append valid_command (split_single_spaces line) body = Some (group, req)
  ∧ ∀ w body' g req', parse_append valid_command w body' = Some (g, req') →
      w = append_words g req' (length body') ∧ body' = (encode_append g req').2.
Proof. apply append_wire_inv. Qed.
End body.

(** Commands with no newline, the only ones a body can carry. *)
Definition one_line (c : bytes) : bool := bool_decide (NL ∉ c).

Definition demo_append : AppendRequest :=
  mkAppendRequest 3 1 7 2 [mkEntry 2 "SET a 1"; mkEntry 3 "NOOP"] 6 41.

Lemma demo_append_wire : wire_append one_line demo_append.
Proof.
  split; [by vm_compute|cbn; lia|by vm_compute|by vm_compute|by vm_compute|by vm_compute|by vm_compute|by vm_compute| |].
  - repeat (apply Forall_cons; split); try apply Forall_nil; trivial;
      split_and!; try (by vm_compute); apply (bool_decide_unpack _); by vm_compute.
  - cbn. lia.
Qed.

Lemma append_wire_roundtrip_witness :
  (encode_append (lit "0a1b2c3d") demo_append).1 = lit "APPEND 0a1b2c3d 3 1 7 2 6 41 2 17"
  ∧ parse_append one_line (split_single_spaces (encode_append (lit "0a1b2c3d") demo_append).1)
      (encode_append (lit "0a1b2c3d") demo_append).2 = Some (lit "0a1b2c3d", demo_append).
Proof.
  split; [by vm_compute|].
  apply (append_wire_roundtrip one_line (lit "0a1b2c3d") demo_append); [apply lit_no_space; by vm_compute|].
  apply demo_append_wire.
Defined.

(** ** What replicas send is what replicas accept *)

Lemma term_at_succ L p e : L !! p = Some e → term_at_log L (p + 1) = e_term e.
Proof.
  intros He. pose proof (lookup_lt_Some _ _ _ He). destruct (term_at_lookup L (p + 1)) as (e' & He' & ->); [lia|].
  replace (p + 1 - 1) with p in He' by lia. congruence.
Qed.

Lemma slice_terms_ok t L n : bounded t L →
  (∀ i j e e', L !! i = Some e → L !! j = Some e' → i ≤ j → (e_term e <= e_term e')%N) →
  ∀ p, terms_ok t (term_at_log L p) (take n (drop p L)).
Proof.
  intros Hb Hs. induction n as [|n IH]; intros p; [done|]. destruct (drop p L) as [|e r] eqn:Ed; [done|]. cbn.
  assert (He : L !! p = Some e).
  { rewrite <- (Nat.add_0_r p), <- lookup_drop, Ed. done. }
  assert (Er : drop (p + 1) L = r) by (by rewrite <- drop_drop, Ed, skipn_cons, drop_0).
  split; [|by rewrite <- (term_at_succ _ _ _ He), <- Er]. split; [|by eapply Hb].
  destruct (decide (p = 0)) as [->|Hp]; [unfold term_at_log; cbn; lia|].
  pose proof (lookup_lt_Some _ _ _ He). destruct (term_at_lookup L p) as (e' & He' & ->); [lia|].
  eapply Hs; [exact He'|exact He|lia].
Qed.

Section accepted.
Context {S : Type} `{StorageOk S} (size : nat) `{GroupConfig size} (valid_command : bytes → bool).

(** Every APPEND a running group ever sends is one its replicas accept: if its numbers fit
    18 digits and its commands are valid lines, its encoding parses back to it; the check
    that terms neither fall nor pass the leader's never refuses a correct leader. *)
Theorem sent_appends_parse (W : World S) from v req group :
  wreach size W → MCall from (OutAppend v req) ∈ net W → SPACE ∉ group →
  wire_num (aq_term req) → wire_num (aq_prev_term req) → wire_num (aq_seq req) → aq_leader req ≤ 1000 →
  wire_num (N.of_nat (aq_prev_index req)) → wire_num (N.of_nat (aq_commit req)) →
  wire_num (N.of_nat (length (aq_entries req))) →
  wire_num (N.of_nat (length (encode_entries (aq_entries req)))) → wire_entries valid_command (aq_entries req) →
  let '(line, body) := encode_append group req in
  parse_append valid_command (split_single_spaces line) body = Some (group, req).
Proof.
  intros HW Hin Hg ? ? ? ? ? ? ? ? ?. destruct (sim_reach size W HW) as (A & HI & Hsim).
  pose proof (sim_net _ _ _ Hsim) as Hn. rewrite Forall_forall in Hn.
  destruct (Hn _ Hin) as (L & HL & Hlen & Hpt & Hes & _). destruct (inv_tlog _ _ HI _ _ HL) as (Hm & Hb & _).
  refine (proj1 (append_wire_inv valid_command group req Hg _)). split; try assumption.
  rewrite Hpt, Hes. apply slice_terms_ok; [done|]. intros i j e e'. apply (matching_sorted A L); [|done].
  intros t1 L1 HL1. by apply (inv_tlog _ _ HI).
Qed.
End accepted.

(** The first APPEND of RaftSafety.v's demonstration. *)
Lemma sent_appends_parse_witness :
  let req := mkAppendRequest 1 0 0 0 [mkEntry 1 "NOOP"] 0 1 in
  parse_append one_line (split_single_spaces (encode_append (lit "0a1b2c3d") req).1)
    (encode_append (lit "0a1b2c3d") req).2 = Some (lit "0a1b2c3d", req).
Proof.
  intros req.
  apply (sent_appends_parse 3 one_line demo_elected 0 1 req (lit "0a1b2c3d") demo_elected_reach);
    [|apply lit_no_space; by vm_compute|by vm_compute..|cbn; lia|by vm_compute|by vm_compute|by vm_compute|by vm_compute|].
  - apply (list_elem_of_lookup_2 _ 3). by vm_compute.
  - apply Forall_singleton. split_and!; [by vm_compute|by vm_compute|]. apply (bool_decide_unpack _). by vm_compute.
Defined.

(** ** A text is the text of one call

    Whatever the numbers, what the parser reads from an encoded call is the call
    that was encoded: a number too long for the wire is refused, never misread. *)

Lemma dec_go_full fuel n : (10 ^ N.of_nat fuel <= n)%N → length (dec_go fuel n) = fuel.
Proof.
  revert n. induction fuel as [|f IH]; intros n Hn; [done|]. cbn [dec_go]. rewrite length_app. cbn [length].
  rewrite Nat2N.inj_succ, N.pow_succ_r' in Hn.
  assert (Hp : (1 <= 10 ^ N.of_nat f)%N) by (pose proof (N.pow_nonzero 10 (N.of_nat f)); lia).
  destruct (N.ltb_spec n 10) as [Hlt|Hge]; [lia|].
  rewrite IH; [lia|]. apply N.div_le_lower_bound; lia.
Qed.

Lemma parse_u64_of_dec n m : parse_u64 (dec n) = Some m → m = n.
Proof.
  intros E. destruct (parse_u64_inv _ _ E) as [Ed Hm]. unfold wire_num in Hm.
  destruct (N.lt_ge_cases n (10 ^ 20)) as [Hn|Hn].
  - apply (f_equal digits_val) in Ed. rewrite !dec_val in Ed; [congruence| |done].
    eapply N.lt_le_trans; [exact Hm|]. by apply N.pow_le_mono_r.
  - pose proof (dec_go_full 20 n Hn) as Hl. fold (dec n) in Hl. rewrite Ed in Hl.
    pose proof (dec_go_length 20 17 m Hm) as Hl'. fold (dec m) in Hl'. lia.
Qed.

Lemma parse_index_of_idx i j : parse_index (idx i) = Some j → j = i.
Proof.
  unfold parse_index, idx. intros E. apply fmap_Some in E as (n & E & ->). apply parse_u64_of_dec in E. lia.
Qed.
Lemma parse_id_of_idx i j : parse_id (idx i) = Some j → j = i.
Proof.
  unfold parse_id, idx. intros E. apply bind_Some in E as (n & E & E2). apply parse_u64_of_dec in E.
  destruct (_ <? _)%N; simplify_eq. lia.
Qed.

Ltac reads_back :=
  repeat match goal with
    | H : parse_u64 (dec _) = Some _ |- _ => apply parse_u64_of_dec in H; subst
    | H : parse_id (idx _) = Some _ |- _ => apply parse_id_of_idx in H; subst
    | H : parse_index (idx _) = Some _ |- _ => apply parse_index_of_idx in H; subst
    | H : parse_flag (flag _) = Some _ |- _ => rewrite parse_flag_flag in H; injection H as <-
    end.

Lemma parse_vote_text group req g req' : SPACE ∉ group →
  parse_vote (split_single_spaces (encode_vote group req)) = Some (g, req') → g = group ∧ req' = req.
Proof.
  intros Hg. unfold encode_vote. rewrite split_words; [|done|no_spaces]. unfold parse_vote.
  rewrite bool_decide_true by done. intros E. repeat (apply bind_Some in E as (? & ? & E)).
  injection E as <- <-. reads_back. by destruct req.
Qed.

Lemma parse_vote_reply_text reply r : parse_vote_reply (encode_vote_reply reply) = Some r → r = reply.
Proof.
  unfold parse_vote_reply, encode_vote_reply. rewrite split_words; [|done|no_spaces].
  rewrite bool_decide_true by done. intros E. repeat (apply bind_Some in E as (? & ? & E)).
  injection E as <-. reads_back. by destruct reply.
Qed.

Lemma parse_append_reply_text reply r : parse_append_reply (encode_append_reply reply) = Some r → r = reply.
Proof.
  unfold parse_append_reply, encode_append_reply. rewrite split_words; [|done|no_spaces].
  rewrite bool_decide_true by done. intros E. repeat (apply bind_Some in E as (? & ? & E)).
  injection E as <-. reads_back. by destruct reply.
Qed.

(** The lines of a body. *)
Definition newlines (s : bytes) : nat := length (filter (λ c, c = NL) s).

Lemma newlines_app s u : newlines (s ++ u) = newlines s + newlines u.
Proof. unfold newlines. by rewrite filter_app, length_app. Qed.

Lemma newlines_none s : newlines s = 0 ↔ NL ∉ s.
Proof.
  unfold newlines. induction s as [|c s IH]; [split; [intros _; apply not_elem_of_nil|done]|].
  rewrite filter_cons, not_elem_of_cons. case_decide as Hc; cbn [length]; [split; [lia|intros [? _]; congruence]|].
  rewrite IH. split; [split; [congruence|done]|by intros [_ ?]].
Qed.

Lemma newlines_entry e : newlines (encode_entry e) = newlines (e_command e) + 1.
Proof.
  unfold encode_entry. rewrite newlines_app. rewrite (proj2 (newlines_none _) (dec_no_nl _)).
  change (SPACE :: ?x) with ([SPACE] ++ x). rewrite !newlines_app.
  change (newlines [SPACE]) with 0. change (newlines [NL]) with 1. lia.
Qed.

Lemma encode_entries_inj es es' : Forall (λ e, NL ∉ e_command e) es' → Forall (λ e, wire_num (e_term e)) es' →
  length es = length es' → encode_entries es = encode_entries es' → es = es'.
Proof.
  intros Hno Hw Hl E.
  assert (Hn : newlines (encode_entries es) = length es).
  { rewrite E, Hl. clear -Hno. unfold encode_entries. induction Hno as [|e es' He Hno IH]; [done|].
    cbn [fmap list_fmap concat length]. rewrite newlines_app, newlines_entry, IH.
    rewrite (proj2 (newlines_none _) He). lia. }
  assert (Hge : ∀ l, length l ≤ newlines (encode_entries l)).
  { clear. induction l as [|e l IH]; [done|]. unfold encode_entries in *. cbn [fmap list_fmap concat length].
    rewrite newlines_app, newlines_entry. lia. }
  revert es Hl E Hn. induction es' as [|e' es' IH]; intros es Hl E Hn; [by destruct es|].
  destruct es as [|e es]; [done|]. apply Forall_cons in Hno as [He' Hno]. apply Forall_cons in Hw as [Hw' Hw].
  unfold encode_entries in E, Hn. cbn [fmap list_fmap concat length] in E, Hn. rewrite newlines_app, newlines_entry in Hn.
  pose proof (Hge es) as Hge'. unfold encode_entries in Hge'.
  assert (He : NL ∉ e_command e) by (apply newlines_none; lia).
  assert (Esplit : ∀ e l, NL ∉ e_command e → split_on NL (encode_entry e ++ l) =
    (dec (e_term e) ++ SPACE :: e_command e) :: split_on NL l).
  { intros x l Hx. unfold encode_entry. change (SPACE :: e_command x ++ [NL]) with ((SPACE :: e_command x) ++ [NL]).
    rewrite app_assoc, <- app_assoc. cbn [app]. apply split_on_app. rewrite elem_of_app, elem_of_cons.
    intros [Hd|[Hs|Hc]]; [by apply dec_no_nl in Hd|by vm_compute in Hs|done]. }
  apply (f_equal (split_on NL)) in E as E2. rewrite !Esplit in E2 by done. injection E2 as Eline _.
  assert (Eparts : dec (e_term e) = dec (e_term e') ∧ e_command e = e_command e').
  { apply (f_equal (split_on SPACE)) in Eline as Ews. rewrite !split_on_app in Ews by apply dec_no_space.
    injection Ews as Ed _. split; [done|]. rewrite Ed in Eline. by apply app_inv_head in Eline; injection Eline. }
  destruct Eparts as [Ed Ec]. assert (Et : e_term e = e_term e').
  { symmetry. apply parse_u64_of_dec. rewrite Ed. by apply parse_u64_dec. }
  assert (e = e') as -> by (destruct e, e'; cbn in *; congruence). f_equal.
  apply app_inv_head in E. apply IH; [done|done|by injection Hl|done|]. unfold encode_entries. lia.
Qed.

Lemma parse_append_text (valid_command : bytes → bool) group req g req' :
  (∀ c, valid_command c = true → NL ∉ c) → SPACE ∉ group →
  let '(line, body) := encode_append group req in
  parse_append valid_command (split_single_spaces line) body = Some (g, req') → g = group ∧ req' = req.
Proof.
  intros Hv Hg. cbn [encode_append]. unfold append_words. rewrite split_words; [|done|no_spaces]. unfold parse_append.
  rewrite bool_decide_true by done. intros E.
  apply bind_Some in E as (t & Ht & E). apply bind_Some in E as (l & Hl & E). apply bind_Some in E as (pi & Hpi & E).
  apply bind_Some in E as (pt & Hpt & E). apply bind_Some in E as (cm & Hcm & E). apply bind_Some in E as (sq & Hsq & E).
  apply bind_Some in E as (cn & Hcn & E). apply bind_Some in E as (len & Hlen & E). reads_back.
  destruct (negb _); [done|]. apply bind_Some in E as (es & Hes & E).
  destruct (Nat.eqb_spec (length es) (length (aq_entries req))) as [Hn|]; [|done]. injection E as <- <-.
  apply parse_entries_inv in Hes as (es' & -> & Eb & _ & Hw). cbn [app] in Hn.
  split; [done|]. replace ([] ++ es') with (aq_entries req); [by destruct req|]. cbn [app].
  apply encode_entries_inj; [| |done|done]; (eapply Forall_impl; [exact Hw|]); intros e [? ?]; auto.
Qed.
