(* ===== verification/RaftLog.v ===== *)
(** * RaftLog: a replica's durable state as one append-only file (raft_log.h, raft_log.cpp)

    The file is its bytes. Replay is the loop of [FileStorage::open]; a save
    appends one batch of records and flushes it. What the operating system does
    with a call is an argument: how much of a write reached the disk, and
    whether an open, a truncation or a flush succeeded. *)
From S2P Require Import Prelude Text Net Chord Raft RaftCluster RaftWire.

Definition LOG_TAIL_LIMIT : nat := 256 * 1024.

Section file.
Context {SH : Sha1}.

(** ** Records *)

Definition check_of (body : bytes) : bytes := take 8 (sha1 body).
Definition log_record (body : bytes) : bytes := body ++ SPACE :: check_of body.

Definition parse_log_record (line : bytes) : option bytes :=
  space ← rfind_char SPACE line;
  if negb (length line - space - 1 =? 8) then None
  else
    let body := take space line in
    if bool_decide (drop (space + 1) line = check_of body) then Some body else None.

Definition vote_word (voted_for : option nat) : bytes :=
  match voted_for with None => lit "-" | Some v => idx v end.

(** ** Replay *)

Definition replay_term (t v : bytes) (d : Durable) : option Durable :=
  t ← parse_u64 t;
  vote ← (if bool_decide (v = lit "-") then Some None
          else n ← parse_u64 v; if (1000 <? n)%N then None else Some (Some (N.to_nat n)));
  if (t <? d_term d)%N then None
  else if (t =? d_term d)%N && negb (bool_decide (d_voted_for d = None)) && negb (bool_decide (d_voted_for d = vote))
  then None
  else Some (mkDurable t vote (d_log d)).

Definition replay_entry (w0 w1 w2 body : bytes) (d : Durable) : option Durable :=
  i ← parse_u64 w1; t ← parse_u64 w2;
  if negb (i =? N.of_nat (length (d_log d)) + 1)%N || (d_term d <? t)%N then None
  else if match last (d_log d) with Some e => (t <? e_term e)%N | None => false end then None
  else
    let at_ := length w0 + length w1 + length w2 + 3 in
    Some (mkDurable (d_term d) (d_voted_for d) (d_log d ++ [mkEntry t (drop at_ body)])).

Definition replay_cut (w1 : bytes) (d : Durable) : option Durable :=
  i ← parse_u64 w1;
  if (i =? 0)%N || (N.of_nat (length (d_log d)) <? i)%N then None
  else Some (mkDurable (d_term d) (d_voted_for d) (take (N.to_nat i - 1) (d_log d))).

(** One record's body applied, refusing what a correct writer never wrote. *)
Definition replay_one (body : bytes) (d : Durable) : option Durable :=
  let w := split_single_spaces body in
  if bool_decide (w = []) then None
  else if existsb (λ word, bool_decide (word = [])) w then None
  else match w with
       | [w0; w1; w2] =>
           if bool_decide (w0 = lit "TERM") then replay_term w1 w2 d else None
       | w0 :: w1 :: w2 :: _ :: _ =>
           if bool_decide (w0 = lit "ENTRY") then replay_entry w0 w1 w2 body d else None
       | [w0; w1] =>
           if bool_decide (w0 = lit "CUT") then replay_cut w1 d else None
       | _ => None
       end.

(** Where replay stopped: the state, the bytes and records that were good, and
    what was wrong with the next, if anything was. *)
Record Replay := mkReplay {
  rp_state : Durable; rp_good : nat; rp_records : nat; rp_why : option bytes }.

Fixpoint replay (fuel : nat) (text : bytes) (r : Replay) : Replay :=
  match text, fuel with
  | [], _ | _, 0 => r
  | _, S fuel =>
      let stop why := mkReplay (rp_state r) (rp_good r) (rp_records r) (Some (lit why)) in
      match find_char NL text with
      | None => stop "a torn final record"
      | Some nl =>
          match parse_log_record (take nl text) with
          | None => stop "a record that fails its check"
          | Some body =>
              match replay_one body (rp_state r) with
              | None => stop "a record out of sequence"
              | Some d => replay fuel (drop (nl + 1) text) (mkReplay d (rp_good r + nl + 1) (rp_records r + 1) None)
              end
          end
      end
  end.

Definition fresh : Replay := mkReplay (mkDurable 0 None []) 0 0 None.
Definition replay_file (text : bytes) : Replay := replay (length text) text fresh.

(** Intact-looking records after the first bad one, for the report. *)
Fixpoint intact_lines (fuel : nat) (text : bytes) : nat :=
  match fuel with
  | 0 => 0
  | S fuel =>
      match find_char NL text with
      | None => 0
      | Some nl => match parse_log_record (take nl text) with Some _ => 1 | None => 0 end + intact_lines fuel (drop (nl + 1) text)
      end
  end.
Definition intact_after (tail : bytes) : nat :=
  match find_char NL tail with
  | None => 0
  | Some nl => intact_lines (length tail) (drop (nl + 1) tail)
  end.

(** ** The storage *)

(** [fs_file] is what is on disk, the other fields what the object remembers. *)
Record FileStorage := mkFileStorage {
  fs_open : bool; fs_file : bytes; fs_term : Term; fs_voted_for : option nat; fs_last : Index; fs_batches : nat;
  fs_fault : option nat   (* the next write: all of it, or this many bytes and an error *)
}.

(** What the operating system answers to [open]. *)
Record OpenEnv := mkOpenEnv {
  oe_read : option bytes;    (* [None]: no file yet *)
  oe_read_error : option bytes; oe_open_error : option bytes; oe_cut_error : option bytes; oe_dir_synced : bool }.

Definition number (n : nat) : bytes := dec (N.of_nat n).

Definition open_file (path : bytes) (env : OpenEnv) : bytes + (FileStorage * Durable * bytes) :=
  match oe_read_error env with
  | Some e => inl (lit "cannot read " ++ path ++ lit ": " ++ e)
  | None =>
      let text := default [] (oe_read env) in
      let r := replay_file text in
      let tail := length text - rp_good r in
      let after := intact_after (drop (rp_good r) text) in
      match rp_why r with
      | Some why =>
          if LOG_TAIL_LIMIT <? tail then
            inl (path ++ lit ": " ++ why ++ lit " at byte " ++ number (rp_good r) ++ lit ", " ++ number tail ++
                 lit " bytes from the end -- further back than a crash can damage (" ++ number LOG_TAIL_LIMIT ++
                 lit " bytes); refusing to start rather than forget a vote or an acknowledged entry")
          else match oe_open_error env, oe_cut_error env with
          | Some e, _ => inl (lit "cannot open " ++ path ++ lit " for appending: " ++ e)
          | None, Some e => inl (lit "cannot cut the damaged tail off " ++ path ++ lit ": " ++ e)
          | None, None =>
              let d := rp_state r in
              inr (mkFileStorage true (take (rp_good r) text) (d_term d) (d_voted_for d) (length (d_log d)) 0 None, d,
                   number (rp_records r) ++ lit " records replayed from " ++ path ++ lit ": term " ++ dec (d_term d) ++
                   lit ", " ++ number (length (d_log d)) ++ lit " entries; " ++ why ++ lit " and the " ++ number tail ++
                   lit " bytes after it cut off" ++
                   (if after =? 0 then [] else lit " (" ++ number after ++ lit " intact-looking records among them)") ++
                   (if oe_dir_synced env then [] else lit " (warning: the log's directory could not be flushed)"))
          end
      | None =>
          match oe_open_error env with
          | Some e => inl (lit "cannot open " ++ path ++ lit " for appending: " ++ e)
          | None =>
              let d := rp_state r in
              inr (mkFileStorage true text (d_term d) (d_voted_for d) (length (d_log d)) 0 None, d,
                   number (rp_records r) ++ lit " records replayed from " ++ path ++ lit ": term " ++ dec (d_term d) ++
                   lit ", " ++ number (length (d_log d)) ++ lit " entries" ++
                   (if oe_dir_synced env then [] else lit " (warning: the log's directory could not be flushed)"))
          end
      end
  end.

Definition record_line (body : bytes) : bytes := log_record body ++ [NL].
Definition term_body (t : Term) (vote : option nat) : bytes := words [lit "TERM"; dec t; vote_word vote].
Definition cut_body (from : Index) : bytes := words [lit "CUT"; idx from].
Definition entry_body (i : Index) (e : Entry) : bytes :=
  words [lit "ENTRY"; idx i; dec (e_term e)] ++ SPACE :: e_command e.

(** The records of one batch, in order. *)
Definition batch_bodies (st : FileStorage) (t : Term) (vote : option nat) (from : Index) (l : list Entry) : list bytes :=
  (if (t =? fs_term st)%N && bool_decide (vote = fs_voted_for st) then [] else [term_body t vote])
  ++ (if from <=? fs_last st then [cut_body from] else [])
  ++ imap (λ k e, entry_body (from + k) e) (drop (from - 1) l).
Definition batch_of (bodies : list bytes) : bytes := concat (record_line <$> bodies).

#[export] Instance FileStorage_save : Storage FileStorage := λ st t vote from l,
  if negb (fs_open st) then (false, st)
  else
    let bodies := batch_bodies st t vote from l in
    let data := batch_of bodies in
    if bool_decide (data = []) then (true, st)
    else match fs_fault st with
         | Some n => (false, mkFileStorage true (fs_file st ++ take n data) (fs_term st) (fs_voted_for st)
                               (fs_last st) (fs_batches st) None)
         | None => (true, mkFileStorage true (fs_file st ++ data) t vote (length l) (fs_batches st + 1) None)
         end.

(** ** Reading back one record *)

Lemma replay_fuel f1 : ∀ f2 text r, length text ≤ f1 → length text ≤ f2 → replay f1 text r = replay f2 text r.
Proof.
  induction f1 as [|f1 IH]; intros f2 text r H1 H2; destruct text as [|x text]; try (by destruct f2); [cbn in H1; lia|].
  destruct f2 as [|f2]; [cbn in H2; lia|]. cbn [replay]. set (t := x :: text) in *.
  destruct (find_char NL t) as [nl|] eqn:Hnl; [|done]. destruct (parse_log_record _); [|done].
  destruct (replay_one _ _); [|done]. apply IH; rewrite length_drop; cbn in *; lia.
Qed.

Definition replayed (text : bytes) (r : Replay) : Replay := replay (length text) text r.

(** Replay goes on over what follows a clean part. *)
Lemma replayed_app a b r : rp_why r = None → rp_why (replayed a r) = None →
  replayed (a ++ b) r = replayed b (replayed a r).
Proof.
  unfold replayed. remember (length a) as n eqn:Hn. revert a Hn r.
  induction (lt_wf n) as [n _ IH]. intros a -> r Hr Ha.
  destruct a as [|x a]; [done|]. set (t := x :: a) in *. rewrite length_app.
  assert (Et : ∀ u, replay (length t + length u) (t ++ u) r =
    match find_char NL (t ++ u) with
    | None => mkReplay (rp_state r) (rp_good r) (rp_records r) (Some (lit "a torn final record"))
    | Some nl =>
        match parse_log_record (take nl (t ++ u)) with
        | None => mkReplay (rp_state r) (rp_good r) (rp_records r) (Some (lit "a record that fails its check"))
        | Some body => match replay_one body (rp_state r) with
            | None => mkReplay (rp_state r) (rp_good r) (rp_records r) (Some (lit "a record out of sequence"))
            | Some d => replay (length a + length u) (drop (nl + 1) (t ++ u))
                          (mkReplay d (rp_good r + nl + 1) (rp_records r + 1) None)
            end
        end
    end) by done.
  rewrite Et. pose proof (Et []) as E0. rewrite app_nil_r, Nat.add_0_r in E0. rewrite E0 in Ha |- *. clear Et E0.
  destruct (find_char NL t) as [nl|] eqn:Hnl; [|done]. apply find_char_Some in Hnl as [Eq Hno].
  assert (Hlt : nl < length t).
  { apply (f_equal length) in Eq. rewrite length_app in Eq. cbn [length] in Eq. rewrite length_take, length_drop in Eq. lia. }
  assert (Hlt' : length (take nl t) = nl) by (rewrite length_take; lia).
  assert (Hf : find_char NL (t ++ b) = Some nl).
  { rewrite Eq, <- app_assoc. cbn [app]. rewrite find_char_app by done. by rewrite Hlt'. }
  rewrite Hf, take_app_le by lia. destruct (parse_log_record (take nl t)) as [body|]; [|done].
  destruct (replay_one body (rp_state r)) as [d|]; [|done].
  rewrite drop_app_le by lia.
  assert (Hlen : length (drop (nl + 1) t) ≤ length a) by (rewrite length_drop; cbn [length t]; lia).
  set (r' := mkReplay d _ _ None) in *.
  rewrite (replay_fuel (length a + length []) (length (drop (nl + 1) t))) in Ha |- * by (cbn [length]; lia).
  rewrite <- (IH (length (drop (nl + 1) t))); [|cbn [length t] in *; lia|done|done|done].
  apply replay_fuel; rewrite ?length_app; lia.
Qed.

(** ** Records that come back *)

Context {SHok : Sha1Ok SH}.

Lemma check_length body : length (check_of body) = 8.
Proof. unfold check_of. rewrite length_take, sha1_length. lia. Qed.

Lemma check_no c body : is_lower_hex c = false → c ∉ check_of body.
Proof.
  intros Hc Hin. unfold check_of in Hin. apply elem_of_take in Hin as (i & Hi & _).
  pose proof (sha1_lower_hex body) as Hf. rewrite Forall_lookup in Hf. apply Hf in Hi. congruence.
Qed.

Lemma parse_log_record_ok body : parse_log_record (log_record body) = Some body.
Proof.
  unfold parse_log_record, log_record. rewrite rfind_char_app by (by apply check_no). cbn [mbind option_bind].
  rewrite length_app. cbn [length]. rewrite check_length.
  replace (length body + 9 - length body - 1) with 8 by lia. cbn [Nat.eqb negb].
  rewrite take_app_length, drop_past. by rewrite bool_decide_true.
Qed.

Lemma record_no_nl body : NL ∉ body → NL ∉ log_record body.
Proof.
  intros Hb. unfold log_record. rewrite elem_of_app, elem_of_cons.
  intros [?|[Hs|Hc]]; [done|by vm_compute in Hs|by apply (check_no NL) in Hc].
Qed.

Lemma replayed_record body d r : NL ∉ body → replay_one body (rp_state r) = Some d → rp_why r = None →
  replayed (record_line body) r =
    mkReplay d (rp_good r + length (record_line body)) (rp_records r + 1) None.
Proof.
  intros Hb Hd Hr. unfold replayed, record_line. rewrite length_app. cbn [length].
  rewrite Nat.add_1_r. destruct (log_record body ++ [NL]) as [|x t] eqn:E.
  { by destruct (log_record body). }
  cbn [replay]. rewrite <- E.
  rewrite find_char_app by (by apply record_no_nl). rewrite take_app_length, parse_log_record_ok, Hd.
  rewrite drop_past. destruct (length (log_record body)); cbn [replay]; f_equal; lia.
Qed.

(** A record whose newline never reached the disk ends the replay where it began. *)
Lemma replayed_torn t r : NL ∉ t → rp_why r = None →
  rp_state (replayed t r) = rp_state r ∧ rp_good (replayed t r) = rp_good r
  ∧ (t = [] → rp_why (replayed t r) = None).
Proof.
  intros Ht Hr. unfold replayed. destruct t as [|x t]; [done|]. set (u := x :: t) in *.
  cbn [length u replay]. fold u. apply find_char_None in Ht. by rewrite Ht.
Qed.

Definition replay_all (bodies : list bytes) (d : Durable) : option Durable :=
  foldl (λ acc b, acc ≫= replay_one b) (Some d) bodies.

Lemma replay_all_None bodies : foldl (λ acc b, acc ≫= replay_one b) None bodies = None.
Proof. by induction bodies. Qed.

Lemma replay_all_cons b bodies d d' : replay_one b d = Some d' → replay_all (b :: bodies) d = replay_all bodies d'.
Proof. intros E. unfold replay_all. cbn. by rewrite E. Qed.

Lemma replay_all_app b1 b2 d : replay_all (b1 ++ b2) d = replay_all b1 d ≫= replay_all b2.
Proof.
  unfold replay_all. rewrite foldl_app. destruct (foldl _ (Some d) b1) as [d'|]; [done|apply replay_all_None].
Qed.

Lemma replayed_batch bodies : ∀ d d' r, Forall (λ b, NL ∉ b) bodies → replay_all bodies d = Some d' →
  rp_state r = d → rp_why r = None →
  replayed (batch_of bodies) r = mkReplay d' (rp_good r + length (batch_of bodies)) (rp_records r + length bodies) None.
Proof.
  induction bodies as [|b bodies IH]; intros d d' r Hall Hrep Hd Hr.
  { cbn in Hrep. simplify_eq. destruct r; cbn in *. subst. unfold replayed. cbn. f_equal; lia. }
  apply Forall_cons in Hall as [Hb Hall]. unfold replay_all in Hrep. cbn in Hrep.
  destruct (replay_one b d) as [d1|] eqn:E1; [|by rewrite replay_all_None in Hrep].
  fold (replay_all bodies d1) in Hrep. subst d.
  unfold batch_of. cbn [fmap list_fmap concat]. fold (batch_of bodies).
  pose proof (replayed_record b d1 r Hb E1 Hr) as E. rewrite replayed_app; [|done|by rewrite E].
  rewrite E, (IH d1 d'); [|done..]. cbn [rp_good rp_records]. rewrite length_app. cbn [length]. f_equal; lia.
Qed.

(** Any prefix of a batch: whole records, then part of one. *)
Lemma batch_prefix_cut bodies n : Forall (λ b, NL ∉ b) bodies →
  ∃ j torn, take n (batch_of bodies) = batch_of (take j bodies) ++ torn ∧ (NL ∉ torn)
    ∧ (torn = [] ∨ j < length bodies).
Proof.
  revert n. induction bodies as [|b bodies IH]; intros n Hall.
  { exists 0, []. rewrite take_nil. split; [by cbn; rewrite take_nil|]. split; [apply not_elem_of_nil|by left]. }
  apply Forall_cons in Hall as [Hb Hall]. unfold batch_of. cbn [fmap list_fmap concat]. fold (batch_of bodies).
  destruct (decide (n < length (record_line b))) as [Hlt|Hge].
  - exists 0, (take n (record_line b)). rewrite take_app_le by lia. split; [done|]. split.
    + unfold record_line in *. rewrite length_app in Hlt. cbn [length] in Hlt. rewrite take_app_le by lia.
      intros Hin. apply (record_no_nl b Hb). apply elem_of_take in Hin as (i & Hi & _).
      by eapply list_elem_of_lookup_2.
    + right. cbn. lia.
  - destruct (IH (n - length (record_line b)) Hall) as (j & torn & E & Ht & Hj).
    exists (S j), torn. rewrite take_app_ge, E by lia. split; [cbn; unfold batch_of; by rewrite <- app_assoc|].
    split; [done|]. cbn. destruct Hj; [by left|right; lia].
Qed.

(** ** What a save writes *)

(** A command replay can give back: one line of single-spaced words. *)
Definition command_line (c : bytes) : Prop :=
  (NL ∉ c) ∧ Forall (λ w, w ≠ []) (split_single_spaces c).

(** A save the core makes: the term and vote move forward, entries are of terms
    that never fall and are at most the replica's, and every number fits. *)
Record savable (D : Durable) (t : Term) (vote : option nat) (from : Index) (l : list Entry) : Prop := {
  sv_can : can_save D from l;
  sv_term : (d_term D <= t)%N;
  sv_vote : d_term D = t → d_voted_for D = None ∨ d_voted_for D = vote;
  sv_num : wire_num t ∧ wire_num (N.of_nat (length l + 1));
  sv_id : match vote with Some v => v ≤ 1000 | None => True end;
  sv_entries i e : from - 1 ≤ i → l !! i = Some e → (e_term e <= t)%N ∧ command_line (e_command e);
  sv_sorted i e e' : from - 1 ≤ S i → l !! i = Some e → l !! S i = Some e' → (e_term e <= e_term e')%N;
}.

Lemma existsb_nonempty ws : Forall (λ w : bytes, w ≠ []) ws → existsb (λ w, bool_decide (w = [])) ws = false.
Proof.
  induction 1 as [|w ws Hw _ IH]; [done|]. cbn. by rewrite bool_decide_false, IH.
Qed.

Lemma vote_word_no_space v : SPACE ∉ vote_word v.
Proof. destruct v; [apply idx_no_space|]. apply (lit_no_space "-"). by vm_compute. Qed.
Lemma vote_word_not_nil v : vote_word v ≠ [].
Proof. destruct v; [apply dec_not_nil|done]. Qed.

Lemma replay_one_term t vote d : wire_num t → match vote with Some v => v ≤ 1000 | None => True end →
  (d_term d <= t)%N → (d_term d = t → d_voted_for d = None ∨ d_voted_for d = vote) →
  replay_one (term_body t vote) d = Some (mkDurable t vote (d_log d)).
Proof.
  intros Hw Hid Hle Hv. unfold replay_one, term_body.
  rewrite split_words; [|done|no_spaces; apply vote_word_no_space]. cbv zeta.
  rewrite bool_decide_false by done. rewrite existsb_nonempty.
  2: { repeat (apply Forall_cons; split); try apply Forall_nil; trivial; [done|apply dec_not_nil|apply vote_word_not_nil]. }
  rewrite bool_decide_true by done. unfold replay_term. rewrite parse_u64_dec by done. cbn [mbind option_bind].
  assert (Ev : (if bool_decide (vote_word vote = lit "-") then Some None
      else n ← parse_u64 (vote_word vote); if (1000 <? n)%N then None else Some (Some (N.to_nat n))) = Some vote).
  { destruct vote as [v|]; [|done]. rewrite bool_decide_false.
    - cbn [vote_word]. unfold idx. rewrite parse_u64_dec by (unfold wire_num; lia). cbn [mbind option_bind].
      destruct (N.ltb_spec 1000 (N.of_nat v)); [lia|]. by rewrite Nat2N.id.
    - intros E. cbn [vote_word] in E. pose proof (dec_digits (N.of_nat v)) as Hd. unfold idx in E. rewrite E in Hd.
      by apply Forall_cons in Hd as [Hd _]. }
  rewrite Ev. cbn [mbind option_bind]. destruct (N.ltb_spec t (d_term d)); [lia|].
  destruct (N.eqb_spec t (d_term d)) as [E|E]; [|done]. destruct (Hv (eq_sym E)) as [->| ->].
  - by rewrite bool_decide_true by done.
  - rewrite (bool_decide_true (vote = vote)) by done. cbn [negb]. by rewrite andb_false_r.
Qed.

Lemma replay_one_cut from d : 1 ≤ from ≤ length (d_log d) → wire_num (N.of_nat from) →
  replay_one (cut_body from) d = Some (mkDurable (d_term d) (d_voted_for d) (take (from - 1) (d_log d))).
Proof.
  intros Hf Hw. unfold replay_one, cut_body. rewrite split_words; [|done|no_spaces]. cbv zeta.
  rewrite bool_decide_false by done. rewrite existsb_nonempty.
  2: { repeat (apply Forall_cons; split); try apply Forall_nil; trivial; [done|apply dec_not_nil]. }
  rewrite bool_decide_true by done. unfold replay_cut, idx. rewrite parse_u64_dec by done. cbn [mbind option_bind].
  destruct (N.eqb_spec (N.of_nat from) 0); [lia|]. destruct (N.ltb_spec (N.of_nat (length (d_log d))) (N.of_nat from)); [lia|].
  cbn [orb]. by rewrite Nat2N.id.
Qed.

Lemma split_entry_body i e : split_single_spaces (entry_body i e) =
  lit "ENTRY" :: idx i :: dec (e_term e) :: split_single_spaces (e_command e).
Proof.
  unfold entry_body, words, split_single_spaces. cbn [join]. rewrite <- !app_assoc. cbn [app]. rewrite <- !app_assoc.
  cbn [app]. rewrite split_on_app by (apply (lit_no_space "ENTRY"); by vm_compute).
  rewrite split_on_app by apply idx_no_space. by rewrite split_on_app by apply dec_no_space.
Qed.

Lemma replay_one_entry i e d : i = length (d_log d) + 1 → wire_num (N.of_nat i) → wire_num (e_term e) →
  (e_term e <= d_term d)%N → command_line (e_command e) →
  (∀ e', last (d_log d) = Some e' → (e_term e' <= e_term e)%N) →
  replay_one (entry_body i e) d = Some (mkDurable (d_term d) (d_voted_for d) (d_log d ++ [e])).
Proof.
  intros Ei Hwi Hwt Hle [Hnl Hcmd] Hlast. unfold replay_one. rewrite split_entry_body. cbv zeta.
  rewrite bool_decide_false by done. rewrite existsb_nonempty.
  2: { repeat (apply Forall_cons; split); [done|apply dec_not_nil|apply dec_not_nil|done]. }
  destruct (split_single_spaces (e_command e)) as [|c0 cs] eqn:Ec; [by apply split_on_not_nil in Ec|].
  rewrite bool_decide_true by done. unfold replay_entry, idx. rewrite !parse_u64_dec by done. cbn [mbind option_bind].
  rewrite Ei at 1. destruct (N.eqb_spec (N.of_nat (length (d_log d) + 1)) (N.of_nat (length (d_log d)) + 1)); [|lia].
  destruct (N.ltb_spec (d_term d) (e_term e)); [lia|]. cbn [negb orb].
  assert (Hl : match last (d_log d) with Some e0 => (e_term e <? e_term e0)%N | None => false end = false).
  { destruct (last (d_log d)) as [ex|]; [|done]. apply N.ltb_ge. by apply Hlast. }
  rewrite Hl. do 3 f_equal. fold (idx i).
  replace (length (lit "ENTRY") + length (idx i) + length (dec (e_term e)) + 3)
    with (length (words [lit "ENTRY"; idx i; dec (e_term e)]) + 1).
  - unfold entry_body. rewrite drop_past. by destruct e.
  - unfold words. cbn [join]. rewrite !length_app. cbn [length]. rewrite !length_app. cbn [length]. lia.
Qed.

Lemma take_imap {A B} (f : nat → A → B) k l : imap f (take k l) = take k (imap f l).
Proof.
  apply list_eq. intros i. rewrite list_lookup_imap. destruct (decide (i < k)).
  - rewrite !lookup_take_lt by done. by rewrite list_lookup_imap.
  - by rewrite !lookup_take_ge by lia.
Qed.

(** The entries of a batch, replayed one after the other. *)
Lemma replay_entries D t vote from l k : savable D t vote from l → k ≤ length l - (from - 1) →
  replay_all (imap (λ k e, entry_body (from + k) e) (take k (drop (from - 1) l))) (mkDurable t vote (take (from - 1) l))
  = Some (mkDurable t vote (take (from - 1 + k) l)).
Proof.
  intros [(Hf1 & Hf2 & Hf3 & HT) _ _ [Hwt Hwl] _ Hent Hsort]. induction k as [|k IH]; intros Hk.
  { cbn. by rewrite Nat.add_0_r. }
  destruct (lookup_lt_is_Some_2 l (from - 1 + k)) as [e He]; [lia|].
  assert (Hd : drop (from - 1) l !! k = Some e) by (by rewrite lookup_drop).
  rewrite (take_S_snoc _ _ _ Hd), imap_app, replay_all_app, IH by lia. cbn [mbind option_bind imap compose].
  rewrite length_take, length_drop. rewrite (Nat.min_l k) by lia.
  destruct (Hent _ _ (Nat.le_add_r _ _) He) as [Hte Hcmd].
  erewrite replay_all_cons; [reflexivity|]. rewrite replay_one_entry; cbn [d_log d_term d_voted_for].
  - do 2 f_equal. replace (from - 1 + S k) with (S (from - 1 + k)) by lia. by rewrite (take_S_snoc _ _ _ He).
  - rewrite length_take. pose proof (lookup_lt_Some _ _ _ He). lia.
  - unfold wire_num in *. pose proof (lookup_lt_Some _ _ _ He). lia.
  - unfold wire_num in *. lia.
  - done.
  - done.
  - intros e' Hl. rewrite last_lookup, length_take in Hl. pose proof (lookup_lt_Some _ _ _ He).
    destruct (decide (from - 1 + k = 0)) as [E|E]; [by rewrite E in Hl|].
    rewrite Nat.min_l, lookup_take_lt in Hl by lia. eapply (Hsort (Nat.pred (from - 1 + k))); [lia|done|].
    by replace (S (Nat.pred (from - 1 + k))) with (from - 1 + k) by lia.
Qed.

(** The object remembers what the file holds. *)
Definition held_file (st : FileStorage) : Durable := rp_state (replay_file (fs_file st)).
Record file_ok (st : FileStorage) : Prop := {
  fo_open : fs_open st = true;
  fo_clean : rp_why (replay_file (fs_file st)) = None;
  fo_term : fs_term st = d_term (held_file st);
  fo_vote : fs_voted_for st = d_voted_for (held_file st);
  fo_last : fs_last st = length (d_log (held_file st));
}.

(** Whole records of a batch leave the state a partial save may leave; all of
    them leave the state that was saved. *)
Lemma replay_batch_prefix st t vote from l j : file_ok st → savable (held_file st) t vote from l →
  let bodies := batch_bodies st t vote from l in
  ∃ D', replay_all (take j bodies) (held_file st) = Some D'
    ∧ partial_save (held_file st) t vote from l D' ∧ (length bodies ≤ j → D' = mkDurable t vote l).
Proof.
  intros [_ _ Et Ev El] Hsv bodies. set (D := held_file st) in *. subst bodies. unfold batch_bodies.
  rewrite Et, Ev, El. destruct (sv_can _ _ _ _ _ Hsv) as (Hf1 & Hf2 & Hf3 & HT).
  set (T := if _ && _ then [] else [term_body t vote]). set (C := if from <=? _ then [cut_body from] else []).
  set (E := imap _ _).
  assert (HTs : replay_all T D = Some (mkDurable t vote (d_log D)) ∧ length T ≤ 1).
  { subst T. destruct (N.eqb_spec t (d_term D)) as [E1|E1]; [case_bool_decide as E2|]; cbn [andb].
    - split; [|cbn; lia]. cbn. rewrite E1, E2. by destruct D.
    - split; [|cbn; lia]. erewrite replay_all_cons; [done|]. apply replay_one_term; apply Hsv.
    - split; [|cbn; lia]. erewrite replay_all_cons; [done|]. apply replay_one_term; apply Hsv. }
  assert (HCs : replay_all C (mkDurable t vote (d_log D)) = Some (mkDurable t vote (take (from - 1) l)) ∧ length C ≤ 1).
  { subst C. rewrite HT. destruct (Nat.leb_spec from (length (d_log D))) as [Hle|Hgt]; (split; [|cbn; lia]).
    - erewrite replay_all_cons; [done|]. rewrite replay_one_cut; cbn; [done|lia|].
      destruct (sv_num _ _ _ _ _ Hsv). unfold wire_num in *. lia.
    - cbn. by rewrite take_ge by lia. }
  assert (HEs : ∀ k, ∃ n, from - 1 ≤ n ≤ length l ∧ replay_all (take k E) (mkDurable t vote (take (from - 1) l))
      = Some (mkDurable t vote (take n l)) ∧ (length E ≤ k → n = length l)).
  { intros k. subst E. set (k' := Nat.min k (length l - (from - 1))). exists (from - 1 + k').
    rewrite length_imap, length_drop. split; [lia|]. split; [|lia].
    rewrite <- (replay_entries D t vote from l k' Hsv ltac:(lia)). f_equal.
    rewrite <- take_imap. f_equal. destruct (decide (k ≤ length l - (from - 1))); [f_equal; lia|].
    by rewrite !take_ge by (rewrite length_drop; lia). }
  destruct HTs as [HT1 HT2]. destruct HCs as [HC1 HC2].
  rewrite app_assoc. rewrite take_app, replay_all_app, take_app.
  rewrite !length_app.
  destruct (decide (length T ≤ j)) as [HjT|HjT].
  2: { (* nothing of the batch *)
    assert (length T = 1 ∧ j = 0) as [_ ->] by lia. exists D. cbn. rewrite !take_0. cbn.
    split; [done|]. split; [by left|]. destruct T; cbn in *; lia. }
  rewrite (take_ge T), replay_all_app, HT1 by lia. cbn [mbind option_bind].
  destruct (decide (length T + length C ≤ j)) as [HjC|HjC].
  2: { assert (length C = 1 ∧ j - length T = 0) as [HC0 E0] by lia. rewrite E0, take_0. cbn.
    replace (j - (length T + length C)) with 0 by lia. rewrite take_0. cbn.
    exists (mkDurable t vote (d_log D)). split; [done|]. split; [right; by left|lia]. }
  rewrite (take_ge C), HC1 by lia. cbn [mbind option_bind].
  destruct (HEs (j - (length T + length C))) as (n & Hn & HE & Hfull). rewrite HE.
  exists (mkDurable t vote (take n l)). split; [done|]. split; [right; right; eauto|].
  intros Hlen. rewrite Hfull by lia. by rewrite take_ge by lia.
Qed.

Lemma vote_word_no_nl v : NL ∉ vote_word v.
Proof. destruct v; [apply dec_no_nl|]. apply (bool_decide_unpack _). by vm_compute. Qed.

Lemma lit_no_nl s : bool_decide (NL ∉ lit s) = true → NL ∉ lit s.
Proof. by rewrite bool_decide_eq_true. Qed.

Lemma bodies_no_nl st t vote from l : savable (held_file st) t vote from l → 1 ≤ from →
  Forall (λ b, NL ∉ b) (batch_bodies st t vote from l).
Proof.
  intros Hsv Hf. unfold batch_bodies. apply Forall_app. split; [|apply Forall_app; split].
  - destruct (_ && _); [done|]. apply Forall_singleton, join_no; [done|].
    repeat (apply Forall_cons; split); try apply Forall_nil; trivial;
      [apply lit_no_nl; by vm_compute|apply dec_no_nl|apply vote_word_no_nl].
  - destruct (_ <=? _); [|done]. apply Forall_singleton, join_no; [done|].
    repeat (apply Forall_cons; split); try apply Forall_nil; trivial; [apply lit_no_nl; by vm_compute|apply dec_no_nl].
  - apply Forall_lookup. intros k b Hk. rewrite list_lookup_imap in Hk. apply fmap_Some in Hk as (e & He & ->).
    rewrite lookup_drop in He. destruct (sv_entries _ _ _ _ _ Hsv _ _ (Nat.le_add_r _ _) He) as [_ [Hc _]].
    unfold entry_body. rewrite elem_of_app, elem_of_cons. intros [Hin|[Hin|Hin]]; [|done|done].
    revert Hin. apply join_no; [done|].
    repeat (apply Forall_cons; split); try apply Forall_nil; trivial;
      [apply lit_no_nl; by vm_compute|apply dec_no_nl|apply dec_no_nl].
Qed.

(** A clean replay has read every byte. *)
Lemma replayed_good t : ∀ r, rp_why r = None → rp_why (replayed t r) = None →
  rp_good (replayed t r) = rp_good r + length t.
Proof.
  unfold replayed. remember (length t) as n eqn:Hn. revert t Hn. induction (lt_wf n) as [n _ IH]. intros t -> r Hr.
  destruct t as [|x t]; [cbn; lia|]. set (u := x :: t) in *. cbn [length u replay]. fold u.
  destruct (find_char NL u) as [nl|] eqn:Hnl; [|done]. destruct (parse_log_record _) as [body|]; [|done].
  destruct (replay_one _ _) as [d|]; [|done]. apply find_char_Some in Hnl as [Eq _].
  assert (Hlt : nl < length u).
  { apply (f_equal length) in Eq. rewrite length_app in Eq. cbn [length] in Eq. rewrite length_take, length_drop in Eq. lia. }
  set (r' := mkReplay d _ _ None). cbn [length u] in Hlt.
  rewrite (replay_fuel (length t) (length (drop (nl + 1) u))) by (rewrite ?length_drop; cbn [length u]; lia).
  intros Hw. rewrite (IH (length (drop (nl + 1) u))); [|rewrite length_drop; cbn [length u]; lia|done|done|done].
  cbn [r' rp_good]. rewrite length_drop. cbn [length u]. lia.
Qed.

Lemma batch_of_nil bodies : batch_of bodies = [] → bodies = [].
Proof.
  destruct bodies as [|b bodies]; [done|]. unfold batch_of, record_line. cbn. intros E.
  apply app_nil in E as [E _]. by apply app_nil in E as [_ E].
Qed.

(** The file after whole records: what replay makes of it. *)
Lemma replay_file_batch st t vote from l j D' : file_ok st → savable (held_file st) t vote from l →
  replay_all (take j (batch_bodies st t vote from l)) (held_file st) = Some D' →
  ∃ k, replay_file (fs_file st ++ batch_of (take j (batch_bodies st t vote from l))) =
    mkReplay D' (length (fs_file st) + length (batch_of (take j (batch_bodies st t vote from l)))) k None.
Proof.
  intros Hok Hsv Hrep. destruct (sv_can _ _ _ _ _ Hsv) as (Hf & _). unfold replay_file.
  change (replay _ ?x fresh) with (replayed x fresh). rewrite replayed_app; [|done|apply (fo_clean _ Hok)].
  pose proof (fo_clean _ Hok) as Hc. change (replay_file (fs_file st)) with (replayed (fs_file st) fresh) in Hc.
  eexists. rewrite (replayed_batch _ (held_file st) D').
  - rewrite replayed_good by done. reflexivity.
  - apply Forall_take. by apply bodies_no_nl.
  - done.
  - done.
  - done.
Qed.

Lemma save_holds st t vote from l :
  file_ok st → savable (held_file st) t vote from l → fs_fault st = None →
  ∃ st', save st t vote from l = (true, st') ∧ held_file st' = mkDurable t vote l ∧ file_ok st'.
Proof.
  intros Hok Hsv Hfault. unfold save, FileStorage_save. rewrite (fo_open _ Hok), Hfault. cbn [negb]. cbv zeta.
  set (bodies := batch_bodies st t vote from l).
  destruct (replay_batch_prefix st t vote from l (length bodies) Hok Hsv) as (D' & Hrep & _ & Hfull).
  fold bodies in Hrep, Hfull. rewrite Hfull in Hrep by done.
  case_bool_decide as Hd.
  - apply batch_of_nil in Hd. rewrite Hd in Hrep. cbn in Hrep. exists st. by simplify_eq.
  - eexists. split; [done|].
    destruct (replay_file_batch st t vote from l (length bodies) _ Hok Hsv Hrep) as (k & E).
    fold bodies in E. rewrite take_ge in E by done.
    unfold held_file. cbn [fs_file]. split; [by rewrite E|]. split; unfold held_file; cbn [fs_open fs_file fs_term fs_voted_for fs_last]; by rewrite ?E.
Qed.

(** A well-formed log opens, as it is and with what it holds. *)
Lemma open_well_formed path env st : file_ok st →
  oe_read env = Some (fs_file st) → oe_read_error env = None → oe_open_error env = None →
  ∃ st' report, open_file path env = inr (st', held_file st, report) ∧ fs_file st' = fs_file st ∧ file_ok st'.
Proof.
  intros Hok E1 E2 E3. unfold open_file. rewrite E2, E1, E3. cbv zeta. change (default [] (Some (fs_file st))) with (fs_file st).
  rewrite (fo_clean _ Hok). eexists _, _. split; [done|]. split; [done|].
  split; unfold held_file; cbn [fs_open fs_file fs_term fs_voted_for fs_last]; try done. apply (fo_clean _ Hok).
Qed.

(** C34. A save that succeeds is durable. On a well-formed log, for every save the core
    makes (term and vote moving forward, terms sorted, commands one line) and every
    write the disk takes, [save] returns true, and the next [open] of the file it
    leaves - if the system lets it be read and opened - returns exactly the term, vote
    and log that were saved, with the file unchanged and the log well-formed, ready
    for the next save. *)
Theorem save_is_durable st t vote from l path env :
  file_ok st → savable (held_file st) t vote from l → fs_fault st = None →
  ∃ st', save st t vote from l = (true, st') ∧ file_ok st' ∧
    (oe_read env = Some (fs_file st') → oe_read_error env = None → oe_open_error env = None →
     ∃ st'' report, open_file path env = inr (st'', mkDurable t vote l, report) ∧ fs_file st'' = fs_file st' ∧ file_ok st'').
Proof.
  intros Hok Hsv Hfault. destruct (save_holds _ _ _ _ _ Hok Hsv Hfault) as (st' & Es & Eh & Hok').
  exists st'. split; [done|]. split; [done|]. rewrite <- Eh. by apply open_well_formed.
Qed.

(** Reopening a file whose last write was cut short. *)
Lemma reopen_torn path st t vote from l j torn D' :
  file_ok st → savable (held_file st) t vote from l → NL ∉ torn → length torn ≤ LOG_TAIL_LIMIT →
  let whole := fs_file st ++ batch_of (take j (batch_bodies st t vote from l)) in
  replay_all (take j (batch_bodies st t vote from l)) (held_file st) = Some D' →
  ∃ st' report, open_file path (mkOpenEnv (Some (whole ++ torn)) None None None true) = inr (st', D', report)
    ∧ fs_file st' = whole ∧ held_file st' = D' ∧ file_ok st'.
Proof.
  intros Hok Hsv Ht Hlim whole Hrep. destruct (replay_file_batch st t vote from l j D' Hok Hsv Hrep) as (k & E).
  fold whole in E. unfold open_file. cbn [oe_read_error oe_read oe_open_error oe_cut_error oe_dir_synced]. cbv zeta.
  change (default [] (Some (whole ++ torn))) with (whole ++ torn).
  assert (Er : replay_file (whole ++ torn) = replayed torn (mkReplay D' (length whole) k None)).
  { unfold replay_file. change (replay _ ?x fresh) with (replayed x fresh).
    change (replay_file whole) with (replayed whole fresh) in E. rewrite replayed_app by (done || by rewrite E).
    rewrite E. unfold whole. by rewrite length_app. }
  destruct (replayed_torn torn (mkReplay D' (length whole) k None) Ht eq_refl) as (Es & Eg & Ew).
  rewrite Er, Es, Eg. cbn [rp_state rp_good]. rewrite take_app_length, length_app.
  replace (length whole + length torn - length whole) with (length torn) by lia.
  assert (Hst : ∀ st', st' = mkFileStorage true whole (d_term D') (d_voted_for D') (length (d_log D')) 0 None →
    fs_file st' = whole ∧ held_file st' = D' ∧ file_ok st').
  { intros st' ->. unfold held_file. cbn [fs_file]. rewrite E. split; [done|]. split; [done|].
    split; unfold held_file; cbn [fs_open fs_file fs_term fs_voted_for fs_last]; by rewrite ?E. }
  destruct (rp_why _) as [why|] eqn:Hwhy.
  - destruct (Nat.ltb_spec LOG_TAIL_LIMIT (length torn)); [lia|]. eexists _, _. split; [done|]. by apply Hst.
  - assert (torn = []) as ->.
    { destruct torn as [|x torn]; [done|]. exfalso. apply find_char_None in Ht. unfold replayed in Hwhy.
      cbn [length replay] in Hwhy. by rewrite Ht in Hwhy. }
    rewrite app_nil_r. eexists _, _. split; [done|]. by apply Hst.
Qed.

(** Whatever a crash or a failed write leaves of a batch, the replica can start again from:
    however many bytes of the batch reached the disk, [save] reports the failure, and
    reopening the file succeeds with a state that holds none of the batch, its term and
    vote, or those and the log up to some entry, which is exactly what the core's storage
    contract ([partial_save]) allows; the file is well-formed again. *)
Theorem crash_leaves_prefix path st t vote from l n st' :
  file_ok st → savable (held_file st) t vote from l → fs_fault st = Some n →
  length (batch_of (batch_bodies st t vote from l)) ≤ LOG_TAIL_LIMIT →
  save st t vote from l = (false, st') →
  ∃ st'' D' report,
    open_file path (mkOpenEnv (Some (fs_file st')) None None None true) = inr (st'', D', report)
    ∧ partial_save (held_file st) t vote from l D' ∧ held_file st'' = D' ∧ file_ok st''.
Proof.
  intros Hok Hsv Hfault Hlim. unfold save, FileStorage_save. rewrite (fo_open _ Hok), Hfault. cbn [negb]. cbv zeta.
  case_bool_decide; [done|]. intros Hs. injection Hs as <-. cbn [fs_file].
  destruct (sv_can _ _ _ _ _ Hsv) as (Hf & _).
  destruct (batch_prefix_cut (batch_bodies st t vote from l) n (bodies_no_nl _ _ _ _ _ Hsv Hf)) as (j & torn & E & Ht & _).
  assert (Hlen : length torn ≤ LOG_TAIL_LIMIT).
  { apply (f_equal length) in E. rewrite length_take, length_app in E. lia. }
  destruct (replay_batch_prefix st t vote from l j Hok Hsv) as (D' & Hrep & Hpart & _).
  destruct (reopen_torn path st t vote from l j torn D' Hok Hsv Ht Hlen Hrep) as (st'' & report & Ho & _ & Hh & Hok').
  rewrite E, app_assoc. exists st'', D', report. done.
Qed.

(** Damage further back than one batch is never repaired silently: if replay stops more than
    [LOG_TAIL_LIMIT] bytes before the end of the file, [open] refuses; it never returns a
    state that forgets records it had flushed. *)
Theorem old_damage_refused path env text :
  oe_read_error env = None → oe_read env = Some text → rp_why (replay_file text) ≠ None →
  LOG_TAIL_LIMIT < length text - rp_good (replay_file text) → ∃ err, open_file path env = inl err.
Proof.
  intros E1 E2 Hw Hlim. unfold open_file. rewrite E1, E2. cbv zeta. change (default [] (Some text)) with text. destruct (rp_why _) as [why|]; [|done].
  destruct (Nat.ltb_spec LOG_TAIL_LIMIT (length text - rp_good (replay_file text))); [eauto|lia].
Qed.

End file.

(** ** A run on a small file *)

(** A stand-in digest of the right shape, to execute the definitions with. *)
#[local] Existing Instances demo_sha1 demo_sha1_ok.

Definition demo_file (fault : option nat) : FileStorage := mkFileStorage true [] 0 None 0 0 fault.
Definition demo_log : list Entry := [mkEntry 1 "NOOP"; mkEntry 1 "SET a 1"].

Lemma demo_file_ok fault : file_ok (demo_file fault).
Proof. by split. Qed.

Lemma command_line_check c :
  bool_decide (NL ∉ c) && bool_decide (Forall (λ w, w ≠ []) (split_single_spaces c)) = true → command_line c.
Proof. intros E. apply andb_true_iff in E as [E1 E2]. split; by apply (bool_decide_unpack _), Is_true_true. Qed.

Lemma demo_savable fault : savable (held_file (demo_file fault)) 1 (Some 2) 1 demo_log.
Proof.
  change (held_file (demo_file fault)) with (mkDurable 0 None []). split; cbn [d_term d_voted_for].
  - split_and!; [lia|cbn; lia|cbn; lia|done].
  - lia.
  - lia.
  - by split; vm_compute.
  - lia.
  - intros [|[|i]] e _ He; cbn in He; simplify_eq; (split; [cbn; lia|apply command_line_check; by vm_compute]).
  - intros [|i] e e' _ He He'; cbn in He, He'; simplify_eq; cbn; lia.
Qed.

Definition demo_saved : FileStorage := (save (demo_file None) 1%N (Some 2) 1 demo_log).2.
Definition demo_reopen : OpenEnv := mkOpenEnv (Some (fs_file demo_saved)) None None None true.
Lemma save_is_durable_witness :
  ∃ st', save (demo_file None) 1%N (Some 2) 1 demo_log = (true, st') ∧ file_ok st' ∧
    (oe_read demo_reopen = Some (fs_file st') → oe_read_error demo_reopen = None → oe_open_error demo_reopen = None →
     ∃ st'' report, open_file "raft.log" demo_reopen = inr (st'', mkDurable 1 (Some 2) demo_log, report) ∧
       fs_file st'' = fs_file st' ∧ file_ok st'').
Proof.
  apply (save_is_durable (demo_file None) 1 (Some 2) 1 demo_log "raft.log" demo_reopen (demo_file_ok None) (demo_savable None) eq_refl).
Defined.

Lemma crash_leaves_prefix_witness : ∃ D', partial_save (mkDurable 0 None []) 1 (Some 2) 1 demo_log D'.
Proof.
  set (st' := (save (demo_file (Some 30)) 1%N (Some 2) 1 demo_log).2).
  destruct (crash_leaves_prefix (lit "raft.log") (demo_file (Some 30)) 1 (Some 2) 1 demo_log 30 st'
    (demo_file_ok _) (demo_savable _) eq_refl) as (st'' & D' & report & _ & Hp & _).
  - apply Nat.leb_le. by vm_compute.
  - by vm_compute.
  - exists D'. exact Hp.
Defined.

Definition bad_text : bytes := record_line (lit "CUT 1").
Lemma old_damage_refused_witness : ∃ text err,
  open_file (lit "raft.log") (mkOpenEnv (Some text) None None None true) = inl err.
Proof.
  exists (bad_text ++ replicate (LOG_TAIL_LIMIT + 1) SPACE).
  apply (old_damage_refused (lit "raft.log")
    (mkOpenEnv (Some (bad_text ++ replicate (LOG_TAIL_LIMIT + 1) SPACE)) None None None true)
    (bad_text ++ replicate (LOG_TAIL_LIMIT + 1) SPACE)); [done|done| |].
  - by vm_compute.
  - apply Nat.ltb_lt. by vm_compute.
Defined.

(** Records of an interrupted batch that reached the disk whole are kept: with the batch cut
    after its first record, the replica restarts in the new term, with the new vote, and
    without the entries. *)
Theorem partial_batch_survives :
  let st' := (save (demo_file (Some 30)) 1%N (Some 2) 1 demo_log).2 in
  (save (demo_file (Some 30)) 1%N (Some 2) 1 demo_log).1 = false
  ∧ held_file st' = mkDurable 1 (Some 2) [].
Proof. by vm_compute. Qed.
