(* ===== verification/RaftOutputs.v ===== *)
(** * RaftOutputs: what one method of the core hands to the state machine

    Whatever the input, a method of Raft.v hands over the entries from the one
    after the last applied on, in order and without a gap, and moves [applied]
    past them. *)
From S2P Require Import Prelude Text Raft.

Section outputs.
Context {S : Type} `{Storage S}.
Implicit Types s : Raft S.

(** Nothing handed over. *)
Definition quiet s s' : Prop := applied s' = applied s ∧ applied_out s' = applied_out s.

#[export] Instance quiet_preorder : PreOrder quiet.
Proof. split; [done|]. intros s1 s2 s3 [H1 H2] [H3 H4]. split; congruence. Qed.

Definition numbered (from : Index) (es : list Entry) : list (Index * Entry) := zip (seq from (length es)) es.

(** The entries [es] handed over. *)
Definition outputs s s' (es : list Entry) : Prop :=
  applied_out s' = applied_out s ++ numbered (applied s + 1) es ∧ applied s' = applied s + length es.

Lemma quiet_outputs s s' : quiet s s' → outputs s s' [].
Proof. intros [H1 H2]. split; cbn; [by rewrite app_nil_r|lia]. Qed.

Lemma outputs_after s s' s'' es : quiet s s' → outputs s' s'' es → outputs s s'' es.
Proof. intros [H1 H2] [H3 H4]. split; congruence. Qed.

Lemma outputs_before s s' s'' es : outputs s s' es → quiet s' s'' → outputs s s'' es.
Proof. intros [H1 H2] [H3 H4]. split; congruence. Qed.

Lemma quiet_foldl {A} (f : Raft S → A → Raft S) l s : (∀ s x, quiet s (f s x)) → quiet s (foldl f s l).
Proof.
  intros Hf. revert s. induction l as [|x l IH]; intros s; [done|]. cbn. etrans; [apply Hf|apply IH].
Qed.

Lemma reset_quiet s now : quiet s (reset_election_timer s now).
Proof. by split. Qed.
Lemma changed_from_quiet s i : quiet s (changed_from s i).
Proof. by split. Qed.
Lemma fail_reads_quiet s : quiet s (fail_reads s).
Proof. by split. Qed.
Lemma send_append_quiet s p now : quiet s (send_append s p now).
Proof. by split. Qed.
Lemma send_if_due_quiet s p now force : quiet s (send_if_due s p now force).
Proof. unfold send_if_due. by repeat case_match. Qed.
Lemma tick_peer_quiet now s p : quiet s (tick_peer now s p).
Proof. unfold tick_peer. cbv zeta. etrans; [|apply send_if_due_quiet]. by case_match. Qed.
Lemma become_follower_quiet s t l now : quiet s (become_follower s t l now).
Proof. unfold become_follower. cbv zeta. by repeat case_match. Qed.
Lemma become_leader_quiet s now : quiet s (become_leader s now).
Proof. unfold become_leader. cbv zeta. etrans; [|apply quiet_foldl; intros; apply send_append_quiet]. by split. Qed.
Lemma start_election_quiet s now : quiet s (start_election s now).
Proof.
  unfold start_election, call_votes. case_match; [etrans; [|apply become_leader_quiet]|]; by split.
Qed.
Lemma advance_commit_quiet s : quiet s (advance_commit s).
Proof. unfold advance_commit. by case_match. Qed.
Lemma resolve_reads_quiet s : quiet s (resolve_reads s).
Proof. unfold resolve_reads. by repeat case_match. Qed.

Lemma append_entries_quiet es : ∀ s i b s', append_entries s i es = (b, s') → quiet s s'.
Proof.
  induction es as [|e es IH]; intros s i b s'; cbn [append_entries]; [by intros [= _ ->]|].
  repeat case_match; try (by intros [= _ ->]); intros E; apply IH in E; (etrans; [|exact E]); by split.
Qed.

Lemma apply_committed_outputs s : ∃ es, outputs s (apply_committed s) es.
Proof.
  exists ((λ i, log s !!! (i - 1)) <$> seq (applied s + 1) (commit s - applied s)).
  unfold apply_committed, outputs, numbered. upd. rewrite length_fmap, length_seq. split; [|lia]. f_equal.
  rewrite zip_with_fmap_r. generalize (seq (applied s + 1) (commit s - applied s)). intros l.
  induction l as [|i l IH]; [done|]. cbn. by rewrite <- IH.
Qed.

Lemma commit_and_apply_outputs s : ∃ es, outputs s (commit_and_apply s) es.
Proof.
  unfold commit_and_apply. set (s1 := if bool_decide _ then _ else _).
  assert (H1 : quiet s s1) by (unfold s1; case_match; [apply advance_commit_quiet|done]).
  destruct (apply_committed_outputs s1) as [es Hes]. exists es.
  eapply outputs_before; [|apply resolve_reads_quiet]. by eapply outputs_after.
Qed.

Lemma finish_outputs s : ∃ es, outputs s (finish s) es.
Proof.
  unfold finish. destruct (stopped s); [by exists []; apply quiet_outputs|].
  destruct (dirty s); [|apply commit_and_apply_outputs]. cbv zeta. destruct (save _ _ _ _ _) as [ok st].
  destruct ok; cbn [negb]; [|by exists []; apply quiet_outputs].
  set (s1 := _ <| dirty_from := 0 |>). destruct (commit_and_apply_outputs s1) as [es Hes]. exists es.
  eapply outputs_after; [|exact Hes]. by split.
Qed.

Lemma finish_after s s' : quiet s s' → ∃ es, outputs s (finish s') es.
Proof. intros Hq. destruct (finish_outputs s') as [es Hes]. exists es. by eapply outputs_after. Qed.

(** ** The inputs *)

Lemma tick_outputs s now : ∃ es, outputs s (tick s now) es.
Proof.
  unfold tick. destruct (stopped s); [by exists []; apply quiet_outputs|].
  repeat case_match; apply finish_after; 
    first [done|apply start_election_quiet|apply become_follower_quiet|apply quiet_foldl; intros; apply tick_peer_quiet].
Qed.

Lemma handle_vote_outputs s req now : ∃ es, outputs s (handle_vote s req now).2 es.
Proof.
  unfold handle_vote. destruct (stopped s); [by exists []; apply quiet_outputs|]. cbv zeta. cbn [snd].
  apply finish_after. set (s1 := if (_ <? _)%N then _ else _).
  assert (H1 : quiet s s1) by (unfold s1; case_match; [apply become_follower_quiet|done]).
  etrans; [exact H1|]. by case_match.
Qed.

Lemma handle_vote_reply_outputs s from sent r now : ∃ es, outputs s (handle_vote_reply s from sent r now) es.
Proof.
  unfold handle_vote_reply. destruct (stopped s); [by exists []; apply quiet_outputs|]. apply finish_after.
  repeat case_match; auto using become_follower_quiet; [|by split|done].
  etrans; [|apply become_leader_quiet]. by split.
Qed.

Lemma handle_append_outputs s req now : ∃ es, outputs s (handle_append s req now).2 es.
Proof.
  unfold handle_append. destruct (stopped s); [by exists []; apply quiet_outputs|].
  case_match; [cbn [snd]; by apply finish_after|]. set (s1 := reset_election_timer _ _).
  assert (H1 : quiet s s1) by (unfold s1; etrans; [apply become_follower_quiet|apply reset_quiet]).
  assert (Ha : ∀ s2 reply, quiet s s2 → ∃ es, outputs s (answer_append s2 reply).2 es).
  { intros s2 reply Hq. unfold answer_append. cbv zeta. destruct (finish_after s s2 Hq) as [es Hes].
    exists es. by case_match. }
  unfold append_current. repeat case_match; auto.
  - apply Ha. etrans; [exact H1|]. etrans; [by eapply append_entries_quiet|].
    unfold learn_commit. by case_match.
  - exists []. apply quiet_outputs. etrans; [exact H1|]. etrans; [by eapply append_entries_quiet|]. by split.
Qed.

Lemma handle_append_reply_outputs s from sent r now : ∃ es, outputs s (handle_append_reply s from sent r now) es.
Proof.
  unfold handle_append_reply. destruct (stopped s); [by exists []; apply quiet_outputs|].
  case_match; [apply finish_after, become_follower_quiet|]. case_match; [by apply finish_after|]. cbv zeta.
  apply finish_after. etrans; [|apply send_if_due_quiet].
  unfold ack_reads, peer_heard, peer_matched, peer_refused. cbv zeta. repeat case_match; by split.
Qed.

Lemma call_failed_quiet s to sent now : quiet s (call_failed s to sent now).
Proof. unfold call_failed. cbv zeta. repeat case_match; by split. Qed.

Lemma propose_outputs s command now : ∃ es, outputs s (propose s command now).2 es.
Proof.
  unfold propose. case_match; [by exists []; apply quiet_outputs|]. cbv zeta. cbn [snd]. apply finish_after.
  etrans; [|apply quiet_foldl; intros; apply send_if_due_quiet]. by split.
Qed.

Lemma read_outputs s id now : ∃ es, outputs s (read s id now).2 es.
Proof.
  unfold read. case_match; [by exists []; apply quiet_outputs|]. cbv zeta. cbn [snd]. apply finish_after.
  etrans; [|apply quiet_foldl; intros; apply send_if_due_quiet]. by split.
Qed.

Lemma raft_init_outputs c st recovered rs now : ∃ es,
  applied_out (raft_init c st recovered rs now) = numbered 1 es ∧ applied (raft_init c st recovered rs now) = length es.
Proof.
  unfold raft_init. cbv zeta. set (s0 := raft_fields c st recovered rs).
  destruct (finish_after s0 (if cfg_size c =? 1 then start_election (reset_election_timer s0 now) now
                             else reset_election_timer s0 now)) as [es [H1 H2]].
  { case_match; [etrans; [|apply start_election_quiet]|]; by split. }
  by exists es.
Qed.
End outputs.
