(* ===== verification/Replica.v ===== *)
(** * Replica: one tracker replica (replica.h, replica.cpp)

    The Raft core and the namespace behind one lock. Every method runs with the
    lock held, so it is one function from state to state; where the source
    releases the lock - a client waiting for its entry or its read, a sender on
    the network - the method is cut in two, and whatever runs in between is
    another function of this file.

    A waiter lives on its request thread's stack and is shared with the replica
    through a pointer: the waiters ever made are the lists [rp_writers] and
    [rp_readers], and a pointer is a position in them. Entries the core applies
    are collected in [applied_out] while a core method runs and handed to
    [on_apply] when it returns: the core reads nothing that [on_apply] writes. *)
From S2P Require Import Prelude Text Net Chord Names Group Raft RaftWire.

Record ReplicaConfig := mkReplicaConfig { rc_group : list Address; rc_id : nat; rc_election : Millis }.

(** [RaftConfig::max_append_bytes] as raft.h sets it. *)
Definition MAX_APPEND_BYTES : N := (64 * 1024)%N.
Definition raft_config (c : ReplicaConfig) : RaftConfig :=
  mkRaftConfig (rc_id c) (length (rc_group c)) (rc_election c) MAX_APPEND_BYTES.

Record WriteWaiter := mkWriteWaiter { ww_term : Term; ww_done : bool; ww_result : bytes }.
Record ReadWaiter := mkReadWaiter { rw_done : bool; rw_ok : bool }.

Record Replica (S : Type) := mkReplica {
  rp_cfg : ReplicaConfig;
  rp_fingerprint : bytes;
  rp_ns : list (bytes * NameEntry);
  rp_writes : list (Index * nat);              (* the multimap: index, pointer *)
  rp_reads : gmap N nat;                       (* read number, pointer *)
  rp_next_read : N;
  rp_slots : list (option Outgoing);           (* the newest call pending for each peer *)
  rp_raft : Raft S;
  rp_stopping : bool;
  rp_fatal : bool;
  rp_shown_role : Role;
  rp_shown_term : Term;
  rp_known_leader : option nat;
  rp_mismatch : list bool;
  rp_elections : N;
  rp_leader_changes : N;
  rp_calls_failed : list N;
  rp_writers : list WriteWaiter;
  rp_readers : list ReadWaiter;
}.
Arguments mkReplica {S}. Arguments rp_cfg {S}. Arguments rp_fingerprint {S}. Arguments rp_ns {S}.
Arguments rp_writes {S}. Arguments rp_reads {S}. Arguments rp_next_read {S}. Arguments rp_slots {S}.
Arguments rp_raft {S}. Arguments rp_stopping {S}. Arguments rp_fatal {S}. Arguments rp_shown_role {S}.
Arguments rp_shown_term {S}. Arguments rp_known_leader {S}. Arguments rp_mismatch {S}.
Arguments rp_elections {S}. Arguments rp_leader_changes {S}. Arguments rp_calls_failed {S}.
Arguments rp_writers {S}. Arguments rp_readers {S}.
#[export] Instance Replica_eta {S} : Eta (Replica S) := λ p,
  mkReplica (rp_cfg p) (rp_fingerprint p) (rp_ns p) (rp_writes p) (rp_reads p) (rp_next_read p) (rp_slots p) (rp_raft p)
    (rp_stopping p) (rp_fatal p) (rp_shown_role p) (rp_shown_term p) (rp_known_leader p) (rp_mismatch p)
    (rp_elections p) (rp_leader_changes p) (rp_calls_failed p) (rp_writers p) (rp_readers p).

Definition UNKNOWN_OUTCOME : bytes :=
  "UNAVAILABLE the request was not committed in time; its outcome is unknown, and retrying is safe".
Definition REPLACED : bytes :=
  "UNAVAILABLE a new leader replaced this request before it was committed; retrying is safe".
Definition NO_LEADER : bytes := "UNAVAILABLE no leader is known; an election may be in progress".
Definition IS_STOPPING : bytes := "UNAVAILABLE this replica is stopping".
Definition UNCONFIRMED : bytes :=
  "UNAVAILABLE the read could not be confirmed by a majority in time; retrying is safe".

(** What a request thread does next. *)
Inductive Outcome :=
  | Reply (line : bytes)
  | WaitWrite (w : nat)                           (* until the entry is applied *)
  | WaitRead (id : N) (w : nat) (r : NamesRequest)  (* until the read is confirmed *)
  | Exits.                                        (* [on_fatal]: the process ends *)

Definition out_to (o : Outgoing) : nat := match o with OutVote to _ | OutAppend to _ => to end.

Section replica.
Context {SH : Sha1} {S : Type} `{Storage S}.
Implicit Types p : Replica S.

(** ** Moving the core's outputs to where they go *)

Definition complete_write (result : bytes) (t : Term) (w : WriteWaiter) : WriteWaiter :=
  mkWriteWaiter (ww_term w) true (if (ww_term w =? t)%N then result else REPLACED).

Definition on_apply p (x : Index * Entry) : Replica S :=
  let '(index, entry) := x in
  let '(result, ns) := apply_command (rp_ns p) (e_command entry) in
  let range := filter (λ y, y.1 = index) (rp_writes p) in
  p <| rp_ns := ns |>
    <| rp_writers := foldl (λ ws y, alter (complete_write result (e_term entry)) y.2 ws) (rp_writers p) range |>
    <| rp_writes := filter (λ y, y.1 ≠ index) (rp_writes p) |>.

(** The core's state after one of its methods, and the entries it applied. *)
Definition core p (s : Raft S) : Replica S :=
  foldl on_apply (p <| rp_raft := s <| applied_out := [] |> |>) (applied_out s).

Definition resolve_read_waiter p (r : ReadResult) : Replica S :=
  match rp_reads p !! rr_id r with
  | None => p
  | Some w => p <| rp_readers := alter (λ _, mkReadWaiter true (rr_ok r)) w (rp_readers p) |>
                <| rp_reads := delete (rr_id r) (rp_reads p) |>
  end.

(** [dispatch] once the outputs are out of the core: the fatal flag and the counts. *)
Definition note_role p : Replica S :=
  let s := rp_raft p in
  if negb (bool_decide (role s = rp_shown_role p)) || negb (term s =? rp_shown_term p)%N
  then p <| rp_elections := if bool_decide (role s = Candidate) then wrap64N (rp_elections p + 1) else rp_elections p |>
         <| rp_shown_role := role s |> <| rp_shown_term := term s |>
  else p.
Definition note_leader p : Replica S :=
  match leader (rp_raft p) with
  | Some l => if bool_decide (rp_known_leader p = Some l) then p
              else p <| rp_known_leader := Some l |> <| rp_leader_changes := wrap64N (rp_leader_changes p + 1) |>
  | None => p
  end.

Definition dispatch p : Replica S :=
  let '(calls, s) := take_outgoing (rp_raft p) in
  let '(results, s) := take_reads s in
  let p := p <| rp_raft := s |> <| rp_slots := foldl (λ slots o, <[out_to o := Some o]> slots) (rp_slots p) calls |> in
  let p := foldl resolve_read_waiter p results in
  let p := if stopped (rp_raft p) then p <| rp_fatal := true |> else p in
  note_leader (note_role p).

(** After a core method: [dispatch], then [check_fatal]. *)
Definition after_core p (s : Raft S) : Replica S := dispatch (core p s).
Definition check_fatal p (o : Outcome) : Outcome := if rp_fatal p then Exits else o.

(** ** The constructor *)

Definition replica_fields (c : ReplicaConfig) (s : Raft S) : Replica S :=
  let n := length (rc_group c) in
  mkReplica c (group_fingerprint (address_text <$> rc_group c)) [] [] ∅ 0 (replicate n None) s false false
    Follower 0 None (replicate n false) 0 0 (replicate n 0%N) [] [].
Definition replica_init (c : ReplicaConfig) (st : S) (recovered : Durable) (rs : nat → Z) (now : Millis) : Replica S :=
  let s := raft_init (raft_config c) st recovered rs now in
  after_core (replica_fields c s) s.

Definition stop p : Replica S := p <| rp_stopping := true |>.

(** ** Requests *)

Definition not_leader p : bytes :=
  match leader (rp_raft p) with
  | Some l => if bool_decide (l = rc_id (rp_cfg p)) then NO_LEADER
              else lit "REDIRECT " ++ address_text (rc_group (rp_cfg p) !!! l)
  | None => NO_LEADER
  end.

Definition status p : bytes :=
  let s := rp_raft p in
  lit "STATUS " ++ words [idx (rc_id (rp_cfg p)); role_name (role s); dec (term s);
    match leader s with Some l => idx l | None => lit "-" end; idx (commit s); idx (applied s); idx (last_index s)].

(** [writes_.erase(it)]: the element is known by its pointer. *)
Definition erase_write p (w : nat) : Replica S := p <| rp_writes := filter (λ y, y.2 ≠ w) (rp_writes p) |>.

Definition waiter_done p (w : nat) : bool := match rp_writers p !! w with Some x => ww_done x | None => false end.

(** A REGISTER or UNREGISTER at the leader, up to its wait. *)
Definition client_write p (command : bytes) (now : Millis) : Outcome * Replica S :=
  let w := length (rp_writers p) in
  let p := p <| rp_writers := rp_writers p ++ [mkWriteWaiter (term (rp_raft p)) false []] |>
             <| rp_writes := rp_writes p ++ [(last_index (rp_raft p) + 1, w)] |> in
  let '((ok, _, _), s) := propose (rp_raft p) command now in
  if ok then
    let p := after_core p s in (check_fatal p (WaitWrite w), p)
  else
    let p := core p s in
    let p := dispatch (if waiter_done p w then p else erase_write p w) in
    (check_fatal p (Reply (not_leader p)), p).

(** RESOLVE, LIST and ENTRIES at the leader, up to the wait. *)
Definition client_read p (r : NamesRequest) (now : Millis) : Outcome * Replica S :=
  let w := length (rp_readers p) in
  let id := wrap64N (rp_next_read p + 1) in
  let p := p <| rp_next_read := id |> <| rp_readers := rp_readers p ++ [mkReadWaiter false false] |>
             <| rp_reads := <[id := w]> (rp_reads p) |> in
  let '(ok, s) := read (rp_raft p) id now in
  if ok then let p := after_core p s in (check_fatal p (WaitRead id w r), p)
  else let p := p <| rp_raft := s |> <| rp_reads := delete id (rp_reads p) |> in (Reply (not_leader p), p).

Definition client_request p (line : bytes) (now : Millis) : Outcome * Replica S :=
  let r := parse_names_request line in
  match r_kind r with
  | KInvalid => (Reply (r_error r), p)
  | KPing => (Reply (lit "PONG"), p)
  | kind =>
      if negb (bool_decide (role (rp_raft p) = Leader)) then (Reply (not_leader p), p)
      else match kind with
           | KRegister => client_write p (register_command (r_name r) (r_key r) (r_owner r)) now
           | KUnregister => client_write p (unregister_command (r_name r) (owner_hash (r_secret r))) now
           | _ => client_read p r now
           end
  end.

(** Refusing a call of another group. *)
Definition refuse_call p (from : nat) : Outcome * Replica S :=
  (Reply (lit "ERR group mismatch"), p <| rp_mismatch := <[from := true]> (rp_mismatch p) |>).
Definition wrong_group p (group : bytes) (from : nat) : bool :=
  negb (bool_decide (group = rp_fingerprint p)) || (length (rc_group (rp_cfg p)) <=? from) || (from =? rc_id (rp_cfg p)).

(** A call's reply leaves only if the replica still runs. *)
Definition reply_call p (s : Raft S) (reply : bytes) : Outcome * Replica S :=
  let p := after_core p s in (check_fatal p (Reply reply), p).

Definition handle_vote_call p (w : list bytes) (now : Millis) : Outcome * Replica S :=
  match parse_vote w with
  | None => (Reply (lit "ERR malformed VOTE"), p)
  | Some (group, req) =>
      if wrong_group p group (vq_candidate req) then refuse_call p (vq_candidate req)
      else let '(r, s) := handle_vote (rp_raft p) req now in reply_call p s (encode_vote_reply r)
  end.

Definition handle_append_call p (w : list bytes) (body : bytes) (now : Millis) : Outcome * Replica S :=
  match parse_append valid_command w body with
  | None => (Reply (lit "ERR malformed APPEND"), p)
  | Some (group, req) =>
      if wrong_group p group (aq_leader req) then refuse_call p (aq_leader req)
      else let '(r, s) := handle_append (rp_raft p) req now in reply_call p s (encode_append_reply r)
  end.

Definition handle p (line body : bytes) (now : Millis) : Outcome * Replica S :=
  if bool_decide (line = []) then (Reply (lit "ERR empty request"), p)
  else if rp_fatal p || rp_stopping p then (Reply IS_STOPPING, p)
  else
    let w := split_single_spaces line in
    let verb := default [] (head w) in
    if bool_decide (verb = lit "VOTE") then handle_vote_call p w now
    else if bool_decide (verb = lit "APPEND") then handle_append_call p w body now
    else if bool_decide (verb = lit "STATUS") && (length w =? 1) then (Reply (status p), p)
    else client_request p line now.

(** The end of a wait: [None] while the condition does not hold and the deadline
    has not passed. *)
Definition end_write p (w : nat) (late : bool) : option bytes * Replica S :=
  match rp_writers p !! w with
  | None => (None, p)
  | Some x =>
      if ww_done x then (Some (ww_result x), p)
      else if late || rp_stopping p || rp_fatal p then (Some UNKNOWN_OUTCOME, erase_write p w)
      else (None, p)
  end.

Definition end_read p (id : N) (w : nat) (r : NamesRequest) (late : bool) : option bytes * Replica S :=
  match rp_readers p !! w with
  | None => (None, p)
  | Some x =>
      if negb (rw_done x) then
        if late || rp_stopping p || rp_fatal p then (Some UNCONFIRMED, p <| rp_reads := delete id (rp_reads p) |>)
        else (None, p)
      else if negb (rw_ok x) then (Some (not_leader p), p)
      else (Some (answer_read (rp_ns p) r), p)
  end.

(** ** Threads *)

(** One turn of the ticker. *)
Definition ticker p (now : Millis) : Replica S :=
  if rp_stopping p then p else after_core p (tick (rp_raft p) now).

(** A sender takes its peer's call: the call, its line and its body. *)
Definition take_call p (peer : nat) : option (Outgoing * (bytes * bytes) * Replica S) :=
  if rp_stopping p then None
  else match rp_slots p !! peer with
       | Some (Some sent) =>
           Some (sent, match sent with
                       | OutVote _ r => (encode_vote (rp_fingerprint p) r, [])
                       | OutAppend _ r => encode_append (rp_fingerprint p) r
                       end, p <| rp_slots := <[peer := None]> (rp_slots p) |>)
       | _ => None
       end.

(** ... and hands what came back to the core. *)
Definition answered p (peer : nat) (sent : Outgoing) (d : Delivery) (reply : bytes) : option (Millis → Raft S) :=
  if negb (bool_decide (d = Ok)) then None
  else match sent with
       | OutVote _ r => vr ← parse_vote_reply reply; Some (handle_vote_reply (rp_raft p) peer r vr)
       | OutAppend _ r => ar ← parse_append_reply reply; Some (handle_append_reply (rp_raft p) peer r ar)
       end.
Definition take_reply p (peer : nat) (sent : Outgoing) (d : Delivery) (reply : bytes) (now : Millis) : Replica S :=
  if rp_stopping p then p
  else match answered p peer sent d reply with
       | Some f => after_core p (f now)
       | None =>
           after_core (p <| rp_calls_failed := alter (λ n, wrap64N (n + 1)) peer (rp_calls_failed p) |>)
             (call_failed (rp_raft p) peer sent now)
       end.
End replica.
