(* ===== verification/TrackerServe.v ===== *)
(** * TrackerServe: one connection of a tracker replica (tracker.cpp)

    [serve] answers the requests of one connection through the replica: the line
    and body are read, the replica handles them - a write or a read waits for the
    core while other threads run - and the reply is sent, counted and logged. The
    replica is shared with the ticker, the senders and the other connections: what
    they do between two requests is [tv_other], what they do while a request waits
    is the list of its [WaitEnv]. *)
From S2P Require Import Prelude Text OrdMap Net Log Serve Chord Names Group Raft Replica.

(** ** What is counted and logged *)

Definition VERBS : list bytes :=
  [lit "register"; lit "unregister"; lit "resolve"; lit "list"; lit "entries"; lit "ping"; lit "vote"; lit "append"; lit "status";
   lit "other"].
Definition RESULTS : list bytes :=
  [lit "ok"; lit "exists"; lit "missing"; lit "denied"; lit "redirect"; lit "unavailable"; lit "error"].

Definition verb_of (line : bytes) : bytes :=
  let v := lower <$> first_of line in if bool_decide (v ∈ VERBS) then v else lit "other".

Definition result_of (reply : bytes) : bytes :=
  let w := first_of reply in
  if bool_decide (w = lit "EXISTS") then lit "exists" else if bool_decide (w = lit "MISSING") then lit "missing"
  else if bool_decide (w = lit "DENIED") then lit "denied" else if bool_decide (w = lit "REDIRECT") then lit "redirect"
  else if bool_decide (w = lit "UNAVAILABLE") then lit "unavailable" else if bool_decide (w = lit "ERR") then lit "error"
  else lit "ok".

(** Registrations, deletions and resolves are one per file, the rest many. *)
Definition record_level (verb : bytes) : Level :=
  if bool_decide (verb ∈ [lit "register"; lit "unregister"; lit "resolve"]) then Info else Debug.

(** Only the name is logged from a request line. *)
Definition record_name (line : bytes) : bytes :=
  let w := split_single_spaces line in
  if (1 <? length w) && negb (bool_decide (verb_of line = lit "vote")) && negb (bool_decide (verb_of line = lit "append"))
  then default [] (w !! 1) else [].
Definition record_entry (line reply ms : bytes) : Level * bytes * list LogField :=
  (record_level (verb_of line), lit "tracker." ++ verb_of line,
   [(lit "name", record_name line); (lit "result", first_of reply); (lit "reply", take 120 reply); (lit "ms", ms)]).

Section serve.
Context {SH : Sha1} {S : Type} `{Storage S} (logger : Logger).

(** ** A request, waits included *)

(** Each element: what the other threads do before the waiter looks again; after
    the last one the deadline has passed. *)
Record WaitEnv := mkWaitEnv { we_now : Millis; we_meanwhile : list (Replica S → Replica S); we_ms : bytes }.

Fixpoint wait (done : bool → Replica S → option bytes * Replica S) (acts : list (Replica S → Replica S)) (p : Replica S)
    : option (bytes * Replica S) :=
  match done false p with
  | (Some reply, p) => Some (reply, p)
  | (None, _) =>
      match acts with
      | [] => match done true p with (Some reply, p) => Some (reply, p) | (None, _) => None end
      | a :: acts => wait done acts (a p)
      end
  end.

(** [None]: the process ends, or the wait does not. *)
Definition handle_request (e : WaitEnv) (line body : bytes) (p : Replica S) : option (bytes * Replica S) :=
  match handle p line body (we_now e) with
  | (Reply reply, p) => Some (reply, p)
  | (WaitWrite w, p) => wait (λ late p, end_write p w late) (we_meanwhile e) p
  | (WaitRead id w r, p) => wait (λ late p, end_read p id w r late) (we_meanwhile e) p
  | (Exits, _) => None
  end.

(** ** State *)

Record TrackerServer := mkTrackerServer {
  tv_conn : Conn; tv_replica : Replica S; tv_thread_id : bytes; tv_errors : Family; tv_requests : Family;
  tv_log : list (Level * bytes * list LogField); tv_turn : nat }.
#[local] Instance TrackerServer_eta : Eta TrackerServer := λ s,
  mkTrackerServer (tv_conn s) (tv_replica s) (tv_thread_id s) (tv_errors s) (tv_requests s) (tv_log s) (tv_turn s).

Context (env : nat → WaitEnv) (tv_other : nat → Replica S → Replica S).
Implicit Types s : TrackerServer.

Definition add_error (which : bytes) s : TrackerServer := s <| tv_errors := count which 1 (tv_errors s) |>.
Definition send_reply (reply : bytes) s : option (bool * TrackerServer) :=
  '(sent, c) ← put_line reply (tv_conn s); Some (sent, s <| tv_conn := c |>).

Definition record (line reply : bytes) s : TrackerServer :=
  let s := s <| tv_requests := count (verb_of line ++ lit "/" ++ result_of reply) 1 (tv_requests s) |> in
  let e := record_entry line reply (we_ms (env (tv_turn s))) in
  if log_enabled logger e.1.1 then s <| tv_log := tv_log s ++ [e] |> else s.

(** The body has been read: the replica answers. *)
Definition answer (line body : bytes) s : option (bool * TrackerServer) :=
  '(reply, p) ← handle_request (env (tv_turn s)) line body (tv_replica s);
  '(sent, s) ← send_reply reply (s <| tv_replica := p |>);
  Some (sent, record line reply s).

Definition serve_request (rid line : bytes) s : option (bool * TrackerServer) :=
  let '(saved, id) := open_scope rid (tv_thread_id s) in
  let s := s <| tv_thread_id := id |> in
  '(ok, s) ← match body_length line with
             | BodyMalformed => '(_, s) ← send_reply (lit "ERR malformed body length") (add_error (lit "malformed") s); Some (false, s)
             | BodyTooLarge => '(_, s) ← send_reply (lit "ERR body too large") (add_error (lit "malformed") s); Some (false, s)
             | BodyNone => answer line [] s
             | BodyPresent length =>
                 '(r, c) ← take_body length (tv_conn s);
                 let s := s <| tv_conn := c |> in
                 match r with
                 | inl e => Some (false, add_error (body_error e) s)
                 | inr body => answer line body s
                 end
             end;
  Some (ok, s <| tv_thread_id := close_scope saved |>).

Definition serve_one s : option (bool * TrackerServer) :=
  let s := s <| tv_replica := tv_other (tv_turn s) (tv_replica s) |> in
  '(r, c) ← take_request (tv_conn s);
  let s := s <| tv_conn := c |> in
  '(ok, s) ← match r with
             | Gone e => Some (false, if bool_decide (line_error e = []) then s else add_error (line_error e) s)
             | BadRequestId => '(_, s) ← send_reply (lit "ERR malformed request id") (add_error (lit "malformed") s); Some (false, s)
             | Request_of rid line => serve_request rid line s
             end;
  Some (ok, s <| tv_turn := tv_turn s + 1 |>).

Fixpoint serve (fuel : nat) s : option TrackerServer :=
  match fuel with
  | 0 => None
  | Datatypes.S fuel => '(ok, s) ← serve_one s; if (ok : bool) then serve fuel s else Some s
  end.

(** ** A careful client *)

Fixpoint answers (fs : list WireFrame) (t : nat) (p : Replica S) : option (list bytes * Replica S) :=
  match fs with
  | [] => Some ([], tv_other t p)
  | f :: fs =>
      '(reply, p) ← handle_request (env t) (wf_line f) (wf_body f) (tv_other t p);
      '(replies, p) ← answers fs (t + 1) p;
      Some (reply :: replies, p)
  end.

Lemma answer_accepts line body s more tl m reply p : delivers (tv_conn s) more tl →
  handle_request (env (tv_turn s)) line body (tv_replica s) = Some (reply, p) →
  accepts (length (line_bytes reply) + m) (cn_calls (tv_conn s)) →
  ∃ s', answer line body s = Some (true, s') ∧ delivers (tv_conn s') more tl ∧ accepts m (cn_calls (tv_conn s')) ∧
    cn_sent (tv_conn s') = cn_sent (tv_conn s) ++ line_bytes reply ∧ tv_replica s' = p ∧ tv_turn s' = tv_turn s.
Proof.
  intros Hd E Ha. unfold answer. rewrite E. cbn [mbind option_bind]. unfold send_reply, put_line. upd.
  destruct (put_bytes_accepts (line_bytes reply) (tv_conn s)) as (calls & Ep & Hm); [eapply accepts_less; [|exact Ha]; lia|].
  rewrite Ep. cbn [mbind option_bind]. eexists. split; [reflexivity|]. unfold record. cbv zeta.
  destruct (log_enabled _ _); upd; (split_and!; [exact Hd|by apply Hm|done..]).
Qed.

Lemma tracker_one_accepts f s more tl m reply p : frame_ok f → delivers (tv_conn s) (frame_bytes f ++ more) tl →
  handle_request (env (tv_turn s)) (wf_line f) (wf_body f) (tv_other (tv_turn s) (tv_replica s)) = Some (reply, p) →
  accepts (length (line_bytes reply) + m) (cn_calls (tv_conn s)) →
  ∃ s', serve_one s = Some (true, s') ∧ delivers (tv_conn s') more tl ∧ accepts m (cn_calls (tv_conn s')) ∧
    cn_sent (tv_conn s') = cn_sent (tv_conn s) ++ line_bytes reply ∧ tv_replica s' = p ∧ tv_turn s' = tv_turn s + 1.
Proof.
  intros Hf Hd E Ha. unfold serve_one. cbv zeta. upd. destruct (take_request_frame f (tv_conn s) more tl Hf Hd) as (rest & E1 & Hd1).
  rewrite E1. cbn [mbind option_bind]. unfold serve_request, open_scope. cbv zeta. set (s2 := _ <| tv_thread_id := wf_rid f |>).
  assert (Hans : ∃ c, delivers c more tl ∧ cn_calls c = cn_calls (tv_conn s) ∧ cn_sent c = cn_sent (tv_conn s) ∧
    match body_length (wf_line f) with
    | BodyPresent len => '(r, c) ← take_body len (tv_conn s2);
        match r with inl e => Some (false, add_error (body_error e) (s2 <| tv_conn := c |>)) | inr b => answer (wf_line f) b (s2 <| tv_conn := c |>) end
    | BodyNone => answer (wf_line f) [] s2
    | _ => None
    end = answer (wf_line f) (wf_body f) (s2 <| tv_conn := c |>)).
  { destruct (fo_body _ Hf) as [El|[El Eb]]; rewrite El.
    - destruct (take_body_clean (wf_body f) (tv_conn s2) more tl Hd1) as (rest2 & E2 & Hd2). rewrite E2. cbn [mbind option_bind].
      by exists ((tv_conn s2) <| cn_in := rest2 |>).
    - rewrite Eb in *. exists (tv_conn s2). split; [exact Hd1|]. done. }
  destruct Hans as (c & Hdc & Hcc & Hcs & Hmatch). set (s3 := s2 <| tv_conn := c |>) in *.
  destruct (answer_accepts (wf_line f) (wf_body f) s3 more tl m reply p Hdc E) as (s4 & E4 & D4 & A4 & S4 & P4 & T4).
  { subst s3. upd. by rewrite Hcc. }
  exists ((s4 <| tv_thread_id := close_scope (tv_thread_id s) |>) <| tv_turn := tv_turn s4 + 1 |>).
  destruct (body_length (wf_line f)); try (destruct (fo_body _ Hf) as [El|[El _]]; congruence).
  - rewrite Hmatch, E4. cbn [mbind option_bind]. split; [done|]. upd. subst s3. upd. rewrite S4, T4. upd. by rewrite Hcs.
  - cbv zeta. rewrite Hmatch, E4. cbn [mbind option_bind]. split; [done|]. upd. subst s3. upd. rewrite S4, T4. upd. by rewrite Hcs.
Qed.

(** The requests of a connection are answered one by one, in order, however the
    stream is cut, each as the replica answers it. *)
Theorem tracker_answers_in_order fs s st replies p :
  Forall frame_ok fs → cn_in (tv_conn s) = st ++ [RecvClosed] → clean st → stream_bytes st = concat (frame_bytes <$> fs) →
  answers fs (tv_turn s) (tv_replica s) = Some (replies, p) →
  accepts (length (concat (line_bytes <$> replies))) (cn_calls (tv_conn s)) →
  ∃ s', serve (Datatypes.S (length fs)) s = Some s' ∧
    cn_sent (tv_conn s') = cn_sent (tv_conn s) ++ concat (line_bytes <$> replies) ∧ tv_replica s' = p.
Proof.
  intros Hf Ein Hc E Ea Ha. assert (Hd : delivers (tv_conn s) (concat (frame_bytes <$> fs)) [RecvClosed]) by (by exists st).
  clear Ein Hc E st. revert s replies Hd Ea Ha. induction Hf as [|f fs Hf Hfs IH]; intros s replies Hd Ea Ha; cbn [answers] in Ea.
  - injection Ea as <- <-. cbn [length serve]. unfold serve_one. cbv zeta. upd.
    destruct (take_request_closed (tv_conn s) Hd) as (rest & Er). rewrite Er. cbn [mbind option_bind]. eexists. split; [reflexivity|].
    upd. rewrite bool_decide_true by done. upd. by rewrite app_nil_r.
  - destruct (handle_request _ _ _ _) as [[reply p1]|] eqn:Er; cbn [mbind option_bind] in Ea; [|done].
    destruct (answers fs _ _) as [[more p2]|] eqn:Em; cbn [mbind option_bind] in Ea; [|done]. injection Ea as <- <-.
    rewrite fmap_cons in Hd. rewrite fmap_cons in Ha. cbn [concat] in Hd, Ha. rewrite length_app in Ha.
    destruct (tracker_one_accepts f s _ _ _ _ _ Hf Hd Er Ha) as (s1 & E1 & D1 & A1 & S1 & P1 & T1).
    destruct (IH s1 more D1) as (s' & E' & S' & P'); [by rewrite T1, P1|exact A1|]. exists s'. split; [|split; [|done]].
    + change (serve (Datatypes.S (length (f :: fs))) s) with
        ('(ok, s) ← serve_one s; if (ok : bool) then serve (Datatypes.S (length fs)) s else Some s).
      rewrite E1. cbn [mbind option_bind]. exact E'.
    + rewrite S', S1, fmap_cons. cbn [concat]. by rewrite app_assoc.
Qed.
End serve.
