(* ===== verification/TrackerMetrics.v ===== *)
(** * TrackerMetrics: what a tracker exposes (tracker.cpp, replica.cpp)

    [register_metrics] of tracker.cpp over the registry, the readings it takes of a
    replica ([Replica::view]), and the storage that times its flushes. *)
From Stdlib Require Import SpecFloat.
From S2P Require Import Prelude Text OrdMap Names Raft RaftLog Replica TrackerServe Metrics NodeMetrics.

Section tracker.
Context {S : Type}.

(** What [Replica::view] copies under the lock. *)
Record View := mkView {
  v_role : Role; v_term : Term; v_leader : option nat; v_commit : Index; v_applied : Index; v_last : Index; v_names : nat }.
Definition view (p : Replica S) : View :=
  let s := rp_raft p in
  mkView (role s) (term s) (leader s) (commit s) (applied s) (last_index s) (length (rp_ns p)).

(** What a tracker's gauges read. *)
Record TrackerReads := mkTrackerReads { tr_connections : Z; tr_replica : Replica S }.

Record TrackerInstruments := mkTrackerInstruments {
  ti_connections_total : nat; ti_errors : Pointers; ti_requests : Pointers; ti_seconds : Pointers; ti_flush_seconds : nat }.

Local Open Scope reg_scope.

Definition TRACKER_ERRORS : list bytes := [lit "deadline"; lit "line_too_long"; lit "malformed"; lit "closed_mid_body"].

Definition register_verb (verb : bytes) : Reg TrackerReads (Pointers * (bytes * nat)) :=
  requests ← counters_by (lit "chordfs_tracker_requests_total") (lit "Requests answered, by verb and result.")
    (λ result, verb ++ lit "/" ++ result) (λ result, labels [(lit "verb", verb); (lit "result", result)]) RESULTS;
  seconds ← histogram (lit "chordfs_tracker_request_seconds") (lit "From a request read to its reply: a write waits for commit and apply (D-075).")
    latency_buckets (labels [(lit "verb", verb)]);
  reg_ret (requests, (verb, seconds)).

Definition raft_gauge (name help : bytes) (read : View → double) : Reg TrackerReads unit :=
  gauge name help (λ w, read (view (tr_replica w))) [].
(** A gauge per role, 1 for the one the replica holds. *)
Definition role_gauge (r : Role) : Reg TrackerReads unit :=
  gauge (lit "chordfs_raft_role") (lit "1 for the role this replica holds now.")
    (λ w, if bool_decide (v_role (view (tr_replica w)) = r) then d_of_Z 1 else S754_zero false) (labels [(lit "role", role_name r)]).

Definition register_raft : Reg TrackerReads nat :=
  reg_each role_gauge [Follower; Candidate; Leader];;
  raft_gauge (lit "chordfs_raft_term") (lit "The current term.") (λ v, d_of_N (v_term v));;
  raft_gauge (lit "chordfs_raft_leader") (lit "The leader this replica knows of, by position in the group; -1 for none.")
    (λ v, match v_leader v with Some l => d_of_nat l | None => d_of_Z (-1) end);;
  raft_gauge (lit "chordfs_raft_commit_index") (lit "The highest log index known committed.") (λ v, d_of_nat (v_commit v));;
  raft_gauge (lit "chordfs_raft_applied_index") (lit "The highest log index applied to the namespace.") (λ v, d_of_nat (v_applied v));;
  raft_gauge (lit "chordfs_raft_last_index") (lit "The last index in this replica's log.") (λ v, d_of_nat (v_last v));;
  raft_gauge (lit "chordfs_names") (lit "Names in the namespace, as applied here.") (λ v, d_of_nat (v_names v));;
  expose_counter (lit "chordfs_raft_elections_total") (lit "Elections this replica started.") (λ w, rp_elections (tr_replica w)) [];;
  expose_counter (lit "chordfs_raft_leader_changes_total") (lit "Times this replica learned of a different leader.")
    (λ w, rp_leader_changes (tr_replica w)) [];;
  histogram (lit "chordfs_raft_flush_seconds") (lit "One step's batch written and flushed (fdatasync) before any reply (D-074, D-082).")
    latency_buckets [].

Definition register_metrics (started : double) : Reg TrackerReads TrackerInstruments :=
  total ← register_process started tr_connections;
  errors ← register_errors TRACKER_ERRORS;
  verbs ← reg_each register_verb VERBS;
  flush ← register_raft;
  reg_ret (mkTrackerInstruments total errors (concat (fst <$> verbs)) (snd <$> verbs) flush).
End tracker.

(** ** The timed storage *)

(** The storage it wraps, whether the flush histogram is registered, what was observed
    into it, and what the clock will say each flush takes. *)
Record TimedStorage (S : Type) := mkTimedStorage { ts_inner : S; ts_registered : bool; ts_observed : list double; ts_seconds : list double }.
#[global] Arguments mkTimedStorage {S}. #[global] Arguments ts_inner {S}. #[global] Arguments ts_registered {S}.
#[global] Arguments ts_observed {S}. #[global] Arguments ts_seconds {S}.

#[export] Instance TimedStorage_save {S} `{Storage S} : Storage (TimedStorage S) := λ t term vote from l,
  let '(ok, inner) := save (ts_inner t) term vote from l in
  (ok, mkTimedStorage inner (ts_registered t)
         (if ts_registered t then ts_observed t ++ [default S754_nan (head (ts_seconds t))] else ts_observed t)
         (drop 1 (ts_seconds t))).

(** The registry once the flush histogram has observed them. *)
Definition observe_flushes {S W} (i : nat) (t : TimedStorage S) (r : Registry W) : Registry W :=
  foldl (λ r x, observe_own i x r) r (ts_observed t).
