(* ===== verification/ExposedSpec.v ===== *)
(** * ExposedSpec: every process registers its metrics, and exposes what it counted

    The three [register_metrics] never throw and leave well-typed registries, so
    every scrape renders; a family of labelled counters kept in the registry is the
    family NodeServe and TrackerServe count in; the timed storage keeps the
    promises of the storage it wraps. *)
From Stdlib Require Import SpecFloat.
From S2P Require Import Prelude Text Net OrdMap Serve Stabilize Chunk NodeServe Metrics MetricsSpec NodeMetrics Raft RaftCluster Replica TrackerServe TrackerMetrics Client ClientMetrics.

(** ** Programs that keep the registry well typed *)

Section keeps.
Context {W : Type}.

Definition reg_keeps {A} (m : Reg W A) : Prop := ∀ r, registry_ok r → registry_ok (fst (m r)).

Lemma ret_keeps {A} (a : A) : reg_keeps (reg_ret a).
Proof. by intros r Hr. Qed.
Lemma bind_keeps {A B} (m : Reg W A) (k : A → Reg W B) : reg_keeps m → (∀ a, reg_keeps (k a)) → reg_keeps (reg_bind m k).
Proof.
  intros Hm Hk r Hr. unfold reg_bind. specialize (Hm r Hr). destruct (m r) as [r' [e|a]]; [done|]. by apply Hk.
Qed.
Lemma each_keeps {A B} (f : A → Reg W B) l : (∀ a, reg_keeps (f a)) → reg_keeps (reg_each f l).
Proof.
  intros Hf. induction l as [|a l IH]; cbn [reg_each]; [apply ret_keeps|].
  apply bind_keeps; [done|]. intros b. apply bind_keeps; [done|]. intros bs. apply ret_keeps.
Qed.
Lemma op_keeps (op : RegistryOp W) : op_ok op → ∀ r, registry_ok r → registry_ok (apply_op r op).
Proof. intros Ho r. by apply apply_op_ok. Qed.
Lemma counter_keeps n h l : reg_keeps (counter n h l).
Proof. exact (op_keeps (OpCounter n h l) I). Qed.
Lemma histogram_keeps n h b l : reg_keeps (histogram n h b l).
Proof. exact (op_keeps (OpHistogram n h b l) I). Qed.
Lemma gauge_keeps n h f l : reg_keeps (gauge n h f l).
Proof. exact (op_keeps (OpGauge n h f l) I). Qed.
Lemma counter_fn_keeps n h f l : reg_keeps (counter_fn n h f l).
Proof. exact (op_keeps (OpCounterFn n h f l) I). Qed.
Lemma expose_counter_keeps n h f l : reg_keeps (expose_counter n h f l).
Proof. exact (op_keeps (OpExposeCounter n h f l) I). Qed.
Lemma expose_histogram_keeps n h f l : (∀ w, histogram_ok (f w)) → reg_keeps (expose_histogram n h f l).
Proof. intros H. exact (op_keeps (OpExposeHistogram n h f l) H). Qed.
Lemma counters_by_keeps {A} n h (key label_text : A → bytes) l : reg_keeps (counters_by n h key label_text l).
Proof. apply each_keeps. intros a. apply bind_keeps; [apply counter_keeps|]. intros i. apply ret_keeps. Qed.

Lemma observations_ok bounds xs : bounds ≠ [] → increasing bounds = true → histogram_ok (observations bounds xs).
Proof.
  intros Hb Hi. unfold observations. apply (foldl_keeps histogram_ok); [|by apply new_histogram_ok]. intros h x _. apply observe_ok.
Qed.
End keeps.

Create HintDb registers.
#[export] Hint Resolve ret_keeps counter_keeps histogram_keeps gauge_keeps counter_fn_keeps expose_counter_keeps counters_by_keeps : registers.

Ltac registers :=
  repeat first
    [ progress intros
    | solve [auto with registers]
    | apply bind_keeps
    | apply each_keeps
    | apply expose_histogram_keeps; intros; apply observations_ok; [done|vm_compute; reflexivity] ].

(** What a registration ended with. *)
Definition registered {W A} (m : Reg W A) : bool := match m empty_registry with (_, inr _) => true | _ => false end.

Lemma registers_result {W A} (m : Reg W A) : reg_keeps m → registered m = true →
  ∃ r a, m empty_registry = (r, inr a) ∧ registry_ok r ∧ ∀ w, is_Some (render r w).
Proof.
  intros Hk Hm. unfold registered in Hm. specialize (Hk _ empty_registry_ok). destruct (m empty_registry) as [r [e|a]]; [done|].
  exists r, a. split; [done|]. split; [done|]. intros w. by apply render_Some.
Qed.

Lemma node_registers started : reg_keeps (NodeMetrics.register_metrics started).
Proof.
  unfold NodeMetrics.register_metrics, register_process, register_errors, register_lookups, register_ring, register_eviction,
    register_chunks, register_chunk_verb, register_collection, register_repair. registers.
Qed.
Lemma tracker_registers {S} started : reg_keeps (TrackerMetrics.register_metrics (S := S) started).
Proof.
  unfold TrackerMetrics.register_metrics, register_process, register_errors, register_verb, register_raft, role_gauge, raft_gauge. registers.
Qed.
Lemma client_registers {W} started : reg_keeps (ClientMetrics.register_metrics (W := W) started).
Proof. unfold ClientMetrics.register_metrics, register_op. registers. Qed.

(** The metrics every process registers at its start are consistent: none of the registrations of the node, the
    tracker or the client throws, the registry they leave is well typed, and from then on every scrape renders, whatever
    state the process is in. *)
Theorem every_process_registers (S W : Type) (started : double) :
  (∃ r ni, NodeMetrics.register_metrics started empty_registry = (r, inr ni) ∧ registry_ok r ∧ ∀ w, is_Some (render r w)) ∧
  (∃ r ti, TrackerMetrics.register_metrics (S := S) started empty_registry = (r, inr ti) ∧ registry_ok r ∧ ∀ w, is_Some (render r w)) ∧
  (∃ r ci, ClientMetrics.register_metrics (W := W) started empty_registry = (r, inr ci) ∧ registry_ok r ∧ ∀ w, is_Some (render r w)).
Proof.
  split; [|split].
  - apply registers_result; [apply node_registers|vm_compute; reflexivity].
  - apply registers_result; [apply tracker_registers|vm_compute; reflexivity].
  - apply registers_result; [apply client_registers|vm_compute; reflexivity].
Qed.

(** ** Families of counters *)

Section family.
Context {W : Type}.

(** What happens to the registry while a family is counted in: its own counts, other
    counters, observations. *)
Inductive Move := Counts (key : bytes) (n : N) | Adds (i : nat) (n : N) | Observes (i : nat) (x : double).

Definition move_ok (ps : Pointers) (m : Move) : Prop := match m with Adds i _ => i ∉ ps.*2 | _ => True end.
Definition move_registry (ps : Pointers) (r : Registry W) (m : Move) : Registry W :=
  match m with Counts k n => count_in ps k n r | Adds i n => counter_add i n r | Observes i x => observe_own i x r end.
Definition move_family (f : Family) (m : Move) : Family := match m with Counts k n => count k n f | _ => f end.

(** Whatever is counted, each key's series, with its name and labels, is in the
    registry and renders the family's count. *)
Definition exposes (f : Family) (ps : Pointers) (r : Registry W) (lines : list (bytes * bytes * bytes)) : Prop :=
  ∀ moves w, Forall (move_ok ps) moves →
    let r := foldl (move_registry ps) r moves in let f := foldl move_family f moves in
    ∀ key name label_text, (key, name, label_text) ∈ lines →
    ∃ s n, s ∈ rg_series r ∧ sr_name s = name ∧ sr_label_text s = label_text ∧ om_find key f = Some n ∧
      series_lines r w s = Some (value_line name label_text (dec n)).

Definition represents (f : Family) (ps : Pointers) (r : Registry W) : Prop :=
  ∀ key, om_find key f = (i ← om_find key ps; rg_counters r !! i).

Lemma om_find_in {V} k (v : V) m : om_find k m = Some v → (k, v) ∈ m.
Proof.
  induction m as [|[k' v'] m IH]; cbn [om_find]; [done|]. rewrite elem_of_cons.
  repeat case_match; [intros [= <-]; left; f_equal; congruence|..]; intros Hx; right; by apply IH.
Qed.

Lemma pointers_distinct (ps : Pointers) k k' i : NoDup ps.*2 → om_find k ps = Some i → om_find k' ps = Some i → k = k'.
Proof.
  intros Hd H1%om_find_in H2%om_find_in. apply list_elem_of_lookup in H1 as [j1 H1], H2 as [j2 H2].
  assert (j1 = j2) as ->; [|congruence].
  eapply NoDup_lookup; [exact Hd|by rewrite list_lookup_fmap, H1|by rewrite list_lookup_fmap, H2].
Qed.

Lemma represents_move f ps r m : NoDup ps.*2 → move_ok ps m → represents f ps r →
  represents (move_family f m) ps (move_registry ps r m).
Proof.
  intros Hd Hm Hr. destruct m as [k n|i n|i x]; cbn [move_family move_registry]; [| |exact Hr].
  - intros key. pose proof (Hr k) as Hk. pose proof (Hr key) as Hkey. unfold count, count_in.
    destruct (om_find k ps) as [i|] eqn:Ek; cbn [mbind option_bind] in Hk; [|by rewrite Hk].
    rewrite Hk. unfold counter_add. upd. destruct (decide (key = k)) as [->|Hne].
    + rewrite Ek. cbn [mbind option_bind]. rewrite list_lookup_alter, decide_True by done.
      destruct (rg_counters r !! i) as [v|] eqn:Ev; [|done]. rewrite om_find_set. by rewrite decide_True.
    + transitivity (om_find key f); [destruct (rg_counters r !! i); [|done]; rewrite om_find_set; by rewrite decide_False|].
      rewrite Hkey. destruct (om_find key ps) as [j|] eqn:Ej; [|done]. cbn [mbind option_bind].
      rewrite list_lookup_alter_ne; [done|]. intros ->. apply Hne. by eapply pointers_distinct.
  - intros key. rewrite (Hr key). destruct (om_find key ps) as [j|] eqn:Ej; [|done]. cbn [mbind option_bind].
    unfold counter_add. upd. rewrite list_lookup_alter_ne; [done|]. intros ->. apply Hm.
    apply om_find_in in Ej. by apply (list_elem_of_fmap_2 snd) in Ej.
Qed.

Lemma move_series ps r m : rg_series (move_registry ps r m) = rg_series r.
Proof. destruct m; [|done..]. cbn [move_registry]. unfold count_in. by destruct (om_find key ps). Qed.

Lemma move_counters ps r m : length (rg_counters (move_registry ps r m)) = length (rg_counters r).
Proof.
  destruct m; cbn [move_registry]; [|apply length_alter|done]. unfold count_in. destruct (om_find key ps); [apply length_alter|done].
Qed.
Lemma moves_keep f ps r moves : NoDup ps.*2 → Forall (move_ok ps) moves → represents f ps r →
  represents (foldl move_family f moves) ps (foldl (move_registry ps) r moves) ∧
  rg_series (foldl (move_registry ps) r moves) = rg_series r ∧
  length (rg_counters (foldl (move_registry ps) r moves)) = length (rg_counters r).
Proof.
  intros Hd Hm. revert f r. induction Hm as [|m moves Hm _ IH]; intros f r Hr; [done|]. cbn [foldl].
  destruct (IH (move_family f m) (move_registry ps r m)) as (H1 & H2 & H3); [by apply represents_move|]. split; [done|].
  by rewrite H2, H3, move_series, move_counters.
Qed.

(** Decided once, on the registry as it is registered. *)
Definition family_check (f : Family) (ps : Pointers) (r : Registry W) (lines : list (bytes * bytes * bytes)) : bool :=
  forallb (λ k, bool_decide (om_find k f = (i ← om_find k ps; rg_counters r !! i))) (f.*1 ++ ps.*1) &&
  bool_decide (NoDup ps.*2) &&
  forallb (λ '(k, name, ls), bool_decide (is_Some (om_find k f)) &&
    existsb (λ s, bool_decide (sr_name s = name) && bool_decide (sr_label_text s = ls) && bool_decide (sr_type s = TCounter) &&
      match sr_source s with OwnCounter i => bool_decide (om_find k ps = Some i) | _ => false end) (rg_series r)) lines.

Lemma family_check_exposes f ps r lines : family_check f ps r lines = true → exposes f ps r lines.
Proof.
  unfold family_check. intros [[Hk Hd]%andb_true_iff Hl]%andb_true_iff. apply bool_decide_eq_true in Hd.
  assert (Hr : represents f ps r).
  { intros key. rewrite List.forallb_forall in Hk. destruct (decide (key ∈ f.*1 ++ ps.*1)) as [Hin|Hout].
    - by apply (bool_decide_eq_true (om_find key f = _)), Hk, list_elem_of_In.
    - rewrite elem_of_app in Hout. assert (om_find key f = None) as -> by (apply om_find_None; tauto).
      assert (om_find key ps = None) as -> by (apply om_find_None; tauto). done. }
  intros moves w Hm. cbv zeta. intros key name ls Hin. rewrite List.forallb_forall in Hl.
  apply list_elem_of_In, Hl in Hin. apply andb_true_iff in Hin as [Hsome Hs]. apply List.existsb_exists in Hs as (s & Hs & Hc).
  apply list_elem_of_In in Hs. bool_to_prop.
  destruct (moves_keep f ps r moves Hd Hm Hr) as (Hr' & Es & En). revert Hr' Es En.
  generalize (foldl move_family f moves) (foldl (move_registry ps) r moves). intros f' r' Hr' Es En.
  destruct (sr_source s) as [i| | | |] eqn:Esrc; try done. bool_to_prop. 
  match goal with E : om_find key ps = Some i |- _ => rename E into Ei end.
  rewrite (Hr key), Ei in Hsome. cbn [mbind option_bind] in Hsome. destruct Hsome as [v Hv].
  assert (is_Some (rg_counters r' !! i)) as [n Hn] by (apply lookup_lt_is_Some; rewrite En; by eapply lookup_lt_Some).
  exists s, n. rewrite Es. split; [done|]. split; [done|]. split; [done|]. split; [by rewrite (Hr' key), Ei|].
  unfold series_lines. rewrite bool_decide_false by congruence. cbn [negb]. rewrite Esrc, Hn. cbn. congruence.
Qed.
End family.

(** The lines a node's and a tracker's families are rendered on. *)
Definition error_lines (types : list bytes) : list (bytes * bytes * bytes) :=
  (λ t, (t, lit "chordfs_request_errors_total", labels [(lit "type", t)])) <$> types.
Definition request_lines (name : bytes) (verbs results : list bytes) : list (bytes * bytes * bytes) :=
  v ← verbs; r ← results; [(v ++ lit "/" ++ r, name, labels [(lit "verb", v); (lit "result", r)])].

Lemma registered_families {W A} (m : Reg W A) (check : Registry W → A → bool) :
  match m empty_registry with (r, inr a) => check r a | _ => false end = true →
  ∃ r a, m empty_registry = (r, inr a) ∧ check r a = true.
Proof. destruct (m empty_registry) as [r [e|a]]; [done|]. intros H. by exists r, a. Qed.

(** C37. What a scrape shows of requests and errors is what the node and the tracker counted: from registration on,
    whatever else is counted and observed in between, each verb and result and each kind of error has a series with its
    name and labels, and the series renders the number of times the family was counted there. *)
Theorem families_are_exposed (S : Type) (started : double) :
  (∃ r ni, NodeMetrics.register_metrics started empty_registry = (r, inr ni) ∧
    exposes no_requests (ni_chunk_requests ni) r (request_lines (lit "chordfs_chunk_requests_total") CHUNK_VERBS CHUNK_RESULTS) ∧
    exposes no_errors (ni_errors ni) r (error_lines ERROR_TYPES)) ∧
  (∃ r ti, TrackerMetrics.register_metrics (S := S) started empty_registry = (r, inr ti) ∧
    exposes (family (v ← VERBS; r ← RESULTS; [v ++ lit "/" ++ r])) (ti_requests ti) r (request_lines (lit "chordfs_tracker_requests_total") VERBS RESULTS) ∧
    exposes (family TRACKER_ERRORS) (ti_errors ti) r (error_lines TRACKER_ERRORS)).
Proof.
  split.
  - destruct (registered_families (NodeMetrics.register_metrics started) (λ r ni,
      family_check no_requests (ni_chunk_requests ni) r (request_lines (lit "chordfs_chunk_requests_total") CHUNK_VERBS CHUNK_RESULTS) &&
      family_check no_errors (ni_errors ni) r (error_lines ERROR_TYPES))) as (r & ni & E & [H1 H2]%andb_true_iff); [vm_compute; reflexivity|].
    exists r, ni. split; [done|]. by split; apply family_check_exposes.
  - destruct (registered_families (TrackerMetrics.register_metrics (S := S) started) (λ r ti,
      family_check (family (v ← VERBS; r ← RESULTS; [v ++ lit "/" ++ r])) (ti_requests ti) r (request_lines (lit "chordfs_tracker_requests_total") VERBS RESULTS) &&
      family_check (family TRACKER_ERRORS) (ti_errors ti) r (error_lines TRACKER_ERRORS))) as (r & ti & E & [H1 H2]%andb_true_iff); [vm_compute; reflexivity|].
    exists r, ti. split; [done|]. by split; apply family_check_exposes.
Qed.

(** ** The timed storage *)

(** Timing a storage changes nothing it promises: the replica's theorems hold over it. *)
#[export, refine] Instance TimedStorage_ok {S} `{StorageOk S} : StorageOk (TimedStorage S) := {| held := λ t, held (ts_inner t) |}.
Proof.
  - intros st st' t vote from l Hc. unfold save, TimedStorage_save.
    destruct (save (ts_inner st) t vote from l) as [ok inner] eqn:E. intros [= -> <-]. cbn [ts_inner]. by eapply save_ok.
  - intros st st' t vote from l Hc. unfold save, TimedStorage_save.
    destruct (save (ts_inner st) t vote from l) as [ok inner] eqn:E. intros [= -> <-]. cbn [ts_inner]. by eapply save_failed.
Defined.
