(* ===== verification/Tracker.v ===== *)
(** * Tracker: a group of replicas serving clients

    The replicas of Replica.v as processes that exchange lines of text: tickers,
    senders, request threads and clients that run in any order, calls and replies
    that are lost, delayed or delivered again, processes that crash, restart or
    are stopped, and disks that fail. Every step is simulated by steps of the
    world of RaftCluster.v, so what RaftSafety.v proves of the core holds of the
    tracker, and the names it serves are those of one agreed log. *)
From S2P Require Import Prelude Text Net Chord OrdMap Store Names Group.
From S2P Require Import Raft RaftSpec RaftCluster RaftSafety RaftWire RaftOutputs Replica.

Inductive TProcess (S : Type) := TUp (p : Replica S) | TDown (st : S).
Arguments TUp {S}. Arguments TDown {S}.

(** A call on the network and what came back from one, with what was sent. *)
Record Flight := mkFlight { fl_from : nat; fl_to : nat; fl_sent : Outgoing; fl_line : bytes; fl_body : bytes }.
Record Return := mkReturn { rt_from : nat; rt_to : nat; rt_sent : Outgoing; rt_reply : bytes }.

(** A client's request waiting at a replica, and the answers given. *)
Record Thread := mkThread { th_at : nat; th_line : bytes; th_wait : Outcome }.
Record Served := mkServed { sv_at : nat; sv_line : bytes; sv_reply : bytes }.

Record Tracker (S : Type) := mkTracker {
  tk_procs : nat → TProcess S;
  tk_calls : list Flight;
  tk_returns : list Return;
  tk_threads : list Thread;
  tk_served : list Served;
}.
Arguments mkTracker {S}. Arguments tk_procs {S}. Arguments tk_calls {S}. Arguments tk_returns {S}.
Arguments tk_threads {S}. Arguments tk_served {S}.
#[export] Instance Tracker_eta {S} : Eta (Tracker S) := λ T,
  mkTracker (tk_procs T) (tk_calls T) (tk_returns T) (tk_threads T) (tk_served T).

(** Lines of clients: whatever is not one of the replicas' own calls. *)
Definition client_line (line : bytes) : Prop :=
  head (split_single_spaces line) ≠ Some (lit "VOTE") ∧ head (split_single_spaces line) ≠ Some (lit "APPEND").

Section tracker.
Context {SH : Sha1} {SHok : Sha1Ok SH} {S : Type} `{StorageOk S} (group : list Address) (election : Millis).
Implicit Types (T : Tracker S) (p : Replica S).

Abbreviation size := (length group).
Definition replica_conf (v : nat) : ReplicaConfig := mkReplicaConfig group v election.
#[export, refine] Instance tracker_group : GroupConfig size := {| conf v := raft_config (replica_conf v) |}.
Proof. - done. - done. Defined.

Definition set_proc T (v : nat) (x : TProcess S) : Tracker S :=
  T <| tk_procs := λ u, if decide (u = v) then x else tk_procs T u |>.

(** A client's request has been taken up: it is answered, or it waits. *)
Definition client_next T (v : nat) (line : bytes) (o : Outcome) : Tracker S :=
  match o with
  | Reply reply => T <| tk_served := mkServed v line reply :: tk_served T |>
  | Exits => T
  | _ => T <| tk_threads := mkThread v line o :: tk_threads T |>
  end.

(** The end of a wait. *)
Definition end_wait p (o : Outcome) (late : bool) : option bytes * Replica S :=
  match o with
  | WaitWrite w => end_write p w late
  | WaitRead id w r => end_read p id w r late
  | _ => (None, p)
  end.

(** One event. [now] is any time: no clock is trusted. *)
Inductive tstep T : Tracker S → Prop :=
| t_tick v p now :
    v < size → tk_procs T v = TUp p → (term (rp_raft p) + 1 < W64N)%N →
    tstep T (set_proc T v (TUp (ticker p now)))
| t_send v peer p sent line body p' :
    v < size → tk_procs T v = TUp p → take_call p peer = Some (sent, (line, body), p') →
    tstep T ((set_proc T v (TUp p')) <| tk_calls := mkFlight v peer sent line body :: tk_calls T |>)
| t_call f p now o p' :
    f ∈ tk_calls T → fl_to f < size → tk_procs T (fl_to f) = TUp p → handle p (fl_line f) (fl_body f) now = (o, p') →
    tstep T ((set_proc T (fl_to f) (TUp p'))
               <| tk_returns := match o with
                                | Reply reply => mkReturn (fl_to f) (fl_from f) (fl_sent f) reply :: tk_returns T
                                | _ => tk_returns T
                                end |>)
| t_return r p now :
    r ∈ tk_returns T → rt_to r < size → tk_procs T (rt_to r) = TUp p →
    tstep T (set_proc T (rt_to r) (TUp (take_reply p (rt_from r) (rt_sent r) Ok (rt_reply r) now)))
| t_lost v peer sent d reply p now :
    v < size → tk_procs T v = TUp p → d ≠ Ok →
    tstep T (set_proc T v (TUp (take_reply p peer sent d reply now)))
| t_client v line body p now o p' :
    v < size → tk_procs T v = TUp p → client_line line → handle p line body now = (o, p') →
    tstep T (client_next (set_proc T v (TUp p')) v line o)
| t_wake th late p reply p' before after :
    tk_threads T = before ++ th :: after → th_at th < size → tk_procs T (th_at th) = TUp p →
    end_wait p (th_wait th) late = (Some reply, p') →
    tstep T ((set_proc T (th_at th) (TUp p')) <| tk_threads := before ++ after |>
               <| tk_served := mkServed (th_at th) (th_line th) reply :: tk_served T |>)
| t_stop v p :
    v < size → tk_procs T v = TUp p → tstep T (set_proc T v (TUp (stop p)))
| t_crash v p :
    (* a crash, a kill or [on_fatal]: the process's request threads end with it *)
    v < size → tk_procs T v = TUp p →
    tstep T ((set_proc T v (TDown (storage (rp_raft p)))) <| tk_threads := filter (λ th, th_at th ≠ v) (tk_threads T) |>)
| t_start v st rs now :
    v < size → tk_procs T v = TDown st → (d_term (held st) + 1 < W64N)%N →
    tstep T (set_proc T v (TUp (replica_init (replica_conf v) st (held st) rs now)))
| t_disk v p st :
    v < size → tk_procs T v = TUp p → held st = held (storage (rp_raft p)) →
    tstep T (set_proc T v (TUp (p <| rp_raft := (rp_raft p) <| storage := st |> |>))).

(** Every process down, on an empty disk, and nothing asked yet. *)
Definition tinit T : Prop :=
  (∀ v, ∃ st, tk_procs T v = TDown st ∧ held st = mkDurable 0 None []) ∧
  tk_calls T = [] ∧ tk_returns T = [] ∧ tk_threads T = [] ∧ tk_served T = [].

Definition treach T : Prop := ∃ T0, tinit T0 ∧ rtc tstep T0 T.

(** ** What a replica's state means in the world of its cores *)

Implicit Types W : World S.

(** The entry every replica that applied index [i] was handed. *)
Definition agreed W (i : Index) (e : Entry) : Prop := ∃ u, (u, i, e) ∈ handed W.
Definition agreed_log W (es : list Entry) : Prop := ∀ j e, es !! j = Some e → agreed W (j + 1) e.

Definition commands (es : list Entry) : list bytes := e_command <$> es.

(** An entry of term [t] applied at index [i], now or later, is command [c]. *)
Definition promised W (t : Term) (i : Index) (c : bytes) : Prop :=
  ∀ W' e, rtc (wstep size) W W' → agreed W' i e → e_term e = t → e_command e = c.

(** Command [c] was applied at index [i], with answer [r]. *)
Definition settled W (i : Index) (c r : bytes) : Prop :=
  ∃ es e, agreed_log W es ∧ i = length es + 1 ∧ agreed W i e ∧ e_command e = c ∧
    r = (apply_command (apply_all [] (commands es)) c).1.

Record replica_ok W (v : nat) p : Prop := {
  ro_cfg : rp_cfg p = replica_conf v;
  ro_print : rp_fingerprint p = group_fingerprint (address_text <$> group);
  ro_ns : ∃ es, agreed_log W es ∧ length es = applied (rp_raft p) ∧ rp_ns p = apply_all [] (commands es);
  ro_slots : ∀ peer o, rp_slots p !! peer = Some (Some o) → MCall v o ∈ net W ∧ out_to o = peer;
  ro_writes : ∀ i w, (i, w) ∈ rp_writes p → ∃ x, rp_writers p !! w = Some x ∧ ww_done x = false;
  ro_nodup : NoDup (rp_writes p).*2;
}.

(** A write's waiter: in the map at its own index only, then told what happened. *)
Definition writer_ok W p (w : nat) (c : bytes) : Prop :=
  ∃ x i, rp_writers p !! w = Some x ∧ promised W (ww_term x) i c ∧
    (ww_done x = false ∧ (∀ i', (i', w) ∈ rp_writes p → i' = i) ∨
     ww_done x = true ∧ (ww_result x = REPLACED ∨ settled W i c (ww_result x))).

(** ** Growth of the world *)

Record later W W' : Prop := {
  lt_run : rtc (wstep size) W W';
  lt_net : net W ⊆ net W';
  lt_handed : handed W ⊆ handed W';
}.

#[export] Instance later_preorder : PreOrder later.
Proof.
  split; [by split; [apply rtc_refl|..]|]. intros W1 W2 W3 [A1 A2 A3] [B1 B2 B3].
  split; [by eapply rtc_trans|set_solver..].
Qed.

Lemma agreed_later W W' i e : later W W' → agreed W i e → agreed W' i e.
Proof. intros L [u Hu]. exists u. by apply (lt_handed _ _ L). Qed.
Lemma agreed_log_later W W' es : later W W' → agreed_log W es → agreed_log W' es.
Proof. intros L Ha j e Hj. by eapply agreed_later, Ha. Qed.
Lemma promised_later W W' t i c : later W W' → promised W t i c → promised W' t i c.
Proof. intros L Hp W2 e Hrun. apply Hp. eapply rtc_trans; [apply (lt_run _ _ L)|done]. Qed.
Lemma settled_later W W' i c r : later W W' → settled W i c r → settled W' i c r.
Proof.
  intros L (es & e & Ha & Hi & He & Hc & Hr). exists es, e. split_and!; eauto using agreed_log_later, agreed_later.
Qed.
Lemma writer_later W W' p w c : later W W' → writer_ok W p w c → writer_ok W' p w c.
Proof.
  intros L (x & i & Hx & Hp & Hd). exists x, i. split_and!; [done|by eapply promised_later|].
  destruct Hd as [?|(? & [?|?])]; [by left|right; by split; [|left]|right; split; [done|]]. right. by eapply settled_later.
Qed.
Lemma replica_later W W' v p : later W W' → replica_ok W v p → replica_ok W' v p.
Proof.
  intros L [H1 H2 (es & H3 & H4 & H5) H6 H7 H8]. split; [done|done| | |done|done].
  - exists es. split_and!; [by eapply agreed_log_later|done|done].
  - intros peer o Ho. destruct (H6 peer o Ho). split; [by apply (lt_net _ _ L)|done].
Qed.

(** ** The state machine's side of one input *)

Lemma on_apply_frame p x : rp_cfg (on_apply p x) = rp_cfg p ∧ rp_fingerprint (on_apply p x) = rp_fingerprint p ∧
  rp_slots (on_apply p x) = rp_slots p ∧ rp_raft (on_apply p x) = rp_raft p ∧
  rp_ns (on_apply p x) = (apply_command (rp_ns p) (e_command x.2)).2.
Proof. destruct x as [i e]. unfold on_apply. cbn [snd]. by destruct (apply_command _ _). Qed.

(** The waiters after a completion: those in [range] are told, the others are as they were. *)
Lemma alter_range result t (range : list (Index * nat)) (ws : list WriteWaiter) w :
  foldl (λ ws y, alter (complete_write result t) y.2 ws) ws range !! w =
  (if bool_decide (w ∈ range.*2) then complete_write result t <$> ws !! w else ws !! w).
Proof.
  revert ws. induction range as [|[i w'] range IH]; intros ws; [done|]. cbn [foldl fmap list_fmap snd fst].
  rewrite IH. destruct (decide (w' = w)) as [->|Hne].
  - rewrite list_lookup_alter_eq. rewrite (bool_decide_true (w ∈ w :: _)) by constructor.
    case_bool_decide; [|done]. destruct (ws !! w) as [x|]; [|done]. done.
  - rewrite list_lookup_alter_ne by done.
    rewrite (bool_decide_ext (w ∈ range.*2) (w ∈ w' :: range.*2)); [done|]. rewrite elem_of_cons. naive_solver.
Qed.

Lemma apply_all_snoc ns cs c : apply_all ns (cs ++ [c]) = (apply_command (apply_all ns cs) c).2.
Proof. unfold apply_all. by rewrite foldl_snoc. Qed.

Lemma nodup_snd {A B} (l : list (A * B)) a a' b : NoDup l.*2 → (a, b) ∈ l → (a', b) ∈ l → a = a'.
Proof.
  intros Hd Ha Ha'. apply list_elem_of_lookup in Ha as (i & Hi), Ha' as (j & Hj).
  assert (i = j) as <-; [|congruence]. eapply NoDup_lookup; [exact Hd|..]; by rewrite list_lookup_fmap, ?Hi, ?Hj.
Qed.

Lemma nodup_filter_snd {A B} (P : A * B → Prop) `{∀ x, Decision (P x)} (l : list (A * B)) :
  NoDup l.*2 → NoDup (filter P l).*2.
Proof.
  intros Hd. eapply sublist_NoDup; [exact Hd|]. apply fmap_sublist, sublist_filter.
Qed.

(** One entry applied, after the entries [es]. *)
Lemma on_apply_writers W p es e : agreed_log W (es ++ [e]) → rp_ns p = apply_all [] (commands es) →
  (∀ i w, (i, w) ∈ rp_writes p → ∃ x, rp_writers p !! w = Some x ∧ ww_done x = false) → NoDup (rp_writes p).*2 →
  let p' := on_apply p (length es + 1, e) in
  (∀ i w, (i, w) ∈ rp_writes p' → ∃ x, rp_writers p' !! w = Some x ∧ ww_done x = false) ∧ NoDup (rp_writes p').*2 ∧
  ∀ w c, writer_ok W p w c → writer_ok W p' w c.
Proof.
  intros Ha Hns Hw Hd. unfold on_apply. rewrite Hns.
  destruct (apply_command (apply_all [] (commands es)) (e_command e)) as [result ns] eqn:Eapply. cbv zeta.
  set (k := length es + 1). set (range := filter (λ y, y.1 = k) (rp_writes p)).
  assert (Hr : ∀ i w, (i, w) ∈ rp_writes p → w ∈ range.*2 ↔ i = k).
  { intros i w Hin. unfold range. rewrite list_elem_of_fmap. split.
    - intros ([i' w'] & E & Hin'). cbn in E. subst w'. apply list_elem_of_filter in Hin' as [Ei Hin']. cbn in Ei. subst i'.
      by eapply nodup_snd.
    - intros ->. exists (k, w). split; [done|]. by apply list_elem_of_filter. }
  split_and!; upd.
  - intros i w Hin. apply list_elem_of_filter in Hin as [Hne Hin]. cbn in Hne. rewrite alter_range.
    rewrite bool_decide_false; [by apply Hw in Hin|]. rewrite (Hr i w Hin). done.
  - by apply nodup_filter_snd.
  - intros w c (x & i & Hx & Hp & Hdone). unfold writer_ok. upd. rewrite alter_range.
    assert (He : agreed W k e) by (apply (Ha (length es)); by rewrite lookup_app_r, Nat.sub_diag by done).
    destruct Hdone as [[Hnd Hin]|[Hdn Hres]].
    + case_bool_decide as Hw0.
      * assert (Hk : (k, w) ∈ rp_writes p).
        { unfold range in Hw0. apply list_elem_of_fmap in Hw0 as ([k' w'] & E & Hk). cbn in E. subst w'.
          apply list_elem_of_filter in Hk as [Ek Hk]. cbn in Ek. by subst k'. }
        pose proof (Hin k Hk) as <-. rewrite Hx. cbn [fmap option_fmap option_map].
        exists (complete_write result (e_term e) x), k. split_and!; [done|done|]. right. split; [done|].
        unfold complete_write. cbn [ww_result]. destruct (N.eqb_spec (ww_term x) (e_term e)) as [Et|]; [right|by left].
        assert (Ec : e_command e = c) by (apply (Hp W e); [apply rtc_refl|done|done]).
        exists es, e. split_and!; [|done|done|done|by rewrite <- Ec, Eapply].
        intros j e' Hj. apply Ha. by apply lookup_app_l_Some.
      * exists x, i. split_and!; [done|done|]. left. split; [done|].
        intros i' Hi. apply list_elem_of_filter in Hi as [_ Hi]. by apply Hin.
    + exists x, i. rewrite bool_decide_false; [by split_and!; [..|right]|].
      intros Hin. apply list_elem_of_fmap in Hin as ([i' w'] & E & Hin). cbn in E. subst w'.
      apply list_elem_of_filter in Hin as [_ Hin]. destruct (Hw i' w Hin) as (x' & Hx' & Hnd). congruence.
Qed.

(** All the entries of one input. *)
Lemma apply_entries W es' : ∀ p es, agreed_log W (es ++ es') → rp_ns p = apply_all [] (commands es) →
  (∀ i w, (i, w) ∈ rp_writes p → ∃ x, rp_writers p !! w = Some x ∧ ww_done x = false) → NoDup (rp_writes p).*2 →
  let p' := foldl on_apply p (numbered (length es + 1) es') in
  (∀ i w, (i, w) ∈ rp_writes p' → ∃ x, rp_writers p' !! w = Some x ∧ ww_done x = false) ∧ NoDup (rp_writes p').*2 ∧
  (∀ w c, writer_ok W p w c → writer_ok W p' w c) ∧
  rp_cfg p' = rp_cfg p ∧ rp_fingerprint p' = rp_fingerprint p ∧ rp_slots p' = rp_slots p ∧ rp_raft p' = rp_raft p ∧
  rp_ns p' = apply_all [] (commands (es ++ es')).
Proof.
  induction es' as [|e es' IH]; intros p es Ha Hns Hw Hd; cbv zeta.
  { cbn. rewrite app_nil_r. done. }
  unfold numbered. cbn [length seq zip_with foldl]. set (p1 := on_apply p (length es + 1, e)).
  assert (Ha1 : agreed_log W (es ++ [e])).
  { intros j x Hj. apply Ha. rewrite (cons_middle e), app_assoc. by apply lookup_app_l_Some. }
  destruct (on_apply_writers W p es e Ha1 Hns Hw Hd) as (Hw1 & Hd1 & Hk1). fold p1 in Hw1, Hd1, Hk1.
  destruct (on_apply_frame p (length es + 1, e)) as (F1 & F2 & F3 & F4 & F5). fold p1 in F1, F2, F3, F4, F5.
  destruct (IH p1 (es ++ [e])) as (G1 & G2 & G3 & G4 & G5 & G6 & G7 & G8); [|..].
  - by rewrite <- app_assoc.
  - rewrite F5, Hns. unfold commands. rewrite fmap_app. cbn [fmap list_fmap snd]. by rewrite apply_all_snoc.
  - done.
  - done.
  - rewrite length_app in G1, G2, G3, G4, G5, G6, G7, G8. cbn [length] in *.
    replace (length es + 1 + 1) with (Datatypes.S (length es + 1)) in * by lia. unfold numbered in *.
    split_and!; [done|done|auto|congruence..|]. rewrite G8. by rewrite <- app_assoc.
Qed.

(** ** One input of the core, in the world and in the replica *)

(** The core of replica [v] has done an input: its calls, replies and entries are
    in the world, and its read results have been taken. *)
Definition cleared (s : Raft S) : Raft S := s <| applied_out := [] |> <| out := [] |> <| read_results := [] |>.

Definition reached_by W (v : nat) (s : Raft S) (replies : list Msg) (W' : World S) : Prop :=
  later W W' ∧ procs W' v = Up (cleared s) ∧ (∀ u, u ≠ v → procs W' u = procs W u) ∧
  (∀ o, o ∈ out s → MCall v o ∈ net W') ∧ (∀ m, m ∈ replies → m ∈ net W') ∧
  (∀ i e, (i, e) ∈ applied_out s → (v, i, e) ∈ handed W').

Lemma settle_later W v s replies : wstep size W (settle W v s replies) → later W (settle W v s replies).
Proof.
  intros Hs. split; [by apply rtc_once|..]; unfold settle; cbn [net handed]; set_solver.
Qed.

Lemma input_reaches W v s replies : v < size → wstep size W (settle W v s replies) →
  ∃ W', reached_by W v s replies W'.
Proof.
  intros Hv Hs. set (W1 := settle W v s replies) in *. set (s1 := s <| out := [] |> <| applied_out := [] |>).
  assert (Hp : procs W1 v = Up s1) by (unfold W1, settle; cbn; by rewrite decide_True).
  set (W2 := settle W1 v (take_reads s1).2 []).
  assert (Hs2 : wstep size W1 W2) by (by apply w_take_reads).
  assert (L1 : later W W1) by (by apply settle_later). assert (L2 : later W1 W2) by (by apply settle_later).
  exists W2. split_and!.
  - by etrans.
  - unfold W2, settle. cbn [procs]. by rewrite decide_True by done.
  - intros u Hu. unfold W2, W1, settle. cbn [procs]. by rewrite !decide_False by done.
  - intros o Ho. apply (lt_net _ _ L2). unfold W1, settle. cbn [net]. apply elem_of_app. right. apply elem_of_app. left.
    by apply list_elem_of_fmap_2.
  - intros m Hm. apply (lt_net _ _ L2). unfold W1, settle. cbn [net]. rewrite !elem_of_app. by right; right.
  - intros i e Hi. apply (lt_handed _ _ L2). unfold W1, settle. cbn [handed]. apply elem_of_app. right.
    apply list_elem_of_fmap. by exists (i, e).
Qed.

Lemma numbered_elem from es j e : es !! j = Some e → (from + j, e) ∈ numbered from es.
Proof.
  intros Hj. apply (list_elem_of_lookup_2 _ j). unfold numbered. apply lookup_zip_with_Some. exists (from + j), e.
  split_and!; [done| |done]. apply lookup_seq. split; [done|by eapply lookup_lt_Some].
Qed.

(** [p'] is [p] but for its core and what [dispatch] moves. *)
Record keeps_names p p' : Prop := {
  kn_cfg : rp_cfg p' = rp_cfg p; kn_print : rp_fingerprint p' = rp_fingerprint p; kn_ns : rp_ns p' = rp_ns p;
  kn_writes : rp_writes p' = rp_writes p; kn_writers : rp_writers p' = rp_writers p;
}.

Lemma resolve_reads_keeps p rs : keeps_names p (foldl resolve_read_waiter p rs) ∧
  rp_raft (foldl resolve_read_waiter p rs) = rp_raft p ∧ rp_slots (foldl resolve_read_waiter p rs) = rp_slots p.
Proof.
  revert p. induction rs as [|r rs IH]; intros p; [done|]. cbn [foldl].
  destruct (IH (resolve_read_waiter p r)) as ([I1 I2 I3 I4 I5] & I6 & I7).
  assert (H1 : keeps_names p (resolve_read_waiter p r) ∧ rp_raft (resolve_read_waiter p r) = rp_raft p ∧
    rp_slots (resolve_read_waiter p r) = rp_slots p) by (unfold resolve_read_waiter; by case_match).
  destruct H1 as ([J1 J2 J3 J4 J5] & J6 & J7). split_and!; [split|..]; congruence.
Qed.

Lemma notes_keep p : keeps_names p (note_leader (note_role p)) ∧
  rp_raft (note_leader (note_role p)) = rp_raft p ∧ rp_slots (note_leader (note_role p)) = rp_slots p.
Proof. unfold note_leader, note_role. cbv zeta. repeat case_match; by split_and!. Qed.

Lemma dispatch_keeps p : keeps_names p (dispatch p) ∧
  rp_raft (dispatch p) = (rp_raft p) <| out := [] |> <| read_results := [] |> ∧
  rp_slots (dispatch p) = foldl (λ slots o, <[out_to o := Some o]> slots) (rp_slots p) (out (rp_raft p)).
Proof.
  unfold dispatch. cbn [take_outgoing take_reads]. cbv zeta. set (p1 := _ <| rp_slots := _ |>).
  destruct (resolve_reads_keeps p1 (read_results ((rp_raft p) <| out := [] |>))) as ([I1 I2 I3 I4 I5] & I6 & I7).
  set (p2 := foldl _ p1 _) in *. set (p3 := if stopped _ then _ else p2).
  assert (H3 : keeps_names p2 p3 ∧ rp_raft p3 = rp_raft p2 ∧ rp_slots p3 = rp_slots p2) by (unfold p3; by case_match).
  destruct H3 as ([J1 J2 J3 J4 J5] & J6 & J7). destruct (notes_keep p3) as ([K1 K2 K3 K4 K5] & K6 & K7).
  split_and!; [split; rewrite ?K1, ?K2, ?K3, ?K4, ?K5, ?J1, ?J2, ?J3, ?J4, ?J5; assumption|..].
  - by rewrite K6, J6, I6.
  - by rewrite K7, J7, I7.
Qed.

Lemma slots_filled (slots : list (option Outgoing)) os peer o :
  foldl (λ slots o, <[out_to o := Some o]> slots) slots os !! peer = Some (Some o) →
  slots !! peer = Some (Some o) ∨ o ∈ os ∧ out_to o = peer.
Proof.
  revert slots. induction os as [|o' os IH]; intros slots; [by left|]. cbn [foldl]. intros E.
  apply IH in E as [E|[? ?]]; [|right; split; [by right|done]]. destruct (decide (out_to o' = peer)) as [<-|Hne].
  - apply list_lookup_insert_Some in E as [(_ & [= ->] & _)|[? _]]; [right; by split; [left|]|done].
  - rewrite list_lookup_insert_ne in E by done. by left.
Qed.

Lemma core_ok W W' v p s es : replica_ok W v p → applied_out (rp_raft p) = [] → outputs (rp_raft p) s es →
  later W W' → (∀ i e, (i, e) ∈ applied_out s → (v, i, e) ∈ handed W') →
  replica_ok W' v (core p s) ∧ rp_raft (core p s) = s <| applied_out := [] |> ∧
  ∀ w c, writer_ok W' p w c → writer_ok W' (core p s) w c.
Proof.
  intros HR Ho [Hout Happ] L Hh. destruct (replica_later W W' v p L HR) as [R1 R2 (es0 & R3 & R4 & R5) R6 R7 R8].
  rewrite Ho in Hout. cbn [app] in Hout. unfold core. set (p1 := p <| rp_raft := _ |>). rewrite Hout.
  assert (Ha : agreed_log W' (es0 ++ es)).
  { intros j e Hj. apply lookup_app_Some in Hj as [Hj|[Hge Hj]]; [by apply R3|]. exists v. apply Hh. rewrite Hout.
    replace (j + 1) with (applied (rp_raft p) + 1 + (j - length es0)) by lia. by apply numbered_elem. }
  rewrite <- R4. destruct (apply_entries W' es p1 es0 Ha R5 R7 R8) as (G1 & G2 & G3 & G4 & G5 & G6 & G7 & G8).
  set (p' := foldl on_apply p1 _) in *. split_and!.
  - split; [rewrite G4; exact R1|rewrite G5; exact R2| | |done|done].
    + exists (es0 ++ es). split_and!; [done| |done]. rewrite G7. unfold p1. upd. rewrite length_app. lia.
    + intros peer o Hs. rewrite G6 in Hs. by apply R6.
  - by rewrite G7.
  - intros w c Hw. by apply G3.
Qed.

Lemma dispatch_ok W v p : replica_ok W v p → (∀ o, o ∈ out (rp_raft p) → MCall v o ∈ net W) →
  replica_ok W v (dispatch p) ∧ ∀ w c, writer_ok W p w c → writer_ok W (dispatch p) w c.
Proof.
  intros [R1 R2 (es & R3 & R4 & R5) R6 R7 R8] Ho. destruct (dispatch_keeps p) as ([K1 K2 K3 K4 K5] & K6 & K7). split.
  - split; rewrite ?K1, ?K2, ?K3, ?K4, ?K5; [done|done| | |done|done].
    + exists es. rewrite K6. upd. done.
    + rewrite K7. intros peer o Hs. apply slots_filled in Hs as [Hs|[Hin Et]]; [by apply R6|]. split; [by apply Ho|done].
  - intros w c. unfold writer_ok. by rewrite K4, K5.
Qed.

Lemma after_core_ok W W' v p s es replies : replica_ok W v p → applied_out (rp_raft p) = [] →
  outputs (rp_raft p) s es → reached_by W v s replies W' →
  replica_ok W' v (after_core p s) ∧ rp_raft (after_core p s) = cleared s ∧
  ∀ w c, writer_ok W' p w c → writer_ok W' (after_core p s) w c.
Proof.
  intros HR Ha Hout (L & _ & _ & Hcalls & _ & Hh).
  destruct (core_ok W W' v p s es HR Ha Hout L Hh) as (HR1 & E1 & Hw1).
  destruct (dispatch_ok W' v (core p s) HR1) as [HR2 Hw2].
  { intros o Ho. rewrite E1 in Ho. upd. by apply Hcalls. }
  split_and!; [done| |auto]. unfold after_core. destruct (dispatch_keeps (core p s)) as (_ & -> & _). by rewrite E1.
Qed.

(** ** The simulation *)

Definition flight_ok W (f : Flight) : Prop :=
  MCall (fl_from f) (fl_sent f) ∈ net W ∧ out_to (fl_sent f) = fl_to f ∧
  (fl_line f, fl_body f) =
    match fl_sent f with
    | OutVote _ r => (encode_vote (group_fingerprint (address_text <$> group)) r, [])
    | OutAppend _ r => encode_append (group_fingerprint (address_text <$> group)) r
    end.

Definition return_ok W (r : Return) : Prop :=
  match rt_sent r with
  | OutVote _ req => ∀ vr, parse_vote_reply (rt_reply r) = Some vr → MVoteReply (rt_from r) (rt_to r) req vr ∈ net W
  | OutAppend _ req => ∀ ar, parse_append_reply (rt_reply r) = Some ar → MAppendReply (rt_from r) (rt_to r) req ar ∈ net W
  end.

Definition thread_ok W T (th : Thread) : Prop :=
  th_at th < size ∧ ∃ p, tk_procs T (th_at th) = TUp p ∧
  match th_wait th with
  | WaitWrite w => ∃ c, write_command (th_line th) = Some c ∧ writer_ok W p w c
  | WaitRead _ _ _ => write_command (th_line th) = None
  | _ => False
  end.

Definition served_ok W (a : Served) : Prop :=
  ∀ c, write_command (sv_line a) = Some c → is_answer (sv_reply a) → ∃ i, settled W i c (sv_reply a).

Record tracks T W : Prop := {
  tr_reach : wreach size W;
  tr_down v st : v < size → tk_procs T v = TDown st → procs W v = Down st;
  tr_up v p : v < size → tk_procs T v = TUp p →
    procs W v = Up (rp_raft p) ∧ applied_out (rp_raft p) = [] ∧ replica_ok W v p;
  tr_calls f : f ∈ tk_calls T → flight_ok W f;
  tr_returns r : r ∈ tk_returns T → return_ok W r;
  tr_threads th : th ∈ tk_threads T → thread_ok W T th;
  tr_served a : a ∈ tk_served T → served_ok W a;
}.

Lemma later_reach W W' : wreach size W → later W W' → wreach size W'.
Proof. intros (W0 & HW & Hr) L. exists W0. split; [done|]. eapply rtc_trans; [done|apply (lt_run _ _ L)]. Qed.

Lemma flight_later W W' f : later W W' → flight_ok W f → flight_ok W' f.
Proof. intros L (H1 & H2 & H3). split_and!; [by apply (lt_net _ _ L)|done|done]. Qed.
Lemma return_later W W' r : later W W' → return_ok W r → return_ok W' r.
Proof. intros L. unfold return_ok. destruct (rt_sent r); intros Hr x Hx; apply (lt_net _ _ L), Hr, Hx. Qed.
Lemma served_later W W' a : later W W' → served_ok W a → served_ok W' a.
Proof. intros L Ha c Hc Hr. destruct (Ha c Hc Hr) as [i Hi]. exists i. by eapply settled_later. Qed.

(** The replica at [v] has moved from [p] to [p'], the world to [W']. *)
Record moved W (v : nat) p p' W' : Prop := {
  mv_later : later W W';
  mv_raft : procs W' v = Up (rp_raft p') ∧ applied_out (rp_raft p') = [];
  mv_rest u : u ≠ v → procs W' u = procs W u;
  mv_ok : replica_ok W' v p';
  mv_writers w c : writer_ok W p w c → writer_ok W' p' w c;
}.

Lemma moved_tracks T W v p p' W' : tracks T W → v < size → tk_procs T v = TUp p → moved W v p p' W' →
  tracks (set_proc T v (TUp p')) W'.
Proof.
  intros [H1 H2 H3 H4 H5 H6 H7] Hv Hp [L [Mr Ma] Mrest Mok Mw].
  assert (Hset : ∀ u, tk_procs (set_proc T v (TUp p')) u = if decide (u = v) then TUp p' else tk_procs T u) by done.
  split.
  - by eapply later_reach.
  - intros u st Hu. rewrite Hset. case_decide as Hd; [done|]. intros E. rewrite Mrest by done. by apply H2.
  - intros u q Hu. rewrite Hset. case_decide as Hd; [by intros [= <-]; subst|]. intros E. rewrite Mrest by done.
    destruct (H3 u q Hu E) as (? & ? & ?). split_and!; [done|done|by eapply replica_later].
  - intros f Hf. by eapply flight_later, H4.
  - intros r Hr. by eapply return_later, H5.
  - intros th Hth. destruct (H6 th Hth) as (Hat & q & Hq & Hm). split; [done|]. rewrite Hset.
    case_decide as Hd; [|exists q; split; [done|]; destruct (th_wait th); try done; destruct Hm as (c & ? & ?);
      exists c; split; [done|by eapply writer_later]].
    exists p'. split; [done|]. rewrite Hd, Hp in Hq. injection Hq as <-. destruct (th_wait th); try done.
    destruct Hm as (c & ? & ?). exists c. split; [done|by apply Mw].
  - intros a Ha. by eapply served_later, H7.
Qed.

(** A core input, then [dispatch]. *)
Lemma input_moved T W v p p0 s es replies : tracks T W → v < size → tk_procs T v = TUp p →
  keeps_names p p0 → rp_slots p0 = rp_slots p → rp_raft p0 = rp_raft p →
  wstep size W (settle W v s replies) → outputs (rp_raft p) s es →
  ∃ W', moved W v p (after_core p0 s) W' ∧ ∀ m, m ∈ replies → m ∈ net W'.
Proof.
  intros HT Hv Hp [K1 K2 K3 K4 K5] Es Er Hs Hout. destruct (tr_up _ _ HT v p Hv Hp) as (Hup & Ha & HR).
  destruct (input_reaches W v s replies Hv Hs) as (W' & HW'). exists W'.
  assert (HR0 : replica_ok W v p0).
  { destruct HR as [R1 R2 R3 R4 R5 R6]. split; rewrite ?K1, ?K2, ?K3, ?K4, ?K5, ?Es, ?Er; done. }
  rewrite <- Er in Ha, Hout. destruct (after_core_ok W W' v p0 s es replies HR0 Ha Hout HW') as (HR' & E' & Hw').
  destruct HW' as (L & Hpr & Hrest & _ & Hrep & _). split; [|done]. split; [done| |done|done|].
  - rewrite E'. split; [done|]. by unfold cleared; upd.
  - intros w c Hw. apply Hw'. apply (writer_later W W' _ _ _ L) in Hw. revert Hw. unfold writer_ok. by rewrite K4, K5.
Qed.

(** The core has done nothing. *)
Lemma idle_moved T W v p p' : tracks T W → v < size → tk_procs T v = TUp p → keeps_names p p' → rp_raft p' = rp_raft p →
  (∀ peer o, rp_slots p' !! peer = Some (Some o) → rp_slots p !! peer = Some (Some o)) → moved W v p p' W.
Proof.
  intros HT Hv Hp [K1 K2 K3 K4 K5] Er Es. destruct (tr_up _ _ HT v p Hv Hp) as (Hup & Ha & [R1 R2 R3 R4 R5 R6]).
  split; [done|by rewrite Er|done| |].
  - split; rewrite ?K1, ?K2, ?K3, ?K4, ?K5, ?Er; auto.
  - intros w c. unfold writer_ok. by rewrite K4, K5.
Qed.

Lemma keeps_refl p : keeps_names p p.
Proof. done. Qed.

Lemma ticker_moved T W v p now : tracks T W → v < size → tk_procs T v = TUp p → (term (rp_raft p) + 1 < W64N)%N →
  ∃ W', moved W v p (ticker p now) W'.
Proof.
  intros HT Hv Hp Ht. unfold ticker. destruct (rp_stopping p); [exists W; by apply (idle_moved T)|].
  destruct (tr_up _ _ HT v p Hv Hp) as (Hup & _ & _). destruct (tick_outputs (rp_raft p) now) as [es Hes].
  destruct (input_moved T W v p p (tick (rp_raft p) now) es [] HT Hv Hp (keeps_refl p) eq_refl eq_refl) as (W' & HW' & _);
    [|done|by exists W']. by apply w_tick.
Qed.

Lemma answered_ok W v p r : return_ok W r → procs W v = Up (rp_raft p) → rt_to r = v → v < size → ∀ f now,
  answered p (rt_from r) (rt_sent r) Ok (rt_reply r) = Some f →
  wstep size W (settle W v (f now) []) ∧ ∃ es, outputs (rp_raft p) (f now) es.
Proof.
  intros Hr Hup <- Hv f now. unfold answered, return_ok in *. rewrite bool_decide_true by done. cbn [negb].
  destruct (rt_sent r) as [to req|to req]; intros E; apply bind_Some in E as (x & Hx & [= <-]).
  - split; [by apply w_vote_reply; [..|apply Hr]|apply handle_vote_reply_outputs].
  - split; [by apply w_append_reply; [..|apply Hr]|apply handle_append_reply_outputs].
Qed.

Lemma failed_moved T W v p peer sent now : tracks T W → v < size → tk_procs T v = TUp p →
  ∃ W', moved W v p (after_core (p <| rp_calls_failed := alter (λ n, wrap64N (n + 1)) peer (rp_calls_failed p) |>)
             (call_failed (rp_raft p) peer sent now)) W'.
Proof.
  intros HT Hv Hp. destruct (tr_up _ _ HT v p Hv Hp) as (Hup & _ & _).
  edestruct (input_moved T W v p) as (W' & HW' & _); [done|done|done| | | | |apply quiet_outputs, call_failed_quiet|by exists W'];
    [done|done|done|]. by apply w_failed.
Qed.

Lemma take_reply_moved T W v p r now : tracks T W → v < size → tk_procs T v = TUp p → return_ok W r → rt_to r = v →
  ∃ W', moved W v p (take_reply p (rt_from r) (rt_sent r) Ok (rt_reply r) now) W'.
Proof.
  intros HT Hv Hp Hr Hto. unfold take_reply. destruct (rp_stopping p); [exists W; by apply (idle_moved T)|].
  destruct (tr_up _ _ HT v p Hv Hp) as (Hup & _ & _).
  destruct (answered p (rt_from r) (rt_sent r) Ok (rt_reply r)) as [f|] eqn:Ef; [|by apply (failed_moved T)].
  destruct (answered_ok W v p r Hr Hup Hto Hv f now Ef) as [Hs [es Hes]].
  destruct (input_moved T W v p p (f now) es [] HT Hv Hp (keeps_refl p) eq_refl eq_refl Hs Hes) as (W' & HW' & _). by exists W'.
Qed.

Lemma take_reply_lost_moved T W v p peer sent d reply now : tracks T W → v < size → tk_procs T v = TUp p → d ≠ Ok →
  ∃ W', moved W v p (take_reply p peer sent d reply now) W'.
Proof.
  intros HT Hv Hp Hd. unfold take_reply. destruct (rp_stopping p); [exists W; by apply (idle_moved T)|].
  unfold answered. rewrite bool_decide_false by done. by apply (failed_moved T).
Qed.

(** ** Calls of other replicas *)

Lemma fingerprint_no_space members : SPACE ∉ group_fingerprint members.
Proof.
  unfold group_fingerprint. intros Hin. assert (Hs : SPACE ∈ sha1 (join COMMA members)).
  { rewrite <- (take_drop 8 (sha1 (join COMMA members))). apply elem_of_app. by left. }
  pose proof (sha1_lower_hex (join COMMA members)) as Hf. rewrite Forall_forall in Hf.
  by discriminate (Hf _ Hs).
Qed.

(** A refusal is no reply of the core's. *)
Definition refusal (reply : bytes) : Prop := parse_vote_reply reply = None ∧ parse_append_reply reply = None.

Lemma refusal_return W r : refusal (rt_reply r) → return_ok W r.
Proof. intros [H1 H2]. unfold return_ok. destruct (rt_sent r); intros x Hx; congruence. Qed.

Lemma refuse_moved T W v p from o p' : tracks T W → v < size → tk_procs T v = TUp p → refuse_call p from = (o, p') →
  moved W v p p' W ∧ ∀ reply, o = Reply reply → refusal reply.
Proof.
  intros HT Hv Hp [= <- <-]. split; [by apply (idle_moved T)|]. intros reply [= <-]. by vm_compute.
Qed.

Lemma handle_vote_call_moved T W v p from req now o p' : tracks T W → v < size → tk_procs T v = TUp p →
  MCall from (OutVote v req) ∈ net W →
  handle_vote_call p (split_single_spaces (encode_vote (rp_fingerprint p) req)) now = (o, p') →
  ∃ W', moved W v p p' W' ∧ ∀ reply, o = Reply reply → return_ok W' (mkReturn v from (OutVote v req) reply).
Proof.
  intros HT Hv Hp Hin. unfold handle_vote_call. destruct (tr_up _ _ HT v p Hv Hp) as (Hup & _ & HR).
  destruct (parse_vote _) as [[g req']|] eqn:Epv.
  - apply parse_vote_text in Epv as [-> ->]; [|rewrite (ro_print _ _ _ HR); apply fingerprint_no_space].
    destruct (wrong_group _ _ _).
    + intros E. destruct (refuse_moved T W v p _ o p' HT Hv Hp E) as [Hm Hr]. exists W. split; [done|].
      intros reply Ho. by apply refusal_return, Hr.
    + destruct (handle_vote (rp_raft p) req now) as [r s] eqn:Eh. intros [= <- <-].
      destruct (handle_vote_outputs (rp_raft p) req now) as [es Hes]. rewrite Eh in Hes. cbn [snd] in Hes.
      destruct (input_moved T W v p p s es [MVoteReply v from req r] HT Hv Hp (keeps_refl p) eq_refl eq_refl) as (W' & HW' & Hm);
        [by eapply w_vote|done|]. exists W'. split; [done|]. intros reply Ho. unfold check_fatal in Ho.
      destruct (rp_fatal _); [done|]. injection Ho as <-. unfold return_ok. cbn. intros vr Hvr.
      apply parse_vote_reply_text in Hvr as ->. apply Hm. by left.
  - intros [= <- <-]. exists W. split; [by apply (idle_moved T)|]. intros reply [= <-]. apply refusal_return. by vm_compute.
Qed.

Lemma handle_append_call_moved T W v p from req now o p' : tracks T W → v < size → tk_procs T v = TUp p →
  MCall from (OutAppend v req) ∈ net W →
  handle_append_call p (split_single_spaces (encode_append (rp_fingerprint p) req).1) (encode_append (rp_fingerprint p) req).2 now = (o, p') →
  ∃ W', moved W v p p' W' ∧ ∀ reply, o = Reply reply → return_ok W' (mkReturn v from (OutAppend v req) reply).
Proof.
  intros HT Hv Hp Hin. unfold handle_append_call. destruct (tr_up _ _ HT v p Hv Hp) as (Hup & _ & HR).
  destruct (parse_append _ _ _) as [[g req']|] eqn:Epv.
  - pose proof (parse_append_text valid_command (rp_fingerprint p) req g req' valid_command_no_nl) as Htext.
    destruct (encode_append (rp_fingerprint p) req) as [line body]. cbn [fst snd] in Epv.
    apply Htext in Epv as [-> ->]; [|rewrite (ro_print _ _ _ HR); apply fingerprint_no_space].
    destruct (wrong_group _ _ _).
    + intros E. destruct (refuse_moved T W v p _ o p' HT Hv Hp E) as [Hm Hr]. exists W. split; [done|].
      intros reply Ho. by apply refusal_return, Hr.
    + destruct (handle_append (rp_raft p) req now) as [r s] eqn:Eh. intros [= <- <-].
      destruct (handle_append_outputs (rp_raft p) req now) as [es Hes]. rewrite Eh in Hes. cbn [snd] in Hes.
      destruct (input_moved T W v p p s es [MAppendReply v from req r] HT Hv Hp (keeps_refl p) eq_refl eq_refl) as (W' & HW' & Hm);
        [by eapply w_append|done|]. exists W'. split; [done|]. intros reply Ho. unfold check_fatal in Ho.
      destruct (rp_fatal _); [done|]. injection Ho as <-. unfold return_ok. cbn. intros ar Har.
      apply parse_append_reply_text in Har as ->. apply Hm. by left.
  - intros [= <- <-]. exists W. split; [by apply (idle_moved T)|]. intros reply [= <-]. apply refusal_return. by vm_compute.
Qed.

(** A delivered call is the call that was sent, or is refused. *)
Lemma call_moved T W f p now o p' : tracks T W → f ∈ tk_calls T → fl_to f < size → tk_procs T (fl_to f) = TUp p →
  handle p (fl_line f) (fl_body f) now = (o, p') →
  ∃ W', moved W (fl_to f) p p' W' ∧ ∀ reply, o = Reply reply → return_ok W' (mkReturn (fl_to f) (fl_from f) (fl_sent f) reply).
Proof.
  intros HT Hf Hv Hp. destruct (tr_calls _ _ HT f Hf) as (Hin & Hto & Etext).
  destruct (tr_up _ _ HT _ p Hv Hp) as (Hup & _ & HR). rewrite <- (ro_print _ _ _ HR) in Etext.
  assert (Hs : SPACE ∉ rp_fingerprint p) by (rewrite (ro_print _ _ _ HR); apply fingerprint_no_space).
  unfold handle. set (v := fl_to f) in *. assert (Hne : fl_line f ≠ []).
  { destruct (fl_sent f); injection Etext as El _; rewrite El; discriminate. }
  rewrite bool_decide_false by done.
  destruct (rp_fatal p || rp_stopping p).
  { intros [= <- <-]. exists W. split; [by apply (idle_moved T)|]. intros reply [= <-]. apply refusal_return. by vm_compute. }
  destruct (fl_sent f) as [to req|to req]; cbn [out_to] in Hto; subst to.
  - injection Etext as El Eb. rewrite El, Eb.
    assert (Hh : head (split_single_spaces (encode_vote (rp_fingerprint p) req)) = Some (lit "VOTE")).
    { unfold encode_vote. rewrite split_words; [done|done|no_spaces]. }
    rewrite Hh. cbv zeta. cbn [default]. rewrite bool_decide_true by done. by apply (handle_vote_call_moved T).
  - assert (El : fl_line f = (encode_append (rp_fingerprint p) req).1) by (by rewrite <- Etext).
    assert (Eb : fl_body f = (encode_append (rp_fingerprint p) req).2) by (by rewrite <- Etext). rewrite El, Eb.
    assert (Hh : head (split_single_spaces (encode_append (rp_fingerprint p) req).1) = Some (lit "APPEND")).
    { cbn [encode_append fst]. unfold append_words. rewrite split_words; [done|done|no_spaces]. }
    rewrite Hh. cbv zeta. cbn [default]. rewrite bool_decide_false by done. rewrite bool_decide_true by done.
    by apply (handle_append_call_moved T).
Qed.

(** ** Clients *)

(** A leader's entry of its own term is the entry of that term and index, for ever. *)
Lemma leader_promises W v s i e : wreach size W → leads size W v s → log s !! i = Some e → e_term e = term s →
  promised W (term s) (i + 1) (e_command e).
Proof.
  intros HW Hlead Hi Ht W' e' Hrun [u Hu] Ht'. destruct (sim_reach size W HW) as (A & HI & Hsim).
  destruct (sim_run size A W W' HI Hsim Hrun) as (A' & HI' & G & Hsim').
  destruct (leads_abs size A W v s HI Hsim Hlead) as [HL _]. destruct (gr_tlog _ _ G _ _ HL) as (L' & HL' & HP).
  pose proof (sim_handed _ _ _ Hsim') as Hh. rewrite Forall_forall in Hh.
  destruct (inv_apps _ _ HI' _ _ _ (Hh _ Hu)) as (t0 & k & L0 & Hc & HL0 & Hk & He' & _).
  destruct (inv_tlog _ _ HI' _ _ HL0) as (Hm & _). replace (i + 1 - 1) with i in He' by lia.
  assert (HLi : L' !! i = Some e) by (by eapply prefix_lookup_Some).
  destruct (inv_tlog _ _ HI' _ _ HL') as (Hm' & _).
  pose proof (matching_same A' L0 L' i e' e Hm Hm' He' HLi ltac:(congruence)) as HT.
  apply (lookup_take_eq _ i) in HT; [|lia]. congruence.
Qed.

Lemma not_leader_no_answer p : ¬ is_answer (not_leader p).
Proof.
  intros [H1 H2]. unfold not_leader in *. destruct (leader (rp_raft p)) as [l|]; [|by vm_compute in H2].
  destruct (bool_decide _); [by vm_compute in H2|]. by rewrite starts_with_app in H1.
Qed.

(** What does not change the core's place in the protocol. *)
Definition fixed (s s' : Raft S) : Prop := term s' = term s ∧ log s' = log s ∧ role s' = role s.
#[local] Instance fixed_preorder : PreOrder fixed.
Proof. split; [done|]. intros s1 s2 s3 (?&?&?) (?&?&?). split_and!; congruence. Qed.

Lemma send_if_due_fixed s q now force : fixed s (send_if_due s q now force).
Proof. unfold send_if_due. by repeat case_match. Qed.

Lemma sends_fixed qs now force s : fixed s (foldl (λ s q, send_if_due s q now force) s qs).
Proof. revert s. induction qs as [|q qs IH]; intros s; [done|]. cbn. etrans; [apply send_if_due_fixed|apply IH]. Qed.

Lemma finish_fixed s : fixed s (finish s).
Proof.
  assert (Hc : ∀ s, fixed s (commit_and_apply s)).
  { clear. intros s. unfold commit_and_apply, resolve_reads, apply_committed, advance_commit. by repeat case_match. }
  unfold finish. repeat case_match; try done; (etrans; [|apply Hc]); done.
Qed.

Lemma propose_spec s c now ok i t s' : propose s c now = ((ok, i, t), s') → ok = true →
  stopped s' = false ∧ role s' = Leader ∧ term s' = term s ∧ log s' = log s ++ [mkEntry (term s) c].
Proof.
  unfold propose. destruct (stopped s || _) eqn:Hs; [by intros [= <- <- <- <-]|]. cbv zeta. intros [= <- <- <- <-] Hok.
  apply negb_true_iff in Hok. bool_to_prop. set (s1 := append_own s c) in *.
  pose proof (sends_fixed (peers s1) now false s1) as F1. pose proof (finish_fixed (foldl (λ s q, send_if_due s q now false) s1 (peers s1))) as F2.
  destruct (transitivity F1 F2) as (E1 & E2 & E3). split_and!; [done|by rewrite E3|by rewrite E1|by rewrite E2].
Qed.

Lemma erase_ok W v p w : replica_ok W v p → replica_ok W v (erase_write p w) ∧
  ∀ w' c, writer_ok W p w' c → writer_ok W (erase_write p w) w' c.
Proof.
  intros [R1 R2 R3 R4 R5 R6]. unfold erase_write. split.
  - split; upd; [done|done|done|done| |by apply nodup_filter_snd].
    intros i w' Hin. apply list_elem_of_filter in Hin as [_ Hin]. by apply (R5 i).
  - intros w' c (x & i & Hx & Hp & [[Hd Hi]|Hd]); exists x, i; upd; (split_and!; [done|done|]); [left|by right].
    split; [done|]. intros i' Hin. apply list_elem_of_filter in Hin as [_ Hin]. by apply Hi.
Qed.

(** A new waiter. *)
Lemma waiter_added W v p t i : replica_ok W v p →
  let w := length (rp_writers p) in
  let p0 := p <| rp_writers := rp_writers p ++ [mkWriteWaiter t false []] |> <| rp_writes := rp_writes p ++ [(i, w)] |> in
  replica_ok W v p0 ∧ (∀ w' c, writer_ok W p w' c → writer_ok W p0 w' c) ∧
  (∀ W' c, promised W' t i c → writer_ok W' p0 w c).
Proof.
  intros [R1 R2 R3 R4 R5 R6] w p0.
  assert (Hnew : ∀ i', (i', w) ∉ rp_writes p).
  { intros i' Hin. destruct (R5 i' w Hin) as (x & Hx & _). apply lookup_lt_Some in Hx. unfold w in Hx. lia. }
  split_and!.
  - split; unfold p0; upd; [done|done|done|done| |].
    + intros i' w' Hin. apply elem_of_app in Hin as [Hin|Hin].
      * destruct (R5 i' w' Hin) as (x & Hx & Hd). exists x. split; [by apply lookup_app_l_Some|done].
      * apply list_elem_of_singleton in Hin. injection Hin as -> ->. eexists. split; [by apply list_lookup_middle|done].
    + rewrite fmap_app. apply NoDup_app. split_and!; [done| |apply NoDup_singleton]. intros w' Hin Hs. cbn in Hs.
      apply list_elem_of_singleton in Hs as ->. apply list_elem_of_fmap in Hin as ([i' w'] & E & Hin). cbn in E. subst w'.
      by apply (Hnew i').
  - intros w' c (x & j & Hx & Hp & Hd). exists x, j. unfold p0. upd. split_and!; [by apply lookup_app_l_Some|done|].
    destruct Hd as [[Hd Hj]|Hd]; [left; split; [done|]|by right]. intros i' Hin. apply elem_of_app in Hin as [Hin|Hin]; [by apply Hj|].
    apply list_elem_of_singleton in Hin. injection Hin as _ ->. apply lookup_lt_Some in Hx. unfold w in Hx. lia.
  - intros W' c Hp. exists (mkWriteWaiter t false []), i. unfold p0. upd. split_and!; [by apply list_lookup_middle|done|].
    left. split; [done|]. intros i' Hin. apply elem_of_app in Hin as [Hin|Hin]; [by apply Hnew in Hin|].
    apply list_elem_of_singleton in Hin. by injection Hin.
Qed.

(** What a client's request leaves: a wait for its own entry, a read, or a reply
    that is no answer to a write. *)
Definition outcome_ok W p (line : bytes) (o : Outcome) : Prop :=
  match o with
  | WaitWrite w => ∃ c, write_command line = Some c ∧ writer_ok W p w c
  | WaitRead _ _ _ => write_command line = None
  | Reply reply => ∀ c, write_command line = Some c → ¬ is_answer reply
  | Exits => True
  end.

Lemma client_write_moved T W v p line c now o p' : tracks T W → v < size → tk_procs T v = TUp p →
  write_command line = Some c → client_write p c now = (o, p') →
  ∃ W', moved W v p p' W' ∧ outcome_ok W' p' line o.
Proof.
  intros HT Hv Hp Hc. destruct (tr_up _ _ HT v p Hv Hp) as (Hup & Ha & HR). unfold client_write.
  destruct (waiter_added W v p (term (rp_raft p)) (last_index (rp_raft p) + 1) HR) as (HR0 & Hold & Hnew).
  cbv zeta in HR0, Hold, Hnew |- *. set (w := length (rp_writers p)) in *. set (p0 := _ <| rp_writes := _ |>) in *.
  change (rp_raft p0) with (rp_raft p).
  destruct (propose (rp_raft p) c now) as [[[ok i] t] s] eqn:Epr.
  destruct (propose_outputs (rp_raft p) c now) as [es Hes]. rewrite Epr in Hes. cbn [snd] in Hes.
  assert (Hs : wstep size W (settle W v s [])).
  { replace s with (propose (rp_raft p) c now).2 by (by rewrite Epr). by apply w_propose. }
  destruct (input_reaches W v s [] Hv Hs) as (W' & HW'). pose proof HW' as (L & Hpr & Hrest & Hcalls & _ & Hh).
  assert (Hold' : ∀ w' c', writer_ok W p w' c' → writer_ok W' p0 w' c').
  { intros w' c' Hw. by apply (writer_later W W'), Hold. }
  destruct ok.
  - intros [= <- <-]. exists W'.
    destruct (after_core_ok W W' v p0 s es [] HR0 Ha Hes HW') as (HR' & E' & Hw').
    split; [split; [done|by rewrite E'|done|done|by auto]|]. unfold check_fatal.
    destruct (rp_fatal _); [done|]. cbn [outcome_ok]. exists c. split; [done|]. apply Hw', Hnew.
    destruct (propose_spec _ _ _ _ _ _ _ Epr eq_refl) as (S1 & S2 & S3 & S4). rewrite <- S3.
    apply (leader_promises W' v (cleared s) (last_index (rp_raft p)) (mkEntry (term (rp_raft p)) c)).
    + by eapply later_reach; [apply (tr_reach _ _ HT)|].
    + by split_and!.
    + unfold cleared. upd. rewrite S4. by apply list_lookup_middle.
    + unfold cleared. upd. by rewrite S3.
  - set (p1 := core p0 s). destruct (core_ok W W' v p0 s es HR0 Ha Hes L Hh) as (HR1 & E1 & Hw1). fold p1 in HR1, E1, Hw1.
    set (p2 := if waiter_done p1 w then p1 else erase_write p1 w).
    assert (H2 : replica_ok W' v p2 ∧ rp_raft p2 = rp_raft p1 ∧ ∀ w' c', writer_ok W' p1 w' c' → writer_ok W' p2 w' c').
    { unfold p2. destruct (waiter_done p1 w); [done|]. destruct (erase_ok W' v p1 w HR1). by split_and!. }
    destruct H2 as (HR2 & E2 & Hw2). destruct (dispatch_ok W' v p2 HR2) as [HR3 Hw3].
    { intros o' Ho'. rewrite E2, E1 in Ho'. upd. by apply Hcalls. }
    assert (E3 : rp_raft (dispatch p2) = cleared s).
    { destruct (dispatch_keeps p2) as (_ & -> & _). by rewrite E2, E1. }
    intros [= <- <-]. exists W'. split; [split; [done|by rewrite E3|done|done|by auto]|]. unfold check_fatal.
    destruct (rp_fatal _); [done|]. intros c' _. apply not_leader_no_answer.
Qed.

Lemma client_read_moved T W v p line r now o p' : tracks T W → v < size → tk_procs T v = TUp p →
  write_command line = None → client_read p r now = (o, p') → ∃ W', moved W v p p' W' ∧ outcome_ok W' p' line o.
Proof.
  intros HT Hv Hp Hc. destruct (tr_up _ _ HT v p Hv Hp) as (Hup & Ha & HR). unfold client_read. cbv zeta.
  set (p0 := _ <| rp_reads := <[_ := _]> _ |>). change (rp_raft p0) with (rp_raft p).
  set (id := wrap64N _). destruct (read (rp_raft p) id now) as [ok s] eqn:Er.
  destruct (read_outputs (rp_raft p) id now) as [es Hes]. rewrite Er in Hes. cbn [snd] in Hes.
  assert (Hs : wstep size W (settle W v s [])).
  { replace s with (read (rp_raft p) id now).2 by (by rewrite Er). by apply w_read. }
  destruct ok; intros [= <- <-].
  - destruct (input_moved T W v p p0 s es [] HT Hv Hp ltac:(done) eq_refl eq_refl Hs Hes) as (W' & HW' & _). exists W'.
    split; [done|]. unfold check_fatal. by destruct (rp_fatal _).
  - assert (s = rp_raft p) as ->. { revert Er. unfold read. case_match; by intros [= <-]. }
    exists W. split; [by apply (idle_moved T)|]. intros c. congruence.
Qed.

Lemma client_request_moved T W v p line now o p' : tracks T W → v < size → tk_procs T v = TUp p →
  client_request p line now = (o, p') → ∃ W', moved W v p p' W' ∧ outcome_ok W' p' line o.
Proof.
  intros HT Hv Hp. unfold client_request. cbv zeta.
  assert (Hstay : ∀ reply, (∀ c, write_command line = Some c → ¬ is_answer reply) →
    ∃ W', moved W v p p W' ∧ outcome_ok W' p line (Reply reply)).
  { intros reply Hr. exists W. split; [by apply (idle_moved T)|done]. }
  pose proof (client_write_moved T W v p line) as Hwrite. pose proof (client_read_moved T W v p line) as Hread.
  unfold write_command in *. cbv zeta in *. destruct (r_kind (parse_names_request line)) eqn:Ek;
    try (destruct (negb (bool_decide _)); [intros [= <- <-]; apply Hstay; intros; apply not_leader_no_answer|]); intros E.
  all: first [by eapply Hwrite|by eapply Hread|injection E as <- <-; by apply Hstay].
Qed.

Lemma write_verb line c : write_command line = Some c →
  line ≠ [] ∧ head (split_single_spaces line) ≠ Some (lit "STATUS").
Proof.
  unfold write_command. cbv zeta. intros Hw. split; [intros ->; by vm_compute in Hw|]. intros Hh. revert Hw.
  unfold parse_names_request. cbv zeta. rewrite Hh. cbn [default]. by case_bool_decide.
Qed.

Lemma client_moved T W v p line body now o p' : tracks T W → v < size → tk_procs T v = TUp p →
  client_line line → handle p line body now = (o, p') → ∃ W', moved W v p p' W' ∧ outcome_ok W' p' line o.
Proof.
  intros HT Hv Hp [Hv1 Hv2]. unfold handle. cbv zeta.
  assert (Hstay : ∀ reply, (∀ c, write_command line = Some c → ¬ is_answer reply) →
    ∃ W', moved W v p p W' ∧ outcome_ok W' p line (Reply reply)).
  { intros reply Hr. exists W. split; [by apply (idle_moved T)|done]. }
  case_bool_decide as Hl; [intros [= <- <-]; apply Hstay; intros c Hc; by destruct (write_verb line c Hc)|].
  destruct (rp_fatal p || rp_stopping p).
  { intros [= <- <-]. apply Hstay. intros c _ [_ H2]. by vm_compute in H2. }
  pose proof (split_on_not_nil SPACE line) as Hne. pose proof (write_verb line) as Hst. unfold split_single_spaces in *.
  destruct (split_on SPACE line) as [|verb rest] eqn:Es; [done|]. cbn [head from_option] in *. change (id verb) with verb in *.
  rewrite bool_decide_false by (intros ->; by apply Hv1). rewrite bool_decide_false by (intros ->; by apply Hv2).
  destruct (bool_decide (verb = lit "STATUS") && _) eqn:Eb.
  - intros [= <- <-]. apply Hstay. intros c Hc. bool_to_prop. destruct (Hst c Hc) as [_ Hn]. subst verb. by destruct Hn.
  - by apply (client_request_moved T).
Qed.

(** The end of a wait. *)
Lemma wake_moved T W th late p reply p' : tracks T W → th ∈ tk_threads T → tk_procs T (th_at th) = TUp p →
  end_wait p (th_wait th) late = (Some reply, p') →
  moved W (th_at th) p p' W ∧ served_ok W (mkServed (th_at th) (th_line th) reply).
Proof.
  intros HT Hth Hp. destruct (tr_threads _ _ HT th Hth) as (Hv & q & Hq & Hm). rewrite Hp in Hq. injection Hq as <-.
  destruct (tr_up _ _ HT _ p Hv Hp) as (Hup & Ha & HR).
  assert (Hidle : moved W (th_at th) p p W) by (by apply (idle_moved T)).
  destruct (th_wait th) as [r|w|id w r|]; cbn [end_wait]; try done.
  - destruct Hm as (c & Hc & x & i & Hx & Hpr & Hd). unfold end_write. rewrite Hx.
    destruct (ww_done x) eqn:Hdone.
    + intros [= <- <-]. split; [done|]. intros c' Hc' Hans. cbn in Hc', Hans. rewrite Hc in Hc'. injection Hc' as <-.
      destruct Hd as [[? _]|[_ [Hr|Hs]]]; [done| |by exists i]. rewrite Hr in Hans. destruct Hans as [_ Hu]. by vm_compute in Hu.
    + destruct (late || _ || _); intros [= <- <-]. split.
      * destruct (erase_ok W (th_at th) p w HR) as [HRe Hwe]. by split.
      * intros c' _ [_ Hu]. by vm_compute in Hu.
  - assert (Hsv : ∀ reply', served_ok W (mkServed (th_at th) (th_line th) reply')) by (intros reply' c Hc; cbn in Hc; congruence).
    unfold end_read. destruct (rp_readers p !! w) as [x|]; [|done]. destruct (rw_done x); cbn [negb].
    + destruct (rw_ok x); cbn [negb]; intros [= <- <-]; done.
    + destruct (late || _ || _); intros [= <- <-]. split; [by apply (idle_moved T)|done].
Qed.

(** ** Every step *)

Lemma tracks_more T W calls returns threads served : tracks T W →
  Forall (flight_ok W) calls → Forall (return_ok W) returns → Forall (thread_ok W T) threads → Forall (served_ok W) served →
  tracks (mkTracker (tk_procs T) calls returns threads served) W.
Proof.
  intros [H1 H2 H3 _ _ _ _] Hc Hr Ht Hs. split; cbn; try done; by apply Forall_forall.
Qed.

Lemma tracks_all T W : tracks T W → Forall (flight_ok W) (tk_calls T) ∧ Forall (return_ok W) (tk_returns T) ∧
  Forall (thread_ok W T) (tk_threads T) ∧ Forall (served_ok W) (tk_served T).
Proof. intros [_ _ _ H4 H5 H6 H7]. split_and!; by apply Forall_forall. Qed.

Lemma set_proc_same T v x : tk_procs (set_proc T v x) v = x.
Proof. unfold set_proc. upd. by rewrite decide_True. Qed.

(** A process replaced while no request waits there. *)
Lemma place_tracks T W W' v x : tracks T W → later W W' → (∀ u, u ≠ v → procs W' u = procs W u) →
  (∀ th, th ∈ tk_threads T → th_at th ≠ v) →
  match x with
  | TDown st => procs W' v = Down st
  | TUp p => procs W' v = Up (rp_raft p) ∧ applied_out (rp_raft p) = [] ∧ replica_ok W' v p
  end → tracks (set_proc T v x) W'.
Proof.
  intros [H1 H2 H3 H4 H5 H6 H7] L Hrest Hth Hx.
  assert (Hset : ∀ u, tk_procs (set_proc T v x) u = if decide (u = v) then x else tk_procs T u) by done.
  split.
  - by eapply later_reach.
  - intros u st Hu. rewrite Hset. case_decide as Hd; [intros ->; by subst|]. intros E. rewrite Hrest by done. by apply H2.
  - intros u q Hu. rewrite Hset. case_decide as Hd; [intros ->; by subst|]. intros E. rewrite Hrest by done.
    destruct (H3 u q Hu E) as (? & ? & ?). split_and!; [done|done|by eapply replica_later].
  - intros f Hf. by eapply flight_later, H4.
  - intros r Hr. by eapply return_later, H5.
  - intros th Hin. destruct (H6 th Hin) as (Hat & q & Hq & Hm). split; [done|]. rewrite Hset.
    rewrite decide_False by (by apply Hth). exists q. split; [done|]. destruct (th_wait th); try done.
    destruct Hm as (c & ? & ?). exists c. split; [done|by eapply writer_later].
  - intros a Ha. by eapply served_later, H7.
Qed.

Lemma replace_later W v x : wstep size W (replace_proc W v x) → later W (replace_proc W v x).
Proof. intros Hs. split; [by apply rtc_once|done|done]. Qed.

Lemma start_moved T W v st rs now : tracks T W → v < size → tk_procs T v = TDown st → (d_term (held st) + 1 < W64N)%N →
  ∃ W', later W W' ∧ tracks (set_proc T v (TUp (replica_init (replica_conf v) st (held st) rs now))) W'.
Proof.
  intros HT Hv Hp Ht. pose proof (tr_down _ _ HT v st Hv Hp) as Hdown. unfold replica_init.
  change (raft_config (replica_conf v)) with (conf v). set (s := raft_init (conf v) st (held st) rs now).
  assert (Hs : wstep size W (settle W v s [])) by (by apply w_start).
  destruct (input_reaches W v s [] Hv Hs) as (W' & HW'). exists W'. split; [apply HW'|].
  set (s0 := raft_fields (conf v) st (held st) rs).
  change (after_core (replica_fields (replica_conf v) s) s) with (after_core (replica_fields (replica_conf v) s0) s).
  destruct (raft_init_outputs (conf v) st (held st) rs now) as (es & E1 & E2).
  assert (HR0 : replica_ok W v (replica_fields (replica_conf v) s0)).
  { split; [done|done| | | |constructor].
    - exists []. split_and!; [|done|done]. intros j e Hj. by rewrite lookup_nil in Hj.
    - intros peer o Ho. cbn in Ho. apply lookup_replicate in Ho as [? _]. done.
    - intros i w Hin. by apply elem_of_nil in Hin. }
  destruct (after_core_ok W W' v (replica_fields (replica_conf v) s0) s es [] HR0 eq_refl) as (HR & E & _).
  { split; [exact E1|exact E2]. } { done. }
  destruct HW' as (L & Hpr & Hrest & _). apply (place_tracks T W); [done|done|done| |by rewrite E].
  intros th Hth Hat. destruct (tr_threads _ _ HT th Hth) as (_ & q & Hq & _). congruence.
Qed.

Lemma tracks_step T W T' : tracks T W → tstep T T' → ∃ W', later W W' ∧ tracks T' W'.
Proof.
  intros HT Hstep.
  assert (Hmv : ∀ v p p' W', v < size → tk_procs T v = TUp p → moved W v p p' W' →
    later W W' ∧ tracks (set_proc T v (TUp p')) W').
  { intros v p p' W' Hv Hp Hm. split; [apply (mv_later _ _ _ _ _ Hm)|by eapply moved_tracks]. }
  destruct Hstep as [v p now Hv Hp Ht|v peer p sent line body p' Hv Hp Ht|f p now o p' Hf Hv Hp Hh|r p now Hr Hv Hp
    |v peer sent d reply p now Hv Hp Hd|v line body p now o p' Hv Hp Hcl Hh|th late p reply p' before after Eth Hv Hp He
    |v p Hv Hp|v p Hv Hp|v st rs now Hv Hp Ht|v p st Hv Hp Hst].
  - destruct (ticker_moved T W v p now HT Hv Hp Ht) as (W' & Hm). exists W'. by apply (Hmv v p).
  - exists W. split; [done|]. revert Ht. unfold take_call. destruct (rp_stopping p); [done|].
    destruct (rp_slots p !! peer) as [[sent'|]|] eqn:Eslot; [|done|done]. intros [= <- Etext <-].
    destruct (tr_up _ _ HT v p Hv Hp) as (_ & _ & HR). destruct (ro_slots _ _ _ HR _ _ Eslot) as [Hin Hto].
    assert (HT1 : tracks (set_proc T v (TUp (p <| rp_slots := <[peer := None]> (rp_slots p) |>))) W).
    { apply (Hmv v p); [done|done|]. apply (idle_moved T); [done..|]. upd. intros q o Ho.
      apply list_lookup_insert_Some in Ho as [(_ & ? & _)|[_ ?]]; done. }
    destruct (tracks_all _ _ HT1) as (F1 & F2 & F3 & F4). apply (tracks_more _ _ _ _ _ _ HT1); [|done|done|done].
    constructor; [|done]. split_and!; [done|done|]. cbn. rewrite <- Etext, (ro_print _ _ _ HR). by destruct sent'.
  - destruct (call_moved T W f p now o p' HT Hf Hv Hp Hh) as (W' & Hm & Hret).
    destruct (Hmv _ p p' W' Hv Hp Hm) as [L HT1]. exists W'. split; [done|].
    destruct (tracks_all _ _ HT1) as (F1 & F2 & F3 & F4). apply (tracks_more _ _ _ _ _ _ HT1); [done| |done|done].
    destruct o; try done. constructor; [by apply Hret|done].
  - destruct (take_reply_moved T W _ p r now HT Hv Hp (tr_returns _ _ HT r Hr) eq_refl) as (W' & Hm). exists W'.
    by apply (Hmv _ p).
  - destruct (take_reply_lost_moved T W v p peer sent d reply now HT Hv Hp Hd) as (W' & Hm). exists W'. by apply (Hmv v p).
  - destruct (client_moved T W v p line body now o p' HT Hv Hp Hcl Hh) as (W' & Hm & Ho).
    destruct (Hmv v p p' W' Hv Hp Hm) as [L HT1]. exists W'. split; [done|].
    destruct (tracks_all _ _ HT1) as (F1 & F2 & F3 & F4).
    assert (Hth : ∀ o', o' = o → (∃ w, o' = WaitWrite w) ∨ (∃ id w r, o' = WaitRead id w r) →
      thread_ok W' (set_proc T v (TUp p')) (mkThread v line o')).
    { intros o' -> Hw. split; [done|]. exists p'. split; [apply set_proc_same|]. cbn [th_wait th_line].
      destruct Hw as [(w & ->)|(id & w & r & ->)]; exact Ho. }
    destruct o as [reply|w|id w r|]; cbn [client_next]; [| | |done]; apply (tracks_more _ _ _ _ _ _ HT1); try done.
    + constructor; [|done]. intros c Hc Hans. by destruct (Ho c Hc Hans).
    + constructor; [|done]. apply Hth; eauto.
    + constructor; [|done]. apply Hth; eauto 6.
  - assert (Hin : th ∈ tk_threads T) by (rewrite Eth; apply elem_of_app; right; by left).
    destruct (wake_moved T W th late p reply p' HT Hin Hp He) as [Hm Hsv].
    destruct (Hmv _ p p' W Hv Hp Hm) as [L HT1]. exists W. split; [done|].
    destruct (tracks_all _ _ HT1) as (F1 & F2 & F3 & F4). change (tk_threads (set_proc T _ _)) with (tk_threads T) in F3.
    rewrite Eth in F3. apply Forall_app in F3 as [F3a F3b]. apply Forall_cons in F3b as [_ F3b].
    apply (tracks_more _ _ _ _ _ _ HT1); [done|done|by apply Forall_app|by constructor].
  - exists W. apply (Hmv v p); [done|done|]. by apply (idle_moved T).
  - set (W' := replace_proc W v (Down (storage (rp_raft p)))). destruct (tr_up _ _ HT v p Hv Hp) as (Hup & _ & _).
    assert (L : later W W') by (apply replace_later; by apply w_crash). exists W'. split; [done|].
    destruct (tracks_all _ _ HT) as (F1 & F2 & F3 & F4).
    assert (HT1 : tracks (mkTracker (tk_procs T) (tk_calls T) (tk_returns T)
      (filter (λ th, th_at th ≠ v) (tk_threads T)) (tk_served T)) W).
    { apply (tracks_more _ _ _ _ _ _ HT); [done|done| |done]. apply Forall_forall. intros th Hin.
      apply list_elem_of_filter in Hin as [_ Hin]. by apply (tr_threads _ _ HT). }
    apply (place_tracks _ W W' v (TDown (storage (rp_raft p))) HT1 L).
    + intros u Hu. unfold W', replace_proc. cbn. by rewrite decide_False.
    + intros th Hin. by apply list_elem_of_filter in Hin as [? _].
    + unfold W', replace_proc. cbn. by rewrite decide_True.
  - by apply (start_moved T W v).
  - destruct (tr_up _ _ HT v p Hv Hp) as (Hup & Ha & HR). set (s' := (rp_raft p) <| storage := st |>).
    set (W' := replace_proc W v (Up s')). assert (L : later W W') by (apply replace_later; by apply w_disk).
    exists W'. apply (Hmv v p); [done|done|]. split; [done| | | |].
    + unfold W', replace_proc. cbn. by rewrite decide_True.
    + intros u Hu. unfold W', replace_proc. cbn. by rewrite decide_False.
    + destruct (replica_later W W' v p L HR) as [R1 R2 R3 R4 R5 R6]. by split.
    + intros w c Hw. by apply (writer_later W W').
Qed.

Lemma tracks_run T W T' : tracks T W → rtc tstep T T' → ∃ W', later W W' ∧ tracks T' W'.
Proof.
  intros HT Hrun. revert W HT. induction Hrun as [T|T T1 T2 Hstep Hrun IH]; intros W HT; [by exists W|].
  destruct (tracks_step T W T1 HT Hstep) as (W1 & L1 & HT1). destruct (IH W1 HT1) as (W2 & L2 & HT2).
  exists W2. split; [by etrans|done].
Qed.

Lemma tracks_reach T : treach T → ∃ W, tracks T W.
Proof.
  intros (T0 & (Hp & E1 & E2 & E3 & E4) & Hrun).
  set (W0 := mkWorld (λ v, match tk_procs T0 v with TDown st => Down st | TUp p => Down (storage (rp_raft p)) end) [] []).
  destruct (tracks_run T0 W0 T) as (W & _ & HT); [|done|by exists W]. split.
  - exists W0. split; [|apply rtc_refl]. split; [|done]. intros v. destruct (Hp v) as (st & Est & Hst). exists st.
    cbn. by rewrite Est.
  - intros v st _ E. cbn. by rewrite E.
  - intros v p _ E. destruct (Hp v) as (st & Est & _). congruence.
  - rewrite E1. by intros f Hf%elem_of_nil.
  - rewrite E2. by intros f Hf%elem_of_nil.
  - rewrite E3. by intros f Hf%elem_of_nil.
  - rewrite E4. by intros f Hf%elem_of_nil.
Qed.

(** ** What clients and replicas can rely on *)

Lemma agreed_prefix W es es' : wreach size W → agreed_log W es → agreed_log W es' → length es ≤ length es' →
  es `prefix_of` es'.
Proof.
  intros HW Ha Ha' Hl. assert (E : es = take (length es) es').
  { rewrite <- (firstn_all es) at 1. apply take_ext. intros i Hi.
    destruct (lookup_lt_is_Some_2 es i Hi) as [e He]. destruct (lookup_lt_is_Some_2 es' i ltac:(lia)) as [e' He'].
    destruct (Ha i e He) as [u Hu]. destruct (Ha' i e' He') as [u' Hu'].
    rewrite He, He'. f_equal. by apply (handed_once size W u u' (i + 1)). }
  rewrite E. exists (drop (length es) es'). symmetry. apply take_drop.
Qed.

Lemma apply_all_app ns cs cs' : apply_all ns (cs ++ cs') = apply_all (apply_all ns cs) cs'.
Proof. unfold apply_all. by rewrite foldl_app. Qed.

(** C15. Every replica serves one agreed sequence of commands: whatever was lost, repeated or reordered on the network and whichever replicas crashed, restarted or failed, the namespace of a replica that has applied more entries is that of any replica that had applied fewer, then or earlier, with some further commands applied to it. *)
Theorem replicas_agree T T' u v p q :
  treach T → rtc tstep T T' → u < size → v < size → tk_procs T u = TUp p → tk_procs T' v = TUp q →
  applied (rp_raft p) ≤ applied (rp_raft q) →
  ∃ rest, rp_ns q = apply_all (rp_ns p) rest ∧ applied (rp_raft q) = applied (rp_raft p) + length rest.
Proof.
  intros HT Hrun Hu Hv Hp Hq Hle. destruct (tracks_reach T HT) as (W & HTW).
  destruct (tracks_run T W T' HTW Hrun) as (W' & L & HTW').
  destruct (tr_up _ _ HTW u p Hu Hp) as (_ & _ & HRp). destruct (tr_up _ _ HTW' v q Hv Hq) as (_ & _ & HRq).
  destruct (ro_ns _ _ _ HRp) as (es & Ha & El & En). destruct (ro_ns _ _ _ HRq) as (es' & Ha' & El' & En').
  destruct (agreed_prefix W' es es' (tr_reach _ _ HTW') (agreed_log_later _ _ _ L Ha) Ha' ltac:(lia)) as [r ->].
  exists (commands r). rewrite En', En. unfold commands. rewrite fmap_app, apply_all_app, length_fmap.
  rewrite length_app in El'. split; [done|lia].
Qed.

(** C14. What the answer to a write means. If a client's REGISTER or UNREGISTER was answered - not redirected, not refused as unavailable - then its command has one place in the agreed sequence of commands, the answer is that of applying it there, and every replica that has applied as much, now or at any later time and across any crashes and elections, has applied exactly those commands in that order. *)
Theorem acknowledged_write T v line reply c :
  treach T → mkServed v line reply ∈ tk_served T → write_command line = Some c → is_answer reply →
  ∃ es, reply = (apply_command (apply_all [] es) c).1 ∧
    ∀ T' u q, rtc tstep T T' → u < size → tk_procs T' u = TUp q → length es < applied (rp_raft q) →
      ∃ rest, rp_ns q = apply_all [] (es ++ c :: rest) ∧ applied (rp_raft q) = length (es ++ c :: rest).
Proof.
  intros HT Hin Hc Hans. destruct (tracks_reach T HT) as (W & HTW).
  destruct (tr_served _ _ HTW _ Hin c Hc Hans) as (i & es & e & Ha & -> & He & Ec & Hr). cbn [sv_reply] in Hr.
  exists (commands es). split; [done|]. intros T' u q Hrun Hu Hq Hlt. unfold commands in Hlt. rewrite length_fmap in Hlt.
  destruct (tracks_run T W T' HTW Hrun) as (W' & L & HTW').
  destruct (tr_up _ _ HTW' u q Hu Hq) as (_ & _ & HRq). destruct (ro_ns _ _ _ HRq) as (es' & Ha' & El' & En').
  assert (Ha1 : agreed_log W' (es ++ [e])).
  { intros j x Hj. apply lookup_app_Some in Hj as [Hj|[Hge Hj]]; [by eapply agreed_later, Ha|].
    apply list_lookup_singleton_Some in Hj as [Hz <-]. replace (j + 1) with (length es + 1) by lia. by eapply agreed_later. }
  destruct (agreed_prefix W' (es ++ [e]) es' (tr_reach _ _ HTW') Ha1 Ha') as [r ->]; [rewrite length_app; cbn; lia|].
  exists (commands r). rewrite En', <- El'. unfold commands. rewrite !fmap_app, <- app_assoc. cbn [fmap list_fmap app]. rewrite Ec.
  split; [done|]. rewrite !length_app. cbn [length]. rewrite !length_fmap. lia.
Qed.
End tracker.

(** ** A group of one serving a client *)

#[local] Existing Instances demo_sha1 demo_sha1_ok.

Definition demo_address : list Address := [mkAddress "10.0.0.1" 7001].
Definition demo_disk : MemoryStorage := mkMemoryStorage (mkDurable 0 None []) 0 false.
Definition demo_line : bytes := lit "REGISTER notes.txt " ++ demo_key.
Definition demo_replica : Replica MemoryStorage :=
  replica_init (replica_conf demo_address 150 0) demo_disk (held demo_disk) (λ _, 0%Z) 0.
Definition demo_asked : Outcome * Replica MemoryStorage := handle demo_replica demo_line [] 5.

Definition demo_down : Tracker MemoryStorage := mkTracker (λ _, TDown demo_disk) [] [] [] [].
Definition demo_up : Tracker MemoryStorage := set_proc demo_down 0 (TUp demo_replica).
Definition demo_waiting : Tracker MemoryStorage :=
  client_next (set_proc demo_up 0 (TUp demo_asked.2)) 0 demo_line demo_asked.1.
Definition demo_done : Tracker MemoryStorage :=
  (set_proc demo_waiting 0 (TUp demo_asked.2)) <| tk_threads := [] ++ [] |>
    <| tk_served := mkServed 0 demo_line (lit "OK") :: tk_served demo_waiting |>.

Lemma demo_up_reach : treach demo_address 150 demo_up.
Proof.
  exists demo_down. split.
  - split; [|done]. intros v. by exists demo_disk.
  - apply rtc_once. apply t_start; [cbn; lia|done|by vm_compute].
Qed.

Lemma demo_done_run : rtc (tstep demo_address 150) demo_up demo_done.
Proof.
  eapply rtc_l; [apply (t_client _ _ demo_up 0 demo_line [] demo_replica 5 demo_asked.1 demo_asked.2)|].
  - cbn. lia.
  - done.
  - split; by apply (bool_decide_unpack _); vm_compute.
  - unfold demo_asked. by destruct (handle _ _ _ _).
  - apply rtc_once. apply (t_wake _ _ demo_waiting (mkThread 0 demo_line (WaitWrite 0)) false demo_asked.2 (lit "OK") demo_asked.2 [] []).
    + vm_compute. reflexivity.
    + cbn. lia.
    + done.
    + vm_compute. reflexivity.
Qed.

Definition demo_command : bytes := register_command "notes.txt" demo_key [].

Lemma replicas_agree_witness :
  rp_ns demo_asked.2 ≠ rp_ns demo_replica ∧
  ∃ rest, rp_ns demo_asked.2 = apply_all (rp_ns demo_replica) rest ∧
    applied (rp_raft demo_asked.2) = applied (rp_raft demo_replica) + length rest.
Proof.
  split; [vm_compute; discriminate|].
  apply (replicas_agree demo_address 150 demo_up demo_done 0 0 demo_replica demo_asked.2).
  - apply demo_up_reach.
  - apply demo_done_run.
  - cbn. lia.
  - cbn. lia.
  - reflexivity.
  - reflexivity.
  - apply Nat.leb_le. vm_compute. reflexivity.
Defined.

Lemma acknowledged_write_witness :
  ∃ es, lit "OK" = (apply_command (apply_all [] es) demo_command).1 ∧
    ∀ T' u q, rtc (tstep demo_address 150) demo_done T' → u < 1 → tk_procs T' u = TUp q → length es < applied (rp_raft q) →
      ∃ rest, rp_ns q = apply_all [] (es ++ demo_command :: rest) ∧ applied (rp_raft q) = length (es ++ demo_command :: rest).
Proof.
  apply (acknowledged_write demo_address 150 demo_done 0 demo_line (lit "OK") demo_command).
  - destruct demo_up_reach as (T0 & H0 & Hr). exists T0. split; [exact H0|].
    eapply rtc_trans; [exact Hr|exact demo_done_run].
  - left.
  - vm_compute. reflexivity.
  - split; vm_compute; reflexivity.
Defined.
