(* ===== verification/NodeStart.v ===== *)
(** * NodeStart: a node process from its command line to its first connection (node.cpp)

    [main] of node.cpp up to the accept loop: the address, the options, the members
    and their starting state, the chunk store, the metrics, the ports and the
    background threads. Whatever the ring answers while it joins and whatever the
    store's directory holds, a process that gets as far as accepting connections is
    sound ([start_is_sound]), which is what NodeServeSpec and Ring start from. *)
From Stdlib Require Import SpecFloat.
From stdpp Require Import sorting.
From S2P Require Import Prelude Text OrdMap Net Log Serve Chord Lookup Routing Names Options Group Store Stabilize StabilizeInv Ring Chunk Replication Repair NodeServe NodeServeSpec NodeMain NodeMainSpec Http Metrics MetricsSpec NodeMetrics TrackerMetrics ExposedSpec.

(** ** The start *)

(** What the operating system answers: the files, the disk and the store's directory,
    the metrics port and its thread, the port, creating the background threads. *)
Record NodeEnv := mkNodeEnv {
  ne_files : bytes → option bytes; ne_disk : list (bytes * bytes); ne_blank : ChunkStore; ne_store : StoreOpenEnv; ne_now : Z;
  ne_started : double; ne_metrics : ListenCalls; ne_metrics_thread : option bytes; ne_listen : ListenCalls;
  ne_threads : option bytes; ne_strerror : Errno → bytes }.

Record StartedNode := mkStartedNode {
  sn_node : ChunkNode; sn_registry : Registry NodeReads; sn_instruments : NodeInstruments; sn_background : bool * bool;
  sn_log : list LogEntry }.

Definition member_entry (m : NodeState) : LogEntry :=
  (Info, lit "node.member",
   [(lit "id", id_to_hex (peer_id (ns_self m)));
    (lit "pred", if ns_has_pred m then id_to_hex (peer_id (ns_pred m)) else lit "none");
    (lit "succ", id_to_hex (peer_id (succ0 m)))]).

(** The metrics port, if one was asked for. *)
Definition metrics_refused (o : NodeOptions) (me : Peer) (e : NodeEnv) : option bytes :=
  if (no_metrics o =? 0)%Z then None
  else serve_metrics (ne_strerror e) (peer_ip me) (no_metrics o) (ne_metrics e) (ne_metrics_thread e).

(** After the chunk store: the registry, the ports, the log of the members, the threads. *)
Definition open_node (o : NodeOptions) (me : Peer) (e : NodeEnv) (n : ChunkNode) : StartExit + StartedNode :=
  match NodeMetrics.register_metrics (ne_started e) empty_registry with
  | (_, inl err) => inl (Exits 134 err)
  | (r, inr ni) =>
      match metrics_refused o me e with
      | Some err => inl (Exits 1 err)
      | None =>
          match listen_on (ne_listen e) with
          | Some err => inl (Exits 1 (lit "cannot listen on " ++ peer_ip me ++ lit ":" ++ to_string (peer_port me) ++ lit ": " ++ ne_strerror e err))
          | None =>
              match (if (background o n).1 then ne_threads e else None) with
              | Some what => inl (Exits 1 (lit "cannot start a background thread: " ++ what))
              | None => inr (mkStartedNode n r ni (background o n) (member_entry <$> cn_members n))
              end
          end
      end
  end.

Section start.
Context {SH : Sha1} {IN : Inet} {W : Type} (transport : Transport (NodeState * W)).

Definition start_node (o : NodeOptions) (me : Peer) (e : NodeEnv) (w : W) : (StartExit + StartedNode) * W :=
  let '(members, w) := start_members transport o me (ne_files e) w in
  (match members with
   | inl exit => inl exit
   | inr ms =>
       match start_chunks o ms (ne_files e) (ne_disk e) (ne_blank e) (ne_store e) (ne_now e) with
       | inl exit => inl exit
       | inr n => open_node o me e n
       end
   end, w).

(** The whole program before its first connection: [args] are its arguments. *)
Definition node_main (args : list bytes) (e : NodeEnv) (w : W) : (StartExit + StartedNode) * W :=
  match args with
  | ip :: port :: (_ :: _) as rest =>
      match parse_address (ip ++ lit ":" ++ port) with
      | None => (inl (Exits 2 (lit "[node] invalid own address " ++ ip ++ lit ":" ++ port)), w)
      | Some me => match node_options (drop 2 args) with None => (inl Usage, w) | Some o => start_node o me e w end
      end
  | _ => (inl Usage, w)
  end.
End start.

(** ** The command line *)

(** What the options parser lets through. *)
Record options_ok (o : NodeOptions) : Prop := {
  oo_vnodes : (1 <= no_vnodes o <= MAX_VNODES)%Z;
  oo_successors : (1 <= no_successors o <= Z.of_nat MAX_SUCCESSORS)%Z }.

Lemma parse_int_range s lo hi n : parse_int s lo hi = Some n → (lo <= n <= hi)%Z.
Proof.
  unfold parse_int, parse_whole. destruct (_ || _); [done|]. destruct (digits_val s) as [v|]; cbn; [|done].
  destruct (Z.ltb_spec (Z.of_N v) lo); [done|]. destruct (Z.ltb_spec hi (Z.of_N v)); cbn; [done|]. intros [= <-]. lia.
Qed.

Lemma value_option_ok a v chosen o o' c' : options_ok o → NodeMain.value_option a v chosen o = Some (o', c') → options_ok o'.
Proof.
  intros [H1 H2] E. unfold NodeMain.value_option in E.
  repeat match type of E with (if ?b then _ else _) = _ => destruct b eqn:?; [|] end; simplify_eq;
    try (destruct (parse_int v _ _) as [n|] eqn:Ep; cbn [mbind option_bind] in E; simplify_eq);
    try (destruct (parse_level v) eqn:Ep; cbn [mbind option_bind] in E; simplify_eq); split; upd; try done.
  all: try (apply parse_int_range in Ep; lia).
Qed.

Lemma parse_args_ok args : ∀ chosen o o', options_ok o → NodeMain.parse_args args chosen o = Some o' → options_ok o'.
Proof.
  induction args as [args IH] using (induction_ltof1 _ length). unfold ltof in IH. intros chosen o o' Ho.
  destruct args as [|a rest]; cbn [NodeMain.parse_args]; [by destruct chosen; [intros [= <-]|]|].
  destruct (bool_decide (a = lit "--create") && negb chosen).
  { apply IH; [cbn; lia|]. destruct Ho. by split; upd. }
  destruct rest as [|v rest]; [done|]. destruct (NodeMain.value_option a v chosen o) as [[o1 c1]|] eqn:Ev; cbn [mbind option_bind]; [|done].
  apply IH; [cbn; lia|]. by eapply value_option_ok.
Qed.

Lemma node_options_ok args o : node_options args = Some o → options_ok o.
Proof.
  assert (Hd : options_ok NodeMain.default_options) by (split; vm_compute; split; discriminate).
  unfold node_options. destruct args as [|file [|? ?]]; [by apply parse_args_ok| |by apply parse_args_ok].
  case_bool_decide; [by apply parse_args_ok|]. intros [= <-]. split; upd; [done|apply Hd].
Qed.

(** ** Starting states *)
Section states.
Context {SH : Sha1} {IN : Inet} {IOk : InetOk IN}.

Lemma ring_held ring me p : ring_ok ring → Forall peer_ok ring → me ∈ ring → p ∈ ring → held_ok me p.
Proof. intros Hr Hp Hm Hin. rewrite Forall_forall in Hp. split; [by apply Hp|]. intros E. by apply (ring_inj ring). Qed.

Lemma fingers_in_ring ring n fs : ring_ok ring → build_fingers n ring = Some fs → Forall (λ p, p ∈ ring) fs.
Proof.
  intros Hr Hf. apply Forall_forall. intros p [i Hi]%list_elem_of_lookup.
  destruct (build_fingers_lookup ring n fs i p Hf Hi) as [_ E].
  destruct (successor_of_owns ring (finger_start n i) Hr (finger_start_u64 n i)) as (q & Eq & [Hq _]). congruence.
Qed.

(** A ring of several has another member. *)
Lemma other_member ring me : ring_ok ring → me ∈ ring → length ring ≠ 1 → ∃ q, q ∈ ring ∧ q ≠ me.
Proof.
  intros Hr Hm Hl. destruct (rot ring (find_self me ring)) as [|q l] eqn:E.
  - apply rot_nil in E; [|done]. by rewrite E in Hl.
  - exists q. apply (rot_elem ring Hr me q Hm). rewrite E. by left.
Qed.

(** In a ring of several, the predecessor is another member. *)
Lemma wired_pred ring me p : ring_ok ring → me ∈ ring → length ring ≠ 1 → predecessor_of (peer_id me) ring = Some p → p ∈ ring ∧ p ≠ me.
Proof.
  intros Hr Hm Hl Hp. destruct (predecessor_of_precedes ring (peer_id me) Hr (ring_u64 _ _ Hr Hm)) as (q & Eq & [Hq Hmin]).
  rewrite Hp in Eq. injection Eq as <-. split; [done|]. intros ->.
  destruct (other_member ring me Hr Hm Hl) as (x & Hx & Hne). specialize (Hmin x Hx). unfold gap in Hmin.
  rewrite decide_True in Hmin by done. destruct (decide (peer_id x = peer_id me)) as [E|E]; [by apply (ring_inj ring) in E|].
  pose proof (dist_cases (peer_id x) (peer_id me) (ring_u64 _ _ Hr Hx) (ring_u64 _ _ Hr Hm)).
  pose proof (ring_u64 _ _ Hr Hx) as Hu. pose proof (ring_u64 _ _ Hr Hm) as Hv. unfold is_u64 in *. lia.
Qed.

(** The successors [init_wired] takes: other members, all of them right. *)
Lemma wired_succs_ok ring s : ring_ok ring → Forall peer_ok ring → ns_self s ∈ ring → 1 ≤ ns_r s →
  let l := wired_succs s ring in
  l ≠ [] ∧ length l ≤ ns_r s ∧ (ns_self s ∉ tail l) ∧ Forall (held_ok (ns_self s)) l ∧ (length ring ≠ 1 → head l ≠ Some (ns_self s)).
Proof.
  intros Hr Hp Hm H1. cbv zeta. rewrite wired_succs_rot by done. destruct (take (ns_r s) (rot ring (find_self (ns_self s) ring))) as [|q l] eqn:E.
  - split_and!; [done|cbn; lia|by apply not_elem_of_nil|constructor; [|done]; by apply (ring_held ring)|].
    intros Hl. exfalso. destruct (ns_r s) as [|r]; [lia|]. destruct (rot ring _) eqn:Er; [|done].
    apply rot_nil in Er; [|done]. by rewrite Er in Hl.
  - assert (Hin : ∀ x, x ∈ q :: l → x ∈ ring ∧ x ≠ ns_self s).
    { intros x Hx. apply (rot_elem ring Hr); [done|]. rewrite <- E in Hx. by eapply elem_of_take in Hx as (i & ? & ?); eapply list_elem_of_lookup_2. }
    split_and!; [done| | | |].
    + rewrite <- E, length_take. lia.
    + cbn. intros Hx. by destruct (Hin (ns_self s)) as [_ []]; [right|].
    + apply Forall_forall. intros x Hx. apply (ring_held ring); [done..|by apply Hin].
    + intros _ [= ->]. by destruct (Hin (ns_self s)) as [_ []]; [left|].
Qed.

(** A member wired from a membership file starts sound; it may take itself for a whole
    ring only if it is the only one. *)
Lemma init_wired_ok ring s : ring_ok ring → Forall peer_ok ring → ns_self s ∈ ring → node_ok true s →
  ∃ s', init_wired s ring = Some s' ∧ node_ok (length ring =? 1) s' ∧ ns_self s' = ns_self s ∧ ns_r s' = ns_r s.
Proof.
  intros Hr Hp Hm [Ht Hst]. pose proof (tb_r _ _ Ht) as H1. unfold init_wired.
  destruct (build_fingers_Some ring Hr (peer_id (ns_self s))) as [fs Hfs]. rewrite Hfs. cbn [mbind option_bind].
  destruct (predecessor_of_precedes ring (peer_id (ns_self s)) Hr (ring_u64 _ _ Hr Hm)) as (p & Hpr & _). rewrite Hpr. cbn [mbind option_bind].
  destruct (wired_succs_ok ring s Hr Hp Hm H1) as (S1 & S2 & S3 & S4 & S5). set (l := wired_succs s ring) in *. clearbody l.
  set (s1 := if 1 <? length ring then _ else _).
  assert (E1 : ns_self s1 = ns_self s ∧ ns_r s1 = ns_r s ∧ ns_succs s1 = l ∧ ns_has_pred s1 = (1 <? length ring) ∧
    ns_contacts s1 = ns_contacts s ∧ ns_strikes s1 = ns_strikes s ∧ ((1 <? length ring) = true → ns_pred s1 = p))
    by (subst s1; destruct (1 <? length ring); upd; split_and!; done).
  clearbody s1. destruct E1 as (E1 & E2 & E3 & E4 & E5 & E6 & E7). eexists. split; [reflexivity|].
  rewrite (proj1 (remember_all_self _ _)), (proj2 (remember_all_self _ _)). upd. split; [|by split].
  apply remember_all. assert (E0 : head l = Some (succ0 s1)) by (unfold succ0; rewrite E3; by destruct l).
  pose proof (length_build_fingers ring _ _ Hfs) as Hlf. pose proof (fingers_in_ring ring _ _ Hr Hfs) as Hif.
  split; [|upd; by rewrite E6]. destruct Ht as [T1 T2 T3 T4 T5 T6 T7 T8 T9 T10 T11 T12]. split; upd; rewrite ?E1, ?E2, ?E3, ?E5; try done.
  - by rewrite length_insert.
  - destruct fs; [done|]. by rewrite E0.
  - unfold ID_BITS. lia.
  - apply Forall_app. split; [done|]. apply Forall_insert; [|].
    + eapply Forall_impl; [exact Hif|]. intros x Hx. by apply (ring_held ring).
    + rewrite Forall_forall in S4. by apply S4, head_elem.
  - rewrite E4. intros Hlt. rewrite (E7 Hlt). apply Nat.ltb_lt in Hlt. destruct (wired_pred ring (ns_self s) p) as [Hin Hne]; [done..|lia|done|].
    split; [|done]. by apply (ring_held ring).
  - intros Hl%Nat.eqb_neq E. exfalso. apply (S5 Hl). rewrite E0. f_equal. revert E. unfold succ0. upd. by rewrite E1.
Qed.
End states.

(** ** Members *)

Section members.
Context {SH : Sha1} {IN : Inet} {IOk : InetOk IN} {W : Type} (transport : Transport (NodeState * W)).

(** Nothing of the process runs yet: a call while it starts leaves its member as it is. *)
Definition starts_quietly : Prop := ∀ to request σ, (transport to request σ).2.1 = σ.1.
Context (Hquiet : starts_quietly).

Lemma quiet_keeps alone me r : others_keep transport alone me r.
Proof using Hquiet. intros to request σ H. unfold Inv. by rewrite Hquiet. Qed.

(** A member that joined has another node for its successor, so it cannot take itself
    for a whole ring. *)
Lemma join_ring_joined known m w m' w' : node_ok true m → join_ring transport known (m, w) = (Joined, (m', w')) →
  node_ok false m' ∧ same_member m m'.
Proof using Hquiet IOk.
  intros Hm. unfold join_ring. cbv zeta. cbn [fst]. assert (Hi : Inv true (ns_self m) (ns_r m) (m, w)) by done.
  pose proof (lookup_inv transport true (ns_self m) (ns_r m) (quiet_keeps _ _ _) known (peer_id (ns_self m)) (m, w) Hi) as Hi1.
  pose proof (result_ok_found transport known (peer_id (ns_self m)) (m, w)) as Hf.
  destruct (lookup transport known (peer_id (ns_self m)) (m, w)) as [res σ1]. cbn [fst snd] in *.
  destruct (result_ok res); cbn [negb]; [|done]. specialize (Hf eq_refl).
  destruct (same_node (found res) (ns_self m)) eqn:Es; [done|]. apply same_node_false in Es.
  destruct (Z.eqb_spec (peer_id (found res)) (peer_id (ns_self m))); [done|].
  pose proof (quiet_keeps true (ns_self m) (ns_r m) (found res) (lit "NEIGHBOURS") σ1 Hi1) as (H2 & Es2 & Er2).
  destruct (transport (found res) _ σ1) as [[d reply] [m2 w2]]. cbn [fst snd] in *. intros [= <- <-].
  destruct (joined_member m2 known (found res) (if bool_decide (d = Ok) then match parse_neighbours reply with inr nb => Some (nb_succs nb) | inl _ => None end else None)) as [J1 J2].
  split; [|split; congruence]. eapply joined_node; [exact H2|by rewrite Es2; split|by rewrite Es2|].
  intros l. case_bool_decide; [|done]. destruct (parse_neighbours reply) eqn:Ep; [done|]. intros [= <-].
  by apply parse_neighbours_ok in Ep as [? _].
Qed.

Lemma join_attempts_ok n known m w m' w' e : node_ok true m → join_attempts transport n known m w = (Some m', e, w') →
  node_ok false m' ∧ same_member m m'.
Proof using Hquiet IOk.
  revert m w. induction n as [|n IH]; intros m w Hm; cbn [join_attempts]; [done|].
  pose proof (join_ring_joined known m w) as Hj.
  pose proof (join_ring_inv transport true (ns_self m) (ns_r m) (quiet_keeps _ _ _) known (m, w)) as Hi.
  destruct (join_ring transport known (m, w)) as [st [m1 w1]]. destruct st; [| |done].
  - intros [= <- _ _]. by apply (Hj m1 w1).
  - destruct Hi as (H1 & E1 & E2); [done|]. cbn [fst snd] in *. intros [H2 [E3 E4]]%IH; [|done]. split; [done|]. split; congruence.
Qed.

Lemma join_members_ok text known ms done_ w out w' : Forall (node_ok true) ms →
  join_members transport text known ms done_ w = (inr out, w') →
  ∃ rest, out = done_ ++ rest ∧ Forall2 (λ m m', node_ok false m' ∧ same_member m m') ms rest.
Proof using Hquiet IOk.
  intros H. revert done_ w. induction H as [|m ms Hm Hms IH]; intros done_ w; cbn [join_members].
  { intros [= <- _]. exists []. by rewrite app_nil_r. }
  pose proof (join_attempts_ok JOIN_ATTEMPTS known m w) as Hj.
  destruct (join_attempts transport JOIN_ATTEMPTS known m w) as [[[m1|] e] w1]; [|by destruct e].
  intros (rest & -> & H)%IH. exists (m1 :: rest). rewrite <- app_assoc. split; [done|]. constructor; [|done]. by eapply Hj.
Qed.

Lemma make_members_inr p r idx acc ms : make_members p r idx acc = inr ms → NoDup ((λ m, peer_id (ns_self m)) <$> acc) →
  ms = acc ++ ((λ i, new_node (member_peer p i) r (Some [])) <$> idx) ∧ NoDup ((λ m, peer_id (ns_self m)) <$> ms).
Proof.
  revert acc. induction idx as [|i idx IH]; intros acc; cbn [make_members]; [intros [= <-]; cbn; by rewrite app_nil_r|].
  destruct (existsb _ acc) eqn:E; [done|]. intros H Hnd. destruct (IH _ H) as [-> H2]; [|split; [by rewrite <- app_assoc|done]].
  rewrite fmap_app. apply NoDup_app. split; [done|]. split; [|apply NoDup_singleton].
  intros x (m & -> & Hm)%list_elem_of_fmap Hx%list_elem_of_singleton. cbn in Hx.
  apply existsb_false_Forall in E. rewrite Forall_forall in E. specialize (E m Hm). cbn in E. apply Z.eqb_neq in E. congruence.
Qed.

(** What the members of a process are made with. *)
Definition member_ids (alone : bool) (me : Peer) (r v : nat) : list (bool * Peer * nat) := (λ i, (alone, member_peer me i, r)) <$> seq 0 v.

Lemma made_sound (alone : bool) me r v ms : (∀ i, i < v → ∃ m, ms !! i = Some m ∧ node_ok alone m ∧ ns_self m = member_peer me i ∧ ns_r m = r) →
  length ms = v → Forall2 member_sound (member_ids alone me r v) ms.
Proof.
  intros H Hl. unfold member_ids. apply Forall2_same_length_lookup_2; [by rewrite length_fmap, length_seq|].
  intros i id m Hid Hm. rewrite list_lookup_fmap in Hid. apply fmap_Some in Hid as (j & [-> Hi]%lookup_seq & ->).
  destruct (H i) as (m' & E & H1 & H2 & H3); [lia|]. cbn in *. simplify_eq. by split.
Qed.

Lemma member_peer_ok me i : address_ok (peer_address me) → peer_ok (member_peer me i).
Proof. intros [H1 H2]. split; [apply member_peer_u64|]. by split. Qed.

Lemma made_lookup me r v i : i < v → made me r v !! i = Some (new_node (member_peer me i) r (Some [])).
Proof. intros Hi. unfold made. by rewrite list_lookup_fmap, lookup_seq_lt by done. Qed.

(** A process's own members, sorted, are a ring. *)
Lemma own_ring me r v : 1 ≤ v → NoDup ((λ m, peer_id (ns_self m)) <$> made me r v) →
  ring_ok (merge_sort by_id (ns_self <$> made me r v)).
Proof.
  intros Hv Hnd. set (own := merge_sort by_id _). assert (Hp : own ≡ₚ ns_self <$> made me r v) by apply merge_sort_Permutation.
  assert (Hs : StronglySorted by_id own) by apply (StronglySorted_merge_sort by_id).
  assert (Hn : NoDup (peer_id <$> own)) by (rewrite Hp, <- list_fmap_compose; exact Hnd).
  assert (Hu : Forall (λ p, is_u64 (peer_id p)) own).
  { rewrite Hp. apply Forall_forall. intros p (m & -> & (i & -> & _)%list_elem_of_fmap)%list_elem_of_fmap. apply member_peer_u64. }
  assert (Hl : length own = v) by (rewrite Hp, length_fmap; unfold made; by rewrite length_fmap, length_seq).
  clearbody own. split; [by destruct own; [cbn in Hl; lia|]|]. split; [|done]. clear Hp Hu Hl Hv Hnd.
  induction Hs as [|x l Hl IH Hx]; constructor; rewrite fmap_cons in Hn; apply NoDup_cons in Hn as [Hx' Hn].
  - by apply IH.
  - rewrite Forall_forall in *. intros y Hy. specialize (Hx y Hy). unfold by_id in Hx.
    destruct (Z.eq_dec (peer_id x) (peer_id y)) as [E|]; [|lia]. destruct Hx'. rewrite E. by apply list_elem_of_fmap_2.
Qed.

Lemma wire_all_sound ring me r v : ring_ok ring → Forall peer_ok ring → address_ok (peer_address me) → 1 ≤ r →
  (∀ i, i < v → member_peer me i ∈ ring) →
  Forall2 member_sound (member_ids (length ring =? 1) me r v) (wire_all (made me r v) ring).
Proof.
  intros Hr Hp Ha H1 Hin. unfold wire_all. apply made_sound; [|by unfold made; rewrite !length_fmap, length_seq].
  intros i Hi. rewrite list_lookup_fmap, made_lookup by done. eexists. split; [reflexivity|].
  destruct (init_wired_ok ring (new_node (member_peer me i) r (Some []))) as (s' & -> & H2 & H3 & H4);
    [done|done|by apply Hin|by apply new_node_ok; [apply member_peer_ok|]|]. done.
Qed.

Lemma start_members_sound o me files w ms w' : address_ok (peer_address me) → options_ok o →
  start_members transport o me files w = (inr ms, w') →
  ∃ alone, Forall2 member_sound (member_ids alone me (Z.to_nat (no_successors o)) (Z.to_nat (no_vnodes o))) ms ∧
    (no_mode o = Join → alone = false).
Proof using Hquiet IOk.
  intros Ha [Hv Hr] H. unfold start_members in H. set (r := Z.to_nat (no_successors o)) in *. set (v := Z.to_nat (no_vnodes o)) in *.
  assert (H1 : 1 ≤ r ∧ 1 ≤ v) by (subst r v; lia). destruct H1 as [Hr1 Hv1]. clearbody r v.
  destruct (make_members me r (seq 0 v) []) as [e|ms0] eqn:Em; [done|]. apply make_members_inr in Em as [E0 Hnd]; [|constructor].
  change (ms0 = made me r v) in E0. subst ms0. cbv zeta in H. destruct (_ && _) in H; [done|].
  destruct (bool_decide (no_mode o = Fixed) || bool_decide (no_mode o = Wired)) eqn:Emode.
  { destruct (read_members _ _) as [|processes] eqn:Er in H; [done|]. destruct (expand_members processes v) as [|ring] eqn:Ee; [done|].
    destruct (existsb (λ p, same_process p me) processes) eqn:Ex; cbn [negb] in H; [|done]. injection H as <- <-.
    exists (length ring =? 1). split; [|intros E; by rewrite E in Emode].
    apply existsb_exists in Ex as (p & Hp & [Ei Ep]%same_process_true). apply list_elem_of_In in Hp.
    pose proof (expand_members_ring _ _ _ Ee) as [Hring Hin].
    apply wire_all_sound; [done|eapply ring_peers_ok, Ee; by eapply read_members_ok|done..|].
    intros i Hi. apply Hin. exists p, i. split; [done|]. split; [done|]. unfold member_peer. by rewrite Ei, Ep. }
  destruct (bool_decide (no_mode o = Create)) eqn:Ec; [apply bool_decide_eq_true in Ec|].
  { rewrite Ec. set (own := merge_sort by_id _) in *. pose proof (own_ring me r v Hv1 Hnd) as Hring. fold own in Hring.
    assert (Hp : own ≡ₚ ns_self <$> made me r v) by apply merge_sort_Permutation. destruct (Nat.eqb_spec (length own) 1) as [El|El].
    - injection H as <- <-. exists true. split; [|done]. apply made_sound; [|by unfold made; rewrite !length_fmap, length_seq].
      intros i Hi. rewrite list_lookup_fmap, made_lookup by done. eexists. split; [reflexivity|]. split; [|done].
      apply init_alone_ok, new_node_ok; [by apply member_peer_ok|done].
    - injection H as <- <-. exists (length own =? 1). split; [|done]. apply wire_all_sound; [done| |done..|].
      + rewrite Hp. apply Forall_forall. intros p (m & -> & (i & -> & _)%list_elem_of_fmap)%list_elem_of_fmap. by apply member_peer_ok.
      + intros i Hi. rewrite Hp. apply list_elem_of_fmap. exists (new_node (member_peer me i) r (Some [])). split; [done|].
        eapply list_elem_of_lookup_2. by apply made_lookup. }
  destruct (parse_address (no_known o)) as [known|]; [|done].
  apply join_members_ok in H as (rest & -> & H).
  2:{ apply Forall_forall. intros m (i & -> & _)%list_elem_of_fmap. apply new_node_ok; [by apply member_peer_ok|done]. }
  exists false. split; [|done]. cbn [app]. pose proof (Forall2_length _ _ _ H) as Hl. unfold made in Hl. rewrite length_fmap, length_seq in Hl.
  apply made_sound; [|done]. intros i Hi.
  destruct (Forall2_lookup_l _ _ _ i (new_node (member_peer me i) r (Some [])) H) as (m' & E & H2 & H3 & H4); [by apply made_lookup|].
  exists m'. split; [done|]. split; [done|]. by rewrite H3, H4.
Qed.

Lemma start_chunks_sound o ms files disk blank env now n : chunks_ok (no_store o) disk →
  start_chunks o ms files disk blank env now = inr n → process_ok n ∧ cn_bodies n = 0 ∧ cn_members n = ms.
Proof.
  intros Hd H. unfold start_chunks in H. destruct (if bool_decide (no_gc_key_file o = []) then _ else _) as [key|]; [|done].
  case_bool_decide as Es; [injection H as <-; split; [split; [cbn; lia|done]|done]|].
  destruct (store_open blank disk (no_store o) env now) as [[[ok s] d] report] eqn:Eo. destruct ok; [|done]. injection H as <-.
  split; [|by upd]. split; [upd; cbn; lia|]. upd. intros s0 [= <-]. by eapply store_open_ok.
Qed.

Lemma open_node_inr o me e n st : open_node o me e n = inr st → sn_node st = n ∧ registry_ok (sn_registry st).
Proof.
  destruct (every_process_registers unit unit (ne_started e)) as [(r & ni & Er & Hreg & _) _].
  unfold open_node. rewrite Er. clear Er. destruct (metrics_refused o me e); [done|]. destruct (listen_on (ne_listen e)); [done|].
  destruct (if (background o n).1 then ne_threads e else None); [done|]. by intros [= <-].
Qed.

(** C39. A node that gets as far as accepting connections is sound. Whatever arguments it
    is given and whatever the ring answers while its members join, if the store's
    directory holds under each chunk's name that chunk, or nothing, and no call changes
    a member while it starts, then the store
    is a store, no body slot is taken, its members are the ones its options ask for,
    each with sound tables, its metrics are registered, and a process that joined does not
    take itself for a whole ring. *)
Theorem start_is_sound args e w st w' :
  (∀ o, node_options (drop 2 args) = Some o → chunks_ok (no_store o) (ne_disk e)) → node_main transport args e w = (inr st, w') →
  ∃ me o alone, node_options (drop 2 args) = Some o ∧ options_ok o ∧ address_ok (peer_address me) ∧
    sound (member_ids alone me (Z.to_nat (no_successors o)) (Z.to_nat (no_vnodes o))) 0 (sn_node st) ∧
    (no_mode o = Join → alone = false) ∧ registry_ok (sn_registry st).
Proof using Hquiet IOk.
  intros Hd H. unfold node_main in H. destruct args as [|ip [|port [|x rest]]]; try done.
  destruct (parse_address _) as [me|] eqn:Ea; [|done]. destruct (node_options _) as [o|] eqn:Eo; [|done].
  unfold start_node in H. destruct (start_members transport o me (ne_files e) w) as [members w1] eqn:Em.
  apply pair_equal_spec in H as [H _]. destruct members as [|ms]; [done|].
  destruct (start_chunks _ _ _ _ _ _ _) as [|n] eqn:Ec; [done|]. apply open_node_inr in H as [<- Hreg].
  pose proof (node_options_ok _ _ Eo) as Ho.
  assert (Hme : address_ok (peer_address me)).
  { unfold parse_address in Ea. case_bool_decide; [done|]. destruct (parse_members _) as [|[|p []]] eqn:Ep; try done. injection Ea as <-.
    apply parse_members_ok in Ep. by inversion Ep. }
  destruct (start_members_sound o me (ne_files e) w ms w1 Hme Ho Em) as (alone & Hm & Hj).
  destruct (start_chunks_sound o ms _ _ _ _ _ _ (Hd o eq_refl) Ec) as (H1 & H2 & H3).
  exists me, o, alone. split; [done|]. split; [done|]. split; [done|]. split; [|by split]. split; [done|done|by rewrite H3].
Qed.
End members.

(** ** Witness: a node that creates a ring of two members, with an empty store *)
Section witness.
#[local] Existing Instances spread_sha1 spread_sha1_ok quad_inet.

Definition demo_start_args : list bytes :=
  [lit "10.0.0.1"; lit "5000"; lit "--create"; lit "--vnodes"; lit "2"; lit "--store"; lit "/store"].
Definition demo_ports : ListenCalls := mkListenCalls true None None None.
Definition demo_start_env : NodeEnv :=
  mkNodeEnv (λ _, None) [] demo_blank demo_open_env 100 (S754_zero false) demo_ports None demo_ports None (λ _, lit "error").
Definition demo_quiet : Transport (NodeState * unit) := λ _ _ σ, ((Refused, []), σ).
Definition is_started (r : StartExit + StartedNode) : bool := match r with inr _ => true | inl _ => false end.

Lemma start_is_sound_witness : ∃ st, (node_main demo_quiet demo_start_args demo_start_env tt).1 = inr st ∧
  ∃ me o alone, node_options (drop 2 demo_start_args) = Some o ∧ options_ok o ∧ address_ok (peer_address me) ∧
    sound (member_ids alone me (Z.to_nat (no_successors o)) (Z.to_nat (no_vnodes o))) 0 (sn_node st) ∧
    (no_mode o = Join → alone = false) ∧ registry_ok (sn_registry st).
Proof.
  assert (Hs : is_started (node_main demo_quiet demo_start_args demo_start_env tt).1 = true) by (vm_compute; reflexivity).
  destruct (node_main demo_quiet demo_start_args demo_start_env tt) as [[e|st] w'] eqn:E; [discriminate Hs|].
  exists st. split; [reflexivity|]. apply (start_is_sound demo_quiet (λ _ _ _, eq_refl) demo_start_args demo_start_env tt st w').
  - intros o _. split; [constructor|]. intros key c _ H. discriminate H.
  - exact E.
Defined.
End witness.
