(* ===== verification/TrackerMain.v ===== *)
(** * TrackerMain: the tracker program (tracker.cpp)

    The command line, the group's configuration and the start of a replica: its log
    file replayed, the storage timed, the metrics registered, the ports opened. What
    the operating system answers is in the arguments; the usage text, accepting
    connections and creating threads are not modelled. *)
From Stdlib Require Import SpecFloat.
From S2P Require Import Prelude Text Net Log Chord Options Lookup Routing Group NodeMain Http Metrics NodeMetrics Raft RaftCluster RaftLog Replica TrackerMetrics MetricsSpec ExposedSpec Tracker.

Definition DEFAULT_READ_DEADLINE_MS : Z := 10000.

(** ** The command line *)

Record TrackerOptions := mkTrackerOptions {
  to_port : Z; to_id : Z; to_election : Z; to_metrics : Z; to_level : Level; to_dir : bytes; to_ip : bytes; to_group : bytes;
  to_read_deadline : Z }.
#[export] Instance TrackerOptions_eta : Eta TrackerOptions := λ o,
  mkTrackerOptions (to_port o) (to_id o) (to_election o) (to_metrics o) (to_level o) (to_dir o) (to_ip o) (to_group o) (to_read_deadline o).
Definition default_options (port : Z) : TrackerOptions :=
  mkTrackerOptions port (-1) 150 0 Info (lit ".") (lit "0.0.0.0") [] DEFAULT_READ_DEADLINE_MS.

Definition value_option (a v : bytes) (o : TrackerOptions) : option TrackerOptions :=
  let opt x := bool_decide (a = x) in
  let int lo hi f := n ← parse_int v lo hi; Some (f n) in
  if opt (lit "--dir") then Some (o <| to_dir := v |>)
  else if opt (lit "--ip") then Some (o <| to_ip := v |>)
  else if opt (lit "--read-deadline") then int 10%Z 600000%Z (λ n, o <| to_read_deadline := n |>)
  else if opt (lit "--group") then Some (o <| to_group := v |>)
  else if opt (lit "--id") then int 0%Z 1000%Z (λ n, o <| to_id := n |>)
  else if opt (lit "--election") then int 20%Z 600000%Z (λ n, o <| to_election := n |>)
  else if opt (lit "--metrics") then int 1%Z 65535%Z (λ n, o <| to_metrics := n |>)
  else if opt (lit "--log-level") then l ← parse_level v; Some (o <| to_level := l |>)
  else None.

Fixpoint parse_args (args : list bytes) (o : TrackerOptions) : option TrackerOptions :=
  match args with
  | [] => Some o
  | [_] => None
  | a :: v :: args => o ← value_option a v o; parse_args args o
  end.
Definition tracker_options (args : list bytes) : option TrackerOptions :=
  match args with
  | [] => None
  | port :: args => port ← parse_int port 1 65535; parse_args args (default_options port)
  end.

(** ** The group *)

(** The group given, or this replica alone. *)
Definition group_config `{Sha1, Inet} (o : TrackerOptions) : StartExit + ReplicaConfig :=
  if bool_decide (to_group o = []) then
    if (0 <? to_id o)%Z then inl Usage
    else inr (mkReplicaConfig [mkAddress (if bool_decide (to_ip o = lit "0.0.0.0") then lit "127.0.0.1" else to_ip o) (to_port o)] 0 (to_election o))
  else match parse_address_list (to_group o) with
  | inl err => inl (NodeMain.Exits 2 (lit "--group: " ++ err))
  | inr group =>
      if (to_id o <? 0)%Z || (Z.of_nat (length group) <=? to_id o)%Z ||
         negb (bool_decide (ad_port <$> group !! Z.to_nat (to_id o) = Some (to_port o)))
      then inl (NodeMain.Exits 2 (lit "--id must be this replica's position in --group, whose port must be " ++ to_string (to_port o)))
      else inr (mkReplicaConfig group (Z.to_nat (to_id o)) (to_election o))
  end.

(** ** The start *)

Definition log_path (o : TrackerOptions) : bytes := to_dir o ++ lit "/raft_" ++ to_string (to_port o) ++ lit ".log".
Definition start_entry (level : Level) (msg : bytes) : Level * bytes * list LogField := (level, lit "tracker.start", [(lit "msg", msg)]).

Section start.
Context {SH : Sha1} {IN : Inet}.
Abbreviation Stored := (TimedStorage FileStorage) (only parsing).

(** What the operating system answers: to opening the log, to opening the metrics
    port, to listening; and the randomness and clock of the core. *)
Record TrackerEnv := mkTrackerEnv {
  te_open : OpenEnv; te_metrics : ListenCalls; te_metrics_thread : option bytes; te_listen : ListenCalls; te_strerror : Errno → bytes;
  te_random : nat → Z; te_now : Millis; te_started : double; te_flushes : list double }.

Record StartedTracker := mkStartedTracker {
  tk_replica : Replica (TimedStorage FileStorage); tk_registry : Registry (TrackerReads (S := TimedStorage FileStorage));
  tk_instruments : TrackerInstruments; tk_log : list (Level * bytes * list LogField) }.

Definition ready_entry (o : TrackerOptions) (p : Replica (TimedStorage FileStorage)) : Level * bytes * list LogField :=
  (Info, lit "tracker.start",
   [(lit "replica", to_string (Z.of_nat (rc_id (rp_cfg p)))); (lit "of", to_string (Z.of_nat (length (rc_group (rp_cfg p)))));
    (lit "group", rp_fingerprint p); (lit "election_ms", to_string (to_election o));
    (lit "listen", to_ip o ++ lit ":" ++ to_string (to_port o))]).

(** The same replica, its core over another state of the storage. *)
Definition with_storage (p : Replica (TimedStorage FileStorage)) (t : TimedStorage FileStorage) : Replica (TimedStorage FileStorage) :=
  p <| rp_raft := (rp_raft p) <| storage := t |> |>.

(** The replica over the recovered storage. No flush is observed before the histogram
    is registered, and every later one is. *)
Definition recovered_replica (c : ReplicaConfig) (e : TrackerEnv) (file : FileStorage) (d : Durable) : Replica (TimedStorage FileStorage) :=
  let p := replica_init c (mkTimedStorage file false [] (te_flushes e)) d (te_random e) (te_now e) in
  with_storage p (mkTimedStorage (ts_inner (storage (rp_raft p))) true (ts_observed (storage (rp_raft p))) (ts_seconds (storage (rp_raft p)))).

Definition registration (started : double) : Registry (TrackerReads (S := TimedStorage FileStorage)) * (bytes + TrackerInstruments) :=
  register_metrics started empty_registry.
Definition started (o : TrackerOptions) (p : Replica (TimedStorage FileStorage)) (r : Registry (TrackerReads (S := TimedStorage FileStorage)))
    (ti : TrackerInstruments) (report : bytes) : StartedTracker :=
  mkStartedTracker p r ti [start_entry Info report; ready_entry o p].

(** The metrics port, if one was asked for. *)
Definition metrics_refused (o : TrackerOptions) (e : TrackerEnv) : option bytes :=
  if (to_metrics o =? 0)%Z then None else serve_metrics (te_strerror e) (to_ip o) (to_metrics o) (te_metrics e) (te_metrics_thread e).

Definition start_tracker (o : TrackerOptions) (e : TrackerEnv) : StartExit + StartedTracker :=
  match group_config o with
  | inl exit => inl exit
  | inr c =>
      match open_file (log_path o) (te_open e) with
      | inl err => inl (NodeMain.Exits 1 err)
      | inr (file, d, report) =>
          let p := recovered_replica c e file d in
          match registration (te_started e) with
          | (_, inl err) => inl (NodeMain.Exits 134 err)
          | (r, inr ti) =>
              match metrics_refused o e with
              | Some err => inl (NodeMain.Exits 1 err)
              | None =>
                  match listen_on (te_listen e) with
                  | Some err => inl (NodeMain.Exits 1 (lit "cannot listen on " ++ to_ip o ++ lit ":" ++ to_string (to_port o) ++ lit ": " ++ te_strerror e err))
                  | None => inr (started o p r ti report)
                  end
              end
          end
      end
  end.
End start.

(** ** A restart *)

(** What a replica that has just started, or has only set its timer, is. *)
Record fresh {S} (c : RaftConfig) (st : S) (d : Durable) (s : Raft S) : Prop := {
  fr_term : term s = d_term d; fr_vote : voted_for s = d_voted_for d; fr_log : log s = d_log d; fr_role : role s = Follower;
  fr_storage : storage s = st; fr_applied_out : applied_out s = []; fr_stopped : stopped s = false; fr_dirty : dirty s = false;
  fr_commit : commit s = 0; fr_applied : applied s = 0; fr_reads : reads s = [] }.

Lemma apply_committed_fresh {S} c (st : S) d s : fresh c st d s → fresh c st d (apply_committed s).
Proof.
  intros []. unfold apply_committed. split; upd; try done.
  - rewrite fr_commit0, fr_applied0, fr_applied_out0. done.
  - by rewrite fr_commit0, fr_applied0.
Qed.
Lemma finish_fresh {S} `{Storage S} c (st : S) d s : fresh c st d s → fresh c st d (finish s).
Proof.
  intros Hf. unfold finish. rewrite (fr_stopped _ _ _ _ Hf), (fr_dirty _ _ _ _ Hf). unfold commit_and_apply.
  rewrite (fr_role _ _ _ _ Hf). rewrite bool_decide_false by done. unfold resolve_reads.
  apply apply_committed_fresh in Hf. by rewrite (fr_reads _ _ _ _ Hf), bool_decide_true.
Qed.
Lemma raft_init_fresh {S} `{Storage S} c (st : S) d rs now : cfg_size c ≠ 1 → fresh c st d (raft_init c st d rs now).
Proof. intros Hn. unfold raft_init. apply Nat.eqb_neq in Hn as ->. apply finish_fresh. by split. Qed.

Lemma replica_init_follower {SH : Sha1} {S} `{Storage S} c (st : S) d rs now : length (rc_group c) ≠ 1 →
  let p := replica_init c st d rs now in let s := rp_raft p in
  rp_cfg p = c ∧ rp_ns p = [] ∧ term s = d_term d ∧ voted_for s = d_voted_for d ∧ log s = d_log d ∧
  role s = Follower ∧ storage s = st.
Proof.
  intros Hn. unfold replica_init. pose proof (raft_init_fresh (raft_config c) st d rs now Hn) as Hf.
  set (s := raft_init (raft_config c) st d rs now) in *. clearbody s.
  unfold after_core. destruct (dispatch_keeps (core (replica_fields c s) s)) as (K & E & _). rewrite E. clear E.
  assert (Ec : rp_raft (core (replica_fields c s) s) = s <| applied_out := [] |> ∧ rp_cfg (core (replica_fields c s) s) = c ∧
    rp_ns (core (replica_fields c s) s) = []) by (unfold core; by rewrite (fr_applied_out _ _ _ _ Hf)).
  destruct Ec as (-> & Ec & En). destruct K, Hf. split; [congruence|]. split; [congruence|]. by upd.
Qed.

Lemma with_storage_fields p t : let s := rp_raft p in let s' := rp_raft (with_storage p t) in
  rp_cfg (with_storage p t) = rp_cfg p ∧ rp_ns (with_storage p t) = rp_ns p ∧ term s' = term s ∧ voted_for s' = voted_for s ∧
  log s' = log s ∧ role s' = role s ∧ storage s' = t.
Proof. destruct p as [? ? ? ? ? ? ? r]. destruct r. repeat split. Qed.

Lemma recovered_replica_fields {SH : Sha1} c e file d : length (rc_group c) ≠ 1 →
  let p := recovered_replica c e file d in let s := rp_raft p in
  rp_cfg p = c ∧ rp_ns p = [] ∧ term s = d_term d ∧ voted_for s = d_voted_for d ∧ log s = d_log d ∧ role s = Follower ∧
  ts_inner (storage s) = file.
Proof.
  intros Hn. unfold recovered_replica.
  destruct (replica_init_follower c (mkTimedStorage file false [] (te_flushes e)) d (te_random e) (te_now e) Hn) as (F1 & F2 & F4 & F5 & F6 & F7 & F8).
  set (p := replica_init _ _ _ _ _) in *. clearbody p. cbv zeta. set (t := mkTimedStorage _ true _ _).
  assert (ts_inner t = file) as Et by (unfold t; by rewrite F8). clearbody t.
  destruct (with_storage_fields p t) as (E1 & E2 & E3 & E4 & E5 & E6 & E7). cbv zeta in *. rewrite E1, E2, E3, E4, E5, E6, E7. tauto.
Qed.

(** C8. A tracker of a group of several that stopped anywhere in a save starts again,
    unless a port is taken:
    replaying its log file gives a state the storage contract allows for the save that
    was cut short, the replica starts as a follower with exactly that term, vote and
    log, on disk what it is in memory, its metrics registered, and nothing applied yet. *)
Theorem tracker_restarts {SH : Sha1} {SHok : Sha1Ok SH} {IN : Inet} o c e st t vote from l n st' :
  group_config o = inr c → length (rc_group c) ≠ 1 →
  file_ok st → savable (held_file st) t vote from l → fs_fault st = Some n →
  length (batch_of (batch_bodies st t vote from l)) ≤ LOG_TAIL_LIMIT → save st t vote from l = (false, st') →
  te_open e = mkOpenEnv (Some (fs_file st')) None None None true →
  metrics_refused o e = None → listen_on (te_listen e) = None →
  ∃ tk D', start_tracker o e = inr tk ∧ partial_save (held_file st) t vote from l D' ∧
    let s := rp_raft (tk_replica tk) in
    term s = d_term D' ∧ voted_for s = d_voted_for D' ∧ log s = d_log D' ∧ role s = Follower ∧
    held_file (ts_inner (storage s)) = D' ∧ file_ok (ts_inner (storage s)) ∧
    rp_cfg (tk_replica tk) = c ∧ rp_ns (tk_replica tk) = [] ∧ registry_ok (tk_registry tk).
Proof.
  intros Hc Hn Hok Hsv Hf Hlim Hsave He Hm Hlisten.
  destruct (crash_leaves_prefix (log_path o) st t vote from l n st' Hok Hsv Hf Hlim Hsave) as (st2 & D' & report & Eo & Hp & Hh & Hok').
  destruct (registers_result (TrackerMetrics.register_metrics (S := TimedStorage FileStorage) (te_started e))) as (r & ti & Er & Hr & _);
    [apply tracker_registers|vm_compute; reflexivity|].
  exists (started o (recovered_replica c e st2 D') r ti report), D'. split.
  { unfold start_tracker. rewrite Hc, He, Eo. unfold registration. by rewrite Er, Hm, Hlisten. }
  split; [done|]. unfold started. cbn [tk_replica tk_registry]. clear Er.
  destruct (recovered_replica_fields c e st2 D' Hn) as (F1 & F2 & F4 & F5 & F6 & F7 & F8). cbv zeta. rewrite F8. tauto.
Qed.

Section witness.
#[local] Existing Instances demo_sha1 demo_sha1_ok quad_inet.

Definition demo_options : TrackerOptions :=
  default (default_options 0)
    (tracker_options [lit "7001"; lit "--group"; lit "10.0.0.1:7001,10.0.0.2:7002,10.0.0.3:7003"; lit "--id"; lit "0"; lit "--dir"; lit "/tmp"]).
Definition demo_config : ReplicaConfig :=
  mkReplicaConfig [mkAddress "10.0.0.1" 7001; mkAddress "10.0.0.2" 7002; mkAddress "10.0.0.3" 7003] 0 150.
Definition demo_torn : FileStorage := (save (demo_file (Some 30)) 1%N (Some 2) 1 demo_log).2.
Definition demo_environment : TrackerEnv :=
  mkTrackerEnv (mkOpenEnv (Some (fs_file demo_torn)) None None None true) (mkListenCalls true None None None) None
    (mkListenCalls true None None None) (λ _, lit "error") (λ _, 7%Z) 0 (S754_zero false) [].

(** A three-replica group; the file ends thirty bytes into a batch. *)
Lemma tracker_restarts_witness :
  ∃ tk D', start_tracker demo_options demo_environment = inr tk ∧ partial_save (held_file (demo_file (Some 30))) 1 (Some 2) 1 demo_log D' ∧
    let s := rp_raft (tk_replica tk) in
    term s = d_term D' ∧ voted_for s = d_voted_for D' ∧ log s = d_log D' ∧ role s = Follower ∧
    held_file (ts_inner (storage s)) = D' ∧ file_ok (ts_inner (storage s)) ∧
    rp_cfg (tk_replica tk) = demo_config ∧ rp_ns (tk_replica tk) = [] ∧ registry_ok (tk_registry tk).
Proof.
  apply (tracker_restarts demo_options demo_config demo_environment (demo_file (Some 30)) 1 (Some 2) 1 demo_log 30 demo_torn).
  - vm_compute. reflexivity.
  - done.
  - apply demo_file_ok.
  - apply demo_savable.
  - done.
  - apply Nat.leb_le. vm_compute. reflexivity.
  - vm_compute. reflexivity.
  - done.
  - done.
  - vm_compute. reflexivity.
Defined.
End witness.
